(* ===== verification/_CoqProject ===== *)
-Q . S2P
Prelude.v
RustStr.v
Unicode.v
Utf8.v
Error.v
Effects.v
Store.v
StoreFacts.v
StoreSpec.v
StoreProps.v
Worker.v
WorkerFacts.v
WorkerProps.v
Reader.v
ReaderProps.v
Address.v
AddressProps.v
Html.v
HtmlFacts.v
HtmlProps.v
Mime.v
MimeProps.v
ConfigData.v
Routing.v
Formatter.v
Net.v
Config.v
ConfigProps.v
Session.v
SessionFacts.v
SessionProps.v
Serve.v
Deadline.v
Client.v
ClientProps.v
Main.v
System.v
SystemFacts.v
SystemProps.v
Process.v
ProcessFacts.v
ProcessProps.v
Relay.v
Fair.v
Timed.v
Eras.v
Room.v
PowerLoss.v
FakeSink.v
Retry.v
Testing.v
TestStore.v
TestWorker.v
TestSmtp.v
TestMime.v
TestSessions.v
TestConfig.v
Tests.v
Wakeup.v
Delivery.v
EndToEnd.v
