(* ===== verification/Prelude.v ===== *)
(** * Chimney Post: a verification library (root file and prelude)

    Chimney Post is an SMTP server that puts each mail it accepts into a persistent
    outbox and forwards it to Matrix rooms.  This library models its Rust code and
    proves what an operator relies on: mail that was acknowledged is never lost, a
    session keeps to the protocol, messages go to the right room and not in the clear,
    and the service starts, drains and stops in order.

    ** The program and its model

    A connection is accepted by [serve_smtp], which gives it a task when the connection
    semaphore has a permit.  The task runs [handle_connection]: it reads command lines
    and DATA blocks, parses the envelope, builds a message and enqueues it in the
    [MessageStore] before it answers 250.  The store is an SQLite database with the
    tables outbox and dead_letter, shared by all tasks behind one lock, and a [Notify].
    One delivery worker connects to Matrix, claims the next message that is due, hands
    it to its sink and removes it, parks it for a retry or moves it to the dead letters.
    [main] loads the configuration, opens the store, binds, spawns the tasks and drains
    the worker on a signal.

    The files, in dependency order, with the source each models:

    - [Prelude]: machine integers with their wrap-around and saturation, the error
      monad [result], generic lemmas, the hint database [chimney].
    - [RustStr], [Unicode], [Utf8]: what the source uses of [str] and [String].  A string
      is the list of its characters ([str]), a byte string a list of [Z] ([bytes]);
      [lit] embeds a literal.  [to_uppercase] carries the full table of the standard
      library.  [Net]: the parser of [SocketAddr].
    - [Error] (error.rs): the error type with its texts.
    - [Effects]: asynchronous code as trees of effects ([prog]), one node per [.await];
      [run] executes one against a handler (the world), [conforms] and [conforms_trace]
      relate it to a protocol automaton in every world.
    - [Store] (queue/store.rs): the two tables as lists of rows, each SQL statement as a
      list function, each operation of [MessageStore] as explicit state passing over a
      [Connection] that holds the tables and the storage faults to come, one per
      statement, transaction boundary and blocking task.  [enqueue] is a program of two
      calls, the closure and the notification.  [StoreFacts] proves each
      operation's effect, [StoreSpec] states the abstract queue and proves the
      refinement, [StoreProps] the properties.
    - [Worker], [WorkerFacts], [WorkerProps] (queue/worker.rs): [run_body] and
      [reconnect_body] are one round of the two loops; the trait [MessageSink] is a type
      class, [handle_failure], [deliver_one] and [idle_wait] the methods of that name.
    - [Reader], [ReaderProps] (smtp/server.rs, 229-339): [read_line_limited_bytes],
      [read_line_limited] and [read_data] over a script of chunks, errors and stalls.
    - [Address], [AddressProps] (341-389): [parse_mail_from], [parse_rcpt_to].
    - [Html], [HtmlFacts], [HtmlProps] (smtp/mime.rs, 140-306): [html_to_text].
    - [Mime], [MimeProps] (smtp/mime.rs, 1-138, and smtp/parser.rs): [parse], [find_text],
      [collect_attachments], [extract_subject_and_body], [parse_data].
    - [ConfigData], [Config], [ConfigProps] (config.rs), [Routing] (matrix/routing.rs),
      [Formatter] (matrix/formatter.rs).
    - [Session], [SessionFacts], [SessionProps] (smtp/server.rs, 92-227): [command] is
      the dispatch on a line, [session_round] one round, [handle_connection] the task.
      [Serve] (32-90): [serve_round], [serve_smtp], [start_smtp_server]; [Deadline]
      (70-86): the accept loop with a clock and the timeout of each session.
    - [Client], [ClientProps] (matrix/client.rs): [connect] and [send_message] over the
      calls of the SDK and of the file system.
    - [Main] (main.rs): [main] and [run_monitor].
    - [System], [SystemFacts], [SystemProps]: sessions, accept loop, worker and monitor as
      tasks on one store, one effect at a time in any order, with faults, shutdown and restarts
      ([sys_step]); [exec] runs a given schedule.  A session may be dropped at any time;
      when it awaits an enqueue then, what it asked the store to do still happens later
      ([sy_orphans]).
    - [Process], [ProcessFacts], [ProcessProps] (main.rs with everything it spawns): [main]
      and its tasks on one clock.  Where [System] lets the tasks start and stop at any
      time, here [main] spawns, signals, awaits and aborts them, and sessions are dropped
      when their deadline is over; an aborted accept loop goes on until it awaits its next
      connection.  [proc_exec] is one action of the process.
    - [Relay]: an abstract mail relay, and the simulation of [System] by it.
    - [Fair]: every fair schedule of [System] after a restart delivers the outbox.
    - [Eras]: the same with a sink that refuses as it likes, over time cut into eras.
    - [Timed]: the worker against a clock that moves while it sleeps, delivers and works on
      the storage, and with any sink ([slow_handler]; [timed_handler] is the case where only
      the sleeps take time); [Retry]: the schedule of the retries, with [FakeSink], the sink of the worker's tests
      (worker.rs, 223-317), which fails as it is told to.
    - [Room]: the members of a room, behind a homeserver that deduplicates the transaction
      ids of a session (a type class with its laws).  [PowerLoss]: [System] on a machine
      whose power fails.
    - [Testing], [TestStore], [TestWorker], [TestSmtp], [TestMime], [TestConfig],
      [TestSessions], [Tests]: the repository's tests (the modules [tests] of src/src and
      src/tests/integration_test.rs) that could be translated, each test a definition of the same name that computes
      [Some tt] when its assertions hold of the definitions of this library.
    - [Wakeup]: the [Notify], the timer and the flag that wake the sleeping worker, with
      the two calls of each [enqueue] apart, and callers that may be dropped before,
      between and after them.
    - [Delivery]: the worker with the Matrix client as its sink.  [EndToEnd]: from the
      configuration file and the client's bytes to the Matrix room, with an interface
      ([WorkingSdk]) for a homeserver that works.

    ** The theorems

    - Nothing is lost: [service_refines_relay], [every_message_in_one_place],
      [no_acknowledged_message_lost], [sink_gets_only_received_mail] (whole service),
      [gone_only_when_sent] (worker and client), [accepted_message_fate],
      [dead_letter_all_or_nothing], [store_refines_queue] (store).
    - Nothing is shown twice: [room_shows_each_message_once].
    - Loss of power: [synced_mail_survives_power_loss]; [power_loss_reuses_transaction_ids]
      is a defect: acknowledged messages may be gone, and a new message can get the
      transaction id of an older one.
    - Mail moves on: [fair_schedule_delivers] and [every_message_comes_to_an_end]
      (whole service, any fair interleaving, a sink that accepts or one that answers
      as it likes), [outbox_empties_in_time] (any sink, with the time it takes), [retry_schedule_exact],
      [no_lost_wakeup], [drain_terminates], [failing_message_does_not_block] (worker).
      [dropped_session_is_not_noticed] is a defect: the enqueue of a session that its
      deadline drops stores its message without waking the worker, which sleeps on.
    - Mail arrives: [mail_reaches_its_room] (configuration, session, outbox, worker, Matrix
      client in a row).
    - A session does what SMTP says: [session_follows_protocol] (in any world),
      [conversation_delivers] (end to end, for any cut into TCP segments),
      [session_terminates]; [read_data_roundtrip], [read_data_truncated],
      [envelope_grammar] for its parts.  [oversized_block_is_executed] is a defect: after
      552 the rest of the block is run as commands.
    - Messages are read and routed as documented: [mime_body_complete],
      [fallback_split_exact], [html_blocks_render_their_text], [tidy_normal_form],
      [resolve_first_match], [send_message_is_guarded].  [header_element_is_lost] is a
      defect of the HTML rendering.
    - Configuration: [validate_exact], [load_from_path_exact], [loaded_config_is_usable].
    - Bounds: [service_is_bounded], [connection_limit], [slots_are_freed_in_time],
      [outbox_never_exceeds_max_len], [read_line_memory_bound],
      [backoff_is_capped_exponential]; [store_casts_lossless] (no [as] cast of the store
      truncates).
    - The process: [process_refines_service] carries what is proved of the service over to
      the process; [main_governs_its_tasks], [main_comes_to_its_end], [process_lifecycle]
      (in any environment), [monitor_warns_on_growth], [worker_stops_only_on_shutdown],
      [connect_is_guarded].  [mail_is_accepted_while_draining] is a defect: the comment on
      the shutdown says that mail is no longer accepted.
    - The translated tests of the repository: [translated_tests_pass].

    ** Fuel

    [session_loop] uses a unit per round; [session_terminates] shows that one more than
    the bytes and events the peer still sends is enough.  [read_data] starts its loop with
    one more than that size, [decode_entities] and [strip_elements] with one more than
    the length of the text: the [None] of their loops is never reached
    ([read_data_ends_within_size], [html_rendering_total_and_tag_free]).  [run_loop] gives
    the worker's endless loops a number of rounds; [drain_terminates] and
    [outbox_empties_in_time] give bounds.  The tests run the worker for at most 50
    rounds and a session for at most 100; [Some tt] means that they ended before.
    [run_monitor] and [serve_smtp] never return unless told to; their fuel is the number
    of rounds looked at, and their theorems hold for all.

    ** What is assumed, and what is left out

    Code of other crates is a parameter: [mailparse] (the part tree, [ParsedMail]),
    [validator] ([validate_email]), [toml], [url], [ruma] and [minijinja] (a type class),
    [matrix-sdk] (the effects of [Client]).  Nothing is assumed of them.  Only the theorem
    of [Room] supposes something of the homeserver: that in one session a transaction id it
    has seen is answered and not sent again ([Homeserver]); and [mail_reaches_its_room] is about a homeserver that works ([WorkingSdk]).  SQLite is
    modelled at the level of its statements: a statement fails and changes nothing or
    takes effect, a transaction is atomic, [AUTOINCREMENT] never reuses an id, committed
    rows survive a restart of the process.  A power loss, only in [PowerLoss], leaves the
    tables as they were after some commit since the last sync of the log, which is what
    SQLite documents for [synchronous=NORMAL].  Broken disks are not modelled.
    Logging, the boxed futures and lifetimes, the thread pool and the poisoning of the
    lock (which [panic = abort] rules out) are left out, as are the module
    declarations.  Arithmetic is that of the release profile: it wraps.

    Of the repository's tests, eight unit tests are left out that look inside another crate (the
    decoding of [mailparse], rendered [minijinja] templates, the text of
    config.example.toml), or that poison the lock.  Where a test of [smtp/mime.rs],
    [smtp/parser.rs] or the integration tests gives [mailparse] a text, the part tree for
    this text is written out in the test.  A
    test that waits for the queue before it signals the worker has a shutdown flag that
    is a function of the queue.

    ** What could follow

    The printer of [SocketAddr] and its round trip with the parser of [Net]; the waits of
    the worker's selects (their timers are explicit in [Wakeup] and [Timed]) on the clock
    of [Process]; the log lines. *)

From Stdlib Require Export ZArith Lia.
From stdpp Require Export base tactics list numbers option sorting strings gmap pretty.

#[global] Open Scope Z_scope.

Declare Scope chimney_scope.
Delimit Scope chimney_scope with chimney.

(** ** Machine integers

    A [u64], [u32], [usize] or [i64] of the source is a [Z] in its range;
    the operations that can leave the range are written out. *)

Definition u32_max : Z := 2 ^ 32 - 1.
Definition u64_max : Z := 2 ^ 64 - 1.
Definition i64_max : Z := 2 ^ 63 - 1.
Definition i64_min : Z := - 2 ^ 63.

Definition is_u32 (z : Z) : Prop := 0 <= z <= u32_max.
Definition is_u64 (z : Z) : Prop := 0 <= z <= u64_max.
Definition is_i64 (z : Z) : Prop := i64_min <= z <= i64_max.

(** [x as u32], [x as u64], [x as i64]: truncation to the width. *)
Definition as_u32 (z : Z) : Z := z mod 2 ^ 32.
Definition as_u64 (z : Z) : Z := z mod 2 ^ 64.
Definition as_i64 (z : Z) : Z := (z + 2 ^ 63) mod 2 ^ 64 - 2 ^ 63.

(** [u64::saturating_mul], [u64::saturating_pow] and the [usize] versions of
    [saturating_sub] and [saturating_add] (a [usize] has 64 bits). *)
Definition sat_u64 (z : Z) : Z := Z.max 0 (Z.min u64_max z).
Definition saturating_mul (a b : Z) : Z := sat_u64 (a * b).
Definition saturating_pow (a n : Z) : Z := sat_u64 (a ^ n).
Definition saturating_sub (a b : Z) : Z := sat_u64 (a - b).
Definition saturating_add (a b : Z) : Z := sat_u64 (a + b).

(** Wrapping additions: the release profile of the crate leaves
    overflow checks off, so [+] wraps. *)
Definition add_u32 (a b : Z) : Z := as_u32 (a + b).
Definition add_i64 (a b : Z) : Z := as_i64 (a + b).

Lemma as_u32_id z : is_u32 z -> as_u32 z = z.
Proof. unfold is_u32, as_u32, u32_max. intros. apply Z.mod_small. lia. Qed.

Lemma as_u32_range z : is_u32 (as_u32 z).
Proof. unfold is_u32, as_u32, u32_max. pose proof (Z.mod_pos_bound z (2 ^ 32)). lia. Qed.

Lemma as_u64_id z : is_u64 z -> as_u64 z = z.
Proof. unfold is_u64, as_u64, u64_max. intros. apply Z.mod_small. lia. Qed.

Lemma as_i64_id z : is_i64 z -> as_i64 z = z.
Proof.
  unfold is_i64, as_i64, i64_min, i64_max. intros.
  rewrite Z.mod_small; lia.
Qed.

Lemma add_u32_id a b : is_u32 (a + b) -> add_u32 a b = a + b.
Proof. apply as_u32_id. Qed.

Lemma add_i64_id a b : is_i64 (a + b) -> add_i64 a b = a + b.
Proof. apply as_i64_id. Qed.

Lemma sat_u64_range z : is_u64 (sat_u64 z).
Proof. unfold is_u64, sat_u64, u64_max. lia. Qed.

Lemma sat_u64_id z : is_u64 z -> sat_u64 z = z.
Proof. unfold is_u64, sat_u64, u64_max. lia. Qed.

(** ** The [Result] of Rust *)

Inductive result (E A : Type) : Type :=
| Ok (a : A)
| Err (e : E).
Arguments Ok {E A} a.
Arguments Err {E A} e.

#[export] Instance result_eq_dec {E A} `{EqDecision E, EqDecision A} :
  EqDecision (result E A).
Proof. solve_decision. Defined.

#[export] Instance result_ret E : MRet (result E) := fun A a => Ok a.
#[export] Instance result_bind E : MBind (result E) := fun A B f r =>
  match r with Ok a => f a | Err e => Err e end.
#[export] Instance result_fmap E : FMap (result E) := fun A B f r =>
  match r with Ok a => Ok (f a) | Err e => Err e end.

(** [r.map_err(f)], [o.ok_or(e)], [r.ok()], [r.unwrap_or(d)]. *)
Definition map_err {E F A} (f : E -> F) (r : result E A) : result F A :=
  match r with Ok a => Ok a | Err e => Err (f e) end.
Definition ok_or {E A} (o : option A) (e : E) : result E A :=
  match o with Some a => Ok a | None => Err e end.
Definition result_ok {E A} (r : result E A) : option A :=
  match r with Ok a => Some a | Err _ => None end.
Definition unwrap_or {E A} (r : result E A) (d : A) : A :=
  match r with Ok a => a | Err _ => d end.

Definition is_Ok {E A} (r : result E A) : Prop := exists a, r = Ok a.

(** [iter.map(f).collect::<Result<Vec<_>>>()] over an enumerated list: stops at
    the first error. *)
Fixpoint collect_results {E A B} (f : nat -> A -> result E B) (i : nat) (l : list A)
  : result E (list B) :=
  match l with
  | [] => Ok []
  | a :: l' => b ← f i a; bs ← collect_results f (S i) l'; Ok (b :: bs)
  end.

Lemma collect_results_ok {E A B} (f : nat -> A -> result E B) i l bs :
  collect_results f i l = Ok bs <->
  length bs = length l /\
  forall k a, l !! k = Some a -> exists b, bs !! k = Some b /\ f (i + k)%nat a = Ok b.
Proof.
  revert i bs. induction l as [|a l IH]; intros i bs; simpl.
  - split.
    + intros [= <-]. split; [done|]. intros k a. by rewrite lookup_nil.
    + intros [Hlen _]. by destruct bs.
  - split.
    + intros H. destruct (f i a) as [b|] eqn:Hf; simpl in H; [|done].
      destruct (collect_results f (S i) l) as [bs'|] eqn:Hc; simpl in H; [|done].
      injection H as <-. apply IH in Hc as [Hlen Hall]. split; [simpl; lia|].
      intros [|k] a' Hk; simpl in Hk.
      * injection Hk as <-. exists b. rewrite Nat.add_0_r. done.
      * destruct (Hall k a' Hk) as (b' & ? & ?). exists b'. split; [done|].
        by rewrite Nat.add_succ_r.
    + intros [Hlen Hall]. destruct bs as [|b bs]; [done|].
      destruct (Hall 0%nat a eq_refl) as (b0 & Hb0 & Hf).
      injection Hb0 as <-. rewrite Nat.add_0_r in Hf. rewrite Hf. simpl.
      assert (collect_results f (S i) l = Ok bs) as ->; [|done].
      apply IH. split; [simpl in Hlen; lia|]. intros k a' Hk.
      destruct (Hall (S k) a' Hk) as (b' & ? & Hf'). exists b'. split; [done|].
      by rewrite Nat.add_succ_r in Hf'.
Qed.

Lemma collect_results_is_Ok {E A B} (f : nat -> A -> result E B) i l :
  is_Ok (collect_results f i l) <-> forall k a, l !! k = Some a -> is_Ok (f (i + k)%nat a).
Proof.
  revert i. induction l as [|a l IH]; intros i; simpl.
  - split; [intros _ k a; by rewrite lookup_nil|]. intros _. by exists [].
  - split.
    + intros [bs H]. destruct (f i a) as [b|] eqn:Hf; simpl in H; [|done].
      destruct (collect_results f (S i) l) as [bs'|] eqn:Hc; simpl in H; [|done].
      intros [|k] x Hk; simpl in Hk; [simplify_eq; rewrite Nat.add_0_r, Hf; by exists b|].
      replace (i + S k)%nat with (S i + k)%nat by lia. apply (proj1 (IH (S i))); [by exists bs'|done].
    + intros Hall. destruct (Hall 0%nat a eq_refl) as [b Hb]. rewrite Nat.add_0_r in Hb. rewrite Hb. simpl.
      destruct (proj2 (IH (S i))) as [bs Hbs].
      { intros k x Hk. replace (S i + k)%nat with (i + S k)%nat by lia. by apply Hall. }
      rewrite Hbs. by exists (b :: bs).
Qed.

(** ** Generic list lemmas *)

(** The first element with the least key, [ORDER BY .. LIMIT 1]. *)
Fixpoint first_by {A} (before : A -> A -> bool) (l : list A) : option A :=
  match l with
  | [] => None
  | a :: l' =>
      match first_by before l' with
      | None => Some a
      | Some b => if before b a then Some b else Some a
      end
  end.

Lemma first_by_elem {A} before (l : list A) a : first_by before l = Some a -> a ∈ l.
Proof.
  revert a. induction l as [|x l IH]; intros a; simpl; [done|].
  destruct (first_by before l) as [b|].
  - destruct (before b x); intros [= <-]; [right; by apply IH | left].
  - intros [= <-]. left.
Qed.

Lemma first_by_None {A} before (l : list A) : first_by before l = None <-> l = [].
Proof.
  destruct l as [|x l]; simpl; [done|].
  split; [|done]. destruct (first_by before l) as [b|]; [|done]. by destruct (before b x).
Qed.

(** Under a strict total order [R] that [before] decides, [first_by] is the least. *)
Lemma first_by_least {A} (before : A -> A -> bool) (l : list A) a :
  (forall x y z, before x y = true -> before y z = true -> before x z = true) ->
  (forall x y, before x y = true -> before y x = false) ->
  (forall x y z, before x y = false -> before y z = false -> before x z = false) ->
  first_by before l = Some a -> forall b, b ∈ l -> before b a = false.
Proof.
  intros Htr Has Hntr. revert a. induction l as [|x l IH]; intros a; simpl; [done|].
  assert (forall y, before y y = false) as Hirr.
  { intros y. destruct (before y y) eqn:E; [|done]. by rewrite (Has _ _ E) in E. }
  destruct (first_by before l) as [m|] eqn:Hm.
  - destruct (before m x) eqn:Hmx; intros [= <-] b Hb; apply elem_of_cons in Hb as [->|Hb]; eauto.
  - apply first_by_None in Hm as ->. intros [= <-] b Hb.
    apply elem_of_cons in Hb as [->|Hb]; [done|]. by apply not_elem_of_nil in Hb.
Qed.

Lemma Forall_filter {A} (P Q : A -> Prop) `{forall a, Decision (Q a)} l :
  Forall P l -> Forall P (filter Q l).
Proof.
  rewrite !Forall_forall. intros HP a Ha. apply list_elem_of_filter in Ha as [_ Ha]. by apply HP.
Qed.

(** Longest prefix and its rest. *)
Fixpoint drop_while {A} (p : A -> bool) (l : list A) : list A :=
  match l with
  | [] => []
  | a :: l' => if p a then drop_while p l' else l
  end.
Definition drop_while_end {A} (p : A -> bool) (l : list A) : list A :=
  reverse (drop_while p (reverse l)).

Fixpoint position {A} (p : A -> bool) (l : list A) : option nat :=
  match l with
  | [] => None
  | a :: l' => if p a then Some 0%nat else S <$> position p l'
  end.

Lemma drop_while_suffix {A} (p : A -> bool) l : exists k, l = k ++ drop_while p l /\ Forall (fun a => p a = true) k.
Proof.
  induction l as [|a l (k & E & Hk)]; simpl.
  - by exists [].
  - destruct (p a) eqn:Hp.
    + exists (a :: k). split; [simpl; by f_equal | by constructor].
    + by exists [].
Qed.

Lemma drop_while_head {A} (p : A -> bool) l a l' : drop_while p l = a :: l' -> p a = false.
Proof.
  induction l as [|x l IH]; simpl; [done|].
  destruct (p x) eqn:Hp; [done|]. by intros [= <- _].
Qed.

Lemma drop_while_id {A} (p : A -> bool) a l : p a = false -> drop_while p (a :: l) = a :: l.
Proof. simpl. by intros ->. Qed.

Lemma drop_while_elem {A} (p : A -> bool) l a : a ∈ drop_while p l -> a ∈ l.
Proof.
  destruct (drop_while_suffix p l) as (k & E & _). intros H. rewrite E.
  apply elem_of_app. by right.
Qed.

Lemma drop_while_length {A} (p : A -> bool) l : (length (drop_while p l) <= length l)%nat.
Proof.
  destruct (drop_while_suffix p l) as (k & E & _).
  rewrite E at 2. rewrite length_app. lia.
Qed.

Lemma drop_while_end_elem {A} (p : A -> bool) l a : a ∈ drop_while_end p l -> a ∈ l.
Proof.
  unfold drop_while_end. rewrite elem_of_reverse. intros H.
  apply drop_while_elem in H. by rewrite elem_of_reverse in H.
Qed.

Lemma position_Some {A} (p : A -> bool) l i :
  position p l = Some i <->
  exists a, l !! i = Some a /\ p a = true /\ forall j b, (j < i)%nat -> l !! j = Some b -> p b = false.
Proof.
  revert i. induction l as [|x l IH]; intros i; simpl.
  - split; [done|]. intros (a & Ha & _). by rewrite lookup_nil in Ha.
  - destruct (p x) eqn:Hp.
    + split.
      * intros [= <-]. exists x. split_and!; [done..|]. intros; lia.
      * intros (a & Ha & Hpa & Hlt). destruct i as [|i]; [done|].
        rewrite (Hlt 0%nat x) in Hp; [done | lia | done].
    + rewrite fmap_Some. split.
      * intros (i' & Hi' & ->). apply IH in Hi' as (a & ? & ? & Hlt). exists a.
        split_and!; [done..|]. intros [|j] b Hj Hb; simpl in Hb; [by simplify_eq|].
        eapply Hlt; [|done]. lia.
      * intros (a & Ha & Hpa & Hlt). destruct i as [|i]; simpl in Ha; [congruence|].
        exists i. split; [|done]. apply IH. exists a. split_and!; [done..|].
        intros j b Hj Hb. apply (Hlt (S j) b); [lia | done].
Qed.

Lemma position_None {A} (p : A -> bool) l :
  position p l = None <-> Forall (fun a => p a = false) l.
Proof.
  induction l as [|x l IH]; simpl; [done|].
  rewrite Forall_cons. destruct (p x) eqn:Hp.
  - split; [done|]. by intros [? _].
  - rewrite <- IH. destruct (position p l); simpl; naive_solver.
Qed.

Lemma position_lt {A} (p : A -> bool) l i : position p l = Some i -> (i < length l)%nat.
Proof. rewrite position_Some. intros (a & Ha & _). by apply lookup_lt_Some in Ha. Qed.

(** ** Tactics *)

(** Case analysis on the scrutinee of a [match]/[if] in a hypothesis or goal. *)
Ltac case_on H :=
  match type of H with
  | context [match ?x with _ => _ end] =>
      lazymatch x with context [match _ with _ => _ end] => fail | _ => destruct x eqn:? end
  end.


Ltac simpl_bool :=
  repeat match goal with
  | H : (_ && _)%bool = true |- _ => apply andb_true_iff in H as [? ?]
  | H : (_ || _)%bool = false |- _ => apply orb_false_iff in H as [? ?]
  | H : negb _ = true |- _ => apply negb_true_iff in H
  | H : negb _ = false |- _ => apply negb_false_iff in H
  | H : (_ <? _) = true |- _ => apply Z.ltb_lt in H
  | H : (_ <? _) = false |- _ => apply Z.ltb_ge in H
  | H : (_ <=? _) = true |- _ => apply Z.leb_le in H
  | H : (_ <=? _) = false |- _ => apply Z.leb_gt in H
  | H : (_ =? _) = true |- _ => apply Z.eqb_eq in H
  | H : (_ =? _) = false |- _ => apply Z.eqb_neq in H
  | H : bool_decide _ = true |- _ => apply bool_decide_eq_true in H
  | H : bool_decide _ = false |- _ => apply bool_decide_eq_false in H
  end.

(** A decidable closed proposition, by evaluation. *)
Ltac by_decide := apply (bool_decide_unpack _); vm_compute; exact I.

(** [Forall Q l] from [Forall P l], leaving to [lia] what it can. *)
Ltac forall_impl H :=
  eapply Forall_impl; [apply H|]; let x := fresh "x" in
  intros x; simpl; intros; destruct_and?; split_and?; try done; try lia.

(** What is left of a list when one element is replaced or removed. *)
Lemma elem_of_insert_or {A} (l : list A) j x z y : l !! j = Some x -> y ∈ l -> y = x \/ y ∈ <[j := z]> l.
Proof.
  intros Hj [i Hi]%list_elem_of_lookup. destruct (decide (i = j)) as [->|Hne]; [left; congruence|right].
  apply list_elem_of_lookup. exists i. by rewrite list_lookup_insert_ne.
Qed.
Lemma elem_of_delete_or {A} (l : list A) j x y : l !! j = Some x -> y ∈ l -> y = x \/ y ∈ delete j l.
Proof.
  intros Hj [i Hi]%list_elem_of_lookup. destruct (decide (i = j)) as [->|Hne]; [left; congruence|right].
  rewrite delete_take_drop. apply elem_of_app. destruct (decide (i < j)%nat).
  - left. apply list_elem_of_lookup. exists i. by rewrite lookup_take_lt.
  - right. apply list_elem_of_lookup. exists (i - S j)%nat. rewrite lookup_drop. by replace (S j + (i - S j))%nat with i by lia.
Qed.

Create HintDb chimney.
Create Rewrite HintDb chimney.
#[export] Hint Resolve as_u32_range sat_u64_range : chimney.
#[export] Hint Rewrite @drop_while_id using (first [done | reflexivity]) : chimney.
