(* ===== verification/RustStr.v ===== *)
(** * Strings of the Rust standard library

    A [&str] or [String] is the list of its characters (Unicode scalar values as [Z]);
    a byte slice is a list of bytes in 0..255.  This file translates the methods of
    [str], [char] and slices the program calls.  Offsets are character offsets; where
    the program measures an offset in bytes, [byte_len] of the prefix is used. *)

From S2P Require Import Prelude.

Abbreviation str := (list Z) (only parsing).
Abbreviation bytes := (list Z) (only parsing).

(** ASCII literals. *)
Fixpoint lit (s : string) : list Z :=
  match s with
  | EmptyString => []
  | String a s' => Z.of_N (Ascii.N_of_ascii a) :: lit s'
  end.
Arguments lit s%_string : simpl never.

Definition nl : Z := 10.
Definition cr : Z := 13.

(** ** Characters *)

(** [char::is_whitespace]: the Unicode property White_Space. *)
Definition is_whitespace (c : Z) : bool :=
  ((9 <=? c) && (c <=? 13)) || (c =? 32) || (c =? 133) || (c =? 160) || (c =? 5760)
  || ((8192 <=? c) && (c <=? 8202)) || (c =? 8232) || (c =? 8233) || (c =? 8239)
  || (c =? 8287) || (c =? 12288).

Definition char_to_ascii_lowercase (c : Z) : Z :=
  if (65 <=? c) && (c <=? 90) then c + 32 else c.

(** Number of bytes of the UTF-8 encoding of a character. *)
Definition char_len_utf8 (c : Z) : Z :=
  if c <? 128 then 1 else if c <? 2048 then 2 else if c <? 65536 then 3 else 4.

Definition is_scalar (c : Z) : bool :=
  (0 <=? c) && ((c <? 55296) || ((57344 <=? c) && (c <=? 1114111))).

(** ** Slices of characters *)

Definition byte_len (s : str) : Z := foldr (fun c n => char_len_utf8 c + n) 0 s.

Definition to_ascii_lowercase (s : str) : str := char_to_ascii_lowercase <$> s.
Definition eq_ignore_ascii_case (s t : str) : bool :=
  bool_decide (to_ascii_lowercase s = to_ascii_lowercase t).

Definition trim_start (s : str) : str := drop_while is_whitespace s.
Definition trim_end (s : str) : str := drop_while_end is_whitespace s.
Definition trim (s : str) : str := trim_end (trim_start s).
Definition trim_start_matches (p : Z -> bool) (s : str) : str := drop_while p s.
Definition trim_end_matches (p : Z -> bool) (s : str) : str := drop_while_end p s.

Fixpoint strip_prefix (p s : str) : option str :=
  match p, s with
  | [], _ => Some s
  | a :: p', b :: s' => if a =? b then strip_prefix p' s' else None
  | _ :: _, [] => None
  end.
Definition starts_with (p s : str) : bool :=
  match strip_prefix p s with Some _ => true | None => false end.

(** [s.find(c)] and [s.find(pat)], as character offsets. *)
Definition find_char (c : Z) (s : str) : option nat := position (Z.eqb c) s.
Fixpoint find_str (p s : str) : option nat :=
  if starts_with p s then Some 0%nat
  else match s with [] => None | _ :: s' => S <$> find_str p s' end.
Definition contains (p s : str) : bool :=
  match find_str p s with Some _ => true | None => false end.

(** [s.split(p)]: the pieces between separators, at least one. *)
Fixpoint split (p : Z -> bool) (s : str) : list str :=
  match s with
  | [] => [[]]
  | c :: s' =>
      if p c then [] :: split p s'
      else match split p s' with
           | [] => [[c]]
           | w :: ws => (c :: w) :: ws
           end
  end.
Definition split_whitespace (s : str) : list str :=
  filter (fun w => w <> []) (split is_whitespace s).

(** [s.splitn(2, c)]: the head and, after the first [c], the rest. *)
Definition splitn2 (c : Z) (s : str) : str * option str :=
  match find_char c s with
  | Some i => (take i s, Some (drop (S i) s))
  | None => (s, None)
  end.

(** [s.split_inclusive('\n')]: each piece keeps its newline, no empty last piece. *)
Fixpoint split_inclusive (c : Z) (s : str) : list str :=
  match s with
  | [] => []
  | a :: s' =>
      if a =? c then [a] :: split_inclusive c s'
      else match split_inclusive c s' with
           | [] => [[a]]
           | w :: ws => (a :: w) :: ws
           end
  end.

(** [s.lines()]: a piece loses its ["\n"] and then one ["\r"]; a piece without
    ["\n"] keeps a final ["\r"]. *)
Definition strip_suffix1 (c : Z) (s : str) : option str :=
  match reverse s with
  | a :: r => if a =? c then Some (reverse r) else None
  | [] => None
  end.
Definition strip_line_end (line : str) : str :=
  match strip_suffix1 nl line with
  | None => line
  | Some l => match strip_suffix1 cr l with None => l | Some l' => l' end
  end.
Definition lines (s : str) : list str := strip_line_end <$> split_inclusive nl s.

(** [v.join(sep)]. *)
Fixpoint join (sep : str) (l : list str) : str :=
  match l with
  | [] => []
  | [w] => w
  | w :: l' => w ++ sep ++ join sep l'
  end.

(** [format!("{n}")] of an integer. *)
Definition show_int (z : Z) : str := lit (pretty z).

(** ** Lemmas *)

Lemma lit_inj s t : lit s = lit t -> s = t.
Proof.
  revert t. induction s as [|a s IH]; intros [|b t]; try done.
  unfold lit; fold lit. intros [= Hab Hst]. f_equal; [|by apply IH].
  apply N2Z.inj in Hab. rewrite <- (Ascii.ascii_N_embedding a), <- (Ascii.ascii_N_embedding b).
  by f_equal.
Qed.

Lemma lit_app s t : lit (s +:+ t) = lit s ++ lit t.
Proof. induction s as [|a s IH]; [done|]. exact (f_equal (cons _) IH). Qed.

Lemma show_int_inj a b : show_int a = show_int b -> a = b.
Proof. intros H%lit_inj. by apply (inj pretty). Qed.

Lemma strip_prefix_Some p s r : strip_prefix p s = Some r <-> s = p ++ r.
Proof.
  revert s. induction p as [|a p IH]; intros s; simpl; [naive_solver|].
  destruct s as [|b s]; [naive_solver|].
  destruct (Z.eqb_spec a b) as [->|Hne]; [rewrite IH|]; naive_solver.
Qed.

Lemma strip_prefix_app p r : strip_prefix p (p ++ r) = Some r.
Proof. by apply strip_prefix_Some. Qed.

Lemma starts_with_spec p s : starts_with p s = true <-> exists r, s = p ++ r.
Proof.
  unfold starts_with. destruct (strip_prefix p s) as [r|] eqn:E.
  - apply strip_prefix_Some in E. naive_solver.
  - split; [done|]. intros (r & ->). by rewrite strip_prefix_app in E.
Qed.

Lemma char_to_ascii_lowercase_idemp c :
  char_to_ascii_lowercase (char_to_ascii_lowercase c) = char_to_ascii_lowercase c.
Proof. unfold char_to_ascii_lowercase. repeat case_match; simpl_bool; lia. Qed.

Lemma to_ascii_lowercase_idemp s : to_ascii_lowercase (to_ascii_lowercase s) = to_ascii_lowercase s.
Proof.
  unfold to_ascii_lowercase. rewrite <- list_fmap_compose. apply list_fmap_ext.
  intros ? c _. apply char_to_ascii_lowercase_idemp.
Qed.

Lemma eq_ignore_ascii_case_spec s t :
  eq_ignore_ascii_case s t = true <-> to_ascii_lowercase s = to_ascii_lowercase t.
Proof. unfold eq_ignore_ascii_case. apply bool_decide_eq_true. Qed.

#[export] Instance eq_ignore_ascii_case_equiv : Equivalence (fun s t => eq_ignore_ascii_case s t = true).
Proof.
  split; [intros s | intros s t | intros s t u]; rewrite !eq_ignore_ascii_case_spec; congruence.
Qed.

Lemma find_char_Some c s i :
  find_char c s = Some i -> s = take i s ++ c :: drop (S i) s /\ c ∉ take i s.
Proof.
  unfold find_char. rewrite position_Some. intros (a & Ha & Hca & Hlt).
  apply Z.eqb_eq in Hca as ->. split; [by rewrite take_drop_middle|].
  intros (j & Hj)%list_elem_of_lookup. pose proof (lookup_lt_Some _ _ _ Hj) as Hl.
  rewrite length_take in Hl. rewrite lookup_take_lt in Hj by lia.
  apply Hlt in Hj; [|lia]. by rewrite Z.eqb_refl in Hj.
Qed.

Lemma find_char_None c s : find_char c s = None <-> c ∉ s.
Proof.
  unfold find_char. rewrite position_None, Forall_forall. split.
  - intros H Hin. apply H in Hin. by rewrite Z.eqb_refl in Hin.
  - intros H x Hx. apply Z.eqb_neq. naive_solver.
Qed.

Lemma find_char_app c s t : c ∉ s -> find_char c (s ++ c :: t) = Some (length s).
Proof.
  induction s as [|a s IH]; unfold find_char; simpl.
  - by rewrite Z.eqb_refl.
  - rewrite not_elem_of_cons. intros [Hne Hin].
    rewrite (proj2 (Z.eqb_neq c a) Hne). by rewrite (IH Hin : position _ _ = _).
Qed.

Lemma split_nonempty p s : split p s <> [].
Proof. destruct s as [|c s]; simpl; [done|]. destruct (p c); [done|]. by destruct (split p s). Qed.

Lemma split_no_sep p s w : w ∈ split p s -> Forall (fun c => p c = false) w.
Proof.
  revert w. induction s as [|c s IH]; intros w; simpl.
  - intros ->%list_elem_of_singleton. constructor.
  - destruct (p c) eqn:Hp.
    + intros [->|H]%elem_of_cons; [constructor | by apply IH].
    + destruct (split p s) as [|w0 ws] eqn:E; [by apply split_nonempty in E|].
      intros [->|H]%elem_of_cons; [constructor; [done | apply IH; left] | apply IH; by right].
Qed.

Lemma join_cons sep w l : l <> [] -> join sep (w :: l) = w ++ sep ++ join sep l.
Proof. by destruct l. Qed.

(** Splitting at a character undoes a join with it. *)
Lemma split_app_sep (d : Z) (w rest : str) :
  d ∉ w -> split (Z.eqb d) (w ++ d :: rest) = w :: split (Z.eqb d) rest.
Proof.
  induction w as [|c w IH]; simpl; [by rewrite Z.eqb_refl|].
  rewrite not_elem_of_cons. intros [Hne Hin]. rewrite (proj2 (Z.eqb_neq d c) Hne).
  by rewrite (IH Hin).
Qed.

Lemma split_no (d : Z) (w : str) : d ∉ w -> split (Z.eqb d) w = [w].
Proof.
  induction w as [|c w IH]; simpl; [done|].
  rewrite not_elem_of_cons. intros [Hne Hin]. rewrite (proj2 (Z.eqb_neq d c) Hne).
  by rewrite (IH Hin).
Qed.

Lemma split_join (d : Z) (l : list str) :
  l <> [] -> Forall (fun w => d ∉ w) l -> split (Z.eqb d) (join [d] l) = l.
Proof.
  intros Hl Hall. induction Hall as [|w l Hw Hall IH]; [done|].
  destruct l as [|w' l].
  - simpl. by apply split_no.
  - rewrite join_cons by done. cbn [app]. rewrite split_app_sep by done.
    by rewrite IH.
Qed.

Lemma join_split (d : Z) (s : str) : join [d] (split (Z.eqb d) s) = s.
Proof.
  induction s as [|c s IH]; simpl; [done|].
  destruct (Z.eqb_spec d c) as [->|Hne].
  - rewrite join_cons by apply split_nonempty. by rewrite IH.
  - destruct (split (Z.eqb d) s) as [|w ws] eqn:E; [by apply split_nonempty in E|].
    destruct ws as [|w' ws]; simpl in *; by rewrite <- IH.
Qed.

Lemma trim_elem c s : c ∈ trim s -> c ∈ s.
Proof. unfold trim, trim_end, trim_start. intros H. by apply drop_while_end_elem, drop_while_elem in H. Qed.

Lemma trim_start_elem c s : c ∈ trim_start s -> c ∈ s.
Proof. apply drop_while_elem. Qed.

Lemma strip_suffix1_Some c s r : strip_suffix1 c s = Some r <-> s = r ++ [c].
Proof.
  unfold strip_suffix1. split.
  - destruct (reverse s) as [|a t] eqn:E; [done|].
    destruct (Z.eqb_spec a c) as [->|]; [|done]. intros [= <-].
    rewrite <- (reverse_involutive s), E. by rewrite reverse_cons.
  - intros ->. rewrite reverse_snoc, Z.eqb_refl. by rewrite reverse_involutive.
Qed.

Lemma strip_suffix1_snoc c s : strip_suffix1 c (s ++ [c]) = Some s.
Proof. by apply strip_suffix1_Some. Qed.

Lemma concat_split_inclusive c s : concat (split_inclusive c s) = s.
Proof.
  induction s as [|a s IH]; simpl; [done|].
  destruct (a =? c); simpl; [by rewrite IH|].
  destruct (split_inclusive c s) as [|w ws]; simpl in *; by rewrite <- IH.
Qed.

Lemma split_inclusive_line c w rest :
  c ∉ w -> split_inclusive c (w ++ c :: rest) = (w ++ [c]) :: split_inclusive c rest.
Proof.
  induction w as [|a w IH]; simpl; [by rewrite Z.eqb_refl|].
  rewrite not_elem_of_cons. intros [Hne Hin].
  rewrite (proj2 (Z.eqb_neq a c)) by done. by rewrite (IH Hin).
Qed.

Lemma split_inclusive_last c w : c ∉ w -> w <> [] -> split_inclusive c w = [w].
Proof.
  induction w as [|a w IH]; simpl; [done|].
  rewrite not_elem_of_cons. intros [Hne Hin] _.
  rewrite (proj2 (Z.eqb_neq a c)) by done.
  destruct w as [|b w]; [done|]. by rewrite IH.
Qed.

(** No line holds a newline. *)
Lemma strip_line_end_elem c w : c ∈ strip_line_end w -> c ∈ w.
Proof.
  unfold strip_line_end. destruct (strip_suffix1 nl w) as [l|] eqn:E; [|done].
  apply strip_suffix1_Some in E as ->. rewrite elem_of_app.
  destruct (strip_suffix1 cr l) as [l'|] eqn:E'; [|by left].
  apply strip_suffix1_Some in E' as ->. rewrite elem_of_app. tauto.
Qed.

Lemma split_inclusive_shape c s w :
  w ∈ split_inclusive c s -> c ∉ w \/ exists w', w = w' ++ [c] /\ c ∉ w'.
Proof.
  revert w. induction s as [|a s IH]; intros w; simpl; [by intros ?%not_elem_of_nil|].
  destruct (Z.eqb_spec a c) as [->|Hne].
  - intros [->|H]%elem_of_cons; [right; exists []; split; [done | apply not_elem_of_nil] | by apply IH].
  - destruct (split_inclusive c s) as [|w0 ws] eqn:E.
    + intros ->%list_elem_of_singleton. left. by rewrite list_elem_of_singleton.
    + intros [->|H]%elem_of_cons; [|apply IH; by right].
      destruct (IH w0) as [H0|(w' & -> & H0)]; [left| |].
      * left. by rewrite not_elem_of_cons.
      * right. exists (a :: w'). split; [done|]. by rewrite not_elem_of_cons.
Qed.

Lemma lines_no_newline s l : l ∈ lines s -> nl ∉ l.
Proof.
  unfold lines. rewrite list_elem_of_fmap. intros (w & -> & Hw).
  apply split_inclusive_shape in Hw as [H|(w' & -> & H)].
  - intros Hin. by apply strip_line_end_elem in Hin.
  - unfold strip_line_end. rewrite strip_suffix1_snoc.
    destruct (strip_suffix1 cr w') as [l'|] eqn:E; [|done].
    apply strip_suffix1_Some in E as ->. intros Hin. apply H, elem_of_app. by left.
Qed.

Lemma byte_len_app s t : byte_len (s ++ t) = byte_len s + byte_len t.
Proof. unfold byte_len. induction s as [|c s IH]; simpl; lia. Qed.

Lemma byte_len_nonneg s : 0 <= byte_len s.
Proof.
  induction s as [|c s IH]; unfold byte_len in *; simpl; [lia|].
  assert (1 <= char_len_utf8 c); [|lia]. unfold char_len_utf8. repeat case_match; lia.
Qed.

Definition spaces (w : str) : Prop := Forall (fun c => is_whitespace c = true) w.

Lemma trim_start_spaces w s : spaces w -> trim_start (w ++ s) = trim_start s.
Proof. unfold trim_start. induction 1 as [|c w Hc _ IH]; [done|]. simpl. by rewrite Hc. Qed.

Lemma trim_start_id c s : is_whitespace c = false -> trim_start (c :: s) = c :: s.
Proof. apply drop_while_id. Qed.

(** [trim] stops at a character that is not white. *)
Lemma trim_end_stop (s t : str) c :
  is_whitespace c = false -> trim_end (s ++ c :: t) = s ++ c :: trim_end t.
Proof.
  intros Hc. unfold trim_end, drop_while_end.
  rewrite reverse_app, reverse_cons, <- app_assoc. cbn [app].
  assert (forall u v, drop_while is_whitespace (u ++ c :: v) =
    match drop_while is_whitespace u with [] => c :: v | u' => u' ++ c :: v end) as H.
  { intros u v. induction u as [|a u IH]; simpl; [by rewrite Hc|]. by destruct (is_whitespace a). }
  rewrite H. destruct (drop_while is_whitespace (reverse t)) as [|a u] eqn:E.
  - by rewrite reverse_cons, reverse_involutive.
  - rewrite reverse_app, reverse_cons, reverse_involutive. by rewrite <- app_assoc.
Qed.

Lemma infix_not_elem {A} (x : A) (s l m r : list A) : s = l ++ m ++ r -> x ∉ s -> x ∉ m.
Proof. intros -> H Hm. apply H. rewrite !elem_of_app. auto. Qed.

Lemma split_pred_app (p : Z -> bool) w d rest :
  Forall (fun c => p c = false) w -> p d = true -> split p (w ++ d :: rest) = w :: split p rest.
Proof.
  intros Hw Hd. induction Hw as [|c w Hc _ IH]; simpl; [by rewrite Hd|]. by rewrite Hc, IH.
Qed.

Lemma split_pred_none (p : Z -> bool) w : Forall (fun c => p c = false) w -> split p w = [w].
Proof. induction 1 as [|c w Hc _ IH]; simpl; [done|]. by rewrite Hc, IH. Qed.

Lemma starts_with_app_r p s t : starts_with p s = true -> starts_with p (s ++ t) = true.
Proof. rewrite !starts_with_spec. intros (r & ->). exists (r ++ t). by rewrite app_assoc. Qed.

Lemma find_str_Some p s i :
  find_str p s = Some i -> (i <= length s)%nat /\ starts_with p (drop i s) = true.
Proof.
  revert i. induction s as [|c s IH]; intros i; simpl.
  - destruct (starts_with p []) eqn:E; [|done]. by intros [= <-].
  - destruct (starts_with p (c :: s)) eqn:E; [intros [= <-]; split; [lia|done]|].
    intros (j & Hj & ->)%fmap_Some. apply IH in Hj as [? ?]. split; [lia|done].
Qed.

(** A pattern is not found before a character it starts with. *)
Lemma find_str_skip a p s t :
  a ∉ s -> find_str (a :: p) (s ++ t) = (fun i => length s + i)%nat <$> find_str (a :: p) t.
Proof.
  induction s as [|c s IH]; [intros _; cbn [app length]; by destruct (find_str (a :: p) t)|].
  rewrite not_elem_of_cons. intros [Hne Hs]. cbn [app find_str].
  assert (starts_with (a :: p) (c :: s ++ t) = false) as ->.
  { unfold starts_with. cbn [strip_prefix]. by rewrite (proj2 (Z.eqb_neq a c) Hne). }
  rewrite IH by done. by destruct (find_str (a :: p) t).
Qed.

Lemma find_str_absent a p s : a ∉ s -> find_str (a :: p) s = None.
Proof. intros H. rewrite <- (app_nil_r s), find_str_skip by done. done. Qed.

#[export] Hint Resolve split_nonempty byte_len_nonneg lines_no_newline trim_elem : chimney.
#[export] Hint Rewrite strip_prefix_app strip_suffix1_snoc byte_len_app to_ascii_lowercase_idemp : chimney.
