(* ===== verification/Unicode.v ===== *)
(** * Unicode upper-casing

    [str::to_uppercase] of the Rust standard library: every character is replaced by
    its full upper-case mapping (UnicodeData and the unconditional part of
    SpecialCasing).  The ASCII letters are arithmetic; the other characters come from
    two tables, one of ranges [(first, last, stride, offset)] and one of the characters
    whose upper case has several characters.  The SMTP session upper-cases a command
    line before it looks for a keyword, so the characters outside ASCII whose upper
    case holds an ASCII letter (the dotless i, the long s, the ligatures) matter. *)

From S2P Require Import Prelude.

Definition upper_ranges : list (Z * Z * Z * Z) :=
  [
   (181, 181, 1, 743); (224, 246, 1, (-32)); (248, 254, 1, (-32)); (255, 255, 1, 121);
   (257, 303, 2, (-1)); (305, 305, 1, (-232)); (307, 311, 2, (-1)); (314, 328, 2, (-1));
   (331, 375, 2, (-1)); (378, 382, 2, (-1)); (383, 383, 1, (-300)); (384, 384, 1, 195);
   (387, 389, 2, (-1)); (392, 392, 1, (-1)); (396, 396, 1, (-1)); (402, 402, 1, (-1));
   (405, 405, 1, 97); (409, 409, 1, (-1)); (410, 410, 1, 163); (414, 414, 1, 130);
   (417, 421, 2, (-1)); (424, 424, 1, (-1)); (429, 429, 1, (-1)); (432, 432, 1, (-1));
   (436, 438, 2, (-1)); (441, 441, 1, (-1)); (445, 445, 1, (-1)); (447, 447, 1, 56);
   (453, 453, 1, (-1)); (454, 454, 1, (-2)); (456, 456, 1, (-1)); (457, 457, 1, (-2));
   (459, 459, 1, (-1)); (460, 460, 1, (-2)); (462, 476, 2, (-1)); (477, 477, 1, (-79));
   (479, 495, 2, (-1)); (498, 498, 1, (-1)); (499, 499, 1, (-2)); (501, 501, 1, (-1));
   (505, 543, 2, (-1)); (547, 563, 2, (-1)); (572, 572, 1, (-1)); (575, 576, 1, 10815);
   (578, 578, 1, (-1)); (583, 591, 2, (-1)); (592, 592, 1, 10783); (593, 593, 1, 10780);
   (594, 594, 1, 10782); (595, 595, 1, (-210)); (596, 596, 1, (-206));
   (598, 599, 1, (-205)); (601, 601, 1, (-202)); (603, 603, 1, (-203));
   (604, 604, 1, 42319); (608, 608, 1, (-205)); (609, 609, 1, 42315);
   (611, 611, 1, (-207)); (613, 613, 1, 42280); (614, 614, 1, 42308);
   (616, 616, 1, (-209)); (617, 617, 1, (-211)); (618, 618, 1, 42308);
   (619, 619, 1, 10743); (620, 620, 1, 42305); (623, 623, 1, (-211)); (625, 625, 1, 10749);
   (626, 626, 1, (-213)); (629, 629, 1, (-214)); (637, 637, 1, 10727);
   (640, 640, 1, (-218)); (642, 642, 1, 42307); (643, 643, 1, (-218));
   (647, 647, 1, 42282); (648, 648, 1, (-218)); (649, 649, 1, (-69));
   (650, 651, 1, (-217)); (652, 652, 1, (-71)); (658, 658, 1, (-219));
   (669, 669, 1, 42261); (670, 670, 1, 42258); (837, 837, 1, 84); (881, 883, 2, (-1));
   (887, 887, 1, (-1)); (891, 893, 1, 130); (940, 940, 1, (-38)); (941, 943, 1, (-37));
   (945, 961, 1, (-32)); (962, 962, 1, (-31)); (963, 971, 1, (-32)); (972, 972, 1, (-64));
   (973, 974, 1, (-63)); (976, 976, 1, (-62)); (977, 977, 1, (-57)); (981, 981, 1, (-47));
   (982, 982, 1, (-54)); (983, 983, 1, (-8)); (985, 1007, 2, (-1)); (1008, 1008, 1, (-86));
   (1009, 1009, 1, (-80)); (1010, 1010, 1, 7); (1011, 1011, 1, (-116));
   (1013, 1013, 1, (-96)); (1016, 1016, 1, (-1)); (1019, 1019, 1, (-1));
   (1072, 1103, 1, (-32)); (1104, 1119, 1, (-80)); (1121, 1153, 2, (-1));
   (1163, 1215, 2, (-1)); (1218, 1230, 2, (-1)); (1231, 1231, 1, (-15));
   (1233, 1327, 2, (-1)); (1377, 1414, 1, (-48)); (4304, 4346, 1, 3008);
   (4349, 4351, 1, 3008); (5112, 5117, 1, (-8)); (7296, 7296, 1, (-6254));
   (7297, 7297, 1, (-6253)); (7298, 7298, 1, (-6244)); (7299, 7300, 1, (-6242));
   (7301, 7301, 1, (-6243)); (7302, 7302, 1, (-6236)); (7303, 7303, 1, (-6181));
   (7304, 7304, 1, 35266); (7545, 7545, 1, 35332); (7549, 7549, 1, 3814);
   (7566, 7566, 1, 35384); (7681, 7829, 2, (-1)); (7835, 7835, 1, (-59));
   (7841, 7935, 2, (-1)); (7936, 7943, 1, 8); (7952, 7957, 1, 8); (7968, 7975, 1, 8);
   (7984, 7991, 1, 8); (8000, 8005, 1, 8); (8017, 8023, 2, 8); (8032, 8039, 1, 8);
   (8048, 8049, 1, 74); (8050, 8053, 1, 86); (8054, 8055, 1, 100); (8056, 8057, 1, 128);
   (8058, 8059, 1, 112); (8060, 8061, 1, 126); (8112, 8113, 1, 8);
   (8126, 8126, 1, (-7205)); (8144, 8145, 1, 8); (8160, 8161, 1, 8); (8165, 8165, 1, 7);
   (8526, 8526, 1, (-28)); (8560, 8575, 1, (-16)); (8580, 8580, 1, (-1));
   (9424, 9449, 1, (-26)); (11312, 11359, 1, (-48)); (11361, 11361, 1, (-1));
   (11365, 11365, 1, (-10795)); (11366, 11366, 1, (-10792)); (11368, 11372, 2, (-1));
   (11379, 11379, 1, (-1)); (11382, 11382, 1, (-1)); (11393, 11491, 2, (-1));
   (11500, 11502, 2, (-1)); (11507, 11507, 1, (-1)); (11520, 11557, 1, (-7264));
   (11559, 11559, 1, (-7264)); (11565, 11565, 1, (-7264)); (42561, 42605, 2, (-1));
   (42625, 42651, 2, (-1)); (42787, 42799, 2, (-1)); (42803, 42863, 2, (-1));
   (42874, 42876, 2, (-1)); (42879, 42887, 2, (-1)); (42892, 42892, 1, (-1));
   (42897, 42899, 2, (-1)); (42900, 42900, 1, 48); (42903, 42921, 2, (-1));
   (42933, 42947, 2, (-1)); (42952, 42954, 2, (-1)); (42961, 42961, 1, (-1));
   (42967, 42969, 2, (-1)); (42998, 42998, 1, (-1)); (43859, 43859, 1, (-928));
   (43888, 43967, 1, (-38864)); (65345, 65370, 1, (-32)); (66600, 66639, 1, (-40));
   (66776, 66811, 1, (-40)); (66967, 66977, 1, (-39)); (66979, 66993, 1, (-39));
   (66995, 67001, 1, (-39)); (67003, 67004, 1, (-39)); (68800, 68850, 1, (-64));
   (71872, 71903, 1, (-32)); (93792, 93823, 1, (-32)); (125218, 125251, 1, (-34))
  ].

Definition upper_special : list (Z * list Z) :=
  [
   (223, [83; 83]); (329, [700; 78]); (496, [74; 780]); (912, [921; 776; 769]);
   (944, [933; 776; 769]); (1415, [1333; 1362]); (7830, [72; 817]); (7831, [84; 776]);
   (7832, [87; 778]); (7833, [89; 778]); (7834, [65; 702]); (8016, [933; 787]);
   (8018, [933; 787; 768]); (8020, [933; 787; 769]); (8022, [933; 787; 834]);
   (8064, [7944; 921]); (8065, [7945; 921]); (8066, [7946; 921]); (8067, [7947; 921]);
   (8068, [7948; 921]); (8069, [7949; 921]); (8070, [7950; 921]); (8071, [7951; 921]);
   (8072, [7944; 921]); (8073, [7945; 921]); (8074, [7946; 921]); (8075, [7947; 921]);
   (8076, [7948; 921]); (8077, [7949; 921]); (8078, [7950; 921]); (8079, [7951; 921]);
   (8080, [7976; 921]); (8081, [7977; 921]); (8082, [7978; 921]); (8083, [7979; 921]);
   (8084, [7980; 921]); (8085, [7981; 921]); (8086, [7982; 921]); (8087, [7983; 921]);
   (8088, [7976; 921]); (8089, [7977; 921]); (8090, [7978; 921]); (8091, [7979; 921]);
   (8092, [7980; 921]); (8093, [7981; 921]); (8094, [7982; 921]); (8095, [7983; 921]);
   (8096, [8040; 921]); (8097, [8041; 921]); (8098, [8042; 921]); (8099, [8043; 921]);
   (8100, [8044; 921]); (8101, [8045; 921]); (8102, [8046; 921]); (8103, [8047; 921]);
   (8104, [8040; 921]); (8105, [8041; 921]); (8106, [8042; 921]); (8107, [8043; 921]);
   (8108, [8044; 921]); (8109, [8045; 921]); (8110, [8046; 921]); (8111, [8047; 921]);
   (8114, [8122; 921]); (8115, [913; 921]); (8116, [902; 921]); (8118, [913; 834]);
   (8119, [913; 834; 921]); (8124, [913; 921]); (8130, [8138; 921]); (8131, [919; 921]);
   (8132, [905; 921]); (8134, [919; 834]); (8135, [919; 834; 921]); (8140, [919; 921]);
   (8146, [921; 776; 768]); (8147, [921; 776; 769]); (8150, [921; 834]);
   (8151, [921; 776; 834]); (8162, [933; 776; 768]); (8163, [933; 776; 769]);
   (8164, [929; 787]); (8166, [933; 834]); (8167, [933; 776; 834]); (8178, [8186; 921]);
   (8179, [937; 921]); (8180, [911; 921]); (8182, [937; 834]); (8183, [937; 834; 921]);
   (8188, [937; 921]); (64256, [70; 70]); (64257, [70; 73]); (64258, [70; 76]);
   (64259, [70; 70; 73]); (64260, [70; 70; 76]); (64261, [83; 84]); (64262, [83; 84]);
   (64275, [1348; 1350]); (64276, [1348; 1333]); (64277, [1348; 1339]);
   (64278, [1358; 1350]); (64279, [1348; 1341])
  ].

Definition in_upper_range (c : Z) (r : Z * Z * Z * Z) : bool :=
  let '(first, last, stride, _) := r in
  (first <=? c) && (c <=? last) && ((c - first) mod stride =? 0).

(** [char::to_uppercase]: the characters of the upper case of [c]. *)
Definition char_to_uppercase (c : Z) : list Z :=
  if c <? 128 then [if (97 <=? c) && (c <=? 122) then c - 32 else c]
  else match list_find (fun p => p.1 = c) upper_special with
       | Some (_, (_, us)) => us
       | None =>
           match list_find (fun r => in_upper_range c r = true) upper_ranges with
           | Some (_, (_, _, _, off)) => [c + off]
           | None => [c]
           end
       end.

Definition to_uppercase (s : list Z) : list Z := s ≫= char_to_uppercase.

Lemma to_uppercase_app s t : to_uppercase (s ++ t) = to_uppercase s ++ to_uppercase t.
Proof. unfold to_uppercase. apply bind_app. Qed.

Lemma to_uppercase_cons c s : to_uppercase (c :: s) = char_to_uppercase c ++ to_uppercase s.
Proof. done. Qed.

Lemma char_to_uppercase_ascii c :
  c < 128 -> char_to_uppercase c = [if (97 <=? c) && (c <=? 122) then c - 32 else c].
Proof. intros H. unfold char_to_uppercase. by rewrite (proj2 (Z.ltb_lt c 128) H). Qed.

(** The dotless i and the long s upper-case to ASCII letters. *)
Example dotless_i : to_uppercase [109; 97; 305; 108] = [77; 65; 73; 76].
Proof. reflexivity. Qed.
Example sharp_s : to_uppercase [223] = [83; 83].
Proof. reflexivity. Qed.
Example y_diaeresis : to_uppercase [255] = [376].
Proof. reflexivity. Qed.
