(* ===== verification/Utf8.v ===== *)
(** * UTF-8: [String::from_utf8] and [String::from_utf8_lossy]

    The decoder of the Rust standard library.  [utf8_next] consumes one character or
    one maximal ill-formed sequence, exactly as [core::str::Utf8Chunks] does; the
    strict decoder fails on the first ill-formed sequence, the lossy one writes
    U+FFFD for each. *)

From S2P Require Import Prelude RustStr.

Definition replacement_char : Z := 65533.

Definition is_cont (b : Z) : bool := (128 <=? b) && (b <=? 191).

(** Admissible second byte after the lead byte of a 3- or 4-byte sequence. *)
Definition second3_ok (b0 b1 : Z) : bool :=
  if b0 =? 224 then (160 <=? b1) && (b1 <=? 191)
  else if b0 =? 237 then (128 <=? b1) && (b1 <=? 159)
  else is_cont b1.
Definition second4_ok (b0 b1 : Z) : bool :=
  if b0 =? 240 then (144 <=? b1) && (b1 <=? 191)
  else if b0 =? 244 then (128 <=? b1) && (b1 <=? 143)
  else is_cont b1.

(** One decoding step: a character, or [None] for an ill-formed sequence, and the
    bytes that follow. *)
Definition utf8_next (b0 : Z) (r0 : bytes) : option Z * bytes :=
  if b0 <? 128 then (Some b0, r0)
  else if (194 <=? b0) && (b0 <=? 223) then
    match r0 with
    | b1 :: r1 =>
        if is_cont b1 then (Some ((b0 - 192) * 64 + (b1 - 128)), r1) else (None, r0)
    | [] => (None, r0)
    end
  else if (224 <=? b0) && (b0 <=? 239) then
    match r0 with
    | b1 :: r1 =>
        if second3_ok b0 b1 then
          match r1 with
          | b2 :: r2 =>
              if is_cont b2
              then (Some ((b0 - 224) * 4096 + (b1 - 128) * 64 + (b2 - 128)), r2)
              else (None, r1)
          | [] => (None, r1)
          end
        else (None, r0)
    | [] => (None, r0)
    end
  else if (240 <=? b0) && (b0 <=? 244) then
    match r0 with
    | b1 :: r1 =>
        if second4_ok b0 b1 then
          match r1 with
          | b2 :: r2 =>
              if is_cont b2 then
                match r2 with
                | b3 :: r3 =>
                    if is_cont b3
                    then (Some ((b0 - 240) * 262144 + (b1 - 128) * 4096
                                + (b2 - 128) * 64 + (b3 - 128)), r3)
                    else (None, r2)
                | [] => (None, r2)
                end
              else (None, r1)
          | [] => (None, r1)
          end
        else (None, r0)
    | [] => (None, r0)
    end
  else (None, r0).

Fixpoint utf8_chunks (fuel : nat) (bs : bytes) : list (option Z) :=
  match fuel, bs with
  | S fuel', b0 :: r0 => let '(c, r) := utf8_next b0 r0 in c :: utf8_chunks fuel' r
  | _, _ => []
  end.

Definition from_utf8 (bs : bytes) : option str := mapM id (utf8_chunks (length bs) bs).
Definition from_utf8_lossy (bs : bytes) : str :=
  default replacement_char <$> utf8_chunks (length bs) bs.

(** The encoder, [char::encode_utf8]. *)
Definition encode_char (c : Z) : bytes :=
  if c <? 128 then [c]
  else if c <? 2048 then [192 + c / 64; 128 + c mod 64]
  else if c <? 65536 then [224 + c / 4096; 128 + c / 64 mod 64; 128 + c mod 64]
  else [240 + c / 262144; 128 + c / 4096 mod 64; 128 + c / 64 mod 64; 128 + c mod 64].
Definition encode_utf8 (s : str) : bytes := s ≫= encode_char.

(** ** Lemmas *)

Lemma utf8_next_length b0 r0 : (length (utf8_next b0 r0).2 <= length r0)%nat.
Proof.
  unfold utf8_next. repeat case_match; simpl in *; lia.
Qed.

Lemma utf8_chunks_fuel n m bs :
  (length bs <= n)%nat -> (length bs <= m)%nat -> utf8_chunks n bs = utf8_chunks m bs.
Proof.
  revert m bs. induction n as [|n IH]; intros m bs Hn Hm.
  - destruct bs; [by destruct m | simpl in Hn; lia].
  - destruct bs as [|b0 r0]; [by destruct m|]. destruct m as [|m]; [simpl in Hm; lia|].
    simpl. pose proof (utf8_next_length b0 r0) as Hl.
    destruct (utf8_next b0 r0) as [c r]. simpl in *. f_equal. apply IH; lia.
Qed.

Lemma utf8_chunks_cons b0 r0 n :
  (length r0 <= n)%nat ->
  utf8_chunks (S n) (b0 :: r0) =
  (utf8_next b0 r0).1 :: utf8_chunks (length (utf8_next b0 r0).2) (utf8_next b0 r0).2.
Proof.
  intros Hn. simpl. pose proof (utf8_next_length b0 r0) as Hl.
  destruct (utf8_next b0 r0) as [c r]. simpl in *. f_equal.
  apply utf8_chunks_fuel; lia.
Qed.

Ltac solve_ltb :=
  repeat match goal with
  | |- context [?a <? ?b] =>
      first [rewrite (proj2 (Z.ltb_lt a b)) by lia | rewrite (proj2 (Z.ltb_ge a b)) by lia]
  | |- context [?a <=? ?b] =>
      first [rewrite (proj2 (Z.leb_le a b)) by lia | rewrite (proj2 (Z.leb_gt a b)) by lia]
  | |- context [?a =? ?b] =>
      first [rewrite (proj2 (Z.eqb_eq a b)) by lia | rewrite (proj2 (Z.eqb_neq a b)) by lia]
  end.

Lemma is_scalar_spec c :
  is_scalar c = true <-> 0 <= c < 55296 \/ 57344 <= c <= 1114111.
Proof. unfold is_scalar. rewrite !andb_true_iff, orb_true_iff, andb_true_iff, !Z.leb_le, Z.ltb_lt. lia. Qed.

Lemma is_cont_low x : 0 <= x < 64 -> is_cont (128 + x) = true.
Proof. intros. unfold is_cont. by solve_ltb. Qed.

Lemma encode_char_3 c r :
  2048 <= c < 65536 -> is_scalar c = true ->
  utf8_next (224 + c / 4096) (128 + c / 64 mod 64 :: 128 + c mod 64 :: r) = (Some c, r).
Proof.
  rewrite is_scalar_spec. intros Hc Hs. unfold utf8_next.
  assert (0 <= c / 4096 < 16) by (split; [apply Z.div_pos | apply Z.div_lt_upper_bound]; lia).
  pose proof (Z.mod_pos_bound c 64) as Hm0. pose proof (Z.mod_pos_bound (c / 64) 64) as Hm1.
  assert (c / 64 = 64 * (c / 4096) + c / 64 mod 64) as Hd.
  { rewrite (Z.div_mod (c / 64) 64) at 1 by lia. by rewrite Z.div_div by lia. }
  assert (c = 64 * (c / 64) + c mod 64) as Hc64 by (apply Z.div_mod; lia).
  assert (second3_ok (224 + c / 4096) (128 + c / 64 mod 64) = true) as ->.
  { unfold second3_ok, is_cont. destruct (Z.eqb_spec (224 + c / 4096) 224); [by solve_ltb|].
    destruct (Z.eqb_spec (224 + c / 4096) 237); by solve_ltb. }
  rewrite !is_cont_low by lia. solve_ltb. simpl. repeat f_equal. lia.
Qed.

Lemma encode_char_4 c r :
  65536 <= c -> is_scalar c = true ->
  utf8_next (240 + c / 262144)
    (128 + c / 4096 mod 64 :: 128 + c / 64 mod 64 :: 128 + c mod 64 :: r) = (Some c, r).
Proof.
  rewrite is_scalar_spec. intros Hc Hs. unfold utf8_next.
  assert (0 <= c / 262144 <= 4)
    by (split; [apply Z.div_pos | apply Z.lt_succ_r, Z.div_lt_upper_bound]; lia).
  pose proof (Z.mod_pos_bound c 64) as Hm0. pose proof (Z.mod_pos_bound (c / 64) 64) as Hm1.
  pose proof (Z.mod_pos_bound (c / 4096) 64) as Hm2.
  assert (c / 4096 = 64 * (c / 262144) + c / 4096 mod 64) as Hd2.
  { rewrite (Z.div_mod (c / 4096) 64) at 1 by lia. by rewrite Z.div_div by lia. }
  assert (c / 64 = 64 * (c / 4096) + c / 64 mod 64) as Hd.
  { rewrite (Z.div_mod (c / 64) 64) at 1 by lia. by rewrite Z.div_div by lia. }
  assert (c = 64 * (c / 64) + c mod 64) as Hc64 by (apply Z.div_mod; lia).
  assert (second4_ok (240 + c / 262144) (128 + c / 4096 mod 64) = true) as ->.
  { unfold second4_ok, is_cont. destruct (Z.eqb_spec (240 + c / 262144) 240); [by solve_ltb|].
    destruct (Z.eqb_spec (240 + c / 262144) 244); by solve_ltb. }
  rewrite !is_cont_low by lia. solve_ltb. simpl. repeat f_equal. lia.
Qed.

Lemma utf8_next_encode c r b0 r0 :
  is_scalar c = true -> encode_char c ++ r = b0 :: r0 -> utf8_next b0 r0 = (Some c, r).
Proof.
  intros Hs He. unfold encode_char in He.
  pose proof (proj1 (is_scalar_spec c) Hs) as Hr.
  destruct (Z.ltb_spec c 128); [|destruct (Z.ltb_spec c 2048); [|destruct (Z.ltb_spec c 65536)]];
    simpl in He; injection He as <- <-.
  - unfold utf8_next. by solve_ltb.
  - assert (2 <= c / 64 < 32) by (split; [apply Z.div_le_lower_bound | apply Z.div_lt_upper_bound]; lia).
    pose proof (Z.mod_pos_bound c 64). pose proof (Z.div_mod c 64).
    unfold utf8_next. rewrite is_cont_low by lia. solve_ltb. simpl. repeat f_equal. lia.
  - apply encode_char_3; [lia | done].
  - by apply encode_char_4.
Qed.

Lemma encode_utf8_cons c s : encode_utf8 (c :: s) = encode_char c ++ encode_utf8 s.
Proof. done. Qed.

Lemma encode_char_cons c : exists b r, encode_char c = b :: r.
Proof. unfold encode_char. repeat case_match; eauto. Qed.

(** Decoding undoes encoding. *)
Lemma chunks_encode s :
  Forall (fun c => is_scalar c = true) s ->
  utf8_chunks (length (encode_utf8 s)) (encode_utf8 s) = Some <$> s.
Proof.
  induction 1 as [|c s Hc Hs IH]; [done|].
  destruct (encode_char_cons c) as (b & r & E).
  assert (encode_utf8 (c :: s) = b :: r ++ encode_utf8 s) as Es
    by (unfold encode_utf8; simpl; by rewrite E).
  pose proof (utf8_next_encode c (encode_utf8 s) b (r ++ encode_utf8 s) Hc) as Hn.
  rewrite E in Hn. specialize (Hn eq_refl).
  rewrite Es. simpl length. rewrite utf8_chunks_cons by lia.
  rewrite Hn. simpl. by rewrite IH.
Qed.

Lemma mapM_id_Some {A} (l : list A) : mapM id (Some <$> l) = Some l.
Proof. apply mapM_Some, Forall2_fmap_l, Forall_Forall2_diag, Forall_true. done. Qed.

Lemma from_utf8_encode s :
  Forall (fun c => is_scalar c = true) s -> from_utf8 (encode_utf8 s) = Some s.
Proof. intros H. unfold from_utf8. rewrite chunks_encode by done. apply mapM_id_Some. Qed.

Lemma from_utf8_lossy_encode s :
  Forall (fun c => is_scalar c = true) s -> from_utf8_lossy (encode_utf8 s) = s.
Proof.
  intros H. unfold from_utf8_lossy. rewrite chunks_encode by done.
  rewrite <- list_fmap_compose. rewrite <- (list_fmap_id s) at 2. by apply list_fmap_ext.
Qed.

(** The two decoders agree on well-formed input. *)
Lemma from_utf8_lossy_valid bs s : from_utf8 bs = Some s -> from_utf8_lossy bs = s.
Proof.
  unfold from_utf8, from_utf8_lossy. intros H%mapM_Some.
  induction H as [|o c l s Ho _ IH]; [done|]. simpl in Ho. subst o. csimpl. by rewrite IH.
Qed.

Lemma encode_ascii s : Forall (fun c => 0 <= c < 128) s -> encode_utf8 s = s.
Proof.
  induction 1 as [|c s Hc Hs IH]; [done|]. rewrite encode_utf8_cons, IH.
  unfold encode_char. by rewrite (proj2 (Z.ltb_lt c 128)) by lia.
Qed.

Lemma from_utf8_ascii s : Forall (fun c => 0 <= c < 128) s -> from_utf8 s = Some s.
Proof.
  intros H. rewrite <- (encode_ascii s H) at 1. apply from_utf8_encode.
  eapply Forall_impl; [exact H|]. intros c Hc. apply is_scalar_spec. simpl in Hc. lia.
Qed.

Lemma from_utf8_lossy_ascii s : Forall (fun c => 0 <= c < 128) s -> from_utf8_lossy s = s.
Proof. intros H. by apply from_utf8_lossy_valid, from_utf8_ascii. Qed.

(** A decoded newline comes from a newline byte: no other sequence yields it. *)
Lemma utf8_next_small b0 r0 c r :
  utf8_next b0 r0 = (Some c, r) -> c < 128 -> Forall (fun b => 0 <= b) (b0 :: r0) -> b0 = c.
Proof.
  unfold utf8_next, second3_ok, second4_ok, is_cont. intros H Hc Hall.
  apply Forall_cons in Hall as [H0 _].
  repeat (case_match; simpl_bool; simplify_eq; try done; try lia).
Qed.

Lemma utf8_next_suffix b0 r0 : exists k, r0 = k ++ (utf8_next b0 r0).2.
Proof.
  unfold utf8_next.
  repeat case_match; simpl; subst;
    first [by exists [] | by eexists [_] | by eexists [_; _] | by eexists [_; _; _]].
Qed.

Lemma utf8_chunks_ascii_elem n bs c :
  c < 128 -> Forall (fun b => 0 <= b) bs -> Some c ∈ utf8_chunks n bs -> c ∈ bs.
Proof.
  intros Hc. revert bs. induction n as [|n IH]; intros bs Hall; simpl; [by intros ?%not_elem_of_nil|].
  destruct bs as [|b0 r0]; [by intros ?%not_elem_of_nil|].
  destruct (utf8_next_suffix b0 r0) as [k Hk].
  destruct (utf8_next b0 r0) as [o r] eqn:E. simpl in Hk.
  intros [<-|Hin]%elem_of_cons.
  - apply utf8_next_small in E as ->; [left | done | done].
  - right. apply IH in Hin; [|].
    + rewrite Hk. apply elem_of_app. by right.
    + apply Forall_cons in Hall as [_ Hall]. rewrite Hk in Hall. by apply Forall_app in Hall as [_ ?].
Qed.

Lemma from_utf8_ascii_elem bs s c :
  c < 128 -> Forall (fun b => 0 <= b) bs -> from_utf8 bs = Some s -> c ∈ s -> c ∈ bs.
Proof.
  intros Hc Hall H Hin. unfold from_utf8 in H.
  apply (utf8_chunks_ascii_elem (length bs)); [done..|].
  apply mapM_Some in H. revert H. generalize (utf8_chunks (length bs) bs). intros l H.
  induction H as [|o x l s Ho _ IH]; [by apply not_elem_of_nil in Hin|].
  simpl in Ho. subst o. apply elem_of_cons in Hin as [->|Hin]; [left | right; by apply IH].
Qed.

(** The strict decoder is the inverse of the encoder. *)
Lemma encode_utf8_next b0 r0 c r : utf8_next b0 r0 = (Some c, r) -> b0 :: r0 = encode_char c ++ r.
Proof.
  unfold utf8_next, second3_ok, second4_ok, is_cont. intros H.
  repeat (case_match; simpl_bool; simplify_eq; try done); unfold encode_char; solve_ltb; cbn [app];
    repeat f_equal; Z.to_euclidean_division_equations; lia.
Qed.

Lemma utf8_chunks_encode n bs s :
  (length bs <= n)%nat -> utf8_chunks n bs = Some <$> s -> encode_utf8 s = bs.
Proof.
  revert bs s. induction n as [|n IH]; intros bs s Hn; simpl.
  - destruct bs; [|simpl in Hn; lia]. by destruct s.
  - destruct bs as [|b0 r0]; [by destruct s|].
    pose proof (utf8_next_length b0 r0) as Hl. destruct (utf8_next b0 r0) as [o r] eqn:E.
    destruct s as [|c s]; [done|]. csimpl. intros [= -> Hs]. simpl in *.
    apply encode_utf8_next in E. rewrite E. f_equal. apply IH; [lia|done].
Qed.

Lemma from_utf8_Some bs s : from_utf8 bs = Some s -> encode_utf8 s = bs.
Proof.
  unfold from_utf8. intros H%mapM_Some. apply (utf8_chunks_encode (length bs)); [lia|].
  revert H. generalize (utf8_chunks (length bs) bs). intros l H.
  induction H as [|o x l s Ho _ IH]; [done|]. csimpl. by rewrite IH, <- Ho.
Qed.

Lemma encode_utf8_app s t : encode_utf8 (s ++ t) = encode_utf8 s ++ encode_utf8 t.
Proof. apply bind_app. Qed.

Lemma encode_ascii_elem c s : c < 128 -> c ∈ s -> c ∈ encode_utf8 s.
Proof.
  intros Hc Hin. apply list_elem_of_bind. exists c. split; [|done].
  unfold encode_char. rewrite (proj2 (Z.ltb_lt _ _)) by done. left.
Qed.

(** A character that ends its only line ends the decoded line too. *)
Lemma from_utf8_last_only w c s :
  c < 128 -> c ∉ w -> from_utf8 (w ++ [c]) = Some s -> exists t, s = t ++ [c] /\ c ∉ t.
Proof.
  intros Hc Hw H%from_utf8_Some. destruct (decide (s = [])) as [->|Hs]; [by destruct w|].
  destruct (exists_last Hs) as (t & x & ->). rewrite encode_utf8_app in H.
  assert (exists k b, encode_char x = k ++ [b] /\ (b < 128 -> x = b /\ k = [])) as (k & b & Hx & Hb).
  { unfold encode_char. repeat case_match; simpl_bool;
      [exists [] | eexists [_] | eexists [_; _] | eexists [_; _; _]]; eexists; (split; [reflexivity|]);
      Z.to_euclidean_division_equations; try lia. done. }
  cbn in H. rewrite app_nil_r, Hx, app_assoc in H. apply app_inj_tail in H as [Hw' ->].
  destruct (Hb Hc) as [-> ->]. rewrite app_nil_r in Hw'. exists t. split; [done|].
  intros Hin. apply Hw. rewrite <- Hw'. by apply encode_ascii_elem.
Qed.

Example lossy_latin1 : from_utf8_lossy [99; 97; 102; 233; 32; 116] = [99; 97; 102; 65533; 32; 116].
Proof. reflexivity. Qed.
Example lossy_truncated : from_utf8_lossy [226; 130; 65; 240; 159] = [65533; 65; 65533].
Proof. reflexivity. Qed.
Example strict_surrogate : from_utf8 [237; 160; 128] = None.
Proof. reflexivity. Qed.
