(* ===== verification/Error.v ===== *)
(** * Errors ([src/src/error.rs])

    [ChimneyError] with the source's variants; the payload of a wrapped foreign error
    ([std::io::Error], [toml::de::Error], [rusqlite::Error]) is its display text, the
    only thing the program ever does with it.  [to_string] is the [Display] that
    [thiserror] derives from the [#[error(..)]] attributes; it matters because the
    worker stores it in the dead-letter table. *)

From S2P Require Import Prelude RustStr.

Module ChimneyError.
Inductive t : Type :=
| Smtp (msg : str)
| SmtpSizeExceeded
| SmtpLineTooLong
| SmtpDataIncomplete
| Matrix (msg : str)
| Config (msg : str)
| Template (msg : str)
| Io (error : str)
| Toml (error : str)
| Queue (msg : str)
| QueueFull
| Storage (error : str).

#[export] Instance eq_dec : EqDecision t.
Proof. solve_decision. Defined.

Definition to_string (e : t) : str :=
  match e with
  | Smtp m => lit "SMTP error: " ++ m
  | SmtpSizeExceeded => lit "SMTP message size exceeded"
  | SmtpLineTooLong => lit "SMTP line exceeded the maximum length"
  | SmtpDataIncomplete => lit "SMTP DATA ended before the terminator"
  | Matrix m => lit "Matrix error: " ++ m
  | Config m => lit "Configuration error: " ++ m
  | Template m => lit "Template error: " ++ m
  | Io m => lit "IO error: " ++ m
  | Toml m => lit "TOML error: " ++ m
  | Queue m => lit "Queue error: " ++ m
  | QueueFull => lit "queue is full"
  | Storage m => lit "Storage error: " ++ m
  end.

(** The variants are told apart by their text, so the [last_error] column of the
    dead-letter table identifies the failure. *)
Lemma to_string_inj e e' : to_string e = to_string e' -> e = e'.
Proof. destruct e, e'; intros H; compute in H; simplify_eq; done. Qed.
End ChimneyError.

(** [pub type Result<T> = std::result::Result<T, ChimneyError>]. *)
Abbreviation Result := (result ChimneyError.t).
