(* ===== verification/Effects.v ===== *)
(** * Effectful code

    The program is asynchronous Rust: a task runs between its [.await] points and
    meets the rest of the world (the database, the homeserver, the clock, the peer) at
    them.  A task is a [prog]: a tree of the effects it performs, each node continued by
    the answer the world gives.  The same term is run sequentially by [run] against a
    handler, and one effect at a time by the interleaving semantics of [System]. *)

From S2P Require Import Prelude.

Inductive prog (E : Type -> Type) (A : Type) : Type :=
| Ret (a : A)
| Vis {X : Type} (e : E X) (k : X -> prog E A).
Arguments Ret {E A} a.
Arguments Vis {E A X} e k.

Fixpoint prog_bind {E A B} (f : A -> prog E B) (p : prog E A) : prog E B :=
  match p with
  | Ret a => f a
  | Vis e k => Vis e (fun x => prog_bind f (k x))
  end.

#[export] Instance prog_mret E : MRet (prog E) := @Ret E.
#[export] Instance prog_mbind E : MBind (prog E) := @prog_bind E.

Definition trigger {E X} (e : E X) : prog E X := Vis e Ret.

(** [f().await?] inside a function that returns a [Result]. *)
Definition bind_ok {E Er A B} (p : prog E (result Er A)) (f : A -> prog E (result Er B))
  : prog E (result Er B) :=
  r ← p; match r with Ok a => f a | Err e => Ret (Err e) end.

Notation "x <-? p ;; q" := (bind_ok p (fun x => q))
  (at level 100, p at next level, right associativity) : chimney_scope.

(** A program after the world has answered its next effect. *)
Definition resume {E : Type -> Type} {A} (answer : forall X, E X -> X) (p : prog E A) : prog E A :=
  match p with Ret a => Ret a | Vis e k => k (answer _ e) end.

(** The same program over a larger signature. *)
Fixpoint translate {E F : Type -> Type} {A} (f : forall X, E X -> F X) (p : prog E A) : prog F A :=
  match p with
  | Ret a => Ret a
  | Vis e k => Vis (f _ e) (fun x => translate f (k x))
  end.

(** A handler answers an effect and changes the world. *)
Definition handler (E : Type -> Type) (S : Type) : Type := forall X, E X -> S -> S * X.

Fixpoint run {E S A} (h : handler E S) (p : prog E A) (s : S) : S * A :=
  match p with
  | Ret a => (s, a)
  | Vis e k => let '(s', x) := h _ e s in run h (k x) s'
  end.

Lemma run_bind {E S A B} (h : handler E S) (p : prog E A) (f : A -> prog E B) s :
  run h (prog_bind f p) s = let '(s', a) := run h p s in run h (f a) s'.
Proof.
  revert s. induction p as [a|X e k IH]; intros s; simpl; [done|].
  destruct (h X e s) as [s' x]. apply IH.
Qed.

Lemma run_mbind {E S A B} (h : handler E S) (p : prog E A) (f : A -> prog E B) s :
  run h (p ≫= f) s = let '(s', a) := run h p s in run h (f a) s'.
Proof. apply run_bind. Qed.

Lemma run_trigger {E S X} (h : handler E S) (e : E X) s : run h (trigger e) s = h X e s.
Proof. simpl. by destruct (h X e s). Qed.

Lemma run_translate {E F S A} (f : forall X, E X -> F X) (h : handler F S) (p : prog E A) s :
  run h (translate f p) s = run (fun X e => h X (f X e)) p s.
Proof.
  revert s. induction p as [a|X e k IH]; intros s; simpl; [done|].
  destruct (h X (f X e) s) as [s' x]. apply IH.
Qed.

(** ** Traces

    What a run did, as a list of observations: [obs] reads an effect and its answer. *)
Fixpoint trace {E S A O} (h : handler E S) (obs : forall X, E X -> X -> list O) (p : prog E A) (s : S)
  : list O :=
  match p with
  | Ret _ => []
  | Vis e k => let '(s', x) := h _ e s in obs _ e x ++ trace h obs (k x) s'
  end.

(** ** Loops

    A [loop { .. }] of the source is its body, a program that answers whether to go
    round again; [run_loop] iterates it with fuel. *)
Inductive loop_ctl (B : Type) : Type := Continue | Break (b : B).
Arguments Continue {B}.
Arguments Break {B} b.

Fixpoint run_loop {E S B} (h : handler E S) (body : prog E (loop_ctl B)) (fuel : nat) (s : S)
  : S * option B :=
  match fuel with
  | O => (s, None)
  | S n =>
      match run h body s with
      | (s', Continue) => run_loop h body n s'
      | (s', Break b) => (s', Some b)
      end
  end.

Lemma run_loop_more {E S B} (h : handler E S) (body : prog E (loop_ctl B)) n m s s' b :
  run_loop h body n s = (s', Some b) -> (n <= m)%nat -> run_loop h body m s = (s', Some b).
Proof.
  revert m s. induction n as [|n IH]; intros m s; simpl; [done|].
  destruct m as [|m]; [lia|]. simpl. destruct (run h body s) as [s1 []]; [|done].
  intros H Hle. apply IH; [done | lia].
Qed.

Lemma run_loop_add {E S B} (h : handler E S) (body : prog E (loop_ctl B)) n m s s' :
  run_loop h body n s = (s', None) -> run_loop h body (n + m) s = run_loop h body m s'.
Proof.
  revert s. induction n as [|n IH]; intros s; simpl; [by intros [= ->]|].
  destruct (run h body s) as [s1 []]; [apply IH|done].
Qed.

(** A measure that drops at every round bounds the rounds of a loop, and an
    invariant of the body holds when it stops. *)
Lemma run_loop_terminates {E S B} (h : handler E S) (body : prog E (loop_ctl B))
    (Inv : S -> Prop) (Post : S -> B -> Prop) (measure : S -> nat) :
  (forall s s', Inv s -> run h body s = (s', Continue) -> Inv s' /\ (measure s' < measure s)%nat) ->
  (forall s s' b, Inv s -> run h body s = (s', Break b) -> Post s' b) ->
  forall s fuel, Inv s -> (measure s < fuel)%nat ->
  exists s' b, run_loop h body fuel s = (s', Some b) /\ Post s' b.
Proof.
  intros Hstep Hbreak s fuel. revert s.
  induction fuel as [|n IH]; intros s Hs Hm; [lia|]. simpl.
  destruct (run h body s) as [s1 [|b]] eqn:Hrun.
  - destruct (Hstep _ _ Hs Hrun). apply IH; [done | lia].
  - eauto.
Qed.

(** ** Post-conditions over every behaviour of the world

    [always P p]: whatever the world answers, [p] returns a value in [P].
    [allowed A p]: whatever the world answers, [p] only performs effects in [A]. *)
Fixpoint always {E A} (P : A -> Prop) (p : prog E A) : Prop :=
  match p with
  | Ret a => P a
  | Vis e k => forall x, always P (k x)
  end.

Fixpoint allowed {E A} (Q : forall X, E X -> Prop) (p : prog E A) : Prop :=
  match p with
  | Ret _ => True
  | Vis e k => Q _ e /\ forall x, allowed Q (k x)
  end.

Lemma always_bind {E A B} (P : B -> Prop) (p : prog E A) (f : A -> prog E B) :
  always P (p ≫= f) <-> always (fun a => always P (f a)) p.
Proof.
  induction p as [a|X e k IH]; simpl; [done|].
  split; intros H x; apply IH, H.
Qed.

Lemma always_mono {E A} (P Q : A -> Prop) (p : prog E A) :
  (forall a, P a -> Q a) -> always P p -> always Q p.
Proof. intros HPQ. induction p as [a|X e k IH]; simpl; eauto. Qed.

Lemma always_run {E S A} (P : A -> Prop) (h : handler E S) (p : prog E A) s :
  always P p -> P (run h p s).2.
Proof.
  revert s. induction p as [a|X e k IH]; simpl; intros s Hp; [done|].
  destruct (h X e s) as [s' x]. by apply IH.
Qed.

Lemma allowed_bind {E A B} (Q : forall X, E X -> Prop) (p : prog E A) (f : A -> prog E B) :
  allowed Q p -> (forall a, allowed Q (f a)) -> allowed Q (p ≫= f).
Proof.
  intros Hp Hf. induction p as [a|X e k IH]; simpl; [apply Hf|].
  destruct Hp as [He Hk]. split; [done|]. intros x. by apply IH.
Qed.

(** An invariant of the world kept by every allowed effect is kept by the program. *)
Lemma run_invariant {E S A} (Q : forall X, E X -> Prop) (Inv : S -> Prop) (h : handler E S) (p : prog E A) s :
  (forall X (e : E X) s, Q X e -> Inv s -> Inv (h X e s).1) ->
  allowed Q p -> Inv s -> Inv (run h p s).1.
Proof.
  intros Hh. revert s. induction p as [a|X e k IH]; simpl; intros s Hp Hs; [done|].
  destruct Hp as [He Hk]. pose proof (Hh X e s He Hs) as H.
  destruct (h X e s) as [s' x]. by apply IH.
Qed.

(** The empty assumption on the answers of the world. *)
Definition any_answer {E : Type -> Type} (X : Type) (e : E X) (x : X) : Prop := True.

(** ** Protocols

    A protocol is an automaton on effects with their answers.  [conforms] says that a
    program stays within it whatever answers the world gives among those [rely] allows,
    and ends in a phase [final] relates to its result. *)
Section Protocol.
Context {E : Type -> Type} {P : Type}.
Variable rely : forall X, E X -> X -> Prop.
Variable step : P -> forall X, E X -> X -> option P.

Fixpoint conforms {A} (final : P -> A -> Prop) (ph : P) (p : prog E A) : Prop :=
  match p with
  | Ret a => final ph a
  | Vis e k => forall x, rely _ e x ->
      match step ph _ e x with Some ph' => conforms final ph' (k x) | None => False end
  end.

Lemma conforms_bind {A B} (mid : P -> A -> Prop) (final : P -> B -> Prop) ph (p : prog E A) (f : A -> prog E B) :
  conforms mid ph p -> (forall ph' a, mid ph' a -> conforms final ph' (f a)) -> conforms final ph (p ≫= f).
Proof.
  intros Hp Hf. revert ph Hp. induction p as [a|X e k IH]; simpl; intros ph Hp; [by apply Hf|].
  intros x Hx. specialize (Hp x Hx). destruct (step ph X e x); [|done]. by apply IH.
Qed.

Lemma conforms_mono {A} (final final' : P -> A -> Prop) ph (p : prog E A) :
  (forall ph a, final ph a -> final' ph a) -> conforms final ph p -> conforms final' ph p.
Proof.
  intros Hf. revert ph. induction p as [a|X e k IH]; simpl; intros ph Hp; [by apply Hf|].
  intros x Hx. specialize (Hp x Hx). destruct (step ph X e x); [|done]. by apply IH.
Qed.

(** What a run did: its effects with their answers. *)
Definition observation : Type := { X : Type & (E X * X)%type }.
Definition observe : forall X, E X -> X -> list observation := fun X e x => [existT X (e, x)].

(** The phases a sequence of observations goes through; [None] when one of them is
    not in the protocol. *)
Fixpoint accepts (ph : P) (os : list observation) : option P :=
  match os with
  | [] => Some ph
  | existT X (e, x) :: os' => match step ph X e x with Some ph' => accepts ph' os' | None => None end
  end.

(** A world whose answers satisfy [rely] drives a conforming program through the
    protocol. *)
Lemma conforms_trace {S A} (h : handler E S) (final : P -> A -> Prop) ph (p : prog E A) s :
  (forall X (e : E X) s, rely X e (h X e s).2) -> conforms final ph p ->
  exists ph', accepts ph (trace h observe p s) = Some ph' /\ final ph' (run h p s).2.
Proof.
  intros Hh. revert ph s. induction p as [a|X e k IH]; simpl; intros ph s Hp; [by exists ph|].
  pose proof (Hh X e s) as Hr. destruct (h X e s) as [s' x]. simpl in *.
  specialize (Hp x Hr). destruct (step ph X e x) as [ph'|]; [|done]. by apply IH.
Qed.
End Protocol.

#[export] Hint Rewrite @run_mbind @run_trigger : chimney.
