(* ===== verification/Store.v ===== *)
(** * The persistent outbox ([src/src/queue/store.rs])

    [Db] is the content of the two SQLite tables, rows in rowid order.  The SQL
    statements of the source are functions on it; [Sql] is the state and error monad of
    the closures run by [with_conn], over a connection that carries a script of the
    faults the storage layer will report (one entry per call into it, [None] = the call
    succeeds; the empty script means that nothing fails).  A [MessageStore] is the
    connection, the number of [notify_one] calls made, and [max_len].  [enqueue] is a
    program of two calls, since a dropped caller does not come to the second. *)

From S2P Require Import Prelude RustStr Error Effects.

(** ** Data *)

Record Message : Type := mkMessage {
  msg_from : option str;
  msg_to : list str;
  msg_subject : option str;
  msg_body : str;
}.

Record StoredMessage : Type := mkStored {
  sm_id : Z;
  sm_message : Message;
  sm_attempts : Z;
}.

#[export] Instance Message_eq_dec : EqDecision Message.
Proof. solve_decision. Defined.
#[export] Instance StoredMessage_eq_dec : EqDecision StoredMessage.
Proof. solve_decision. Defined.

(** A row of the table [outbox]. *)
Record outbox_row : Type := mkRow {
  row_id : Z;
  row_from_addr : option str;
  row_to_addrs : str;
  row_subject : option str;
  row_body : str;
  row_attempts : Z;
  row_next_attempt_at : Z;
  row_created_at : Z;
}.

(** A row of the table [dead_letter]. *)
Record dead_row : Type := mkDead {
  dead_id : Z;
  dead_from_addr : option str;
  dead_to_addrs : str;
  dead_subject : option str;
  dead_body : str;
  dead_attempts : Z;
  dead_created_at : Z;
  dead_failed_at : Z;
  dead_last_error : str;
}.

(** The database: the rows and, for [AUTOINCREMENT], the largest rowid each table
    ever held ([sqlite_sequence]). *)
Record Db : Type := mkDb {
  db_outbox : list outbox_row;
  db_outbox_seq : Z;
  db_dead : list dead_row;
  db_dead_seq : Z;
}.

(** What [SCHEMA] creates in a new database. *)
Definition SCHEMA_db : Db := mkDb [] 0 [] 0.

(** ** Connections, faults and transactions *)

Record Connection : Type := mkConn {
  conn_db : Db;
  conn_faults : list (option str);
}.

Definition next_fault (c : Connection) : option str * Connection :=
  match conn_faults c with
  | [] => (None, c)
  | f :: fs => (f, mkConn (conn_db c) fs)
  end.

Definition Sql (A : Type) : Type := Connection -> Connection * Result A.

#[export] Instance sql_ret : MRet Sql := fun A a c => (c, Ok a).
#[export] Instance sql_bind : MBind Sql := fun A B f m c =>
  match m c with
  | (c', Ok a) => f a c'
  | (c', Err e) => (c', Err e)
  end.

Definition sql_fail {A} (e : ChimneyError.t) : Sql A := fun c => (c, Err e).

(** One statement ([conn.execute], [conn.query_row]): it may fail, and then changes
    nothing; a [rusqlite::Error] becomes [ChimneyError::Storage] by [?]. *)
Definition statement {A} (f : Db -> result str (Db * A)) : Sql A := fun c =>
  match next_fault c with
  | (Some e, c') => (c', Err (ChimneyError.Storage e))
  | (None, c') =>
      match f (conn_db c') with
      | Ok (db, a) => (mkConn db (conn_faults c'), Ok a)
      | Err e => (c', Err (ChimneyError.Storage e))
      end
  end.

(** [unchecked_transaction] .. [commit]: an error on the way, or a failed commit, drops
    the transaction, which rolls back to the state at [BEGIN]. *)
Definition transaction {A} (body : Sql A) : Sql A := fun c =>
  match next_fault c with
  | (Some e, c1) => (c1, Err (ChimneyError.Storage e))
  | (None, c1) =>
      match body c1 with
      | (c2, Err e) => (mkConn (conn_db c1) (conn_faults c2), Err e)
      | (c2, Ok a) =>
          match next_fault c2 with
          | (Some e, c3) => (mkConn (conn_db c1) (conn_faults c3), Err (ChimneyError.Storage e))
          | (None, c3) => (c3, Ok a)
          end
      end
  end.

(** ** The SQL statements *)

Definition max_rowid {R} (id : R -> Z) (rows : list R) : Z := foldr (fun r n => Z.max (id r) n) 0 rows.

(** The rowid an [AUTOINCREMENT] insert takes, or [SQLITE_FULL]. *)
Definition next_rowid (largest seq : Z) : result str Z :=
  let n := Z.max largest seq in
  if n <? i64_max then Ok (n + 1) else Err (lit "database or disk is full").

(** [SELECT COUNT( * ) FROM outbox] and [.. FROM dead_letter]. *)
Definition select_count_outbox (db : Db) : result str (Db * Z) := Ok (db, Z.of_nat (length (db_outbox db))).
Definition select_count_dead (db : Db) : result str (Db * Z) := Ok (db, Z.of_nat (length (db_dead db))).

(** [INSERT INTO outbox (..) VALUES (?1, ?2, ?3, ?4, 0, 0, ?5)], then
    [last_insert_rowid]. *)
Definition insert_outbox (from : option str) (to : str) (subject : option str) (body : str)
    (created_at : Z) (db : Db) : result str (Db * Z) :=
  id ← next_rowid (max_rowid row_id (db_outbox db)) (db_outbox_seq db);
  Ok (mkDb (db_outbox db ++ [mkRow id from to subject body 0 0 created_at]) id
        (db_dead db) (db_dead_seq db), id).

(** [WHERE next_attempt_at <= now ORDER BY next_attempt_at ASC, id ASC LIMIT 1]. *)
Definition row_ready (now : Z) (r : outbox_row) : bool := row_next_attempt_at r <=? now.
Definition row_before (r r' : outbox_row) : bool :=
  (row_next_attempt_at r <? row_next_attempt_at r')
  || ((row_next_attempt_at r =? row_next_attempt_at r') && (row_id r <? row_id r')).
Definition select_ready (now : Z) (db : Db) : result str (Db * option outbox_row) :=
  Ok (db, first_by row_before (filter (fun r => row_ready now r = true) (db_outbox db))).

(** [DELETE FROM outbox WHERE id = ?1]. *)
Definition delete_outbox (id : Z) (db : Db) : result str (Db * unit) :=
  Ok (mkDb (filter (fun r => row_id r <> id) (db_outbox db)) (db_outbox_seq db)
        (db_dead db) (db_dead_seq db), tt).

(** [INSERT INTO dead_letter (..) SELECT .. FROM outbox WHERE id = ?1]: one new row for
    each selected row. *)
Definition to_dead (r : outbox_row) (id failed_at : Z) (last_error : str) : dead_row :=
  mkDead id (row_from_addr r) (row_to_addrs r) (row_subject r) (row_body r)
    (row_attempts r) (row_created_at r) failed_at last_error.
Fixpoint insert_dead_rows (rows : list outbox_row) (failed_at : Z) (last_error : str) (db : Db)
  : result str Db :=
  match rows with
  | [] => Ok db
  | r :: rows' =>
      id ← next_rowid (max_rowid dead_id (db_dead db)) (db_dead_seq db);
      insert_dead_rows rows' failed_at last_error
        (mkDb (db_outbox db) (db_outbox_seq db)
           (db_dead db ++ [to_dead r id failed_at last_error]) id)
  end.
Definition insert_dead_letter (id failed_at : Z) (last_error : str) (db : Db) : result str (Db * unit) :=
  db' ← insert_dead_rows (filter (fun r => row_id r = id) (db_outbox db)) failed_at last_error db;
  Ok (db', tt).

(** [UPDATE outbox SET attempts = ?2, next_attempt_at = ?3 WHERE id = ?1]. *)
Definition set_attempt (attempts next_attempt_at : Z) (r : outbox_row) : outbox_row :=
  mkRow (row_id r) (row_from_addr r) (row_to_addrs r) (row_subject r) (row_body r)
    attempts next_attempt_at (row_created_at r).
Definition update_outbox (id attempts next_attempt_at : Z) (db : Db) : result str (Db * unit) :=
  Ok (mkDb ((fun r => if decide (row_id r = id) then set_attempt attempts next_attempt_at r else r)
              <$> db_outbox db)
        (db_outbox_seq db) (db_dead db) (db_dead_seq db), tt).

(** [SELECT MIN(next_attempt_at) FROM outbox WHERE next_attempt_at > ?1]. *)
Definition select_next_wakeup (now : Z) (db : Db) : result str (Db * option Z) :=
  Ok (db, first_by Z.ltb
            (row_next_attempt_at <$> filter (fun r => now < row_next_attempt_at r) (db_outbox db))).

(** ** Recipients *)

Definition encode_recipients (to : list str) : str := join [nl] to.
Definition decode_recipients (raw : str) : list str :=
  match raw with [] => [] | _ => split (Z.eqb nl) raw end.

Definition row_to_stored (r : outbox_row) : StoredMessage :=
  mkStored (row_id r)
    (mkMessage (row_from_addr r) (decode_recipients (row_to_addrs r)) (row_subject r) (row_body r))
    (as_u32 (row_attempts r)).

(** [unix_now], from a clock reading in seconds relative to the epoch:
    [duration_since] fails for a clock before it. *)
Definition unix_now (clock : Z) : Z := if clock <? 0 then 0 else as_i64 clock.

(** ** The store *)

Record MessageStore : Type := mkStore {
  ms_conn : Connection;
  ms_notified : nat;
  ms_max_len : Z;
}.

Definition ms_db (s : MessageStore) : Db := conn_db (ms_conn s).

(** [with_conn]: the closure runs on a blocking task, which may itself fail
    before it runs. *)
Definition with_conn {A} (f : Sql A) (s : MessageStore) : MessageStore * Result A :=
  let '(c', r) :=
    match next_fault (ms_conn s) with
    | (Some e, c1) => (c1, Err (ChimneyError.Queue (lit "storage task failed: " ++ e)))
    | (None, c1) => f c1
    end in
  (mkStore c' (ms_notified s) (ms_max_len s), r).

Definition notify_one (s : MessageStore) : MessageStore :=
  mkStore (ms_conn s) (S (ms_notified s)) (ms_max_len s).

(** The closure of [enqueue]. *)
Definition enqueue_sql (max_len : Z) (message : Message) (created_at : Z) : Sql Z :=
  _ ← (if 0 <? max_len
       then count ← statement select_count_outbox;
            if max_len <=? as_u64 count then sql_fail ChimneyError.QueueFull else mret tt
       else mret tt);
  statement (insert_outbox (msg_from message) (encode_recipients (msg_to message))
               (msg_subject message) (msg_body message) created_at).

(** What [enqueue] awaits: the closure on its blocking task.  The task runs to its end
    even when the future that awaits it is dropped. *)
Definition enqueue_commit (clock : Z) (message : Message) (s : MessageStore) : MessageStore * Result Z :=
  with_conn (enqueue_sql (ms_max_len s) message (unix_now clock)) s.

(** The two calls of [enqueue]: the closure, with the clock read before it is awaited,
    and, once that has answered, the notification of the worker. *)
Inductive EnqueueE : Type -> Type :=
| WithConn (clock : Z) (message : Message) : EnqueueE (Result Z)
| NotifyOne : EnqueueE unit.

Definition enqueue_prog (clock : Z) (message : Message) : prog EnqueueE (Result Z) :=
  (id <-? trigger (WithConn clock message);;
   (_ ← trigger NotifyOne;
    Ret (Ok id)))%chimney.

Definition enqueue_handler : handler EnqueueE MessageStore := fun X e s =>
  match e in EnqueueE X return MessageStore * X with
  | WithConn clock message => enqueue_commit clock message s
  | NotifyOne => (notify_one s, tt)
  end.

(** A call that runs to its end; [Wakeup] takes its two calls apart. *)
Definition enqueue (clock : Z) (message : Message) (s : MessageStore) : MessageStore * Result Z :=
  run enqueue_handler (enqueue_prog clock message) s.
#[global] Arguments enqueue : simpl never.

Definition claim_next_ready (now : Z) (s : MessageStore) : MessageStore * Result (option StoredMessage) :=
  with_conn (stored ← statement (select_ready now); mret (row_to_stored <$> stored)) s.

Definition remove (id : Z) (s : MessageStore) : MessageStore * Result unit :=
  with_conn (_ ← statement (delete_outbox id); mret tt) s.

Definition mark_delivered (id : Z) (s : MessageStore) : MessageStore * Result unit := remove id s.

Definition dead_letter (clock id : Z) (last_error : str) (s : MessageStore) : MessageStore * Result unit :=
  with_conn (transaction
    (_ ← statement (insert_dead_letter id (unix_now clock) last_error);
     _ ← statement (delete_outbox id);
     mret tt)) s.

Definition dead_letter_len (s : MessageStore) : MessageStore * Result Z :=
  with_conn (count ← statement select_count_dead; mret (as_u64 count)) s.

Definition reschedule (id attempts next_attempt_at : Z) (s : MessageStore) : MessageStore * Result unit :=
  with_conn (_ ← statement (update_outbox id attempts next_attempt_at); mret tt) s.

Definition next_wakeup (now : Z) (s : MessageStore) : MessageStore * Result (option Z) :=
  with_conn (statement (select_next_wakeup now)) s.

Definition len (s : MessageStore) : MessageStore * Result Z :=
  with_conn (count ← statement select_count_outbox; mret (as_u64 count)) s.

(** ** Opening

    [disk] maps the path of a database file to its content.  [open] creates the parent
    directories, opens or creates the file and runs [SCHEMA], whose [IF NOT EXISTS]
    keeps the rows of an existing database. *)

(** Whether [Path::new(path).parent()] is [Some] of a non-empty path: the components
    are the non-empty pieces other than ["."], and a leading [.] or [/]. *)
Definition parent_nonempty (path : str) : bool :=
  let pieces := split (Z.eqb 47) path in
  let normal := length (filter (fun w => w <> [] /\ w <> lit ".") pieces) in
  if starts_with (lit "/") path then (1 <=? normal)%nat
  else match head pieces with
       | Some w => (2 <=? (if decide (w = lit ".") then S normal else normal))%nat
       | None => false
       end.

Definition pop_fault (faults : list (option str)) : option str * list (option str) :=
  match faults with [] => (None, []) | f :: fs => (f, fs) end.

Definition open_with_max_len (path : str) (max_len : Z) (disk : gmap (list Z) Db)
    (faults : list (option str)) : gmap (list Z) Db * Result MessageStore :=
  let '(task, faults) := pop_fault faults in
  if task is Some e then (disk, Err (ChimneyError.Queue (lit "storage task failed: " ++ e))) else
  let '(mkdir, faults) :=
    if bool_decide (path <> lit ":memory:") && parent_nonempty path
    then pop_fault faults else (None, faults) in
  if mkdir is Some e then (disk, Err (ChimneyError.Io e)) else
  let '(connect, faults) := pop_fault faults in
  if connect is Some e then (disk, Err (ChimneyError.Storage e)) else
  let '(schema, faults) := pop_fault faults in
  if schema is Some e then (disk, Err (ChimneyError.Storage e)) else
  if decide (path = lit ":memory:")
  then (disk, Ok (mkStore (mkConn SCHEMA_db faults) 0 max_len))
  else
    let db := default SCHEMA_db (disk !! path) in
    (<[path := db]> disk, Ok (mkStore (mkConn db faults) 0 max_len)).

Definition open (path : str) (disk : gmap (list Z) Db) (faults : list (option str))
  : gmap (list Z) Db * Result MessageStore :=
  open_with_max_len path 0 disk faults.

(** ** The invariant of the tables *)

Record db_wf (db : Db) : Prop := {
  wf_outbox_sorted : StronglySorted Z.lt (row_id <$> db_outbox db);
  wf_outbox_rows : Forall (fun r => 1 <= row_id r <= db_outbox_seq db
                                    /\ is_u32 (row_attempts r)
                                    /\ is_i64 (row_next_attempt_at r)) (db_outbox db);
  wf_outbox_seq : 0 <= db_outbox_seq db <= i64_max;
  wf_dead_sorted : StronglySorted Z.lt (dead_id <$> db_dead db);
  wf_dead_rows : Forall (fun r => 1 <= dead_id r <= db_dead_seq db) (db_dead db);
  wf_dead_seq : 0 <= db_dead_seq db <= i64_max;
}.

(** ** Lemmas on the monad *)

(** [sql_spec m P]: [m] fails and leaves the tables alone, or succeeds as [P] says. *)
Definition sql_spec {A} (m : Sql A) (P : Db -> Db -> A -> Prop) : Prop :=
  forall c, match m c with
            | (c', Ok a) => P (conn_db c) (conn_db c') a
            | (c', Err _) => conn_db c' = conn_db c
            end.

Lemma next_fault_db c : conn_db (next_fault c).2 = conn_db c.
Proof. destruct c as [db [|f fs]]; done. Qed.

Lemma statement_spec {A} (f : Db -> result str (Db * A)) :
  sql_spec (statement f) (fun db db' a => f db = Ok (db', a)).
Proof.
  intros c. unfold statement. pose proof (next_fault_db c) as H.
  destruct (next_fault c) as [[e|] c1]; simpl in *; [done|].
  rewrite H. destruct (f (conn_db c)) as [[db a]|e]; done.
Qed.

Lemma statement_err {A} (f : Db -> result str (Db * A)) c c' e :
  statement f c = (c', Err e) -> exists t, e = ChimneyError.Storage t.
Proof.
  unfold statement. destruct (next_fault c) as [[t|] c1]; [naive_solver|].
  destruct (f (conn_db c1)) as [[db a]|t]; naive_solver.
Qed.

(** A statement without a result after a query that does not write. *)
Lemma sql_spec_map {A B} (m : Sql A) (f : A -> B) P :
  sql_spec m P -> sql_spec (a ← m; mret (f a)) (fun db db' b => exists a, P db db' a /\ b = f a).
Proof.
  intros Hm c. unfold mbind, sql_bind, mret, sql_ret. specialize (Hm c).
  destruct (m c) as [c' [a|e]]; eauto.
Qed.

(** Whatever its body does before it fails, a transaction is all or nothing. *)
Lemma transaction_spec {A} (body : Sql A) (P : Db -> Db -> A -> Prop) :
  (forall c c' a, body c = (c', Ok a) -> P (conn_db c) (conn_db c') a) ->
  sql_spec (transaction body) P.
Proof.
  intros Hb c. unfold transaction. pose proof (next_fault_db c) as H.
  destruct (next_fault c) as [[e|] c1]; simpl in *; [done|].
  destruct (body c1) as [c2 [a|e]] eqn:Ebody; simpl; [|done].
  apply Hb in Ebody. pose proof (next_fault_db c2) as H2.
  destruct (next_fault c2) as [[e|] c3]; simpl in *; [done|]. by rewrite H2, <- H.
Qed.

(** The same for an operation of the store, whose task may fail first. *)
Lemma with_conn_spec {A} (f : Sql A) P s :
  sql_spec f P ->
  match with_conn f s with
  | (s', Ok a) => P (ms_db s) (ms_db s') a /\ ms_notified s' = ms_notified s /\ ms_max_len s' = ms_max_len s
  | (s', Err _) => ms_db s' = ms_db s /\ ms_notified s' = ms_notified s /\ ms_max_len s' = ms_max_len s
  end.
Proof.
  intros Hf. unfold with_conn, ms_db. pose proof (next_fault_db (ms_conn s)) as H.
  destruct (next_fault (ms_conn s)) as [[e|] c1]; simpl in *; [done|].
  specialize (Hf c1). destruct (f c1) as [c2 [a|e]]; simpl; rewrite <- ?H; done.
Qed.

(** With no faults ahead an operation is its statements. *)
Definition no_faults (s : MessageStore) : Prop := conn_faults (ms_conn s) = [].

Lemma next_fault_nil db : next_fault (mkConn db []) = (None, mkConn db []).
Proof. done. Qed.

Lemma statement_no_faults {A} (f : Db -> result str (Db * A)) db :
  statement f (mkConn db []) =
  match f db with
  | Ok (db', a) => (mkConn db' [], Ok a)
  | Err e => (mkConn db [], Err (ChimneyError.Storage e))
  end.
Proof. done. Qed.

Lemma with_conn_no_faults {A} (f : Sql A) s :
  no_faults s ->
  with_conn f s =
  (mkStore (f (mkConn (ms_db s) [])).1 (ms_notified s) (ms_max_len s), (f (mkConn (ms_db s) [])).2).
Proof.
  unfold no_faults, with_conn, ms_db. destruct s as [[db fs] n ml]; simpl. intros ->.
  rewrite next_fault_nil. simpl. by destruct (f _).
Qed.
