(* ===== verification/StoreFacts.v ===== *)
(** * The outbox, operation by operation

    The table invariant [db_wf] and its preservation, the behaviour of every operation
    of the store on every branch, the round trip of the recipients, and the error
    atomicity of all of them. *)

From S2P Require Import Prelude RustStr Error Store.

(** ** Rows *)

Lemma max_rowid_le {R} (id : R -> Z) rows n :
  0 <= n -> Forall (fun r => id r <= n) rows -> max_rowid id rows <= n.
Proof. intros Hn. induction 1 as [|r rows Hr _ IH]; simpl; lia. Qed.

Lemma next_rowid_wf {R} (id : R -> Z) rows seq n :
  0 <= seq -> Forall (fun r => 1 <= id r <= seq) rows ->
  next_rowid (max_rowid id rows) seq = Ok n <-> n = seq + 1 /\ seq < i64_max.
Proof.
  intros Hs Hrows.
  assert (max_rowid id rows <= seq) as Hm.
  { apply max_rowid_le; [done|]. forall_impl Hrows. }
  unfold next_rowid. rewrite Z.max_r by done.
  destruct (Z.ltb_spec seq i64_max); naive_solver lia.
Qed.

Lemma sorted_filter {R} (id : R -> Z) (P : R -> Prop) `{forall r, Decision (P r)} rows :
  StronglySorted Z.lt (id <$> rows) -> StronglySorted Z.lt (id <$> filter P rows).
Proof.
  induction rows as [|r rows IH]; [done|]. rewrite fmap_cons, StronglySorted_cons.
  intros [Hr Hs]. rewrite filter_cons. destruct (decide (P r)); [|by apply IH].
  rewrite fmap_cons, StronglySorted_cons. split; [|by apply IH].
  rewrite Forall_fmap in *. by apply Forall_filter.
Qed.

Lemma sorted_snoc {R} (id : R -> Z) rows r :
  StronglySorted Z.lt (id <$> rows) -> Forall (fun r' => id r' < id r) rows ->
  StronglySorted Z.lt (id <$> rows ++ [r]).
Proof.
  intros Hs Hr. rewrite fmap_app. apply StronglySorted_app_2; [|done|].
  - intros x y Hx Hy. rewrite list_elem_of_fmap in Hx. destruct Hx as (r' & -> & Hr').
    apply list_elem_of_singleton in Hy as ->. rewrite Forall_forall in Hr. by apply Hr.
  - repeat constructor.
Qed.

Lemma sorted_unique {R} (id : R -> Z) rows r r' :
  StronglySorted Z.lt (id <$> rows) -> r ∈ rows -> r' ∈ rows -> id r = id r' -> r = r'.
Proof.
  induction rows as [|x rows IH]; [by intros _ ?%not_elem_of_nil|].
  rewrite fmap_cons, StronglySorted_cons, Forall_fmap, Forall_forall. intros [Hx Hs].
  rewrite !elem_of_cons. intros [->|Hr] [->|Hr'] E; [done| | |by apply IH].
  - apply Hx in Hr'. simpl in Hr'. lia.
  - apply Hx in Hr. simpl in Hr. lia.
Qed.

Lemma sorted_NoDup (l : list Z) : StronglySorted Z.lt l -> NoDup l.
Proof.
  induction 1 as [|x l Hs IH Hx]; constructor; [|done].
  intros Hin. rewrite Forall_forall in Hx. apply Hx in Hin. lia.
Qed.

(** The rows with a given id: none, or the one. *)
Lemma filter_by_id {R} (id : R -> Z) rows i :
  StronglySorted Z.lt (id <$> rows) ->
  (filter (fun r => id r = i) rows = [] /\ Forall (fun r => id r <> i) rows) \/
  (exists r, filter (fun r => id r = i) rows = [r] /\ r ∈ rows /\ id r = i).
Proof.
  induction rows as [|x rows IH]; [by left|].
  rewrite fmap_cons, StronglySorted_cons, Forall_fmap. intros [Hx Hs].
  rewrite filter_cons. destruct (decide (id x = i)) as [E|E].
  - right. exists x. split_and!; [|left|done].
    assert (filter (fun r => id r = i) rows = []) as ->; [|done].
    destruct (IH Hs) as [[? _]|(r & _ & Hr & Er)]; [done|].
    rewrite Forall_forall in Hx. apply Hx in Hr. simpl in Hr. lia.
  - destruct (IH Hs) as [[-> Hall]|(r & -> & Hr & Er)]; [left|right].
    + split; [done|]. by constructor.
    + exists r. split_and!; [done | by right | done].
Qed.

(** ** The invariant is preserved *)

Lemma SCHEMA_db_wf : db_wf SCHEMA_db.
Proof. split; simpl; try constructor; unfold i64_max; lia. Qed.

Lemma insert_outbox_ok from to subject body created db db' id :
  db_wf db -> insert_outbox from to subject body created db = Ok (db', id) <->
  id = db_outbox_seq db + 1 /\ db_outbox_seq db < i64_max /\
  db' = mkDb (db_outbox db ++ [mkRow id from to subject body 0 0 created]) id
          (db_dead db) (db_dead_seq db).
Proof.
  intros Hwf. unfold insert_outbox.
  assert (Forall (fun r => 1 <= row_id r <= db_outbox_seq db) (db_outbox db)) as Hids.
  { forall_impl (wf_outbox_rows _ Hwf). }
  pose proof (fun n => next_rowid_wf row_id _ _ n (proj1 (wf_outbox_seq _ Hwf)) Hids) as Hn.
  destruct (next_rowid _ _) as [n|e]; simpl.
  - destruct (proj1 (Hn n) eq_refl) as [-> Hlt]. naive_solver.
  - split; [done|]. intros (-> & Hlt & _). by discriminate (proj2 (Hn _) (conj eq_refl Hlt)).
Qed.

Lemma insert_outbox_wf from to subject body created db db' id :
  db_wf db -> insert_outbox from to subject body created db = Ok (db', id) -> db_wf db'.
Proof.
  intros Hwf (-> & Hlt & ->)%insert_outbox_ok; [|done].
  pose proof (wf_outbox_seq _ Hwf). destruct Hwf as [Hs Hr Hseq Hds Hdr Hdseq].
  split; simpl; try done; [| |lia].
  - apply sorted_snoc; [done|]. forall_impl Hr.
  - apply Forall_app. split.
    + forall_impl Hr.
    + constructor; [|done]. simpl. unfold is_u32, is_i64, u32_max, i64_min, i64_max. lia.
Qed.

Lemma delete_outbox_wf id db db' u : db_wf db -> delete_outbox id db = Ok (db', u) -> db_wf db'.
Proof.
  intros [Hs Hr Hseq Hds Hdr Hdseq] [= <- _]. split; simpl; try done.
  - by apply sorted_filter.
  - by apply Forall_filter.
Qed.

Lemma update_outbox_wf id attempts next db db' u :
  db_wf db -> is_u32 attempts -> is_i64 next ->
  update_outbox id attempts next db = Ok (db', u) -> db_wf db'.
Proof.
  intros [Hs Hr Hseq Hds Hdr Hdseq] Ha Hn [= <- _]. split; simpl; try done.
  - rewrite <- list_fmap_compose. erewrite list_fmap_ext; [exact Hs|].
    intros ? r _. simpl. by destruct (decide (row_id r = id)).
  - rewrite Forall_fmap. eapply Forall_impl; [exact Hr|]. simpl. intros r (? & ? & ?).
    destruct (decide (row_id r = id)); done.
Qed.

Lemma insert_dead_rows_ok rows failed err db db' :
  insert_dead_rows rows failed err db = Ok db' -> db_wf db ->
  db_wf db' /\ db_outbox db' = db_outbox db /\ db_outbox_seq db' = db_outbox_seq db /\
  exists new, db_dead db' = db_dead db ++ new /\
    Forall2 (fun r d => exists id, d = to_dead r id failed err) rows new.
Proof.
  revert db. induction rows as [|r rows IH]; intros db; simpl.
  - intros [= <-] Hwf. split_and!; [done..|]. exists []. by rewrite app_nil_r.
  - intros H Hwf.
    pose proof (fun n => next_rowid_wf dead_id _ _ n (proj1 (wf_dead_seq _ Hwf)) (wf_dead_rows _ Hwf)) as Hn.
    destruct (next_rowid _ _) as [n|e]; simpl in H; [|done].
    destruct (proj1 (Hn n) eq_refl) as [-> Hlt].
    apply IH in H as (Hwf' & Ho & Hos & new & Hd & Hnew).
    + split_and!; [done..|]. exists (to_dead r (db_dead_seq db + 1) failed err :: new).
      rewrite Hd. simpl. split; [by rewrite <- app_assoc|].
      constructor; [eauto | done].
    + pose proof (wf_dead_seq _ Hwf). destruct Hwf as [Hs Hr Hseq Hds Hdr Hdseq].
      split; simpl; try done; [| |lia].
      * apply sorted_snoc; [done|]. forall_impl Hdr.
      * apply Forall_app. split; [|constructor; [simpl; lia | done]].
        forall_impl Hdr.
Qed.

Lemma insert_dead_letter_ok id failed err db db' u :
  insert_dead_letter id failed err db = Ok (db', u) -> db_wf db ->
  db_wf db' /\ db_outbox db' = db_outbox db /\ db_outbox_seq db' = db_outbox_seq db /\
  exists new, db_dead db' = db_dead db ++ new /\
    Forall2 (fun r d => exists n, d = to_dead r n failed err)
      (filter (fun r => row_id r = id) (db_outbox db)) new.
Proof.
  unfold insert_dead_letter. intros H Hwf.
  destruct (insert_dead_rows _ _ _ _) as [db1|e] eqn:E; simpl in H; [|done].
  injection H as <- _. by apply insert_dead_rows_ok in E.
Qed.

(** ** What each operation does to the tables *)

Lemma enqueue_sql_spec max_len m created :
  sql_spec (enqueue_sql max_len m created) (fun db db' id =>
    (0 < max_len -> as_u64 (Z.of_nat (length (db_outbox db))) < max_len) /\
    insert_outbox (msg_from m) (encode_recipients (msg_to m)) (msg_subject m) (msg_body m)
      created db = Ok (db', id)).
Proof.
  intros c. unfold enqueue_sql.
  destruct (Z.ltb_spec 0 max_len) as [Hml|Hml].
  - unfold mbind, sql_bind. pose proof (statement_spec select_count_outbox c) as Hcount.
    destruct (statement select_count_outbox c) as [c1 [n|e]]; [|done].
    injection Hcount as Hdb <-.
    destruct (Z.leb_spec max_len (as_u64 (Z.of_nat (length (db_outbox (conn_db c)))))); simpl; [done|].
    pose proof (statement_spec (insert_outbox (msg_from m) (encode_recipients (msg_to m))
      (msg_subject m) (msg_body m) created) c1) as Hins.
    destruct (statement _ c1) as [c2 [id|e]]; rewrite <- Hdb in Hins; naive_solver.
  - simpl. pose proof (statement_spec (insert_outbox (msg_from m) (encode_recipients (msg_to m))
      (msg_subject m) (msg_body m) created) c) as Hins.
    unfold mbind, sql_bind, mret, sql_ret.
    destruct (statement _ c) as [c2 [id|e]]; [split; [lia | done] | done].
Qed.

(** [enqueue] run to its end. *)
Lemma enqueue_eq clock m s :
  enqueue clock m s =
  match enqueue_commit clock m s with
  | (s', Ok id) => (notify_one s', Ok id)
  | (s', Err e) => (s', Err e)
  end.
Proof. unfold enqueue. cbn. by destruct (enqueue_commit clock m s) as [s' [id|e]]. Qed.

(** The commit alone is [enqueue] without the notification. *)
Definition with_notified (n : nat) (s : MessageStore) : MessageStore := mkStore (ms_conn s) n (ms_max_len s).

Lemma enqueue_commit_enqueue clock m s :
  enqueue_commit clock m s = (with_notified (ms_notified s) (enqueue clock m s).1, (enqueue clock m s).2).
Proof.
  rewrite enqueue_eq. unfold enqueue_commit, with_conn. destruct (next_fault (ms_conn s)) as [[e|] c]; [done|].
  by destruct (enqueue_sql _ _ _ _) as [c' [id|e]].
Qed.

(** A call of [enqueue]: on success the message is the new last row under a fresh id
    and the worker is notified; on any error nothing has changed. *)
Lemma enqueue_spec clock m s s' r :
  enqueue clock m s = (s', r) ->
  ms_max_len s' = ms_max_len s /\
  match r with
  | Ok id =>
      ms_notified s' = S (ms_notified s) /\
      (0 < ms_max_len s -> as_u64 (Z.of_nat (length (db_outbox (ms_db s)))) < ms_max_len s) /\
      insert_outbox (msg_from m) (encode_recipients (msg_to m)) (msg_subject m) (msg_body m)
        (unix_now clock) (ms_db s) = Ok (ms_db s', id)
  | Err _ => ms_db s' = ms_db s /\ ms_notified s' = ms_notified s
  end.
Proof.
  rewrite enqueue_eq. unfold enqueue_commit. pose proof (with_conn_spec _ _ s (enqueue_sql_spec (ms_max_len s) m (unix_now clock))) as H.
  destruct (with_conn _ s) as [s1 [id|e]]; intros [= <- <-]; simpl.
  - destruct H as ((? & ?) & Hn & Hml). rewrite Hn. done.
  - naive_solver.
Qed.

Lemma claim_next_ready_spec now s s' r :
  claim_next_ready now s = (s', r) ->
  ms_db s' = ms_db s /\ ms_notified s' = ms_notified s /\ ms_max_len s' = ms_max_len s /\
  match r with
  | Ok o => o = row_to_stored <$>
      first_by row_before (filter (fun r => row_ready now r = true) (db_outbox (ms_db s)))
  | Err _ => True
  end.
Proof.
  intros H. unfold claim_next_ready in H.
  pose proof (with_conn_spec _ _ s (sql_spec_map _ (fmap row_to_stored) _ (statement_spec (select_ready now)))) as Hs.
  cbv beta in Hs. rewrite H in Hs. destruct r as [o|e]; [|naive_solver].
  destruct Hs as ((a & [= Hdb <-] & ->) & ? & ?). done.
Qed.

Lemma remove_spec id s s' r :
  remove id s = (s', r) ->
  ms_notified s' = ms_notified s /\ ms_max_len s' = ms_max_len s /\
  match r with
  | Ok _ => delete_outbox id (ms_db s) = Ok (ms_db s', tt)
  | Err _ => ms_db s' = ms_db s
  end.
Proof.
  intros H. unfold remove in H.
  pose proof (with_conn_spec _ _ s (sql_spec_map _ (fun _ => tt) _ (statement_spec (delete_outbox id)))) as Hs.
  cbv beta in Hs. rewrite H in Hs. destruct r as [o|e]; [|naive_solver]. by destruct Hs as (([] & ? & _) & ? & ?).
Qed.

Lemma reschedule_spec id attempts next s s' r :
  reschedule id attempts next s = (s', r) ->
  ms_notified s' = ms_notified s /\ ms_max_len s' = ms_max_len s /\
  match r with
  | Ok _ => update_outbox id attempts next (ms_db s) = Ok (ms_db s', tt)
  | Err _ => ms_db s' = ms_db s
  end.
Proof.
  intros H. unfold reschedule in H.
  pose proof (with_conn_spec _ _ s (sql_spec_map _ (fun _ => tt) _ (statement_spec (update_outbox id attempts next)))) as Hs.
  cbv beta in Hs. rewrite H in Hs. destruct r as [o|e]; [|naive_solver]. by destruct Hs as (([] & ? & _) & ? & ?).
Qed.

Lemma dead_letter_spec clock id err s s' r :
  dead_letter clock id err s = (s', r) ->
  ms_notified s' = ms_notified s /\ ms_max_len s' = ms_max_len s /\
  match r with
  | Ok _ => exists db1, insert_dead_letter id (unix_now clock) err (ms_db s) = Ok (db1, tt) /\
                        delete_outbox id db1 = Ok (ms_db s', tt)
  | Err _ => ms_db s' = ms_db s
  end.
Proof.
  intros H. unfold dead_letter in H. revert H.
  match goal with |- context [transaction ?b] => set (body := b) end. intros H.
  assert (sql_spec (transaction body) (fun db db' _ =>
    exists db1, insert_dead_letter id (unix_now clock) err db = Ok (db1, tt) /\
                delete_outbox id db1 = Ok (db', tt))) as Hspec.
  { apply transaction_spec. intros c c' a Hb. unfold body, mbind, sql_bind, mret, sql_ret in Hb.
    pose proof (statement_spec (insert_dead_letter id (unix_now clock) err) c) as H1.
    destruct (statement (insert_dead_letter _ _ _) c) as [c1 [[]|e]]; [|done].
    pose proof (statement_spec (delete_outbox id) c1) as H2.
    destruct (statement (delete_outbox id) c1) as [c2 [[]|e]]; [|done].
    injection Hb as <- <-. eauto. }
  pose proof (with_conn_spec _ _ s Hspec) as Hs. rewrite H in Hs.
  destruct r; naive_solver.
Qed.

(** A read-only query never changes the tables. *)
Lemma query_spec {A} (f : Db -> result str (Db * A)) (g : A -> A) s s' r :
  (forall db db' a, f db = Ok (db', a) -> db' = db) ->
  with_conn (a ← statement f; mret (g a)) s = (s', r) ->
  ms_db s' = ms_db s /\ ms_notified s' = ms_notified s /\ ms_max_len s' = ms_max_len s.
Proof.
  intros Hro H. pose proof (with_conn_spec _ _ s (sql_spec_map _ g _ (statement_spec f))) as Hs.
  cbv beta in Hs. rewrite H in Hs. destruct r as [a|e]; [|naive_solver].
  destruct Hs as ((a' & Hf & ->) & ? & ?). apply Hro in Hf. done.
Qed.

Lemma next_wakeup_spec now s s' r :
  next_wakeup now s = (s', r) ->
  ms_db s' = ms_db s /\ ms_notified s' = ms_notified s /\ ms_max_len s' = ms_max_len s /\
  match r with
  | Ok o => o = first_by Z.ltb (row_next_attempt_at <$>
              filter (fun r => now < row_next_attempt_at r) (db_outbox (ms_db s)))
  | Err _ => True
  end.
Proof.
  intros H. unfold next_wakeup in H.
  pose proof (with_conn_spec _ _ s (statement_spec (select_next_wakeup now))) as Hs.
  cbv beta in Hs. rewrite H in Hs. destruct r as [o|e]; [|naive_solver].
  by destruct Hs as ([= Hdb <-] & ? & ?).
Qed.

(** ** Operations as data, and the events they answer

    [step] runs one operation of the store, [event] is the operation with the answer it
    gave; an error of any kind but [QueueFull] is [EvFailed]. *)

Inductive store_op : Type :=
| OpEnqueue (clock : Z) (m : Message)
| OpClaimNextReady (now : Z)
| OpMarkDelivered (id : Z)
| OpDeadLetter (clock id : Z) (last_error : str)
| OpReschedule (id attempts next_attempt_at : Z)
| OpNextWakeup (now : Z)
| OpLen
| OpDeadLetterLen.

Inductive store_event : Type :=
| EvEnqueued (clock : Z) (m : Message) (id : Z)
| EvQueueFull
| EvClaimed (now : Z) (o : option StoredMessage)
| EvDelivered (id : Z)
| EvDeadLettered (clock id : Z) (last_error : str)
| EvRescheduled (id attempts next_attempt_at : Z)
| EvNextWakeup (now : Z) (at_ : option Z)
| EvLen (n : Z)
| EvDeadLetterLen (n : Z)
| EvFailed (e : ChimneyError.t).

Definition error_event (e : ChimneyError.t) : store_event :=
  match e with ChimneyError.QueueFull => EvQueueFull | _ => EvFailed e end.
Definition event_of {A} (f : A -> store_event) (r : Result A) : store_event :=
  match r with Ok a => f a | Err e => error_event e end.

Definition step (op : store_op) (s : MessageStore) : MessageStore * store_event :=
  match op with
  | OpEnqueue clock m => prod_map id (event_of (EvEnqueued clock m)) (enqueue clock m s)
  | OpClaimNextReady now => prod_map id (event_of (EvClaimed now)) (claim_next_ready now s)
  | OpMarkDelivered i => prod_map id (event_of (fun _ => EvDelivered i)) (mark_delivered i s)
  | OpDeadLetter clock i e => prod_map id (event_of (fun _ => EvDeadLettered clock i e)) (dead_letter clock i e s)
  | OpReschedule i a n => prod_map id (event_of (fun _ => EvRescheduled i a n)) (reschedule i a n s)
  | OpNextWakeup now => prod_map id (event_of (EvNextWakeup now)) (next_wakeup now s)
  | OpLen => prod_map id (event_of EvLen) (len s)
  | OpDeadLetterLen => prod_map id (event_of EvDeadLetterLen) (dead_letter_len s)
  end.

(** The arguments the callers pass: a [u32] attempt count and an [i64] due time. *)
Definition op_args_ok (op : store_op) : Prop :=
  match op with
  | OpReschedule _ a n => is_u32 a /\ is_i64 n
  | _ => True
  end.

Lemma len_spec s s' r :
  len s = (s', r) ->
  ms_db s' = ms_db s /\ ms_notified s' = ms_notified s /\ ms_max_len s' = ms_max_len s /\
  match r with Ok n => n = as_u64 (Z.of_nat (length (db_outbox (ms_db s)))) | Err _ => True end.
Proof.
  intros H. unfold len in H.
  pose proof (with_conn_spec _ _ s (sql_spec_map _ as_u64 _ (statement_spec select_count_outbox))) as Hs.
  rewrite H in Hs. destruct r as [n|e]; [|naive_solver].
  by destruct Hs as ((a & [= Hdb <-] & ->) & ? & ?).
Qed.

Lemma dead_letter_len_spec s s' r :
  dead_letter_len s = (s', r) ->
  ms_db s' = ms_db s /\ ms_notified s' = ms_notified s /\ ms_max_len s' = ms_max_len s /\
  match r with Ok n => n = as_u64 (Z.of_nat (length (db_dead (ms_db s)))) | Err _ => True end.
Proof.
  intros H. unfold dead_letter_len in H.
  pose proof (with_conn_spec _ _ s (sql_spec_map _ as_u64 _ (statement_spec select_count_dead))) as Hs.
  rewrite H in Hs. destruct r as [n|e]; [|naive_solver].
  by destruct Hs as ((a & [= Hdb <-] & ->) & ? & ?).
Qed.

(** The effect of a step on the tables, by the event it answered. *)
Definition db_effect (ev : store_event) (db db' : Db) : Prop :=
  match ev with
  | EvEnqueued clock m id =>
      insert_outbox (msg_from m) (encode_recipients (msg_to m)) (msg_subject m) (msg_body m)
        (unix_now clock) db = Ok (db', id)
  | EvDelivered id => delete_outbox id db = Ok (db', tt)
  | EvDeadLettered clock id e => exists db1,
      insert_dead_letter id (unix_now clock) e db = Ok (db1, tt) /\ delete_outbox id db1 = Ok (db', tt)
  | EvRescheduled id a n => update_outbox id a n db = Ok (db', tt)
  | _ => db' = db
  end.

Lemma step_effect op s s' ev :
  step op s = (s', ev) ->
  db_effect ev (ms_db s) (ms_db s') /\ ms_max_len s' = ms_max_len s /\
  (ev = EvFailed ChimneyError.QueueFull -> False).
Proof.
  unfold step. destruct op as [clock m|now|i|clock i e|i a n|now| |];
    match goal with |- prod_map _ _ ?x = _ -> _ => destruct x as [s1 r] eqn:E end;
    simpl; intros [= <- <-].
  - apply enqueue_spec in E as [? H]. destruct r as [id|[]]; simpl; naive_solver.
  - apply claim_next_ready_spec in E as (? & ? & ? & H). destruct r as [o|[]]; simpl; naive_solver.
  - apply remove_spec in E as (? & ? & H). destruct r as [[]|[]]; simpl; naive_solver.
  - apply dead_letter_spec in E as (? & ? & H). destruct r as [[]|[]]; simpl; naive_solver.
  - apply reschedule_spec in E as (? & ? & H). destruct r as [[]|[]]; simpl; naive_solver.
  - apply next_wakeup_spec in E as (? & ? & ? & H). destruct r as [o|[]]; simpl; naive_solver.
  - apply len_spec in E as (? & ? & ? & H). destruct r as [o|[]]; simpl; naive_solver.
  - apply dead_letter_len_spec in E as (? & ? & ? & H). destruct r as [o|[]]; simpl; naive_solver.
Qed.

Lemma db_effect_wf op s s' ev :
  op_args_ok op -> step op s = (s', ev) -> db_wf (ms_db s) -> db_wf (ms_db s').
Proof.
  intros Hargs Hstep Hwf. pose proof (step_effect _ _ _ _ Hstep) as (Heff & _ & _).
  destruct ev as [clock m i| |now o|i|clock i e|i a n|now o|n|n|e]; simpl in Heff;
    try (by rewrite Heff).
  - by eapply insert_outbox_wf.
  - by eapply delete_outbox_wf.
  - destruct Heff as (db1 & H1 & H2). apply insert_dead_letter_ok in H1 as (Hwf1 & _); [|done].
    by eapply delete_outbox_wf.
  - eapply update_outbox_wf; [done| | |done].
    all: destruct op; simpl in Hstep;
      match type of Hstep with prod_map _ _ ?x = _ => destruct x as [? [|[]]] end;
      simplify_eq/=; by destruct Hargs.
Qed.

Lemma step_wf op s : op_args_ok op -> db_wf (ms_db s) -> db_wf (ms_db (step op s).1).
Proof. intros Hop Hwf. destruct (step op s) as [s' ev] eqn:E. by eapply db_effect_wf. Qed.

(** A sequence of operations. *)
Definition steps (ops : list store_op) (s : MessageStore) : MessageStore :=
  foldl (fun s op => (step op s).1) s ops.

Lemma steps_invariant (I : MessageStore -> Prop) ops s :
  (forall op s, op ∈ ops -> I s -> I (step op s).1) -> I s -> I (steps ops s).
Proof.
  revert s. induction ops as [|op ops IH]; intros s Hstep Hs; [done|]. simpl.
  apply IH; [|apply Hstep; [left | done]]. intros op' s' Hin. apply Hstep. by right.
Qed.

(** ** Length bound *)

Definition within_max_len (s : MessageStore) : Prop :=
  0 < ms_max_len s -> Z.of_nat (length (db_outbox (ms_db s))) <= ms_max_len s.

Lemma length_filter_le {R} (P : R -> Prop) `{forall r, Decision (P r)} (l : list R) :
  (length (filter P l) <= length l)%nat.
Proof.
  induction l as [|x l IH]; [done|]. rewrite filter_cons.
  destruct (decide (P x)); simpl; lia.
Qed.

Lemma insert_outbox_length from to subject body created db db' id :
  insert_outbox from to subject body created db = Ok (db', id) ->
  length (db_outbox db') = S (length (db_outbox db)).
Proof.
  unfold insert_outbox. destruct (next_rowid _ _); simpl; [|done].
  intros [= <- _]. simpl. rewrite length_app. simpl. lia.
Qed.

Lemma insert_dead_rows_outbox rows failed err db db' :
  insert_dead_rows rows failed err db = Ok db' ->
  db_outbox db' = db_outbox db /\ db_outbox_seq db' = db_outbox_seq db.
Proof.
  revert db. induction rows as [|r rows IH]; intros db; simpl; [by intros [= <-]|].
  destruct (next_rowid _ _); simpl; [|done]. intros ?%IH. done.
Qed.

Lemma insert_dead_letter_outbox id failed err db db' u :
  insert_dead_letter id failed err db = Ok (db', u) ->
  db_outbox db' = db_outbox db /\ db_outbox_seq db' = db_outbox_seq db.
Proof.
  unfold insert_dead_letter. destruct (insert_dead_rows _ _ _ _) as [db1|] eqn:E; simpl; [|done].
  intros [= <- _]. by apply insert_dead_rows_outbox in E.
Qed.

(** Only [enqueue] lets the outbox grow. *)
Lemma db_effect_length ev db db' :
  db_effect ev db db' ->
  (length (db_outbox db') <= length (db_outbox db))%nat \/ exists clock m id, ev = EvEnqueued clock m id.
Proof.
  destruct ev as [clock m i| |now o|i|clock i e|i a n|now o|n|n|e]; simpl;
    try (by intros ->; left); [right; eauto|left..].
  - injection H as <-. simpl. apply length_filter_le.
  - destruct H as (db1 & H1 & [= <-]). apply insert_dead_letter_outbox in H1 as [<- _].
    simpl. apply length_filter_le.
  - injection H as <-. simpl. by rewrite length_fmap.
Qed.

Lemma step_within_max_len op s :
  0 <= ms_max_len s <= u64_max -> within_max_len s -> within_max_len (step op s).1.
Proof.
  intros Hml Hw. destruct (step op s) as [s' ev] eqn:E. simpl.
  pose proof (step_effect _ _ _ _ E) as (Heff & Hmax & _).
  unfold within_max_len in *. rewrite Hmax. intros Hpos. specialize (Hw Hpos).
  destruct (db_effect_length _ _ _ Heff) as [Hle|(clock & m & id & ->)]; [lia|].
  destruct op as [clock' m'|now|i|clock' i e|i a n|now| |]; simpl in E;
    match type of E with prod_map _ _ ?x = _ => destruct x as [? r] eqn:E1 end;
    destruct r as [|[]]; simplify_eq/=.
  apply enqueue_spec in E1 as (_ & _ & Hfull & Hins). apply insert_outbox_length in Hins.
  specialize (Hfull Hpos). rewrite as_u64_id in Hfull; [|unfold is_u64; lia]. lia.
Qed.

(** ** Recipients *)

Lemma decode_encode_recipients to :
  decode_recipients (encode_recipients to) = to <-> Forall (fun w => nl ∉ w) to /\ to <> [[]].
Proof.
  unfold encode_recipients. destruct to as [|w to]; [by split|].
  assert (decode_recipients (join [nl] (w :: to)) =
          if decide (w :: to = [[]]) then [] else split (Z.eqb nl) (join [nl] (w :: to))) as ->.
  { case_decide as Heq; [by rewrite Heq|].
    destruct (join [nl] (w :: to)) as [|c s] eqn:E; [|done].
    destruct to as [|w' to]; [by simpl in E; subst|].
    rewrite join_cons in E by done. by destruct w. }
  case_decide as Heq; [naive_solver|]. split.
  - intros Hsp. split; [|done]. rewrite <- Hsp. apply Forall_forall. intros x Hx.
    apply split_no_sep in Hx. rewrite Forall_forall in Hx. intros Hin.
    specialize (Hx _ Hin). by rewrite Z.eqb_refl in Hx.
  - intros [Hall _]. by apply split_join.
Qed.

(** A message whose recipients the table can hold faithfully. *)
Definition storable (m : Message) : Prop := Forall (fun w => nl ∉ w) (msg_to m) /\ msg_to m <> [[]].

#[export] Instance storable_dec m : Decision (storable m).
Proof. unfold storable. apply _. Defined.

(** The message as it comes back from the table. *)
Definition stored_form (m : Message) : Message :=
  mkMessage (msg_from m) (decode_recipients (encode_recipients (msg_to m))) (msg_subject m) (msg_body m).

Lemma stored_form_id m : storable m -> stored_form m = m.
Proof.
  intros H. unfold stored_form. rewrite (proj2 (decode_encode_recipients _) H). by destruct m.
Qed.
