(* ===== verification/StoreSpec.v ===== *)
(** * What the outbox promises

    The abstract queue: a finite map from message ids to the message, its failed
    attempts and when it is due, the list of dead letters, and the last id given out.
    [queue_step] says what each event means for it; [store_refines_queue] proves that
    the tables of [Store] implement it, for every operation and every fault. *)

From S2P Require Import Prelude RustStr Error Store StoreFacts.

Record entry : Type := mkEntry {
  entry_message : Message;
  entry_attempts : Z;
  entry_due : Z;
}.

Record letter : Type := mkLetter {
  letter_message : Message;
  letter_attempts : Z;
  letter_failed_at : Z;
  letter_error : str;
}.

Record Queue : Type := mkQueue {
  q_entries : gmap Z entry;
  q_last_id : Z;
  q_letters : list letter;
}.

(** ** The abstraction *)

Definition row_message (r : outbox_row) : Message :=
  mkMessage (row_from_addr r) (decode_recipients (row_to_addrs r)) (row_subject r) (row_body r).
Definition row_entry (r : outbox_row) : entry :=
  mkEntry (row_message r) (row_attempts r) (row_next_attempt_at r).
Definition dead_to_letter (d : dead_row) : letter :=
  mkLetter
    (mkMessage (dead_from_addr d) (decode_recipients (dead_to_addrs d)) (dead_subject d) (dead_body d))
    (dead_attempts d) (dead_failed_at d) (dead_last_error d).

Definition entries (rows : list outbox_row) : gmap Z entry :=
  list_to_map ((fun r => (row_id r, row_entry r)) <$> rows).

Definition queue_of (db : Db) : Queue :=
  mkQueue (entries (db_outbox db)) (db_outbox_seq db) (dead_to_letter <$> db_dead db).

(** ** The abstract steps *)

(** [before (id, e) (id', e')]: [e] is served first. *)
Definition served_before (x y : Z * entry) : Prop :=
  entry_due x.2 < entry_due y.2 \/ (entry_due x.2 = entry_due y.2 /\ x.1 < y.1).

Definition stored_of (x : Z * entry) : StoredMessage :=
  mkStored x.1 (entry_message x.2) (entry_attempts x.2).

Inductive queue_step : Queue -> store_event -> Queue -> Prop :=
| q_enqueued q clock m :
    q_last_id q < i64_max ->
    queue_step q (EvEnqueued clock m (q_last_id q + 1))
      (mkQueue (<[q_last_id q + 1 := mkEntry (stored_form m) 0 0]> (q_entries q))
         (q_last_id q + 1) (q_letters q))
| q_full q : queue_step q EvQueueFull q
| q_claimed_none q now :
    (forall i e, q_entries q !! i = Some e -> now < entry_due e) ->
    queue_step q (EvClaimed now None) q
| q_claimed q now i e :
    q_entries q !! i = Some e -> entry_due e <= now ->
    (forall i' e', q_entries q !! i' = Some e' -> entry_due e' <= now -> i' <> i ->
       served_before (i, e) (i', e')) ->
    queue_step q (EvClaimed now (Some (stored_of (i, e)))) q
| q_delivered q i :
    queue_step q (EvDelivered i) (mkQueue (delete i (q_entries q)) (q_last_id q) (q_letters q))
| q_dead_lettered q clock i err e :
    q_entries q !! i = Some e ->
    queue_step q (EvDeadLettered clock i err)
      (mkQueue (delete i (q_entries q)) (q_last_id q)
         (q_letters q ++ [mkLetter (entry_message e) (entry_attempts e) (unix_now clock) err]))
| q_dead_lettered_unknown q clock i err :
    q_entries q !! i = None -> queue_step q (EvDeadLettered clock i err) q
| q_rescheduled q i a n :
    queue_step q (EvRescheduled i a n)
      (mkQueue (alter (fun e => mkEntry (entry_message e) a n) i (q_entries q))
         (q_last_id q) (q_letters q))
| q_no_wakeup q now :
    (forall i e, q_entries q !! i = Some e -> entry_due e <= now) ->
    queue_step q (EvNextWakeup now None) q
| q_wakeup q now t i e :
    now < t -> q_entries q !! i = Some e -> entry_due e = t ->
    (forall i' e', q_entries q !! i' = Some e' -> now < entry_due e' -> t <= entry_due e') ->
    queue_step q (EvNextWakeup now (Some t)) q
| q_len q n : n = as_u64 (Z.of_nat (size (q_entries q))) -> queue_step q (EvLen n) q
| q_dead_len q n : n = as_u64 (Z.of_nat (length (q_letters q))) -> queue_step q (EvDeadLetterLen n) q
| q_failed q e : queue_step q (EvFailed e) q.

(** Inversion of the steps that carry an answer. *)
Lemma failed_inv q (e : ChimneyError.t) q' : queue_step q (error_event e) q' -> q' = q.
Proof. destruct e; by inversion 1. Qed.

Lemma enqueued_inv q clock m id q' :
  queue_step q (EvEnqueued clock m id) q' ->
  id = q_last_id q + 1 /\ q_last_id q < i64_max /\
  q' = mkQueue (<[id := mkEntry (stored_form m) 0 0]> (q_entries q)) id (q_letters q).
Proof. inversion 1; subst; done. Qed.

Lemma rescheduled_inv q i a n q' :
  queue_step q (EvRescheduled i a n) q' ->
  q' = mkQueue (alter (fun e => mkEntry (entry_message e) a n) i (q_entries q)) (q_last_id q) (q_letters q).
Proof. by inversion 1. Qed.

Lemma claimed_inv q now o q' :
  queue_step q (EvClaimed now o) q' ->
  q' = q /\
  match o with
  | None => forall i e, q_entries q !! i = Some e -> now < entry_due e
  | Some st => exists i e, st = stored_of (i, e) /\ q_entries q !! i = Some e /\ entry_due e <= now /\
      forall i' e', q_entries q !! i' = Some e' -> entry_due e' <= now -> i' <> i ->
        served_before (i, e) (i', e')
  end.
Proof. inversion 1; subst; naive_solver. Qed.

Lemma dead_lettered_inv q clock i err q' :
  queue_step q (EvDeadLettered clock i err) q' ->
  q' = mkQueue (delete i (q_entries q)) (q_last_id q)
         (q_letters q ++ match q_entries q !! i with
                         | Some e => [mkLetter (entry_message e) (entry_attempts e) (unix_now clock) err]
                         | None => []
                         end).
Proof.
  inversion 1 as [| | | | |? ? ? ? e He|? ? ? ? He| | | | | |]; subst; rewrite He; [done|].
  rewrite app_nil_r, delete_id by done. by destruct q'.
Qed.

(** ** The map of the rows *)

Lemma entries_lookup rows i e :
  StronglySorted Z.lt (row_id <$> rows) ->
  entries rows !! i = Some e <-> exists r, r ∈ rows /\ row_id r = i /\ row_entry r = e.
Proof.
  intros Hs. unfold entries. rewrite <- elem_of_list_to_map.
  - rewrite list_elem_of_fmap. naive_solver.
  - rewrite <- list_fmap_compose. by apply sorted_NoDup.
Qed.

Lemma entries_eq rows (m : gmap Z entry) :
  StronglySorted Z.lt (row_id <$> rows) ->
  (forall i e, m !! i = Some e <-> exists r, r ∈ rows /\ row_id r = i /\ row_entry r = e) ->
  entries rows = m.
Proof.
  intros Hs Hm. apply map_eq. intros i. apply option_eq. intros e.
  by rewrite entries_lookup, Hm.
Qed.

Lemma entries_size rows :
  StronglySorted Z.lt (row_id <$> rows) -> size (entries rows) = length rows.
Proof.
  intros Hs. unfold entries. rewrite map_size_list_to_map; [by rewrite length_fmap|].
  rewrite <- list_fmap_compose. by apply sorted_NoDup.
Qed.

Lemma entries_snoc rows r :
  StronglySorted Z.lt (row_id <$> rows ++ [r]) ->
  entries (rows ++ [r]) = <[row_id r := row_entry r]> (entries rows).
Proof.
  intros Hs. pose proof Hs as Hs'. rewrite fmap_app in Hs'. apply StronglySorted_app in Hs' as (Hlt & Hs1 & _).
  apply entries_eq; [done|]. intros i e.
  rewrite lookup_insert_Some, entries_lookup by done.
  setoid_rewrite elem_of_app. setoid_rewrite list_elem_of_singleton. split.
  - intros [[<- <-]|[Hne (r' & Hr' & <- & <-)]]; eauto.
  - intros (r' & [Hr'| ->] & <- & <-); [right|by left]. split; [|eauto].
    assert (row_id r' < row_id r); [|lia]. apply Hlt; [|left].
    by apply list_elem_of_fmap_2.
Qed.

Lemma entries_filter_ne rows i :
  StronglySorted Z.lt (row_id <$> rows) ->
  entries (filter (fun r => row_id r <> i) rows) = delete i (entries rows).
Proof.
  intros Hs. apply entries_eq; [by apply sorted_filter|]. intros j e.
  rewrite lookup_delete_Some, entries_lookup by done.
  setoid_rewrite list_elem_of_filter. naive_solver.
Qed.

Lemma entries_update rows i a n :
  StronglySorted Z.lt (row_id <$> rows) ->
  entries ((fun r => if decide (row_id r = i) then set_attempt a n r else r) <$> rows) =
  alter (fun e => mkEntry (entry_message e) a n) i (entries rows).
Proof.
  intros Hs.
  set (f := fun r => if decide (row_id r = i) then set_attempt a n r else r).
  assert (forall r, row_id (f r) = row_id r) as Hid by (intros r; unfold f; by case_decide).
  apply entries_eq.
  { rewrite <- list_fmap_compose. erewrite list_fmap_ext; [exact Hs|]. intros ? r _. apply Hid. }
  intros j e. rewrite lookup_alter_Some.
  setoid_rewrite entries_lookup; [|done..]. setoid_rewrite list_elem_of_fmap. split.
  - intros [(-> & e0 & (r & Hr & Hi & <-) & ->)|[Hne (r & Hr & <- & <-)]].
    + exists (f r). split_and!; [eauto|by rewrite Hid|]. unfold f. by rewrite decide_True.
    + exists r. split_and!; [|done..]. exists r. split; [|done]. unfold f. by rewrite decide_False.
  - intros (fr & (r & -> & Hr) & Hj & <-). rewrite Hid in Hj. unfold f.
    destruct (decide (row_id r = i)) as [E|E]; [left|right].
    + split; [congruence|]. eexists. split; [exists r; split_and!; [done| |done]|done]. congruence.
    + split; [congruence|]. eauto.
Qed.

(** ** The order of service *)

Lemma row_before_spec r r' :
  row_before r r' = true <-> served_before (row_id r, row_entry r) (row_id r', row_entry r').
Proof.
  unfold row_before, served_before. simpl.
  rewrite orb_true_iff, andb_true_iff, !Z.ltb_lt, Z.eqb_eq. done.
Qed.

Lemma row_before_false r r' :
  row_before r r' = false <-> row_next_attempt_at r' < row_next_attempt_at r \/
    (row_next_attempt_at r = row_next_attempt_at r' /\ row_id r' <= row_id r).
Proof.
  unfold row_before.
  destruct (Z.ltb_spec (row_next_attempt_at r) (row_next_attempt_at r'));
  destruct (Z.eqb_spec (row_next_attempt_at r) (row_next_attempt_at r'));
  destruct (Z.ltb_spec (row_id r) (row_id r')); simpl; naive_solver lia.
Qed.

Lemma first_by_row_least rows r :
  first_by row_before rows = Some r -> forall r', r' ∈ rows -> row_before r' r = false.
Proof.
  apply first_by_least.
  - intros x y z. rewrite !row_before_spec. unfold served_before. simpl. lia.
  - intros x y. rewrite row_before_spec, row_before_false. unfold served_before. simpl. lia.
  - intros x y z. rewrite !row_before_false. lia.
Qed.

Lemma first_by_Z_least (l : list Z) t :
  first_by Z.ltb l = Some t -> forall t', t' ∈ l -> t <= t'.
Proof.
  intros H t' Ht'. assert (Z.ltb t' t = false) as E; [|by apply Z.ltb_ge].
  revert t' Ht'. apply (first_by_least Z.ltb l t); [| | |done].
  all: intros; repeat rewrite Z.ltb_lt in *; repeat rewrite Z.ltb_ge in *; lia.
Qed.

(** ** Refinement, event by event *)

Lemma refine_insert db db' clock m id :
  db_wf db ->
  insert_outbox (msg_from m) (encode_recipients (msg_to m)) (msg_subject m) (msg_body m)
    (unix_now clock) db = Ok (db', id) ->
  queue_step (queue_of db) (EvEnqueued clock m id) (queue_of db').
Proof.
  intros Hwf Hins. pose proof (insert_outbox_wf _ _ _ _ _ _ _ _ Hwf Hins) as Hwf'.
  apply insert_outbox_ok in Hins as (-> & Hlt & ->); [|done].
  pose proof (wf_outbox_sorted _ Hwf') as Hs. simpl in Hs.
  unfold queue_of. simpl. rewrite entries_snoc by done. simpl.
  by apply (q_enqueued (queue_of db)).
Qed.

Lemma refine_delete db db' i :
  db_wf db -> delete_outbox i db = Ok (db', tt) ->
  q_entries (queue_of db') = delete i (q_entries (queue_of db)) /\
  q_last_id (queue_of db') = q_last_id (queue_of db) /\ db_dead db' = db_dead db.
Proof.
  intros Hwf [= <-]. simpl. split_and!; [|done..]. apply entries_filter_ne, Hwf.
Qed.

Lemma refine_dead_letter db db1 db' clock i err :
  db_wf db -> insert_dead_letter i (unix_now clock) err db = Ok (db1, tt) ->
  delete_outbox i db1 = Ok (db', tt) ->
  queue_step (queue_of db) (EvDeadLettered clock i err) (queue_of db').
Proof.
  intros Hwf H1 H2.
  apply insert_dead_letter_ok in H1 as (Hwf1 & Ho & Hseq & new & Hd & Hnew); [|done].
  destruct (refine_delete _ _ _ Hwf1 H2) as (He & Hl & Hd').
  simpl in He, Hl. rewrite Ho in He. rewrite Hseq in Hl.
  pose proof (wf_outbox_sorted _ Hwf) as Hs.
  unfold queue_of. rewrite Hd', Hd, He, Hl, fmap_app.
  destruct (filter_by_id row_id (db_outbox db) i Hs) as [[Hf Hall]|(r & Hf & Hr & Hi)];
    rewrite Hf in Hnew.
  - apply Forall2_nil_inv_l in Hnew as ->. simpl. rewrite app_nil_r.
    assert (entries (db_outbox db) !! i = None) as Hnone.
    { apply eq_None_not_Some. intros [e (r & Hr & Hi & _)%entries_lookup]; [|done].
      rewrite Forall_forall in Hall. by apply (Hall r). }
    rewrite delete_id by done. by apply (q_dead_lettered_unknown (queue_of db)).
  - apply Forall2_cons_inv_l in Hnew as (d & new' & (n & ->) & Hnil & ->).
    apply Forall2_nil_inv_l in Hnil as ->.
    assert (entries (db_outbox db) !! i = Some (row_entry r)) as Hsome.
    { apply entries_lookup; eauto. }
    by apply (q_dead_lettered (queue_of db) clock i err (row_entry r)).
Qed.

Lemma refine_claim db now :
  db_wf db ->
  queue_step (queue_of db)
    (EvClaimed now (row_to_stored <$>
       first_by row_before (filter (fun r => row_ready now r = true) (db_outbox db))))
    (queue_of db).
Proof.
  intros Hwf. pose proof (wf_outbox_sorted _ Hwf) as Hs.
  destruct (first_by row_before _) as [r|] eqn:E; simpl.
  - pose proof (first_by_elem _ _ _ E) as Hin. apply list_elem_of_filter in Hin as [Hdue Hin].
    apply Z.leb_le in Hdue.
    assert (row_to_stored r = stored_of (row_id r, row_entry r)) as ->.
    { unfold row_to_stored, stored_of. simpl. f_equal. apply as_u32_id.
      pose proof (wf_outbox_rows _ Hwf) as Hr. rewrite Forall_forall in Hr. by apply Hr. }
    apply q_claimed; [simpl; apply entries_lookup; eauto | done|].
    intros i' e' (r' & Hr' & <- & <-)%entries_lookup Hdue' Hne; [|done].
    assert (row_before r' r = false) as Hb.
    { eapply first_by_row_least; [exact E|]. apply list_elem_of_filter. split; [|done]. by apply Z.leb_le. }
    apply row_before_false in Hb. unfold served_before. simpl in *. lia.
  - apply first_by_None in E. constructor. intros i e (r & Hr & _ & <-)%entries_lookup; [|done].
    simpl. destruct (Z.leb_spec (row_next_attempt_at r) now) as [Hle|]; [|done].
    assert (r ∈ filter (fun r => row_ready now r = true) (db_outbox db)) as Hin.
    { apply list_elem_of_filter. split; [by apply Z.leb_le | done]. }
    rewrite E in Hin. by apply not_elem_of_nil in Hin.
Qed.

Lemma refine_wakeup db now :
  db_wf db ->
  queue_step (queue_of db)
    (EvNextWakeup now (first_by Z.ltb (row_next_attempt_at <$>
       filter (fun r => now < row_next_attempt_at r) (db_outbox db))))
    (queue_of db).
Proof.
  intros Hwf. pose proof (wf_outbox_sorted _ Hwf) as Hs.
  destruct (first_by Z.ltb _) as [t|] eqn:E.
  - pose proof (first_by_elem _ _ _ E) as Hin.
    apply list_elem_of_fmap in Hin as (r & -> & Hin). apply list_elem_of_filter in Hin as [Hlt Hin].
    eapply q_wakeup; [done | simpl; apply entries_lookup; eauto | done|].
    intros i' e' (r' & Hr' & <- & <-)%entries_lookup Hlt'; [|done]. simpl in *.
    apply (first_by_Z_least _ _ E). apply list_elem_of_fmap_2, list_elem_of_filter. done.
  - apply first_by_None in E. constructor. intros i e (r & Hr & _ & <-)%entries_lookup; [|done].
    simpl. destruct (Z.le_gt_cases (row_next_attempt_at r) now) as [Hle|Hgt]; [done|].
    assert (row_next_attempt_at r ∈ row_next_attempt_at <$>
              filter (fun r => now < row_next_attempt_at r) (db_outbox db)) as Hin.
    { by apply list_elem_of_fmap_2, list_elem_of_filter. }
    rewrite E in Hin. by apply not_elem_of_nil in Hin.
Qed.

(** An errored operation is a stuttering step. *)
Lemma refine_error (e : ChimneyError.t) db db' :
  db' = db -> queue_step (queue_of db) (error_event e) (queue_of db').
Proof. intros ->. destruct e; constructor. Qed.

Lemma refine_step op s s' ev :
  db_wf (ms_db s) -> step op s = (s', ev) ->
  queue_step (queue_of (ms_db s)) ev (queue_of (ms_db s')).
Proof.
  intros Hwf. unfold step. destruct op as [clock m|now|i|clock i e|i a n|now| |];
    match goal with |- prod_map _ _ ?x = _ -> _ => destruct x as [s1 r] eqn:E end;
    simpl; intros [= <- <-].
  - apply enqueue_spec in E as [_ H]. destruct r as [id|e]; [|apply refine_error; naive_solver].
    destruct H as (_ & _ & Hins). by apply refine_insert.
  - apply claim_next_ready_spec in E as (Hdb & _ & _ & H). destruct r as [o|e]; [|apply refine_error; naive_solver].
    simpl. rewrite Hdb, H. by apply refine_claim.
  - apply remove_spec in E as (_ & _ & H). destruct r as [[]|e]; [|apply refine_error; naive_solver].
    destruct (refine_delete _ _ _ Hwf H) as (He & Hl & Hd). unfold queue_of at 2.
    simpl in He, Hl. rewrite He, Hl, Hd. by apply (q_delivered (queue_of (ms_db s))).
  - apply dead_letter_spec in E as (_ & _ & H). destruct r as [[]|e']; [|apply refine_error; naive_solver].
    destruct H as (db1 & H1 & H2). by eapply refine_dead_letter.
  - apply reschedule_spec in E as (_ & _ & H). destruct r as [[]|e]; [|apply refine_error; naive_solver].
    injection H as <-. unfold queue_of. simpl. rewrite entries_update by apply Hwf.
    by apply (q_rescheduled (queue_of (ms_db s))).
  - apply next_wakeup_spec in E as (Hdb & _ & _ & H). destruct r as [o|e]; [|apply refine_error; naive_solver].
    simpl. rewrite Hdb, H. by apply refine_wakeup.
  - apply len_spec in E as (Hdb & _ & _ & H). destruct r as [n|e]; [|apply refine_error; naive_solver].
    simpl. rewrite Hdb. apply q_len. rewrite H. simpl. by rewrite entries_size by apply Hwf.
  - apply dead_letter_len_spec in E as (Hdb & _ & _ & H). destruct r as [n|e]; [|apply refine_error; naive_solver].
    simpl. rewrite Hdb. apply q_dead_len. rewrite H. simpl. by rewrite length_fmap.
Qed.
