(* ===== verification/StoreProps.v ===== *)
(** * Properties of the outbox

    The theorems about the store that the rest of the system relies on, each with a
    concrete instance. *)

From S2P Require Import Prelude RustStr Error Store StoreFacts StoreSpec.

(** ** Runs of the store *)

Fixpoint events (ops : list store_op) (s : MessageStore) : list store_event :=
  match ops with
  | [] => []
  | op :: ops' => let '(s', ev) := step op s in ev :: events ops' s'
  end.

(** A fresh store: the database [SCHEMA] creates, any faults ahead, any cap. *)
Definition fresh_store (faults : list (option str)) (max_len : Z) : MessageStore :=
  mkStore (mkConn SCHEMA_db faults) 0 max_len.

Lemma steps_cons op ops s : steps (op :: ops) s = steps ops (step op s).1.
Proof. done. Qed.

Lemma steps_wf ops s : Forall op_args_ok ops -> db_wf (ms_db s) -> db_wf (ms_db (steps ops s)).
Proof.
  intros Hops. apply (steps_invariant (fun s => db_wf (ms_db s))). intros op s0 Hin Hwf.
  rewrite Forall_forall in Hops. destruct (step op s0) as [s1 ev] eqn:E. simpl.
  eapply db_effect_wf; [|done|done]. by apply Hops.
Qed.

Lemma step_max_len op s : ms_max_len (step op s).1 = ms_max_len s.
Proof. destruct (step op s) as [s' ev] eqn:E. by apply step_effect in E as (_ & ? & _). Qed.

Lemma steps_within_max_len ops s :
  0 <= ms_max_len s <= u64_max -> within_max_len s -> within_max_len (steps ops s).
Proof.
  intros Hml Hw.
  enough (0 <= ms_max_len (steps ops s) <= u64_max /\ within_max_len (steps ops s)) by naive_solver.
  apply (steps_invariant (fun s => 0 <= ms_max_len s <= u64_max /\ within_max_len s)); [|done].
  intros op s0 _ [? ?]. rewrite step_max_len. split; [done|]. by apply step_within_max_len.
Qed.

(** ** One abstract step, seen from one message *)

Definition same_message (e e' : entry) : Prop := entry_message e' = entry_message e.

Lemma queue_step_keeps q ev q' i e :
  queue_step q ev q' -> q_entries q !! i = Some e -> i <= q_last_id q ->
  (exists e', q_entries q' !! i = Some e' /\ same_message e e') \/
  ev = EvDelivered i \/
  (exists clock err, ev = EvDeadLettered clock i err /\
     mkLetter (entry_message e) (entry_attempts e) (unix_now clock) err ∈ q_letters q').
Proof.
  unfold same_message. intros Hstep Hi Hle.
  destruct Hstep as [q clock m Hlt|q|q now H|q now i0 e0 H H1 H2|q i0|q clock i0 err e0 H|q clock i0 err H
    |q i0 a n|q now H|q now t i0 e0 H H1 H2 H3|q n H|q n H|q err]; simpl in *; eauto.
  - left. exists e. rewrite lookup_insert_ne by lia. done.
  - destruct (decide (i0 = i)) as [->|Hne]; [by right; left|].
    left. exists e. by rewrite lookup_delete_ne.
  - destruct (decide (i0 = i)) as [->|Hne].
    + right. right. simplify_eq. exists clock, err. split; [done|].
      apply elem_of_app. right. left.
    + left. exists e. by rewrite lookup_delete_ne.
  - left. destruct (decide (i0 = i)) as [->|Hne].
    + eexists. split; [rewrite lookup_alter_eq, Hi; done | done].
    + exists e. by rewrite lookup_alter_ne.
Qed.

Lemma queue_step_letters q ev q' : queue_step q ev q' -> q_letters q `prefix_of` q_letters q'.
Proof. destruct 1; simpl; try done. by apply prefix_app_r. Qed.

Lemma queue_step_last q ev q' : queue_step q ev q' -> q_last_id q <= q_last_id q'.
Proof. destruct 1; simpl; lia. Qed.

Lemma insert_outbox_eq from to subject body created db :
  db_wf db -> insert_outbox from to subject body created db =
    if db_outbox_seq db =? i64_max then Err (lit "database or disk is full")
    else Ok (mkDb (db_outbox db ++ [mkRow (db_outbox_seq db + 1) from to subject body 0 0 created])
               (db_outbox_seq db + 1) (db_dead db) (db_dead_seq db), db_outbox_seq db + 1).
Proof.
  intros Hwf. unfold insert_outbox, next_rowid. pose proof (wf_outbox_seq _ Hwf).
  rewrite Z.max_r by (apply max_rowid_le; [lia | forall_impl (wf_outbox_rows _ Hwf)]).
  destruct (Z.ltb_spec (db_outbox_seq db) i64_max), (Z.eqb_spec (db_outbox_seq db) i64_max);
    try done; lia.
Qed.

(** ** Properties *)

(** C18: every operation of the store, whatever the storage layer does, is a
    step of the abstract queue, and keeps the table invariant. *)
Theorem store_refines_queue op s s' ev :
  op_args_ok op -> db_wf (ms_db s) -> step op s = (s', ev) ->
  queue_step (queue_of (ms_db s)) ev (queue_of (ms_db s')) /\ db_wf (ms_db s').
Proof.
  intros Hargs Hwf Hstep. split; [by eapply refine_step | by eapply db_effect_wf].
Qed.

(** Strictly increasing ids between 1 and [n] are at most [n]. *)
Lemma sorted_length (l : list Z) lo n :
  StronglySorted Z.lt l -> Forall (fun i => lo < i <= n) l -> lo <= n -> Z.of_nat (length l) <= n - lo.
Proof.
  revert lo. induction l as [|i l IH]; intros lo Hs Hb Hlo; [cbn; lia|].
  apply StronglySorted_inv in Hs as [Hs Hi]. apply Forall_cons in Hb as [Hi' Hb].
  assert (Z.of_nat (length l) <= n - i); [|cbn [length]; lia]. apply IH; [done| |lia].
  apply Forall_forall. intros j Hj. rewrite Forall_forall in Hi, Hb. specialize (Hi j Hj). specialize (Hb j Hj). lia.
Qed.

Lemma outbox_length_i64 db : db_wf db -> Z.of_nat (length (db_outbox db)) <= i64_max.
Proof.
  intros [Hs Hr Hseq _ _ _]. pose proof (sorted_length (row_id <$> db_outbox db) 0 (db_outbox_seq db) Hs) as H.
  rewrite length_fmap, Forall_fmap in H. assert (0 <= db_outbox_seq db) by lia.
  etransitivity; [apply H; [|done]|lia]. eapply Forall_impl; [exact Hr|]. cbn. lia.
Qed.

Lemma dead_length_i64 db : db_wf db -> Z.of_nat (length (db_dead db)) <= i64_max.
Proof.
  intros [_ _ _ Hs Hr Hseq]. pose proof (sorted_length (dead_id <$> db_dead db) 0 (db_dead_seq db) Hs) as H.
  rewrite length_fmap, Forall_fmap in H. assert (0 <= db_dead_seq db) by lia.
  etransitivity; [apply H; [|done]|lia]. eapply Forall_impl; [exact Hr|]. cbn. lia.
Qed.

(** C32: the values that cross the store's interface have the types the code gives them.
    Every operation keeps the columns in their ranges, and none of the [as] casts ever
    truncates: an id is a positive [i64], a claimed message carries the attempts of its row,
    a [u32], the next wake-up is an [i64] later than now, and the two lengths are
    the numbers of rows. *)
Theorem store_casts_lossless op s s' ev :
  op_args_ok op -> db_wf (ms_db s) -> step op s = (s', ev) ->
  db_wf (ms_db s') /\
  match ev with
  | EvEnqueued _ _ id => 1 <= id <= i64_max
  | EvClaimed now (Some st) =>
      exists r, r ∈ db_outbox (ms_db s) /\ st = mkStored (row_id r) (row_message r) (row_attempts r) /\
        1 <= sm_id st <= i64_max /\ is_u32 (sm_attempts st)
  | EvNextWakeup now (Some t) => is_i64 t /\ now < t
  | EvLen n => n = Z.of_nat (length (db_outbox (ms_db s))) /\ is_u64 n
  | EvDeadLetterLen n => n = Z.of_nat (length (db_dead (ms_db s))) /\ is_u64 n
  | _ => True
  end.
Proof.
  intros Hargs Hwf Hstep.
  assert (db_wf (ms_db s')) as Hwf' by by eapply db_effect_wf. split; [done|].
  pose proof (refine_step op s s' ev Hwf Hstep) as Hq. pose proof (wf_outbox_seq _ Hwf) as Hseq.
  pose proof (outbox_length_i64 _ Hwf) as Hlen. pose proof (dead_length_i64 _ Hwf) as Hdead.
  unfold i64_max in *.
  destruct ev as [clock m id| |now [st|]|id|clock id e|id a n|now [t|]|n|n|e]; try done.
  - apply enqueued_inv in Hq as (-> & Hlt & _). cbn in *. unfold i64_max in Hlt. lia.
  - apply claimed_inv in Hq as (_ & i & e & -> & Hi & _). cbn in Hi.
    apply entries_lookup in Hi as (r & Hr & <- & <-); [|apply Hwf].
    pose proof (wf_outbox_rows _ Hwf) as Hrows. rewrite Forall_forall in Hrows. destruct (Hrows r Hr) as (Hid & Ha & _).
    exists r. split_and!; [done|done|cbn; lia..|done].
  - inversion Hq as [| | | | | | | | |? ? ? i e Hlt Hi Ht _| | |]; subst. split; [|done]. cbn in Hi.
    apply entries_lookup in Hi as (r & Hr & _ & <-); [|apply Hwf].
    pose proof (wf_outbox_rows _ Hwf) as Hrows. rewrite Forall_forall in Hrows. by apply Hrows.
  - inversion Hq; subst. cbn [queue_of q_entries]. rewrite entries_size by apply Hwf. unfold is_u64, u64_max. rewrite as_u64_id; unfold is_u64, u64_max; lia.
  - inversion Hq; subst. cbn. rewrite length_fmap. unfold is_u64, u64_max. rewrite as_u64_id; unfold is_u64, u64_max; lia.
Qed.

(** whatever operations are run on a fresh database, and whatever faults the
    storage layer reports, the tables stay well formed: rowids strictly increasing and
    never above the sequence counter, attempt counts in [u32], due times in [i64]. *)
Theorem outbox_wf_reachable faults max_len ops :
  Forall op_args_ok ops -> db_wf (ms_db (steps ops (fresh_store faults max_len))).
Proof. intros Hops. apply steps_wf; [done | apply SCHEMA_db_wf]. Qed.

(** with a cap configured the outbox never holds more rows than the cap, over
    any run of operations and faults. *)
Theorem outbox_never_exceeds_max_len faults max_len ops :
  0 < max_len <= u64_max ->
  Z.of_nat (length (db_outbox (ms_db (steps ops (fresh_store faults max_len))))) <= max_len.
Proof.
  intros Hml.
  assert (ms_max_len (steps ops (fresh_store faults max_len)) = max_len) as Heq.
  { apply (steps_invariant (fun s => ms_max_len s = max_len)); [|done].
    intros op s _ H. by rewrite step_max_len. }
  pose proof (steps_within_max_len ops (fresh_store faults max_len)) as H.
  unfold within_max_len in H. rewrite Heq in H. simpl in H. apply H; lia.
Qed.

(** [enqueue] on a working database, on every branch: at the cap it answers
    [QueueFull] and changes nothing; with the rowids exhausted it answers a storage
    error and changes nothing; otherwise it appends the row of the message, due at once
    with no attempts, under the next id, and notifies the worker once. *)
Theorem enqueue_exact clock m s :
  no_faults s -> db_wf (ms_db s) -> Z.of_nat (length (db_outbox (ms_db s))) <= u64_max ->
  enqueue clock m s =
    if (0 <? ms_max_len s) && (ms_max_len s <=? Z.of_nat (length (db_outbox (ms_db s))))
    then (s, Err ChimneyError.QueueFull)
    else if db_outbox_seq (ms_db s) =? i64_max
    then (s, Err (ChimneyError.Storage (lit "database or disk is full")))
    else
      let id := db_outbox_seq (ms_db s) + 1 in
      (mkStore
         (mkConn (mkDb (db_outbox (ms_db s) ++
                        [mkRow id (msg_from m) (encode_recipients (msg_to m)) (msg_subject m)
                           (msg_body m) 0 0 (unix_now clock)])
                    id (db_dead (ms_db s)) (db_dead_seq (ms_db s))) [])
         (S (ms_notified s)) (ms_max_len s), Ok id).
Proof.
  intros Hnf Hwf Hlen. rewrite enqueue_eq. unfold enqueue_commit. rewrite with_conn_no_faults by done.
  destruct s as [[db fs] n ml]. unfold no_faults, ms_db in *. simpl in *. subst fs.
  unfold enqueue_sql, mbind, sql_bind, mret, sql_ret, sql_fail, statement.
  destruct (0 <? ml); simpl;
    [rewrite as_u64_id by (unfold is_u64; lia);
     destruct (ml <=? Z.of_nat (length (db_outbox db))); simpl; [done|]|].
  all: rewrite insert_outbox_eq by done; by destruct (db_outbox_seq db =? i64_max).
Qed.

(** an accepted message whose recipients hold no newline comes back from the queue
    exactly as it was accepted, under the id [enqueue] answered, with no attempts, and a
    claim on a queue where nothing else is due returns it. *)
Theorem enqueue_claim_roundtrip clock now m s s1 s2 id o :
  db_wf (ms_db s) -> storable m -> 0 <= now ->
  (forall i e, q_entries (queue_of (ms_db s)) !! i = Some e -> now < entry_due e) ->
  enqueue clock m s = (s1, Ok id) -> claim_next_ready now s1 = (s2, Ok o) ->
  o = Some (mkStored id m 0) /\ ms_db s2 = ms_db s1.
Proof.
  intros Hwf Hst Hnow Hparked He Hc.
  apply enqueue_spec in He as (_ & _ & _ & Hins).
  pose proof (insert_outbox_wf _ _ _ _ _ _ _ _ Hwf Hins) as Hwf1.
  pose proof (refine_insert _ _ _ _ _ Hwf Hins) as Hq.
  apply claim_next_ready_spec in Hc as (Hdb & _ & _ & Ho). split; [|done].
  pose proof (refine_claim (ms_db s1) now Hwf1) as Hclaim. rewrite <- Ho in Hclaim.
  apply enqueued_inv in Hq as (-> & Hlt & Hq). rewrite Hq in Hclaim.
  rewrite (stored_form_id m Hst) in Hclaim. apply claimed_inv in Hclaim as [_ Hclaim]. clear Ho.
  cbn [q_entries] in Hclaim.
  destruct o as [st|]; [destruct Hclaim as (i & e & -> & Hi & Hdue & Hmin)|].
  - apply lookup_insert_Some in Hi as [[<- <-]|[_ Hi]]; [done|]. apply Hparked in Hi. lia.
  - specialize (Hclaim _ _ (lookup_insert_eq _ _ _)). simpl in Hclaim. lia.
Qed.

(** moving a message to the dead letters is all or nothing, wherever in the
    transaction the storage layer fails: either nothing changed, or the row left the
    outbox and exactly its content, with the error text, joined the dead letters; other
    rows are untouched either way. *)
Theorem dead_letter_all_or_nothing clock i err s s' r :
  db_wf (ms_db s) -> dead_letter clock i err s = (s', r) ->
  (ms_db s' = ms_db s /\ exists e, r = Err e) \/
  (r = Ok tt /\
   q_entries (queue_of (ms_db s')) = delete i (q_entries (queue_of (ms_db s))) /\
   q_letters (queue_of (ms_db s')) =
     q_letters (queue_of (ms_db s)) ++
     match q_entries (queue_of (ms_db s)) !! i with
     | Some e => [mkLetter (entry_message e) (entry_attempts e) (unix_now clock) err]
     | None => []
     end).
Proof.
  intros Hwf H. apply dead_letter_spec in H as (_ & _ & H). destruct r as [[]|e]; [right|left; eauto].
  destruct H as (db1 & H1 & H2). pose proof (refine_dead_letter _ _ _ _ _ _ Hwf H1 H2) as Hq.
  apply dead_lettered_inv in Hq. by rewrite Hq.
Qed.

(** the newline-joined encoding of the recipients loses nothing exactly when no
    recipient holds a newline (and the list is not the single empty string). *)
Theorem recipients_roundtrip to :
  decode_recipients (encode_recipients to) = to <-> Forall (fun w => nl ∉ w) to /\ to <> [[]].
Proof. apply decode_encode_recipients. Qed.

(** The queue along a run of the store: from a well-formed database, an entry is kept,
    delivered or dead-lettered, never lost. *)
Lemma entry_fate ops s i e :
  Forall op_args_ok ops -> db_wf (ms_db s) -> q_entries (queue_of (ms_db s)) !! i = Some e ->
  (exists e', q_entries (queue_of (ms_db (steps ops s))) !! i = Some e' /\ same_message e e') \/
  EvDelivered i ∈ events ops s \/
  (exists clock err a, EvDeadLettered clock i err ∈ events ops s /\
     mkLetter (entry_message e) a (unix_now clock) err ∈ q_letters (queue_of (ms_db (steps ops s)))).
Proof.
  revert s e. induction ops as [|op ops IH]; intros s e Hops Hwf Hi; [left; exists e; done|].
  apply Forall_cons in Hops as [Hop Hops]. rewrite steps_cons. simpl.
  destruct (step op s) as [s1 ev] eqn:E. simpl.
  pose proof (refine_step _ _ _ _ Hwf E) as Hq.
  pose proof (db_effect_wf _ _ _ _ Hop E Hwf) as Hwf1.
  assert (i <= q_last_id (queue_of (ms_db s))) as Hle.
  { simpl in *. apply entries_lookup in Hi as (r & Hr & <- & _); [|apply Hwf].
    pose proof (wf_outbox_rows _ Hwf) as Hrows. rewrite Forall_forall in Hrows. by apply Hrows. }
  destruct (queue_step_keeps _ _ _ _ _ Hq Hi Hle) as [(e' & Hi' & Hm)|[->|(clock & err & -> & Hl)]].
  - destruct (IH s1 e' Hops Hwf1 Hi') as [(e'' & ? & Hm')|[Hd|(clock & err & a & Hd & Hl)]].
    + left. exists e''. split; [done|]. unfold same_message in *. congruence.
    + right. left. by right.
    + right. right. exists clock, err, a. unfold same_message in Hm. rewrite <- Hm. split; [by right|done].
  - right. left. left.
  - right. right. exists clock, err, (entry_attempts e). split; [left|].
    assert (forall ops s l, Forall op_args_ok ops -> db_wf (ms_db s) -> l ∈ q_letters (queue_of (ms_db s)) ->
              l ∈ q_letters (queue_of (ms_db (steps ops s)))) as Hgrow; [|by apply Hgrow].
    clear. induction ops as [|op ops IH]; intros s l Hops Hwf Hl; [done|].
    apply Forall_cons in Hops as [Hop Hops]. rewrite steps_cons.
    destruct (step op s) as [s1 ev] eqn:E. simpl. apply IH; [done|by eapply db_effect_wf|].
    pose proof (refine_step _ _ _ _ Hwf E) as Hq. apply queue_step_letters in Hq.
    eapply elem_of_prefix; done.
Qed.

(** an accepted message is never lost by the store.  After [enqueue] answered an id,
    over any later operations and any storage faults, the message is still queued under
    that id, or a delivery of that id was recorded, or it was dead-lettered and its
    content stands in the dead-letter table. *)
Theorem accepted_message_fate clock m s s1 id ops :
  db_wf (ms_db s) -> storable m -> enqueue clock m s = (s1, Ok id) -> Forall op_args_ok ops ->
  (exists e, q_entries (queue_of (ms_db (steps ops s1))) !! id = Some e /\ entry_message e = m) \/
  EvDelivered id ∈ events ops s1 \/
  (exists clock' err a, EvDeadLettered clock' id err ∈ events ops s1 /\
     mkLetter m a (unix_now clock') err ∈ q_letters (queue_of (ms_db (steps ops s1)))).
Proof.
  intros Hwf Hst He Hops. apply enqueue_spec in He as (_ & _ & _ & Hins).
  pose proof (insert_outbox_wf _ _ _ _ _ _ _ _ Hwf Hins) as Hwf1.
  pose proof (refine_insert _ _ _ _ _ Hwf Hins) as Hq.
  apply enqueued_inv in Hq as (-> & Hlt & Hq).
  assert (q_entries (queue_of (ms_db s1)) !! (q_last_id (queue_of (ms_db s)) + 1) = Some (mkEntry m 0 0)) as Hi.
  { rewrite Hq. cbn [q_entries]. rewrite lookup_insert_eq. by rewrite stored_form_id. }
  destruct (entry_fate ops s1 _ _ Hops Hwf1 Hi) as [(e & ? & Hm)|[?|(ck' & err & a & ? & ?)]]; eauto 10.
Qed.

(** ** Restarts *)

(** A process stops and a new one opens the same file: the committed rows are on
    disk. *)
Definition restart (path : str) (max_len : Z) (s : MessageStore) (faults : list (option str))
  : Result MessageStore :=
  (open_with_max_len path max_len {[path := ms_db s]} faults).2.

Lemma open_ok path max_len disk db faults disk' s :
  path <> lit ":memory:" -> disk !! path = Some db ->
  open_with_max_len path max_len disk faults = (disk', Ok s) ->
  ms_db s = db /\ ms_max_len s = max_len /\ ms_notified s = 0%nat.
Proof.
  intros Hp Hd Hopen. unfold open_with_max_len in Hopen. rewrite Hd in Hopen.
  repeat case_match; simplify_eq/=; done.
Qed.

Lemma restart_no_faults path max_len s :
  path <> lit ":memory:" -> restart path max_len s [] = Ok (mkStore (mkConn (ms_db s) []) 0 max_len).
Proof.
  intros Hp. unfold restart, open_with_max_len. rewrite lookup_singleton_eq. simpl.
  destruct (bool_decide (path <> lit ":memory:") && parent_nonempty path); simpl;
    by rewrite (decide_False (P := path = lit ":memory:")).
Qed.

Lemma restart_ok path max_len s faults s' :
  path <> lit ":memory:" -> restart path max_len s faults = Ok s' ->
  ms_db s' = ms_db s /\ ms_max_len s' = max_len /\ ms_notified s' = 0%nat.
Proof.
  intros Hp. unfold restart. destruct (open_with_max_len _ _ _ _) as [disk' r] eqn:E. simpl. intros ->.
  eapply open_ok; [done| |exact E]. apply lookup_singleton_eq.
Qed.

(** reopening an on-disk outbox recovers its tables unchanged, so the rows and
    their ids, attempts and due times survive a restart and no id is given out twice;
    if opening fails the file is untouched. *)
Theorem reopen_keeps_tables path max_len max_len' disk faults s disk' r :
  path <> lit ":memory:" -> disk !! path = Some (ms_db s) ->
  open_with_max_len path max_len' disk faults = (disk', r) ->
  disk' !! path = Some (ms_db s) /\
  (forall s', r = Ok s' -> ms_db s' = ms_db s /\ ms_max_len s' = max_len' /\ ms_notified s' = 0%nat) /\
  restart path max_len s [] = Ok (mkStore (mkConn (ms_db s) []) 0 max_len).
Proof.
  intros Hp Hd Hopen. split; [|split].
  - unfold open_with_max_len in Hopen. rewrite Hd in Hopen.
    repeat case_match; simplify_eq/=; try done; by rewrite lookup_insert_eq.
  - intros s' ->. by eapply open_ok.
  - by apply restart_no_faults.
Qed.

(** ** Instances *)

Definition sample_message : Message :=
  mkMessage (Some (lit "cron@host")) [lit "ops@chimney"; lit "root@chimney"] (Some (lit "disk")) (lit "sda is full").

Definition sample_store : MessageStore := steps [OpEnqueue 100 sample_message] (fresh_store [] 10).

Lemma sample_storable : storable sample_message.
Proof. by_decide. Qed.

Lemma sample_store_wf : db_wf (ms_db sample_store).
Proof. apply steps_wf; [repeat constructor | apply SCHEMA_db_wf]. Qed.

Lemma store_refines_queue_witness :
  exists s', step (OpDeadLetter 200 1 (lit "refused")) sample_store = (s', EvDeadLettered 200 1 (lit "refused"))
    /\ queue_step (queue_of (ms_db sample_store)) (EvDeadLettered 200 1 (lit "refused")) (queue_of (ms_db s'))
    /\ db_wf (ms_db s').
Proof.
  eexists. split; [reflexivity|].
  apply (store_refines_queue (OpDeadLetter 200 1 (lit "refused")) sample_store);
    [exact I | apply sample_store_wf | reflexivity].
Defined.

Lemma store_casts_lossless_witness :
  exists s' st, step (OpClaimNextReady 200) sample_store = (s', EvClaimed 200 (Some st)) /\
    exists r, r ∈ db_outbox (ms_db sample_store) /\ st = mkStored (row_id r) (row_message r) (row_attempts r) /\
      1 <= sm_id st <= i64_max /\ is_u32 (sm_attempts st).
Proof.
  exists (step (OpClaimNextReady 200) sample_store).1, (mkStored 1 sample_message 0). split; [reflexivity|].
  exact (proj2 (store_casts_lossless (OpClaimNextReady 200) sample_store _ (EvClaimed 200 (Some (mkStored 1 sample_message 0)))
    I sample_store_wf eq_refl)).
Defined.

Lemma outbox_wf_reachable_witness :
  db_wf (ms_db (steps [OpEnqueue 5 sample_message; OpReschedule 1 1 65; OpDeadLetter 70 1 []]
                  (fresh_store [None; Some (lit "disk I/O error")] 2))).
Proof.
  apply outbox_wf_reachable. repeat constructor; unfold u32_max, i64_min, i64_max; lia.
Defined.

Lemma outbox_never_exceeds_max_len_witness :
  length (db_outbox (ms_db (steps (replicate 5 (OpEnqueue 7 sample_message)) (fresh_store [] 2)))) = 2%nat /\
  Z.of_nat (length (db_outbox (ms_db (steps (replicate 5 (OpEnqueue 7 sample_message)) (fresh_store [] 2))))) <= 2.
Proof. split; [reflexivity|]. apply outbox_never_exceeds_max_len. unfold u64_max. lia. Defined.

Lemma enqueue_exact_witness :
  (enqueue 9 sample_message sample_store).2 = Ok 2 /\ ms_max_len sample_store = 10.
Proof.
  rewrite enqueue_exact; [split; reflexivity | reflexivity | apply sample_store_wf |].
  unfold u64_max. vm_compute. discriminate.
Defined.

Lemma enqueue_claim_roundtrip_witness :
  exists s2, claim_next_ready 150 (enqueue 100 sample_message (fresh_store [] 10)).1
             = (s2, Ok (Some (mkStored 1 sample_message 0))).
Proof.
  destruct (claim_next_ready 150 (enqueue 100 sample_message (fresh_store [] 10)).1) as [s2 r] eqn:E.
  destruct r as [o|e]; [|discriminate E]. exists s2. do 2 f_equal.
  eapply (enqueue_claim_roundtrip 100 150 sample_message (fresh_store [] 10));
    [apply SCHEMA_db_wf | apply sample_storable | lia | | reflexivity | exact E].
  intros i e H. vm_compute in H. discriminate H.
Defined.

(** The commit of the transaction fails: nothing has moved. *)
Lemma dead_letter_all_or_nothing_witness :
  let s := mkStore (mkConn (ms_db sample_store) [None; None; None; None; Some (lit "full")]) 1 10 in
  (dead_letter 200 1 (lit "refused") s).2 = Err (ChimneyError.Storage (lit "full")) /\
  ms_db (dead_letter 200 1 (lit "refused") s).1 = ms_db s.
Proof.
  intros s. split; [reflexivity|].
  destruct (dead_letter 200 1 (lit "refused") s) as [s' r] eqn:E.
  destruct (dead_letter_all_or_nothing _ _ _ s _ _ sample_store_wf E) as [[H _]|[H _]]; [exact H|].
  subst r. discriminate E.
Defined.

Lemma accepted_message_fate_witness :
  EvDelivered 1 ∈ events [OpClaimNextReady 3; OpMarkDelivered 1; OpMarkDelivered 1] sample_store.
Proof.
  destruct (accepted_message_fate 100 sample_message (fresh_store [] 10) sample_store 1
    [OpClaimNextReady 3; OpMarkDelivered 1; OpMarkDelivered 1]) as [(e & H & _)|[H|(c & err & a & H & _)]].
  - apply SCHEMA_db_wf.
  - apply sample_storable.
  - reflexivity.
  - repeat constructor.
  - vm_compute in H. discriminate H.
  - exact H.
  - exfalso. apply list_elem_of_In in H. vm_compute in H. by destruct H as [H|[H|[H|H]]].
Defined.

Lemma reopen_keeps_tables_witness :
  exists disk' s', open_with_max_len (lit "/var/queue.db") 10 {[lit "/var/queue.db" := ms_db sample_store]} []
                   = (disk', Ok s') /\ ms_db s' = ms_db sample_store.
Proof.
  eexists _, _. split; [reflexivity|].
  eapply (reopen_keeps_tables (lit "/var/queue.db") 10 10
    {[lit "/var/queue.db" := ms_db sample_store]} [] sample_store);
    [done | by apply lookup_singleton_eq | reflexivity | reflexivity].
Defined.
