(* ===== verification/Worker.v ===== *)
(** * The delivery worker ([src/src/queue/worker.rs])

    The worker's code as programs over the effects it performs at its [.await] points.
    The trait [MessageSink] is a class: a sink [S] delivers by performing effects of its
    own signature [E], which the worker lifts into its own.  Logging calls are left out;
    they only read. *)

From S2P Require Import Prelude RustStr Error Effects Store.

(** [trait MessageSink]: [deliver(&self, message, idempotency_key)]. *)
Class MessageSink (S : Type) (E : Type -> Type) : Type :=
  deliver : S -> Message -> str -> prog E (Result unit).

(** The effects of the worker: the clock, the store's operations, the sink's effects,
    the shutdown flag, and the two [tokio::select!] waits (with the seconds of their
    [sleep]): one also woken by an enqueue, both by a change of the flag. *)
Inductive WorkerE (S : Type) (E : Type -> Type) : Type -> Type :=
| UnixNow : WorkerE S E Z
| ClaimNextReady (now : Z) : WorkerE S E (Result (option StoredMessage))
| MarkDelivered (id : Z) : WorkerE S E (Result unit)
| DeadLetter (id : Z) (last_error : str) : WorkerE S E (Result unit)
| Reschedule (id attempts next_attempt_at : Z) : WorkerE S E (Result unit)
| NextWakeup (now : Z) : WorkerE S E (Result (option Z))
| SinkCall {X : Type} (e : E X) : WorkerE S E X
| Connect : WorkerE S E (Result S)
| ShutdownBorrow : WorkerE S E bool
| SelectIdle (wait : Z) : WorkerE S E unit
| SelectSleep (wait : Z) : WorkerE S E unit.
Arguments UnixNow {S E}.
Arguments ClaimNextReady {S E} now.
Arguments MarkDelivered {S E} id.
Arguments DeadLetter {S E} id last_error.
Arguments Reschedule {S E} id attempts next_attempt_at.
Arguments NextWakeup {S E} now.
Arguments SinkCall {S E X} e.
Arguments Connect {S E}.
Arguments ShutdownBorrow {S E}.
Arguments SelectIdle {S E} wait.
Arguments SelectSleep {S E} wait.

Definition MAX_BACKOFF_SECONDS : Z := 900.
Definition IDLE_SLEEP : Z := 3600.
Definition STORAGE_ERROR_BACKOFF : Z := 5.

(** [backoff_seconds(base: u64, attempt: u32, cap: u64) -> u64]. *)
Definition backoff_seconds (base attempt cap : Z) : Z :=
  if attempt =? 0 then 0
  else Z.min (saturating_mul base (saturating_pow 2 (attempt - 1))) cap.

Section Worker.
Context {S : Type} {E : Type -> Type} `{MessageSink S E}.

Record DeliveryWorker : Type := mkWorker {
  dw_sink : S;
  dw_max_retries : Z;
  dw_retry_backoff : Z;
}.

Definition W (A : Type) : Type := prog (WorkerE S E) A.

(** [format!("chimney-post-{id}")]. *)
Definition idempotency_key (id : Z) : str := lit "chimney-post-" ++ show_int id.

Definition handle_failure (w : DeliveryWorker) (stored : StoredMessage) (now : Z)
    (error : ChimneyError.t) : prog (WorkerE S E) unit :=
  let id := sm_id stored in
  let attempts := add_u32 (sm_attempts stored) 1 in
  if dw_max_retries w <? attempts then
    _ ← trigger (DeadLetter id (ChimneyError.to_string error));
    Ret tt
  else
    let backoff := backoff_seconds (dw_retry_backoff w) attempts MAX_BACKOFF_SECONDS in
    _ ← trigger (Reschedule id attempts (add_i64 now (as_i64 backoff)));
    Ret tt.

Definition deliver_one (w : DeliveryWorker) (stored : StoredMessage) (now : Z)
  : prog (WorkerE S E) unit :=
  let id := sm_id stored in
  r ← translate (fun X e => SinkCall e) (deliver (dw_sink w) (sm_message stored) (idempotency_key id));
  match r with
  | Ok _ => _ ← trigger (MarkDelivered id); Ret tt
  | Err error => handle_failure w stored now error
  end.

Definition idle_wait (now : Z) : prog (WorkerE S E) Z :=
  r ← trigger (NextWakeup now);
  Ret match r with
      | Ok (Some at_) => as_u64 (Z.max (as_i64 (at_ - now)) 0)
      | Ok None => IDLE_SLEEP
      | Err _ => STORAGE_ERROR_BACKOFF
      end.

(** One round of the loop of [DeliveryWorker::run]. *)
Definition run_body (w : DeliveryWorker) : prog (WorkerE S E) (loop_ctl unit) :=
  now ← trigger UnixNow;
  claimed ← trigger (ClaimNextReady now);
  match claimed with
  | Ok (Some stored) => _ ← deliver_one w stored now; Ret Continue
  | Ok None =>
      stop ← trigger ShutdownBorrow;
      if stop : bool then Ret (Break tt)
      else
        wait ← idle_wait now;
        _ ← trigger (SelectIdle wait);
        Ret Continue
  | Err _ =>
      _ ← trigger (SelectSleep STORAGE_ERROR_BACKOFF);
      stop ← trigger ShutdownBorrow;
      Ret (if stop : bool then Break tt else Continue)
  end.

(** One round of the loop of [run_with_reconnect]: the sink it obtained, or [None]
    when it returns because of shutdown.  After a connection the function runs
    [run_body] with the new worker until that loop breaks. *)
Definition reconnect_body (reconnect_backoff : Z) : prog (WorkerE S E) (loop_ctl (option S)) :=
  stop ← trigger ShutdownBorrow;
  if stop : bool then Ret (Break None)
  else
    sink ← trigger Connect;
    match sink with
    | Ok sink => Ret (Break (Some sink))
    | Err _ => _ ← trigger (SelectSleep reconnect_backoff); Ret Continue
    end.

Definition run_with_reconnect {T} (h : handler (WorkerE S E) T)
    (max_retries retry_backoff reconnect_backoff : Z) (fuel : nat) (s : T) : T * option unit :=
  match run_loop h (reconnect_body reconnect_backoff) fuel s with
  | (s', Some (Some sink)) => run_loop h (run_body (mkWorker sink max_retries retry_backoff)) fuel s'
  | (s', Some None) => (s', Some tt)
  | (s', None) => (s', None)
  end.
End Worker.
Arguments DeliveryWorker S : clear implicits.

(** ** The world of a single worker

    The store, a clock read at each [UnixNow] (any function of the number of readings,
    so that time may pass, or jump, between them), the shutdown flag as seen at each
    reading of it, the sink's own world. *)
Record WorkerWorld (T : Type) : Type := mkWorld {
  ww_store : MessageStore;
  ww_clock : nat -> Z;
  ww_ticks : nat;
  ww_shutdown : nat -> bool;
  ww_polls : nat;
  ww_sink : T;
}.
Arguments mkWorld {T} _ _ _ _ _ _.
Arguments ww_store {T} _.
Arguments ww_clock {T} _ _.
Arguments ww_ticks {T} _.
Arguments ww_shutdown {T} _ _.
Arguments ww_polls {T} _.
Arguments ww_sink {T} _.

Section World.
Context {S : Type} {E : Type -> Type} {T : Type}.
Variable hsink : handler E T.
Variable connect : T -> T * Result S.

Definition set_store (w : WorkerWorld T) (s : MessageStore) : WorkerWorld T :=
  mkWorld s (ww_clock w) (ww_ticks w) (ww_shutdown w) (ww_polls w) (ww_sink w).
Definition set_sink (w : WorkerWorld T) (t : T) : WorkerWorld T :=
  mkWorld (ww_store w) (ww_clock w) (ww_ticks w) (ww_shutdown w) (ww_polls w) t.
Definition tick (w : WorkerWorld T) : WorkerWorld T :=
  mkWorld (ww_store w) (ww_clock w) (Datatypes.S (ww_ticks w)) (ww_shutdown w) (ww_polls w) (ww_sink w).
Definition polled (w : WorkerWorld T) : WorkerWorld T :=
  mkWorld (ww_store w) (ww_clock w) (ww_ticks w) (ww_shutdown w) (Datatypes.S (ww_polls w)) (ww_sink w).
Definition read_clock (w : WorkerWorld T) : Z := ww_clock w (ww_ticks w).

Definition store_call {A} (w : WorkerWorld T) (f : MessageStore -> MessageStore * A) : WorkerWorld T * A :=
  let '(s', a) := f (ww_store w) in (set_store w s', a).

Definition world_handler : handler (WorkerE S E) (WorkerWorld T) := fun X e w =>
  match e in WorkerE _ _ X return WorkerWorld T * X with
  | UnixNow => (tick w, unix_now (read_clock w))
  | ClaimNextReady now => store_call w (claim_next_ready now)
  | MarkDelivered id => store_call w (mark_delivered id)
  | DeadLetter id e => store_call w (dead_letter (read_clock w) id e)
  | Reschedule id a n => store_call w (reschedule id a n)
  | NextWakeup now => store_call w (next_wakeup now)
  | SinkCall e => let '(t', x) := hsink _ e (ww_sink w) in (set_sink w t', x)
  | Connect => let '(t', x) := connect (ww_sink w) in (set_sink w t', x)
  | ShutdownBorrow => (polled w, ww_shutdown w (ww_polls w))
  | SelectIdle _ => (w, tt)
  | SelectSleep _ => (w, tt)
  end.
End World.
