(* ===== verification/WorkerFacts.v ===== *)
(** * One round of the worker, and the drain

    [round_*] compute a round of the loop of [run] in the world of [Worker]; from them
    follow the termination of the drain and the fate of each message. *)

From S2P Require Import Prelude RustStr Error Effects Store StoreFacts StoreSpec StoreProps Worker.

(** ** Backoff *)

Lemma backoff_exact base attempt cap :
  is_u64 base -> 1 <= attempt <= u32_max -> 0 <= cap <= u64_max ->
  backoff_seconds base attempt cap = Z.min (base * 2 ^ (attempt - 1)) cap.
Proof.
  intros Hb Ha Hc. unfold backoff_seconds, saturating_mul, saturating_pow.
  destruct (Z.eqb_spec attempt 0); [lia|].
  assert (0 < 2 ^ (attempt - 1)) by (apply Z.pow_pos_nonneg; lia).
  unfold is_u64 in Hb. unfold sat_u64.
  destruct (Z.le_gt_cases (2 ^ (attempt - 1)) u64_max) as [Hle|Hgt].
  - rewrite (Z.max_r 0 (Z.min _ _)), (Z.min_r u64_max (2 ^ _)) by lia.
    assert (0 <= base * 2 ^ (attempt - 1)) by nia. lia.
  - rewrite (Z.max_r 0 (Z.min u64_max (2 ^ _))), (Z.min_l u64_max (2 ^ _)) by (unfold u64_max in *; lia).
    destruct (Z.eq_dec base 0) as [->|Hb0]; [simpl; unfold u64_max; lia|].
    assert (u64_max <= base * u64_max) by (unfold u64_max in *; nia).
    assert (u64_max < base * 2 ^ (attempt - 1)) by (unfold u64_max in *; nia).
    unfold u64_max in *. lia.
Qed.

Lemma backoff_bounds base attempt cap :
  is_u64 base -> 0 <= attempt -> 0 <= cap -> 0 <= backoff_seconds base attempt cap <= cap.
Proof.
  intros Hb Ha Hc. unfold backoff_seconds, saturating_mul, saturating_pow, sat_u64.
  destruct (attempt =? 0); lia.
Qed.

Lemma backoff_positive base attempt cap :
  1 <= base <= u64_max -> 1 <= attempt <= u32_max -> 1 <= cap <= u64_max ->
  1 <= backoff_seconds base attempt cap.
Proof.
  intros Hb Ha Hc. rewrite backoff_exact; unfold is_u64; [|lia..].
  assert (0 < 2 ^ (attempt - 1)) by (apply Z.pow_pos_nonneg; lia). nia.
Qed.

(** ** The store's operations with no faults ahead *)

Definition next_row (now : Z) (db : Db) : option outbox_row :=
  first_by row_before (filter (fun r => row_ready now r = true) (db_outbox db)).

Lemma next_row_Some now db r :
  next_row now db = Some r -> r ∈ db_outbox db /\ row_next_attempt_at r <= now.
Proof.
  intros H%first_by_elem. apply list_elem_of_filter in H as [Hr Hin].
  split; [done|]. by apply Z.leb_le.
Qed.

Lemma next_row_None now db :
  next_row now db = None <-> Forall (fun r => now < row_next_attempt_at r) (db_outbox db).
Proof.
  unfold next_row. rewrite first_by_None, Forall_forall. split.
  - intros Hnil r Hr. destruct (Z.le_gt_cases (row_next_attempt_at r) now) as [Hle|]; [|done].
    assert (r ∈ filter (fun r => row_ready now r = true) (db_outbox db)) as Hin.
    { apply list_elem_of_filter. split; [by apply Z.leb_le | done]. }
    rewrite Hnil in Hin. by apply not_elem_of_nil in Hin.
  - intros Hall. destruct (filter _ _) as [|r l] eqn:E; [done|].
    assert (r ∈ filter (fun r => row_ready now r = true) (db_outbox db)) as Hin by (rewrite E; left).
    apply list_elem_of_filter in Hin as [Hle Hin]. apply Hall in Hin.
    unfold row_ready in Hle. apply Z.leb_le in Hle. lia.
Qed.

(** A store with the same settings over other tables, nothing failing. *)
Definition with_db (s : MessageStore) (db : Db) : MessageStore :=
  mkStore (mkConn db []) (ms_notified s) (ms_max_len s).

Lemma with_db_id s : no_faults s -> with_db s (ms_db s) = s.
Proof. destruct s as [[db fs] n ml]. unfold no_faults, with_db, ms_db. simpl. by intros ->. Qed.

Lemma claim_no_faults now s :
  no_faults s -> claim_next_ready now s = (s, Ok (row_to_stored <$> next_row now (ms_db s))).
Proof.
  intros Hnf. unfold claim_next_ready. rewrite with_conn_no_faults by done.
  change ((with_db s (ms_db s), Ok (row_to_stored <$> next_row now (ms_db s)) : Result (option StoredMessage)) = (s, Ok (row_to_stored <$> next_row now (ms_db s)))).
  by rewrite with_db_id.
Qed.

Lemma mark_delivered_no_faults i s :
  no_faults s ->
  mark_delivered i s =
    (with_db s (mkDb (filter (fun r => row_id r <> i) (db_outbox (ms_db s))) (db_outbox_seq (ms_db s))
                  (db_dead (ms_db s)) (db_dead_seq (ms_db s))), Ok tt).
Proof. intros Hnf. unfold mark_delivered, remove. by rewrite with_conn_no_faults. Qed.

Lemma reschedule_no_faults i a n s :
  no_faults s ->
  reschedule i a n s =
    (with_db s (mkDb ((fun r => if decide (row_id r = i) then set_attempt a n r else r)
                        <$> db_outbox (ms_db s)) (db_outbox_seq (ms_db s))
                  (db_dead (ms_db s)) (db_dead_seq (ms_db s))), Ok tt).
Proof. intros Hnf. unfold reschedule. by rewrite with_conn_no_faults. Qed.

Lemma dead_letter_no_faults clock r err s :
  no_faults s -> db_wf (ms_db s) -> r ∈ db_outbox (ms_db s) -> db_dead_seq (ms_db s) < i64_max ->
  dead_letter clock (row_id r) err s =
    (with_db s (mkDb (filter (fun r' => row_id r' <> row_id r) (db_outbox (ms_db s)))
                  (db_outbox_seq (ms_db s))
                  (db_dead (ms_db s) ++ [to_dead r (db_dead_seq (ms_db s) + 1) (unix_now clock) err])
                  (db_dead_seq (ms_db s) + 1)), Ok tt).
Proof.
  intros Hnf Hwf Hr Hseq. unfold dead_letter. rewrite with_conn_no_faults by done.
  set (db := ms_db s) in *.
  assert (insert_dead_letter (row_id r) (unix_now clock) err db =
    Ok (mkDb (db_outbox db) (db_outbox_seq db)
          (db_dead db ++ [to_dead r (db_dead_seq db + 1) (unix_now clock) err]) (db_dead_seq db + 1), tt)) as Hins.
  { unfold insert_dead_letter.
    destruct (filter_by_id row_id (db_outbox db) (row_id r) (wf_outbox_sorted _ Hwf))
      as [[_ Hall]|(r' & -> & Hr' & Hid)]; [rewrite Forall_forall in Hall; by apply Hall in Hr|].
    rewrite (sorted_unique row_id (db_outbox db) r' r (wf_outbox_sorted _ Hwf) Hr' Hr Hid).
    pose proof (next_rowid_wf dead_id _ _ (db_dead_seq db + 1) (proj1 (wf_dead_seq _ Hwf)) (wf_dead_rows _ Hwf)) as Hn.
    simpl. by rewrite (proj2 Hn (conj eq_refl Hseq)). }
  unfold transaction, mbind, sql_bind, mret, sql_ret, statement. simpl. by rewrite Hins.
Qed.

(** ** One round *)

Section Rounds.
Context {S : Type} {E : Type -> Type} `{MessageSink S E} {T : Type}.
Variable hsink : handler E T.
Variable connect : T -> T * Result S.
Notation wrun := (run (world_handler hsink connect)).

Lemma run_sink {A} (p : prog E A) (ww : WorkerWorld T) :
  wrun (translate (fun X e => SinkCall e) p) ww =
  (set_sink ww (run hsink p (ww_sink ww)).1, (run hsink p (ww_sink ww)).2).
Proof.
  revert ww. induction p as [a|X e k IH]; intros ww; simpl; [by destruct ww|].
  destruct (hsink X e (ww_sink ww)) as [t x]. by rewrite IH.
Qed.

(** What the store becomes once the sink has answered [res] for [stored]. *)
Definition settle (dw : DeliveryWorker S) (stored : StoredMessage) (now clock : Z)
    (res : Result unit) (s : MessageStore) : MessageStore :=
  match res with
  | Ok _ => (mark_delivered (sm_id stored) s).1
  | Err e =>
      let attempts := add_u32 (sm_attempts stored) 1 in
      if dw_max_retries dw <? attempts
      then (dead_letter clock (sm_id stored) (ChimneyError.to_string e) s).1
      else (reschedule (sm_id stored) attempts
              (add_i64 now (as_i64 (backoff_seconds (dw_retry_backoff dw) attempts MAX_BACKOFF_SECONDS))) s).1
  end.

Lemma run_handle_failure dw stored now e ww :
  wrun (handle_failure dw stored now e) ww =
  (set_store ww (settle dw stored now (read_clock ww) (Err e) (ww_store ww)), tt).
Proof.
  unfold handle_failure, settle. cbv zeta. destruct (_ <? _); simpl; unfold store_call; simpl;
    [by destruct (dead_letter _ _ _ _) | by destruct (reschedule _ _ _ _)].
Qed.

Lemma run_deliver_one dw stored now ww :
  let '(t, res) := run hsink (deliver (dw_sink dw) (sm_message stored) (idempotency_key (sm_id stored))) (ww_sink ww) in
  wrun (deliver_one dw stored now) ww =
  (mkWorld (settle dw stored now (read_clock ww) res (ww_store ww))
     (ww_clock ww) (ww_ticks ww) (ww_shutdown ww) (ww_polls ww) t, tt).
Proof.
  destruct (run hsink _ (ww_sink ww)) as [t res] eqn:Hres.
  unfold deliver_one. rewrite run_mbind, run_sink, Hres. simpl.
  destruct res as [[]|e]; simpl.
  - unfold store_call. simpl. by destruct (mark_delivered _ _).
  - by rewrite run_handle_failure.
Qed.

(** A message was claimed: it is delivered and settled, and the loop goes on. *)
Lemma round_claimed dw ww s1 stored :
  let now := unix_now (read_clock ww) in
  claim_next_ready now (ww_store ww) = (s1, Ok (Some stored)) ->
  let '(t, res) := run hsink (deliver (dw_sink dw) (sm_message stored) (idempotency_key (sm_id stored))) (ww_sink ww) in
  wrun (run_body dw) ww =
  (mkWorld (settle dw stored now (read_clock (tick ww)) res s1)
     (ww_clock ww) (Datatypes.S (ww_ticks ww)) (ww_shutdown ww) (ww_polls ww) t, Continue).
Proof.
  intros now Hc. unfold run_body. simpl. unfold store_call. simpl. fold now. rewrite Hc.
  pose proof (run_deliver_one dw stored now (set_store (tick ww) s1)) as Hd. simpl in Hd.
  destruct (run hsink _ (ww_sink ww)) as [t res]. rewrite run_mbind, Hd. done.
Qed.

(** Nothing is due: the loop stops when the flag is set. *)
Lemma round_idle dw ww s1 :
  claim_next_ready (unix_now (read_clock ww)) (ww_store ww) = (s1, Ok None) ->
  exists ww', wrun (run_body dw) ww =
    (ww', if ww_shutdown ww (ww_polls ww) then Break tt else Continue) /\
  (ww_shutdown ww (ww_polls ww) = true -> ww_store ww' = s1).
Proof.
  intros Hc. unfold run_body. simpl. unfold store_call. simpl. rewrite Hc. simpl.
  destruct (ww_shutdown ww (ww_polls ww)); simpl; [by eexists|].
  unfold store_call. simpl. destruct (next_wakeup _ _). by eexists.
Qed.

(** Storage failed: the loop stops after a pause when the flag is set. *)
Lemma round_storage_error dw ww s1 e :
  claim_next_ready (unix_now (read_clock ww)) (ww_store ww) = (s1, Err e) ->
  exists ww', wrun (run_body dw) ww =
    (ww', if ww_shutdown ww (ww_polls ww) then Break tt else Continue) /\ ww_store ww' = s1.
Proof.
  intros Hc. unfold run_body. simpl. unfold store_call. simpl. rewrite Hc. simpl.
  by destruct (ww_shutdown ww (ww_polls ww)); eexists.
Qed.
End Rounds.

(** ** The drain

    The work left: for each row one settlement, and one more for each retry it still
    has.  Every round that claims a message uses some of it up, whatever the sink
    answers and however the clock moves. *)

Definition row_budget (max_retries : Z) (r : outbox_row) : nat :=
  S (Z.to_nat (max_retries - row_attempts r)).
Definition budget (max_retries : Z) (db : Db) : nat :=
  sum_list_with (row_budget max_retries) (db_outbox db).

Lemma sum_list_with_filter_lt {R} (f : R -> nat) (P : R -> Prop) `{forall r, Decision (P r)} rows r :
  r ∈ rows -> ~ P r -> (0 < f r)%nat ->
  (sum_list_with f (filter P rows) < sum_list_with f rows)%nat.
Proof.
  intros Hr Hnp Hf.
  assert (forall l, (sum_list_with f (filter P l) <= sum_list_with f l)%nat) as Hle.
  { induction l as [|x l IH]; [done|]. rewrite filter_cons. simpl. case_decide; simpl; lia. }
  induction rows as [|x rows IH]; [by apply not_elem_of_nil in Hr|].
  rewrite filter_cons. simpl. specialize (Hle rows).
  apply elem_of_cons in Hr as [<-|Hr]; [rewrite decide_False by done; lia|].
  specialize (IH Hr). case_decide; simpl; lia.
Qed.

Lemma sum_list_with_map_lt {R} (f : R -> nat) (g : R -> R) rows r :
  r ∈ rows -> (f (g r) < f r)%nat -> (forall r', r' ∈ rows -> (f (g r') <= f r')%nat) ->
  (sum_list_with f (g <$> rows) < sum_list_with f rows)%nat.
Proof.
  intros Hr Hlt Hle.
  assert (forall l, (forall r', r' ∈ l -> (f (g r') <= f r')%nat) ->
            (sum_list_with f (g <$> l) <= sum_list_with f l)%nat) as Hsum.
  { induction l as [|x l IH]; intros Hl; [done|]. csimpl.
    pose proof (Hl x (list_elem_of_here _ _)). assert (sum_list_with f (g <$> l) <= sum_list_with f l)%nat; [|lia].
    apply IH. intros r' Hr'. apply Hl. by right. }
  induction rows as [|x rows IH]; [by apply not_elem_of_nil in Hr|]. csimpl.
  assert (sum_list_with f (g <$> rows) <= sum_list_with f rows)%nat.
  { apply Hsum. intros r' Hr'. apply Hle. by right. }
  pose proof (Hle x (list_elem_of_here _ _)).
  apply elem_of_cons in Hr as [<-|Hr]; [lia|].
  assert (sum_list_with f (g <$> rows) < sum_list_with f rows)%nat; [|lia].
  apply IH; [done|]. intros r' Hr'. apply Hle. by right.
Qed.

(** What a drain assumes: the storage layer works, the tables are well formed with
    room for the dead letters, the retry settings are in range, the clock stays where
    adding a backoff does not overflow. *)
Record drain_store_ok (max_retries : Z) (s : MessageStore) : Prop := {
  ds_faults : no_faults s;
  ds_wf : db_wf (ms_db s);
  ds_attempts : Forall (fun r => row_attempts r < u32_max) (db_outbox (ms_db s));
  ds_dead : db_dead_seq (ms_db s) + Z.of_nat (length (db_outbox (ms_db s))) <= i64_max;
}.

Definition settings_ok {S} (dw : DeliveryWorker S) : Prop :=
  0 <= dw_max_retries dw < u32_max /\ is_u64 (dw_retry_backoff dw).

Definition clock_ok {T} (ww : WorkerWorld T) : Prop :=
  forall n, 0 <= ww_clock ww n <= i64_max - MAX_BACKOFF_SECONDS.

Lemma unix_now_ok clock : 0 <= clock <= i64_max -> unix_now clock = clock.
Proof.
  intros H. unfold unix_now. rewrite (proj2 (Z.ltb_ge clock 0)) by lia.
  apply as_i64_id. unfold is_i64, i64_min. lia.
Qed.

Lemma add_u32_attempts r max_retries s :
  drain_store_ok max_retries s -> r ∈ db_outbox (ms_db s) ->
  as_u32 (row_attempts r) = row_attempts r /\
  add_u32 (row_attempts r) 1 = row_attempts r + 1 /\ 0 <= row_attempts r < u32_max.
Proof.
  intros Hs Hr. pose proof (wf_outbox_rows _ (ds_wf _ _ Hs)) as Hrows.
  pose proof (ds_attempts _ _ Hs) as Ha. rewrite Forall_forall in Hrows, Ha.
  specialize (Hrows r Hr). specialize (Ha r Hr). destruct Hrows as (_ & Hu & _).
  unfold is_u32 in Hu. split_and!; [by apply as_u32_id | | lia | lia].
  apply add_u32_id. unfold is_u32. lia.
Qed.

Lemma due_time_ok backoff now :
  0 <= now <= i64_max - MAX_BACKOFF_SECONDS -> 0 <= backoff <= MAX_BACKOFF_SECONDS ->
  add_i64 now (as_i64 backoff) = now + backoff.
Proof.
  unfold MAX_BACKOFF_SECONDS, i64_max. intros Hn Hb.
  rewrite as_i64_id by (unfold is_i64, i64_min, i64_max; lia).
  apply add_i64_id. unfold is_i64, i64_min, i64_max. lia.
Qed.

Lemma elem_length {R} (r : R) rows : r ∈ rows -> (0 < length rows)%nat.
Proof. destruct rows; [by intros ?%not_elem_of_nil | simpl; lia]. Qed.

Lemma length_filter_ne {R} (id : R -> Z) (r : R) rows :
  r ∈ rows -> (length (filter (fun r' => id r' <> id r) rows) < length rows)%nat.
Proof.
  intros Hr. assert (forall l : list R, length l = sum_list_with (fun _ => 1%nat) l) as Hlen.
  { induction l; simpl; lia. }
  rewrite !Hlen. apply (sum_list_with_filter_lt _ (fun r' => id r' <> id r) rows r); [done | naive_solver | lia].
Qed.

(** Settling a claimed message keeps the assumptions and uses up budget. *)
Lemma settle_drains {S} (dw : DeliveryWorker S) now clock res s r :
  settings_ok dw -> drain_store_ok (dw_max_retries dw) s ->
  0 <= now <= i64_max - MAX_BACKOFF_SECONDS ->
  r ∈ db_outbox (ms_db s) ->
  let s' := settle dw (row_to_stored r) now clock res s in
  drain_store_ok (dw_max_retries dw) s' /\
  (budget (dw_max_retries dw) (ms_db s') < budget (dw_max_retries dw) (ms_db s))%nat.
Proof.
  intros [Hmax Hbase] Hs Hnow Hr. destruct (add_u32_attempts r _ _ Hs Hr) as (Has & Hadd & Hatt).
  destruct Hs as [Hnf Hwf Hall Hdead].
  assert (sm_id (row_to_stored r) = row_id r) as Hid by done.
  assert (sm_attempts (row_to_stored r) = row_attempts r) as Hsa by done.
  pose proof (length_filter_ne row_id r _ Hr) as Hlen.
  assert (sum_list_with (row_budget (dw_max_retries dw)) (filter (fun r' => row_id r' <> row_id r) (db_outbox (ms_db s)))
     < sum_list_with (row_budget (dw_max_retries dw)) (db_outbox (ms_db s)))%nat as Hbud.
  { apply (sum_list_with_filter_lt _ (fun r' => row_id r' <> row_id r) _ r Hr); [naive_solver | unfold row_budget; lia]. }
  unfold settle. rewrite Hid, Hsa, Hadd. destruct res as [[]|e].
  - rewrite mark_delivered_no_faults by done. simpl. split; [split; simpl|]; try done.
    + by eapply (delete_outbox_wf (row_id r) (ms_db s)).
    + by apply Forall_filter.
    + unfold ms_db in *. simpl. lia.
  - destruct (Z.ltb_spec (dw_max_retries dw) (row_attempts r + 1)) as [Hgt|Hle].
    + pose proof (elem_length _ _ Hr) as Hpos.
      rewrite dead_letter_no_faults by (done || lia). simpl.
      split; [split; simpl|]; try done.
      * pose proof (step_wf (OpDeadLetter clock (row_id r) (ChimneyError.to_string e)) s I Hwf) as Hwf'.
        simpl in Hwf'. by rewrite dead_letter_no_faults in Hwf' by (done || lia).
      * by apply Forall_filter.
      * unfold ms_db in *. simpl. lia.
    + pose proof (backoff_bounds (dw_retry_backoff dw) (row_attempts r + 1) MAX_BACKOFF_SECONDS Hbase) as Hb.
      unfold MAX_BACKOFF_SECONDS in Hb. 
      rewrite due_time_ok by (unfold MAX_BACKOFF_SECONDS in *; lia).
      rewrite reschedule_no_faults by done. simpl. split; [split; simpl|]; try done.
      * eapply (update_outbox_wf (row_id r) (row_attempts r + 1) _ (ms_db s)); [done| | |reflexivity].
        -- unfold is_u32. lia.
        -- unfold is_i64, i64_min, MAX_BACKOFF_SECONDS, i64_max in *. lia.
      * apply Forall_fmap. eapply Forall_impl; [exact Hall|]. intros x. simpl. intros Hx.
        case_decide; simpl; lia.
      * unfold ms_db in *. simpl. by rewrite length_fmap.
      * unfold budget. simpl. apply (sum_list_with_map_lt _ _ _ r Hr).
        -- rewrite decide_True by done. unfold row_budget. simpl. lia.
        -- intros r' Hr'. case_decide as Heq; [|done].
           rewrite (sorted_unique row_id _ r' r (wf_outbox_sorted _ Hwf) Hr' Hr Heq).
           unfold row_budget. simpl. lia.
Qed.

(** ** The drain terminates *)

Section Drain.
Context {S : Type} {E : Type -> Type} `{MessageSink S E} {T : Type}.
Variable hsink : handler E T.
Variable connect : T -> T * Result S.

Definition drain_inv (dw : DeliveryWorker S) (ww : WorkerWorld T) : Prop :=
  drain_store_ok (dw_max_retries dw) (ww_store ww) /\ clock_ok ww /\
  (forall n, ww_shutdown ww n = true).

Definition drained (ww : WorkerWorld T) : Prop :=
  next_row (unix_now (ww_clock ww (pred (ww_ticks ww)))) (ms_db (ww_store ww)) = None.

Lemma round_drains dw ww :
  settings_ok dw -> drain_inv dw ww ->
  let '(ww', ctl) := run (world_handler hsink connect) (run_body dw) ww in
  drain_inv dw ww' /\
  match ctl with
  | Continue => (budget (dw_max_retries dw) (ms_db (ww_store ww')) <
                 budget (dw_max_retries dw) (ms_db (ww_store ww)))%nat
  | Break _ => drained ww'
  end.
Proof.
  intros Hset (Hs & Hclock & Hshut).
  set (now := unix_now (read_clock ww)).
  assert (0 <= now <= i64_max - MAX_BACKOFF_SECONDS) as Hnow.
  { unfold now. specialize (Hclock (ww_ticks ww)). unfold read_clock.
    rewrite unix_now_ok; [done|]. unfold MAX_BACKOFF_SECONDS in *. lia. }
  pose proof (claim_no_faults now (ww_store ww) (ds_faults _ _ Hs)) as Hc.
  destruct (next_row now (ms_db (ww_store ww))) as [r|] eqn:Hr.
  - pose proof (round_claimed hsink connect dw ww _ _ Hc) as Hround. cbv zeta in Hround.
    destruct (run hsink _ (ww_sink ww)) as [t res]. rewrite Hround.
    apply next_row_Some in Hr as [Hr _].
    destruct (settle_drains dw now (ww_clock ww (Datatypes.S (ww_ticks ww))) res (ww_store ww) r Hset Hs Hnow Hr) as [Hs' Hlt].
    split; [|exact Hlt]. split_and!; done.
  - unfold run_body. simpl. unfold store_call. simpl. fold now. rewrite Hc. simpl.
    rewrite Hshut. simpl. split; [by split_and!|]. exact Hr.
Qed.

Lemma drain_loop dw ww fuel :
  settings_ok dw -> drain_inv dw ww ->
  (budget (dw_max_retries dw) (ms_db (ww_store ww)) < fuel)%nat ->
  exists ww', run_loop (world_handler hsink connect) (run_body dw) fuel ww = (ww', Some tt) /\
    drain_inv dw ww' /\ drained ww'.
Proof.
  intros Hset Hinv Hfuel.
  destruct (run_loop_terminates (world_handler hsink connect) (run_body dw)
    (drain_inv dw) (fun ww _ => drain_inv dw ww /\ drained ww)
    (fun ww => budget (dw_max_retries dw) (ms_db (ww_store ww)))) with (s := ww) (fuel := fuel)
    as (ww' & [] & ? & ?); eauto.
  - intros w w' Hw Hrun. pose proof (round_drains dw w Hset Hw) as Hr. by rewrite Hrun in Hr.
  - intros w w' b Hw Hrun. pose proof (round_drains dw w Hset Hw) as Hr. by rewrite Hrun in Hr.
Qed.
End Drain.
