(* ===== verification/WorkerProps.v ===== *)
(** * Properties of the delivery worker *)

From S2P Require Import Prelude RustStr Error Effects Store StoreFacts StoreSpec StoreProps Worker WorkerFacts.

(** ** Backoff *)

(** C34: for every base, attempt and cap the saturating arithmetic computes exactly
    [base * 2^(attempt-1)] capped at [cap]: saturation never shows. *)
Theorem backoff_is_capped_exponential base attempt cap :
  is_u64 base -> is_u32 attempt -> is_u64 cap ->
  backoff_seconds base attempt cap =
  if attempt =? 0 then 0 else Z.min (base * 2 ^ (attempt - 1)) cap.
Proof.
  intros Hb Ha Hc. unfold is_u32, is_u64 in *. destruct (Z.eqb_spec attempt 0) as [->|Hne]; [done|].
  apply backoff_exact; unfold is_u64; lia.
Qed.

(** the waiting time never shrinks from one retry to the next, never exceeds the
    cap, and is at least a second when the configured base is (which [Config::validate]
    demands). *)
Theorem backoff_monotone base n m cap :
  1 <= base <= u64_max -> 1 <= n <= m -> m <= u32_max -> 1 <= cap <= u64_max ->
  1 <= backoff_seconds base n cap <= backoff_seconds base m cap /\ backoff_seconds base m cap <= cap.
Proof.
  intros Hb Hn Hm Hc.
  pose proof (backoff_positive base n cap Hb) as Hpos.
  pose proof (backoff_bounds base m cap) as Hbm. unfold is_u64 in Hbm.
  rewrite !backoff_exact in * by (unfold is_u64; lia).
  assert (2 ^ (n - 1) <= 2 ^ (m - 1)) by (apply Z.pow_le_mono_r; lia).
  assert (base * 2 ^ (n - 1) <= base * 2 ^ (m - 1)) by nia. lia.
Qed.

(** ** Keys *)

(** the idempotency key of a queued message depends on its row id only, so it is
    the same at every retry, and different messages have different keys. *)
Theorem idempotency_key_injective i j : idempotency_key i = idempotency_key j <-> i = j.
Proof.
  unfold idempotency_key. split; [|by intros ->].
  intros H%app_inv_head. by apply show_int_inj.
Qed.

(** ** A failed delivery, seen in the queue *)

Section Failures.
Context {S : Type}.

Lemma claimed_entry now s r :
  db_wf (ms_db s) -> next_row now (ms_db s) = Some r ->
  q_entries (queue_of (ms_db s)) !! row_id r = Some (row_entry r).
Proof.
  intros Hwf [Hr _]%next_row_Some. simpl. apply entries_lookup; [apply Hwf | eauto].
Qed.

(** A failed delivery, settled: the entry is parked with one more attempt, or moved to
    the dead letters. *)
Lemma settle_failed_queue (dw : DeliveryWorker S) now clock e s r :
  settings_ok dw -> drain_store_ok (dw_max_retries dw) s ->
  0 <= now <= i64_max - MAX_BACKOFF_SECONDS -> next_row now (ms_db s) = Some r ->
  let q := queue_of (ms_db s) in
  queue_of (ms_db (settle dw (row_to_stored r) now clock (Err e) s)) =
  if row_attempts r <? dw_max_retries dw then
    mkQueue (alter (fun x => mkEntry (entry_message x) (row_attempts r + 1)
                       (now + Z.min (dw_retry_backoff dw * 2 ^ row_attempts r) 900)) (row_id r) (q_entries q))
      (q_last_id q) (q_letters q)
  else
    mkQueue (delete (row_id r) (q_entries q)) (q_last_id q)
      (q_letters q ++ [mkLetter (row_message r) (row_attempts r) (unix_now clock) (ChimneyError.to_string e)]).
Proof.
  intros [Hmax Hbase] Hs Hnow Hnext q. pose proof (next_row_Some _ _ _ Hnext) as [Hr _].
  destruct (add_u32_attempts r _ _ Hs Hr) as (Has & Hadd & Hatt).
  pose proof (claimed_entry now s r (ds_wf _ _ Hs) Hnext) as Hentry.
  unfold settle. change (sm_id (row_to_stored r)) with (row_id r).
  change (sm_attempts (row_to_stored r)) with (as_u32 (row_attempts r)). rewrite Has, Hadd.
  destruct (Z.ltb_spec (dw_max_retries dw) (row_attempts r + 1)) as [Hgt|Hle].
  - rewrite (proj2 (Z.ltb_ge _ _)) by lia.
    destruct (dead_letter clock (row_id r) (ChimneyError.to_string e) s) as [s' rr] eqn:Hd. simpl.
    pose proof (refine_step (OpDeadLetter clock (row_id r) (ChimneyError.to_string e)) s s'
      (event_of (fun _ => EvDeadLettered clock (row_id r) (ChimneyError.to_string e)) rr) (ds_wf _ _ Hs)) as Href.
    simpl in Href. rewrite Hd in Href. specialize (Href eq_refl).
    pose proof (ds_dead _ _ Hs). pose proof (elem_length _ _ Hr).
    rewrite dead_letter_no_faults in Hd; [|apply Hs|apply Hs|done|lia].
    injection Hd as <- <-. simpl in Href. apply dead_lettered_inv in Href.
    fold q in Href, Hentry. rewrite Hentry in Href. exact Href.
  - rewrite (proj2 (Z.ltb_lt _ _)) by lia. unfold is_u64 in Hbase.
    rewrite backoff_exact by (unfold is_u64, MAX_BACKOFF_SECONDS, u64_max in *; lia).
    replace (row_attempts r + 1 - 1) with (row_attempts r) by lia.
    assert (0 <= dw_retry_backoff dw * 2 ^ row_attempts r).
    { assert (0 < 2 ^ row_attempts r) by (apply Z.pow_pos_nonneg; lia). nia. }
    rewrite due_time_ok by (unfold MAX_BACKOFF_SECONDS in *; lia).
    rewrite reschedule_no_faults by apply Hs. unfold queue_of. simpl.
    rewrite entries_update by apply (ds_wf _ _ Hs). done.
Qed.

Lemma filter_map_parked now i a n (rows : list outbox_row) :
  now < n ->
  filter (fun r => row_ready now r = true)
    ((fun r => if decide (row_id r = i) then set_attempt a n r else r) <$> rows) =
  filter (fun r => row_ready now r = true) (filter (fun r => row_id r <> i) rows).
Proof.
  intros Hn. induction rows as [|r rows IH]; [done|]. csimpl. rewrite !filter_cons.
  destruct (decide (row_id r = i)) as [E|E].
  - rewrite (decide_False (P := row_id r <> i)) by naive_solver.
    rewrite decide_False; [done|]. unfold row_ready. simpl. rewrite Z.leb_le. lia.
  - rewrite (decide_True (P := row_id r <> i)) by done. rewrite filter_cons. by rewrite IH.
Qed.

(** .. and is out of the way of the others. *)
Lemma settle_failed_next (dw : DeliveryWorker S) now clock e s r :
  settings_ok dw -> 1 <= dw_retry_backoff dw -> drain_store_ok (dw_max_retries dw) s ->
  0 <= now <= i64_max - MAX_BACKOFF_SECONDS -> next_row now (ms_db s) = Some r ->
  let s' := settle dw (row_to_stored r) now clock (Err e) s in
  claim_next_ready now s' =
  (s', Ok (row_to_stored <$>
       first_by row_before (filter (fun x => row_ready now x = true)
         (filter (fun x => row_id x <> row_id r) (db_outbox (ms_db s)))))).
Proof.
  intros [Hmax Hbase] Hpos Hs Hnow Hnext s'. pose proof (next_row_Some _ _ _ Hnext) as [Hr _].
  destruct (settle_drains dw now clock (Err e) s r (conj Hmax Hbase) Hs Hnow Hr) as [Hs' _].
  rewrite claim_no_faults by apply Hs'. do 3 f_equal. unfold s', settle, next_row.
  destruct (add_u32_attempts r _ _ Hs Hr) as (Has & Hadd & Hatt).
  change (sm_id (row_to_stored r)) with (row_id r).
  change (sm_attempts (row_to_stored r)) with (as_u32 (row_attempts r)). rewrite Has, Hadd.
  destruct (Z.ltb_spec (dw_max_retries dw) (row_attempts r + 1)) as [Hgt|Hle].
  - pose proof (ds_dead _ _ Hs). pose proof (elem_length _ _ Hr).
    rewrite dead_letter_no_faults; [done|apply Hs|apply Hs|done|lia].
  - unfold is_u64 in Hbase.
    pose proof (backoff_positive (dw_retry_backoff dw) (row_attempts r + 1) MAX_BACKOFF_SECONDS) as Hb1.
    pose proof (backoff_bounds (dw_retry_backoff dw) (row_attempts r + 1) MAX_BACKOFF_SECONDS) as Hb2.
    unfold is_u64, MAX_BACKOFF_SECONDS, u64_max in *.
    rewrite due_time_ok by (unfold MAX_BACKOFF_SECONDS in *; lia).
    rewrite reschedule_no_faults by apply Hs. simpl. rewrite filter_map_parked by lia. done.
Qed.

(** A delivered message whose row stays. *)
Lemma settle_unremoved (dw : DeliveryWorker S) now clock s s1 s' stored err :
  claim_next_ready now s = (s1, Ok (Some stored)) ->
  mark_delivered (sm_id stored) s1 = (s', Err err) -> no_faults s' ->
  settle dw stored now clock (Ok tt) s1 = s' /\ ms_db s' = ms_db s /\
  claim_next_ready now s' = (s', Ok (Some stored)).
Proof.
  intros Hc Hm Hnf. unfold settle. rewrite Hm. split; [done|].
  apply remove_spec in Hm as (_ & _ & Hdb). apply claim_next_ready_spec in Hc as (Hdb1 & _ & _ & Ho).
  split; [congruence|]. rewrite claim_no_faults by done. rewrite Hdb, Hdb1. unfold next_row. by rewrite <- Ho.
Qed.
End Failures.

(** ** The loop *)

Section Loop.
Context {S : Type} {E : Type -> Type} `{MessageSink S E} {T : Type}.

(** C22: a failed delivery of the claimed message either records one more attempt and
    parks the message for exactly the backoff, or, when the configured retries are used
    up, moves it to the dead letters with the text of the error; no other message is
    touched. *)
Theorem failure_parks_or_dead_letters (hsink : handler E T) (connect : T -> T * Result S) dw now e ww r :
  settings_ok dw -> drain_store_ok (dw_max_retries dw) (ww_store ww) ->
  0 <= now <= i64_max - MAX_BACKOFF_SECONDS -> next_row now (ms_db (ww_store ww)) = Some r ->
  let q := queue_of (ms_db (ww_store ww)) in
  let ww' := (run (world_handler hsink connect) (handle_failure dw (row_to_stored r) now e) ww).1 in
  queue_of (ms_db (ww_store ww')) =
  if row_attempts r <? dw_max_retries dw then
    mkQueue (alter (fun x => mkEntry (entry_message x) (row_attempts r + 1)
                       (now + Z.min (dw_retry_backoff dw * 2 ^ row_attempts r) 900)) (row_id r) (q_entries q))
      (q_last_id q) (q_letters q)
  else
    mkQueue (delete (row_id r) (q_entries q)) (q_last_id q)
      (q_letters q ++ [mkLetter (row_message r) (row_attempts r) (unix_now (read_clock ww)) (ChimneyError.to_string e)]).
Proof.
  intros Hset Hs Hnow Hnext q ww'. subst ww'. rewrite run_handle_failure. by apply settle_failed_queue.
Qed.

(** one failing message never blocks the rest: in a round of the loop whose
    delivery fails, the loop goes on, and the next claim at the same time serves the
    message that would be served if the failing one were not there at all. *)
Theorem failing_message_does_not_block (hsink : handler E T) (connect : T -> T * Result S) dw e ww r :
  let now := unix_now (read_clock ww) in
  settings_ok dw -> 1 <= dw_retry_backoff dw -> drain_store_ok (dw_max_retries dw) (ww_store ww) ->
  0 <= now <= i64_max - MAX_BACKOFF_SECONDS -> next_row now (ms_db (ww_store ww)) = Some r ->
  (run hsink (deliver (dw_sink dw) (row_message r) (idempotency_key (row_id r))) (ww_sink ww)).2 = Err e ->
  exists ww', run (world_handler hsink connect) (run_body dw) ww = (ww', Continue) /\
  claim_next_ready now (ww_store ww') =
  (ww_store ww', Ok (row_to_stored <$>
       first_by row_before (filter (fun x => row_ready now x = true)
         (filter (fun x => row_id x <> row_id r) (db_outbox (ms_db (ww_store ww))))))).
Proof.
  intros now Hset Hpos Hs Hnow Hnext Hsink.
  assert (claim_next_ready now (ww_store ww) = (ww_store ww, Ok (Some (row_to_stored r)))) as Hc.
  { rewrite claim_no_faults by apply Hs. by rewrite Hnext. }
  pose proof (round_claimed hsink connect dw ww _ _ Hc) as Hround.
  change (sm_message (row_to_stored r)) with (row_message r) in Hround.
  change (sm_id (row_to_stored r)) with (row_id r) in Hround.
  destruct (run hsink _ (ww_sink ww)) as [t res]. simpl in Hsink. subst res.
  eexists. split; [exact Hround|]. by apply settle_failed_next.
Qed.

(** C33: delivery is at least once: in a round whose delivery succeeds but whose row
    cannot be removed, the queue is as before, and the next claim serves the same
    message, under the same key, again and at once. *)
Theorem unremoved_message_is_resent (hsink : handler E T) (connect : T -> T * Result S) dw ww s1 s' stored err :
  let now := unix_now (read_clock ww) in
  claim_next_ready now (ww_store ww) = (s1, Ok (Some stored)) ->
  (run hsink (deliver (dw_sink dw) (sm_message stored) (idempotency_key (sm_id stored))) (ww_sink ww)).2 = Ok tt ->
  mark_delivered (sm_id stored) s1 = (s', Err err) -> no_faults s' ->
  exists ww', run (world_handler hsink connect) (run_body dw) ww = (ww', Continue) /\
  ms_db (ww_store ww') = ms_db (ww_store ww) /\
  claim_next_ready now (ww_store ww') = (ww_store ww', Ok (Some stored)).
Proof.
  intros now Hc Hsink Hm Hnf. pose proof (round_claimed hsink connect dw ww _ _ Hc) as Hround.
  destruct (run hsink _ (ww_sink ww)) as [t res]. simpl in Hsink. subst res.
  eexists. split; [exact Hround|]. cbn [ww_store].
  destruct (settle_unremoved dw now (read_clock (tick ww)) _ _ _ _ _ Hc Hm Hnf) as (Heq & Hdb & Hagain).
  change (unix_now (read_clock ww)) with now. rewrite Heq. done.
Qed.

(** C21: on shutdown the worker drains and stops.  With the storage layer working,
    whatever the sink answers and however the clock moves, the loop of [run] breaks
    within the budget of the rows (their settlements and remaining retries), and when
    it breaks no message was due any more. *)
Theorem drain_terminates (hsink : handler E T) (connect : T -> T * Result S) dw ww fuel :
  settings_ok dw -> drain_store_ok (dw_max_retries dw) (ww_store ww) -> clock_ok ww ->
  (forall n, ww_shutdown ww n = true) ->
  (budget (dw_max_retries dw) (ms_db (ww_store ww)) < fuel)%nat ->
  exists ww', run_loop (world_handler hsink connect) (run_body dw) fuel ww = (ww', Some tt) /\
    next_row (unix_now (ww_clock ww' (pred (ww_ticks ww')))) (ms_db (ww_store ww')) = None.
Proof.
  intros Hset Hs Hclock Hshut Hfuel.
  destruct (drain_loop hsink connect dw ww fuel Hset (conj Hs (conj Hclock Hshut)) Hfuel)
    as (ww' & ? & _ & ?). eauto.
Qed.

(** A handler that also remembers the last answer of the shutdown flag. *)
Definition recording (h : handler (WorkerE S E) T) : handler (WorkerE S E) (T * option bool) :=
  fun X e s =>
    let '(t, x) := h X e s.1 in
    ((t, match e in WorkerE _ _ X return X -> option bool with
         | ShutdownBorrow => fun b => Some b
         | _ => fun _ => s.2
         end x), x).

Lemma recording_borrow (h : handler (WorkerE S E) T) s s' b :
  recording h bool ShutdownBorrow s = (s', b) -> s'.2 = Some b.
Proof. unfold recording. destruct (h bool ShutdownBorrow s.1) as [t x]. by intros [= <- <-]. Qed.

Lemma body_break_recorded (h : handler (WorkerE S E) T) dw s s' u :
  run (recording h) (run_body dw) s = (s', Break u) -> s'.2 = Some true.
Proof.
  unfold run_body. simpl. destruct (recording h _ UnixNow s) as [s1 now].
  destruct (recording h _ (ClaimNextReady now) s1) as [s2 [[stored|]|e]].
  - rewrite run_mbind. destruct (run (recording h) (deliver_one dw stored now) _) as [s3 v]. done.
  - simpl. destruct (recording h _ ShutdownBorrow s2) as [s3 []] eqn:Hb; simpl.
    + intros [= <- _]. by apply recording_borrow in Hb.
    + destruct (recording h _ (NextWakeup now) s3) as [s4 r].
      by destruct (recording h _ (SelectIdle _) s4) as [s5 v].
  - simpl. destruct (recording h _ (SelectSleep _) s2) as [s3 v].
    destruct (recording h _ ShutdownBorrow s3) as [s4 []] eqn:Hb; [|done].
    intros [= <- _]. by apply recording_borrow in Hb.
Qed.

Lemma reconnect_break_recorded (h : handler (WorkerE S E) T) d s s' :
  run (recording h) (reconnect_body d) s = (s', Break None) -> s'.2 = Some true.
Proof.
  unfold reconnect_body. simpl. destruct (recording h _ ShutdownBorrow s) as [s1 []] eqn:Hb; simpl.
  - intros [= <-]. by apply recording_borrow in Hb.
  - destruct (recording h _ Connect s1) as [s2 [sink|e]]; simpl; [done|].
    by destruct (recording h _ (SelectSleep _) s2) as [s3 v].
Qed.

Lemma loop_break_last (h : handler (WorkerE S E) T) {B} (body : prog (WorkerE S E) (loop_ctl B))
    (P : B -> Prop) fuel s s' b :
  (forall s s' b, run (recording h) body s = (s', Break b) -> P b -> s'.2 = Some true) ->
  run_loop (recording h) body fuel s = (s', Some b) -> P b -> s'.2 = Some true.
Proof.
  intros Hb. revert s. induction fuel as [|n IH]; intros s; simpl; [done|].
  destruct (run (recording h) body s) as [s1 [|b1]] eqn:Er; [apply IH|].
  intros [= <- <-]. exact (Hb _ _ _ Er).
Qed.

(** the delivery task ends only because of shutdown: in any world whatever
    (storage errors, refused connections, failed deliveries), if [run_with_reconnect]
    returns, the last thing it read was the shutdown flag, and it was set. *)
Theorem worker_stops_only_on_shutdown (h : handler (WorkerE S E) T)
    max_retries retry_backoff reconnect_backoff fuel s s' :
  run_with_reconnect (recording h) max_retries retry_backoff reconnect_backoff fuel s = (s', Some tt) ->
  s'.2 = Some true.
Proof.
  unfold run_with_reconnect.
  destruct (run_loop (recording h) (reconnect_body reconnect_backoff) fuel s) as [s1 [[sink|]|]] eqn:Er;
    [| |done].
  - intros Hloop. eapply (loop_break_last h _ (fun _ => True)); [|exact Hloop|done].
    intros ? ? ? Hbreak _. by eapply body_break_recorded.
  - intros [= <-]. eapply (loop_break_last h _ (fun b => b = None)); [|exact Er|done].
    intros ? ? ? Hbreak ->. by eapply reconnect_break_recorded.
Qed.

(** until it has a sink the task only polls the flag, connects and waits: no
    queued message is claimed, attempted or removed while disconnected, so an outage at
    startup costs no message a retry. *)
Theorem disconnected_task_leaves_the_queue_alone d :
  allowed (fun X (e : WorkerE S E X) =>
    match e with ShutdownBorrow | Connect => True | SelectSleep t => t = d | _ => False end)
    (reconnect_body d).
Proof.
  unfold reconnect_body. simpl. split; [done|]. intros []; simpl; [done|]. split; [done|].
  intros [sink|e]; simpl; done.
Qed.

(** when nothing is due the worker sleeps exactly until the earliest parked
    message is due, or an hour when nothing is parked; the sleep is positive, so the
    loop does not spin. *)
Theorem idle_wait_exact (hsink : handler E T) (connect : T -> T * Result S) now ww :
  no_faults (ww_store ww) -> db_wf (ms_db (ww_store ww)) -> 0 <= now ->
  exists wait, run (world_handler hsink connect) (idle_wait now) ww = (ww, wait) /\ 0 < wait /\
  ((wait = IDLE_SLEEP /\ forall i e, q_entries (queue_of (ms_db (ww_store ww))) !! i = Some e -> entry_due e <= now) \/
   (exists i e, q_entries (queue_of (ms_db (ww_store ww))) !! i = Some e /\ wait = entry_due e - now /\
      forall i' e', q_entries (queue_of (ms_db (ww_store ww))) !! i' = Some e' -> now < entry_due e' ->
        entry_due e <= entry_due e')).
Proof.
  intros Hnf Hwf Hnow. unfold idle_wait. simpl. unfold store_call.
  destruct (next_wakeup now (ww_store ww)) as [s' r] eqn:Hw.
  unfold next_wakeup in Hw. rewrite with_conn_no_faults in Hw by done.
  unfold statement in Hw. simpl in Hw. injection Hw as <- <-.
  assert (set_store ww {| ms_conn := {| conn_db := ms_db (ww_store ww); conn_faults := [] |};
    ms_notified := ms_notified (ww_store ww); ms_max_len := ms_max_len (ww_store ww) |} = ww) as ->.
  { change (set_store ww (with_db (ww_store ww) (ms_db (ww_store ww))) = ww).
    rewrite with_db_id by done. by destruct ww. }
  pose proof (refine_wakeup (ms_db (ww_store ww)) now Hwf) as Hq.
  destruct (first_by Z.ltb _) as [t|]; eexists; (split; [reflexivity|]).
  - inversion Hq as [| | | | | | | | |? ? ? i e Hlt Hi Ht Hmin| | |]; subst.
    assert (is_i64 (entry_due e)) as Hi64.
    { simpl in Hi. apply entries_lookup in Hi as (r & Hr & _ & <-); [|apply Hwf].
      pose proof (wf_outbox_rows _ Hwf) as Hrows. rewrite Forall_forall in Hrows. by apply Hrows. }
    unfold is_i64, i64_min, i64_max in Hi64.
    rewrite as_i64_id by (unfold is_i64, i64_min, i64_max; lia).
    rewrite as_u64_id by (unfold is_u64, u64_max; lia).
    split; [lia|]. right. exists i, e. split_and!; [done|lia|done].
  - inversion Hq; subst. split; [done|]. by left.
Qed.
End Loop.

(** ** Instances

    A sink that answers from a script and logs the keys it was called with. *)

Inductive SendE : Type -> Type :=
| Send (m : Message) (key : str) : SendE (Result unit).

#[export] Instance script_sink : MessageSink unit SendE := fun _ m key => trigger (Send m key).

Definition script_handler : handler SendE (list (Result unit) * list str) := fun X e s =>
  match e in SendE X return (list (Result unit) * list str) * X with
  | Send _ key =>
      match s.1 with
      | [] => (([], s.2 ++ [key]), Ok tt)
      | a :: rest => ((rest, s.2 ++ [key]), a)
      end
  end.

Definition script_connect : list (Result unit) * list str -> (list (Result unit) * list str) * Result unit :=
  fun s => (s, Ok tt).

Definition refused : ChimneyError.t := ChimneyError.Matrix (lit "refused").
Definition sample_worker : DeliveryWorker unit := mkWorker tt 2 60.

(** The clock gains 1000 seconds at each reading; shutdown was requested. *)
Definition sample_world (answers : list (Result unit)) : WorkerWorld (list (Result unit) * list str) :=
  mkWorld sample_store (fun n => 1000 * Z.min 100 (Z.of_nat n)) 1 (fun _ => true) 0 (answers, []).

Lemma sample_settings : settings_ok sample_worker.
Proof. split; unfold is_u64, u32_max, u64_max; simpl; lia. Qed.

Lemma sample_drain_ok : drain_store_ok 2 sample_store.
Proof.
  split; [done | apply sample_store_wf | | by vm_compute].
  repeat constructor.
Qed.

Definition sample_row : outbox_row :=
  mkRow 1 (msg_from sample_message) (encode_recipients (msg_to sample_message)) (msg_subject sample_message)
    (msg_body sample_message) 0 0 100.

Lemma backoff_is_capped_exponential_witness :
  backoff_seconds 60 10 900 = 900 /\ backoff_seconds 60 3 900 = 240 /\
  backoff_seconds u64_max 64 u64_max = u64_max.
Proof.
  rewrite !backoff_is_capped_exponential; unfold is_u64, is_u32, u64_max, u32_max; try lia.
  split_and!; reflexivity.
Defined.

Lemma backoff_monotone_witness :
  1 <= backoff_seconds 60 2 900 <= backoff_seconds 60 5 900 /\ backoff_seconds 60 5 900 <= 900.
Proof. apply backoff_monotone; unfold u64_max, u32_max; lia. Defined.

Lemma failure_parks_or_dead_letters_witness :
  q_entries (queue_of (ms_db (ww_store (run (world_handler script_handler script_connect)
    (handle_failure sample_worker (row_to_stored sample_row) 500 refused) (sample_world [])).1)))
  = {[1 := mkEntry sample_message 1 560]}.
Proof.
  rewrite (failure_parks_or_dead_letters script_handler script_connect sample_worker 500 refused
             (sample_world []) sample_row);
    [reflexivity | apply sample_settings | apply sample_drain_ok
    | unfold i64_max, MAX_BACKOFF_SECONDS; lia | reflexivity].
Defined.

Definition two_message_store : MessageStore :=
  steps [OpEnqueue 100 sample_message; OpEnqueue 101 (mkMessage None [lit "x@y"] None (lit "good"))] (fresh_store [] 10).

Lemma two_message_drain_ok : drain_store_ok 2 two_message_store.
Proof.
  split; [done | apply steps_wf; [repeat constructor | apply SCHEMA_db_wf] | | by vm_compute].
  repeat constructor.
Qed.

Lemma failing_message_does_not_block_witness :
  exists ww', run (world_handler script_handler script_connect) (run_body sample_worker)
    (set_store (sample_world [Err refused]) two_message_store) = (ww', Continue) /\
  (sm_id <$> default None (result_ok (claim_next_ready 1000 (ww_store ww')).2)) = Some 2.
Proof.
  destruct (failing_message_does_not_block script_handler script_connect sample_worker refused
    (set_store (sample_world [Err refused]) two_message_store) sample_row) as (ww' & Hr & Hc);
    [apply sample_settings | simpl; lia | apply two_message_drain_ok
    | split; vm_compute; discriminate | reflexivity | reflexivity |].
  exists ww'. split; [exact Hr|].
  change (unix_now (read_clock (set_store (sample_world [Err refused]) two_message_store))) with 1000 in Hc.
  rewrite Hc. reflexivity.
Defined.

(** The disk fails right after the claim: the row stays and is served again. *)
Lemma unremoved_message_is_resent_witness :
  let s := mkStore (mkConn (ms_db sample_store) [None; None; None; Some (lit "disk I/O error")]) 1 10 in
  exists ww', run (world_handler script_handler script_connect) (run_body sample_worker)
    (set_store (sample_world [Ok tt]) s) = (ww', Continue) /\
  claim_next_ready 1000 (ww_store ww') = (ww_store ww', Ok (Some (row_to_stored sample_row))).
Proof.
  intros s.
  destruct (unremoved_message_is_resent script_handler script_connect sample_worker (set_store (sample_world [Ok tt]) s)
    (claim_next_ready 1000 s).1 (mark_delivered 1 (claim_next_ready 1000 s).1).1
    (row_to_stored sample_row) (ChimneyError.Storage (lit "disk I/O error"))) as (ww' & Hr & _ & Hc);
    [reflexivity | reflexivity | reflexivity | reflexivity |].
  exists ww'. split; [exact Hr|exact Hc].
Defined.

(** Two refusals and a success: three calls under one key, then the worker stops. *)
Lemma drain_terminates_witness :
  let ww := sample_world [Err refused; Err refused; Ok tt] in
  (ww_sink (run_loop (world_handler script_handler script_connect) (run_body sample_worker) 4 ww).1).2
    = replicate 3 (lit "chimney-post-1") /\
  exists ww', run_loop (world_handler script_handler script_connect) (run_body sample_worker) 4 ww = (ww', Some tt)
    /\ next_row (unix_now (ww_clock ww' (pred (ww_ticks ww')))) (ms_db (ww_store ww')) = None.
Proof.
  intros ww. split; [vm_compute; reflexivity|]. apply drain_terminates.
  - apply sample_settings.
  - apply sample_drain_ok.
  - intros n. simpl. unfold i64_max, MAX_BACKOFF_SECONDS. lia.
  - done.
  - vm_compute. lia.
Defined.

Lemma worker_stops_only_on_shutdown_witness :
  exists s', run_with_reconnect (recording (world_handler script_handler script_connect)) 2 60 10 5
               (sample_world [Ok tt], None) = (s', Some tt) /\ s'.2 = Some true.
Proof.
  destruct (run_with_reconnect (recording (world_handler script_handler script_connect)) 2 60 10 5
    (sample_world [Ok tt], None)) as [s' o] eqn:E.
  assert (o = Some tt) as -> by (vm_compute in E; by injection E as _ <-).
  exists s'. split; [done|]. by apply worker_stops_only_on_shutdown in E.
Defined.

Lemma idle_wait_exact_witness :
  exists wait, run (world_handler script_handler script_connect) (idle_wait 500) (sample_world []) = (sample_world [], wait)
    /\ 0 < wait.
Proof.
  destruct (idle_wait_exact script_handler script_connect 500 (sample_world [])) as (w & H1 & H2 & _);
    [done | apply sample_store_wf | lia |]. by exists w.
Defined.
