(* ===== verification/Reader.v ===== *)
(** * Reading lines and the DATA block ([src/src/smtp/server.rs], lines 229-339)

    The peer's side of a connection is a script of what [fill_buf] meets: chunks of
    bytes in whatever sizes TCP delivers them, an I/O error, or a stall long enough for
    the surrounding [timeout] to fire; the end of the script is end of file.  [consume]
    drops bytes from the first chunk. *)

From S2P Require Import Prelude RustStr Utf8 Error.

Inductive io_event : Type :=
| Chunk (available : bytes)
| IoError (error : str)
| Stall.

Abbreviation reader := (list io_event) (only parsing).

(** The value of [timeout(d, future).await]. *)
Inductive timed (A : Type) : Type :=
| InTime (a : A)
| Elapsed.
Arguments InTime {A} a.
Arguments Elapsed {A}.

Abbreviation zlen l := (Z.of_nat (length l)) (only parsing).

(** ** [read_line_limited_bytes]

    The loop over [fill_buf]; [buf] is the caller's buffer, [start] its length at the
    call.  The answer carries the reader and the buffer as they are left. *)
Fixpoint read_line_loop (rd : reader) (buf : bytes) (start max_bytes : Z)
  : timed (Result unit) * reader * bytes :=
  match rd with
  | [] => (InTime (Ok tt), [], buf)
  | Stall :: rd' => (Elapsed, rd', buf)
  | IoError e :: rd' => (InTime (Err (ChimneyError.Io e)), rd', buf)
  | Chunk available :: rd' =>
      match available with
      | [] => read_line_loop rd' buf start max_bytes
      | _ :: _ =>
          match position (Z.eqb nl) available with
          | Some idx =>
              let n := S idx in
              if max_bytes <? zlen buf - start + Z.of_nat n
              then (InTime (Err ChimneyError.SmtpLineTooLong), rd, buf)
              else (InTime (Ok tt), Chunk (drop n available) :: rd', buf ++ take n available)
          | None =>
              if max_bytes <? zlen buf - start + zlen available
              then (InTime (Err ChimneyError.SmtpLineTooLong), rd, buf)
              else read_line_loop rd' (buf ++ available) start max_bytes
          end
      end
  end.

Definition read_line_limited_bytes (rd : reader) (buf : bytes) (max_bytes : Z)
  : timed (Result Z) * reader * bytes :=
  let start := zlen buf in
  let '(r, rd', buf') := read_line_loop rd buf start max_bytes in
  (match r with
   | InTime (Ok _) => InTime (Ok (zlen buf' - start))
   | InTime (Err e) => InTime (Err e)
   | Elapsed => Elapsed
   end, rd', buf').

(** [read_line_limited]: the line decoded as UTF-8, appended to [buf]. *)
Definition read_line_limited (rd : reader) (buf : str) (max_bytes : Z)
  : timed (Result Z) * reader * str :=
  let '(r, rd', raw) := read_line_limited_bytes rd [] max_bytes in
  match r with
  | InTime (Ok n) =>
      match from_utf8 raw with
      | Some text => (InTime (Ok n), rd', buf ++ text)
      | None => (InTime (Err (ChimneyError.Smtp (lit "invalid UTF-8 in SMTP command"))), rd', buf)
      end
  | _ => (r, rd', buf)
  end.

(** ** [read_data] *)

Definition crlf : bytes := [cr; nl].
Definition dot : Z := 46.

Definition is_terminator (line : bytes) : bool :=
  bool_decide (line = [dot; cr; nl]) || bool_decide (line = [dot; nl]).

(** Dot-unstuffing: [if line.starts_with("..") { line.remove(0); }]. *)
Definition unstuff (line : bytes) : bytes :=
  if starts_with [dot; dot] line then drop 1 line else line.

(** The loop of [read_data]; [None] when the fuel runs out. *)
Fixpoint read_data_loop (fuel : nat) (rd : reader) (data : bytes) (max_size : Z)
  : option (Result bytes * reader) :=
  match fuel with
  | O => None
  | S fuel' =>
      let remaining := saturating_add (saturating_sub max_size (zlen data)) 4 in
      let '(r, rd', line) := read_line_limited_bytes rd [] remaining in
      match r with
      | InTime (Err ChimneyError.SmtpLineTooLong) => Some (Err ChimneyError.SmtpSizeExceeded, rd')
      | InTime (Err e) => Some (Err e, rd')
      | Elapsed => Some (Err (ChimneyError.Smtp (lit "SMTP data read timed out")), rd')
      | InTime (Ok n) =>
          if n =? 0 then Some (Err ChimneyError.SmtpDataIncomplete, rd')
          else if is_terminator line then Some (Ok data, rd')
          else
            let line := unstuff line in
            if max_size <? zlen data + zlen line then Some (Err ChimneyError.SmtpSizeExceeded, rd')
            else read_data_loop fuel' rd' (data ++ line) max_size
      end
  end.

(** What is left to read: a bound on the rounds of every loop over the reader. *)
Fixpoint reader_size (rd : reader) : nat :=
  match rd with
  | [] => 0
  | Chunk b :: rd' => length b + reader_size rd'
  | _ :: rd' => S (reader_size rd')
  end.

Definition read_data (rd : reader) (max_size : Z) : Result str * reader :=
  match read_data_loop (S (reader_size rd)) rd [] max_size with
  | Some (Ok data, rd') => (Ok (from_utf8_lossy data), rd')
  | Some (Err e, rd') => (Err e, rd')
  | None => (Err (ChimneyError.Smtp []), rd)
  end.

(** ** Lemmas *)

(** The bytes still to come, and a reader on which nothing goes wrong. *)
Fixpoint reader_bytes (rd : reader) : bytes :=
  match rd with
  | [] => []
  | Chunk b :: rd' => b ++ reader_bytes rd'
  | _ :: rd' => reader_bytes rd'
  end.

Definition clean (rd : reader) : Prop :=
  Forall (fun ev => match ev with Chunk _ => True | _ => False end) rd.

#[export] Instance io_event_eq_dec : EqDecision io_event.
Proof. solve_decision. Defined.

Lemma reader_bytes_app rd rd' : reader_bytes (rd ++ rd') = reader_bytes rd ++ reader_bytes rd'.
Proof. induction rd as [|[b|e|] rd IH]; simpl; [done| |done..]. by rewrite IH, app_assoc. Qed.

Lemma clean_size rd : clean rd -> reader_size rd = length (reader_bytes rd).
Proof.
  induction 1 as [|[b|e|] rd Hev _ IH]; simpl; [done| |done..]. rewrite length_app. lia.
Qed.

Lemma position_app_r {A} (p : A -> bool) l l' :
  position p l = None -> position p (l ++ l') = (fun i => length l + i)%nat <$> position p l'.
Proof.
  induction l as [|a l IH]; simpl.
  - intros _. by destruct (position p l').
  - destruct (p a); [done|]. destruct (position p l); [done|]. intros _.
    rewrite IH by done. by destruct (position p l').
Qed.

Lemma position_app_l {A} (p : A -> bool) l l' i :
  position p l = Some i -> position p (l ++ l') = Some i.
Proof.
  revert i. induction l as [|a l IH]; intros i; simpl; [done|].
  destruct (p a); [done|]. destruct (position p l) as [j|]; [|done].
  intros [= <-]. by rewrite (IH j eq_refl).
Qed.

(** The line that starts a byte string: up to and with the first newline, or all. *)
Definition first_line (bs : bytes) : bytes :=
  match position (Z.eqb nl) bs with Some i => take (S i) bs | None => bs end.
Definition after_line (bs : bytes) : bytes :=
  match position (Z.eqb nl) bs with Some i => drop (S i) bs | None => [] end.

Lemma first_after_line bs : first_line bs ++ after_line bs = bs.
Proof.
  unfold first_line, after_line. destruct (position _ bs); [apply take_drop | apply app_nil_r].
Qed.

Lemma first_line_cons_nonempty b bs : first_line (b :: bs) <> [].
Proof. unfold first_line. by destruct (position _ (b :: bs)). Qed.

Lemma first_line_app_None b bs :
  position (Z.eqb nl) b = None -> first_line (b ++ bs) = b ++ first_line bs.
Proof.
  intros Hpos. unfold first_line. rewrite (position_app_r _ _ bs Hpos).
  destruct (position _ bs) as [j|]; [|done].
  cbn [fmap option_fmap option_map]. rewrite <- Nat.add_succ_r. apply take_app_add.
Qed.

Lemma after_line_app_None b bs :
  position (Z.eqb nl) b = None -> after_line (b ++ bs) = after_line bs.
Proof.
  intros Hpos. unfold after_line. rewrite (position_app_r _ _ bs Hpos).
  destruct (position _ bs) as [j|]; [|done].
  cbn [fmap option_fmap option_map]. rewrite <- Nat.add_succ_r. apply drop_app_add.
Qed.

(** On a reader where nothing goes wrong, the outcome does not depend on how the bytes
    are cut into chunks. *)
Lemma read_line_loop_clean rd buf start max_bytes :
  clean rd ->
  let bs := reader_bytes rd in
  if bool_decide (bs <> []) && (max_bytes <? zlen buf - start + zlen (first_line bs))
  then exists rd' buf', read_line_loop rd buf start max_bytes =
         (InTime (Err ChimneyError.SmtpLineTooLong), rd', buf') /\ clean rd' /\
         reader_bytes rd' `suffix_of` bs
  else exists rd', read_line_loop rd buf start max_bytes = (InTime (Ok tt), rd', buf ++ first_line bs)
         /\ clean rd' /\ reader_bytes rd' = after_line bs.
Proof.
  intros Hc. revert buf. induction Hc as [|ev rd Hev Hc IH]; intros buf; simpl.
  { exists []. rewrite app_nil_r. split_and!; [done|constructor|done]. }
  destruct ev as [b|e|]; [|done..]. destruct b as [|c b]; [apply IH|].
  remember (c :: b) as b' eqn:Hb'.
  rewrite (bool_decide_eq_true_2 (b' ++ reader_bytes rd <> [])) by by subst.
  cbn [andb].
  destruct (position (Z.eqb nl) b') as [i|] eqn:Hpos.
  - pose proof (position_lt _ _ _ Hpos) as Hlt.
    unfold first_line, after_line. rewrite (position_app_l _ _ (reader_bytes rd) _ Hpos).
    rewrite take_app_le by lia. rewrite length_take, Nat.min_l by lia.
    case_match; simpl_bool.
    + exists (Chunk b' :: rd), buf. split_and!; [done|by constructor|done].
    + exists (Chunk (drop (S i) b') :: rd). split_and!; [done|by constructor|].
      cbn [reader_bytes]. by rewrite drop_app_le by lia.
  - rewrite (first_line_app_None _ _ Hpos), (after_line_app_None _ _ Hpos).
    specialize (IH (buf ++ b')). rewrite !length_app, !Nat2Z.inj_add in *.
    destruct (Z.ltb_spec max_bytes (zlen buf - start + zlen b')) as [Hgt|Hle].
    + rewrite (proj2 (Z.ltb_lt _ _)) by lia.
      exists (Chunk b' :: rd), buf. split_and!; [done|by constructor|done].
    + set (total := zlen buf - start + (zlen b' + zlen (first_line (reader_bytes rd)))).
      assert (zlen buf + zlen b' - start + zlen (first_line (reader_bytes rd)) = total) as Ht by lia.
      cbv zeta in IH. rewrite Ht in IH.
      destruct (bool_decide_reflect (reader_bytes rd <> [])) as [Hne|Hnil]; cbn [andb] in IH.
      * destruct (max_bytes <? total).
        -- destruct IH as (rd' & buf' & Hr & Hcl & Hsuf). exists rd', buf'.
           split_and!; [done..|by apply suffix_app_r].
        -- destruct IH as (rd' & Hr & Hcl & Hb). exists rd'. by rewrite Hr, <- app_assoc.
      * destruct IH as (rd' & Hr & Hcl & Hb).
        destruct (reader_bytes rd); [|by destruct Hnil].
        rewrite (proj2 (Z.ltb_ge _ _)) by (unfold total, first_line; simpl; lia).
        exists rd'. by rewrite Hr, <- app_assoc.
Qed.

Lemma read_line_limited_bytes_clean rd max_bytes :
  clean rd ->
  let bs := reader_bytes rd in
  if bool_decide (bs <> []) && (max_bytes <? zlen (first_line bs))
  then exists rd' buf', read_line_limited_bytes rd [] max_bytes =
         (InTime (Err ChimneyError.SmtpLineTooLong), rd', buf') /\ clean rd' /\
         reader_bytes rd' `suffix_of` bs
  else exists rd', read_line_limited_bytes rd [] max_bytes =
         (InTime (Ok (zlen (first_line bs))), rd', first_line bs)
         /\ clean rd' /\ reader_bytes rd' = after_line bs.
Proof.
  intros Hc bs. pose proof (read_line_loop_clean rd [] 0 max_bytes Hc) as H. cbv zeta in H.
  unfold read_line_limited_bytes. change (zlen []) with 0 in *. subst bs. cbn [Z.sub Z.add Z.opp] in H.
  destruct (_ && _).
  - destruct H as (rd' & buf' & -> & Hcl & Hs). exists rd', buf'. by split_and!.
  - destruct H as (rd' & -> & Hcl & Hs). exists rd'. split_and!; [|done..]. cbn [app].
    by rewrite Z.sub_0_r.
Qed.

(** Reading takes bytes from the reader into the buffer, and never more than the cap
    into the buffer, whatever the peer does. *)
Lemma read_line_loop_bounds rd buf start max_bytes r rd' buf' :
  read_line_loop rd buf start max_bytes = (r, rd', buf') ->
  (length buf' + reader_size rd' <= length buf + reader_size rd)%nat /\
  (length buf <= length buf')%nat /\
  (zlen buf - start <= max_bytes -> zlen buf' - start <= max_bytes) /\
  (r = InTime (Err ChimneyError.SmtpLineTooLong) \/ r = InTime (Ok tt) \/ r = Elapsed
   \/ exists e, r = InTime (Err (ChimneyError.Io e))).
Proof.
  revert buf. induction rd as [|[b|e|] rd IH]; intros buf; simpl.
  - intros [= <- <- <-]. split_and!; auto; simpl; lia.
  - destruct b as [|c b]; [apply IH|]. remember (c :: b) as b' eqn:Hb'.
    destruct (position (Z.eqb nl) b') as [i|] eqn:Hpos.
    + pose proof (position_lt _ _ _ Hpos). case_match; simpl_bool; intros [= <- <- <-]; simpl.
      * split_and!; auto; lia.
      * rewrite length_app, length_take, length_drop. split_and!; auto; lia.
    + case_match; simpl_bool.
      * intros [= <- <- <-]. simpl. split_and!; auto; lia.
      * intros H1. apply IH in H1 as (H1 & H2 & H3 & H4).
        rewrite length_app in *. split_and!; auto; lia.
  - intros [= <- <- <-]. split_and!; eauto; simpl; lia.
  - intros [= <- <- <-]. split_and!; auto; simpl; lia.
Qed.

Lemma read_line_limited_bytes_bounds rd max_bytes r rd' line :
  read_line_limited_bytes rd [] max_bytes = (r, rd', line) ->
  (length line + reader_size rd' <= reader_size rd)%nat /\
  (0 <= max_bytes -> zlen line <= max_bytes) /\
  (forall n, r = InTime (Ok n) -> n = zlen line).
Proof.
  unfold read_line_limited_bytes. destruct (read_line_loop rd [] (zlen []) max_bytes) as [[r1 rd1] buf1] eqn:Hl.
  apply read_line_loop_bounds in Hl as (H1 & H2 & H3 & H4). intros [= <- <- <-].
  simpl in *. split_and!; [lia..|]. intros n. destruct r1 as [[]|]; intros [= <-]. lia.
Qed.

(** Every round of [read_data] takes at least one byte. *)
Lemma read_data_loop_total fuel rd data max_size :
  (reader_size rd < fuel)%nat ->
  exists r rd', read_data_loop fuel rd data max_size = Some (r, rd') /\
    (reader_size rd' <= reader_size rd)%nat.
Proof.
  revert rd data. induction fuel as [|fuel IH]; intros rd data Hf; [lia|].
  cbn [read_data_loop].
  destruct (read_line_limited_bytes rd [] _) as [[r rd1] line] eqn:Hl.
  apply read_line_limited_bytes_bounds in Hl as (H1 & _ & H3).
  assert (reader_size rd1 <= reader_size rd)%nat by lia.
  destruct r as [[n|e]|]; [|destruct e; eauto..|eauto].
  specialize (H3 n eq_refl). case_match; [eauto|]. simpl_bool.
  case_match; [eauto|]. case_match; [eauto|].
  destruct (IH rd1 (data ++ unstuff line)) as (r' & rd' & -> & Hs); [lia|].
  exists r', rd'. split; [done|]. lia.
Qed.

Lemma read_data_loop_more fuel fuel' rd data max_size o :
  read_data_loop fuel rd data max_size = Some o -> (fuel <= fuel')%nat ->
  read_data_loop fuel' rd data max_size = Some o.
Proof.
  revert fuel' rd data. induction fuel as [|fuel IH]; intros [|fuel'] rd data; [done|done|lia|].
  cbn [read_data_loop].
  destruct (read_line_limited_bytes rd [] _) as [[r rd1] line].
  destruct r as [[n|e]|]; [|done..]. case_match; [done|]. case_match; [done|].
  case_match; [done|]. intros H' Hle. apply IH; [done|lia].
Qed.

Lemma read_data_loop_bounded fuel rd data max_size data' rd' :
  zlen data <= max_size ->
  read_data_loop fuel rd data max_size = Some (Ok data', rd') -> zlen data' <= max_size.
Proof.
  revert rd data. induction fuel as [|fuel IH]; intros rd data Hd; [done|].
  cbn [read_data_loop].
  destruct (read_line_limited_bytes rd [] _) as [[r rd1] line].
  destruct r as [[n|e]|]; [|by destruct e..|done].
  case_match; [done|]. case_match; [by intros [= <- <-]|].
  case_match; [done|]. simpl_bool. apply IH. rewrite length_app. lia.
Qed.

(** ** Sending: what a client writes after 354

    A client doubles a leading dot; a line ends in its only newline. *)
Definition stuff (line : bytes) : bytes :=
  if starts_with [dot] line then dot :: line else line.

Definition is_line (line : bytes) : Prop := exists w, line = w ++ [nl] /\ nl ∉ w.

Lemma starts_with_dot a line : starts_with [dot] (a :: line) = (dot =? a).
Proof. unfold starts_with. cbn [strip_prefix]. by destruct (dot =? a). Qed.

Lemma starts_with_dot_dot a line : starts_with [dot; dot] (a :: line) = (dot =? a) && starts_with [dot] line.
Proof. unfold starts_with. cbn [strip_prefix]. by destruct (dot =? a), line. Qed.

Lemma unstuff_stuff line : unstuff (stuff line) = line.
Proof.
  unfold unstuff, stuff. destruct line as [|a line]; [done|].
  rewrite starts_with_dot. destruct (Z.eqb_spec dot a) as [<-|Hne].
  - by rewrite starts_with_dot_dot, starts_with_dot, Z.eqb_refl.
  - by rewrite starts_with_dot_dot, (proj2 (Z.eqb_neq dot a) Hne).
Qed.

Lemma stuff_not_terminator line : is_terminator (stuff line) = false.
Proof.
  unfold is_terminator, stuff. destruct line as [|a line]; [done|].
  rewrite starts_with_dot. destruct (Z.eqb_spec dot a) as [<-|Hne];
    apply orb_false_iff; split; apply bool_decide_eq_false; try done; by intros [= -> _].
Qed.

Lemma is_line_stuff line : is_line line -> is_line (stuff line).
Proof.
  intros (w & -> & Hw). unfold stuff. case_match; [|by exists w].
  exists (dot :: w). split; [done|]. apply not_elem_of_cons. done.
Qed.

Lemma length_stuff line : zlen line <= zlen (stuff line) <= zlen line + 1.
Proof. unfold stuff. case_match; simpl; lia. Qed.

Lemma position_nl w rest : nl ∉ w -> position (Z.eqb nl) (w ++ nl :: rest) = Some (length w).
Proof. apply find_char_app. Qed.

Lemma first_line_app line rest : is_line line -> first_line (line ++ rest) = line.
Proof.
  intros (w & -> & Hw). unfold first_line. rewrite <- app_assoc. cbn [app].
  rewrite position_nl by done. replace (S (length w)) with (length (w ++ [nl])) by (rewrite length_app; simpl; lia).
  change (w ++ nl :: rest) with (w ++ [nl] ++ rest). rewrite app_assoc. apply take_app_length.
Qed.

Lemma after_line_app line rest : is_line line -> after_line (line ++ rest) = rest.
Proof.
  intros Hl. apply (app_inv_head line).
  rewrite <- (first_line_app line rest Hl) at 1. apply first_after_line.
Qed.

Lemma is_line_nonempty line : is_line line -> line <> [].
Proof. intros (w & -> & _). by destruct w. Qed.

Lemma first_line_no_nl bs : nl ∉ bs -> first_line bs = bs /\ after_line bs = [].
Proof.
  intros H. unfold first_line, after_line.
  assert (position (Z.eqb nl) bs = None) as ->; [by apply find_char_None|done].
Qed.

#[export] Hint Resolve is_line_stuff is_line_nonempty stuff_not_terminator : chimney.
#[export] Hint Rewrite unstuff_stuff stuff_not_terminator : chimney.

Lemma remaining_exact (data : bytes) max_size :
  zlen data <= max_size -> is_u64 (max_size + 4) ->
  saturating_add (saturating_sub max_size (zlen data)) 4 = max_size - zlen data + 4.
Proof.
  unfold is_u64, saturating_add, saturating_sub. intros H [H1 H2].
  rewrite (sat_u64_id (max_size - _)) by (unfold is_u64; lia).
  apply sat_u64_id. unfold is_u64. lia.
Qed.

(** One stuffed line is read and unstuffed, or the message is too large. *)
Lemma read_data_round fuel rd data max_size line rest :
  clean rd -> reader_bytes rd = stuff line ++ rest -> is_line line ->
  zlen data <= max_size -> is_u64 (max_size + 4) ->
  if zlen data + zlen line <=? max_size
  then exists rd', read_data_loop (S fuel) rd data max_size = read_data_loop fuel rd' (data ++ line) max_size
         /\ clean rd' /\ reader_bytes rd' = rest
  else exists rd', read_data_loop (S fuel) rd data max_size = Some (Err ChimneyError.SmtpSizeExceeded, rd').
Proof.
  intros Hc Hb Hline Hd Hmax. cbn [read_data_loop]. rewrite remaining_exact by done.
  pose proof (read_line_limited_bytes_clean rd (max_size - zlen data + 4) Hc) as H.
  cbv zeta in H. rewrite Hb in H. rewrite first_line_app, after_line_app in H by auto with chimney.
  pose proof (length_stuff line). pose proof (is_line_nonempty _ (is_line_stuff _ Hline)) as Hne.
  rewrite bool_decide_eq_true_2 in H by (by intros [??]%app_nil). cbn [andb] in H.
  destruct (Z.ltb_spec (max_size - zlen data + 4) (zlen (stuff line))) as [Hgt|Hle].
  - rewrite (proj2 (Z.leb_gt _ _)) by lia. destruct H as (rd' & buf' & -> & _). eauto.
  - destruct H as (rd' & -> & Hcl & Hr).
    rewrite (proj2 (Z.eqb_neq _ 0)) by (destruct (stuff line); simpl; [done|lia]).
    rewrite stuff_not_terminator, unstuff_stuff.
    destruct (Z.leb_spec (zlen data + zlen line) max_size).
    + rewrite (proj2 (Z.ltb_ge _ _)) by lia. exists rd'. by split_and!.
    + rewrite (proj2 (Z.ltb_lt _ _)) by lia. eauto.
Qed.

(** The line that takes the message over the limit is consumed when it fits the slack of
    its read; what follows it stays unread. *)
Lemma read_data_over fuel rd data max_size line rest :
  clean rd -> reader_bytes rd = stuff line ++ rest -> is_line line ->
  zlen data <= max_size -> is_u64 (max_size + 4) ->
  max_size < zlen data + zlen line -> zlen (stuff line) <= max_size - zlen data + 4 ->
  exists rd', read_data_loop (S fuel) rd data max_size = Some (Err ChimneyError.SmtpSizeExceeded, rd') /\
    clean rd' /\ reader_bytes rd' = rest.
Proof.
  intros Hc Hb Hline Hd Hmax Hover Hfits. cbn [read_data_loop]. rewrite remaining_exact by done.
  pose proof (read_line_limited_bytes_clean rd (max_size - zlen data + 4) Hc) as H.
  cbv zeta in H. rewrite Hb in H. rewrite first_line_app, after_line_app in H by auto with chimney.
  pose proof (is_line_nonempty _ (is_line_stuff _ Hline)) as Hne.
  rewrite (proj2 (Z.ltb_ge _ _)), andb_false_r in H by lia.
  destruct H as (rd' & -> & Hcl & Hr).
  rewrite (proj2 (Z.eqb_neq _ 0)) by (destruct (stuff line); simpl; [done|lia]).
  rewrite stuff_not_terminator, unstuff_stuff. rewrite (proj2 (Z.ltb_lt _ _)) by lia. eauto.
Qed.

Lemma read_data_lines ls fuel rd data max_size rest :
  clean rd -> reader_bytes rd = concat (stuff <$> ls) ++ rest -> Forall is_line ls ->
  zlen data <= max_size -> is_u64 (max_size + 4) -> (length ls <= fuel)%nat ->
  if zlen data + zlen (concat ls) <=? max_size
  then exists rd', read_data_loop fuel rd data max_size
                   = read_data_loop (fuel - length ls) rd' (data ++ concat ls) max_size
         /\ clean rd' /\ reader_bytes rd' = rest
  else exists rd', read_data_loop fuel rd data max_size = Some (Err ChimneyError.SmtpSizeExceeded, rd').
Proof.
  intros Hc Hb Hls. revert fuel rd data Hc Hb.
  induction Hls as [|l ls Hl Hls IH]; intros fuel rd data Hc Hb Hd Hmax Hf.
  { rewrite (proj2 (Z.leb_le _ _)) by (simpl; lia).
    exists rd. simpl. by rewrite Nat.sub_0_r, app_nil_r. }
  destruct fuel as [|fuel]; [simpl in Hf; lia|]. csimpl in Hb. rewrite <- app_assoc in Hb.
  pose proof (read_data_round fuel rd data max_size l _ Hc Hb Hl Hd Hmax) as H.
  cbn [concat length]. rewrite length_app, Nat2Z.inj_add.
  destruct (Z.leb_spec (zlen data + zlen l) max_size) as [Hle|Hgt].
  - destruct H as (rd1 & -> & Hc1 & Hb1).
    specialize (IH fuel rd1 (data ++ l) Hc1 Hb1). rewrite length_app, Nat2Z.inj_add in IH.
    simpl in Hf. specialize (IH Hle Hmax ltac:(lia)). rewrite <- Z.add_assoc in IH.
    cbn [Nat.sub]. by rewrite <- app_assoc in IH.
  - rewrite (proj2 (Z.leb_gt _ _)) by lia. destruct H as (rd1 & ->). eauto.
Qed.

(** What ends the DATA block: the terminator line, or the end of the stream. *)
Lemma read_data_terminator fuel rd data max_size t rest :
  clean rd -> t = [dot; cr; nl] \/ t = [dot; nl] -> reader_bytes rd = t ++ rest ->
  zlen data <= max_size -> is_u64 (max_size + 4) ->
  exists rd', read_data_loop (S fuel) rd data max_size = Some (Ok data, rd') /\ clean rd' /\ reader_bytes rd' = rest.
Proof.
  intros Hc Ht Hb Hd Hmax. cbn [read_data_loop]. rewrite remaining_exact by done.
  pose proof (read_line_limited_bytes_clean rd (max_size - zlen data + 4) Hc) as H.
  assert (is_line t) as Hlt.
  { destruct Ht as [-> | ->]; [exists [dot; cr] | exists [dot]]; split; try done;
      by repeat (apply not_elem_of_cons; split; [done|]); apply not_elem_of_nil. }
  assert (2 <= zlen t <= 3) by (destruct Ht as [-> | ->]; simpl; lia).
  assert (is_terminator t = true) as Hterm by (destruct Ht as [-> | ->]; done).
  cbv zeta in H. rewrite Hb in H. rewrite first_line_app, after_line_app in H by done.
  rewrite (proj2 (Z.ltb_ge _ _)), andb_false_r in H by lia.
  destruct H as (rd' & -> & Hcl & Hr). rewrite (proj2 (Z.eqb_neq _ 0)) by lia. rewrite Hterm. eauto.
Qed.

Lemma read_data_cut fuel rd data max_size partial :
  clean rd -> nl ∉ partial -> reader_bytes rd = partial ->
  zlen data <= max_size -> is_u64 (max_size + 4) ->
  exists rd', read_data_loop (S (S fuel)) rd data max_size
    = Some (Err (if zlen data + zlen (unstuff partial) <=? max_size
                 then ChimneyError.SmtpDataIncomplete else ChimneyError.SmtpSizeExceeded), rd').
Proof.
  intros Hc Hp Hb Hd Hmax. remember (S fuel) as n eqn:Hn. cbn [read_data_loop]. rewrite remaining_exact by done.
  destruct (first_line_no_nl partial Hp) as [Hf Ha].
  pose proof (read_line_limited_bytes_clean rd (max_size - zlen data + 4) Hc) as H.
  cbv zeta in H. rewrite Hb, Hf, Ha in H.
  assert (zlen (unstuff partial) <= zlen partial <= zlen (unstuff partial) + 1) as Hu.
  { unfold unstuff. destruct (starts_with _ _); [rewrite length_drop|]; lia. }
  destruct partial as [|a p] eqn:Hpartial.
  - destruct H as (rd' & -> & _). simpl. rewrite (proj2 (Z.leb_le _ _)) by (simpl; lia). eauto.
  - rewrite <- Hpartial in *. rewrite bool_decide_eq_true_2 in H by by subst. cbn [andb] in H.
    destruct (Z.ltb_spec (max_size - zlen data + 4) (zlen partial)) as [Hgt|Hle].
    + destruct H as (rd' & buf' & -> & _). rewrite (proj2 (Z.leb_gt _ _)) by lia. eauto.
    + destruct H as (rd' & -> & Hc' & Hr').
      rewrite (proj2 (Z.eqb_neq _ 0)) by (subst; simpl; lia).
      assert (is_terminator partial = false) as ->.
      { apply orb_false_iff. split; apply bool_decide_eq_false; intros ->; apply Hp;
          repeat (first [apply list_elem_of_here | apply list_elem_of_further]). }
      destruct (Z.leb_spec (zlen data + zlen (unstuff partial)) max_size) as [Hok|Hbig].
      * rewrite (proj2 (Z.ltb_ge _ _)) by lia. subst n. cbn [read_data_loop].
        pose proof (read_line_limited_bytes_clean rd' (saturating_add (saturating_sub max_size (zlen (data ++ unstuff partial))) 4) Hc') as H'.
        cbv zeta in H'. rewrite Hr' in H'. destruct H' as (rd2 & -> & _). simpl. eauto.
      * rewrite (proj2 (Z.ltb_lt _ _)) by lia. eauto.
Qed.

Lemma stuffed_length ls : Forall is_line ls -> (length ls <= length (concat (stuff <$> ls)))%nat.
Proof.
  induction 1 as [|l ls Hl Hls IH]; csimpl; [lia|]. rewrite length_app.
  pose proof (is_line_nonempty _ (is_line_stuff _ Hl)). destruct (stuff l); simpl; [done|lia].
Qed.

Lemma read_data_lines_terminated ls t rest rd max_size :
  clean rd -> Forall is_line ls -> t = [dot; cr; nl] \/ t = [dot; nl] ->
  reader_bytes rd = concat (stuff <$> ls) ++ t ++ rest -> 0 <= max_size <= u64_max - 4 ->
  if zlen (concat ls) <=? max_size
  then exists rd', read_data rd max_size = (Ok (from_utf8_lossy (concat ls)), rd') /\
         clean rd' /\ reader_bytes rd' = rest
  else exists rd', read_data rd max_size = (Err ChimneyError.SmtpSizeExceeded, rd').
Proof.
  intros Hc Hls Ht Hb Hmax.
  assert (is_u64 (max_size + 4)) by (unfold is_u64; lia).
  unfold read_data. rewrite (clean_size rd Hc), Hb.
  pose proof (stuffed_length ls Hls) as Hlen. assert (0 < length t)%nat by (destruct Ht as [-> | ->]; simpl; lia).
  remember (length (concat (stuff <$> ls) ++ t ++ rest)) as n eqn:Hn. rewrite !length_app in Hn.
  pose proof (read_data_lines ls (S n) rd [] max_size (t ++ rest) Hc Hb Hls) as Hread.
  change (zlen []) with 0 in Hread. rewrite Z.add_0_l in Hread. specialize (Hread ltac:(lia) ltac:(done) ltac:(lia)).
  destruct (Z.leb_spec (zlen (concat ls)) max_size).
  - destruct Hread as (rd1 & -> & Hc1 & Hb1). rewrite Nat.sub_succ_l by lia.
    destruct (read_data_terminator (n - length ls) rd1 (concat ls) max_size t rest Hc1 Ht Hb1)
      as (rd' & Hr & Hc' & Hr'); [done..|].
    rewrite app_nil_l, Hr. eauto.
  - destruct Hread as (rd1 & ->). eauto.
Qed.

Lemma read_data_oversized ls line rest rd max_size :
  clean rd -> Forall is_line ls -> is_line line ->
  reader_bytes rd = concat (stuff <$> ls) ++ stuff line ++ rest -> 0 <= max_size <= u64_max - 4 ->
  zlen (concat ls) <= max_size < zlen (concat ls) + zlen line ->
  zlen (stuff line) <= max_size - zlen (concat ls) + 4 ->
  exists rd', read_data rd max_size = (Err ChimneyError.SmtpSizeExceeded, rd') /\ clean rd' /\ reader_bytes rd' = rest.
Proof.
  intros Hc Hls Hline Hb Hmax Hover Hfits.
  assert (is_u64 (max_size + 4)) by (unfold is_u64; lia).
  unfold read_data. rewrite (clean_size rd Hc), Hb. pose proof (stuffed_length ls Hls) as Hlen.
  remember (length (concat (stuff <$> ls) ++ stuff line ++ rest)) as n eqn:Hn. rewrite length_app in Hn.
  pose proof (read_data_lines ls (S n) rd [] max_size (stuff line ++ rest) Hc Hb Hls) as Hread.
  change (zlen []) with 0 in Hread. rewrite Z.add_0_l in Hread. specialize (Hread ltac:(lia) ltac:(done) ltac:(lia)).
  rewrite (proj2 (Z.leb_le _ _)) in Hread by lia. destruct Hread as (rd1 & -> & Hc1 & Hb1).
  rewrite Nat.sub_succ_l by lia. rewrite app_nil_l.
  destruct (read_data_over (n - length ls) rd1 (concat ls) max_size line rest Hc1 Hb1 Hline)
    as (rd' & Hr & Hc' & Hr'); [lia|done|lia|lia|]. rewrite Hr. eauto.
Qed.
