(* ===== verification/ReaderProps.v ===== *)
(** * Properties of line and DATA reading

    The cap bounds the memory of a line, the cut into TCP segments does not matter,
    reading a DATA block always ends, and what a client sends is what is read. *)

From S2P Require Import Prelude RustStr Utf8 Error Reader.

(** a command line is read the same however TCP cuts the bytes: two connections
    on which nothing goes wrong and that carry the same bytes give the same answer and
    the same text, and on success leave the same bytes to read. *)
Theorem read_line_chunking_irrelevant (rd1 rd2 : list io_event) (buf : str) (max_bytes : Z)
    (Hc1 : clean rd1) (Hc2 : clean rd2) (Hb : reader_bytes rd1 = reader_bytes rd2) :
  let '(r1, rd1', t1) := read_line_limited rd1 buf max_bytes in
  let '(r2, rd2', t2) := read_line_limited rd2 buf max_bytes in
  r1 = r2 /\ t1 = t2 /\ (is_Ok (match r1 with InTime r => r | Elapsed => Err ChimneyError.QueueFull end) ->
    reader_bytes rd1' = reader_bytes rd2' /\ clean rd1' /\ clean rd2').
Proof.
  pose proof (read_line_limited_bytes_clean rd1 max_bytes Hc1) as H1.
  pose proof (read_line_limited_bytes_clean rd2 max_bytes Hc2) as H2.
  cbv zeta in *. unfold read_line_limited. rewrite Hb in H1.
  destruct (_ && _).
  - destruct H1 as (? & ? & -> & _), H2 as (? & ? & -> & _). split_and!; [done..|]. by intros [? ?].
  - destruct H1 as (? & -> & ? & ?), H2 as (? & -> & ? & ?). destruct (from_utf8 _).
    + split_and!; [done..|]. intros _. split_and!; congruence.
    + split_and!; [done..|]. by intros [? ?].
Qed.

Definition split_noop : list io_event := [Chunk (lit "NO"); Chunk []; Chunk (lit "OP" ++ [13]); Chunk ([10] ++ lit "QUIT")].
Definition whole_noop : list io_event := [Chunk (lit "NOOP" ++ [13; 10] ++ lit "QUIT")].

Lemma read_line_chunking_irrelevant_witness :
  let '(r1, rd1', t1) := read_line_limited split_noop [] 4096 in
  let '(r2, rd2', t2) := read_line_limited whole_noop [] 4096 in
  r1 = r2 /\ t1 = t2 /\ (is_Ok (match r1 with InTime r => r | Elapsed => Err ChimneyError.QueueFull end) ->
    reader_bytes rd1' = reader_bytes rd2' /\ clean rd1' /\ clean rd2').
Proof.
  apply (read_line_chunking_irrelevant split_noop whole_noop [] 4096).
  - repeat constructor.
  - repeat constructor.
  - reflexivity.
Defined.

(** whatever the peer sends, stalls or breaks, [read_line_limited_bytes] never
    buffers more than [max_bytes] bytes, takes no byte it does not return or drop with
    the connection, and the count it answers is the length of the line. *)
Theorem read_line_memory_bound (rd : list io_event) (max_bytes : Z) (Hmax : 0 <= max_bytes) :
  let '(r, rd', line) := read_line_limited_bytes rd [] max_bytes in
  zlen line <= max_bytes /\ (length line + reader_size rd' <= reader_size rd)%nat /\
  forall n, r = InTime (Ok n) -> n = zlen line.
Proof.
  destruct (read_line_limited_bytes rd [] max_bytes) as [[r rd'] line] eqn:Hl.
  apply read_line_limited_bytes_bounds in Hl as (H1 & H2 & H3). auto.
Qed.

Lemma read_line_memory_bound_witness :
  let '(r, rd', line) := read_line_limited_bytes [Chunk (repeat 65 3); Chunk (repeat 65 9); Stall] [] 4 in
  zlen line <= 4 /\ (length line + reader_size rd' <= 13)%nat /\ forall n, r = InTime (Ok n) -> n = zlen line.
Proof. apply (read_line_memory_bound [Chunk (repeat 65 3); Chunk (repeat 65 9); Stall] 4). lia. Defined.

(** reading a DATA block ends after at most one round per byte received, whatever
    the peer does, and the data it accepts is at most [max_size] bytes long. *)
Theorem read_data_ends_within_size (rd : list io_event) (max_size : Z) (Hmax : 0 <= max_size) :
  exists r rd',
    (forall fuel, (reader_size rd < fuel)%nat -> read_data_loop fuel rd [] max_size = Some (r, rd')) /\
    read_data rd max_size = (from_utf8_lossy <$> r, rd') /\
    (reader_size rd' <= reader_size rd)%nat /\
    (forall data, r = Ok data -> zlen data <= max_size).
Proof.
  destruct (read_data_loop_total (S (reader_size rd)) rd [] max_size) as (r & rd' & Hr & Hs); [lia|].
  exists r, rd'. split_and!; [|by unfold read_data; rewrite Hr; destruct r|done|].
  - intros fuel Hf. by eapply read_data_loop_more.
  - intros data ->. eapply read_data_loop_bounded; [|done]. done.
Qed.

Lemma read_data_ends_within_size_witness :
  exists r rd',
    (forall fuel, (9 < fuel)%nat -> read_data_loop fuel [Chunk (lit "hello"); Stall; Chunk (lit "...")] [] 3 = Some (r, rd')) /\
    read_data [Chunk (lit "hello"); Stall; Chunk (lit "...")] 3 = (from_utf8_lossy <$> r, rd') /\
    (reader_size rd' <= 9)%nat /\ (forall data, r = Ok data -> zlen data <= 3).
Proof. apply (read_data_ends_within_size [Chunk (lit "hello"); Stall; Chunk (lit "...")] 3). lia. Defined.

(** C25: what a client sends is what is read.  A client that doubles the leading dots
    of its lines and ends them with the terminator gets its lines back, byte for byte
    (decoded lossily as UTF-8), when they fit in [max_size], whatever the cut into TCP
    segments, and every byte after the terminator is left for the next command; when
    they do not fit the message is refused with [SmtpSizeExceeded]. *)
Theorem read_data_roundtrip (ls : list bytes) (t rest : bytes) (rd : list io_event) (max_size : Z)
    (Hc : clean rd) (Hls : Forall is_line ls) (Ht : t = [dot; cr; nl] \/ t = [dot; nl])
    (Hb : reader_bytes rd = concat (stuff <$> ls) ++ t ++ rest)
    (Hmax : 0 <= max_size <= u64_max - 4) :
  if zlen (concat ls) <=? max_size
  then exists rd', read_data rd max_size = (Ok (from_utf8_lossy (concat ls)), rd') /\
         clean rd' /\ reader_bytes rd' = rest
  else exists rd', read_data rd max_size = (Err ChimneyError.SmtpSizeExceeded, rd').
Proof.
  by apply (read_data_lines_terminated ls t).
Qed.

Definition example_lines : list bytes := [lit "..dots" ++ [cr; nl]; lit "." ++ [cr; nl]; [cr; nl]; lit "plain" ++ [nl]].
Definition example_data : list io_event :=
  (fun b => Chunk [b]) <$> concat (stuff <$> example_lines) ++ [dot; cr; nl] ++ lit "QUIT".

Lemma read_data_roundtrip_witness :
  zlen (concat example_lines) <= 100 /\
  exists rd', read_data example_data 100 = (Ok (from_utf8_lossy (concat example_lines)), rd') /\
         clean rd' /\ reader_bytes rd' = lit "QUIT".
Proof.
  split; [vm_compute; discriminate|].
  apply (read_data_roundtrip example_lines [dot; cr; nl] (lit "QUIT") example_data 100).
  - vm_compute. repeat constructor.
  - repeat first [apply List.Forall_nil | apply List.Forall_cons].
    + exists (lit "..dots" ++ [cr]). split; [reflexivity|]. by_decide.
    + exists (lit "." ++ [cr]). split; [reflexivity|]. by_decide.
    + exists [cr]. split; [reflexivity|]. by_decide.
    + exists (lit "plain"). split; [reflexivity|]. by_decide.
  - by left.
  - reflexivity.
  - unfold u64_max. lia.
Defined.

(** a client that disconnects inside the DATA block never gets a truncated message
    accepted: after any number of complete lines and a partial one that fit in
    [max_size], the answer is [SmtpDataIncomplete]. *)
Theorem read_data_truncated (ls : list bytes) (partial : bytes) (rd : list io_event) (max_size : Z)
    (Hc : clean rd) (Hls : Forall is_line ls) (Hp : nl ∉ partial)
    (Hb : reader_bytes rd = concat (stuff <$> ls) ++ partial)
    (Hmax : zlen (concat ls) + zlen partial <= max_size <= u64_max - 4) :
  exists rd', read_data rd max_size = (Err ChimneyError.SmtpDataIncomplete, rd').
Proof.
  assert (is_u64 (max_size + 4)) by (unfold is_u64; lia).
  unfold read_data.
  destruct (read_data_loop_total (S (reader_size rd)) rd [] max_size) as (r & rd' & Hr & _); [lia|].
  assert (read_data_loop (S (S (S (reader_size rd)))) rd [] max_size = Some (r, rd')) as Hr3
    by (eapply read_data_loop_more; [done|lia]).
  rewrite Hr. revert Hr3. rewrite (clean_size rd Hc), Hb.
  pose proof (stuffed_length ls Hls) as Hlen.
  remember (length (concat (stuff <$> ls) ++ partial)) as n eqn:Hn. rewrite length_app in Hn.
  pose proof (read_data_lines ls (S (S (S n))) rd [] max_size partial Hc Hb Hls) as Hread.
  change (zlen []) with 0 in Hread. rewrite Z.add_0_l in Hread. specialize (Hread ltac:(lia) ltac:(done) ltac:(lia)).
  rewrite (proj2 (Z.leb_le _ _)) in Hread by lia.
  destruct Hread as (rd1 & -> & Hc1 & Hb1).
  replace (S (S (S n)) - length ls)%nat with (S (S (S n - length ls))) by lia. rewrite app_nil_l.
  destruct (read_data_cut (S n - length ls) rd1 (concat ls) max_size partial) as (rd2 & ->); try done; [lia|].
  assert (zlen (unstuff partial) <= zlen partial).
  { unfold unstuff. destruct (starts_with _ _); [rewrite length_drop|]; lia. }
  rewrite (proj2 (Z.leb_le _ _)) by lia. intros [= <- <-]. eauto.
Qed.

Lemma read_data_truncated_witness :
  exists rd', read_data [Chunk (lit "a" ++ [cr; nl]); Chunk [dot]; Chunk [cr]] 10 = (Err ChimneyError.SmtpDataIncomplete, rd').
Proof.
  apply (read_data_truncated [lit "a" ++ [cr; nl]] [dot; cr] [Chunk (lit "a" ++ [cr; nl]); Chunk [dot]; Chunk [cr]] 10).
  - repeat constructor.
  - apply List.Forall_cons; [|apply List.Forall_nil]. exists (lit "a" ++ [cr]). split; [reflexivity|]. by_decide.
  - by_decide.
  - reflexivity.
  - split; [vm_compute; discriminate | unfold u64_max; lia].
Defined.
