(* ===== verification/Address.v ===== *)
(** * Envelope addresses ([src/src/smtp/server.rs], lines 341-389)

    The parsers of the [MAIL FROM:] and [RCPT TO:] commands.  [validate_email] is the
    [ValidateEmail] trait of the [validator] crate; nothing is assumed of it. *)

From S2P Require Import Prelude RustStr Unicode.

Definition colon : Z := 58.
Definition less_than : Z := 60.
Definition greater_than : Z := 62.

Definition extract_address_after_colon (line : str) : option str :=
  colon_pos ← find_char colon line;
  let rest := trim (drop (S colon_pos) line) in
  match strip_prefix [less_than] rest with
  | Some path => end_ ← find_char greater_than path; Some (take end_ path)
  | None => head (split_whitespace rest)
  end.

Section Address.
Variable validate_email : str -> bool.

Definition parse_mail_from (line : str) : option str :=
  let upper := to_uppercase line in
  rest ← trim_start <$> strip_prefix (lit "MAIL") upper;
  rest ← trim_start <$> strip_prefix (lit "FROM") rest;
  if negb (starts_with [colon] rest) then None
  else
    addr ← extract_address_after_colon line;
    if bool_decide (addr <> []) && negb (validate_email addr) then None
    else Some addr.

Definition parse_rcpt_to (line : str) : option str :=
  let upper := to_uppercase line in
  rest ← trim_start <$> strip_prefix (lit "RCPT") upper;
  rest ← trim_start <$> strip_prefix (lit "TO") rest;
  if negb (starts_with [colon] rest) then None
  else
    addr ← extract_address_after_colon line;
    if bool_decide (addr = []) || negb (validate_email addr) then None
    else Some addr.
End Address.

(** ** Lemmas *)

(** The 25 characters with the property White_Space. *)
Definition whitespace_chars : list Z :=
  [9; 10; 11; 12; 13; 32; 133; 160; 5760; 8192; 8193; 8194; 8195; 8196; 8197; 8198; 8199;
   8200; 8201; 8202; 8232; 8233; 8239; 8287; 12288].

Lemma is_whitespace_elem c : is_whitespace c = true <-> c ∈ whitespace_chars.
Proof.
  split.
  - intros H. unfold is_whitespace in H. unfold whitespace_chars.
    rewrite !elem_of_cons. rewrite !orb_true_iff, !andb_true_iff, !Z.leb_le, !Z.eqb_eq in H. lia.
  - intros H. assert (Forall (fun c => is_whitespace c = true) whitespace_chars) as Hall by by_decide.
    rewrite Forall_forall in Hall. by apply Hall.
Qed.

Lemma whitespace_uppercase c : is_whitespace c = true -> char_to_uppercase c = [c].
Proof.
  intros Hc%is_whitespace_elem.
  assert (Forall (fun c => char_to_uppercase c = [c]) whitespace_chars) as Hall by by_decide.
  rewrite Forall_forall in Hall. by apply Hall.
Qed.

Lemma spaces_uppercase w : spaces w -> to_uppercase w = w.
Proof.
  induction 1 as [|c w Hc _ IH]; [done|]. by rewrite to_uppercase_cons, whitespace_uppercase, IH.
Qed.

Lemma colon_uppercase s : colon ∈ s -> colon ∈ to_uppercase s.
Proof. intros H. unfold to_uppercase. apply list_elem_of_bind. exists colon. split; [left | done]. Qed.

(** A bracketed path after the first colon: what is inside the brackets. *)
Lemma extract_bracketed pre w a params :
  colon ∉ pre -> spaces w -> greater_than ∉ a ->
  extract_address_after_colon (pre ++ colon :: w ++ less_than :: a ++ greater_than :: params) = Some a.
Proof.
  intros Hpre Hw Ha. unfold extract_address_after_colon. rewrite find_char_app by done.
  cbn [mbind option_bind]. rewrite drop_app_ge by lia.
  replace (S (length pre) - length pre)%nat with 1%nat by lia.
  rewrite skipn_cons, drop_0.
  unfold trim. rewrite trim_start_spaces by done. rewrite trim_start_id by done.
  rewrite (app_comm_cons a (greater_than :: params) less_than : less_than :: a ++ _ = _).
  rewrite trim_end_stop by done. cbn [app].
  rewrite (strip_prefix_app [less_than] (a ++ greater_than :: trim_end params) : strip_prefix _ (_ :: _) = _).
  rewrite find_char_app by done. cbn [mbind option_bind]. by rewrite take_app_length.
Qed.

(** An address is a piece of what follows the first colon. *)
Lemma split_whitespace_infix s w : w ∈ split_whitespace s -> exists pre post, s = pre ++ w ++ post.
Proof.
  unfold split_whitespace. rewrite list_elem_of_filter. intros [_ Hw]. revert w Hw.
  assert (forall s, exists w ws, split is_whitespace s = w :: ws /\ (exists post, s = w ++ post) /\
    forall w', w' ∈ ws -> exists pre post, s = pre ++ w' ++ post) as Hsplit.
  { clear s. intros s. induction s as [|c s (w & ws & E & (post & Hp) & Hall)]; simpl.
    - exists [], []. split_and!; [done|by exists []|]. intros ? []%not_elem_of_nil.
    - rewrite E. destruct (is_whitespace c).
      + exists [], (w :: ws). split_and!; [done|by exists (c :: s)|].
        intros w' [->|Hw']%elem_of_cons; [exists [c], post; by rewrite Hp|].
        destruct (Hall _ Hw') as (p & q & ->). by exists (c :: p), q.
      + exists (c :: w), ws. split_and!; [done|exists post; by rewrite Hp|].
        intros w' Hw'. destruct (Hall _ Hw') as (p & q & Heq). exists (c :: p), q. by rewrite Heq. }
  destruct (Hsplit s) as (w & ws & -> & (post & Hp) & Hall).
  intros w' [->|Hw']%elem_of_cons; [by exists [], post | by apply Hall].
Qed.

Lemma trim_infix s : exists pre post, s = pre ++ trim s ++ post.
Proof.
  unfold trim, trim_start, trim_end, drop_while_end.
  destruct (drop_while_suffix is_whitespace s) as (k & Hk & _).
  destruct (drop_while_suffix is_whitespace (reverse (drop_while is_whitespace s))) as (k' & Hk' & _).
  exists k, (reverse k'). rewrite <- reverse_app, <- Hk', reverse_involutive. done.
Qed.

Lemma extract_address_infix line addr :
  extract_address_after_colon line = Some addr ->
  exists pre post, line = pre ++ colon :: post /\ colon ∉ pre /\ exists l r, post = l ++ addr ++ r.
Proof.
  unfold extract_address_after_colon. destruct (find_char colon line) as [i|] eqn:Hi; [|done].
  apply find_char_Some in Hi as [Heq Hni]. cbn [mbind option_bind]. intros H.
  exists (take i line), (drop (S i) line). split_and!; [done..|].
  destruct (trim_infix (drop (S i) line)) as (p & q & Hpq).
  remember (trim (drop (S i) line)) as rest eqn:Hrest. clear Hrest.
  assert (exists l r, rest = l ++ addr ++ r) as (l & r & ->).
  { destruct (strip_prefix [less_than] rest) as [path|] eqn:Hpath.
    - apply strip_prefix_Some in Hpath as ->.
      destruct (find_char greater_than path) as [j|] eqn:Hj; [|done].
      cbn [mbind option_bind] in H. injection H as <-.
      exists [less_than], (drop j path). by rewrite take_drop.
    - apply split_whitespace_infix. destruct (split_whitespace rest); [done|].
      injection H as ->. left. }
  exists (p ++ l), (r ++ q). rewrite Hpq. by rewrite !app_assoc.
Qed.

(** The header of a command: keyword, spaces, keyword, spaces, colon. *)
Definition header (k1 k2 pre : str) : Prop :=
  exists a w1 b w2, pre = a ++ w1 ++ b ++ w2 /\ to_uppercase a = k1 /\ to_uppercase b = k2 /\
    spaces w1 /\ spaces w2.

Lemma header_no_colon k1 k2 pre : header k1 k2 pre -> colon ∉ k1 -> colon ∉ k2 -> colon ∉ pre.
Proof.
  intros (a & w1 & b & w2 & -> & <- & <- & Hw1 & Hw2) H1 H2.
  assert (forall w, spaces w -> colon ∉ w) as Hsp.
  { intros w Hw Hin. unfold spaces in Hw. rewrite Forall_forall in Hw. by apply Hw in Hin. }
  rewrite !elem_of_app. intros [H|[H|[H|H]]]; [by apply colon_uppercase in H|by apply Hsp in H|
    by apply colon_uppercase in H|by apply Hsp in H].
Qed.

Lemma header_keywords k1 k2 c k2' pre rest :
  header k1 k2 pre -> k2 = c :: k2' -> is_whitespace c = false ->
  exists u, trim_start <$> strip_prefix k1 (to_uppercase (pre ++ colon :: rest)) = Some u /\
    trim_start <$> strip_prefix k2 u = Some (colon :: to_uppercase rest).
Proof.
  intros (a & w1 & b & w2 & -> & <- & Hb & Hw1 & Hw2) Hk Hc.
  rewrite <- !app_assoc, !to_uppercase_app, strip_prefix_app, Hb.
  rewrite !spaces_uppercase by done. eexists. split; [done|].
  rewrite trim_start_spaces by done. rewrite Hk. cbn [app]. rewrite trim_start_id by done.
  rewrite (app_comm_cons k2' _ c). rewrite strip_prefix_app. cbn [fmap option_fmap option_map].
  rewrite trim_start_spaces by done. rewrite to_uppercase_cons.
  change (char_to_uppercase colon) with [colon]. cbn [app]. by rewrite trim_start_id.
Qed.

Lemma parse_mail_from_Some v line addr :
  parse_mail_from v line = Some addr ->
  extract_address_after_colon line = Some addr /\ (addr = [] \/ v addr = true).
Proof.
  intros (r1 & _ & (r2 & _ & H)%bind_Some)%bind_Some.
  destruct (starts_with _ _); [|done]. apply bind_Some in H as (a & Ha & H).
  destruct (bool_decide_reflect (a <> [])) as [Hne|Heq]; cbn [andb] in H.
  - destruct (v a) eqn:Hv; [|done]. injection H as <-. auto.
  - injection H as <-. split; [done|]. left. by apply dec_stable.
Qed.

Lemma parse_rcpt_to_Some v line addr :
  parse_rcpt_to v line = Some addr ->
  extract_address_after_colon line = Some addr /\ addr <> [] /\ v addr = true.
Proof.
  intros (r1 & _ & (r2 & _ & H)%bind_Some)%bind_Some.
  destruct (starts_with _ _); [|done]. apply bind_Some in H as (a & Ha & H).
  destruct (bool_decide_reflect (a = [])) as [Heq|Hne]; cbn [orb] in H; [done|].
  destruct (v a) eqn:Hv; [|done]. injection H as <-. auto.
Qed.

Lemma extract_address_no_nl line addr :
  extract_address_after_colon line = Some addr -> nl ∉ line -> nl ∉ addr.
Proof.
  intros Hex Hnl. destruct (extract_address_infix _ _ Hex) as (pre & post & -> & _ & l & r & ->).
  eapply (infix_not_elem _ _ (pre ++ colon :: l) addr r); [|done]. by rewrite <- !app_assoc.
Qed.

(** A bracketed path after a well-formed header, for the two parsers. *)
Lemma parse_mail_from_path v pre w a params :
  header (lit "MAIL") (lit "FROM") pre -> spaces w -> greater_than ∉ a ->
  parse_mail_from v (pre ++ colon :: w ++ less_than :: a ++ greater_than :: params)
  = if bool_decide (a = []) || v a then Some a else None.
Proof.
  intros Hpre Hw Ha. unfold parse_mail_from.
  destruct (header_keywords _ _ 70 (lit "ROM") _ (w ++ less_than :: a ++ greater_than :: params) Hpre)
    as (u & Hu & Hu'); [done..|].
  rewrite Hu. cbn [mbind option_bind]. rewrite Hu'. cbn [mbind option_bind].
  rewrite (proj2 (starts_with_spec [colon] _)) by eauto. cbn [negb].
  rewrite extract_bracketed; [|by eapply header_no_colon; [done|by_decide..]|done..].
  cbn [mbind option_bind]. destruct a as [|c a]; simpl; [done|]. by destruct (v _).
Qed.

Lemma parse_rcpt_to_path v pre w a params :
  header (lit "RCPT") (lit "TO") pre -> spaces w -> greater_than ∉ a ->
  parse_rcpt_to v (pre ++ colon :: w ++ less_than :: a ++ greater_than :: params)
  = if negb (bool_decide (a = [])) && v a then Some a else None.
Proof.
  intros Hpre Hw Ha. unfold parse_rcpt_to.
  destruct (header_keywords _ _ 84 (lit "O") _ (w ++ less_than :: a ++ greater_than :: params) Hpre)
    as (u & Hu & Hu'); [done..|].
  rewrite Hu. cbn [mbind option_bind]. rewrite Hu'. cbn [mbind option_bind].
  rewrite (proj2 (starts_with_spec [colon] _)) by eauto. cbn [negb].
  rewrite extract_bracketed; [|by eapply header_no_colon; [done|by_decide..]|done..].
  cbn [mbind option_bind]. destruct a as [|c a]; simpl; [done|]. by destruct (v _).
Qed.
