(* ===== verification/AddressProps.v ===== *)
(** * Properties of the envelope address parsers

    What the two parsers accept, exactly for a bracketed path in any letter case, and
    what an accepted address can be made of. *)

From S2P Require Import Prelude RustStr Unicode Address.

(** C36: the grammar of the envelope commands: in any letter case and with any spaces
    around the keywords, [MAIL FROM:<a>] and [RCPT TO:<a>] with parameters answer the
    path [a] exactly when it is a valid address, and the null sender [<>] is accepted
    for MAIL and refused for RCPT whatever the validator says. *)
Theorem envelope_grammar (validate_email : str -> bool) (mail rcpt w a params : str)
    (Hmail : header (lit "MAIL") (lit "FROM") mail) (Hrcpt : header (lit "RCPT") (lit "TO") rcpt)
    (Hw : spaces w) (Ha : greater_than ∉ a) :
  let path := colon :: w ++ less_than :: a ++ greater_than :: params in
  parse_mail_from validate_email (mail ++ path)
    = (if bool_decide (a = []) || validate_email a then Some a else None) /\
  parse_rcpt_to validate_email (rcpt ++ path)
    = (if negb (bool_decide (a = [])) && validate_email a then Some a else None).
Proof.
  split; [by apply parse_mail_from_path | by apply parse_rcpt_to_path].
Qed.

Lemma mail_header_example : header (lit "MAIL") (lit "FROM") (lit "MaIl  fRom ").
Proof.
  exists (lit "MaIl"), (lit "  "), (lit "fRom"), (lit " ").
  split_and!; try reflexivity; by_decide.
Qed.
Lemma rcpt_header_example : header (lit "RCPT") (lit "TO") (lit "rcpt TO").
Proof.
  exists (lit "rcpt"), (lit " "), (lit "TO"), [].
  split_and!; try reflexivity; by_decide.
Qed.

Lemma envelope_grammar_witness :
  parse_mail_from (contains (lit "@")) (lit "MaIl  fRom : <a@b.c> SIZE=10") = Some (lit "a@b.c") /\
  parse_rcpt_to (contains (lit "@")) (lit "rcpt TO: <a@b.c> SIZE=10") = Some (lit "a@b.c").
Proof.
  exact (envelope_grammar (contains (lit "@")) (lit "MaIl  fRom ") (lit "rcpt TO") (lit " ") (lit "a@b.c") (lit " SIZE=10")
    mail_header_example rcpt_header_example ltac:(by_decide) ltac:(by_decide)).
Defined.

(** no injection through the envelope: an accepted address is a piece of the
    command line after its first colon, so it holds no newline when the line holds
    none; an accepted recipient is never empty and always valid, an accepted sender is
    empty or valid. *)
Theorem accepted_address_comes_from_line (validate_email : str -> bool) (line addr : str)
    (H : parse_mail_from validate_email line = Some addr \/ parse_rcpt_to validate_email line = Some addr) :
  (exists pre l r, line = pre ++ colon :: l ++ addr ++ r /\ colon ∉ pre) /\
  (nl ∉ line -> nl ∉ addr) /\
  (addr = [] \/ validate_email addr = true) /\
  (parse_rcpt_to validate_email line = Some addr -> addr <> [] /\ validate_email addr = true).
Proof.
  assert (extract_address_after_colon line = Some addr /\ (addr = [] \/ validate_email addr = true)) as [Hex Hval].
  { destruct H as [H%parse_mail_from_Some | (? & ? & ?)%parse_rcpt_to_Some]; auto. }
  split_and!; [|by apply extract_address_no_nl|done|by intros (? & ? & ?)%parse_rcpt_to_Some].
  destruct (extract_address_infix _ _ Hex) as (pre & post & -> & Hc & l & r & ->). eauto.
Qed.

Lemma accepted_address_comes_from_line_witness :
  (exists pre l r, lit "RCPT TO:x@y z" = pre ++ colon :: l ++ lit "x@y" ++ r /\ colon ∉ pre) /\
  (nl ∉ lit "RCPT TO:x@y z" -> nl ∉ lit "x@y") /\
  (lit "x@y" = [] \/ contains (lit "@") (lit "x@y") = true) /\
  (parse_rcpt_to (contains (lit "@")) (lit "RCPT TO:x@y z") = Some (lit "x@y") ->
     lit "x@y" <> [] /\ contains (lit "@") (lit "x@y") = true).
Proof.
  apply (accepted_address_comes_from_line (contains (lit "@")) (lit "RCPT TO:x@y z") (lit "x@y")).
  right. reflexivity.
Defined.
