(* ===== verification/Html.v ===== *)
(** * HTML to text ([src/src/smtp/mime.rs], lines 140-306)

    The fallback for mail that offers no plain part: named elements are cut out, tags
    are dropped or become line breaks, entities are decoded, white space is tidied. *)

From S2P Require Import Prelude RustStr.

Definition lt_char : Z := 60.
Definition gt_char : Z := 62.
Definition slash : Z := 47.
Definition ampersand : Z := 38.
Definition semicolon : Z := 59.
Definition space : Z := 32.

(** ** [strip_elements] *)

(** The [while] loop for one element name; [lower] and [out] have the same length. *)
Fixpoint strip_element_loop (fuel : nat) (open close lower out : str) (cursor : nat) (result : str)
  : option str :=
  match fuel with
  | O => None
  | S fuel' =>
      match find_str open (drop cursor lower) with
      | None => Some (result ++ drop cursor out)
      | Some start =>
          let start := (cursor + start)%nat in
          let result := result ++ take (start - cursor) (drop cursor out) in
          let cursor :=
            match find_str close (drop start lower) with
            | Some end_ =>
                let end_ := (start + end_)%nat in
                match find_char gt_char (drop end_ lower) with
                | Some gt => (end_ + gt + 1)%nat
                | None => length out
                end
            | None => length out
            end in
          strip_element_loop fuel' open close lower out cursor result
      end
  end.

Definition strip_element (out name : str) : str :=
  let lower := to_ascii_lowercase out in
  let open := lt_char :: name in
  let close := lt_char :: slash :: name in
  default out (strip_element_loop (S (length out)) open close lower out 0 []).

Definition strip_elements (html : str) (names : list str) : str :=
  foldl strip_element html names.

(** ** Tags *)

Definition line_breaking_tags : list str :=
  [lit "br"; lit "p"; lit "div"; lit "tr"; lit "li"; lit "h1"; lit "h2"; lit "h3"; lit "h4";
   lit "h5"; lit "h6"; lit "table"; lit "blockquote"; lit "hr"].

Definition breaks_line (tag : str) : bool :=
  let pieces := split (fun c => is_whitespace c || (c =? slash) || (c =? gt_char))
                  (trim_start_matches (Z.eqb slash) tag) in
  let name := to_ascii_lowercase (default [] (head pieces)) in
  bool_decide (name ∈ line_breaking_tags).

(** The loop over the characters in [html_to_text]: outside a tag, or inside one whose
    text is so far [tag]. *)
Fixpoint strip_tags (in_tag : option str) (chars : str) : str :=
  match in_tag, chars with
  | None, [] => []
  | None, ch :: chars' =>
      if ch =? lt_char then strip_tags (Some []) chars' else ch :: strip_tags None chars'
  | Some tag, [] => if breaks_line tag then [nl] else []
  | Some tag, tag_char :: chars' =>
      if tag_char =? gt_char
      then (if breaks_line tag then [nl] else []) ++ strip_tags None chars'
      else strip_tags (Some (tag ++ [tag_char])) chars'
  end.

(** ** Entities *)

Definition named_entity (entity : str) : option str :=
  let e := to_ascii_lowercase entity in
  if bool_decide (e = lit "amp") then Some (lit "&")
  else if bool_decide (e = lit "lt") then Some (lit "<")
  else if bool_decide (e = lit "gt") then Some (lit ">")
  else if bool_decide (e = lit "quot") then Some [34]
  else if bool_decide (e = lit "apos") || bool_decide (e = lit "#39") then Some (lit "'")
  else if bool_decide (e = lit "nbsp") then Some (lit " ")
  else None.

(** [char::to_digit(radix)] and [u32::from_str_radix] / [str::parse::<u32>]: an optional
    plus sign, at least one digit, each step checked for overflow. *)
Definition to_digit (radix c : Z) : option Z :=
  let d := if (48 <=? c) && (c <=? 57) then c - 48
           else if (97 <=? c) && (c <=? 122) then c - 87
           else if (65 <=? c) && (c <=? 90) then c - 55
           else 36 in
  if d <? radix then Some d else None.

Fixpoint digits_value (radix acc : Z) (s : str) : option Z :=
  match s with
  | [] => Some acc
  | c :: s' =>
      match to_digit radix c with
      | None => None
      | Some d =>
          let v := acc * radix + d in
          if u32_max <? v then None else digits_value radix v s'
      end
  end.

Definition u32_from_str_radix (radix : Z) (s : str) : option Z :=
  match s with
  | [] => None
  | 43 :: [] => None
  | 43 :: s' => digits_value radix 0 s'
  | _ => digits_value radix 0 s
  end.

Definition char_from_u32 (code : Z) : option Z := if is_scalar code then Some code else None.

Definition numeric_entity (entity : str) : option Z :=
  digits ← strip_prefix (lit "#") entity;
  code ← match digits with
         | c :: hex => if (c =? 120) || (c =? 88) then u32_from_str_radix 16 hex
                       else u32_from_str_radix 10 digits
         | [] => u32_from_str_radix 10 digits
         end;
  char_from_u32 code.

(** One round of the loop of [decode_entities]: [None] when no ampersand is left, else
    what it appends and the rest. *)
Definition decode_step (rest : str) : option (str * str) :=
  match find_char ampersand rest with
  | None => None
  | Some start =>
      let before := take start rest in
      let tail := drop start rest in
      let end_ :=
        match find_char semicolon (drop 1 tail) with
        | Some i => if byte_len (take i (drop 1 tail)) + 1 <=? 10 then Some (S i) else None
        | None => None
        end in
      match end_ with
      | None => Some (before ++ [ampersand], drop 1 tail)
      | Some e =>
          let entity := take (e - 1) (drop 1 tail) in
          Some (before ++ match named_entity entity with
                          | Some decoded => decoded
                          | None => match numeric_entity entity with
                                    | Some decoded => [decoded]
                                    | None => take (S e) tail
                                    end
                          end, drop (S e) tail)
      end
  end.

Fixpoint decode_entities_loop (fuel : nat) (out rest : str) : option str :=
  match fuel with
  | O => None
  | S fuel' =>
      match decode_step rest with
      | None => Some (out ++ rest)
      | Some (decoded, rest') => decode_entities_loop fuel' (out ++ decoded) rest'
      end
  end.

Definition decode_entities (text : str) : str :=
  default text (decode_entities_loop (S (length text)) [] text).

(** ** White space *)

Definition collapse_spaces (line : str) : str := join [space] (split_whitespace line).

(** The loop of [tidy], over the lines left; [lines] is what was pushed so far. *)
Fixpoint tidy_loop (blank_run : nat) (pushed todo : list str) : list str :=
  match todo with
  | [] => pushed
  | line :: todo' =>
      let line := trim line in
      if bool_decide (line = []) then
        let blank_run := S blank_run in
        if (1 <? blank_run)%nat || bool_decide (pushed = []) then tidy_loop blank_run pushed todo'
        else tidy_loop blank_run (pushed ++ [[]]) todo'
      else tidy_loop 0 (pushed ++ [collapse_spaces line]) todo'
  end.

Definition tidy (text : str) : str :=
  join [nl] (drop_while_end (fun l => bool_decide (l = [])) (tidy_loop 0 [] (lines text))).

Definition html_to_text (html : str) : str :=
  let without_scripts := strip_elements html [lit "script"; lit "style"; lit "head"] in
  let text := strip_tags None without_scripts in
  tidy (decode_entities text).

Example html_paragraphs :
  html_to_text (lit "<html><body><p>Disk <b>sda</b> is failing.</p><p>Replace it.</p></body></html>")
  = lit "Disk sda is failing." ++ [nl; nl] ++ lit "Replace it.".
Proof. vm_compute. reflexivity. Qed.

Example html_entities :
  html_to_text (lit "<p>a &amp; b &lt;c&gt; &quot;d&quot; &#39;e&#39; &#x2713;</p>")
  = lit "a & b <c> " ++ [34] ++ lit "d" ++ [34] ++ lit " 'e' " ++ [10003].
Proof. vm_compute. reflexivity. Qed.

Example html_scripts :
  html_to_text (lit "<html><head><style>body{color:#fff}</style></head><body><script>alert('x')</script><p>real text</p></body></html>")
  = lit "real text".
Proof. vm_compute. reflexivity. Qed.
