(* ===== verification/HtmlFacts.v ===== *)
(** * Lemmas on the HTML rendering

    The fuel of both loops is enough, the unfolding equations of [decode_entities], what
    the rendering leaves alone, and the normal form of [tidy]. *)

From S2P Require Import Prelude RustStr Html.

(** ** [strip_elements] *)

Lemma length_to_ascii_lowercase s : length (to_ascii_lowercase s) = length s.
Proof. apply length_fmap. Qed.

Lemma find_str_nil_pattern a p : find_str (a :: p) [] = None.
Proof. done. Qed.

(** Each round of the loop moves the cursor forward. *)
Lemma strip_element_loop_total fuel a p close lower out cursor result :
  length lower = length out -> (cursor <= length out)%nat -> (length out - cursor < fuel)%nat ->
  exists r, strip_element_loop fuel (a :: p) close lower out cursor result = Some r.
Proof.
  intros Hlen. revert cursor result. induction fuel as [|fuel IH]; intros cursor result Hc Hf; [lia|].
  cbn [strip_element_loop].
  destruct (find_str (a :: p) (drop cursor lower)) as [start|] eqn:Hstart; [|eauto].
  apply find_str_Some in Hstart as [Hs Hst]. rewrite length_drop in Hs.
  rewrite drop_drop in Hst.
  assert (cursor + start < length lower)%nat as Hlt.
  { destruct (decide (cursor + start < length lower)%nat) as [|Hge]; [done|].
    rewrite drop_ge in Hst by lia. done. }
  destruct (find_str close _) as [e|] eqn:He.
  - apply find_str_Some in He as [He _]. rewrite length_drop in He.
    destruct (find_char _ _) as [g|] eqn:Hg.
    + apply position_lt in Hg. rewrite length_drop in Hg. apply IH; lia.
    + apply IH; lia.
  - apply IH; lia.
Qed.

Lemma strip_element_total out name :
  exists r, strip_element_loop (S (length out)) (lt_char :: name) (lt_char :: slash :: name)
              (to_ascii_lowercase out) out 0 [] = Some r /\ strip_element out name = r.
Proof.
  destruct (strip_element_loop_total (S (length out)) lt_char name (lt_char :: slash :: name)
    (to_ascii_lowercase out) out 0 []) as (r & Hr); [apply length_to_ascii_lowercase|lia..|].
  exists r. split; [done|]. unfold strip_element. by rewrite Hr.
Qed.

Lemma strip_element_absent out name :
  find_str (lt_char :: name) (to_ascii_lowercase out) = None -> strip_element out name = out.
Proof. intros H. unfold strip_element. cbn [strip_element_loop]. by rewrite drop_0, H. Qed.

Lemma strip_elements_absent html names :
  Forall (fun name => find_str (lt_char :: name) (to_ascii_lowercase html) = None) names ->
  strip_elements html names = html.
Proof.
  unfold strip_elements. induction 1 as [|name names H _ IH]; simpl; [done|].
  by rewrite strip_element_absent.
Qed.

Lemma lowercase_lt s : lt_char ∈ to_ascii_lowercase s -> lt_char ∈ s.
Proof.
  unfold to_ascii_lowercase. rewrite list_elem_of_fmap. intros (c & Hc & Hin).
  unfold char_to_ascii_lowercase, lt_char in *. destruct (_ && _) eqn:E; [|by subst].
  simpl_bool. lia.
Qed.

Lemma to_ascii_lowercase_app s t :
  to_ascii_lowercase (s ++ t) = to_ascii_lowercase s ++ to_ascii_lowercase t.
Proof. apply fmap_app. Qed.

(** ** Tags *)

Lemma strip_tags_no_lt in_tag s : lt_char ∉ strip_tags in_tag s.
Proof.
  revert in_tag. induction s as [|c s IH]; intros [tag|]; simpl.
  - destruct (breaks_line tag); by_decide.
  - apply not_elem_of_nil.
  - destruct (c =? gt_char); [|apply IH]. rewrite elem_of_app. intros [H|H]; [|by apply IH in H].
    revert H. destruct (breaks_line tag); by_decide.
  - destruct (Z.eqb_spec c lt_char); [apply IH|]. rewrite elem_of_cons. intros [H|H]; [congruence|].
    by apply IH in H.
Qed.

Lemma strip_tags_text s t : lt_char ∉ s -> strip_tags None (s ++ t) = s ++ strip_tags None t.
Proof.
  induction s as [|c s IH]; [done|]. rewrite not_elem_of_cons. intros [Hne Hs].
  cbn [app strip_tags]. rewrite (proj2 (Z.eqb_neq c lt_char)) by done. by rewrite IH.
Qed.

Lemma strip_tags_in_tag tag name t :
  gt_char ∉ name ->
  strip_tags (Some tag) (name ++ gt_char :: t)
    = (if breaks_line (tag ++ name) then [nl] else []) ++ strip_tags None t.
Proof.
  revert tag. induction name as [|c name IH]; intros tag; [by rewrite app_nil_r|].
  rewrite not_elem_of_cons. intros [Hne Hs]. cbn [app strip_tags].
  rewrite (proj2 (Z.eqb_neq c gt_char)) by done. rewrite IH by done. by rewrite <- app_assoc.
Qed.

Lemma strip_tags_tag name t :
  gt_char ∉ name ->
  strip_tags None (lt_char :: name ++ gt_char :: t)
    = (if breaks_line name then [nl] else []) ++ strip_tags None t.
Proof. intros H. cbn [strip_tags]. rewrite Z.eqb_refl. by rewrite strip_tags_in_tag. Qed.

(** ** Entities *)

Lemma decode_step_shorter rest d rest' :
  decode_step rest = Some (d, rest') -> (length rest' < length rest)%nat.
Proof.
  unfold decode_step. destruct (find_char ampersand rest) as [i|] eqn:Hi; [|done].
  apply position_lt in Hi. case_match; intros [= _ <-]; rewrite ?length_drop; lia.
Qed.

Lemma decode_loop_out fuel out rest :
  decode_entities_loop fuel out rest = (app out) <$> decode_entities_loop fuel [] rest.
Proof.
  revert out rest. induction fuel as [|fuel IH]; intros out rest; [done|]. cbn [decode_entities_loop].
  destruct (decode_step rest) as [[d r]|]; [|done].
  rewrite (IH (out ++ d)), (IH ([] ++ d)). destruct (decode_entities_loop fuel [] r); [|done].
  csimpl. by rewrite app_assoc.
Qed.

Lemma decode_loop_total fuel out rest :
  (length rest < fuel)%nat -> exists r, decode_entities_loop fuel out rest = Some r.
Proof.
  revert out rest. induction fuel as [|fuel IH]; intros out rest Hf; [lia|]. cbn [decode_entities_loop].
  destruct (decode_step rest) as [[d r]|] eqn:Hd; [|eauto].
  apply decode_step_shorter in Hd. apply IH. lia.
Qed.

Lemma decode_loop_more fuel fuel' out rest r :
  decode_entities_loop fuel out rest = Some r -> (fuel <= fuel')%nat ->
  decode_entities_loop fuel' out rest = Some r.
Proof.
  revert fuel' out rest. induction fuel as [|fuel IH]; intros [|fuel'] out rest; try done; [lia|].
  cbn [decode_entities_loop]. destruct (decode_step rest) as [[d r']|]; [|done].
  intros H Hle. apply IH; [done|lia].
Qed.

(** The loop as a recursive equation. *)
Lemma decode_entities_eq s :
  decode_entities s = match decode_step s with None => s | Some (d, r) => d ++ decode_entities r end.
Proof.
  unfold decode_entities at 1. cbn [decode_entities_loop].
  destruct (decode_step s) as [[d r]|] eqn:Hd; [|done].
  pose proof (decode_step_shorter _ _ _ Hd) as Hlt.
  destruct (decode_loop_total (S (length r)) [] r) as (x & Hx); [lia|].
  unfold decode_entities. rewrite Hx, decode_loop_out.
  by rewrite (decode_loop_more _ (length s) _ _ _ Hx) by lia.
Qed.

Lemma decode_step_cons c s :
  c <> ampersand ->
  decode_step (c :: s) = match decode_step s with None => None | Some (d, r) => Some (c :: d, r) end.
Proof.
  intros Hc. unfold decode_step, find_char at 1. cbn [position].
  rewrite (proj2 (Z.eqb_neq ampersand c)) by done.
  fold (find_char ampersand s). destruct (find_char ampersand s) as [i|]; [|done].
  cbn [fmap option_fmap option_map take drop]. by case_match.
Qed.

Lemma decode_entities_cons c s : c <> ampersand -> decode_entities (c :: s) = c :: decode_entities s.
Proof.
  intros Hc. rewrite decode_entities_eq, (decode_entities_eq s), decode_step_cons by done.
  by destruct (decode_step s) as [[d r]|].
Qed.

Lemma decode_entities_entity e d s :
  semicolon ∉ e -> byte_len e <= 9 -> named_entity e = Some d ->
  decode_entities (ampersand :: e ++ semicolon :: s) = d ++ decode_entities s.
Proof.
  intros He Hlen Hn. rewrite decode_entities_eq. unfold decode_step.
  assert (find_char ampersand (ampersand :: e ++ semicolon :: s) = Some 0%nat) as -> by done.
  cbn [take drop]. rewrite !drop_0. rewrite find_char_app by done. rewrite take_app_length.
  rewrite (proj2 (Z.leb_le _ _)) by lia. cbn [Nat.sub]. rewrite Nat.sub_0_r, take_app_length, Hn.
  cbn [app]. rewrite drop_app_ge by lia.
  by replace (S (length e) - length e)%nat with 1%nat by lia.
Qed.

(** What a sender of HTML writes for a piece of text. *)
Definition escape_char (c : Z) : str :=
  if c =? ampersand then lit "&amp;" else if c =? lt_char then lit "&lt;"
  else if c =? gt_char then lit "&gt;" else if c =? 34 then lit "&quot;"
  else if c =? 39 then lit "&#39;" else [c].
Definition escape (s : str) : str := s ≫= escape_char.

Lemma escape_no_lt s : lt_char ∉ escape s.
Proof.
  unfold escape. rewrite list_elem_of_bind. intros (c & Hc & _). revert Hc. unfold escape_char.
  repeat match goal with |- context [c =? ?x] => destruct (Z.eqb_spec c x) as [->|?] end; try by_decide.
  by rewrite list_elem_of_singleton.
Qed.

Lemma decode_entities_app_escape s t : decode_entities (escape s ++ t) = s ++ decode_entities t.
Proof.
  induction s as [|c s IH]; [done|]. unfold escape. csimpl. fold (escape s). rewrite <- app_assoc.
  assert (forall e d, semicolon ∉ e -> byte_len e <= 9 -> named_entity e = Some [d] -> d = c ->
    decode_entities ((ampersand :: e ++ [semicolon]) ++ escape s ++ t) = c :: s ++ decode_entities t) as Hent.
  { intros e d He Hl Hn <-. cbn [app]. rewrite <- app_assoc. cbn [app].
    rewrite decode_entities_entity with (d := [d]) by done. cbn [app]. by rewrite IH. }
  unfold escape_char.
  repeat match goal with |- context [c =? ?x] => destruct (Z.eqb_spec c x) as [->|?] end.
  - by apply (Hent (lit "amp") ampersand); first [done | by_decide].
  - by apply (Hent (lit "lt") lt_char); first [done | by_decide].
  - by apply (Hent (lit "gt") gt_char); first [done | by_decide].
  - by apply (Hent (lit "quot") 34); first [done | by_decide].
  - by apply (Hent (lit "#39") 39); first [done | by_decide].
  - cbn [app]. rewrite decode_entities_cons by done. by rewrite IH.
Qed.

Lemma decode_entities_escape s : decode_entities (escape s) = s.
Proof. rewrite <- (app_nil_r (escape s)), decode_entities_app_escape. apply app_nil_r. Qed.

(** ** The normal form of [tidy] *)

(** A word has no white space; a neat line is made of words separated by one space. *)
Definition word (w : str) : Prop := w <> [] /\ Forall (fun c => is_whitespace c = false) w.
Definition neat (l : str) : Prop := exists ws, Forall word ws /\ l = join [space] ws.

(** No line at the start, no two in a row, is empty; [empty_before] tells whether the
    line before is empty or missing. *)
Fixpoint spaced (empty_before : bool) (ls : list str) : Prop :=
  match ls with
  | [] => True
  | l :: ls' => if bool_decide (l = []) then empty_before = false /\ spaced true ls'
                else spaced false ls'
  end.

Lemma split_whitespace_words s : Forall word (split_whitespace s).
Proof.
  unfold split_whitespace. apply Forall_forall. intros w [Hne Hw]%list_elem_of_filter.
  split; [done|]. by eapply split_no_sep.
Qed.

Lemma split_whitespace_join ws : Forall word ws -> split_whitespace (join [space] ws) = ws.
Proof.
  unfold split_whitespace. induction 1 as [|w ws [Hne Hw] Hws IH]; [done|].
  destruct ws as [|w' ws].
  - cbn [join]. rewrite split_pred_none by done. by rewrite filter_cons_True.
  - rewrite join_cons by done. cbn [app]. rewrite split_pred_app by done.
    rewrite filter_cons_True by done. by rewrite IH.
Qed.

Lemma collapse_spaces_neat s : neat (collapse_spaces s).
Proof. exists (split_whitespace s). split; [apply split_whitespace_words | done]. Qed.

Lemma collapse_spaces_id l : neat l -> collapse_spaces l = l.
Proof. intros (ws & Hws & ->). unfold collapse_spaces. by rewrite split_whitespace_join. Qed.

Lemma join_snoc_word ws : Forall word ws -> ws <> [] ->
  exists l c, join [space] ws = l ++ [c] /\ is_whitespace c = false.
Proof.
  induction 1 as [|w ws [Hne Hw] Hws IH]; [done|]. intros _. destruct ws as [|w' ws].
  - cbn [join]. destruct (exists_last Hne) as (l & c & ->). exists l, c. split; [done|].
    apply Forall_app in Hw as [_ Hc]. by inversion Hc.
  - rewrite join_cons by done. destruct IH as (l & c & -> & Hc); [done|].
    exists (w ++ [space] ++ l), c. split; [by rewrite <- !app_assoc | done].
Qed.

Lemma trim_neat l : neat l -> trim l = l.
Proof.
  intros (ws & Hws & ->). destruct (decide (ws = [])) as [->|Hne]; [done|].
  destruct (join_snoc_word ws Hws Hne) as (l & c & Hl & Hc).
  assert (trim_start (join [space] ws) = join [space] ws) as Hs.
  { destruct Hws as [|w ws [Hw0 Hw] Hws]; [done|]. destruct w as [|a w]; [done|].
    apply Forall_cons in Hw as [Ha _].
    destruct ws; [cbn [join]|rewrite join_cons by done]; cbn [app]; by apply trim_start_id. }
  unfold trim. rewrite Hs, Hl. by rewrite (trim_end_stop l []).
Qed.

Lemma neat_no_control l : neat l -> nl ∉ l /\ cr ∉ l.
Proof.
  intros (ws & Hws & ->).
  assert (forall c, is_whitespace c = true -> c <> space -> c ∉ join [space] ws) as H.
  { intros c Hc Hsp. induction Hws as [|w ws [Hw0 Hw] Hws IH]; [apply not_elem_of_nil|].
    assert (c ∉ w) as Hcw.
    { intros Hin. rewrite Forall_forall in Hw. apply Hw in Hin. congruence. }
    destruct ws; [done|]. rewrite join_cons by done.
    rewrite !elem_of_app, list_elem_of_singleton. naive_solver. }
  split; by apply H.
Qed.

Lemma collapse_spaces_nonempty l : trim l <> [] -> collapse_spaces (trim l) <> [].
Proof.
  intros Hne. unfold collapse_spaces.
  destruct (trim l) as [|c s] eqn:Ht; [done|].
  assert (is_whitespace c = false) as Hc.
  { unfold trim, trim_end, drop_while_end in Ht.
    destruct (drop_while_suffix is_whitespace (reverse (trim_start l))) as (k & Hk & _).
    assert (trim_start l = (c :: s) ++ reverse k) as Hts.
    { rewrite <- Ht. rewrite <- reverse_app, <- Hk. by rewrite reverse_involutive. }
    by apply (drop_while_head _ l c (s ++ reverse k)). }
  unfold split_whitespace. cbn [split]. rewrite Hc.
  destruct (split is_whitespace s) as [|w ws]; rewrite filter_cons_True by done.
  - done.
  - destruct (filter _ ws); [done|]. by rewrite join_cons.
Qed.

(** The loop, as a function of what is left to do: what it pushes after [pushed]. *)
Fixpoint tidied (blank_run : nat) (first : bool) (todo : list str) : list str :=
  match todo with
  | [] => []
  | line :: todo' =>
      if bool_decide (trim line = []) then
        if (1 <? S blank_run)%nat || first then tidied (S blank_run) first todo'
        else [] :: tidied (S blank_run) false todo'
      else collapse_spaces (trim line) :: tidied 0 false todo'
  end.

Lemma tidy_loop_tidied blank_run pushed todo :
  tidy_loop blank_run pushed todo = pushed ++ tidied blank_run (bool_decide (pushed = [])) todo.
Proof.
  revert blank_run pushed. induction todo as [|line todo IH]; intros b pushed; cbn [tidy_loop tidied].
  { by rewrite app_nil_r. }
  assert (forall l : str, bool_decide (pushed ++ [l] = []) = false) as Hpush.
  { intros l. apply bool_decide_eq_false. by destruct pushed. }
  destruct (bool_decide (trim line = [])).
  - destruct (_ || _); [apply IH|]. by rewrite IH, Hpush, <- app_assoc.
  - by rewrite IH, Hpush, <- app_assoc.
Qed.

Lemma tidied_neat blank_run first todo : Forall neat (tidied blank_run first todo).
Proof.
  revert blank_run first. induction todo as [|line todo IH]; intros b f; cbn [tidied]; [constructor|].
  case_match; [case_match; [apply IH|]|]; constructor; try apply IH; [by exists []|].
  apply collapse_spaces_neat.
Qed.

Lemma tidied_spaced blank_run first todo :
  spaced (first || (0 <? blank_run)%nat) (tidied blank_run first todo).
Proof.
  revert blank_run first. induction todo as [|line todo IH]; intros b f; cbn [tidied]; [done|].
  destruct (bool_decide_reflect (trim line = [])) as [Hb|Hb].
  - destruct (1 <? S b)%nat eqn:E; cbn [orb].
    + specialize (IH (S b) f). rewrite orb_true_r in IH. apply Nat.ltb_lt in E.
      rewrite (proj2 (Nat.ltb_lt 0 b)) by lia. by rewrite orb_true_r.
    + destruct f; [apply (IH (S b) true)|]. cbn [spaced]. rewrite bool_decide_eq_true_2 by done.
      apply Nat.ltb_ge in E. rewrite (proj2 (Nat.ltb_ge 0 b)) by lia. split; [done|]. apply (IH (S b) false).
  - cbn [spaced]. rewrite bool_decide_eq_false_2 by by apply collapse_spaces_nonempty. apply (IH 0%nat false).
Qed.

(** A neat, well spaced list is left alone. *)
Lemma tidied_id blank_run first ls :
  Forall neat ls -> spaced (first || (0 <? blank_run)%nat) ls -> tidied blank_run first ls = ls.
Proof.
  intros Hls. revert blank_run first. induction Hls as [|l ls Hl Hls IH]; intros b f; [done|].
  cbn [spaced tidied]. rewrite trim_neat by done.
  destruct (bool_decide_reflect (l = [])) as [->|Hne].
  - intros [[-> Hb]%orb_false_iff Hs]. apply Nat.ltb_ge in Hb. replace b with 0%nat by lia.
    cbn [Nat.ltb Nat.leb orb]. by rewrite IH.
  - intros Hs. rewrite collapse_spaces_id by done. by rewrite IH.
Qed.

Definition tidy_lines (text : str) : list str :=
  drop_while_end (fun l => bool_decide (l = [])) (tidied 0 true (lines text)).

Lemma tidy_tidy_lines text : tidy text = join [nl] (tidy_lines text).
Proof. unfold tidy, tidy_lines. by rewrite tidy_loop_tidied. Qed.

Lemma drop_while_end_prefix {A} (p : A -> bool) l :
  exists k, l = drop_while_end p l ++ k /\ Forall (fun a => p a = true) k.
Proof.
  unfold drop_while_end. destruct (drop_while_suffix p (reverse l)) as (k & Hk & Hall).
  exists (reverse k). split; [|by rewrite Forall_reverse].
  rewrite <- reverse_app, <- Hk. by rewrite reverse_involutive.
Qed.

Lemma drop_while_end_last {A} (p : A -> bool) l l' a : drop_while_end p l = l' ++ [a] -> p a = false.
Proof.
  unfold drop_while_end. intros H. apply (f_equal reverse) in H.
  rewrite reverse_involutive, reverse_snoc in H. by eapply drop_while_head.
Qed.

Lemma spaced_app b l k : spaced b (l ++ k) -> spaced b l.
Proof. revert b. induction l as [|x l IH]; intros b; simpl; [done|]. case_match; naive_solver. Qed.

Lemma tidy_lines_normal text :
  Forall neat (tidy_lines text) /\ spaced true (tidy_lines text) /\
  (forall l a, tidy_lines text = l ++ [a] -> a <> []).
Proof.
  unfold tidy_lines.
  destruct (drop_while_end_prefix (fun l => bool_decide (l = [])) (tidied 0 true (lines text))) as (k & Hk & _).
  split_and!.
  - pose proof (tidied_neat 0 true (lines text)) as H. rewrite Hk in H. by apply Forall_app in H as [H _].
  - pose proof (tidied_spaced 0 true (lines text)) as H. rewrite Hk in H. by eapply spaced_app.
  - intros l a H. apply drop_while_end_last in H. by apply bool_decide_eq_false in H.
Qed.

Lemma strip_line_end_nl l : cr ∉ l -> strip_line_end (l ++ [nl]) = l.
Proof.
  intros H. unfold strip_line_end. rewrite strip_suffix1_snoc.
  destruct (strip_suffix1 cr l) as [l'|] eqn:E; [|done].
  apply strip_suffix1_Some in E as ->. exfalso. apply H, elem_of_app. right. left.
Qed.

Lemma strip_line_end_none l : nl ∉ l -> strip_line_end l = l.
Proof.
  intros H. unfold strip_line_end. destruct (strip_suffix1 nl l) as [l'|] eqn:E; [|done].
  apply strip_suffix1_Some in E as ->. exfalso. apply H, elem_of_app. right. left.
Qed.

(** Lines without line ends, the last not empty, are what [lines] gives back. *)
Lemma lines_join ls :
  Forall (fun l => nl ∉ l /\ cr ∉ l) ls -> (forall l a, ls = l ++ [a] -> a <> []) ->
  lines (join [nl] ls) = ls.
Proof.
  unfold lines. induction 1 as [|l ls [Hnl Hcr] Hls IH]; intros Hlast; [done|].
  destruct ls as [|l' ls].
  - cbn [join]. rewrite split_inclusive_last; [|done|by apply (Hlast [])].
    csimpl. by rewrite strip_line_end_none.
  - rewrite join_cons by done. cbn [app]. rewrite split_inclusive_line by done. csimpl.
    rewrite strip_line_end_nl by done. f_equal. apply IH.
    intros k a Ha. apply (Hlast (l :: k) a). by rewrite Ha.
Qed.

Lemma drop_while_end_id {A} (p : A -> bool) l :
  (forall l' a, l = l' ++ [a] -> p a = false) -> drop_while_end p l = l.
Proof.
  intros H. destruct (drop_while_end_prefix p l) as (k & Hk & Hall).
  destruct k as [|a k] using rev_ind; [by rewrite app_nil_r in Hk|].
  apply Forall_app in Hall as [_ Ha]. apply Forall_cons in Ha as [Ha _]. rewrite app_assoc in Hk.
  rewrite (H _ _ Hk) in Ha. done.
Qed.

(** ** Block elements with escaped text *)

Definition cut_elements : list str := [lit "script"; lit "style"; lit "head"].

Definition element (tag text : str) : str :=
  lt_char :: tag ++ gt_char :: escape text ++ lt_char :: (slash :: tag) ++ [gt_char].

Lemma block_tag_facts tag :
  tag ∈ line_breaking_tags ->
  lt_char ∉ tag /\ gt_char ∉ tag /\ breaks_line tag = true /\ breaks_line (slash :: tag) = true /\
  to_ascii_lowercase tag = tag.
Proof.
  intros H.
  assert (Forall (fun tag => lt_char ∉ tag /\ gt_char ∉ tag /\ breaks_line tag = true /\
    breaks_line (slash :: tag) = true /\ to_ascii_lowercase tag = tag) line_breaking_tags) as Hall by by_decide.
  rewrite Forall_forall in Hall. by apply Hall.
Qed.

Lemma block_tag_not_cut name tag t :
  name ∈ cut_elements -> tag ∈ line_breaking_tags ->
  starts_with (lt_char :: name) (lt_char :: tag ++ gt_char :: t) = false /\
  starts_with (lt_char :: name) (lt_char :: slash :: tag ++ gt_char :: t) = false.
Proof.
  unfold cut_elements, line_breaking_tags. intros Hn Ht.
  repeat (apply elem_of_cons in Hn as [->|Hn]); [..|by apply not_elem_of_nil in Hn];
  repeat (apply elem_of_cons in Ht as [->|Ht]); try (by apply not_elem_of_nil in Ht); split; reflexivity.
Qed.

Lemma find_str_cons_false p c s :
  starts_with p (c :: s) = false -> find_str p (c :: s) = S <$> find_str p s.
Proof. intros H. cbn [find_str]. by rewrite H. Qed.

Lemma element_keeps_absent name tag text t :
  name ∈ cut_elements -> tag ∈ line_breaking_tags ->
  find_str (lt_char :: name) (to_ascii_lowercase t) = None ->
  find_str (lt_char :: name) (to_ascii_lowercase (element tag text ++ t)) = None.
Proof.
  intros Hn Ht Habs. destruct (block_tag_facts tag Ht) as (Hlt & _ & _ & _ & Hlow).
  assert (lt_char ∉ gt_char :: to_ascii_lowercase (escape text)) as Htext.
  { apply not_elem_of_cons. split; [done|]. intros ?%lowercase_lt. by eapply escape_no_lt. }
  assert (lt_char ∉ slash :: tag ++ [gt_char]) as Hclose.
  { rewrite not_elem_of_cons, not_elem_of_app, list_elem_of_singleton. done. }
  assert (to_ascii_lowercase (element tag text ++ t) =
    lt_char :: tag ++ (gt_char :: to_ascii_lowercase (escape text)) ++
      lt_char :: (slash :: tag ++ [gt_char]) ++ to_ascii_lowercase t) as ->.
  { unfold element, to_ascii_lowercase in *. do 6 (csimpl; rewrite ?fmap_app). rewrite !Hlow.
    change (char_to_ascii_lowercase lt_char) with lt_char.
    change (char_to_ascii_lowercase gt_char) with gt_char.
    change (char_to_ascii_lowercase slash) with slash.
    do 4 (cbn [app]; rewrite <- ?app_assoc). done. }
  rewrite find_str_cons_false by by apply block_tag_not_cut.
  rewrite app_assoc. rewrite find_str_skip by by rewrite elem_of_app; intros [?|?].
  rewrite find_str_cons_false.
  2:{ cbn [app]. rewrite <- app_assoc. by apply block_tag_not_cut. }
  rewrite find_str_skip by done. by rewrite Habs.
Qed.

Definition page (blocks : list (str * str)) : str := concat ((fun b => element b.1 b.2) <$> blocks).
Definition page_text (blocks : list (str * str)) : str := concat ((fun b => nl :: b.2 ++ [nl]) <$> blocks).

Lemma page_absent name blocks :
  name ∈ cut_elements -> Forall (fun b => b.1 ∈ line_breaking_tags) blocks ->
  find_str (lt_char :: name) (to_ascii_lowercase (page blocks)) = None.
Proof.
  intros Hn. unfold page. induction 1 as [|[tag text] blocks Hb _ IH]; [done|]. csimpl.
  by apply element_keeps_absent.
Qed.

Lemma strip_tags_element tag text t :
  tag ∈ line_breaking_tags ->
  strip_tags None (element tag text ++ t) = nl :: escape text ++ nl :: strip_tags None t.
Proof.
  intros Hb. destruct (block_tag_facts tag Hb) as (Hlt & Hgt & Hbr & Hbr' & _).
  assert (element tag text ++ t =
    lt_char :: tag ++ gt_char :: (escape text ++ lt_char :: (slash :: tag) ++ gt_char :: t)) as ->.
  { unfold element. do 4 (cbn [app]; rewrite <- ?app_assoc). done. }
  rewrite strip_tags_tag, Hbr, strip_tags_text by (done || apply escape_no_lt).
  rewrite strip_tags_tag, Hbr' by by (rewrite not_elem_of_cons). done.
Qed.

Lemma strip_tags_page blocks :
  Forall (fun b => b.1 ∈ line_breaking_tags) blocks ->
  decode_entities (strip_tags None (page blocks)) = page_text blocks.
Proof.
  induction 1 as [|[tag text] blocks Hb _ IH]; [done|].
  change (page ((tag, text) :: blocks)) with (element tag text ++ page blocks).
  rewrite strip_tags_element by done.
  rewrite decode_entities_cons, decode_entities_app_escape, decode_entities_cons, IH by done.
  unfold page_text. csimpl. by rewrite <- app_assoc.
Qed.
