(* ===== verification/HtmlProps.v ===== *)
(** * Properties of the HTML rendering *)

From S2P Require Import Prelude RustStr Html HtmlFacts.

(** C37: what an HTML-only message says is what is read.  A page made of block elements
    (paragraphs, headings, table rows, list items, ..) around escaped text renders as
    those texts, each on lines of its own, tidied: no entity is left encoded or decoded
    twice, and no text is lost. *)
Theorem html_blocks_render_their_text (blocks : list (str * str))
    (Htags : Forall (fun b => b.1 ∈ line_breaking_tags) blocks) :
  html_to_text (page blocks) = tidy (page_text blocks).
Proof.
  unfold html_to_text. rewrite strip_elements_absent.
  - by rewrite strip_tags_page.
  - apply Forall_forall. intros name Hn. by apply page_absent.
Qed.

Lemma html_blocks_render_their_text_witness :
  html_to_text (page [(lit "h1", lit "Disk <sda> & co"); (lit "p", lit "say &amp;")])
  = lit "Disk <sda> & co" ++ [nl; nl] ++ lit "say &amp;".
Proof.
  rewrite (html_blocks_render_their_text [(lit "h1", lit "Disk <sda> & co"); (lit "p", lit "say &amp;")]).
  - vm_compute. reflexivity.
  - by_decide.
Defined.

(** the loops of the rendering end within their fuel on any input (the cursor of
    [strip_elements] and the rest of [decode_entities] move at each round), and whatever
    the sender writes, no tag is left after the tags are dropped. *)
Theorem html_rendering_total_and_tag_free (html : str) (name : str) :
  is_Some (strip_element_loop (S (length html)) (lt_char :: name) (lt_char :: slash :: name)
             (to_ascii_lowercase html) html 0 []) /\
  is_Some (decode_entities_loop (S (length html)) [] html) /\
  decode_entities html = match decode_step html with None => html | Some (d, r) => d ++ decode_entities r end /\
  lt_char ∉ strip_tags None html.
Proof.
  split_and!.
  - destruct (strip_element_total html name) as (r & Hr & _). by exists r.
  - destruct (decode_loop_total (S (length html)) [] html) as (r & Hr); [lia|]. by exists r.
  - apply decode_entities_eq.
  - apply strip_tags_no_lt.
Qed.

(** the normal form of rendered text: every line is trimmed words separated by
    single spaces, the text neither starts nor ends with an empty line and has no two
    empty lines in a row, and tidying it again changes nothing. *)
Theorem tidy_normal_form (text : str) :
  (exists ls, tidy text = join [nl] ls /\ lines (tidy text) = ls /\ Forall neat ls /\ spaced true ls /\
     forall l a, ls = l ++ [a] -> a <> []) /\
  tidy (tidy text) = tidy text.
Proof.
  destruct (tidy_lines_normal text) as (Hneat & Hsp & Hlast).
  assert (lines (tidy text) = tidy_lines text) as Hlines.
  { rewrite tidy_tidy_lines. apply lines_join; [|done].
    eapply Forall_impl; [exact Hneat|]. intros l Hl. by apply neat_no_control. }
  split; [exists (tidy_lines text); split_and!; auto using tidy_tidy_lines|].
  rewrite (tidy_tidy_lines (tidy text)). unfold tidy_lines at 1. rewrite Hlines.
  rewrite tidied_id by done. rewrite tidy_tidy_lines. f_equal. apply drop_while_end_id.
  intros l a H. apply bool_decide_eq_false. by apply (Hlast l).
Qed.

(** The prefix match of [strip_elements] also cuts a [<header>] element out, with the
    text in it. *)
Example header_element_is_lost :
  html_to_text (lit "<body><header><h1>Disk failing</h1></header><p>sda</p></body>") = lit "sda".
Proof. vm_compute. reflexivity. Qed.
