(* ===== verification/Mime.v ===== *)
(** * MIME ([src/src/smtp/mime.rs], lines 1-138) and the message parser
    ([src/src/smtp/parser.rs])

    [parse_mail] is the parser of the [mailparse] crate; a [ParsedMail] is the tree it
    answers, each node with what the program asks of it.  Nothing is assumed of the
    parser. *)

From S2P Require Import Prelude RustStr Utf8 Html Store.

(** [mailparse::DispositionType]. *)
Inductive DispositionType : Type :=
| Inline
| Attachment
| FormData
| Extension (s : str).

#[export] Instance DispositionType_eq_dec : EqDecision DispositionType.
Proof. solve_decision. Defined.

(** The answers of the accessors the program calls: [ctype.mimetype], [ctype.params],
    [get_content_disposition()], [get_body().ok()],
    [headers.get_first_value("Subject")] and [subparts]. *)
Inductive ParsedMail : Type := mkMail {
  mimetype : str;
  ctype_params : gmap (list Z) str;
  disposition : DispositionType;
  disposition_params : gmap (list Z) str;
  get_body : option str;
  subject_header : option str;
  subparts : list ParsedMail;
}.

Record MimeMessage : Type := mkMimeMessage { mime_subject : option str; mime_body : str }.

Definition is_attachment (mail : ParsedMail) : bool :=
  if bool_decide (disposition mail = Attachment) then true
  else
    let mimetype := to_ascii_lowercase (mimetype mail) in
    negb (starts_with (lit "text/") mimetype) && negb (starts_with (lit "multipart/") mimetype).

(** [iter().find_map(f)]. *)
Definition find_map {A B} (f : A -> option B) : list A -> option B :=
  fix go l := match l with [] => None | a :: l' => match f a with Some b => Some b | None => go l' end end.

Fixpoint find_text (mail : ParsedMail) (want : str) : option ParsedMail :=
  match subparts mail with
  | [] =>
      if eq_ignore_ascii_case (mimetype mail) want && negb (is_attachment mail)
      then Some mail else None
  | _ => find_map (fun part => find_text part want) (subparts mail)
  end.

Definition attachment_name (mail : ParsedMail) : str :=
  let name :=
    match disposition_params mail !! lit "filename" with
    | Some n => Some n
    | None => ctype_params mail !! lit "name"
    end in
  match trim <$> name with
  | Some [] | None => lit "unnamed"
  | Some n => n
  end.

(** The vector is threaded through the calls. *)
Fixpoint collect_attachments (mail : ParsedMail) (out : list str) : list str :=
  match subparts mail with
  | [] => if negb (is_attachment mail) then out else out ++ [attachment_name mail]
  | _ => foldl (fun out part => collect_attachments part out) out (subparts mail)
  end.

Definition describe_attachments (names : list str) : option str :=
  match names with
  | [] => None
  | [name] => Some (lit "[1 attachment: " ++ name ++ lit "]")
  | _ => Some (lit "[" ++ show_int (Z.of_nat (length names)) ++ lit " attachments: "
                ++ join (lit ", ") names ++ lit "]")
  end.

Definition normalise_newlines (body : str) : str := join [nl] (lines body).

Section Mime.
Variable parse_mail : bytes -> option ParsedMail.

Definition parse_text (mail : ParsedMail) : option str :=
  let text := part ← find_text mail (lit "text/plain"); get_body part in
  let text :=
    match text with
    | Some t => Some t
    | None => html_to_text <$> (part ← find_text mail (lit "text/html"); get_body part)
    end in
  normalise_newlines <$> text.

Definition parse (data : str) : option MimeMessage :=
  mail ← parse_mail (encode_utf8 data);
  let subject := subject_header mail in
  let text := parse_text mail in
  let attachments := collect_attachments mail [] in
  if bool_decide (text = None) && bool_decide (attachments = []) then None
  else
    let body := default [] text in
    let body :=
      match describe_attachments attachments with
      | Some note => (if bool_decide (body <> []) then body ++ [nl; nl] else body) ++ note
      | None => body
      end in
    Some (mkMimeMessage subject body).
End Mime.

(** ** [parser.rs]

    The state of the loop of [extract_subject_and_body]. *)
Record header_state : Type := mkHeaders {
  hs_subject : option str;
  hs_in_headers : bool;
  hs_body_lines : list str;
  hs_last_header : option str;
}.

Definition header_line (st : header_state) (line : str) : header_state :=
  if hs_in_headers st then
    if bool_decide (trim line = []) then
      mkHeaders (hs_subject st) false (hs_body_lines st) (hs_last_header st)
    else if starts_with (lit " ") line || starts_with [9] line then
      if bool_decide (hs_last_header st = Some (lit "subject")) then
        match hs_subject st with
        | Some existing =>
            mkHeaders (Some (existing ++ lit " " ++ trim line)) true (hs_body_lines st) (hs_last_header st)
        | None => st
        end
      else st
    else
      let '(name, value) := splitn2 58 line in
      let name := to_ascii_lowercase (trim name) in
      let value := trim (default [] value) in
      mkHeaders (if bool_decide (name = lit "subject") then Some value else hs_subject st)
        true (hs_body_lines st) (Some name)
  else mkHeaders (hs_subject st) false (hs_body_lines st ++ [line]) (hs_last_header st).

Definition extract_subject_and_body (data : str) : option str * str :=
  let st := foldl header_line (mkHeaders None true [] None) (lines data) in
  (hs_subject st, join [nl] (hs_body_lines st)).

Definition parse_data (parse_mail : bytes -> option ParsedMail)
    (from : option str) (to : list str) (data : str) : Message :=
  let '(subject, body) :=
    match parse parse_mail data with
    | Some parsed => (mime_subject parsed, mime_body parsed)
    | None => extract_subject_and_body data
    end in
  let from := match from with Some [] => None | _ => from end in
  mkMessage from to subject body.

(** ** Lemmas *)

(** The nested induction principle of the part tree. *)
Lemma ParsedMail_ind' (P : ParsedMail -> Prop) :
  (forall mail, Forall P (subparts mail) -> P mail) -> forall mail, P mail.
Proof.
  intros H. fix IH 1. intros [mt cp d dp b s subs]. apply H. simpl.
  induction subs as [|m subs IHs]; constructor; [apply IH | exact IHs].
Qed.

(** The leaf parts, depth first. *)
Fixpoint leaves (mail : ParsedMail) : list ParsedMail :=
  match subparts mail with
  | [] => [mail]
  | _ => concat (leaves <$> subparts mail)
  end.

Lemma find_map_app {A B} (f : A -> option B) l l' :
  find_map f (l ++ l') = match find_map f l with Some b => Some b | None => find_map f l' end.
Proof. induction l as [|a l IH]; simpl; [done|]. by destruct (f a). Qed.

Lemma find_map_concat {A B} (f : A -> option B) (g : A -> list A) (h : A -> option B) l :
  Forall (fun a => h a = find_map f (g a)) l -> find_map h l = find_map f (concat (g <$> l)).
Proof.
  induction 1 as [|a l Ha _ IH]; [done|]. csimpl. rewrite find_map_app, <- Ha. by rewrite <- IH.
Qed.

Definition is_text_leaf (want : str) (mail : ParsedMail) : bool :=
  eq_ignore_ascii_case (mimetype mail) want && negb (is_attachment mail).

Lemma find_text_leaves want mail :
  find_text mail want = find_map (fun leaf => if is_text_leaf want leaf then Some leaf else None) (leaves mail).
Proof.
  induction mail as [mail IH] using ParsedMail_ind'. destruct mail as [mt cp d dp b s subs].
  cbn [find_text leaves subparts] in *. destruct subs as [|m subs].
  - cbn [find_map]. unfold is_text_leaf. by destruct (_ && _).
  - by apply find_map_concat.
Qed.

Lemma foldl_collect (f : ParsedMail -> list str -> list str) (g : ParsedMail -> list str) l out :
  Forall (fun part => forall out, f part out = out ++ g part) l ->
  foldl (fun out part => f part out) out l = out ++ concat (g <$> l).
Proof.
  intros H. revert out. induction H as [|a l Ha _ IH]; intros out; [by rewrite app_nil_r|].
  csimpl. rewrite Ha, IH. by rewrite app_assoc.
Qed.

Lemma collect_attachments_leaves mail out :
  collect_attachments mail out
  = out ++ (attachment_name <$> filter (fun leaf => is_attachment leaf = true) (leaves mail)).
Proof.
  revert out. induction mail as [mail IH] using ParsedMail_ind'. destruct mail as [mt cp d dp b s subs].
  intros out. cbn [collect_attachments leaves subparts] in *. destruct subs as [|m subs].
  - destruct (is_attachment _) eqn:E; cbn [negb].
    + by rewrite filter_cons_True.
    + rewrite filter_cons_False by congruence. by rewrite app_nil_r.
  - rewrite (foldl_collect _ _ _ _ IH). f_equal. clear IH.
    generalize (m :: subs) as l. intros l. induction l as [|a l IHl]; [done|]. csimpl.
    rewrite filter_app, fmap_app. by rewrite IHl.
Qed.

Lemma attachment_name_nonempty mail : attachment_name mail <> [].
Proof. unfold attachment_name. by destruct (trim <$> _) as [[|]|]. Qed.

Lemma describe_attachments_mentions names name note :
  name ∈ names -> describe_attachments names = Some note -> exists pre post, note = pre ++ name ++ post.
Proof.
  intros Hin. destruct names as [|n1 [|n2 names]]; [done| |].
  - apply list_elem_of_singleton in Hin as ->. intros H. apply Some_inj in H as <-. by eexists (lit _), _.
  - unfold describe_attachments. intros H. apply Some_inj in H as <-. remember (n1 :: n2 :: names) as l eqn:Hl. clear Hl.
    assert (exists p q, join (lit ", ") l = p ++ name ++ q) as (p & q & ->).
    { induction l as [|w l IH]; [by apply not_elem_of_nil in Hin|].
      apply elem_of_cons in Hin as [->|Hin].
      - destruct l; [exists [], []; by rewrite app_nil_r|]. rewrite join_cons by done. by exists [], (lit ", " ++ join (lit ", ") (l :: l0)).
      - destruct IH as (p & q & Hpq); [done|]. destruct l as [|w' l]; [by apply not_elem_of_nil in Hin|].
        rewrite join_cons by done. rewrite Hpq. exists (w ++ lit ", " ++ p), q. by rewrite <- !app_assoc. }
    exists (lit "[" ++ show_int (Z.of_nat (length l)) ++ lit " attachments: " ++ p), (q ++ lit "]").
    rewrite <- !app_assoc. reflexivity.
Qed.

(** Header folding. *)
Definition header_content (line : str) : Prop := trim line <> [].
Definition continuation (line : str) : bool := starts_with (lit " ") line || starts_with [9] line.

Lemma header_lines_body st ls :
  hs_in_headers st = false ->
  foldl header_line st ls = mkHeaders (hs_subject st) false (hs_body_lines st ++ ls) (hs_last_header st).
Proof.
  revert st. induction ls as [|l ls IH]; intros [s h b lh]; simpl; intros ->.
  - by rewrite app_nil_r.
  - rewrite IH by done. unfold header_line. simpl. by rewrite <- app_assoc.
Qed.

Lemma header_lines_headers st ls :
  hs_in_headers st = true -> Forall header_content ls ->
  let st' := foldl header_line st ls in hs_in_headers st' = true /\ hs_body_lines st' = hs_body_lines st.
Proof.
  intros Hst Hls. revert st Hst. induction Hls as [|l ls Hl _ IH]; intros st Hst; [done|]. simpl.
  assert (hs_in_headers (header_line st l) = true /\ hs_body_lines (header_line st l) = hs_body_lines st) as [H1 H2].
  { unfold header_line. rewrite Hst, bool_decide_eq_false_2 by done.
    destruct (_ || _); [case_match; [case_match|]|]; try done. by destruct (splitn2 _ _). }
  destruct (IH _ H1) as [H3 H4]. split; [done|]. by rewrite H4.
Qed.

Lemma lines_line w rest : nl ∉ w -> lines (w ++ nl :: rest) = strip_line_end (w ++ [nl]) :: lines rest.
Proof. intros Hw. unfold lines. by rewrite split_inclusive_line. Qed.

(** What the body is made of. *)
Lemma parse_Some parse_mail data msg :
  parse parse_mail data = Some msg ->
  exists mail, parse_mail (encode_utf8 data) = Some mail /\ mime_subject msg = subject_header mail /\
    (parse_text mail <> None \/ collect_attachments mail [] <> []) /\
    exists sep, mime_body msg = default [] (parse_text mail) ++ sep ++
                                default [] (describe_attachments (collect_attachments mail [])).
Proof.
  unfold parse. destruct (parse_mail _) as [mail|]; [|done]. cbn [mbind option_bind].
  intros H. exists mail. split; [done|].
  destruct (_ && _) eqn:E; [done|]. apply Some_inj in H as <-. cbn [mime_subject mime_body].
  split; [done|]. split.
  { apply andb_false_iff in E as [E|E]; apply bool_decide_eq_false in E; auto. }
  destruct (describe_attachments _) as [note|]; cbn [default from_option].
  - destruct (bool_decide (default [] _ <> [])).
    + exists [nl; nl]. rewrite <- app_assoc. done.
    + exists []. done.
  - exists []. by rewrite app_nil_r.
Qed.

Lemma describe_attachments_None names : describe_attachments names = None -> names = [].
Proof. by destruct names as [|? [|]]. Qed.

(** The headers of a message unfolded, last first: the specification of the subject. *)
Fixpoint unfold_headers (acc : list (str * str)) (ls : list str) : list (str * str) :=
  match ls with
  | [] => acc
  | l :: ls' =>
      if continuation l then
        match acc with
        | [] => unfold_headers [] ls'
        | (name, value) :: acc' => unfold_headers ((name, value ++ lit " " ++ trim l) :: acc') ls'
        end
      else
        let '(name, value) := splitn2 58 l in
        unfold_headers ((to_ascii_lowercase (trim name), trim (default [] value)) :: acc) ls'
  end.

Definition header_value (name : str) (headers : list (str * str)) : option str :=
  find_map (fun h => if bool_decide (h.1 = name) then Some h.2 else None) headers.

Lemma header_lines_unfold st acc ls :
  hs_in_headers st = true -> Forall header_content ls ->
  hs_subject st = header_value (lit "subject") acc -> hs_last_header st = fst <$> head acc ->
  hs_subject (foldl header_line st ls) = header_value (lit "subject") (unfold_headers acc ls).
Proof.
  intros Hst Hls. revert st acc Hst. induction Hls as [|l ls Hl _ IH]; intros st acc Hst Hsub Hlast; [done|].
  cbn [foldl unfold_headers]. unfold header_line at 2. rewrite Hst, bool_decide_eq_false_2 by done.
  fold (continuation l). destruct (continuation l).
  - destruct acc as [|[n v] acc]; cbn [head fmap option_fmap option_map fst] in Hlast; rewrite Hlast.
    + rewrite bool_decide_eq_false_2 by done. by apply IH.
    + unfold header_value in Hsub. cbn [find_map fst snd] in Hsub.
      destruct (bool_decide_reflect (n = lit "subject")) as [->|Hn].
      * rewrite bool_decide_eq_true_2 by done. rewrite Hsub. apply IH; [done| |done].
        unfold header_value. cbn [find_map fst snd]. by rewrite bool_decide_eq_true_2.
      * rewrite bool_decide_eq_false_2 by congruence. apply IH; [done| |done].
        unfold header_value. cbn [find_map fst snd]. by rewrite bool_decide_eq_false_2.
  - destruct (splitn2 58 l) as [n v]. apply IH; [done| |done].
    unfold header_value. cbn [find_map fst snd hs_subject].
    destruct (bool_decide_reflect (to_ascii_lowercase (trim n) = lit "subject")); done.
Qed.

(** [trim] does not see the line end [strip_line_end] removes. *)
Lemma strip_line_end_snoc l :
  strip_line_end (l ++ [nl]) = l \/ l = strip_line_end (l ++ [nl]) ++ [cr].
Proof.
  unfold strip_line_end. rewrite strip_suffix1_snoc.
  destruct (strip_suffix1 cr l) as [l'|] eqn:E; [|by left].
  apply strip_suffix1_Some in E as ->. by right.
Qed.

Lemma trim_nil_spaces s : trim s = [] <-> spaces s.
Proof.
  split.
  - unfold trim, trim_end, drop_while_end. intros H.
    destruct (drop_while_suffix is_whitespace s) as (k & Hk & Hall). fold (trim_start s) in Hk.
    destruct (trim_start s) as [|c t] eqn:Hts; [by rewrite Hk, app_nil_r|].
    pose proof (drop_while_head _ _ _ _ Hts) as Hc.
    assert (c ∈ drop_while is_whitespace (reverse (c :: t))) as Hin; [|by rewrite <- elem_of_reverse, H in Hin; apply not_elem_of_nil in Hin].
    rewrite reverse_cons. clear -Hc. induction (reverse t) as [|a r IH]; simpl; [rewrite Hc; left|].
    destruct (is_whitespace a); [done|]. right. apply elem_of_app. right. left.
  - intros H. unfold trim. rewrite <- (app_nil_r s) at 1. by rewrite trim_start_spaces.
Qed.

Lemma header_content_stripped h : trim h <> [] -> header_content (strip_line_end (h ++ [nl])).
Proof.
  unfold header_content. rewrite !trim_nil_spaces. destruct (strip_line_end_snoc h) as [->|Heq]; [done|].
  intros H Hs. apply H. rewrite Heq. apply Forall_app. split; [done|]. by constructor.
Qed.

Lemma trim_blank_line blank : spaces blank -> trim (strip_line_end (blank ++ [nl])) = [].
Proof.
  intros H. apply trim_nil_spaces. destruct (strip_line_end_snoc blank) as [->|Heq]; [done|].
  rewrite Heq in H. by apply Forall_app in H as [H _].
Qed.

Lemma parse_data_to parse_mail from to data : msg_to (parse_data parse_mail from to data) = to.
Proof. unfold parse_data. destruct (parse parse_mail data); [done|]. by destruct (extract_subject_and_body data). Qed.

Lemma parse_data_sender parse_mail from to data :
  msg_from (parse_data parse_mail from to data) = match from with Some [] => None | _ => from end.
Proof. unfold parse_data. destruct (parse parse_mail data); [done|]. by destruct (extract_subject_and_body data). Qed.
