(* ===== verification/MimeProps.v ===== *)
(** * Properties of the MIME walk and of the message parser *)

From S2P Require Import Prelude RustStr Utf8 Html Store Mime.

(** the recursive walks are the plain list functions on the leaf parts in
    depth-first order, whatever the nesting: [find_text] is the first leaf of the wanted
    type that is not an attachment, [collect_attachments] the names of the leaves that
    are, none left out. *)
Theorem walks_agree_with_leaves (mail : ParsedMail) (want : str) (out : list str) :
  find_text mail want
    = find_map (fun leaf => if is_text_leaf want leaf then Some leaf else None) (leaves mail) /\
  collect_attachments mail out
    = out ++ (attachment_name <$> filter (fun leaf => is_attachment leaf = true) (leaves mail)).
Proof. split; [apply find_text_leaves | apply collect_attachments_leaves]. Qed.

(** C38: nothing in a MIME message is silently dropped.  When the message parses, its
    subject is the header's, its body starts with the first plain part when that
    decodes (whatever HTML stands beside it, before or after), and every attachment is
    mentioned by name; the raw fallback is taken exactly when the block does not parse or
    has neither a text part that decodes nor an attachment. *)
Theorem mime_body_complete (parse_mail : bytes -> option ParsedMail) (data : str) :
  (parse parse_mail data = None <->
     forall mail, parse_mail (encode_utf8 data) = Some mail ->
       parse_text mail = None /\ collect_attachments mail [] = []) /\
  forall msg, parse parse_mail data = Some msg ->
    exists mail, parse_mail (encode_utf8 data) = Some mail /\ mime_subject msg = subject_header mail /\
      (forall part text, find_text mail (lit "text/plain") = Some part -> get_body part = Some text ->
         normalise_newlines text `prefix_of` mime_body msg) /\
      (forall leaf, leaf ∈ leaves mail -> is_attachment leaf = true ->
         exists pre post, mime_body msg = pre ++ attachment_name leaf ++ post).
Proof.
  split.
  { unfold parse. destruct (parse_mail _) as [mail|]; [|naive_solver]. cbn [mbind option_bind].
    destruct (_ && _) eqn:E.
    - apply andb_true_iff in E as [E1%bool_decide_eq_true E2%bool_decide_eq_true]. naive_solver.
    - apply andb_false_iff in E. split; [done|]. intros H. destruct (H mail eq_refl) as [H1 H2].
      destruct E as [E|E]; apply bool_decide_eq_false in E; done. }
  intros msg Hmsg. destruct (parse_Some _ _ _ Hmsg) as (mail & Hm & Hsub & _ & sep & Hbody).
  exists mail. split_and!; [done..| |].
  - intros part text Hp Ht. rewrite Hbody. unfold parse_text. rewrite Hp. cbn [mbind option_bind].
    rewrite Ht. by apply prefix_app_r.
  - intros leaf Hl Ha.
    assert (attachment_name leaf ∈ collect_attachments mail []) as Hin.
    { rewrite collect_attachments_leaves. apply list_elem_of_fmap. exists leaf.
      split; [done|]. by apply list_elem_of_filter. }
    destruct (describe_attachments (collect_attachments mail [])) as [note|] eqn:Hd.
    + destruct (describe_attachments_mentions _ _ _ Hin Hd) as (p & q & ->).
      rewrite Hbody. cbn [default from_option]. exists (default [] (parse_text mail) ++ sep ++ p), q.
      by rewrite <- !app_assoc.
    + apply describe_attachments_None in Hd. rewrite Hd in Hin. by apply not_elem_of_nil in Hin.
Qed.

(** line ends do not matter: text sent with CRLF and the same text sent with LF
    give the same body, its lines joined by newlines without a final one. *)
Theorem normalise_newlines_exact (ls : list str) (Hls : Forall (fun l => nl ∉ l /\ cr ∉ l) ls) :
  normalise_newlines (concat ((fun l => l ++ [cr; nl]) <$> ls)) = join [nl] ls /\
  normalise_newlines (concat ((fun l => l ++ [nl]) <$> ls)) = join [nl] ls.
Proof.
  unfold normalise_newlines.
  assert (lines (concat ((fun l => l ++ [cr; nl]) <$> ls)) = ls /\
          lines (concat ((fun l => l ++ [nl]) <$> ls)) = ls) as [-> ->]; [|done].
  induction Hls as [|l ls [Hnl Hcr] _ [IH1 IH2]]; [done|]. csimpl.
  rewrite <- !app_assoc. cbn [app]. rewrite lines_line by done. split.
  - assert (nl ∉ l ++ [cr]) as Hn by by rewrite elem_of_app, list_elem_of_singleton; intros [|].
    change (l ++ cr :: nl :: ?r) with (l ++ [cr] ++ nl :: r).
    rewrite app_assoc, lines_line, IH1 by done. f_equal.
    unfold strip_line_end. by rewrite strip_suffix1_snoc, strip_suffix1_snoc.
  - rewrite IH2. f_equal. unfold strip_line_end. rewrite strip_suffix1_snoc.
    destruct (strip_suffix1 cr l) as [l'|] eqn:E; [|done].
    apply strip_suffix1_Some in E as ->. exfalso. apply Hcr, elem_of_app. right. left.
Qed.

Lemma normalise_newlines_exact_witness :
  normalise_newlines (lit "a" ++ [cr; nl; cr; nl] ++ lit "b" ++ [cr; nl]) = lit "a" ++ [nl; nl] ++ lit "b" /\
  normalise_newlines (lit "a" ++ [nl; nl] ++ lit "b" ++ [nl]) = lit "a" ++ [nl; nl] ++ lit "b".
Proof. apply (normalise_newlines_exact [lit "a"; []; lit "b"]). by_decide. Defined.

(** the fallback splits a message at its first blank line: the body is what follows
    with its line ends normalised, and the subject is the value of the last Subject
    header with its folded continuation lines joined, in any letter case, and no other
    header's. *)
Theorem fallback_split_exact (hs : list str) (blank body : str)
    (Hhs : Forall (fun h => nl ∉ h /\ trim h <> []) hs) (Hblank : spaces blank) (Hnl : nl ∉ blank) :
  extract_subject_and_body (concat ((fun h => h ++ [nl]) <$> hs) ++ blank ++ nl :: body)
  = (header_value (lit "subject") (unfold_headers [] ((fun h => strip_line_end (h ++ [nl])) <$> hs)),
     normalise_newlines body).
Proof.
  assert (lines (concat ((fun h => h ++ [nl]) <$> hs) ++ blank ++ nl :: body)
    = ((fun h => strip_line_end (h ++ [nl])) <$> hs) ++ strip_line_end (blank ++ [nl]) :: lines body) as Hlines.
  { induction Hhs as [|h hs [Hh _] _ IH]; csimpl; [by rewrite lines_line|].
    rewrite <- !app_assoc. cbn [app]. by rewrite lines_line, IH. }
  assert (Forall header_content ((fun h => strip_line_end (h ++ [nl])) <$> hs)) as Hc.
  { apply Forall_fmap. eapply Forall_impl; [exact Hhs|]. intros h [_ Ht]. by apply header_content_stripped. }
  unfold extract_subject_and_body. rewrite Hlines, foldl_app.
  remember (foldl header_line (mkHeaders None true [] None) ((fun h => strip_line_end (h ++ [nl])) <$> hs)) as st eqn:Hst.
  destruct (header_lines_headers (mkHeaders None true [] None) _ eq_refl Hc) as [Hin Hbody].
  rewrite <- Hst in Hin, Hbody. cbn [hs_body_lines] in Hbody. cbn [foldl].
  assert (header_line st (strip_line_end (blank ++ [nl])) = mkHeaders (hs_subject st) false [] (hs_last_header st)) as ->.
  { unfold header_line. rewrite Hin, Hbody. by rewrite bool_decide_eq_true_2 by by apply trim_blank_line. }
  rewrite header_lines_body by done. cbn [hs_subject hs_body_lines app]. f_equal.
  rewrite Hst. by apply header_lines_unfold.
Qed.

Lemma fallback_split_exact_witness :
  extract_subject_and_body
    (lit "X: y" ++ [nl] ++ lit "SUBJECT: disk" ++ [cr; nl] ++ [9] ++ lit "full " ++ [nl] ++ lit "To: z" ++ [nl] ++ lit " w" ++ [nl]
       ++ [cr; nl] ++ lit "body" ++ [cr; nl] ++ lit "x")
  = (Some (lit "disk full"), lit "body" ++ [nl] ++ lit "x").
Proof.
  exact (fallback_split_exact
    [lit "X: y"; lit "SUBJECT: disk" ++ [cr]; [9] ++ lit "full "; lit "To: z"; lit " w"] [cr] (lit "body" ++ [cr; nl] ++ lit "x")
    ltac:(by_decide) ltac:(by_decide) ltac:(by_decide)).
Defined.

(** building the message keeps the envelope: the recipients are passed on in order
    and unchanged, the null sender becomes [None] and any other sender is kept, whatever
    the data and whether MIME parsing or the fallback is used. *)
Theorem parse_data_keeps_envelope (parse_mail : bytes -> option ParsedMail)
    (from : option str) (to : list str) (data : str) :
  let m := parse_data parse_mail from to data in
  msg_to m = to /\
  (forall addr, msg_from m = Some addr <-> from = Some addr /\ addr <> []) /\
  (forall parsed, parse parse_mail data = Some parsed ->
     msg_subject m = mime_subject parsed /\ msg_body m = mime_body parsed) /\
  (parse parse_mail data = None -> (msg_subject m, msg_body m) = extract_subject_and_body data).
Proof.
  unfold parse_data. destruct (parse parse_mail data) as [parsed|]; [|destruct (extract_subject_and_body data)];
    cbn [msg_to msg_from msg_subject msg_body]; split_and!; try naive_solver;
    intros addr; destruct from as [[|]|]; naive_solver.
Qed.
