(* ===== verification/ConfigData.v ===== *)
(** * The configuration record ([src/src/config.rs], lines 10-144) *)

From S2P Require Import Prelude RustStr.

Definition DEFAULT_MESSAGE_TEMPLATE : str :=
  lit "{%- if from %}From: {{ from }}" ++ [nl] ++
  lit "{% endif %}{%- if to %}To: {{ to }}" ++ [nl] ++
  lit "{% endif %}{%- if subject %}Subject: {{ subject }}{% else %}Subject: (none){% endif %}" ++ [nl; nl] ++
  lit "{%- if body and body is string and body | trim %}" ++ [nl] ++
  lit "{{ body }}{% else %}" ++ [nl] ++
  lit "(empty message body){% endif %}".

Record SmtpConfig : Type := mkSmtpConfig {
  smtp_bind : str;
  smtp_max_message_size : Z;
  smtp_timeout : Z;
  smtp_max_connections : Z;
  smtp_max_session_seconds : Z;
}.

Definition default_max_connections : Z := 100.
Definition default_max_session_seconds : Z := 300.

Record RouteConfig : Type := mkRouteConfig {
  rc_to : option str;
  rc_from : option str;
  rc_room_id : str;
}.

Definition default_require_e2ee : bool := true.
Definition default_message_template : str := DEFAULT_MESSAGE_TEMPLATE.

Record MatrixCredentials : Type := mkCredentials {
  cred_password : option str;
  cred_access_token : option str;
  cred_device_id : option str;
}.

(** The fields [impl Debug for MatrixCredentials] writes. *)
Definition credentials_debug_fields (c : MatrixCredentials) : list (str * option str) :=
  [(lit "password", (fun _ => lit "[REDACTED]") <$> cred_password c);
   (lit "access_token", (fun _ => lit "[REDACTED]") <$> cred_access_token c);
   (lit "device_id", cred_device_id c)].

Record MatrixConfig : Type := mkMatrixConfig {
  mx_homeserver : str;
  mx_user_id : str;
  mx_device_name : str;
  mx_room_id : str;
  mx_store_path : str;
  mx_require_e2ee : bool;
  mx_message_template : str;
  mx_routes : list RouteConfig;
  mx_credentials : MatrixCredentials;
}.

Record LoggingConfig : Type := mkLogging { log_level : str; log_format : str }.

Record QueueConfig : Type := mkQueueConfig {
  q_max_retries : Z;
  q_retry_backoff : Z;
  q_db_path : str;
  q_max_len : Z;
}.

Definition default_queue_db_path : str := lit "/var/lib/chimney-post/queue.db".
Definition default_queue_max_len : Z := 10000.

Record Config : Type := mkConfig {
  cfg_smtp : SmtpConfig;
  cfg_matrix : MatrixConfig;
  cfg_logging : LoggingConfig;
  cfg_queue : QueueConfig;
}.

(** The values [serde] can put in the numeric fields. *)
Definition config_in_range (c : Config) : Prop :=
  is_u64 (smtp_max_message_size (cfg_smtp c)) /\ is_u64 (smtp_timeout (cfg_smtp c)) /\
  is_u64 (smtp_max_connections (cfg_smtp c)) /\ is_u64 (smtp_max_session_seconds (cfg_smtp c)) /\
  is_u32 (q_max_retries (cfg_queue c)) /\ is_u64 (q_retry_backoff (cfg_queue c)) /\
  is_u64 (q_max_len (cfg_queue c)).
