(* ===== verification/Routing.v ===== *)
(** * Room routing ([src/src/matrix/routing.rs])

    [RoomId] is [ruma]'s [OwnedRoomId] and [parse_owned_room_id] its [FromStr], with the
    text of its error; nothing is assumed of them. *)

From S2P Require Import Prelude RustStr Error Store ConfigData.

(** [blank_to_none]. *)
Definition blank_to_none (value : option str) : option str :=
  match trim <$> value with Some [] | None => None | v => v end.

Section Routing.
Context {RoomId : Type} (parse_owned_room_id : str -> result str RoomId).

Record CompiledRoute : Type := mkRoute {
  route_to : option str;
  route_from : option str;
  route_room_id : RoomId;
}.

Definition matches (route : CompiledRoute) (message : Message) : bool :=
  match route_from route with
  | Some want_from =>
      match msg_from message with
      | Some f => eq_ignore_ascii_case f want_from
      | None => false
      end
  | None => true
  end &&
  match route_to route with
  | Some want_to => existsb (fun addr => eq_ignore_ascii_case addr want_to) (msg_to message)
  | None => true
  end.

Record Router : Type := mkRouter {
  router_routes : list CompiledRoute;
  router_default_room_id : RoomId;
}.

Definition parse_room_id (value field : str) : Result RoomId :=
  map_err (fun error => ChimneyError.Config (lit "invalid " ++ field ++ lit " (" ++ value ++ lit "): " ++ error))
    (parse_owned_room_id value).

Definition build_route (idx : nat) (route : RouteConfig) : Result CompiledRoute :=
  let to := blank_to_none (rc_to route) in
  let from := blank_to_none (rc_from route) in
  if bool_decide (to = None) && bool_decide (from = None) then
    Err (ChimneyError.Config (lit "matrix.routes[" ++ show_int (Z.of_nat idx) ++
           lit "] must set at least one of `to` or `from`"))
  else
    room_id ← parse_room_id (rc_room_id route)
                (lit "matrix.routes[" ++ show_int (Z.of_nat idx) ++ lit "].room_id");
    Ok (mkRoute to from room_id).

Definition build (default_room_id : str) (routes : list RouteConfig) : Result Router :=
  default_room_id ← parse_room_id default_room_id (lit "matrix.room_id");
  routes ← collect_results build_route 0 routes;
  Ok (mkRouter routes default_room_id).

Definition from_config (matrix : MatrixConfig) : Result Router :=
  build (mx_room_id matrix) (mx_routes matrix).

Definition resolve (router : Router) (message : Message) : RoomId :=
  match List.find (fun route => matches route message) (router_routes router) with
  | Some route => route_room_id route
  | None => router_default_room_id router
  end.
End Routing.
Arguments CompiledRoute RoomId : clear implicits.
Arguments Router RoomId : clear implicits.

(** ** Lemmas *)

(** What a rule says, over the addresses: the specification of [matches]. *)
Definition same_address (a b : str) : Prop := to_ascii_lowercase a = to_ascii_lowercase b.

Definition rule_applies (to from : option str) (m : Message) : Prop :=
  (forall want, from = Some want -> exists f, msg_from m = Some f /\ same_address f want) /\
  (forall want, to = Some want -> exists addr, addr ∈ msg_to m /\ same_address addr want).

Lemma matches_spec {RoomId} (route : CompiledRoute RoomId) m :
  matches route m = true <-> rule_applies (route_to route) (route_from route) m.
Proof.
  unfold matches, rule_applies, same_address. rewrite andb_true_iff. f_equiv.
  - destruct (route_from route) as [want|]; [|naive_solver].
    destruct (msg_from m) as [f|]; [rewrite eq_ignore_ascii_case_spec|]; naive_solver.
  - destruct (route_to route) as [want|]; [|naive_solver].
    rewrite existsb_exists. setoid_rewrite <- list_elem_of_In. setoid_rewrite eq_ignore_ascii_case_spec.
    naive_solver.
Qed.

(** Addresses that differ in the case of ASCII letters are the same to a rule. *)
Definition same_addresses (m m' : Message) : Prop :=
  (to_ascii_lowercase <$> msg_from m) = (to_ascii_lowercase <$> msg_from m') /\
  (to_ascii_lowercase <$> msg_to m) = (to_ascii_lowercase <$> msg_to m').

#[export] Instance same_addresses_equiv : Equivalence same_addresses.
Proof. unfold same_addresses. split; [intros m | intros m m' [-> ->] | intros m m' m'' [-> ->]]; done. Qed.

Lemma rule_applies_impl to from m m' :
  same_addresses m m' -> rule_applies to from m -> rule_applies to from m'.
Proof.
  intros [Hf Ht] [H1 H2]. split.
  - intros want Hw. destruct (H1 want Hw) as (f & Hm & Hs). rewrite Hm in Hf.
    destruct (msg_from m') as [f'|]; [|done]. exists f'. split; [done|].
    injection Hf as Hf. unfold same_address in *. congruence.
  - intros want Hw. destruct (H2 want Hw) as (a & Ha & Hs).
    assert (to_ascii_lowercase a ∈ to_ascii_lowercase <$> msg_to m') as Hin.
    { rewrite <- Ht. by apply list_elem_of_fmap_2. }
    apply list_elem_of_fmap in Hin as (a' & Ha' & Hin). exists a'. split; [done|].
    unfold same_address in *. congruence.
Qed.

#[export] Instance rule_applies_proper to from :
  Proper (same_addresses ==> iff) (rule_applies to from).
Proof. intros m m' H. split; apply rule_applies_impl; [done | by symmetry]. Qed.

#[export] Instance matches_proper {RoomId} (route : CompiledRoute RoomId) :
  Proper (same_addresses ==> eq) (matches route).
Proof. intros m m' H. apply eq_true_iff_eq. rewrite !matches_spec. by rewrite H. Qed.

Lemma find_ext {A} (f g : A -> bool) l : (forall a, f a = g a) -> List.find f l = List.find g l.
Proof. intros H. induction l as [|a l IH]; simpl; [done|]. by rewrite H, IH. Qed.

#[export] Instance resolve_proper {RoomId} (router : Router RoomId) :
  Proper (same_addresses ==> eq) (resolve router).
Proof.
  intros m m' H. unfold resolve. rewrite (find_ext _ (fun route => matches route m')); [done|].
  intros route. by rewrite H.
Qed.

Lemma find_Some_first {A} (f : A -> bool) l a :
  List.find f l = Some a <->
  exists i, l !! i = Some a /\ f a = true /\ forall j b, (j < i)%nat -> l !! j = Some b -> f b = false.
Proof.
  induction l as [|x l IH]; simpl.
  - split; [done|]. intros (i & Hi & _). by rewrite lookup_nil in Hi.
  - destruct (f x) eqn:Hx.
    + split.
      * intros [= <-]. exists 0%nat. split_and!; [done..|]. intros; lia.
      * intros (i & Hi & Ha & Hlt). destruct i as [|i]; [by injection Hi as ->|].
        rewrite (Hlt 0%nat x) in Hx; [done|lia|done].
    + rewrite IH. split.
      * intros (i & Hi & Ha & Hlt). exists (S i). split_and!; [done..|].
        intros [|j] b Hj Hb; simpl in Hb; [by simplify_eq|]. apply (Hlt j); [lia|done].
      * intros (i & Hi & Ha & Hlt). destruct i as [|i]; simpl in Hi; [congruence|].
        exists i. split_and!; [done..|]. intros j b Hj Hb. apply (Hlt (S j)); [lia|done].
Qed.

Lemma blank_to_none_spec v w : blank_to_none v = Some w <-> exists u, v = Some u /\ w = trim u /\ w <> [].
Proof.
  unfold blank_to_none. destruct v as [u|]; cbn [fmap option_fmap option_map]; [|naive_solver].
  split.
  - destruct (trim u) as [|c t] eqn:E; [done|]. intros H. apply Some_inj in H as <-.
    exists u. by rewrite E.
  - intros (u' & H & -> & Hne). apply Some_inj in H as <-. by destruct (trim u).
Qed.

Lemma build_Ok {RoomId} (p : str -> result str RoomId) d routes router :
  build p d routes = Ok router <->
  exists r, p d = Ok (router_default_room_id router) /\ collect_results (build_route p) 0 routes = Ok r /\
    router_routes router = r.
Proof.
  unfold build, parse_room_id. destruct (p d) as [rm|e]; simpl; [|naive_solver].
  destruct (collect_results _ _ _) as [rs|e]; simpl; [|naive_solver].
  destruct router as [rr dd]; simpl. naive_solver.
Qed.

Lemma build_route_Ok {RoomId} (p : str -> result str RoomId) idx rc route :
  build_route p idx rc = Ok route <->
  (blank_to_none (rc_to rc) <> None \/ blank_to_none (rc_from rc) <> None) /\
  p (rc_room_id rc) = Ok (route_room_id route) /\
  route_to route = blank_to_none (rc_to rc) /\ route_from route = blank_to_none (rc_from rc).
Proof.
  unfold build_route, parse_room_id.
  destruct (blank_to_none (rc_to rc)) as [t|], (blank_to_none (rc_from rc)) as [f|];
    rewrite ?(bool_decide_eq_true_2 (None = None)), ?bool_decide_eq_false_2 by done; cbn [andb];
    (destruct (p (rc_room_id rc)) as [rm|err]; cbn [mbind result_bind map_err]; destruct route; naive_solver).
Qed.

(** The answer of [resolve] is a room the configuration names. *)
Lemma resolve_in_config {RoomId} (p : str -> result str RoomId) d routes router :
  build p d routes = Ok router ->
  forall m, p d = Ok (resolve router m) \/ exists rc, rc ∈ routes /\ p (rc_room_id rc) = Ok (resolve router m).
Proof.
  intros (rs & Hd & Hrs & Hrr)%build_Ok m. unfold resolve. rewrite Hrr.
  destruct (List.find _ rs) as [route|] eqn:Hfind; [right|by left].
  apply find_Some_first in Hfind as (i & Hi & _). apply collect_results_ok in Hrs as [Hlen Hall].
  destruct (lookup_lt_is_Some_2 routes i) as [rc Hrc]; [rewrite <- Hlen; by eapply lookup_lt_Some|].
  destruct (Hall i rc Hrc) as (route' & Hr' & Hb). rewrite Hi in Hr'. apply Some_inj in Hr' as <-.
  apply build_route_Ok in Hb as (_ & Hp & _). exists rc. split; [by eapply list_elem_of_lookup_2|done].
Qed.

(** What makes a rule acceptable: a selector that is not blank and a room id. *)
Definition selector (v : option str) : Prop := exists u, v = Some u /\ trim u <> [].
Definition route_ok {RoomId} (p : str -> result str RoomId) (rc : RouteConfig) : Prop :=
  (selector (rc_to rc) \/ selector (rc_from rc)) /\ is_Ok (p (rc_room_id rc)).

Lemma blank_to_none_selector v : blank_to_none v <> None <-> selector v.
Proof.
  unfold selector. split.
  - intros H. destruct (blank_to_none v) as [w|] eqn:E; [|done].
    apply blank_to_none_spec in E as (u & -> & -> & Hne). eauto.
  - intros (u & -> & Hne) H. assert (blank_to_none (Some u) = Some (trim u)) as E; [|congruence].
    apply blank_to_none_spec. eauto.
Qed.

Lemma build_route_is_Ok {RoomId} (p : str -> result str RoomId) idx rc :
  is_Ok (build_route p idx rc) <-> route_ok p rc.
Proof.
  unfold route_ok. rewrite <- !blank_to_none_selector. split.
  - intros [route (H & Hp & _)%build_route_Ok]. split; [done|]. by eexists.
  - intros [H [room Hp]]. exists (mkRoute (blank_to_none (rc_to rc)) (blank_to_none (rc_from rc)) room).
    by apply build_route_Ok.
Qed.

Lemma build_is_Ok {RoomId} (p : str -> result str RoomId) d routes :
  is_Ok (build p d routes) <-> is_Ok (p d) /\ Forall (route_ok p) routes.
Proof.
  rewrite Forall_lookup. setoid_rewrite <- (build_route_is_Ok p 0%nat). split.
  - intros [router (rs & Hd & Hrs & _)%build_Ok]. split; [by eexists|]. intros i rc Hi.
    apply build_route_is_Ok, (build_route_is_Ok p (0 + i)%nat).
    by apply (proj1 (collect_results_is_Ok (build_route p) 0 routes)); [exists rs|].
  - intros [[room Hd] Hall]. destruct (proj2 (collect_results_is_Ok (build_route p) 0 routes)) as [rs Hrs].
    { intros i rc Hi. apply build_route_is_Ok, (build_route_is_Ok p 0%nat). by apply (Hall i). }
    exists (mkRouter rs room). apply build_Ok. by exists rs.
Qed.
