(* ===== verification/Formatter.v ===== *)
(** * Message formatting ([src/src/matrix/formatter.rs])

    The template engine is [minijinja]: an environment [Env] after [add_template], a
    [Template] from [get_template], its [render]; each may fail with the text of its
    error.  Automatic escaping is switched off in both environments of the program. *)

From S2P Require Import Prelude RustStr Error Store.

(** The values of [context!], all strings. *)
Record Context : Type := mkContext {
  ctx_from : str;
  ctx_to : str;
  ctx_subject : str;
  ctx_body : str;
}.

Class Minijinja (Env Template : Type) : Type := {
  add_template : str -> result str Env;
  get_template : Env -> result str Template;
  render : Template -> Context -> result str str;
}.

Definition message_context (message : Message) : Context :=
  mkContext (default [] (msg_from message)) (join (lit ", ") (msg_to message))
    (default [] (msg_subject message)) (msg_body message).

Definition format_message `{Minijinja Env Template} (message : Message) (template_str : str) : Result str :=
  env ← map_err (fun e => ChimneyError.Template (lit "failed to compile template: " ++ e)) (add_template template_str);
  tmpl ← map_err (fun e => ChimneyError.Template (lit "template not found: " ++ e)) (get_template env);
  map_err (fun e => ChimneyError.Template (lit "template render failed: " ++ e)) (render tmpl (message_context message)).
