(* ===== verification/Net.v ===== *)
(** * Socket addresses of the Rust standard library

    [str::parse::<SocketAddr>], which [Config::validate] and [bind_smtp] call: the
    recursive-descent parser of [core::net].  A reader answers the value and the rest of
    the text; a reader that fails consumes nothing. *)

From S2P Require Import Prelude RustStr Html.

Inductive SocketAddr : Type :=
| V4 (octets : list Z) (port : Z)
| V6 (segments : list Z) (scope_id port : Z).

#[export] Instance SocketAddr_eq_dec : EqDecision SocketAddr.
Proof. solve_decision. Defined.

Definition parser (A : Type) : Type := str -> option (A * str).

Definition read_given_char (target : Z) : parser unit := fun s =>
  match s with c :: s' => if c =? target then Some (tt, s') else None | [] => None end.

(** The digits at the head of the text. *)
Fixpoint span_digits (radix : Z) (s : str) : list Z * str :=
  match s with
  | [] => ([], [])
  | c :: s' =>
      match to_digit radix c with
      | Some d => let '(ds, r) := span_digits radix s' in (d :: ds, r)
      | None => ([], s)
      end
  end.

(** [read_number(radix, max_digits, allow_zero_prefix)] for a type of maximum [limit]:
    the arithmetic is checked. *)
Definition read_number (radix : Z) (max_digits : option nat) (allow_zero_prefix : bool) (limit : Z) : parser Z :=
  fun s =>
    let '(ds, r) := span_digits radix s in
    let value := foldl (fun v d => v * radix + d) 0 ds in
    if bool_decide (ds = []) then None
    else if match max_digits with Some m => (m <? length ds)%nat | None => false end then None
    else if negb allow_zero_prefix && bool_decide (head ds = Some 0) && (1 <? length ds)%nat then None
    else if limit <? value then None
    else Some (value, r).

Definition read_separator {A} (sep : Z) (index : nat) (inner : parser A) : parser A := fun s =>
  match index with
  | O => inner s
  | S _ => match read_given_char sep s with Some (_, s') => inner s' | None => None end
  end.

(** The octets of an IPv4 address from number [i] on. *)
Fixpoint read_octets (n i : nat) (s : str) : option (list Z * str) :=
  match n with
  | O => Some ([], s)
  | S n' =>
      '(o, s1) ← read_separator 46 i (read_number 10 (Some 3%nat) false 255) s;
      '(os, s2) ← read_octets n' (S i) s1;
      Some (o :: os, s2)
  end.
Definition read_ipv4_addr : parser (list Z) := read_octets 4 0.

(** [read_groups]: the groups read, whether they end in an embedded IPv4 address, and
    the rest; [left] slots remain and [i] are filled. *)
Fixpoint read_groups (left i : nat) (s : str) : list Z * bool * str :=
  match left with
  | O => ([], false, s)
  | S left' =>
      let ipv4 := if (0 <? left')%nat then read_separator 58 i read_ipv4_addr s else None in
      match ipv4 with
      | Some ([one; two; three; four], s') => ([one * 256 + two; three * 256 + four], true, s')
      | _ =>
          match read_separator 58 i (read_number 16 (Some 4%nat) true 65535) s with
          | Some (g, s') => let '(gs, v4, r) := read_groups left' (S i) s' in (g :: gs, v4, r)
          | None => ([], false, s)
          end
      end
  end.

Definition read_ipv6_addr : parser (list Z) := fun s =>
  let '(head, head_ipv4, s1) := read_groups 8 0 s in
  if (length head =? 8)%nat then Some (head, s1)
  else if head_ipv4 : bool then None
  else
    '(_, s2) ← read_given_char 58 s1;
    '(_, s3) ← read_given_char 58 s2;
    let '(tail, _, s4) := read_groups (8 - (length head + 1)) 0 s3 in
    Some (head ++ replicate (8 - length head - length tail) 0 ++ tail, s4).

Definition read_port : parser Z := fun s =>
  '(_, s1) ← read_given_char 58 s; read_number 10 None true 65535 s1.
Definition read_scope_id : parser Z := fun s =>
  '(_, s1) ← read_given_char 37 s; read_number 10 None true u32_max s1.

Definition read_socket_addr_v4 : parser SocketAddr := fun s =>
  '(ip, s1) ← read_ipv4_addr s; '(port, s2) ← read_port s1; Some (V4 ip port, s2).

Definition read_socket_addr_v6 : parser SocketAddr := fun s =>
  '(_, s1) ← read_given_char 91 s;
  '(ip, s2) ← read_ipv6_addr s1;
  let '(scope, s3) := default (0, s2) (read_scope_id s2) in
  '(_, s4) ← read_given_char 93 s3;
  '(port, s5) ← read_port s4;
  Some (V6 ip scope port, s5).

Definition parse_socket_addr (s : str) : option SocketAddr :=
  let r := match read_socket_addr_v4 s with Some x => Some x | None => read_socket_addr_v6 s end in
  match r with Some (addr, []) => Some addr | _ => None end.

Example socket_v4 : parse_socket_addr (lit "127.0.0.1:2525") = Some (V4 [127; 0; 0; 1] 2525).
Proof. reflexivity. Qed.
Example socket_v6 : parse_socket_addr (lit "[::1]:25") = Some (V6 [0; 0; 0; 0; 0; 0; 0; 1] 0 25).
Proof. reflexivity. Qed.
Example socket_v6_mapped :
  parse_socket_addr (lit "[::ffff:10.0.0.1%3]:25") = Some (V6 [0; 0; 0; 0; 0; 65535; 2560; 1] 3 25).
Proof. reflexivity. Qed.
Example socket_bad :
  Forall (fun s => parse_socket_addr s = None)
    [lit "localhost:25"; lit "127.0.0.1"; lit "127.0.0.01:25"; lit "127.0.0.1:65536"; lit "[::1]"; lit "1.2.3.4:25 "].
Proof. repeat constructor. Qed.
