(* ===== verification/Config.v ===== *)
(** * Loading and validating the configuration ([src/src/config.rs], lines 146-346)

    The external parsers are parameters: [toml::from_str] with its serde decoding, the
    URL parser, the user and room id parsers of [ruma] (each with the text of its error)
    and the template engine.  The file system and the environment are read once each and
    are arguments. *)

From S2P Require Import Prelude RustStr Error Store ConfigData Routing Formatter Net.

Definition is_blank (value : str) : bool := bool_decide (trim value = []).

(** An early return with [ChimneyError::Config(msg)]. *)
Definition reject_if (b : bool) (msg : str) : Result unit :=
  if b then Err (ChimneyError.Config msg) else Ok tt.

Section Validate.
Context {Url UserId RoomId Env Template : Type} `{Minijinja Env Template}.
Variable parse_url : str -> result str Url.
Variable parse_user_id : str -> result str UserId.
Variable parse_owned_room_id : str -> result str RoomId.

Definition test_ctx : Context :=
  mkContext (lit "test@example.com") (lit "recipient@example.com") (lit "Test Subject") (lit "Test body").

Definition validate_template (template : str) : Result unit :=
  env ← map_err (fun e => ChimneyError.Config (lit "matrix.message_template failed to parse: " ++ e)) (add_template template);
  tmpl ← map_err (fun e => ChimneyError.Config (lit "matrix.message_template internal error: " ++ e)) (get_template env);
  _ ← map_err (fun e => ChimneyError.Config (lit "matrix.message_template trial render failed: " ++ e)) (render tmpl test_ctx);
  Ok tt.

Definition validate_credentials (c : MatrixCredentials) : Result unit :=
  _ ← reject_if (bool_decide (cred_password c = None) && bool_decide (cred_access_token c = None))
        (lit "matrix credentials require password or access_token");
  _ ← reject_if (negb (bool_decide (cred_password c = None)) && negb (bool_decide (cred_access_token c = None)))
        (lit "matrix credentials must use either password or access_token, not both");
  match cred_access_token c with
  | None => Ok tt
  | Some access_token =>
      _ ← reject_if (bool_decide (trim access_token = [])) (lit "matrix.credentials.access_token must not be empty");
      reject_if (match cred_device_id c with None => true | Some value => bool_decide (trim value = []) end)
        (lit "matrix.credentials.device_id is required when using access_token")
  end.

Definition validate (self : Config) : Result unit :=
  let smtp := cfg_smtp self in
  let queue := cfg_queue self in
  let matrix := cfg_matrix self in
  _ ← ok_or (parse_socket_addr (smtp_bind smtp)) (ChimneyError.Config (lit "smtp.bind must be a valid IP:PORT address"));
  _ ← reject_if (smtp_max_message_size smtp =? 0) (lit "smtp.max_message_size must be greater than zero");
  _ ← reject_if (smtp_max_connections smtp =? 0) (lit "smtp.max_connections must be greater than zero");
  _ ← reject_if (smtp_max_session_seconds smtp =? 0) (lit "smtp.max_session_seconds must be greater than zero");
  _ ← reject_if (is_blank (q_db_path queue)) (lit "queue.db_path must not be empty");
  _ ← reject_if (q_retry_backoff queue =? 0)
        (lit "queue.retry_backoff must be greater than zero (a zero backoff would retry a failing message in a tight loop)");
  _ ← reject_if (is_blank (mx_homeserver matrix)) (lit "matrix.homeserver must not be empty");
  _ ← map_err (fun error => ChimneyError.Config (lit "invalid matrix.homeserver URL: " ++ error)) (parse_url (mx_homeserver matrix));
  _ ← reject_if (is_blank (mx_user_id matrix)) (lit "matrix.user_id must not be empty");
  _ ← map_err (fun error => ChimneyError.Config (lit "invalid matrix.user_id: " ++ error)) (parse_user_id (mx_user_id matrix));
  _ ← reject_if (is_blank (mx_store_path matrix)) (lit "matrix.store_path must not be empty");
  _ ← from_config parse_owned_room_id matrix;
  _ ← validate_credentials (mx_credentials matrix);
  validate_template (mx_message_template matrix).

(** [apply_env_overrides]: one credential at a time, stopping at the first variable
    that is not set; [env_var] is [env::var(..).ok()]. *)
Definition env_override (env_var : str -> option str) (name : str) (value : option str) : Result (option str) :=
  if bool_decide (value = Some (lit "${" ++ name ++ lit "}")) then
    v ← ok_or (env_var name) (ChimneyError.Config (lit "config references ${" ++ name ++ lit "} but the env var is not set"));
    Ok (Some v)
  else Ok value.

Definition with_credentials (self : Config) (c : MatrixCredentials) : Config :=
  let m := cfg_matrix self in
  mkConfig (cfg_smtp self)
    (mkMatrixConfig (mx_homeserver m) (mx_user_id m) (mx_device_name m) (mx_room_id m) (mx_store_path m)
       (mx_require_e2ee m) (mx_message_template m) (mx_routes m) c)
    (cfg_logging self) (cfg_queue self).

Definition apply_env_overrides (env_var : str -> option str) (self : Config) : Result Config :=
  let c := mx_credentials (cfg_matrix self) in
  password ← env_override env_var (lit "MATRIX_PASSWORD") (cred_password c);
  access_token ← env_override env_var (lit "MATRIX_ACCESS_TOKEN") (cred_access_token c);
  device_id ← env_override env_var (lit "MATRIX_DEVICE_ID") (cred_device_id c);
  Ok (with_credentials self (mkCredentials password access_token device_id)).

Variable toml_from_str : str -> result str Config.

Definition load_from_path (read_to_string : str -> result str str) (env_var : str -> option str) (path : str)
  : Result Config :=
  content ← map_err (fun e => ChimneyError.Config (path ++ lit ": " ++ e)) (read_to_string path);
  config ← map_err (fun e => ChimneyError.Config (path ++ lit ": " ++ e)) (toml_from_str content);
  config ← apply_env_overrides env_var config;
  _ ← validate config;
  Ok config.

Definition load_default (read_to_string : str -> result str str) (env_var : str -> option str) : Result Config :=
  load_from_path read_to_string env_var (default (lit "config.toml") (env_var (lit "CHIMNEY_CONFIG"))).
End Validate.
