(* ===== verification/ConfigProps.v ===== *)
(** * Properties of routing and of the configuration *)

From S2P Require Import Prelude RustStr Error Store ConfigData Routing Formatter Net Config.

(** Concrete external parsers, for the witnesses. *)
Definition toy_room (s : str) : result str str :=
  if starts_with (lit "!") s && contains (lit ":") s then Ok s else Err (lit "no sigil or server").
Definition toy_user (s : str) : result str str :=
  if starts_with (lit "@") s then Ok s else Err (lit "no sigil").
Definition toy_url (s : str) : result str str :=
  if starts_with (lit "https://") s then Ok s else Err (lit "relative URL without a base").
#[export] Instance toy_minijinja : Minijinja str str := {
  add_template := fun s => if contains (lit "{{ unclosed") s then Err (lit "syntax error") else Ok s;
  get_template := Ok;
  render := fun t ctx => Ok (ctx_subject ctx ++ lit ": " ++ ctx_body ctx);
}.

(** C27: a message goes to the room of the first rule, top to bottom, that matches its
    sender and recipients, and to the default room when none does; a selector that is
    set must match (both, when both are), blank selectors count as unset, and the room
    is always one the configuration names. *)
Theorem resolve_first_match {RoomId} (parse : str -> result str RoomId) (d : str) (routes : list RouteConfig)
    (router : Router RoomId) (m : Message) (Hbuild : build parse d routes = Ok router) :
  let applies rc := rule_applies (blank_to_none (rc_to rc)) (blank_to_none (rc_from rc)) m in
  (exists i rc, routes !! i = Some rc /\ applies rc /\ parse (rc_room_id rc) = Ok (resolve router m) /\
     forall j rc', (j < i)%nat -> routes !! j = Some rc' -> ~ applies rc') \/
  ((forall i rc, routes !! i = Some rc -> ~ applies rc) /\ parse d = Ok (resolve router m)).
Proof.
  apply build_Ok in Hbuild as (rs & Hd & Hrs & Hrr). apply collect_results_ok in Hrs as [Hlen Hall].
  assert (forall i rc, routes !! i = Some rc -> exists route, rs !! i = Some route /\
    parse (rc_room_id rc) = Ok (route_room_id route) /\
    (matches route m = true <-> rule_applies (blank_to_none (rc_to rc)) (blank_to_none (rc_from rc)) m)) as Hroute.
  { intros i rc Hi. destruct (Hall i rc Hi) as (route & Hr & Hb). exists route. split; [done|].
    apply build_route_Ok in Hb as (_ & Hp & Ht & Hf). split; [done|]. by rewrite matches_spec, Ht, Hf. }
  cbv zeta. unfold resolve. rewrite Hrr.
  destruct (List.find (fun route => matches route m) rs) as [route|] eqn:Hfind.
  - left. apply find_Some_first in Hfind as (i & Hi & Hm & Hlt).
    destruct (lookup_lt_is_Some_2 routes i) as [rc Hrc]; [rewrite <- Hlen; by eapply lookup_lt_Some|].
    destruct (Hroute i rc Hrc) as (route' & Hr' & Hp & Hiff). rewrite Hi in Hr'. apply Some_inj in Hr' as <-.
    exists i, rc. split_and!; [done|by apply Hiff|done|]. intros j rc' Hj Hrc' Happ.
    destruct (Hroute j rc' Hrc') as (route' & Hr' & _ & Hiff'). apply Hiff' in Happ.
    by rewrite (Hlt j route' Hj Hr') in Happ.
  - right. split; [|done]. intros i rc Hrc Happ. destruct (Hroute i rc Hrc) as (route & Hr & _ & Hiff).
    apply Hiff in Happ. pose proof (List.find_none _ _ Hfind route) as Hn. cbn in Hn.
    rewrite Hn in Happ; [done|]. apply list_elem_of_In. by eapply list_elem_of_lookup_2.
Qed.

Definition alerts_route : RouteConfig := mkRouteConfig (Some (lit " Alerts@Chimney ")) (Some (lit "  ")) (lit "!alerts:x").
Definition cloud_route : RouteConfig := mkRouteConfig (Some (lit "alerts@chimney")) (Some (lit "cloud@x")) (lit "!cloud:x").
Definition toy_router : Router str :=
  mkRouter [mkRoute (Some (lit "alerts@chimney")) (Some (lit "cloud@x")) (lit "!cloud:x");
            mkRoute (Some (lit "Alerts@Chimney")) None (lit "!alerts:x")] (lit "!default:x").
Definition alert_message : Message := mkMessage (Some (lit "cron@x")) [lit "root@x"; lit "ALERTS@chimney"] None [].

Lemma resolve_first_match_witness :
  resolve toy_router alert_message = lit "!alerts:x" /\
  let applies rc := rule_applies (blank_to_none (rc_to rc)) (blank_to_none (rc_from rc)) alert_message in
  (exists i rc, [cloud_route; alerts_route] !! i = Some rc /\ applies rc /\
     toy_room (rc_room_id rc) = Ok (resolve toy_router alert_message) /\
     forall j rc', (j < i)%nat -> [cloud_route; alerts_route] !! j = Some rc' -> ~ applies rc') \/
  ((forall i rc, [cloud_route; alerts_route] !! i = Some rc -> ~ applies rc) /\
     toy_room (lit "!default:x") = Ok (resolve toy_router alert_message)).
Proof.
  split; [reflexivity|].
  apply (resolve_first_match toy_room (lit "!default:x") [cloud_route; alerts_route] toy_router alert_message).
  reflexivity.
Defined.

(** the destination does not depend on the case of ASCII letters in the sender's
    and recipients' addresses. *)
Theorem routing_ignores_case {RoomId} (router : Router RoomId) (m m' : Message) (H : same_addresses m m') :
  resolve router m = resolve router m'.
Proof. by rewrite H. Qed.

Definition shouted_message : Message := mkMessage (Some (lit "CRON@X")) [lit "Root@x"; lit "alerts@CHIMNEY"] (Some []) (lit "b").
Lemma routing_ignores_case_witness :
  resolve toy_router alert_message = resolve toy_router shouted_message.
Proof. apply (routing_ignores_case toy_router alert_message shouted_message). split; reflexivity. Defined.

(** What an accepted configuration is. *)
Definition credentials_ok (c : MatrixCredentials) : Prop :=
  (is_Some (cred_password c) /\ cred_access_token c = None) \/
  (cred_password c = None /\ exists token device, cred_access_token c = Some token /\ trim token <> [] /\
     cred_device_id c = Some device /\ trim device <> []).

Lemma validate_credentials_ok c : is_Ok (validate_credentials c) <-> credentials_ok c.
Proof.
  unfold is_Ok, validate_credentials, credentials_ok, reject_if.
  destruct c as [[p|] [t|] d]; cbn.
  - split; [by intros [??]|]. intros [[_ ?]|[? _]]; done.
  - split; [|eauto]. intros _. left. eauto.
  - destruct (bool_decide_reflect (trim t = [])) as [Ht|Ht]; cbn; [naive_solver|].
    destruct d as [d|]; cbn; [|naive_solver].
    destruct (bool_decide_reflect (trim d = [])) as [Hd|Hd]; naive_solver.
  - split; [by intros [??]|]. intros [[[??] _]|(_ & ? & ? & ? & _)]; done.
Qed.

Section Validated.
Context {Url UserId RoomId Env Template : Type} `{Minijinja Env Template}.
Variable parse_url : str -> result str Url.
Variable parse_user_id : str -> result str UserId.
Variable parse_owned_room_id : str -> result str RoomId.

Definition template_ok (template : str) : Prop :=
  exists env tmpl out, add_template template = Ok env /\ get_template env = Ok tmpl /\ render tmpl test_ctx = Ok out.

Definition valid_config (c : Config) : Prop :=
  is_Some (parse_socket_addr (smtp_bind (cfg_smtp c))) /\
  (smtp_max_message_size (cfg_smtp c) <> 0 /\ smtp_max_connections (cfg_smtp c) <> 0 /\
   smtp_max_session_seconds (cfg_smtp c) <> 0) /\
  (trim (q_db_path (cfg_queue c)) <> [] /\ q_retry_backoff (cfg_queue c) <> 0) /\
  (trim (mx_homeserver (cfg_matrix c)) <> [] /\ is_Ok (parse_url (mx_homeserver (cfg_matrix c)))) /\
  (trim (mx_user_id (cfg_matrix c)) <> [] /\ is_Ok (parse_user_id (mx_user_id (cfg_matrix c)))) /\
  trim (mx_store_path (cfg_matrix c)) <> [] /\
  (is_Ok (parse_owned_room_id (mx_room_id (cfg_matrix c))) /\
   Forall (route_ok parse_owned_room_id) (mx_routes (cfg_matrix c))) /\
  credentials_ok (mx_credentials (cfg_matrix c)) /\
  template_ok (mx_message_template (cfg_matrix c)).

Lemma seq_is_Ok {A B} (r : Result A) (k : Result B) : is_Ok (r ≫= fun _ => k) <-> is_Ok r /\ is_Ok k.
Proof. unfold is_Ok. destruct r; cbn; naive_solver. Qed.

Lemma map_err_is_Ok {A} g (r : result str A) : is_Ok (map_err (F := ChimneyError.t) g r) <-> is_Ok r.
Proof. unfold is_Ok. destruct r; cbn; naive_solver. Qed.

Lemma reject_if_is_Ok b msg : is_Ok (reject_if b msg) <-> b = false.
Proof. unfold reject_if, is_Ok. destruct b; cbn; naive_solver. Qed.

Lemma ok_or_is_Ok {A} (o : option A) e : is_Ok (ok_or (E := ChimneyError.t) o e) <-> is_Some o.
Proof. unfold is_Ok, is_Some. destruct o; cbn; naive_solver. Qed.

(** Computations whose errors are all configuration errors. *)
Definition config_errors {A} (r : Result A) : Prop := forall e, r = Err e -> exists msg, e = ChimneyError.Config msg.

Lemma config_errors_bind {A B} (r : Result A) (k : A -> Result B) :
  config_errors r -> (forall a, config_errors (k a)) -> config_errors (r ≫= k).
Proof. intros Hr Hk. destruct r as [a|e]; [exact (Hk a)|]. intros e' [= <-]. by apply Hr. Qed.

Lemma config_errors_map_err {A} (f : str -> str) (r : result str A) :
  config_errors (map_err (fun e => ChimneyError.Config (f e)) r).
Proof. intros e. destruct r; cbn; [done|]. intros [= <-]. eauto. Qed.

Lemma config_errors_reject_if b msg : config_errors (reject_if b msg).
Proof. intros e. unfold reject_if. destruct b; [|done]. intros [= <-]. eauto. Qed.

Lemma config_errors_ok_or {A} (o : option A) msg : config_errors (ok_or o (ChimneyError.Config msg)).
Proof. intros e. destruct o; cbn; [done|]. intros [= <-]. eauto. Qed.

Lemma config_errors_collect {A B} (f : nat -> A -> Result B) i l :
  (forall i a, config_errors (f i a)) -> config_errors (collect_results f i l).
Proof.
  intros Hf. revert i. induction l as [|a l IH]; intros i; [by intros e|].
  apply config_errors_bind; [apply Hf|]. intros b. apply config_errors_bind; [apply IH|]. by intros bs e.
Qed.

Lemma from_config_errors matrix : config_errors (from_config parse_owned_room_id matrix).
Proof.
  apply config_errors_bind; [apply config_errors_map_err|]. intros room.
  apply config_errors_bind; [|by intros routes e]. apply config_errors_collect. intros i rc.
  unfold build_route. destruct (_ && _); [intros e [= <-]; eauto|].
  apply config_errors_bind; [apply config_errors_map_err|]. by intros room' e.
Qed.

Lemma validate_errors c : config_errors (validate parse_url parse_user_id parse_owned_room_id c).
Proof.
  unfold validate, validate_template, validate_credentials. cbv zeta.
  repeat (apply config_errors_bind;
          [first [apply config_errors_map_err | apply config_errors_reject_if | apply config_errors_ok_or
                 | apply from_config_errors | idtac] | intros ?]).
  - destruct (cred_access_token _); [|by intros e].
    apply config_errors_bind; [apply config_errors_reject_if|]. intros ?. apply config_errors_reject_if.
  - by intros e.
Qed.

Lemma validate_template_ok template : is_Ok (validate_template template) <-> template_ok template.
Proof.
  unfold validate_template, template_ok, is_Ok. split.
  - intros [u Hv]. destruct (add_template template) as [env|]; cbn in Hv; [|done].
    destruct (get_template env) as [tmpl|] eqn:Ht; cbn in Hv; [|done].
    destruct (render tmpl test_ctx) as [out|] eqn:Hr; cbn in Hv; [|done]. by exists env, tmpl, out.
  - intros (env & tmpl & out & -> & Hv). cbn. destruct Hv as [-> Hv]. cbn. rewrite Hv. by eexists.
Qed.

(** The checks of [validate], one by one. *)
Lemma validate_spec (c : Config) :
  is_Ok (validate parse_url parse_user_id parse_owned_room_id c) <-> valid_config c.
Proof.
  unfold validate, is_blank.
  rewrite !seq_is_Ok, !map_err_is_Ok, !reject_if_is_Ok, ok_or_is_Ok.
  rewrite !Z.eqb_neq, !bool_decide_eq_false, validate_credentials_ok, validate_template_ok.
  unfold from_config. rewrite build_is_Ok. unfold valid_config. tauto.
Qed.

(** C26: [validate] accepts a configuration exactly when every field it documents is
    usable: a socket address to bind, positive limits, a positive backoff, non-blank
    paths, parseable URL, user and room ids, a selector on each route, exactly one
    kind of credentials (a token with its device id), a template that renders; and what it
    refuses it refuses with a configuration error. *)
Theorem validate_exact (c : Config) :
  (is_Ok (validate parse_url parse_user_id parse_owned_room_id c) <-> valid_config c) /\
  forall e, validate parse_url parse_user_id parse_owned_room_id c = Err e -> exists msg, e = ChimneyError.Config msg.
Proof. split; [apply validate_spec|apply validate_errors]. Qed.
End Validated.

Definition example_config (password token device : option str) : Config :=
  mkConfig (mkSmtpConfig (lit "127.0.0.1:2525") 1024 30 100 300)
    (mkMatrixConfig (lit "https://example.org") (lit "@bot:example.org") (lit "chimney-post") (lit "!default:x")
       (lit "/tmp/matrix") true DEFAULT_MESSAGE_TEMPLATE [cloud_route; alerts_route]
       (mkCredentials password token device))
    (mkLogging (lit "info") (lit "json")) (mkQueueConfig 5 60 (lit "/tmp/queue.db") 0).

(** The example of the tests validates; the same without a selector, without credentials
    or with a template that does not parse does not. *)
Example example_config_validates :
  validate toy_url toy_user toy_room (example_config (Some (lit "secret")) None None) = Ok tt.
Proof. vm_compute. reflexivity. Qed.
Example example_config_two_credentials :
  ~ is_Ok (validate toy_url toy_user toy_room (example_config (Some (lit "secret")) (Some (lit "t")) None)).
Proof. intros [a H]. vm_compute in H. discriminate. Qed.

Section Loaded.
Context {Url UserId RoomId Env Template : Type} `{Minijinja Env Template}.
Variable parse_url : str -> result str Url.
Variable parse_user_id : str -> result str UserId.
Variable parse_owned_room_id : str -> result str RoomId.
Variable toml_from_str : str -> result str Config.
Variables (read_to_string : str -> result str str) (env_var : str -> option str).

(** One credential of the file and the one the program runs with. *)
Definition overridden (name : str) (file used : option str) : Prop :=
  (file = Some (lit "${" ++ name ++ lit "}") /\ is_Some (env_var name) /\ used = env_var name) \/
  (file <> Some (lit "${" ++ name ++ lit "}") /\ used = file).

Lemma env_override_Ok name file used :
  env_override env_var name file = Ok used <-> overridden name file used.
Proof.
  unfold env_override, overridden. destruct (bool_decide_reflect (file = Some (lit "${" ++ name ++ lit "}"))).
  - destruct (env_var name) as [v|]; cbn; [|split; [done|by intros [(_ & [??] & _)|[? _]]]].
    split; [intros [= <-]; left; eauto|intros [(_ & _ & ->)|[? _]]; done].
  - split; [intros [= <-]; by right|by intros [(? & _)|[_ ->]]].
Qed.

Lemma result_bind_Ok {A B} (r : Result A) (f : A -> Result B) b :
  r ≫= f = Ok b <-> exists a, r = Ok a /\ f a = Ok b.
Proof. destruct r; cbn; naive_solver. Qed.

Lemma map_err_Ok {A} (g : str -> ChimneyError.t) (r : result str A) a : map_err g r = Ok a <-> r = Ok a.
Proof. destruct r; cbn; naive_solver. Qed.

(** What a successful load went through. *)
Lemma load_from_path_spec (path : str) (c : Config) :
  load_from_path parse_url parse_user_id parse_owned_room_id toml_from_str read_to_string env_var path = Ok c <->
  exists content c0 password token device,
    read_to_string path = Ok content /\ toml_from_str content = Ok c0 /\
    overridden (lit "MATRIX_PASSWORD") (cred_password (mx_credentials (cfg_matrix c0))) password /\
    overridden (lit "MATRIX_ACCESS_TOKEN") (cred_access_token (mx_credentials (cfg_matrix c0))) token /\
    overridden (lit "MATRIX_DEVICE_ID") (cred_device_id (mx_credentials (cfg_matrix c0))) device /\
    c = with_credentials c0 (mkCredentials password token device) /\
    valid_config parse_url parse_user_id parse_owned_room_id c.
Proof.
  unfold load_from_path, apply_env_overrides.
  setoid_rewrite <- validate_spec. setoid_rewrite <- env_override_Ok.
  rewrite result_bind_Ok. setoid_rewrite map_err_Ok. split.
  - intros (content & Hread & H1). apply result_bind_Ok in H1 as (c0 & Htoml & H1). apply map_err_Ok in Htoml.
    apply result_bind_Ok in H1 as (c1 & Henv & H1). apply result_bind_Ok in H1 as ([] & Hv & [= <-]).
    apply result_bind_Ok in Henv as (p & Hp & H2). apply result_bind_Ok in H2 as (t & Ht & H2).
    apply result_bind_Ok in H2 as (d & Hd & [= <-]).
    exists content, c0, p, t, d. split_and!; try done. by exists tt.
  - intros (content & c0 & p & t & d & Hread & Htoml & Hp & Ht & Hd & -> & [[] Hv]).
    exists content. split; [done|]. rewrite Htoml. cbn [mbind result_bind map_err].
    rewrite Hp, Ht, Hd. cbn [mbind result_bind]. by rewrite Hv.
Qed.

(** C39: loading fails fast and changes nothing but the placeholders.  A configuration
    is loaded exactly when the file is read and decoded, every [${..}] placeholder
    among its three credentials has its environment variable set, and the result is
    valid; it is the decoded file with those credentials replaced, each independently
    of the others. *)
Theorem load_from_path_exact (path : str) (c : Config) :
  load_from_path parse_url parse_user_id parse_owned_room_id toml_from_str read_to_string env_var path = Ok c <->
  exists content c0 password token device,
    read_to_string path = Ok content /\ toml_from_str content = Ok c0 /\
    overridden (lit "MATRIX_PASSWORD") (cred_password (mx_credentials (cfg_matrix c0))) password /\
    overridden (lit "MATRIX_ACCESS_TOKEN") (cred_access_token (mx_credentials (cfg_matrix c0))) token /\
    overridden (lit "MATRIX_DEVICE_ID") (cred_device_id (mx_credentials (cfg_matrix c0))) device /\
    c = with_credentials c0 (mkCredentials password token device) /\
    valid_config parse_url parse_user_id parse_owned_room_id c.
Proof. apply load_from_path_spec. Qed.

End Loaded.

Definition toy_toml (content : str) : result str Config :=
  if bool_decide (content = lit "file")
  then Ok (example_config None (Some (lit "${MATRIX_ACCESS_TOKEN}")) (Some (lit "${MATRIX_DEVICE_ID}")))
  else Err (lit "TOML parse error").
Definition toy_env (name : str) : option str :=
  if bool_decide (name = lit "MATRIX_ACCESS_TOKEN") then Some (lit "syt_1")
  else if bool_decide (name = lit "MATRIX_DEVICE_ID") then Some (lit "DEV") else None.


(** the debug output of the credentials does not depend on the secrets: two
    credentials that set the same fields and have the same device id print the same. *)
Theorem debug_hides_secrets (c c' : MatrixCredentials)
    (Hp : is_Some (cred_password c) <-> is_Some (cred_password c'))
    (Ht : is_Some (cred_access_token c) <-> is_Some (cred_access_token c'))
    (Hd : cred_device_id c = cred_device_id c') :
  credentials_debug_fields c = credentials_debug_fields c'.
Proof.
  unfold credentials_debug_fields. rewrite Hd. unfold is_Some in *.
  destruct (cred_password c), (cred_password c'), (cred_access_token c), (cred_access_token c'); try done; naive_solver.
Qed.

Lemma debug_hides_secrets_witness :
  credentials_debug_fields (mkCredentials (Some (lit "hunter2")) None (Some (lit "DEV")))
  = credentials_debug_fields (mkCredentials (Some (lit "swordfish")) None (Some (lit "DEV"))).
Proof.
  apply (debug_hides_secrets (mkCredentials (Some (lit "hunter2")) None (Some (lit "DEV")))
           (mkCredentials (Some (lit "swordfish")) None (Some (lit "DEV")))); cbn.
  - split; intros _; eauto.
  - reflexivity.
  - reflexivity.
Defined.
