(* ===== verification/Session.v ===== *)
(** * SMTP sessions ([src/src/smtp/server.rs], lines 17-227)

    A session's code as a program over the effects it performs at its [.await] points:
    reading a command line, reading a DATA block, writing to the peer, enqueueing.  The
    logging calls are left out.  The peer, the store and the clock are the world of
    [smtp_handler]. *)

From S2P Require Import Prelude RustStr Unicode Utf8 Error Effects Store Reader Address Mime ConfigData Net.

Definition MAX_COMMAND_LINE_BYTES : Z := 4096.

(** A response line. *)
Definition reply (s : string) : bytes := lit s ++ crlf.

(** [bind_smtp]: [bind] is the operating system's answer for an address. *)
Definition bind_smtp {L} (bind : SocketAddr -> result str L) (config : Config) : Result L :=
  bind_addr ← ok_or (parse_socket_addr (smtp_bind (cfg_smtp config)))
                (ChimneyError.Config (lit "smtp.bind must be a valid SocketAddr"));
  map_err ChimneyError.Io (bind bind_addr).

(** The effects of a session.  [ReadLine] is [timeout(.., read_line_limited(..))] into a
    cleared buffer, with the text read; [ReadData] is [read_data].  That a timeout fires
    is a [Stall] in the peer's script. *)
Inductive SmtpE : Type -> Type :=
| ReadLine (timeout_seconds max_bytes : Z) : SmtpE (timed (Result Z) * str)
| ReadData (max_size timeout_seconds : Z) : SmtpE (Result str)
| WriteAll (response : bytes) : SmtpE (result str unit)
| Enqueue (message : Message) : SmtpE (Result Z).

(** [writer.write_all(..).await?]. *)
Definition write_all (response : bytes) : prog SmtpE (Result unit) :=
  r ← trigger (WriteAll response);
  Ret (map_err ChimneyError.Io r).

(** The local variables of the loop of [handle_connection]. *)
Record SessionState : Type := mkSession {
  ss_from : option str;
  ss_recipients : list str;
}.

(** How a round ends: round again with these variables, or return from the function. *)
Inductive round_end : Type :=
| Again (st : SessionState)
| Return (r : Result unit).

(** [writer.write_all(..).await?; ..]: the response, then what follows unless it fails. *)
Definition respond (response : bytes) (next : round_end) : prog SmtpE round_end :=
  r ← write_all response;
  Ret match r with Ok _ => next | Err e => Return (Err e) end.

Section Session.
Variable validate_email : str -> bool.
Variable parse_mail : bytes -> option ParsedMail.

Definition ehlo_response (config : Config) : bytes :=
  lit "250-chimney-post" ++ crlf ++ lit "250 SIZE " ++ show_int (smtp_max_message_size (cfg_smtp config)) ++ crlf.

(** The branch of the DATA command, after its sequence check. *)
Definition data_command (config : Config) (st : SessionState) : prog SmtpE round_end :=
  w ← write_all (reply "354 End data with <CR><LF>.<CR><LF>");
  match w with
  | Err e => Ret (Return (Err e))
  | Ok _ =>
      data ← trigger (ReadData (smtp_max_message_size (cfg_smtp config)) (smtp_timeout (cfg_smtp config)));
      match data with
      | Err ChimneyError.SmtpSizeExceeded =>
          respond (reply "552 Message size exceeded") (Again (mkSession None []))
      | Err error => Ret (Return (Err error))
      | Ok data =>
          let message := parse_data parse_mail (ss_from st) (ss_recipients st) data in
          r ← trigger (Enqueue message);
          match r with
          | Ok _ => respond (reply "250 OK") (Again (mkSession None []))
          | Err _ => respond (reply "451 Requested action aborted: local error in processing") (Again (mkSession None []))
          end
      end
  end.

(** The dispatch on a non-empty line. *)
Definition command (config : Config) (st : SessionState) (line : str) : prog SmtpE round_end :=
  let upper := to_uppercase line in
  let cmd := default [] (head (split_whitespace upper)) in
  if bool_decide (cmd = lit "QUIT") then respond (reply "221 Bye") (Return (Ok tt))
  else if bool_decide (cmd = lit "HELO") then respond (reply "250 chimney-post") (Again st)
  else if bool_decide (cmd = lit "EHLO") then respond (ehlo_response config) (Again st)
  else if bool_decide (cmd = lit "RSET") then respond (reply "250 OK") (Again (mkSession None []))
  else if bool_decide (cmd = lit "NOOP") then respond (reply "250 OK") (Again st)
  else if bool_decide (cmd = lit "MAIL") then
    match parse_mail_from validate_email line with
    | Some addr => respond (reply "250 OK") (Again (mkSession (Some addr) (ss_recipients st)))
    | None => respond (reply "501 Syntax error in MAIL FROM") (Again st)
    end
  else if bool_decide (cmd = lit "RCPT") then
    match parse_rcpt_to validate_email line with
    | Some addr => respond (reply "250 OK") (Again (mkSession (ss_from st) (ss_recipients st ++ [addr])))
    | None => respond (reply "501 Syntax error in RCPT TO") (Again st)
    end
  else if bool_decide (cmd = lit "DATA") then
    if bool_decide (ss_from st = None) || bool_decide (ss_recipients st = [])
    then respond (reply "503 Bad sequence of commands") (Again st)
    else data_command config st
  else respond (reply "502 Command not implemented") (Again st).

(** One round of the loop of [handle_connection]. *)
Definition session_round (config : Config) (st : SessionState) : prog SmtpE round_end :=
  read_result ← trigger (ReadLine (smtp_timeout (cfg_smtp config)) MAX_COMMAND_LINE_BYTES);
  match read_result with
  | (InTime (Ok bytes), buffer) =>
      if bytes =? 0 then Ret (Return (Ok tt))
      else
        let line := trim_end_matches (fun c => (c =? cr) || (c =? nl)) buffer in
        if bool_decide (line = []) then Ret (Again st)
        else command config st line
  | (InTime (Err ChimneyError.SmtpLineTooLong), _) => respond (reply "500 Line too long") (Return (Ok tt))
  | (InTime (Err error), _) => Ret (Return (Err error))
  | (Elapsed, _) => Ret (Return (Err (ChimneyError.Smtp (lit "SMTP session timed out"))))
  end.

(** The loop, and the whole of [handle_connection], with fuel. *)
Fixpoint session_loop (fuel : nat) (config : Config) (st : SessionState) : prog SmtpE (option (Result unit)) :=
  match fuel with
  | O => Ret None
  | S fuel' =>
      r ← session_round config st;
      match r with
      | Again st' => session_loop fuel' config st'
      | Return r => Ret (Some r)
      end
  end.

Definition handle_connection (fuel : nat) (config : Config) : prog SmtpE (option (Result unit)) :=
  w ← write_all (reply "220 chimney-post ESMTP");
  match w with
  | Err e => Ret (Some (Err e))
  | Ok _ => session_loop fuel config (mkSession None [])
  end.
End Session.

(** ** The world of one session

    The peer's bytes, the responses written so far (last first) and the faults of the
    writes to come, the store, and a clock read at each enqueue. *)
Record SmtpWorld : Type := mkSmtpWorld {
  sw_reader : list io_event;
  sw_written : list bytes;
  sw_write_faults : list (option str);
  sw_store : MessageStore;
  sw_clock : nat -> Z;
  sw_ticks : nat;
}.

Definition smtp_handler : handler SmtpE SmtpWorld := fun X e w =>
  match e in SmtpE X return SmtpWorld * X with
  | ReadLine _ max_bytes =>
      let '(r, rd', text) := read_line_limited (sw_reader w) [] max_bytes in
      (mkSmtpWorld rd' (sw_written w) (sw_write_faults w) (sw_store w) (sw_clock w) (sw_ticks w), (r, text))
  | ReadData max_size _ =>
      let '(r, rd') := read_data (sw_reader w) max_size in
      (mkSmtpWorld rd' (sw_written w) (sw_write_faults w) (sw_store w) (sw_clock w) (sw_ticks w), r)
  | WriteAll b =>
      match sw_write_faults w with
      | Some e :: fs => (mkSmtpWorld (sw_reader w) (sw_written w) fs (sw_store w) (sw_clock w) (sw_ticks w), Err e)
      | fs => (mkSmtpWorld (sw_reader w) (b :: sw_written w) (tail fs) (sw_store w) (sw_clock w) (sw_ticks w), Ok tt)
      end
  | Enqueue m =>
      let '(s', r) := enqueue (sw_clock w (sw_ticks w)) m (sw_store w) in
      (mkSmtpWorld (sw_reader w) (sw_written w) (sw_write_faults w) s' (sw_clock w) (S (sw_ticks w)), r)
  end.
