(* ===== verification/SessionFacts.v ===== *)
(** * Lemmas on SMTP sessions

    What a command line can contain, the protocol a session follows, and the measure
    that bounds its rounds. *)

From S2P Require Import Prelude RustStr Unicode Utf8 Error Effects Store StoreFacts Reader Address HtmlFacts.
From S2P Require Import Mime ConfigData Net Session.

(** ** Command lines hold one newline, at their end *)

Definition one_line (text : str) : Prop := exists t, (text = t \/ text = t ++ [nl]) /\ nl ∉ t.

Lemma read_line_loop_one_line rd buf start max_bytes rd' buf' :
  nl ∉ buf -> read_line_loop rd buf start max_bytes = (InTime (Ok tt), rd', buf') -> one_line buf'.
Proof.
  revert buf. induction rd as [|[b|e|] rd IH]; intros buf Hbuf; simpl; try done.
  - intros [= <- <-]. exists buf. auto.
  - destruct b as [|c b]; [by apply IH|]. remember (c :: b) as b' eqn:Hb'.
    destruct (position (Z.eqb nl) b') as [i|] eqn:Hpos.
    + case_match; [done|]. intros H1. injection H1 as <- <-. exists (buf ++ take i b').
      pose proof (find_char_Some nl _ _ Hpos) as [_ Hni].
      apply position_Some in Hpos as (a & Ha & Hna & _). apply Z.eqb_eq in Hna as <-.
      split; [right; rewrite <- app_assoc; f_equal; by apply take_S_r|]. rewrite elem_of_app. naive_solver.
    + case_match; [done|]. apply IH. rewrite elem_of_app. apply (find_char_None nl) in Hpos. naive_solver.
Qed.

Lemma from_utf8_one_line raw text : one_line raw -> from_utf8 raw = Some text -> one_line text.
Proof.
  intros (t & [-> | ->] & Ht) H.
  - exists text. split; [by left|]. apply from_utf8_Some in H. intros Hin. apply Ht.
    rewrite <- H. by apply encode_ascii_elem.
  - destruct (from_utf8_last_only t nl text) as (u & -> & Hu); [done..|]. exists u. auto.
Qed.

(** What [read_line_limited] answers, whatever the peer does. *)
Definition line_answer (r : timed (Result Z)) (text : str) : Prop :=
  match r with
  | InTime (Ok n) => 0 <= n /\ one_line text
  | _ => True
  end.

Lemma read_line_limited_answer rd max_bytes r rd' text :
  read_line_limited rd [] max_bytes = (r, rd', text) ->
  line_answer r text /\ (reader_size rd' <= reader_size rd)%nat /\
  (forall n, r = InTime (Ok n) -> n <> 0 -> (reader_size rd' < reader_size rd)%nat).
Proof.
  unfold read_line_limited. destruct (read_line_limited_bytes rd [] max_bytes) as [[r1 rd1] raw] eqn:Hl.
  pose proof (read_line_limited_bytes_bounds _ _ _ _ _ Hl) as (Hs & _ & Hn).
  destruct r1 as [[n|e]|]; [|intros [= <- <- <-]; split_and!; [done|lia|done]..].
  specialize (Hn n eq_refl) as ->.
  destruct (from_utf8 raw) as [t|] eqn:Hu; intros [= <- <- <-]; split_and!; try done; try lia.
  - simpl. split; [lia|]. eapply from_utf8_one_line; [|done].
    unfold read_line_limited_bytes in Hl. destruct (read_line_loop _ _ _ _) as [[r2 rd2] buf2] eqn:Hloop.
    destruct r2 as [[[]|]|]; try done. injection Hl as _ _ <-.
    eapply read_line_loop_one_line; [|exact Hloop]. apply not_elem_of_nil.
  - intros n [= <-] Hne. lia.
Qed.

(** The line a command is parsed from. *)
Definition trimmed_line (buffer : str) : str := trim_end_matches (fun c => (c =? cr) || (c =? nl)) buffer.

Lemma drop_while_end_snoc {A} (p : A -> bool) l a : p a = true -> drop_while_end p (l ++ [a]) = drop_while_end p l.
Proof. intros Ha. unfold drop_while_end. rewrite reverse_snoc. simpl. by rewrite Ha. Qed.

Lemma trimmed_line_no_nl buffer : one_line buffer -> nl ∉ trimmed_line buffer.
Proof.
  intros (t & Hb & Ht) Hin. apply Ht. unfold trimmed_line, trim_end_matches in Hin.
  destruct Hb as [-> | ->]; [|rewrite drop_while_end_snoc in Hin by done]; by apply drop_while_end_elem in Hin.
Qed.

(** ** The protocol

    The phases of a connection as the peer and the operator may rely on them: after a
    command line exactly one response; [354] only with a sender and a recipient; a whole
    DATA block is enqueued, as the message of the envelope the client was told is
    accepted, before anything else, and acknowledged by [250] only after the store
    answered [Ok]. *)
Inductive phase : Type :=
| Connected
| Ready (env : SessionState)
| Pending (env : SessionState) (line : str)
| TooLongLine
| Transfer (env : SessionState)
| Received (m : Message)
| Refused
| Stored (m : Message) (id : Z)
| NotStored
| Closed.

Definition verb (line : str) : str := default [] (head (split_whitespace (to_uppercase line))).

Section Protocol.
Variable validate_email : str -> bool.
Variable parse_mail : bytes -> option ParsedMail.

(** The envelope after a command answered [250]. *)
Definition accept (env : SessionState) (line : str) : option SessionState :=
  if bool_decide (verb line = lit "RSET") then Some (mkSession None [])
  else if bool_decide (verb line = lit "MAIL") then
    (fun addr => mkSession (Some addr) (ss_recipients env)) <$> parse_mail_from validate_email line
  else if bool_decide (verb line = lit "RCPT") then
    (fun addr => mkSession (ss_from env) (ss_recipients env ++ [addr])) <$> parse_rcpt_to validate_email line
  else if bool_decide (verb line = lit "DATA") then None
  else Some env.

(** The phase after a response that was written. *)
Definition after_response (env : SessionState) (line : str) (response : bytes) : option phase :=
  if starts_with (lit "250") response then Ready <$> accept env line
  else if starts_with (lit "354") response then
    if bool_decide (verb line = lit "DATA") && negb (bool_decide (ss_from env = None))
       && negb (bool_decide (ss_recipients env = []))
    then Some (Transfer env) else None
  else if starts_with (lit "5") response then Some (Ready env)
  else if starts_with (lit "221") response then Some Closed
  else None.

Definition written (r : result str unit) (ph : phase) : phase :=
  match r with Ok _ => ph | Err _ => Closed end.

Definition smtp_step (ph : phase) (X : Type) (e : SmtpE X) : X -> option phase :=
  match e in SmtpE X return X -> option phase with
  | ReadLine _ _ => fun x =>
      match ph with
      | Ready env =>
          match x with
          | (InTime (Ok n), text) =>
              if n =? 0 then Some Closed
              else if bool_decide (trimmed_line text = []) then Some (Ready env)
              else Some (Pending env (trimmed_line text))
          | (InTime (Err ChimneyError.SmtpLineTooLong), _) => Some TooLongLine
          | _ => Some Closed
          end
      | _ => None
      end
  | ReadData _ _ => fun x =>
      match ph with
      | Transfer env =>
          match x with
          | Ok data => Some (Received (parse_data parse_mail (ss_from env) (ss_recipients env) data))
          | Err ChimneyError.SmtpSizeExceeded => Some Refused
          | Err _ => Some Closed
          end
      | _ => None
      end
  | WriteAll response => fun x =>
      match ph with
      | Connected => if starts_with (lit "220") response then Some (written x (Ready (mkSession None []))) else None
      | Pending env line => written x <$> after_response env line response
      | TooLongLine => if starts_with (lit "500") response then Some Closed else None
      | Refused => if starts_with (lit "552") response then Some (written x (Ready (mkSession None []))) else None
      | Stored _ _ => if starts_with (lit "250") response then Some (written x (Ready (mkSession None []))) else None
      | NotStored => if starts_with (lit "451") response then Some (written x (Ready (mkSession None []))) else None
      | _ => None
      end
  | Enqueue message => fun x =>
      match ph with
      | Received m =>
          if bool_decide (message = m) && bool_decide (storable message) && bool_decide (msg_from message <> Some [])
          then Some (match x with Ok id => Stored message id | Err _ => NotStored end)
          else None
      | _ => None
      end
  end.

(** What the world may answer: lines as [read_line_limited] reads them. *)
Definition smtp_rely (X : Type) (e : SmtpE X) : X -> Prop :=
  match e in SmtpE X return X -> Prop with
  | ReadLine _ _ => fun x => line_answer x.1 x.2
  | _ => fun _ => True
  end.

Lemma smtp_handler_rely X (e : SmtpE X) w : smtp_rely X e (smtp_handler X e w).2.
Proof.
  destruct e; simpl; try done.
  destruct (read_line_limited (sw_reader w) [] max_bytes) as [[r rd'] text] eqn:E. simpl.
  by apply read_line_limited_answer in E as [? _].
Qed.

Definition round_final (ph : phase) (re : round_end) : Prop :=
  match re with Again st => ph = Ready st | Return _ => ph = Closed end.

(** The variables of the loop only hold addresses without a newline. *)
Definition env_ok (st : SessionState) : Prop :=
  Forall (fun addr => nl ∉ addr /\ addr <> []) (ss_recipients st).

Lemma respond_conforms final ph response next :
  (forall x, match smtp_step ph _ (WriteAll response) x with
             | Some ph' => final ph' (match x with Ok _ => next | Err e => Return (Err (ChimneyError.Io e)) end)
             | None => False
             end) ->
  conforms smtp_rely smtp_step final ph (respond response next).
Proof. intros H [u|e] _; exact (H _). Qed.

Definition round_ok (ph : phase) (re : round_end) : Prop :=
  round_final ph re /\ forall st, re = Again st -> env_ok st.

Lemma round_ok_closed r : round_ok Closed (Return r).
Proof. by split. Qed.

Lemma round_ok_again st : env_ok st -> round_ok (Ready st) (Again st).
Proof. split; [done|]. by intros ? [= <-]. Qed.

Lemma env_ok_empty : env_ok (mkSession None []).
Proof. constructor. Qed.

Hint Resolve round_ok_closed round_ok_again env_ok_empty : core.

Lemma accepted_response env line st' response :
  starts_with (lit "250") response = true -> accept env line = Some st' -> env_ok st' ->
  conforms smtp_rely smtp_step round_ok (Pending env line) (respond response (Again st')).
Proof.
  intros Hr Ha Hst. apply respond_conforms. intros x. cbn [smtp_step]. unfold after_response.
  rewrite Hr, Ha. destruct x; simpl; auto.
Qed.

Lemma error_response env line response :
  starts_with (lit "250") response = false -> starts_with (lit "354") response = false ->
  starts_with (lit "5") response = true -> env_ok env ->
  conforms smtp_rely smtp_step round_ok (Pending env line) (respond response (Again env)).
Proof.
  intros H1 H2 H3 Hst. apply respond_conforms. intros x. cbn [smtp_step]. unfold after_response.
  rewrite H1, H2, H3. destruct x; simpl; auto.
Qed.

(** A response in a phase with a single continuation, after which the envelope is empty. *)
Lemma reset_response ph response :
  (forall x, smtp_step ph _ (WriteAll response) x = Some (written x (Ready (mkSession None [])))) ->
  conforms smtp_rely smtp_step round_ok ph (respond response (Again (mkSession None []))).
Proof. intros H. apply respond_conforms. intros x. rewrite H. destruct x; simpl; auto. Qed.

Lemma parse_data_storable env data :
  env_ok env -> storable (parse_data parse_mail (ss_from env) (ss_recipients env) data).
Proof.
  intros Henv. unfold storable. rewrite parse_data_to. unfold env_ok in Henv.
  split; [eapply Forall_impl; [exact Henv|]; by intros ? [? _]|].
  intros Heq. rewrite Heq in Henv. by inversion Henv as [|?? [_ ?] _].
Qed.

Lemma parse_data_from env data : msg_from (parse_data parse_mail (ss_from env) (ss_recipients env) data) <> Some [].
Proof. rewrite parse_data_sender. by destruct (ss_from env) as [[|]|]. Qed.

Lemma data_command_conforms config env line :
  env_ok env -> verb line = lit "DATA" -> ss_from env <> None -> ss_recipients env <> [] ->
  conforms smtp_rely smtp_step round_ok (Pending env line) (data_command parse_mail config env).
Proof.
  intros Henv Hverb Hfrom Hrcpt x _. cbn [smtp_step]. unfold after_response.
  rewrite Hverb, (bool_decide_eq_false_2 (ss_from env = None)), (bool_decide_eq_false_2 (ss_recipients env = [])) by done. cbn. destruct x as [[]|e]; cbn; cycle 1.
  { exact (round_ok_closed _). }
  intros [data|e] _; cbn.
  - rewrite !bool_decide_eq_true_2; [|by apply parse_data_from|by apply parse_data_storable|done].
    cbn. intros [id|e] _; apply reset_response; done.
  - destruct e; cbn; auto. by apply (reset_response Refused (reply "552 Message size exceeded")).
Qed.

Lemma command_conforms config env line :
  env_ok env -> nl ∉ line ->
  conforms smtp_rely smtp_step round_ok (Pending env line) (command validate_email parse_mail config env line).
Proof.
  intros Henv Hline. unfold command. fold (verb line).
  destruct (bool_decide_reflect (verb line = lit "QUIT")) as [Hv|_].
  { apply respond_conforms. intros [u|e]; exact (round_ok_closed _). }
  destruct (bool_decide_reflect (verb line = lit "HELO")) as [Hv|_].
  { apply accepted_response; [done|unfold accept; rewrite Hv; reflexivity|done]. }
  destruct (bool_decide_reflect (verb line = lit "EHLO")) as [Hv|_].
  { apply accepted_response; [done|unfold accept; rewrite Hv; reflexivity|done]. }
  destruct (bool_decide_reflect (verb line = lit "RSET")) as [Hv|_].
  { apply accepted_response; [done|unfold accept; rewrite Hv; reflexivity|done]. }
  destruct (bool_decide_reflect (verb line = lit "NOOP")) as [Hv|_].
  { apply accepted_response; [done|unfold accept; rewrite Hv; reflexivity|done]. }
  destruct (bool_decide_reflect (verb line = lit "MAIL")) as [Hv|_].
  { destruct (parse_mail_from validate_email line) as [addr|] eqn:Haddr; [|by apply error_response].
    apply accepted_response; [done|unfold accept; rewrite Hv, Haddr; reflexivity|done]. }
  destruct (bool_decide_reflect (verb line = lit "RCPT")) as [Hv|_].
  { destruct (parse_rcpt_to validate_email line) as [addr|] eqn:Haddr; [|by apply error_response].
    apply accepted_response; [done|unfold accept; rewrite Hv, Haddr; reflexivity|]. apply parse_rcpt_to_Some in Haddr as (Hex & Hne & _).
    unfold env_ok. cbn. apply Forall_app. split; [done|]. constructor; [|done].
    split; [|done]. by eapply extract_address_no_nl. }
  destruct (bool_decide_reflect (verb line = lit "DATA")) as [Hv|_]; [|by apply error_response].
  destruct (bool_decide_reflect (ss_from env = None)); [by apply error_response|].
  destruct (bool_decide_reflect (ss_recipients env = [])); [by apply error_response|].
  by apply data_command_conforms.
Qed.

Lemma session_round_conforms config env :
  env_ok env ->
  conforms smtp_rely smtp_step round_ok (Ready env) (session_round validate_email parse_mail config env).
Proof.
  intros Henv. unfold session_round, trigger, mbind, prog_mbind. cbn [prog_bind conforms].
  intros [r text] Hr. cbn [smtp_step]. destruct r as [[n|e]|]; cbn in Hr.
  - destruct Hr as [_ Hone]. fold (trimmed_line text).
    destruct (Z.eqb_spec n 0) as [->|Hn]; [exact (round_ok_closed _)|].
    destruct (bool_decide_reflect (trimmed_line text = [])); [by apply round_ok_again|].
    apply command_conforms; [done|]. by apply trimmed_line_no_nl.
  - destruct e; try exact (round_ok_closed _).
    apply (respond_conforms round_ok TooLongLine). intros [u|e]; exact (round_ok_closed _).
  - cbn. auto.
Qed.

Lemma session_loop_conforms fuel config env :
  env_ok env ->
  conforms smtp_rely smtp_step (fun ph r => is_Some r -> ph = Closed) (Ready env)
    (session_loop validate_email parse_mail fuel config env).
Proof.
  revert env. induction fuel as [|fuel IH]; intros env Henv; [by intros []|].
  eapply conforms_bind; [by apply session_round_conforms|].
  intros ph [st|r] [Hf Hst]; cbn in Hf; subst; [apply IH; auto|done].
Qed.
End Protocol.

(** ** Every round takes bytes from the peer *)

Definition unread (w : SmtpWorld) : nat := reader_size (sw_reader w).

Lemma read_data_size rd max_size r rd' : read_data rd max_size = (r, rd') -> (reader_size rd' <= reader_size rd)%nat.
Proof.
  unfold read_data. destruct (read_data_loop_total (S (reader_size rd)) rd [] max_size) as (x & rd1 & -> & Hs); [lia|].
  by destruct x; intros [= <- <-].
Qed.

Lemma smtp_handler_unread X (e : SmtpE X) w : (unread (smtp_handler X e w).1 <= unread w)%nat.
Proof.
  unfold unread. destruct e; simpl.
  - destruct (read_line_limited _ _ _) as [[r rd'] text] eqn:E. simpl.
    by apply read_line_limited_answer in E as (_ & ? & _).
  - destruct (read_data _ _) as [r rd'] eqn:E. simpl. by eapply read_data_size.
  - destruct (sw_write_faults w) as [|[|] ?]; done.
  - by destruct (enqueue _ _ _).
Qed.

Lemma run_unread {A} (p : prog SmtpE A) w : (unread (run smtp_handler p w).1 <= unread w)%nat.
Proof.
  apply (run_invariant (fun _ _ => True) (fun w' => (unread w' <= unread w)%nat)); [| |done].
  - intros X e w' _ H. pose proof (smtp_handler_unread X e w'). lia.
  - induction p as [a|X e k IH]; simpl; auto.
Qed.

Section Rounds.
Variable validate_email : str -> bool.
Variable parse_mail : bytes -> option ParsedMail.
Variable config : Config.

Abbreviation round := (session_round validate_email parse_mail config).
Abbreviation loop := (session_loop validate_email parse_mail).

Lemma session_round_unread st w w' st' :
  run smtp_handler (round st) w = (w', Again st') -> (unread w' < unread w)%nat.
Proof.
  unfold session_round. rewrite run_mbind, run_trigger. cbn [smtp_handler].
  destruct (read_line_limited (sw_reader w) [] MAX_COMMAND_LINE_BYTES) as [[r rd'] text] eqn:E.
  apply read_line_limited_answer in E as (_ & Hle & Hlt).
  set (w1 := mkSmtpWorld rd' _ _ _ _ _). assert (unread w1 = reader_size rd') as Hw1 by done.
  destruct r as [[n|e]|]; [|destruct e; try (intros [= _ ?]; done)|intros [= _ ?]; done].
  - destruct (Z.eqb_spec n 0) as [->|Hn]; [intros [= _ ?]; done|]. specialize (Hlt n eq_refl Hn).
    intros H. assert (unread w' <= unread w1)%nat; [|unfold unread in *; lia].
    case_match; [by injection H as <-|].
    match type of H with run _ ?p _ = _ => pose proof (run_unread p w1) as Hr; rewrite H in Hr end. done.
  - intros H. exfalso. revert H. cbn. destruct (sw_write_faults w) as [|[|] ?]; done.
Qed.

Lemma session_loop_total fuel st w :
  (unread w < fuel)%nat -> exists w' r, run smtp_handler (loop fuel config st) w = (w', Some r).
Proof.
  revert st w. induction fuel as [|fuel IH]; intros st w Hf; [lia|]. cbn [session_loop]. rewrite run_mbind.
  destruct (run smtp_handler (round st) w) as [w1 [st1|r]] eqn:Hround; [|by exists w1, r].
  apply session_round_unread in Hround. apply IH. lia.
Qed.

Lemma session_loop_more fuel fuel' st w w' r :
  run smtp_handler (loop fuel config st) w = (w', Some r) -> (fuel <= fuel')%nat ->
  run smtp_handler (loop fuel' config st) w = (w', Some r).
Proof.
  revert fuel' st w. induction fuel as [|fuel IH]; intros [|fuel'] st w; try done; [lia|].
  cbn [session_loop]. rewrite !run_mbind.
  destruct (run smtp_handler (round st) w) as [w1 [st1|r1]]; [|done].
  intros H Hle. apply IH; [done|lia].
Qed.

(** The loop as a relation, without fuel. *)
Definition loops_to (st : SessionState) (w : SmtpWorld) (r : Result unit) (w' : SmtpWorld) : Prop :=
  exists fuel, run smtp_handler (loop fuel config st) w = (w', Some r).

Lemma loops_to_again st w st1 w1 r w' :
  run smtp_handler (round st) w = (w1, Again st1) -> loops_to st1 w1 r w' -> loops_to st w r w'.
Proof.
  intros Hround (fuel & H). exists (S fuel). cbn [session_loop]. by rewrite run_mbind, Hround.
Qed.

Lemma loops_to_return st w r w' :
  run smtp_handler (round st) w = (w', Return r) -> loops_to st w r w'.
Proof. intros Hround. exists 1%nat. cbn [session_loop]. by rewrite run_mbind, Hround. Qed.

(** The loop ends with a result and a world in [Q]. *)
Definition ends (st : SessionState) (w : SmtpWorld) (Q : Result unit -> SmtpWorld -> Prop) : Prop :=
  exists r w', loops_to st w r w' /\ Q r w'.

Lemma ends_again st w st1 w1 Q :
  run smtp_handler (round st) w = (w1, Again st1) -> ends st1 w1 Q -> ends st w Q.
Proof. intros Hround (r & w' & H & HQ). exists r, w'. split; [by eapply loops_to_again|done]. Qed.

Lemma ends_return st w r w' (Q : Result unit -> SmtpWorld -> Prop) :
  run smtp_handler (round st) w = (w', Return r) -> Q r w' -> ends st w Q.
Proof. intros Hround HQ. exists r, w'. split; [by apply loops_to_return|done]. Qed.

Lemma loops_to_fuel st w r w' fuel :
  loops_to st w r w' -> (unread w < fuel)%nat -> run smtp_handler (loop fuel config st) w = (w', Some r).
Proof.
  intros (n & Hn) Hf. destruct (session_loop_total fuel st w Hf) as (w1 & r1 & H1).
  pose proof (session_loop_more n (n `max` fuel) st w w' r Hn ltac:(lia)) as Ha.
  pose proof (session_loop_more fuel (n `max` fuel) st w w1 r1 H1 ltac:(lia)) as Hb. congruence.
Qed.
End Rounds.

(** ** Rounds of a client that writes one command per line *)

Definition with_reader (rd : list io_event) (w : SmtpWorld) : SmtpWorld :=
  mkSmtpWorld rd (sw_written w) (sw_write_faults w) (sw_store w) (sw_clock w) (sw_ticks w).
Definition wrote (b : bytes) (w : SmtpWorld) : SmtpWorld :=
  mkSmtpWorld (sw_reader w) (b :: sw_written w) (sw_write_faults w) (sw_store w) (sw_clock w) (sw_ticks w).

(** A command line as a client writes it: ASCII, not empty, no line end inside. *)
Definition command_line (l : str) : Prop :=
  l <> [] /\ Forall (fun c => 0 <= c < 128 /\ c <> cr /\ c <> nl) l /\ zlen l + 2 <= MAX_COMMAND_LINE_BYTES.

Lemma command_line_trimmed l : command_line l -> trimmed_line (l ++ crlf) = l.
Proof.
  intros (Hne & Hall & _). unfold trimmed_line, trim_end_matches, crlf.
  change (l ++ [cr; nl]) with (l ++ [cr] ++ [nl]). rewrite app_assoc, !drop_while_end_snoc by done.
  destruct (exists_last Hne) as (k & c & ->). apply Forall_app in Hall as [_ Hc].
  apply Forall_cons in Hc as [(_ & Hcr & Hnl) _]. unfold drop_while_end.
  rewrite reverse_snoc. cbn [drop_while].
  rewrite (proj2 (Z.eqb_neq c cr)), (proj2 (Z.eqb_neq c nl)) by done. cbn [orb].
  by rewrite reverse_cons, reverse_involutive.
Qed.

Lemma command_line_is_line l : command_line l -> is_line (l ++ crlf).
Proof.
  intros (_ & Hall & _). exists (l ++ [cr]). split; [by rewrite <- app_assoc|].
  rewrite elem_of_app, list_elem_of_singleton. intros [Hin|]; [|done].
  rewrite Forall_forall in Hall. apply Hall in Hin as (_ & _ & ?). done.
Qed.

Lemma round_on_line v pm config st w l rest :
  clean (sw_reader w) -> reader_bytes (sw_reader w) = (l ++ crlf) ++ rest -> command_line l ->
  exists rd', clean rd' /\ reader_bytes rd' = rest /\
    run smtp_handler (session_round v pm config st) w = run smtp_handler (command v pm config st l) (with_reader rd' w).
Proof.
  intros Hc Hb Hl. pose proof (command_line_is_line l Hl) as Hline.
  pose proof (read_line_limited_bytes_clean (sw_reader w) MAX_COMMAND_LINE_BYTES Hc) as H. cbv zeta in H.
  rewrite Hb, first_line_app, after_line_app in H by done.
  rewrite (proj2 (Z.ltb_ge _ _)), andb_false_r in H.
  2:{ rewrite length_app. destruct Hl as (_ & _ & Hlen). simpl. lia. }
  destruct H as (rd' & Hread & Hcl & Hrest). exists rd'. split_and!; [done..|].
  unfold session_round. rewrite run_mbind, run_trigger. cbn [smtp_handler].
  unfold read_line_limited. rewrite Hread.
  rewrite from_utf8_ascii.
  2:{ apply Forall_app. split; [|by repeat constructor]. destruct Hl as (_ & Hall & _).
      eapply Forall_impl; [exact Hall|]. by intros c (? & _). }
  cbn [app]. fold (trimmed_line (l ++ crlf)). rewrite command_line_trimmed by done.
  rewrite (proj2 (Z.eqb_neq _ 0)) by (rewrite length_app; simpl; lia).
  destruct Hl as (Hne & _ & _). by rewrite bool_decide_eq_false_2.
Qed.

Lemma run_respond b next w :
  sw_write_faults w = [] -> run smtp_handler (respond b next) w = (wrote b w, next).
Proof. destruct w. cbn. by intros ->. Qed.

(** The first word of a command. *)
Lemma verb_keyword kw c rest :
  word (to_uppercase kw) -> is_whitespace c = true -> verb (kw ++ c :: rest) = to_uppercase kw.
Proof.
  intros [Hne Hw] Hc. unfold verb, split_whitespace.
  rewrite to_uppercase_app, to_uppercase_cons, whitespace_uppercase by done. cbn [app].
  rewrite split_pred_app by done. by rewrite filter_cons_True.
Qed.

(** ** A whole conversation *)

Lemma round_command v pm config st w l rest b st' :
  clean (sw_reader w) -> reader_bytes (sw_reader w) = (l ++ crlf) ++ rest -> command_line l ->
  sw_write_faults w = [] -> command v pm config st l = respond b (Again st') ->
  exists rd', clean rd' /\ reader_bytes rd' = rest /\
    run smtp_handler (session_round v pm config st) w = (wrote b (with_reader rd' w), Again st').
Proof.
  intros Hc Hb Hl Hf Hcmd. destruct (round_on_line v pm config st w l rest Hc Hb Hl) as (rd' & ? & ? & Hrun).
  exists rd'. split_and!; [done..|]. rewrite Hrun, Hcmd. by apply run_respond.
Qed.

(** An address a client can write between angle brackets. *)
Definition path_address (a : str) : Prop :=
  Forall (fun c => 0 <= c < 128 /\ c <> cr /\ c <> nl /\ c <> greater_than) a /\ zlen a <= 4000.

Definition mail_line (a : str) : str := lit "MAIL FROM:<" ++ a ++ lit ">".
Definition rcpt_line (a : str) : str := lit "RCPT TO:<" ++ a ++ lit ">".

Lemma path_address_no_gt a : path_address a -> greater_than ∉ a.
Proof. intros [H _] Hin. rewrite Forall_forall in H. apply H in Hin as (_ & _ & _ & ?). done. Qed.

Lemma bracketed_line kw a :
  command_line kw -> zlen kw <= 20 -> path_address a -> command_line (kw ++ a ++ lit ">").
Proof.
  intros (Hne & Hkw & _) Hlen [Ha Hla]. split_and!.
  - by destruct kw.
  - apply Forall_app. split; [done|]. apply Forall_app. split; [|by_decide].
    eapply Forall_impl; [exact Ha|]. naive_solver.
  - rewrite !length_app. unfold MAX_COMMAND_LINE_BYTES. change (length (lit ">")) with 1%nat. lia.
Qed.

Lemma mail_line_ok a : path_address a -> command_line (mail_line a).
Proof. intros Ha. apply bracketed_line; [by_decide|by_decide|done]. Qed.

Lemma rcpt_line_ok a : path_address a -> command_line (rcpt_line a).
Proof. intros Ha. apply bracketed_line; [by_decide|by_decide|done]. Qed.

Lemma header_mail : header (lit "MAIL") (lit "FROM") (lit "MAIL FROM").
Proof. exists (lit "MAIL"), (lit " "), (lit "FROM"), []. split_and!; try reflexivity; by_decide. Qed.
Lemma header_rcpt : header (lit "RCPT") (lit "TO") (lit "RCPT TO").
Proof. exists (lit "RCPT"), (lit " "), (lit "TO"), []. split_and!; try reflexivity; by_decide. Qed.


Lemma handle_connection_conforms v pm fuel config :
  conforms smtp_rely (smtp_step v pm) (fun ph r => is_Some r -> ph = Closed) Connected
    (handle_connection v pm fuel config).
Proof.
  unfold handle_connection, write_all, trigger, mbind, prog_mbind. cbn [prog_bind conforms].
  intros [u|e] _; cbn [smtp_step map_err].
  - apply session_loop_conforms. constructor.
  - intros _. reflexivity.
Qed.
