(* ===== verification/SessionProps.v ===== *)
(** * Properties of SMTP sessions *)

From S2P Require Import Prelude RustStr Unicode Utf8 Error Effects Store StoreFacts StoreProps Reader.
From S2P Require Import ReaderProps Address HtmlFacts Mime ConfigData Net Config ConfigProps Session SessionFacts.

(** C28: a session ends, whatever the peer sends and wherever the writes and the store
    fail: every round of the loop takes at least one byte or event from the peer, and
    the result does not depend on the fuel. *)
Theorem session_terminates (validate_email : str -> bool) (parse_mail : bytes -> option ParsedMail)
    (config : Config) (w : SmtpWorld) :
  exists w' r, forall fuel, (unread w < fuel)%nat ->
    run smtp_handler (handle_connection validate_email parse_mail fuel config) w = (w', Some r).
Proof.
  pose proof (run_unread (write_all (reply "220 chimney-post ESMTP")) w) as Hu.
  destruct (run smtp_handler (write_all (reply "220 chimney-post ESMTP")) w) as [w1 [u|e]] eqn:Hw.
  - destruct (session_loop_total validate_email parse_mail config (S (unread w)) (mkSession None []) w1)
      as (w' & r & Hr); [simpl in Hu; lia|].
    exists w', r. intros fuel Hf. unfold handle_connection. rewrite run_mbind, Hw.
    eapply session_loop_more; [exact Hr|lia].
  - exists w1, (Err e). intros fuel _. unfold handle_connection. by rewrite run_mbind, Hw.
Qed.

(** C11: every session follows the protocol of [smtp_step] in any world.  In
    particular mail is stored before it is acknowledged: after a DATA block is received
    the session enqueues exactly the message of the accepted envelope and nothing else,
    writes [250] only after the store answered [Ok] and [451] after it failed; it asks
    for data ([354]) only with a sender and a recipient; every enqueued message has
    recipients the outbox can hold and never an empty sender. *)
Theorem session_follows_protocol (validate_email : str -> bool) (parse_mail : bytes -> option ParsedMail)
    (fuel : nat) (config : Config) (w : SmtpWorld) :
  let p := handle_connection validate_email parse_mail fuel config in
  exists ph, accepts (smtp_step validate_email parse_mail) Connected (trace smtp_handler observe p w) = Some ph /\
    (is_Some (run smtp_handler p w).2 -> ph = Closed).
Proof.
  cbv zeta. apply (conforms_trace smtp_rely _ _ (fun ph r => is_Some r -> ph = Closed));
    [intros X e s; apply smtp_handler_rely|].
  apply handle_connection_conforms.
Qed.

(** The bytes of a client that sends one message, and what it is answered. *)
Definition client_bytes (from : str) (to : list str) (ls : list bytes) : bytes :=
  (lit "EHLO client" ++ crlf) ++ (mail_line from ++ crlf) ++ concat ((fun a => rcpt_line a ++ crlf) <$> to) ++
  (lit "DATA" ++ crlf) ++ concat (stuff <$> ls) ++ [dot; cr; nl] ++ (lit "QUIT" ++ crlf).

Definition dialogue_answers (config : Config) (to : list str) (r : Result Z) : list bytes :=
  [ehlo_response config; reply "250 OK"] ++ ((fun _ => reply "250 OK") <$> to) ++
  [reply "354 End data with <CR><LF>.<CR><LF>";
   match r with Ok _ => reply "250 OK" | Err _ => reply "451 Requested action aborted: local error in processing" end;
   reply "221 Bye"].

Definition server_answers (config : Config) (to : list str) (r : Result Z) : list bytes :=
  reply "220 chimney-post ESMTP" :: dialogue_answers config to r.

Section Conversation.
Variable validate_email : str -> bool.
Variable parse_mail : bytes -> option ParsedMail.
Variable config : Config.

Abbreviation loops := (ends validate_email parse_mail config).

Variables (store : MessageStore) (clock : nat -> Z) (ticks : nat).

(** The world of a session whose writes succeed. *)
Definition at_ (rd : list io_event) (written : list bytes) : SmtpWorld :=
  mkSmtpWorld rd written [] store clock ticks.

Lemma loops_command st rd written l rest b st' Q :
  clean rd -> reader_bytes rd = (l ++ crlf) ++ rest -> command_line l ->
  command validate_email parse_mail config st l = respond b (Again st') ->
  (forall rd', clean rd' -> reader_bytes rd' = rest -> loops st' (at_ rd' (b :: written)) Q) ->
  loops st (at_ rd written) Q.
Proof.
  intros Hc Hb Hl Hcmd Hk.
  destruct (round_command validate_email parse_mail config st (at_ rd written) l rest b st' Hc Hb Hl eq_refl Hcmd)
    as (rd' & ? & ? & Hrun).
  eapply ends_again; [exact Hrun|]. by apply Hk.
Qed.

Lemma command_ehlo st :
  command validate_email parse_mail config st (lit "EHLO client") = respond (ehlo_response config) (Again st).
Proof. reflexivity. Qed.

Lemma command_mail st from :
  path_address from -> from = [] \/ validate_email from = true ->
  command validate_email parse_mail config st (mail_line from)
  = respond (reply "250 OK") (Again (mkSession (Some from) (ss_recipients st))).
Proof.
  intros Hp Hv. assert (verb (mail_line from) = lit "MAIL") as Hverb.
  { apply (verb_keyword (lit "MAIL") 32 (lit "FROM:<" ++ from ++ lit ">")); [split; by_decide|done]. }
  unfold command. fold (verb (mail_line from)). rewrite Hverb.
  assert (parse_mail_from validate_email (mail_line from) = Some from) as Hparse.
  { etransitivity; [exact (parse_mail_from_path validate_email (lit "MAIL FROM") [] from [] header_mail
      ltac:(constructor) (path_address_no_gt _ Hp))|].
    destruct Hv as [->|Hv]; [done|]. by rewrite Hv, orb_true_r. }
  rewrite Hparse. reflexivity.
Qed.

Lemma command_rcpt st addr :
  path_address addr -> addr <> [] -> validate_email addr = true ->
  command validate_email parse_mail config st (rcpt_line addr)
  = respond (reply "250 OK") (Again (mkSession (ss_from st) (ss_recipients st ++ [addr]))).
Proof.
  intros Hp Hne Hv. assert (verb (rcpt_line addr) = lit "RCPT") as Hverb.
  { apply (verb_keyword (lit "RCPT") 32 (lit "TO:<" ++ addr ++ lit ">")); [split; by_decide|done]. }
  unfold command. fold (verb (rcpt_line addr)). rewrite Hverb.
  assert (parse_rcpt_to validate_email (rcpt_line addr) = Some addr) as Hparse.
  { etransitivity; [exact (parse_rcpt_to_path validate_email (lit "RCPT TO") [] addr [] header_rcpt
      ltac:(constructor) (path_address_no_gt _ Hp))|].
    rewrite bool_decide_eq_false_2 by done. cbn [negb andb]. by rewrite Hv. }
  rewrite Hparse. reflexivity.
Qed.

Lemma map_const_cons {A B} (b : B) (l : list A) rest :
  ((fun _ => b) <$> l) ++ b :: rest = b :: ((fun _ => b) <$> l) ++ rest.
Proof. induction l as [|a l IH]; csimpl; [done|]. by rewrite IH. Qed.

Lemma reverse_map_const {A B} (b : B) (l : list A) : reverse ((fun _ => b) <$> l) = (fun _ => b) <$> l.
Proof.
  induction l as [|a l IH]; csimpl; [done|]. rewrite reverse_cons, IH.
  pose proof (map_const_cons b l []) as H. by rewrite app_nil_r in H.
Qed.

Lemma loops_rcpts to st rd written rest Q :
  Forall (fun a => path_address a /\ a <> [] /\ validate_email a = true) to ->
  clean rd -> reader_bytes rd = concat ((fun a => rcpt_line a ++ crlf) <$> to) ++ rest ->
  (forall rd', clean rd' -> reader_bytes rd' = rest ->
     loops (mkSession (ss_from st) (ss_recipients st ++ to)) (at_ rd' (((fun _ => reply "250 OK") <$> to) ++ written)) Q) ->
  loops st (at_ rd written) Q.
Proof.
  intros Hto. revert st rd written. induction Hto as [|a to (Hp & Hne & Hv) _ IH]; intros st rd written Hc Hb Hk.
  - specialize (Hk rd Hc Hb). rewrite app_nil_r in Hk. by destruct st.
  - assert (reader_bytes rd = (rcpt_line a ++ crlf) ++ concat ((fun a => rcpt_line a ++ crlf) <$> to) ++ rest) as Hb'.
    { rewrite Hb. symmetry. apply app_assoc. }
    eapply loops_command; [exact Hc|exact Hb'|by apply rcpt_line_ok|by apply command_rcpt|].
    intros rd1 Hc1 Hb1. eapply IH; [exact Hc1|exact Hb1|]. intros rd2 Hc2 Hb2.
    specialize (Hk rd2 Hc2 Hb2). cbn [ss_from ss_recipients].
    rewrite map_const_cons, <- app_assoc. exact Hk.
Qed.

(** The DATA command with a complete block that fits, and what follows it. *)
Lemma loops_data from to ls rd written rest s' res Q :
  to <> [] -> Forall is_line ls -> clean rd ->
  reader_bytes rd = (lit "DATA" ++ crlf) ++ concat (stuff <$> ls) ++ [dot; cr; nl] ++ rest ->
  zlen (concat ls) <= smtp_max_message_size (cfg_smtp config) <= u64_max - 4 ->
  enqueue (clock ticks) (parse_data parse_mail (Some from) to (from_utf8_lossy (concat ls))) store = (s', res) ->
  (forall rd', clean rd' -> reader_bytes rd' = rest ->
     loops (mkSession None [])
       (mkSmtpWorld rd'
          (match res with Ok _ => reply "250 OK" | Err _ => reply "451 Requested action aborted: local error in processing" end
           :: reply "354 End data with <CR><LF>.<CR><LF>" :: written) [] s' clock (S ticks)) Q) ->
  loops (mkSession (Some from) to) (at_ rd written) Q.
Proof.
  intros Hto Hls Hc Hb Hmax Henq Hk.
  destruct (round_on_line validate_email parse_mail config (mkSession (Some from) to) (at_ rd written)
    (lit "DATA") _ Hc Hb) as (rd1 & Hc1 & Hb1 & Hrun); [by_decide|].
  pose proof (read_data_lines_terminated ls [dot; cr; nl] rest rd1 (smtp_max_message_size (cfg_smtp config))
    Hc1 Hls (or_introl eq_refl) Hb1) as Hread.
  rewrite (proj2 (Z.leb_le _ _)) in Hread by lia.
  destruct Hread as (rd2 & Hread & Hc2 & Hb2); [lia|].
  eapply ends_again; [|by apply (Hk rd2)]. rewrite Hrun.
  change (command validate_email parse_mail config (mkSession (Some from) to) (lit "DATA"))
    with (if bool_decide (to = []) then respond (reply "503 Bad sequence of commands") (Again (mkSession (Some from) to))
          else data_command parse_mail config (mkSession (Some from) to)).
  rewrite bool_decide_eq_false_2 by done. unfold data_command.
  cbn -[read_data enqueue reply]. rewrite Hread. cbn -[enqueue reply]. rewrite Henq. by destruct res.
Qed.
(** The DATA command with a block whose line [big] takes it over the limit: the session
    goes on at what follows that line. *)
Lemma loops_oversized from to ls big rd written rest Q :
  to <> [] -> Forall is_line ls -> is_line big -> clean rd ->
  reader_bytes rd = (lit "DATA" ++ crlf) ++ concat (stuff <$> ls) ++ stuff big ++ rest ->
  0 <= smtp_max_message_size (cfg_smtp config) <= u64_max - 4 ->
  zlen (concat ls) <= smtp_max_message_size (cfg_smtp config) < zlen (concat ls) + zlen big ->
  zlen (stuff big) <= smtp_max_message_size (cfg_smtp config) - zlen (concat ls) + 4 ->
  (forall rd', clean rd' -> reader_bytes rd' = rest ->
     loops (mkSession None [])
       (at_ rd' (reply "552 Message size exceeded" :: reply "354 End data with <CR><LF>.<CR><LF>" :: written)) Q) ->
  loops (mkSession (Some from) to) (at_ rd written) Q.
Proof.
  intros Hto Hls Hbig Hc Hb Hmax Hover Hfits Hk.
  destruct (round_on_line validate_email parse_mail config (mkSession (Some from) to) (at_ rd written)
    (lit "DATA") _ Hc Hb) as (rd1 & Hc1 & Hb1 & Hrun); [by_decide|].
  destruct (read_data_oversized ls big rest rd1 (smtp_max_message_size (cfg_smtp config)) Hc1 Hls Hbig Hb1 Hmax Hover Hfits)
    as (rd2 & Hread & Hc2 & Hb2).
  eapply ends_again; [|by apply (Hk rd2)]. rewrite Hrun.
  change (command validate_email parse_mail config (mkSession (Some from) to) (lit "DATA"))
    with (if bool_decide (to = []) then respond (reply "503 Bad sequence of commands") (Again (mkSession (Some from) to))
          else data_command parse_mail config (mkSession (Some from) to)).
  rewrite bool_decide_eq_false_2 by done. unfold data_command.
  cbn -[read_data enqueue reply]. rewrite Hread. reflexivity.
Qed.

Lemma conversation_rounds from to ls rd written s' res :
  path_address from -> from = [] \/ validate_email from = true ->
  to <> [] -> Forall (fun a => path_address a /\ a <> [] /\ validate_email a = true) to ->
  Forall is_line ls ->
  zlen (concat ls) <= smtp_max_message_size (cfg_smtp config) <= u64_max - 4 ->
  clean rd -> reader_bytes rd = client_bytes from to ls ->
  enqueue (clock ticks) (parse_data parse_mail (Some from) to (from_utf8_lossy (concat ls))) store = (s', res) ->
  loops (mkSession None []) (at_ rd written) (fun r w' =>
    r = Ok tt /\ sw_store w' = s' /\ sw_written w' = reverse (dialogue_answers config to res) ++ written).
Proof.
  intros Hfp Hfv Hne Hto Hls Hmax Hc Hb Henq. unfold client_bytes in Hb.
  eapply loops_command; [exact Hc|exact Hb|by_decide|apply command_ehlo|]. intros rd1 Hc1 Hb1.
  eapply loops_command; [exact Hc1|exact Hb1|by apply mail_line_ok|by apply command_mail|]. intros rd2 Hc2 Hb2.
  eapply loops_rcpts; [exact Hto|exact Hc2|exact Hb2|]. intros rd3 Hc3 Hb3. cbn [ss_from ss_recipients app].
  eapply loops_data; [exact Hne|exact Hls|exact Hc3|exact Hb3|exact Hmax|exact Henq|]. intros rd4 Hc4 Hb4.
  rewrite <- (app_nil_r (lit "QUIT" ++ crlf)) in Hb4.
  match goal with |- loops _ ?w _ =>
    destruct (round_on_line validate_email parse_mail config (mkSession None []) w (lit "QUIT") [] Hc4 Hb4)
      as (rd5 & Hc5 & Hb5 & Hrun); [by_decide|] end.
  eapply ends_return.
  - rewrite Hrun.
    change (command validate_email parse_mail config (mkSession None []) (lit "QUIT"))
      with (respond (reply "221 Bye") (Return (Ok tt))).
    by rewrite run_respond.
  - unfold wrote, with_reader. cbn [sw_store sw_written]. split_and!; [done..|].
    unfold dialogue_answers. rewrite !reverse_app, reverse_map_const, <- !app_assoc. reflexivity.
Qed.
End Conversation.

(** A whole conversation: what is answered and what the store is asked. *)
Lemma conversation_served (validate_email : str -> bool) (parse_mail : bytes -> option ParsedMail)
    (config : Config) (from : str) (to : list str) (ls : list bytes) (w : SmtpWorld) :
  path_address from /\ (from = [] \/ validate_email from = true) ->
  to <> [] /\ Forall (fun a => path_address a /\ a <> [] /\ validate_email a = true) to ->
  Forall is_line ls -> zlen (concat ls) <= smtp_max_message_size (cfg_smtp config) <= u64_max - 4 ->
  clean (sw_reader w) -> reader_bytes (sw_reader w) = client_bytes from to ls -> sw_write_faults w = [] ->
  let message := parse_data parse_mail (Some from) to (from_utf8_lossy (concat ls)) in
  let '(s', r) := enqueue (sw_clock w (sw_ticks w)) message (sw_store w) in
  exists w', (forall fuel, (unread w < fuel)%nat ->
      run smtp_handler (handle_connection validate_email parse_mail fuel config) w = (w', Some (Ok tt))) /\
    sw_store w' = s' /\ sw_written w' = reverse (server_answers config to r) ++ sw_written w.
Proof.
  intros Hfrom Hto Hls Hmax Hclean Hbytes Hwrites.
  destruct w as [rd written faults store clock ticks].
  cbn [sw_reader sw_written sw_write_faults sw_store sw_clock sw_ticks] in *. subst faults. cbv zeta.
  destruct (enqueue (clock ticks) _ store) as [s' res] eqn:Henq.
  destruct Hfrom as [Hfp Hfv], Hto as [Hne Hto].
  destruct (conversation_rounds validate_email parse_mail config store clock ticks from to ls rd
    (reply "220 chimney-post ESMTP" :: written) s' res) as (r & w' & Hloop & -> & Hs & Hw); try done.
  exists w'. split; [|split; [done|unfold server_answers; by rewrite reverse_cons, <- app_assoc]]. intros fuel Hf. 
  eapply loops_to_fuel; [exact Hloop|exact Hf].
Qed.

(** The message of such a conversation comes back from the outbox as it is. *)
Lemma served_storable (validate_email : str -> bool) (parse_mail : bytes -> option ParsedMail) (from : str) (to : list str)
    (text : str) :
  to <> [] /\ Forall (fun a => path_address a /\ a <> [] /\ validate_email a = true) to ->
  storable (parse_data parse_mail (Some from) to text).
Proof.
  intros [_ Hto]. apply (parse_data_storable parse_mail (mkSession (Some from) to)).
  eapply Forall_impl; [exact Hto|]. intros a ([Ha _] & Hne & _). split; [|done].
  intros Hin. rewrite Forall_forall in Ha. by apply Ha in Hin as (_ & _ & ? & _).
Qed.

(** C9: end to end over SMTP.  A client that greets, names a sender and recipients the
    validator accepts, sends a message that fits and quits is served however TCP cuts
    its bytes: it is answered exactly [server_answers], the store is asked to enqueue
    exactly one message, that of its envelope and of the lines it wrote, and the final
    [250] or [451] is the store's answer. *)
Theorem conversation_delivers (validate_email : str -> bool) (parse_mail : bytes -> option ParsedMail)
    (config : Config) (from : str) (to : list str) (ls : list bytes) (w : SmtpWorld)
    (Hfrom : path_address from /\ (from = [] \/ validate_email from = true))
    (Hto : to <> [] /\ Forall (fun a => path_address a /\ a <> [] /\ validate_email a = true) to)
    (Hls : Forall is_line ls)
    (Hmax : zlen (concat ls) <= smtp_max_message_size (cfg_smtp config) <= u64_max - 4)
    (Hclean : clean (sw_reader w)) (Hbytes : reader_bytes (sw_reader w) = client_bytes from to ls)
    (Hwrites : sw_write_faults w = []) :
  let message := parse_data parse_mail (Some from) to (from_utf8_lossy (concat ls)) in
  let '(s', r) := enqueue (sw_clock w (sw_ticks w)) message (sw_store w) in
  exists w', (forall fuel, (unread w < fuel)%nat ->
      run smtp_handler (handle_connection validate_email parse_mail fuel config) w = (w', Some (Ok tt))) /\
    sw_store w' = s' /\ sw_written w' = reverse (server_answers config to r) ++ sw_written w.
Proof. by apply conversation_served. Qed.

Definition toy_email (addr : str) : bool := contains (lit "@") addr.
Definition no_mime (b : bytes) : option ParsedMail := None.
(** An account with an access token, and what [validate] accepts of the rest. *)
Definition bot_matrix : MatrixConfig :=
  mkMatrixConfig (lit "https://example.org") (lit "@bot:example.org") (lit "chimney-post") (lit "!default:x")
    (lit "/tmp/matrix") true DEFAULT_MESSAGE_TEMPLATE []
    (mkCredentials None (Some (lit "syt_1")) (Some (lit "DEV"))).
Definition smtp_config (max_message_size : Z) : Config :=
  mkConfig (mkSmtpConfig (lit "127.0.0.1:2525") max_message_size 30 100 300) bot_matrix
    (mkLogging (lit "info") (lit "json")) (mkQueueConfig 5 60 (lit "queue.db") 0).
Example smtp_config_validates : validate toy_url toy_user toy_room (smtp_config 100) = Ok tt.
Proof. vm_compute. reflexivity. Qed.
Definition client_world (chunks : list bytes) : SmtpWorld :=
  mkSmtpWorld (Chunk <$> chunks) [] [] (fresh_store [] 2) (fun n => 1000 + Z.of_nat n) 0.

Definition note_lines : list bytes := [lit "Subject: disk" ++ crlf; crlf; lit ".full" ++ crlf].
Lemma note_lines_ok : Forall is_line note_lines.
Proof.
  unfold note_lines. apply List.Forall_cons; [|apply List.Forall_cons; [|apply List.Forall_cons; [|apply List.Forall_nil]]].
  - exists (lit "Subject: disk" ++ [cr]). split; [reflexivity | by_decide].
  - exists [cr]. split; [reflexivity | by_decide].
  - exists (lit ".full" ++ [cr]). split; [reflexivity | by_decide].
Qed.
Definition note_client : bytes := client_bytes [] [lit "root@x"; lit "ops@x"] note_lines.

Lemma conversation_delivers_witness :
  let w := client_world [take 30 note_client; drop 30 note_client] in
  let message := mkMessage None [lit "root@x"; lit "ops@x"] (Some (lit "disk")) (lit ".full") in
  parse_data no_mime (Some []) [lit "root@x"; lit "ops@x"] (from_utf8_lossy (concat note_lines)) = message /\
  let '(s', r) := enqueue 1000 message (fresh_store [] 2) in
  r = Ok 1 /\
  exists w', (forall fuel, (unread w < fuel)%nat ->
      run smtp_handler (handle_connection toy_email no_mime fuel (smtp_config 100)) w = (w', Some (Ok tt))) /\
    sw_store w' = s' /\
    sw_written w' = reverse (server_answers (smtp_config 100) [lit "root@x"; lit "ops@x"] r) ++ [].
Proof.
  split; [vm_compute; reflexivity|]. split; [vm_compute; reflexivity|].
  apply (conversation_delivers toy_email no_mime (smtp_config 100) [] [lit "root@x"; lit "ops@x"] note_lines
    (client_world [take 30 note_client; drop 30 note_client])).
  - split; [split; [constructor | by_decide] | by left].
  - split; [discriminate|]. by_decide.
  - apply note_lines_ok.
  - split; vm_compute; discriminate.
  - repeat constructor.
  - vm_compute. reflexivity.
  - reflexivity.
Defined.

(** C29: after the 552 answer the rest of an oversized DATA block stays in the stream and
    is read as commands.  Whatever message a client sends whose line [big] takes it over
    the limit, if what follows in that same message reads like a client's conversation,
    then it is one: the server answers it and stores the message, with the sender and
    the recipients, that the text names. *)
Theorem oversized_block_is_executed (validate_email : str -> bool) (parse_mail : bytes -> option ParsedMail)
    (config : Config) (from : str) (to : list str) (ls : list bytes) (big : bytes)
    (from' : str) (to' : list str) (ls' : list bytes) (w : SmtpWorld)
    (Hfrom : path_address from /\ (from = [] \/ validate_email from = true))
    (Hto : to <> [] /\ Forall (fun a => path_address a /\ a <> [] /\ validate_email a = true) to)
    (Hls : Forall is_line ls /\ is_line big)
    (Hover : zlen (concat ls) <= smtp_max_message_size (cfg_smtp config) < zlen (concat ls) + zlen big)
    (Hslack : zlen (stuff big) <= smtp_max_message_size (cfg_smtp config) - zlen (concat ls) + 4)
    (Hfrom' : path_address from' /\ (from' = [] \/ validate_email from' = true))
    (Hto' : to' <> [] /\ Forall (fun a => path_address a /\ a <> [] /\ validate_email a = true) to')
    (Hls' : Forall is_line ls')
    (Hmax : zlen (concat ls') <= smtp_max_message_size (cfg_smtp config) <= u64_max - 4)
    (Hclean : clean (sw_reader w))
    (Hbytes : reader_bytes (sw_reader w) =
       (mail_line from ++ crlf) ++ concat ((fun a => rcpt_line a ++ crlf) <$> to) ++ (lit "DATA" ++ crlf) ++
       concat (stuff <$> ls) ++ stuff big ++ client_bytes from' to' ls')
    (Hwrites : sw_write_faults w = []) :
  let message := parse_data parse_mail (Some from') to' (from_utf8_lossy (concat ls')) in
  let '(s', r) := enqueue (sw_clock w (sw_ticks w)) message (sw_store w) in
  exists w', (forall fuel, (unread w < fuel)%nat ->
      run smtp_handler (handle_connection validate_email parse_mail fuel config) w = (w', Some (Ok tt))) /\
    sw_store w' = s' /\
    sw_written w' =
      reverse ([reply "220 chimney-post ESMTP"; reply "250 OK"] ++ ((fun _ => reply "250 OK") <$> to) ++
               [reply "354 End data with <CR><LF>.<CR><LF>"; reply "552 Message size exceeded"] ++
               dialogue_answers config to' r) ++ sw_written w.
Proof.
  destruct w as [rd written faults store clock ticks].
  cbn [sw_reader sw_written sw_write_faults sw_store sw_clock sw_ticks] in *. subst faults. cbv zeta.
  destruct (enqueue (clock ticks) _ store) as [s' res] eqn:Henq.
  destruct Hfrom as [Hfp Hfv], Hto as [Hne Hto], Hls as [Hls Hbig], Hfrom' as [Hfp' Hfv'], Hto' as [Hne' Hto'].
  assert (ends validate_email parse_mail config (mkSession None [])
    (at_ store clock ticks rd (reply "220 chimney-post ESMTP" :: written)) (fun r w' =>
      r = Ok tt /\ sw_store w' = s' /\ sw_written w' = reverse (dialogue_answers config to' res) ++
        [reply "552 Message size exceeded"; reply "354 End data with <CR><LF>.<CR><LF>"] ++
        ((fun _ => reply "250 OK") <$> to) ++ [reply "250 OK"; reply "220 chimney-post ESMTP"] ++ written))
    as (r & w' & Hloop & -> & Hs & Hw).
  { eapply loops_command; [exact Hclean|exact Hbytes|by apply mail_line_ok|by apply command_mail|]. intros rd1 Hc1 Hb1.
    eapply loops_rcpts; [exact Hto|exact Hc1|exact Hb1|]. intros rd2 Hc2 Hb2. cbn [ss_from ss_recipients app].
    eapply loops_oversized; [exact Hne|exact Hls|exact Hbig|exact Hc2|exact Hb2|lia|exact Hover|exact Hslack|].
    intros rd3 Hc3 Hb3.
    by apply (conversation_rounds validate_email parse_mail config store clock ticks from' to' ls'). }
  exists w'. split; [intros fuel Hf; eapply loops_to_fuel; [exact Hloop|exact Hf]|]. split; [done|].
  rewrite Hw, !reverse_app, reverse_map_const, <- !app_assoc. reflexivity.
Qed.

(** A message whose text holds a transaction to somebody else. *)
Definition smuggled_lines : list bytes := [lit "hi" ++ crlf].
Definition smuggler_world : SmtpWorld :=
  client_world [(mail_line (lit "a@x") ++ crlf) ++ (rcpt_line (lit "b@x") ++ crlf) ++ (lit "DATA" ++ crlf) ++
    (lit "xxxxxxxxx" ++ crlf) ++ client_bytes (lit "evil@x") [lit "victim@x"] smuggled_lines].

Lemma oversized_block_is_executed_witness :
  (enqueue 1000 (mkMessage (Some (lit "evil@x")) [lit "victim@x"] None []) (fresh_store [] 2)).2 = Ok 1 /\
  exists w', (forall fuel, (unread smuggler_world < fuel)%nat ->
      run smtp_handler (handle_connection toy_email no_mime fuel (smtp_config 10)) smuggler_world = (w', Some (Ok tt))) /\
    sw_store w' = (enqueue 1000 (mkMessage (Some (lit "evil@x")) [lit "victim@x"] None []) (fresh_store [] 2)).1.
Proof.
  split; [vm_compute; reflexivity|].
  destruct (oversized_block_is_executed toy_email no_mime (smtp_config 10) (lit "a@x") [lit "b@x"] []
    (lit "xxxxxxxxx" ++ crlf) (lit "evil@x") [lit "victim@x"] smuggled_lines smuggler_world) as (w' & Hrun & Hs & _).
  - split; [by_decide|right; vm_compute; reflexivity].
  - split; [discriminate|by_decide].
  - split; [apply List.Forall_nil|]. exists (lit "xxxxxxxxx" ++ [13]). split; [vm_compute; reflexivity|by_decide].
  - vm_compute. split; [discriminate|reflexivity].
  - vm_compute. discriminate.
  - split; [by_decide|right; vm_compute; reflexivity].
  - split; [discriminate|by_decide].
  - apply List.Forall_cons; [|apply List.Forall_nil]. exists (lit "hi" ++ [13]). split; [vm_compute; reflexivity|by_decide].
  - vm_compute. split; discriminate.
  - apply List.Forall_cons; [done|apply List.Forall_nil].
  - vm_compute. reflexivity.
  - reflexivity.
  - exists w'. split; [exact Hrun|exact Hs].
Defined.
