(* ===== verification/Serve.v ===== *)
(** * The accept loop ([src/src/smtp/server.rs], lines 32-90)

    [serve_smtp] as a program over [accept], the connection semaphore and the tasks it
    spawns, and a world with the semaphore and the live sessions.  What a session task
    runs is [Session.handle_connection]; [System] puts the two together. *)

From S2P Require Import Prelude RustStr Error Effects Reader ConfigData Net Session.

(** The calls of [serve_smtp]; [Conn] is an accepted stream.  A session is spawned with
    its deadline in seconds and the permit it holds until its task ends. *)
Inductive ServeE (Conn : Type) : Type -> Type :=
| AcceptConn : ServeE Conn (result str Conn)
| TryAcquire : ServeE Conn bool
| SpawnReject (stream : Conn) (response : bytes) : ServeE Conn unit
| SpawnSession (stream : Conn) (session_deadline : Z) : ServeE Conn unit.
Arguments AcceptConn {Conn}.
Arguments TryAcquire {Conn}.
Arguments SpawnReject {Conn} stream response.
Arguments SpawnSession {Conn} stream session_deadline.

(** [Semaphore::new(config.smtp.max_connections.max(1))]. *)
Definition permits (config : Config) : Z := Z.max (smtp_max_connections (cfg_smtp config)) 1.

Definition session_deadline (config : Config) : Z := Z.max (smtp_max_session_seconds (cfg_smtp config)) 1.

(** One round of the loop of [serve_smtp]. *)
Definition serve_round {Conn} (config : Config) : prog (ServeE Conn) unit :=
  conn ← trigger AcceptConn;
  match conn with
  | Err _ => Ret tt
  | Ok stream =>
      permit ← trigger TryAcquire;
      if permit : bool then trigger (SpawnSession stream (session_deadline config))
      else trigger (SpawnReject stream (reply "421 Too many connections"))
  end.

(** The first [rounds] rounds; the loop has no exit, so there is no result. *)
Fixpoint serve_smtp {Conn} (rounds : nat) (config : Config) : prog (ServeE Conn) (option (Result unit)) :=
  match rounds with
  | O => Ret None
  | S rounds' => _ ← serve_round config; serve_smtp rounds' config
  end.

Definition start_smtp_server {L Conn} (bind : SocketAddr -> result str L) (rounds : nat) (config : Config)
  : prog (ServeE Conn) (option (Result unit)) :=
  match bind_smtp bind config with
  | Err e => Ret (Some (Err e))
  | Ok _listener => serve_smtp rounds config
  end.

(** ** The world of the accept loop

    The permits left in the semaphore, the live sessions with their deadlines and the
    connections turned away with what they were sent. *)
Record ServeWorld (Conn : Type) : Type := mkServe {
  sv_available : Z;
  sv_live : list (Conn * Z);
  sv_rejected : list (Conn * bytes);
}.
Arguments mkServe {Conn} _ _ _.
Arguments sv_available {Conn} _.
Arguments sv_live {Conn} _.
Arguments sv_rejected {Conn} _.

(** [next] is what [accept] answers. *)
Definition serve_handler {Conn} (next : result str Conn) : handler (ServeE Conn) (ServeWorld Conn) := fun X e w =>
  match e in ServeE _ X return ServeWorld Conn * X with
  | AcceptConn => (w, next)
  | TryAcquire =>
      if 0 <? sv_available w
      then (mkServe (sv_available w - 1) (sv_live w) (sv_rejected w), true)
      else (w, false)
  | SpawnReject stream response =>
      (mkServe (sv_available w) (sv_live w) (sv_rejected w ++ [(stream, response)]), tt)
  | SpawnSession stream deadline =>
      (mkServe (sv_available w) (sv_live w ++ [(stream, deadline)]) (sv_rejected w), tt)
  end.

(** What happens to the server: [accept] returns, or a session task ends, in whatever
    way, and drops its permit. *)
Inductive serve_event (Conn : Type) : Type :=
| Accepts (next : result str Conn)
| SessionEnds (k : nat).
Arguments Accepts {Conn} next.
Arguments SessionEnds {Conn} k.

Definition serve_step {Conn} (config : Config) (w : ServeWorld Conn) (ev : serve_event Conn) : ServeWorld Conn :=
  match ev with
  | Accepts next => (run (serve_handler next) (serve_round config) w).1
  | SessionEnds k =>
      match sv_live w !! k with
      | Some _ => mkServe (sv_available w + 1) (delete k (sv_live w)) (sv_rejected w)
      | None => w
      end
  end.

Definition serve_start {Conn} (config : Config) : ServeWorld Conn := mkServe (permits config) [] [].

(** ** Properties *)

(** The semaphore counts the live sessions. *)
Definition serve_ok {Conn} (config : Config) (w : ServeWorld Conn) : Prop :=
  0 <= sv_available w /\ sv_available w + Z.of_nat (length (sv_live w)) = permits config /\
  Forall (fun x => x.2 = session_deadline config) (sv_live w).

Lemma serve_start_ok {Conn} config : serve_ok (Conn := Conn) config (serve_start config).
Proof. unfold serve_ok, serve_start, permits. cbn. split_and!; [lia|lia|constructor]. Qed.

Lemma serve_step_ok {Conn} config (w : ServeWorld Conn) ev :
  serve_ok config w -> serve_ok config (serve_step config w ev).
Proof.
  intros (Hav & Hsum & Hdl). destruct ev as [[stream|e]|k]; cbn.
  - destruct (Z.ltb_spec 0 (sv_available w)); cbn; unfold serve_ok; cbn; [|by split_and!].
    rewrite length_app, Forall_app. cbn. split_and!; [lia|lia|done|by constructor].
  - by split_and!.
  - destruct (sv_live w !! k) as [x|] eqn:Hk; [|by split_and!]. unfold serve_ok. cbn.
    assert (k < length (sv_live w))%nat as Hlt by (by eapply lookup_lt_Some).
    rewrite length_delete by done. split_and!; [lia|lia|by apply Forall_delete].
Qed.

(** The connection limit, for any sequence of accepts and session ends.  There are
    never more sessions than [max_connections] (at least one), each with the configured
    deadline; the permits are exactly the free slots, so none leaks; and the next
    connection is served when a slot is free and otherwise sent the 421 line, with the
    live sessions untouched. *)
Theorem connection_limit {Conn} (config : Config) (evs : list (serve_event Conn)) (stream : Conn) :
  let w := foldl (serve_step config) (serve_start config) evs in
  let w' := serve_step config w (Accepts (Ok stream)) in
  Z.of_nat (length (sv_live w)) + sv_available w = permits config /\
  0 <= sv_available w /\
  Forall (fun x => x.2 = session_deadline config) (sv_live w) /\
  (Z.of_nat (length (sv_live w)) < permits config ->
     sv_live w' = sv_live w ++ [(stream, session_deadline config)] /\ sv_rejected w' = sv_rejected w) /\
  (Z.of_nat (length (sv_live w)) = permits config ->
     sv_live w' = sv_live w /\ sv_rejected w' = sv_rejected w ++ [(stream, lit "421 Too many connections" ++ crlf)]).
Proof.
  intros w w'. assert (serve_ok config w) as (Hav & Hsum & Hdl).
  { subst w w'. generalize (serve_start_ok (Conn := Conn) config). generalize (serve_start (Conn := Conn) config).
    induction evs as [|ev evs IH]; intros w0 H0; [done|]. apply IH. by apply serve_step_ok. }
  split_and!; [lia|done|done|intros Hlt|intros Heq]; subst w'; cbn.
  - by destruct (Z.ltb_spec 0 (sv_available w)); [|lia].
  - by destruct (Z.ltb_spec 0 (sv_available w)); [lia|].
Qed.
