(* ===== verification/Deadline.v ===== *)
(** * The deadline of a session ([src/src/smtp/server.rs], 70-86)

    [serve_smtp] wraps each session in [timeout(session_deadline, ..)], so that a client
    that holds a connection without using it cannot keep its slot.  The accept loop of
    [Serve] with a clock: a connection carries the time it was accepted at, and the timer
    of a session ends its task, which drops the permit. *)

From S2P Require Import Prelude RustStr Error Effects Reader ConfigData Net Session Serve.

Lemma submseteq_filter {A} (P : A -> Prop) `{forall x, Decision (P x)} (l k : list A) :
  l ⊆+ k -> filter P l ⊆+ filter P k.
Proof.
  induction 1 as [|x l k _ IH|x y l|x l k _ IH|l1 l2 l3 _ IH1 _ IH2]; [done| | | |by etransitivity].
  - rewrite !filter_cons. case_decide; [by apply submseteq_skip|done].
  - rewrite !filter_cons. repeat case_decide; try done. apply submseteq_swap.
  - rewrite filter_cons. case_decide; [by apply submseteq_cons|done].
Qed.

Lemma filter_all {A} (P : A -> Prop) `{forall x, Decision (P x)} (l : list A) : Forall P l -> filter P l = l.
Proof. induction 1 as [|x l Hx _ IH]; [done|]. rewrite filter_cons, decide_True by done. by rewrite IH. Qed.

Section Deadline.
Context {C : Type}.
Variable config : Config.

Abbreviation conn := (C * Z)%type.

Record DeadlineWorld : Type := mkDeadline {
  dl_serve : ServeWorld conn;
  dl_now : Z;
  dl_served : list Z;     (** when the sessions were started, the last one first *)
}.

(** Whether the timer of a session has fired. *)
Definition expired (now : Z) (session : conn * Z) : bool := session.1.2 + session.2 <=? now.

(** The timers that fire until [now]: each session they end gives its permit back. *)
Definition expire (now : Z) (sv : ServeWorld conn) : ServeWorld conn :=
  mkServe (sv_available sv + Z.of_nat (length (filter (fun x => expired now x = true) (sv_live sv))))
    (filter (fun x => expired now x = false) (sv_live sv)) (sv_rejected sv).

Inductive deadline_event : Type :=
| Connects (stream : C)
| AcceptFails (error : str)
| Ends (k : nat)
| Passes (seconds : nat).

Definition deadline_step (w : DeadlineWorld) (ev : deadline_event) : DeadlineWorld :=
  match ev with
  | Connects stream =>
      mkDeadline (serve_step config (dl_serve w) (Accepts (Ok (stream, dl_now w)))) (dl_now w)
        (if 0 <? sv_available (dl_serve w) then dl_now w :: dl_served w else dl_served w)
  | AcceptFails error => mkDeadline (serve_step config (dl_serve w) (Accepts (Err error))) (dl_now w) (dl_served w)
  | Ends k => mkDeadline (serve_step config (dl_serve w) (SessionEnds k)) (dl_now w) (dl_served w)
  | Passes seconds =>
      let now := dl_now w + Z.of_nat seconds in mkDeadline (expire now (dl_serve w)) now (dl_served w)
  end.

Definition deadline_start (now : Z) : DeadlineWorld := mkDeadline (serve_start config) now [].

(** The sessions started within the last deadline. *)
Definition recent (w : DeadlineWorld) : list Z :=
  filter (fun t => dl_now w - session_deadline config < t) (dl_served w).

(** ** The invariant *)

(** The live sessions are among the recent ones, each of them once. *)
Record deadline_ok (w : DeadlineWorld) : Prop := {
  do_serve : serve_ok config (dl_serve w);
  do_young : Forall (fun x => dl_now w - session_deadline config < x.1.2 <= dl_now w) (sv_live (dl_serve w));
  do_recent : (fun x => x.1.2) <$> sv_live (dl_serve w) ⊆+ dl_served w;
}.

Lemma deadline_start_ok now : deadline_ok (deadline_start now).
Proof. split; cbn; [apply serve_start_ok|constructor|done]. Qed.

Lemma live_split now (live : list (conn * Z)) :
  (length (filter (fun x => expired now x = true) live) + length (filter (fun x => expired now x = false) live))%nat =
  length live.
Proof.
  induction live as [|x live IH]; [done|]. rewrite !filter_cons.
  repeat case_decide; cbn; try lia; by destruct (expired now x).
Qed.

Lemma expire_ok now sv : serve_ok config sv -> serve_ok config (expire now sv).
Proof.
  intros (Hav & Hsum & Hdl). pose proof (live_split now (sv_live sv)). split_and!; cbn.
  - lia.
  - lia.
  - by apply Forall_filter.
Qed.

Lemma deadline_step_ok w ev : deadline_ok w -> deadline_ok (deadline_step w ev).
Proof.
  intros [Hok Hyoung Hrec]. pose proof Hok as (Hav & Hsum & Hdl).
  assert (0 < session_deadline config) as Hpos by (unfold session_deadline; lia).
  destruct ev as [stream|error|k|seconds].
  - pose proof (serve_step_ok config (dl_serve w) (Accepts (Ok (stream, dl_now w))) Hok) as Hok'.
    split; [exact Hok'|..]; cbn [deadline_step dl_serve dl_now dl_served]; cbn;
      destruct (0 <? sv_available (dl_serve w)); cbn; try done.
    + apply Forall_app. split; [done|]. constructor; [cbn; lia|constructor].
    + rewrite fmap_app. cbn. rewrite <- Permutation_cons_append. by apply submseteq_skip.
  - pose proof (serve_step_ok config (dl_serve w) (Accepts (Err error)) Hok). by split.
  - pose proof (serve_step_ok config (dl_serve w) (SessionEnds k) Hok) as Hok'.
    split; [exact Hok'|..]; cbn [deadline_step dl_serve dl_now dl_served]; cbn;
      destruct (sv_live (dl_serve w) !! k) as [x|] eqn:Hk; cbn; try done.
    + by apply Forall_delete.
    + etransitivity; [|exact Hrec]. apply fmap_submseteq, sublist_submseteq, sublist_delete.
  - split; cbn.
    + by apply expire_ok.
    + rewrite Forall_forall in Hyoung, Hdl |- *. intros x [Hex Hx]%list_elem_of_filter.
      specialize (Hyoung x Hx). specialize (Hdl x Hx). cbn in Hdl. unfold expired in Hex. lia.
    + etransitivity; [|exact Hrec]. apply fmap_submseteq, sublist_submseteq, sublist_filter.
Qed.

Lemma deadline_run_ok now evs : deadline_ok (foldl deadline_step (deadline_start now) evs).
Proof.
  generalize (deadline_start_ok now). generalize (deadline_start now).
  induction evs as [|ev evs IH]; intros w Hok; [done|]. apply IH. by apply deadline_step_ok.
Qed.

Lemma live_recent w : deadline_ok w -> (length (sv_live (dl_serve w)) <= length (recent w))%nat.
Proof.
  intros [_ Hyoung Hrec]. rewrite <- (length_fmap (fun x : conn * Z => x.1.2)). apply submseteq_length.
  unfold recent. eapply (submseteq_filter (fun t => dl_now w - session_deadline config < t)) in Hrec.
  rewrite filter_all in Hrec; [done|]. apply Forall_fmap. eapply Forall_impl; [exact Hyoung|]. cbn. lia.
Qed.
End Deadline.

(** C35: nobody keeps a slot.  For any sequence of connections, failed accepts, ends of
    sessions and seconds that pass: every live session was started less than
    [max_session_seconds] ago (one second at least), and the next client is turned away
    with 421 only if as many sessions as there are slots were started within that time.
    So once nobody connects for so long, whatever the clients that are connected do,
    every slot is free. *)
Theorem slots_are_freed_in_time {C} (config : Config) (now : Z) (evs : list (deadline_event (C := C))) :
  let w := foldl (deadline_step config) (deadline_start config now) evs in
  Forall (fun x => dl_now w - Z.max (smtp_max_session_seconds (cfg_smtp config)) 1 < x.1.2 <= dl_now w) (sv_live (dl_serve w)) /\
  (forall stream, sv_rejected (dl_serve (deadline_step config w (Connects stream))) <> sv_rejected (dl_serve w) ->
     permits config <= Z.of_nat (length (recent config w))) /\
  (recent config w = [] -> sv_live (dl_serve w) = [] /\ sv_available (dl_serve w) = permits config).
Proof.
  intros w. assert (deadline_ok config w) as Hok by apply deadline_run_ok.
  pose proof (live_recent config w Hok) as Hlen. pose proof Hok as [(Hav & Hsum & _) Hyoung _].
  split; [exact Hyoung|]. split.
  - intros stream Hrej. destruct (Z.ltb_spec 0 (sv_available (dl_serve w))) as [Hlt|]; [|lia].
    exfalso. apply Hrej. cbn. rewrite (proj2 (Z.ltb_lt _ _)) by done. done.
  - intros Hnone. rewrite Hnone in Hlen. cbn in Hlen.
    destruct (sv_live (dl_serve w)) as [|x live] eqn:Hl; [|cbn in Hlen; lia]. split; [done|]. cbn in Hsum. lia.
Qed.
