(* ===== verification/Client.v ===== *)
(** * The Matrix client ([src/src/matrix/client.rs])

    [connect] and [send_message] as programs over the calls they make of [matrix-sdk]
    and of the file system.  The SDK's [Client] and [Room] handles are opaque; each call
    is an effect whose answer the world chooses, an SDK error being what the code looks
    at of it: its text and its chain of sources.  Logging calls are left out. *)

From S2P Require Import Prelude RustStr Error Effects Store ConfigData Routing Formatter Worker.

(** [matrix_sdk::Error]: whether this error of the chain is
    [CryptoStoreError::MismatchedAccount], its text, its [source()]. *)
Inductive SdkError : Type := mkSdkError {
  is_crypto_mismatch : bool;
  sdk_to_string : str;
  sdk_source : option SdkError;
}.

(** [std::io::Error] of [remove_file]. *)
Inductive FsError : Type :=
| NotFound
| OtherIo (msg : str).

(** [EncryptionState]. *)
Inductive EncryptionState : Type :=
| Encrypted
| NotEncrypted
| Unknown.

#[export] Instance EncryptionState_eq_dec : EqDecision EncryptionState.
Proof. solve_decision. Defined.

Definition is_unknown (s : EncryptionState) : bool := match s with Unknown => true | _ => false end.
Definition is_encrypted (s : EncryptionState) : bool := match s with Encrypted => true | _ => false end.

Record MatrixSession (UserId : Type) : Type := mkMatrixSession {
  ms_user_id : UserId;
  ms_device_id : str;
  ms_access_token : str;
}.
Arguments mkMatrixSession {UserId} _ _ _.

(** [message_indicates_mismatch] and [is_mismatched_account]. *)
Definition message_indicates_mismatch (message : str) : bool :=
  contains (lit "doesn't match the account in the constructor") message.

Fixpoint chain_mismatch (error : SdkError) : bool :=
  if is_crypto_mismatch error then true
  else match sdk_source error with Some err => chain_mismatch err | None => false end.

Definition is_mismatched_account (error : SdkError) : bool :=
  if chain_mismatch error then true else message_indicates_mismatch (sdk_to_string error).

Definition verify_device_id (configured server : option str) : Result unit :=
  match configured, server with
  | Some want, Some got =>
      if bool_decide (want <> got)
      then Err (ChimneyError.Config (lit "configured matrix.credentials.device_id (" ++ want ++
             lit ") does not match the device the homeserver issued for this session (" ++ got ++
             lit "); fix device_id or clear the crypto store"))
      else Ok tt
  | _, _ => Ok tt
  end.

(** [Path::new(dir).join(name)] for a relative [name]. *)
Definition path_join (dir name : str) : str :=
  match dir with
  | [] => name
  | _ => if bool_decide (last dir = Some 47) then dir ++ name else dir ++ [47] ++ name
  end.

Definition CRYPTO_DB : str := lit "matrix-sdk-crypto.sqlite3".
Definition crypto_files (store_path : str) : list str :=
  (fun suffix => path_join store_path (CRYPTO_DB ++ suffix)) <$> [[]; lit "-wal"; lit "-shm"].

Section Client.
Context {Url UserId RoomId Client Room : Type}.

Inductive ClientE : Type -> Type :=
| CreateDirAll (path : str) : ClientE (result str unit)
| BuildClient (homeserver_url : Url) (store_path : str) : ClientE (result str Client)
| RestoreSession (client : Client) (session : MatrixSession UserId) : ClientE (result SdkError unit)
| LoginUsername (client : Client) (user password display_name : str) (device_id : option str)
    : ClientE (result SdkError unit)
| RemoveFile (path : str) : ClientE (result FsError unit)
| Whoami (client : Client) : ClientE (result str (option str))
| SyncOnce (client : Client) : ClientE (result str unit)
| CrossSigningStatus (client : Client) : ClientE (option bool)
| BootstrapCrossSigning (client : Client) : ClientE (result str unit)
| GetRoom (client : Client) (room_id : RoomId) : ClientE (option Room)
| JoinRoomById (client : Client) (room_id : RoomId) : ClientE (result str unit)
| GetEncryptionState (room : Room) : ClientE EncryptionState
| RequestEncryptionState (room : Room) : ClientE (result str unit)
| SendText (room : Room) (text transaction_id : str) : ClientE (result str unit).

Record MatrixClient : Type := mkMatrixClient {
  mc_client : Client;
  mc_router : Router RoomId;
  mc_user_id : UserId;
  mc_require_e2ee : bool;
  mc_message_template : str;
}.

(** [p.await.map_err(f)?]. *)
Definition call {A B} (f : str -> ChimneyError.t) (e : ClientE (result str A))
    (k : A -> prog ClientE (Result B)) : prog ClientE (Result B) :=
  r ← trigger e; match r with Ok a => k a | Err error => Ret (Err (f error)) end.

(** A pure [..?] inside an effectful function. *)
Definition pure_ok {A B} (r : Result A) (k : A -> prog ClientE (Result B)) : prog ClientE (Result B) :=
  match r with Ok a => k a | Err e => Ret (Err e) end.

Definition build_client {B} (url : Url) (store_path : str) (k : Client -> prog ClientE (Result B))
  : prog ClientE (Result B) :=
  call (fun error => ChimneyError.Matrix (lit "Matrix client build failed: " ++ error)) (BuildClient url store_path) k.

(** The loop of [reset_crypto_store] over the file names. *)
Fixpoint remove_files {B} (paths : list str) (k : prog ClientE (Result B)) : prog ClientE (Result B) :=
  match paths with
  | [] => k
  | path :: paths' =>
      r ← trigger (RemoveFile path);
      match r with
      | Ok _ | Err NotFound => remove_files paths' k
      | Err (OtherIo error) =>
          Ret (Err (ChimneyError.Matrix (lit "failed to clear crypto store file " ++ path ++ lit ": " ++ error)))
      end
  end.
Definition reset_crypto_store {B} (store_path : str) (k : prog ClientE (Result B)) : prog ClientE (Result B) :=
  remove_files (crypto_files store_path) k.

Variable parse_url : str -> result str Url.
Variable parse_user_id : str -> result str UserId.
Variable parse_owned_room_id : str -> result str RoomId.

(** An authentication call, and the one retry after the crypto store is cleared when
    it failed because the store belongs to another device. *)
Definition authenticate (url : Url) (store_path : str) (auth : Client -> ClientE (result SdkError unit))
    (failed failed_after_reset : string) (client : Client) (k : Client -> prog ClientE (Result MatrixClient))
  : prog ClientE (Result MatrixClient) :=
  r ← trigger (auth client);
  match r with
  | Ok _ => k client
  | Err error =>
      if is_mismatched_account error then
        reset_crypto_store store_path
          (build_client url store_path (fun client =>
             r ← trigger (auth client);
             match r with
             | Ok _ => k client
             | Err error => Ret (Err (ChimneyError.Matrix (lit failed_after_reset ++ sdk_to_string error)))
             end))
      else Ret (Err (ChimneyError.Matrix (lit failed ++ sdk_to_string error)))
  end.

(** What follows the authentication in [connect]. *)
Definition finish_connect (config : Config) (user_id : UserId) (router : Router RoomId) (client : Client)
  : prog ClientE (Result MatrixClient) :=
  let matrix := cfg_matrix config in
  call (fun error => ChimneyError.Matrix (lit "Matrix whoami failed: " ++ error)) (Whoami client) (fun server_device_id =>
  pure_ok (verify_device_id (cred_device_id (mx_credentials matrix)) server_device_id) (fun _ =>
  call (fun error => ChimneyError.Matrix (lit "Matrix initial sync failed: " ++ error)) (SyncOnce client) (fun _ =>
  status ← trigger (CrossSigningStatus client);
  let needs_bootstrap := match status with Some is_complete => negb is_complete | None => true end in
  let connected := mkMatrixClient client router user_id (mx_require_e2ee matrix) (mx_message_template matrix) in
  if needs_bootstrap then _ ← trigger (BootstrapCrossSigning client); Ret (Ok connected)
  else Ret (Ok connected)))).

Definition connect (config : Config) : prog ClientE (Result MatrixClient) :=
  let matrix := cfg_matrix config in
  let credentials := mx_credentials matrix in
  pure_ok (map_err (fun error => ChimneyError.Config (lit "invalid matrix.homeserver URL: " ++ error))
             (parse_url (mx_homeserver matrix))) (fun homeserver_url =>
  call (fun error => ChimneyError.Matrix (lit "failed to create store directory " ++ mx_store_path matrix ++ lit ": " ++ error))
    (CreateDirAll (mx_store_path matrix)) (fun _ =>
  build_client homeserver_url (mx_store_path matrix) (fun client =>
  pure_ok (map_err (fun error => ChimneyError.Config (lit "invalid matrix.user_id: " ++ error))
             (parse_user_id (mx_user_id matrix))) (fun user_id =>
  pure_ok (from_config parse_owned_room_id matrix) (fun router =>
  match cred_access_token credentials with
  | Some access_token =>
      pure_ok (ok_or (cred_device_id credentials)
                 (ChimneyError.Config (lit "matrix.credentials.device_id is required when using access_token"))) (fun device_id =>
      authenticate homeserver_url (mx_store_path matrix)
        (fun client => RestoreSession client (mkMatrixSession user_id device_id access_token))
        "Matrix access token login failed: " "Matrix access token login failed after store reset: "
        client (finish_connect config user_id router))
  | None =>
      match cred_password credentials with
      | Some password =>
          authenticate homeserver_url (mx_store_path matrix)
            (fun client => LoginUsername client (mx_user_id matrix) password (mx_device_name matrix) (cred_device_id credentials))
            "Matrix login failed: " "Matrix login failed after store reset: "
            client (finish_connect config user_id router)
      | None => Ret (Err (ChimneyError.Config (lit "matrix credentials require password or access_token")))
      end
  end))))).

Context {Env Template : Type} `{Minijinja Env Template}.

(** The part of [send_message] that follows once the room is known. *)
Definition send_to_room (self : MatrixClient) (room : Room) (formatted transaction_id : str)
  : prog ClientE (Result unit) :=
  encryption_state ← trigger (GetEncryptionState room);
  let send := call (fun error => ChimneyError.Matrix (lit "Matrix send failed: " ++ error))
                (SendText room formatted transaction_id) (fun _ => Ret (Ok tt)) in
  let guarded (s : EncryptionState) :=
    if negb (is_encrypted s) && mc_require_e2ee self
    then Ret (Err (ChimneyError.Matrix
           (lit "room is not encrypted and matrix.require_e2ee is enabled; refusing to send unencrypted message")))
    else send in
  if is_unknown encryption_state then
    call (fun error => ChimneyError.Matrix (lit "failed to query room encryption state: " ++ error))
      (RequestEncryptionState room) (fun _ => s ← trigger (GetEncryptionState room); guarded s)
  else guarded encryption_state.

Definition send_message (self : MatrixClient) (message : Message) (idempotency_key : str) : prog ClientE (Result unit) :=
  pure_ok (format_message message (mc_message_template self)) (fun formatted =>
  let room_id := resolve (mc_router self) message in
  known ← trigger (GetRoom (mc_client self) room_id);
  match known with
  | Some room => send_to_room self room formatted idempotency_key
  | None =>
      call (fun error => ChimneyError.Matrix (lit "failed to join Matrix room: " ++ error))
        (JoinRoomById (mc_client self) room_id) (fun _ =>
      joined ← trigger (GetRoom (mc_client self) room_id);
      pure_ok (ok_or joined (ChimneyError.Matrix (lit "Matrix room not found"))) (fun room =>
      send_to_room self room formatted idempotency_key))
  end).

(** [impl MessageSink for MatrixClient]. *)
#[export] Instance MatrixClient_sink : MessageSink MatrixClient ClientE := send_message.
End Client.
Arguments ClientE Url UserId RoomId Client Room : clear implicits.
Arguments MatrixClient UserId RoomId Client : clear implicits.
