(* ===== verification/ClientProps.v ===== *)
(** * Properties of the Matrix client

    Each is about every run in every world: monitors over the calls of the SDK, whose
    answers are arbitrary. *)

From S2P Require Import Prelude RustStr Error Effects Store ConfigData Routing Formatter Worker Config.
From S2P Require Import ConfigProps Client.

Section SendMonitor.
Context {Url UserId RoomId Client Room : Type} `{EqDecision RoomId, EqDecision Room}.
Abbreviation E := (ClientE Url UserId RoomId Client Room).

(** What is known while a message is sent: the room the SDK gave for the resolved room
    id, the room last reported encrypted, whether a text was handed over, and whether it
    was accepted. *)
Record send_monitor : Type := mkSendMonitor {
  sm_room : option Room;
  sm_encrypted : option Room;
  sm_handed : bool;
  sm_sent : bool;
}.

Definition send_monitor_step (require_e2ee : bool) (room_id : RoomId) (text key : str)
    (mon : send_monitor) (X : Type) (e : E X) : X -> option send_monitor :=
  match e in ClientE _ _ _ _ _ X return X -> option send_monitor with
  | GetRoom _ rid => fun x =>
      if bool_decide (rid = room_id) then Some (mkSendMonitor x (sm_encrypted mon) (sm_handed mon) (sm_sent mon)) else None
  | JoinRoomById _ rid => fun _ => if bool_decide (rid = room_id) then Some mon else None
  | GetEncryptionState room => fun x =>
      Some (mkSendMonitor (sm_room mon) (if is_encrypted x then Some room else None) (sm_handed mon) (sm_sent mon))
  | RequestEncryptionState _ => fun _ => Some mon
  | SendText room t k => fun x =>
      if negb (sm_handed mon) && bool_decide (sm_room mon = Some room) && bool_decide (t = text) && bool_decide (k = key)
         && (negb require_e2ee || bool_decide (sm_encrypted mon = Some room))
      then Some (mkSendMonitor (sm_room mon) (sm_encrypted mon) true (match x with Ok _ => true | Err _ => false end))
      else None
  | _ => fun _ => None
  end.

Definition sent_iff_ok (mon : send_monitor) (r : Result unit) : Prop := r = Ok tt <-> sm_sent mon = true.

Context {Env Template : Type} `{Minijinja Env Template}.

Lemma send_to_room_conforms (self : MatrixClient UserId RoomId Client) room_id room text key enc :
  conforms any_answer (send_monitor_step (mc_require_e2ee self) room_id text key) sent_iff_ok
    (mkSendMonitor (Some room) enc false false) (send_to_room (Url := Url) self room text key).
Proof.
  assert (forall s, conforms any_answer (send_monitor_step (mc_require_e2ee self) room_id text key) sent_iff_ok
    (mkSendMonitor (Some room) (if is_encrypted s then Some room else None) false false)
    (if negb (is_encrypted s) && mc_require_e2ee self
     then Ret (Err (ChimneyError.Matrix
           (lit "room is not encrypted and matrix.require_e2ee is enabled; refusing to send unencrypted message")))
     else call (Url := Url) (UserId := UserId) (RoomId := RoomId) (Client := Client)
            (fun error => ChimneyError.Matrix (lit "Matrix send failed: " ++ error))
                (SendText room text key) (fun _ => Ret (Ok tt)))) as Hguard.
  { intros s. destruct (negb (is_encrypted s) && mc_require_e2ee self) eqn:E; [done|].
    intros x _. cbn. rewrite !bool_decide_eq_true_2 by done. cbn.
    assert (negb (mc_require_e2ee self) || bool_decide ((if is_encrypted s then Some room else None) = Some room) = true) as ->.
    { destruct (is_encrypted s); [by rewrite bool_decide_eq_true_2, orb_true_r|]. cbn in E. by rewrite E. }
    by destruct x as [[]|]. }
  intros s _. cbn -[call]. destruct (is_unknown s); [|apply Hguard].
  intros x _. cbn. destruct x as [u|]; [|done]. intros s' _. cbn. apply Hguard.
Qed.

Lemma send_message_conforms (self : MatrixClient UserId RoomId Client) m key text :
  format_message m (mc_message_template self) = Ok text ->
  conforms any_answer (send_monitor_step (mc_require_e2ee self) (resolve (mc_router self) m) text key) sent_iff_ok
    (mkSendMonitor None None false false) (send_message (Url := Url) self m key).
Proof.
  intros Ht. unfold send_message. rewrite Ht. cbn [pure_ok].
  assert (forall mon x, send_monitor_step (mc_require_e2ee self) (resolve (mc_router self) m) text key mon _
    (GetRoom (Url := Url) (UserId := UserId) (mc_client self) (resolve (mc_router self) m)) x
    = Some (mkSendMonitor x (sm_encrypted mon) (sm_handed mon) (sm_sent mon))) as Hget.
  { intros mon x. cbn [send_monitor_step]. by rewrite bool_decide_eq_true_2. }
  intros known _. rewrite Hget. cbn [sm_encrypted sm_handed sm_sent].
  destruct known as [room|]; [exact (send_to_room_conforms self _ room text key None)|].
  intros x _. cbn [send_monitor_step]. rewrite bool_decide_eq_true_2 by done.
  destruct x as [u|]; [|done]. intros joined _. rewrite Hget. cbn [sm_encrypted sm_handed sm_sent].
  destruct joined as [room|]; [exact (send_to_room_conforms self _ room text key None)|done].
Qed.

(** C23: no message leaves in the clear, and none is reported delivered that was not
    accepted.  Whatever the SDK answers, one call of [send_message] hands at most one
    text to the SDK: the formatted message, to the room its routing rule names, under
    the idempotency key; with [require_e2ee] only when the last report on that very
    room was that it is encrypted; and it answers [Ok] exactly when the homeserver
    accepted that text. *)
Theorem send_message_is_guarded {S} (h : handler E S) (self : MatrixClient UserId RoomId Client) (m : Message)
    (key text : str) (s : S) (Ht : format_message m (mc_message_template self) = Ok text) :
  let p := send_message (Url := Url) self m key in
  exists mon, accepts (send_monitor_step (mc_require_e2ee self) (resolve (mc_router self) m) text key)
                (mkSendMonitor None None false false) (trace h observe p s) = Some mon /\
    ((run h p s).2 = Ok tt <-> sm_sent mon = true).
Proof.
  cbv zeta. eapply (conforms_trace any_answer _ h sent_iff_ok); [done|]. by apply send_message_conforms.
Qed.
End SendMonitor.

(** A homeserver that knows every room, for the witness: it keeps the texts it accepts. *)
Definition toy_sdk (room_encrypted : bool) : handler (ClientE str str str unit str) (list str) := fun X e s =>
  match e in ClientE _ _ _ _ _ X return list str * X with
  | CreateDirAll _ => (s, Ok tt)
  | BuildClient _ _ => (s, Ok tt)
  | RestoreSession _ _ => (s, Ok tt)
  | LoginUsername _ _ _ _ _ => (s, Ok tt)
  | RemoveFile _ => (s, Ok tt)
  | Whoami _ => (s, Ok None)
  | SyncOnce _ => (s, Ok tt)
  | CrossSigningStatus _ => (s, Some true)
  | BootstrapCrossSigning _ => (s, Ok tt)
  | GetRoom _ room_id => (s, Some room_id)
  | JoinRoomById _ _ => (s, Ok tt)
  | GetEncryptionState _ => (s, if room_encrypted then Encrypted else NotEncrypted)
  | RequestEncryptionState _ => (s, Ok tt)
  | SendText _ text _ => (text :: s, Ok tt)
  end.
Definition toy_client : MatrixClient str str unit := mkMatrixClient tt toy_router (lit "@bot:x") true (lit "t").

Lemma send_message_is_guarded_witness :
  format_message alert_message (lit "t") = Ok (lit ": ") /\
  run (toy_sdk false) (send_message toy_client alert_message (lit "chimney-post-7")) [] =
    ([], Err (ChimneyError.Matrix (lit "room is not encrypted and matrix.require_e2ee is enabled; refusing to send unencrypted message"))) /\
  let p := send_message toy_client alert_message (lit "chimney-post-7") in
  exists mon, accepts (send_monitor_step (Url := str) (UserId := str) (Client := unit) true (lit "!alerts:x") (lit ": ") (lit "chimney-post-7"))
                (mkSendMonitor None None false false) (trace (toy_sdk true) observe p []) = Some mon /\
    ((run (toy_sdk true) p []).2 = Ok tt <-> sm_sent mon = true).
Proof.
  split; [reflexivity|]. split; [vm_compute; reflexivity|].
  exact (send_message_is_guarded (toy_sdk true) toy_client alert_message (lit "chimney-post-7") (lit ": ") [] eq_refl).
Defined.

Section ConnectMonitor.
Context {Url UserId RoomId Client Room : Type}.
Abbreviation E := (ClientE Url UserId RoomId Client Room).
Variable parse_url : str -> result str Url.
Variable parse_user_id : str -> result str UserId.
Variable parse_owned_room_id : str -> result str RoomId.

(** What is known while connecting: whether the last authentication failed because the
    crypto store is another device's, whether it succeeded, whether the device the
    homeserver reported agrees with the pinned one, whether the keys were synced, and
    how many authentications were tried. *)
Record connect_monitor : Type := mkConnectMonitor {
  cm_mismatch : bool;
  cm_authenticated : bool;
  cm_verified : bool;
  cm_synced : bool;
  cm_attempts : nat;
}.

Definition devices_agree (configured server : option str) : bool :=
  match configured, server with Some a, Some b => bool_decide (a = b) | _, _ => true end.

Definition auth_attempt (mon : connect_monitor) (r : result SdkError unit) : option connect_monitor :=
  if (cm_attempts mon =? 0)%nat || ((cm_attempts mon =? 1)%nat && cm_mismatch mon) then
    Some (match r with
          | Ok _ => mkConnectMonitor false true false false (S (cm_attempts mon))
          | Err e => mkConnectMonitor (is_mismatched_account e) false false false (S (cm_attempts mon))
          end)
  else None.

Definition connect_monitor_step (config : Config) (mon : connect_monitor) (X : Type) (e : E X)
  : X -> option connect_monitor :=
  match e in ClientE _ _ _ _ _ X return X -> option connect_monitor with
  | CreateDirAll path => fun _ => if bool_decide (path = mx_store_path (cfg_matrix config)) then Some mon else None
  | BuildClient _ path => fun _ => if bool_decide (path = mx_store_path (cfg_matrix config)) then Some mon else None
  | RestoreSession _ _ => auth_attempt mon
  | LoginUsername _ _ _ _ _ => auth_attempt mon
  | RemoveFile path => fun _ =>
      if cm_mismatch mon && bool_decide (path ∈ crypto_files (mx_store_path (cfg_matrix config)))
      then Some mon else None
  | Whoami _ => fun x =>
      if cm_authenticated mon then
        Some (mkConnectMonitor false true
                (match x with Ok d => devices_agree (cred_device_id (mx_credentials (cfg_matrix config))) d | Err _ => false end)
                false (cm_attempts mon))
      else None
  | SyncOnce _ => fun x =>
      if cm_verified mon then
        Some (mkConnectMonitor false true true (match x with Ok _ => true | Err _ => false end) (cm_attempts mon))
      else None
  | CrossSigningStatus _ => fun _ => if cm_synced mon then Some mon else None
  | BootstrapCrossSigning _ => fun _ => if cm_synced mon then Some mon else None
  | _ => fun _ => None
  end.

Definition connected_ok (config : Config) (mon : connect_monitor) (r : Result (MatrixClient UserId RoomId Client)) : Prop :=
  forall c, r = Ok c ->
    cm_authenticated mon = true /\ cm_verified mon = true /\ cm_synced mon = true /\
    mc_require_e2ee c = mx_require_e2ee (cfg_matrix config) /\
    from_config parse_owned_room_id (cfg_matrix config) = Ok (mc_router c).

Abbreviation step := connect_monitor_step.

Lemma finish_connect_conforms config user_id router client mon :
  cm_authenticated mon = true -> from_config parse_owned_room_id (cfg_matrix config) = Ok router ->
  conforms any_answer (step config) (connected_ok config) mon
    (finish_connect (Url := Url) (Room := Room) config user_id router client).
Proof.
  intros Ha Hr x _. cbn. rewrite Ha. destruct x as [d|e]; [|by intros ?].
  unfold verify_device_id, devices_agree. set (configured := cred_device_id _).
  assert (forall v, v = true -> conforms any_answer (step config) (connected_ok config)
    (mkConnectMonitor false true v false (cm_attempts mon))
    (call (Url := Url) (Room := Room) (UserId := UserId) (RoomId := RoomId)
       (fun error => ChimneyError.Matrix (lit "Matrix initial sync failed: " ++ error)) (SyncOnce client) (fun _ =>
     status ← trigger (CrossSigningStatus client);
     let needs_bootstrap := match status with Some is_complete => negb is_complete | None => true end in
     let connected := mkMatrixClient client router user_id (mx_require_e2ee (cfg_matrix config)) (mx_message_template (cfg_matrix config)) in
     if needs_bootstrap then _ ← trigger (BootstrapCrossSigning client); Ret (Ok connected)
     else Ret (Ok connected)))) as Hrest.
  { intros v -> x _. cbn. destruct x as [u|e]; [|by intros ?]. intros status _. cbn.
    match goal with |- context [Ret (Ok ?c)] =>
      assert (connected_ok config (mkConnectMonitor false true true true (cm_attempts mon)) (Ok c)) as Hfin end.
    { intros c [= <-]. by split_and!. }
    destruct status as [[]|]; [exact Hfin|intros y _; exact Hfin..]. }
  destruct configured as [a|], d as [b|]; try (apply Hrest; reflexivity).
  destruct (bool_decide_reflect (a = b)) as [->|Hne].
  - rewrite (bool_decide_eq_false_2 (b <> b)) by auto. by apply Hrest.
  - rewrite bool_decide_eq_true_2 by done. by intros ?.
Qed.

Lemma remove_files_conforms config mon paths (k : prog E (Result (MatrixClient UserId RoomId Client))) :
  cm_mismatch mon = true -> Forall (fun p => p ∈ crypto_files (mx_store_path (cfg_matrix config))) paths ->
  conforms any_answer (step config) (connected_ok config) mon k ->
  conforms any_answer (step config) (connected_ok config) mon (remove_files paths k).
Proof.
  intros Hm Hp Hk. induction Hp as [|p paths Hp _ IH]; [done|].
  intros x _. cbn [step connect_monitor_step]. rewrite Hm, bool_decide_eq_true_2 by done. cbn [andb].
  destruct x as [u|[|msg]]; [exact IH|exact IH|]. by intros ?.
Qed.

Lemma authenticate_conforms config url auth f1 f2 client k :
  (forall c mon x, step config mon _ (auth c) x = auth_attempt mon x) ->
  (forall c n, conforms any_answer (step config) (connected_ok config) (mkConnectMonitor false true false false n) (k c)) ->
  conforms any_answer (step config) (connected_ok config) (mkConnectMonitor false false false false 0)
    (authenticate (Room := Room) url (mx_store_path (cfg_matrix config)) auth f1 f2 client k).
Proof.
  intros Hauth Hk x _. rewrite Hauth. cbn [auth_attempt cm_attempts Nat.eqb orb].
  destruct x as [u|e]; [apply Hk|]. cbn [prog_bind mbind prog_mbind].
  destruct (is_mismatched_account e) eqn:Hmis; [|by intros ?].
  apply remove_files_conforms; [done| |].
  { apply Forall_forall. auto. }
  intros y _. cbn [step connect_monitor_step]. rewrite bool_decide_eq_true_2 by done.
  destruct y as [c|]; [|by intros ?]. intros z _. rewrite Hauth. cbn.
  destruct z as [u|e']; [apply Hk|by intros ?].
Qed.

Lemma connect_conforms config :
  conforms any_answer (step config) (connected_ok config) (mkConnectMonitor false false false false 0)
    (connect (Room := Room) (Client := Client) parse_url parse_user_id parse_owned_room_id config).
Proof.
  unfold connect. destruct (parse_url _) as [url|]; cbn [map_err pure_ok]; [|by intros ?].
  intros x _. cbn [step connect_monitor_step]. rewrite bool_decide_eq_true_2 by done.
  destruct x as [u|]; [|by intros ?].
  intros y _. cbn [step connect_monitor_step]. rewrite bool_decide_eq_true_2 by done.
  destruct y as [client|]; [|by intros ?]. cbn [prog_bind mbind prog_mbind].
  destruct (parse_user_id _) as [user_id|]; cbn [map_err pure_ok]; [|by intros ?].
  destruct (from_config _ _) as [router|] eqn:Hrouter; cbn [pure_ok]; [|by intros ?].
  destruct (cred_access_token _) as [token|].
  - destruct (cred_device_id (mx_credentials (cfg_matrix config))) as [device|]; cbn [ok_or pure_ok]; [|by intros ?].
    apply authenticate_conforms; [done|]. intros c n. by apply finish_connect_conforms.
  - destruct (cred_password _) as [password|]; [|by intros ?].
    apply authenticate_conforms; [done|]. intros c n. by apply finish_connect_conforms.
Qed.

(** C24: connecting never destroys keys it should not and never serves the wrong
    device.  Whatever the SDK answers, files are only removed right after an
    authentication failed with a crypto-store account mismatch, and only the crypto
    database and its two sidecars under the configured store path; there is at most
    one retry; and a client is only returned after the authentication succeeded, the
    homeserver's device agreed with the pinned one, and the keys were synced. *)
Theorem connect_is_guarded {S} (h : handler E S) (config : Config) (s : S) :
  let p := connect (Room := Room) (Client := Client) parse_url parse_user_id parse_owned_room_id config in
  exists mon, accepts (connect_monitor_step config) (mkConnectMonitor false false false false 0)
                (trace h observe p s) = Some mon /\
    forall c, (run h p s).2 = Ok c ->
      cm_authenticated mon = true /\ cm_verified mon = true /\ cm_synced mon = true /\
      mc_require_e2ee c = mx_require_e2ee (cfg_matrix config) /\
      from_config parse_owned_room_id (cfg_matrix config) = Ok (mc_router c).
Proof.
  cbv zeta. apply (conforms_trace any_answer _ h (connected_ok config)); [done|]. apply connect_conforms.
Qed.
End ConnectMonitor.
