(* ===== verification/Main.v ===== *)
(** * The process ([src/src/main.rs])

    [main] and [run_monitor] as programs over their effects: the operating system, the
    systemd notifications, the tasks they spawn and join.  What the tasks run is in
    [Session], [Worker] and [System]. *)

From S2P Require Import Prelude RustStr Error Effects ConfigData.

Definition SHUTDOWN_DRAIN_SECONDS : Z := 30.
Definition RECONNECT_BACKOFF_SECONDS : Z := 10.
Definition MONITOR_INTERVAL_SECONDS : Z := 60.

Inductive NotifyState : Type :=
| NotifyReady
| NotifyStopping
| NotifyWatchdog
| NotifyStatus (status : str).

#[export] Instance NotifyState_eq_dec : EqDecision NotifyState.
Proof. solve_decision. Defined.

(** The arms of the [tokio::select!] of [main]; a join error has its text. *)
Inductive main_event : Type :=
| SmtpEnded (result : result str (Result unit))
| WorkerEnded (result : result str unit)
| CtrlC
| Sigterm.

(** The value of [timeout(.., worker_handle)]. *)
Inductive drain_end : Type :=
| Drained (result : result str unit)
| DrainTimedOut.

Inductive MainE : Type -> Type :=
| LoadDefault : MainE (Result Config)
| TryFilter (level : str) : MainE (result str unit)
| InitSubscriber (json : bool) : MainE unit
| OpenStore (path : str) (max_len : Z) : MainE (Result unit)
| BindSmtp (config : Config) : MainE (Result unit)
| Notify (states : list NotifyState) : MainE unit
| SpawnSmtp (config : Config) : MainE unit
| SpawnWorker (max_retries retry_backoff reconnect_backoff : Z) : MainE unit
| SpawnMonitor (interval : Z) : MainE unit
| UnixSignal : MainE (result str unit)
| Select : MainE main_event
| AbortSmtp : MainE unit
| SendShutdown : MainE unit
| AwaitWorker (seconds : Z) : MainE drain_end
| AbortMonitor : MainE unit.

Definition init_tracing (config : Config) : prog MainE (Result unit) :=
  r ← trigger (TryFilter (log_level (cfg_logging config)));
  match r with
  | Err error => Ret (Err (ChimneyError.Config (lit "invalid log level: " ++ error)))
  | Ok _ =>
      _ ← trigger (InitSubscriber (bool_decide (log_format (cfg_logging config) = lit "json")));
      Ret (Ok tt)
  end.

(** What [main] answers when a task that should not end does. *)
Definition unexpected_end (event : main_event) : option ChimneyError.t :=
  match event with
  | SmtpEnded (Err join_error) => Some (ChimneyError.Smtp (lit "SMTP task panicked: " ++ join_error))
  | SmtpEnded (Ok (Err smtp_error)) => Some smtp_error
  | SmtpEnded (Ok (Ok _)) => Some (ChimneyError.Smtp (lit "SMTP server exited unexpectedly"))
  | WorkerEnded (Err join_error) => Some (ChimneyError.Matrix (lit "delivery worker panicked: " ++ join_error))
  | WorkerEnded (Ok _) => Some (ChimneyError.Matrix (lit "delivery worker exited unexpectedly"))
  | CtrlC | Sigterm => None
  end.

Definition shutdown : prog MainE (Result unit) :=
  _ ← trigger (Notify [NotifyStopping]);
  _ ← trigger AbortSmtp;
  _ ← trigger SendShutdown;
  _ ← trigger (AwaitWorker SHUTDOWN_DRAIN_SECONDS);
  _ ← trigger AbortMonitor;
  Ret (Ok tt).

#[local] Open Scope chimney_scope.

Definition main : prog MainE (Result unit) :=
  config <-? trigger LoadDefault;;
  _tracing <-? init_tracing config;;
  let queue := cfg_queue config in
  _store <-? trigger (OpenStore (q_db_path queue) (q_max_len queue));;
  _listener <-? trigger (BindSmtp config);;
  (_ ← trigger (Notify [NotifyReady; NotifyStatus (lit "accepting mail; connecting to Matrix")]);
   _ ← trigger (SpawnSmtp config);
   _ ← trigger (SpawnWorker (q_max_retries queue) (q_retry_backoff queue) RECONNECT_BACKOFF_SECONDS);
   _ ← trigger (SpawnMonitor MONITOR_INTERVAL_SECONDS);
   sigterm ← trigger UnixSignal;
   match sigterm with
   | Err error => Ret (Err (ChimneyError.Io error))
   | Ok _ =>
       event ← trigger Select;
       match unexpected_end event with
       | Some error => Ret (Err error)
       | None => shutdown
       end
   end).

(** ** The monitor *)

Inductive MonitorE : Type -> Type :=
| MonNotify (state : NotifyState) : MonitorE unit
| Len : MonitorE (Result Z)
| DeadLetterLen : MonitorE (Result Z)
| LoadConnected : MonitorE bool
| WarnDeadLetter (dead_letter : Z) : MonitorE unit
| WarnQueuing (queued : Z) : MonitorE unit
| SleepOrShutdown (interval : Z) : MonitorE bool.   (** [true]: the shutdown flag changed *)

Definition status_line (is_connected : bool) (queued dead_letter : Z) : str :=
  (if is_connected then lit "connected" else lit "connecting to Matrix") ++
  lit "; queued=" ++ show_int queued ++ lit " dead_letter=" ++ show_int dead_letter.

(** One round of [run_monitor]: the new [last_dead_letter], or [None] to return. *)
Definition monitor_round (interval last_dead_letter : Z) : prog MonitorE (option Z) :=
  _ ← trigger (MonNotify NotifyWatchdog);
  queued ← trigger Len;
  let queued := unwrap_or queued 0 in
  dead ← trigger DeadLetterLen;
  let dead_letter := unwrap_or dead 0 in
  is_connected ← trigger LoadConnected;
  _ ← trigger (MonNotify (NotifyStatus (status_line is_connected queued dead_letter)));
  _ ← (if last_dead_letter <? dead_letter then trigger (WarnDeadLetter dead_letter) else Ret tt);
  _ ← (if negb is_connected && (0 <? queued) then trigger (WarnQueuing queued) else Ret tt);
  changed ← trigger (SleepOrShutdown interval);
  Ret (if changed : bool then None else Some dead_letter).

Fixpoint run_monitor (fuel : nat) (interval last_dead_letter : Z) : prog MonitorE (option unit) :=
  match fuel with
  | O => Ret None
  | S fuel' =>
      r ← monitor_round interval last_dead_letter;
      match r with
      | Some last' => run_monitor fuel' interval last'
      | None => Ret (Some tt)
      end
  end.

(** ** Properties *)

(** What is known of the life of the process. *)
Record life : Type := mkLife {
  lf_store : bool;
  lf_bound : bool;
  lf_ready : bool;
  lf_serving : bool;
  lf_signalled : bool;
  lf_aborted : bool;
  lf_draining : bool;
  lf_drained : bool;
}.

Definition is_Ok_b {E A} (r : result E A) : bool := match r with Ok _ => true | Err _ => false end.

Definition life_step (l : life) (X : Type) (e : MainE X) : X -> option life :=
  match e in MainE X return X -> option life with
  | OpenStore _ _ => fun x =>
      Some (mkLife (is_Ok_b x) (lf_bound l) (lf_ready l) (lf_serving l) (lf_signalled l) (lf_aborted l) (lf_draining l) (lf_drained l))
  | BindSmtp _ => fun x =>
      if lf_store l
      then Some (mkLife (lf_store l) (is_Ok_b x) (lf_ready l) (lf_serving l) (lf_signalled l) (lf_aborted l) (lf_draining l) (lf_drained l))
      else None
  | Notify states => fun _ =>
      if bool_decide (NotifyReady ∈ states) then
        if lf_store l && lf_bound l
        then Some (mkLife (lf_store l) (lf_bound l) true (lf_serving l) (lf_signalled l) (lf_aborted l) (lf_draining l) (lf_drained l))
        else None
      else if bool_decide (NotifyStopping ∈ states) then if lf_signalled l then Some l else None
      else Some l
  | SpawnSmtp _ => fun _ =>
      if lf_store l && lf_bound l
      then Some (mkLife (lf_store l) (lf_bound l) (lf_ready l) true (lf_signalled l) (lf_aborted l) (lf_draining l) (lf_drained l))
      else None
  | SpawnWorker _ _ _ => fun _ => if lf_store l then Some l else None
  | SpawnMonitor _ => fun _ => if lf_store l then Some l else None
  | Select => fun x =>
      Some (mkLife (lf_store l) (lf_bound l) (lf_ready l) (lf_serving l)
              (match x with CtrlC | Sigterm => true | _ => false end) (lf_aborted l) (lf_draining l) (lf_drained l))
  | AbortSmtp => fun _ =>
      if lf_signalled l
      then Some (mkLife (lf_store l) (lf_bound l) (lf_ready l) false (lf_signalled l) true (lf_draining l) (lf_drained l))
      else None
  | SendShutdown => fun _ =>
      if lf_aborted l
      then Some (mkLife (lf_store l) (lf_bound l) (lf_ready l) (lf_serving l) (lf_signalled l) (lf_aborted l) true (lf_drained l))
      else None
  | AwaitWorker _ => fun _ =>
      if lf_draining l
      then Some (mkLife (lf_store l) (lf_bound l) (lf_ready l) (lf_serving l) (lf_signalled l) (lf_aborted l) (lf_draining l) true)
      else None
  | _ => fun _ => Some l
  end.

Definition born : life := mkLife false false false false false false false false.

(** How a life ends: [main] answers [Ok] exactly when it was told to stop, and then the
    accept loop was aborted before the drain and the worker was awaited; it never
    answers an error after a signal. *)
Definition died (l : life) (r : Result unit) : Prop :=
  (r = Ok tt <-> lf_signalled l = true) /\
  (r = Ok tt -> lf_ready l = true /\ lf_serving l = false /\ lf_drained l = true).

Lemma life_failed l e : lf_signalled l = false -> died l (Err e).
Proof. intros H. split; [|done]. split; [done|]. by rewrite H. Qed.

Lemma main_conforms : conforms any_answer life_step died born main.
Proof.
  intros [config|e] _; [|by apply life_failed].
  intros [u|e] _; [|by apply life_failed].
  intros [] _. cbn. intros [u0|e] _; cbn; [|by apply life_failed].
  intros [u1|e] _; cbn; [|by apply life_failed].
  intros [] _. cbn. intros [] _. cbn. intros [] _. cbn. intros [] _. cbn.
  intros [u2|e] _; cbn; [|by apply life_failed].
  intros event _. cbn.
  destruct event as [[[]|]|[]| |]; cbn; try (by apply life_failed).
  all: do 4 (intros ? _; cbn); intros [] _; cbn; split; [done|]; by intros _.
Qed.

(** the life of the process, whatever the environment answers.  The service
    reports itself ready and starts to serve only with the outbox open and the listener
    bound; it announces stopping, aborts the accept loop, tells the worker to drain and
    awaits it, in that order and only after a signal; and it exits with [Ok] exactly
    then, with an error when a task that should run for ever has ended. *)
Theorem process_lifecycle {S} (h : handler MainE S) (s : S) :
  exists l, accepts life_step born (trace h observe main s) = Some l /\ died l (run h main s).2.
Proof. apply (conforms_trace any_answer life_step h died); [done|apply main_conforms]. Qed.

(** The counts the monitor reads, and what it warns of. *)
Definition mon_obs : forall X, MonitorE X -> X -> list (Z + Z) := fun X e =>
  match e in MonitorE X return X -> list (Z + Z) with
  | DeadLetterLen => fun x => [inl (unwrap_or x 0)]
  | WarnDeadLetter n => fun _ => [inr n]
  | _ => fun _ => []
  end.

(** Readings of the dead-letter count, each followed by a warning when it exceeds the
    one before. *)
Fixpoint growth_warned (last : Z) (os : list (Z + Z)) : Prop :=
  match os with
  | [] => True
  | inl n :: inr w :: os' => last < n /\ w = n /\ growth_warned n os'
  | inl n :: os' => n <= last /\ growth_warned n os'
  | inr _ :: _ => False
  end.

Lemma trace_bind {E S A B O} (h : handler E S) (obs : forall X, E X -> X -> list O) (p : prog E A) (f : A -> prog E B) s :
  trace h obs (p ≫= f) s = trace h obs p s ++ (let '(s', a) := run h p s in trace h obs (f a) s').
Proof.
  revert s. induction p as [a|X e k IH]; intros s; [done|]. simpl.
  destruct (h X e s) as [s' x]. rewrite <- app_assoc. f_equal. apply IH.
Qed.

Lemma monitor_round_obs {S} (h : handler MonitorE S) interval last s :
  exists n, trace h mon_obs (monitor_round interval last) s = inl n :: (if last <? n then [inr n] else []) /\
    forall last', (run h (monitor_round interval last) s).2 = Some last' -> last' = n.
Proof.
  unfold monitor_round. cbn.
  destruct (h _ (MonNotify NotifyWatchdog) s) as [s1 []]. destruct (h _ Len s1) as [s2 q].
  destruct (h _ DeadLetterLen s2) as [s3 d]. destruct (h _ LoadConnected s3) as [s4 c]. cbn.
  destruct (h _ (MonNotify _) s4) as [s5 []]. exists (unwrap_or d 0).
  destruct (last <? unwrap_or d 0), (negb c && (0 <? unwrap_or q 0)); cbn;
    repeat (match goal with |- context [h ?X ?e ?st] => destruct (h X e st) as [? ?] end; cbn);
    (split; [done|]; intros last'; case_match; congruence).
Qed.

Lemma growth_warned_cons last n os :
  growth_warned n os -> (forall w os', os = inr w :: os' -> False) ->
  growth_warned last (inl n :: (if last <? n then [inr n] else []) ++ os).
Proof.
  intros H Hno. destruct (Z.ltb_spec last n); cbn; [done|]. destruct os as [|[a|w] os]; [done|done|].
  by destruct (Hno w os).
Qed.

(** the monitor warns of dead letters exactly when their count has grown since the
    last reading, and only then, for any number of rounds and whatever the store, the
    connection and the timer do. *)
Theorem monitor_warns_on_growth {S} (h : handler MonitorE S) (fuel : nat) (interval last : Z) (s : S) :
  growth_warned last (trace h mon_obs (run_monitor fuel interval last) s).
Proof.
  enough (growth_warned last (trace h mon_obs (run_monitor fuel interval last) s) /\
    forall w os', trace h mon_obs (run_monitor fuel interval last) s = inr w :: os' -> False) by naive_solver.
  revert last s. induction fuel as [|fuel IH]; intros last s; [done|]. cbn [run_monitor].
  destruct (monitor_round_obs h interval last s) as (n & Htr & Hlast).
  rewrite trace_bind, Htr. destruct (run h (monitor_round interval last) s) as [s' [last'|]]; cbn [snd] in Hlast.
  - rewrite (Hlast last' eq_refl). destruct (IH n s') as [H1 H2].
    split; [by apply growth_warned_cons|done].
  - cbn [trace]. split; [|done]. rewrite app_nil_r.
    pose proof (growth_warned_cons last n []) as H. rewrite app_nil_r in H. by apply H.
Qed.
