(* ===== verification/System.v ===== *)
(** * The whole service

    The accept loop, the SMTP sessions, the delivery worker and the monitor as tasks that
    share the outbox, interleaved one effect at a time, with restarts.  [sys_step] is the step
    relation; every task runs the program of its file, and the answers of the outside
    (the peers, the clock, the sink, the storage faults) are arbitrary. *)

From S2P Require Import Prelude RustStr Error Effects Store StoreFacts StoreSpec StoreProps Worker Reader Mime.
From S2P Require Import ConfigData Net Session SessionFacts Serve Main.

(** The sink as the worker sees it: one delivery, one answer. *)
Inductive SinkE : Type -> Type :=
| Deliver (m : Message) (key : str) : SinkE (Result unit).

#[export] Instance one_call_sink : MessageSink unit SinkE := fun _ m key => trigger (Deliver m key).

Abbreviation WE := (WorkerE unit SinkE).

(** A session task: what is left of its program, its peer, and (for the statements
    only) the phase of the protocol it is in. *)
Record Task : Type := mkTask {
  t_prog : prog SmtpE (option (Result unit));
  t_reader : list io_event;
  t_written : list bytes;
  t_write_faults : list (option str);
  t_phase : phase;
}.

(** The worker task: [run_with_reconnect] before and after it has a sink. *)
Inductive WTask : Type :=
| Connecting (p : prog WE (loop_ctl (option unit)))
| Running (p : prog WE (loop_ctl unit))
| Stopped.

Record Sys : Type := mkSys {
  sy_store : MessageStore;
  sy_sessions : gmap nat Task;
  sy_worker : WTask;
  sy_shutdown : bool;
  sy_enqueued : list (Z * Message);   (** every message stored, with its id *)
  sy_acked : list (Z * Message);      (** those whose client was answered [250] *)
  sy_sunk : list (str * Message);     (** those the sink accepted, with their key *)
  sy_orphans : list Message;          (** the enqueues under way whose session was dropped *)
}.

Section System.
Variable validate_email : str -> bool.
Variable parse_mail : bytes -> option ParsedMail.
Variable config : Config.
Variable path : str.

Definition worker : DeliveryWorker unit :=
  mkWorker tt (q_max_retries (cfg_queue config)) (q_retry_backoff (cfg_queue config)).

Definition new_session (fuel : nat) (rd : list io_event) (faults : list (option str)) : Task :=
  mkTask (handle_connection validate_email parse_mail fuel config) rd [] faults Connected.

Definition session_world (t : Task) (s : MessageStore) (clock : Z) : SmtpWorld :=
  mkSmtpWorld (t_reader t) (t_written t) (t_write_faults t) s (fun _ => clock) 0.

(** What an effect of a session records. *)
Definition log_enqueued {X} (e : SmtpE X) : X -> list (Z * Message) :=
  match e in SmtpE X return X -> list (Z * Message) with
  | Enqueue m => fun x => match x with Ok id => [(id, m)] | Err _ => [] end
  | _ => fun _ => []
  end.
Definition log_acked (ph : phase) {X} (e : SmtpE X) : X -> list (Z * Message) :=
  match e in SmtpE X return X -> list (Z * Message) with
  | WriteAll _ => fun x => match ph, x with Stored m id, Ok _ => [(id, m)] | _, _ => [] end
  | _ => fun _ => []
  end.

(** The answers a worker effect may get from a store, with the store after it. *)
Definition worker_answer (shutdown : bool) (s : MessageStore) {X} (e : WE X) : X -> MessageStore -> Prop :=
  match e in WorkerE _ _ X return X -> MessageStore -> Prop with
  | UnixNow => fun _ s' => s' = s
  | ClaimNextReady now => fun x s' => claim_next_ready now s = (s', x)
  | MarkDelivered id => fun x s' => mark_delivered id s = (s', x)
  | DeadLetter id e => fun x s' => exists clock, dead_letter clock id e s = (s', x)
  | Reschedule id a n => fun x s' => reschedule id a n s = (s', x)
  | NextWakeup now => fun x s' => next_wakeup now s = (s', x)
  | SinkCall _ => fun _ s' => s' = s
  | Connect => fun _ s' => s' = s
  | ShutdownBorrow => fun x s' => x = shutdown /\ s' = s
  | SelectIdle _ => fun _ s' => s' = s
  | SelectSleep _ => fun _ s' => s' = s
  end.

(** The answers the monitor gets: it counts the rows of the two tables. *)
Definition monitor_answer (s : MessageStore) {X} (e : MonitorE X) : X -> MessageStore -> Prop :=
  match e in MonitorE X return X -> MessageStore -> Prop with
  | Len => fun x s' => len s = (s', x)
  | DeadLetterLen => fun x s' => dead_letter_len s = (s', x)
  | _ => fun _ s' => s' = s
  end.

Definition log_sunk {X} (e : WE X) : X -> list (str * Message) :=
  match e in WorkerE _ _ X return X -> list (str * Message) with
  | SinkCall e' =>
      match e' in SinkE X return X -> list (str * Message) with
      | Deliver m key => fun x => match x with Ok _ => [(key, m)] | Err _ => [] end
      end
  | _ => fun _ => []
  end.

Definition set_worker (s : Sys) (st : MessageStore) (w : WTask) (sunk : list (str * Message)) : Sys :=
  mkSys st (sy_sessions s) w (sy_shutdown s) (sy_enqueued s) (sy_acked s) (sy_sunk s ++ sunk) (sy_orphans s).
Definition set_sessions (s : Sys) (m : gmap nat Task) : Sys :=
  mkSys (sy_store s) m (sy_worker s) (sy_shutdown s) (sy_enqueued s) (sy_acked s) (sy_sunk s) (sy_orphans s).

(** The session [i] is dropped while it awaits [enqueue]: the closure goes on without it. *)
Definition orphan (s : Sys) (i : nat) (m : Message) : Sys :=
  mkSys (sy_store s) (delete i (sy_sessions s)) (sy_worker s) (sy_shutdown s) (sy_enqueued s) (sy_acked s) (sy_sunk s)
    (sy_orphans s ++ [m]).
(** The closure of the orphan [j] runs: it may store the message. *)
Definition orphan_done (s : Sys) (j : nat) (m : Message) (st : MessageStore) (r : Result Z) : Sys :=
  mkSys st (sy_sessions s) (sy_worker s) (sy_shutdown s)
    (sy_enqueued s ++ match r with Ok id => [(id, m)] | Err _ => [] end) (sy_acked s) (sy_sunk s)
    (delete j (sy_orphans s)).

Inductive sys_step : Sys -> Sys -> Prop :=
(** [serve_smtp]: a connection gets a permit and a task of its own .. *)
| sys_accept s i fuel rd faults :
    Z.of_nat (size (sy_sessions s)) < permits config -> sy_sessions s !! i = None ->
    sys_step s (set_sessions s (<[i := new_session fuel rd faults]> (sy_sessions s)))
(** .. or, with none left, is answered [421] and closed. *)
| sys_reject s : permits config <= Z.of_nat (size (sy_sessions s)) -> sys_step s s
(** One effect of a session. *)
| sys_session s i t X (e : SmtpE X) k clock w' x :
    sy_sessions s !! i = Some t -> t_prog t = Vis e k ->
    smtp_handler X e (session_world t (sy_store s) clock) = (w', x) ->
    sys_step s
      (mkSys (sw_store w')
         (<[i := mkTask (k x) (sw_reader w') (sw_written w') (sw_write_faults w')
                   (default (t_phase t) (smtp_step validate_email parse_mail (t_phase t) X e x))]> (sy_sessions s))
         (sy_worker s) (sy_shutdown s)
         (sy_enqueued s ++ log_enqueued e x) (sy_acked s ++ log_acked (t_phase t) e x) (sy_sunk s) (sy_orphans s))
(** A session ends, or its deadline drops it anywhere; an enqueue it had begun goes on. *)
| sys_session_end s i : sys_step s (set_sessions s (delete i (sy_sessions s)))
| sys_session_dropped s i t m k :
    sy_sessions s !! i = Some t -> t_prog t = Vis (Enqueue m) k -> sys_step s (orphan s i m)
| sys_orphan_done s j m clock st' r :
    sy_orphans s !! j = Some m -> enqueue_commit clock m (sy_store s) = (st', r) ->
    sys_step s (orphan_done s j m st' r)
(** One effect of the worker, or the next round of its loop. *)
| sys_connecting s X (e : WE X) k x st' :
    sy_worker s = Connecting (Vis e k) -> worker_answer (sy_shutdown s) (sy_store s) e x st' ->
    sys_step s (set_worker s st' (Connecting (k x)) (log_sunk e x))
| sys_connect_again s :
    sy_worker s = Connecting (Ret Continue) ->
    sys_step s (set_worker s (sy_store s) (Connecting (reconnect_body RECONNECT_BACKOFF_SECONDS)) [])
| sys_connect_stop s :
    sy_worker s = Connecting (Ret (Break None)) -> sys_step s (set_worker s (sy_store s) Stopped [])
| sys_connected s sink :
    sy_worker s = Connecting (Ret (Break (Some sink))) ->
    sys_step s (set_worker s (sy_store s) (Running (run_body worker)) [])
| sys_running s X (e : WE X) k x st' :
    sy_worker s = Running (Vis e k) -> worker_answer (sy_shutdown s) (sy_store s) e x st' ->
    sys_step s (set_worker s st' (Running (k x)) (log_sunk e x))
| sys_again s :
    sy_worker s = Running (Ret Continue) ->
    sys_step s (set_worker s (sy_store s) (Running (run_body worker)) [])
| sys_stop s :
    sy_worker s = Running (Ret (Break tt)) -> sys_step s (set_worker s (sy_store s) Stopped [])
(** A termination signal. *)
| sys_signal s :
    sys_step s (mkSys (sy_store s) (sy_sessions s) (sy_worker s) true (sy_enqueued s) (sy_acked s) (sy_sunk s) (sy_orphans s))
(** The process stops anywhere, orderly or not, and a new one opens the same file. *)
| sys_restart s faults st' :
    restart path (q_max_len (cfg_queue config)) (sy_store s) faults = Ok st' ->
    sys_step s
      (mkSys st' ∅ (Connecting (reconnect_body RECONNECT_BACKOFF_SECONDS)) false
         (sy_enqueued s) (sy_acked s) (sy_sunk s) [])
(** One effect of the monitor. *)
| sys_monitor s X (e : MonitorE X) x st' :
    monitor_answer (sy_store s) e x st' -> sys_step s (set_worker s st' (sy_worker s) []).

(** The first start, on a file that does not exist yet. *)
Definition sys_init (faults : list (option str)) : Sys :=
  mkSys (fresh_store faults (q_max_len (cfg_queue config))) ∅
    (Connecting (reconnect_body RECONNECT_BACKOFF_SECONDS)) false [] [] [] [].

Inductive reachable (faults : list (option str)) : Sys -> Prop :=
| reach_init : reachable faults (sys_init faults)
| reach_step s s' : reachable faults s -> sys_step s s' -> reachable faults s'.
End System.

(** ** Executing a schedule

    The steps as a function of a schedule that also fixes the answers of the outside;
    [exec_reachable] (in [SystemFacts]) says that it only takes steps of [sys_step]. *)
Inductive action : Type :=
| Accept (i : nat) (fuel : nat) (rd : list io_event) (faults : list (option str))
| SessionStep (i : nat) (clock : Z)
| SessionEnd (i : nat)
| SessionDropped (i : nat)
| OrphanDone (j : nat) (clock : Z)
| WorkerStep (clock : Z) (sink : Result unit)
| Signal
| Restart (faults : list (option str))
| MonitorReads (dead : bool).       (** [dead_letter_len] or [len] *)

Section Exec.
Variable validate_email : str -> bool.
Variable parse_mail : bytes -> option ParsedMail.
Variable config : Config.
Variable path : str.

Definition worker_exec (clock : Z) (sink : Result unit) (shutdown : bool) (s : MessageStore) {X} (e : WE X)
  : MessageStore * X :=
  match e in WorkerE _ _ X return MessageStore * X with
  | UnixNow => (s, unix_now clock)
  | ClaimNextReady now => claim_next_ready now s
  | MarkDelivered id => mark_delivered id s
  | DeadLetter id e => dead_letter clock id e s
  | Reschedule id a n => reschedule id a n s
  | NextWakeup now => next_wakeup now s
  | SinkCall e' => (s, match e' in SinkE X return X with Deliver _ _ => sink end)
  | Connect => (s, Ok tt)
  | ShutdownBorrow => (s, shutdown)
  | SelectIdle _ => (s, tt)
  | SelectSleep _ => (s, tt)
  end.

(** The calls of [serve_round] on the service: [next] is the connection [accept]
    returns, a fresh task id with the peer's script and the write faults to come. *)
Definition accept_handler (fuel : nat) (next : result str (nat * list io_event * list (option str)))
  : handler (ServeE (nat * list io_event * list (option str))) Sys := fun X e s =>
  match e in ServeE _ X return Sys * X with
  | AcceptConn => (s, next)
  | TryAcquire => (s, Z.of_nat (size (sy_sessions s)) <? permits config)
  | SpawnReject _ _ => (s, tt)
  | SpawnSession (i, rd, faults) _ =>
      (set_sessions s (<[i := new_session validate_email parse_mail config fuel rd faults]> (sy_sessions s)), tt)
  end.

Definition exec_action (a : action) (s : Sys) : option Sys :=
  match a with
  | Accept i fuel rd faults =>
      match sy_sessions s !! i with
      | None => Some (run (accept_handler fuel (Ok (i, rd, faults))) (serve_round config) s).1
      | Some _ => None
      end
  | SessionStep i clock =>
      match sy_sessions s !! i with
      | Some t =>
          match t_prog t with
          | Vis e k =>
              let '(w', x) := smtp_handler _ e (session_world t (sy_store s) clock) in
              Some (mkSys (sw_store w')
                 (<[i := mkTask (k x) (sw_reader w') (sw_written w') (sw_write_faults w')
                           (default (t_phase t) (smtp_step validate_email parse_mail (t_phase t) _ e x))]> (sy_sessions s))
                 (sy_worker s) (sy_shutdown s)
                 (sy_enqueued s ++ log_enqueued e x) (sy_acked s ++ log_acked (t_phase t) e x) (sy_sunk s) (sy_orphans s))
          | Ret _ => None
          end
      | None => None
      end
  | SessionEnd i => Some (set_sessions s (delete i (sy_sessions s)))
  | SessionDropped i =>
      match sy_sessions s !! i with
      | Some t => match t_prog t with Vis (Enqueue m) _ => Some (orphan s i m) | _ => None end
      | None => None
      end
  | OrphanDone j clock =>
      match sy_orphans s !! j with
      | Some m => let '(st', r) := enqueue_commit clock m (sy_store s) in Some (orphan_done s j m st' r)
      | None => None
      end
  | WorkerStep clock sink =>
      match sy_worker s with
      | Connecting (Vis e k) =>
          let '(st', x) := worker_exec clock sink (sy_shutdown s) (sy_store s) e in
          Some (set_worker s st' (Connecting (k x)) (log_sunk e x))
      | Connecting (Ret Continue) =>
          Some (set_worker s (sy_store s) (Connecting (reconnect_body RECONNECT_BACKOFF_SECONDS)) [])
      | Connecting (Ret (Break None)) => Some (set_worker s (sy_store s) Stopped [])
      | Connecting (Ret (Break (Some _))) => Some (set_worker s (sy_store s) (Running (run_body (worker config))) [])
      | Running (Vis e k) =>
          let '(st', x) := worker_exec clock sink (sy_shutdown s) (sy_store s) e in
          Some (set_worker s st' (Running (k x)) (log_sunk e x))
      | Running (Ret Continue) => Some (set_worker s (sy_store s) (Running (run_body (worker config))) [])
      | Running (Ret (Break _)) => Some (set_worker s (sy_store s) Stopped [])
      | Stopped => None
      end
  | Signal =>
      Some (mkSys (sy_store s) (sy_sessions s) (sy_worker s) true (sy_enqueued s) (sy_acked s) (sy_sunk s) (sy_orphans s))
  | Restart faults =>
      match restart path (q_max_len (cfg_queue config)) (sy_store s) faults with
      | Ok st' =>
          Some (mkSys st' ∅ (Connecting (reconnect_body RECONNECT_BACKOFF_SECONDS)) false
                  (sy_enqueued s) (sy_acked s) (sy_sunk s) [])
      | Err _ => None
      end
  | MonitorReads dead =>
      Some (set_worker s (if dead then (dead_letter_len (sy_store s)).1 else (len (sy_store s)).1) (sy_worker s) [])
  end.

Fixpoint exec (actions : list action) (s : Sys) : option Sys :=
  match actions with
  | [] => Some s
  | a :: actions' => s' ← exec_action a s; exec actions' s'
  end.
End Exec.
