(* ===== verification/SystemFacts.v ===== *)
(** * Lemmas on the whole service

    The protocol the worker follows, what a task's next effect does to the queue, and
    the invariant of the reachable states. *)

From S2P Require Import Prelude RustStr Error Effects Store StoreFacts StoreSpec StoreProps Worker WorkerFacts.
From S2P Require Import Reader Mime ConfigData Net Session Serve SessionFacts Main System.

(** ** The worker's protocol *)

Inductive wphase : Type :=
| WIdle
| WClaimed (st : StoredMessage)
| WSunk (st : StoredMessage)
| WFailed (st : StoredMessage).

Definition worker_step (ph : wphase) (X : Type) (e : WE X) : X -> option wphase :=
  match e in WorkerE _ _ X return X -> option wphase with
  | ClaimNextReady _ => fun x =>
      match ph, x with
      | WIdle, Ok (Some st) => Some (WClaimed st)
      | WIdle, _ => Some WIdle
      | _, _ => None
      end
  | SinkCall e' =>
      match e' in SinkE X return X -> option wphase with
      | Deliver m key => fun x =>
          match ph with
          | WClaimed st =>
              if bool_decide (m = sm_message st) && bool_decide (key = idempotency_key (sm_id st))
              then Some (match x with Ok _ => WSunk st | Err _ => WFailed st end) else None
          | _ => None
          end
      end
  | MarkDelivered id => fun _ =>
      match ph with WSunk st => if bool_decide (id = sm_id st) then Some WIdle else None | _ => None end
  | DeadLetter id _ => fun _ =>
      match ph with WFailed st => if bool_decide (id = sm_id st) then Some WIdle else None | _ => None end
  | Reschedule id a n => fun _ =>
      match ph with
      | WFailed st => if bool_decide (id = sm_id st /\ is_u32 a /\ is_i64 n) then Some WIdle else None
      | _ => None
      end
  | _ => fun _ => match ph with WIdle => Some WIdle | _ => None end
  end.

Abbreviation worker_conforms := (conforms any_answer worker_step (fun ph _ => ph = WIdle)).

Lemma as_i64_range z : is_i64 (as_i64 z).
Proof. unfold is_i64, as_i64, i64_min, i64_max. pose proof (Z.mod_pos_bound (z + 2 ^ 63) (2 ^ 64)). lia. Qed.

Lemma handle_failure_conforms (w : DeliveryWorker unit) st now e :
  conforms any_answer worker_step (fun ph _ => ph = WIdle) (WFailed st) (handle_failure w st now e).
Proof.
  unfold handle_failure. destruct (dw_max_retries w <? _); intros x _; cbn [worker_step].
  - by rewrite bool_decide_eq_true_2.
  - rewrite bool_decide_eq_true_2; [done|]. split_and!; [done|apply as_u32_range|apply as_i64_range].
Qed.

Lemma run_body_conforms w : worker_conforms WIdle (run_body w).
Proof.
  intros now _. cbn [worker_step]. intros claimed _. cbn [worker_step].
  destruct claimed as [[st|]|e].
  - intros r _. cbn [worker_step]. rewrite !bool_decide_eq_true_2 by done.
    destruct r as [u|err].
    + intros y _. cbn [worker_step]. by rewrite bool_decide_eq_true_2.
    + eapply conforms_bind; [apply handle_failure_conforms|]. by intros ph a ->.
  - intros stop _. cbn. destruct stop; [done|]. intros nw _. cbn. by intros y _.
  - intros y _. cbn. by intros stop _.
Qed.

Lemma reconnect_body_conforms b : worker_conforms WIdle (reconnect_body (S := unit) (E := SinkE) b).
Proof.
  intros stop _. cbn. destruct stop; [done|]. intros sink _. cbn. destruct sink; [done|]. by intros y _.
Qed.

(** ** The invariant *)

Definition settled (s : Sys) (m : Message) (id : Z) : Prop :=
  (exists e, q_entries (queue_of (ms_db (sy_store s))) !! id = Some e /\ entry_message e = m) \/
  (idempotency_key id, m) ∈ sy_sunk s \/
  (exists l, l ∈ q_letters (queue_of (ms_db (sy_store s))) /\ letter_message l = m).

(** What the worker holds. *)
Definition held (s : Sys) (st : StoredMessage) : Prop :=
  exists e, q_entries (queue_of (ms_db (sy_store s))) !! sm_id st = Some e /\ entry_message e = sm_message st.

Definition wphase_ok (s : Sys) (ph : wphase) : Prop :=
  match ph with
  | WIdle => True
  | WClaimed st | WFailed st => held s st
  | WSunk st => held s st /\ (idempotency_key (sm_id st), sm_message st) ∈ sy_sunk s
  end.

Definition task_ok (v : str -> bool) (pm : bytes -> option ParsedMail) (s : Sys) (t : Task) : Prop :=
  conforms smtp_rely (smtp_step v pm) (fun ph r => is_Some r -> ph = Closed) (t_phase t) (t_prog t) /\
  forall m id, t_phase t = Stored m id -> settled s m id /\ (id, m) ∈ sy_enqueued s.

Definition worker_ok (s : Sys) : Prop :=
  exists ph, wphase_ok s ph /\
    match sy_worker s with
    | Connecting p => worker_conforms ph p
    | Running p => worker_conforms ph p
    | Stopped => True
    end.

Section Invariant.
Variable validate_email : str -> bool.
Variable parse_mail : bytes -> option ParsedMail.
Variable config : Config.

Record sys_ok (s : Sys) : Prop := {
  ok_wf : db_wf (ms_db (sy_store s));
  ok_max : ms_max_len (sy_store s) = q_max_len (cfg_queue config) /\ within_max_len (sy_store s);
  ok_permits : Z.of_nat (size (sy_sessions s)) <= permits config;
  ok_sessions : forall i t, sy_sessions s !! i = Some t -> task_ok validate_email parse_mail s t;
  ok_worker : worker_ok s;
  ok_entries : forall id e, q_entries (queue_of (ms_db (sy_store s))) !! id = Some e ->
    (id, entry_message e) ∈ sy_enqueued s;
  ok_acked : forall id m, (id, m) ∈ sy_acked s -> settled s m id /\ (id, m) ∈ sy_enqueued s;
  ok_sunk : forall key m, (key, m) ∈ sy_sunk s -> exists id, key = idempotency_key id /\ (id, m) ∈ sy_enqueued s;
  ok_orphans : Forall storable (sy_orphans s);
}.

(** *** What one operation of the store does to the queue of the invariant *)

Lemma entries_le db id e : db_wf db -> q_entries (queue_of db) !! id = Some e -> id <= q_last_id (queue_of db).
Proof.
  intros Hwf Hi. simpl in *. apply entries_lookup in Hi as (r & Hr & <- & _); [|apply Hwf].
  pose proof (wf_outbox_rows _ Hwf) as Hrows. rewrite Forall_forall in Hrows. by apply Hrows.
Qed.

(** [s'] is [s] after the store answered [ev]. *)
Record store_moved (ev : store_event) (s s' : Sys) : Prop := {
  mv_step : queue_step (queue_of (ms_db (sy_store s))) ev (queue_of (ms_db (sy_store s')));
  mv_wf : db_wf (ms_db (sy_store s));
  mv_sunk : sy_sunk s `prefix_of` sy_sunk s';
}.

Lemma settled_moved ev s s' m id :
  store_moved ev s s' -> settled s m id ->
  (forall e, ev = EvDelivered id -> q_entries (queue_of (ms_db (sy_store s))) !! id = Some e ->
     (idempotency_key id, entry_message e) ∈ sy_sunk s') ->
  settled s' m id.
Proof.
  intros [Hstep Hwf Hsunk] [(e & Hi & <-)|[Hs|(l & Hl & <-)]] Hdel.
  - pose proof (entries_le _ _ _ Hwf Hi) as Hle.
    destruct (queue_step_keeps _ _ _ _ _ Hstep Hi Hle) as [(e' & Hi' & Hm)|[->|(clock & err & -> & Hl)]].
    + left. by exists e'.
    + right. left. by apply Hdel.
    + right. right. eauto.
  - right. left. by eapply elem_of_prefix.
  - right. right. exists l. split; [|done]. eapply elem_of_prefix; [done|]. by eapply queue_step_letters.
Qed.

(** Events of the sessions and of the queries keep every entry. *)
Definition keeps_entries (ev : store_event) : Prop :=
  match ev with EvDelivered _ | EvDeadLettered _ _ _ => False | _ => True end.

Lemma settled_kept ev s s' m id :
  keeps_entries ev -> store_moved ev s s' -> settled s m id -> settled s' m id.
Proof. intros Hk Hmv Hs. eapply settled_moved; [done..|]. by intros e ->. Qed.

Lemma held_kept ev s s' st : keeps_entries ev -> store_moved ev s s' -> held s st -> held s' st.
Proof.
  intros Hk [Hstep Hwf _] (e & Hi & Hm).
  destruct (queue_step_keeps _ _ _ _ _ Hstep Hi (entries_le _ _ _ Hwf Hi)) as [(e' & Hi' & He)|[->|(? & ? & -> & _)]];
    [|done..]. exists e'. split; [done|]. by rewrite He.
Qed.

Lemma wphase_kept ev s s' ph :
  keeps_entries ev -> store_moved ev s s' -> wphase_ok s ph -> wphase_ok s' ph.
Proof.
  intros Hk Hmv. destruct ph as [|st|st|st]; cbn; [done|by eapply held_kept| |by eapply held_kept].
  intros [Hh Hs]. split; [by eapply held_kept|]. eapply elem_of_prefix; [done|apply Hmv].
Qed.

(** Only an enqueue adds entries; the others keep the messages. *)
Lemma entries_origin q ev q' id e :
  queue_step q ev q' -> q_entries q' !! id = Some e ->
  (exists clock m, ev = EvEnqueued clock m id /\ entry_message e = stored_form m) \/
  exists e0, q_entries q !! id = Some e0 /\ entry_message e0 = entry_message e.
Proof.
  intros Hstep. destruct Hstep as [q clock m Hlt|q|q now H|q now i0 e0 H H1 H2|q i0|q clock i0 err e0 H|q clock i0 err H
    |q i0 a n|q now H|q now t i0 e0 H H1 H2 H3|q n H|q n H|q err]; cbn [q_entries]; eauto.
  - intros [[<- <-]|[_ Hi]]%lookup_insert_Some; [left; eauto|right; eauto].
  - intros [_ Hi]%lookup_delete_Some. eauto.
  - intros [_ Hi]%lookup_delete_Some. eauto.
  - intros [(-> & e1 & Hi & ->)|[_ Hi]]%lookup_alter_Some; right; eauto.
Qed.

Lemma no_move s s' : db_wf (ms_db (sy_store s)) ->
  ms_db (sy_store s') = ms_db (sy_store s) -> sy_sunk s `prefix_of` sy_sunk s' ->
  store_moved (EvFailed ChimneyError.QueueFull) s s'.
Proof. intros Hwf Hdb Hs. split; [rewrite Hdb; constructor|done|done]. Qed.
Abbreviation invariant := sys_ok.
Abbreviation step_of := (smtp_step validate_email parse_mail).

Lemma task_ok_moved s s' t :
  (forall m id, settled s m id -> settled s' m id) -> sy_enqueued s `prefix_of` sy_enqueued s' ->
  task_ok validate_email parse_mail s t -> task_ok validate_email parse_mail s' t.
Proof.
  intros Hset Hpre [Hc Hst]. split; [done|]. intros m id Hph. destruct (Hst m id Hph) as [H1 H2].
  split; [by apply Hset|]. by eapply elem_of_prefix.
Qed.

(** A move of the worker: the sessions and their logs stay. *)
Lemma sys_ok_frame ev s s' :
  invariant s -> store_moved ev s s' -> db_wf (ms_db (sy_store s')) ->
  ms_max_len (sy_store s') = q_max_len (cfg_queue config) /\ within_max_len (sy_store s') ->
  (forall id e, ev = EvDelivered id -> q_entries (queue_of (ms_db (sy_store s))) !! id = Some e ->
     (idempotency_key id, entry_message e) ∈ sy_sunk s') ->
  (forall clock m id, ev <> EvEnqueued clock m id) ->
  sy_sessions s' = sy_sessions s -> sy_enqueued s' = sy_enqueued s -> sy_acked s' = sy_acked s ->
  sy_orphans s' = sy_orphans s ->
  (forall key m, (key, m) ∈ sy_sunk s' -> (key, m) ∈ sy_sunk s \/
     exists id, key = idempotency_key id /\ (id, m) ∈ sy_enqueued s) ->
  worker_ok s' -> invariant s'.
Proof.
  intros [Hwf Hmax Hperm Hsess Hwork Hent Hack Hsunk Horph] Hmv Hwf' Hmax' Hdel Hnew Es Ee Ea Eo Hsunk' Hwork'.
  assert (forall m id, settled s m id -> settled s' m id) as Hset.
  { intros m id Hs. eapply settled_moved; [done|done|]. intros e Hev. by apply Hdel. }
  split; try done.
  - by rewrite Es.
  - intros i t Ht. rewrite Es in Ht. eapply task_ok_moved; [done|by rewrite Ee|by eapply Hsess].
  - intros id e Hi. rewrite Ee. destruct (entries_origin _ _ _ _ _ (mv_step _ _ _ Hmv) Hi) as [(c & m & -> & _)|(e0 & Hi0 & <-)].
    + by destruct (Hnew c m id).
    + by apply Hent.
  - intros id m. rewrite Ea, Ee. intros [H1 H2]%Hack. split; [by apply Hset|done].
  - intros key m. rewrite Ee. intros [H|H]%Hsunk'; [by apply Hsunk|done].
  - by rewrite Eo.
Qed.

(** One operation of the store, as [step] runs it, whoever is notified. *)
Lemma op_moved op n s s' :
  op_args_ok op -> is_u64 (q_max_len (cfg_queue config)) -> invariant s ->
  sy_store s' = with_notified n (step op (sy_store s)).1 -> sy_sunk s `prefix_of` sy_sunk s' ->
  store_moved (step op (sy_store s)).2 s s' /\ db_wf (ms_db (sy_store s')) /\
  ms_max_len (sy_store s') = q_max_len (cfg_queue config) /\ within_max_len (sy_store s').
Proof.
  intros Hop Hq Hok Hst Hpre. destruct (ok_max _ Hok) as [Hml Hw].
  set (st := (step op (sy_store s)).1) in *.
  assert (ms_db (sy_store s') = ms_db st) as Hdb by (by rewrite Hst).
  assert (ms_max_len (sy_store s') = ms_max_len st) as Hmax by (by rewrite Hst).
  split; [split; [|apply Hok|done]|].
  - rewrite Hdb. apply (refine_step op (sy_store s) st); [apply Hok|]. apply surjective_pairing.
  - unfold within_max_len. rewrite Hdb, Hmax. split; [|split].
    + apply step_wf; [done|apply Hok].
    + subst st. by rewrite step_max_len.
    + apply step_within_max_len; [rewrite Hml; apply Hq|done].
Qed.

Lemma with_notified_eq (st st' : MessageStore) : st' = st -> st' = with_notified (ms_notified st) st.
Proof. intros ->. by destruct st. Qed.

Lemma event_of_delivered {A} (f : A -> store_event) r id :
  event_of f r = EvDelivered id -> exists a, f a = EvDelivered id.
Proof. destruct r as [a|[]]; cbn; eauto; done. Qed.

Lemma event_of_enqueued {A} (f : A -> store_event) r c m id :
  event_of f r = EvEnqueued c m id -> exists a, r = Ok a /\ f a = EvEnqueued c m id.
Proof. destruct r as [a|[]]; cbn; eauto; done. Qed.

(** The operation of the store behind an effect of the worker. *)
Definition worker_op {X} (e : WE X) (clock : Z) : option store_op :=
  match e with
  | ClaimNextReady now => Some (OpClaimNextReady now)
  | MarkDelivered id => Some (OpMarkDelivered id)
  | DeadLetter id err => Some (OpDeadLetter clock id err)
  | Reschedule id a n => Some (OpReschedule id a n)
  | NextWakeup now => Some (OpNextWakeup now)
  | _ => None
  end.

(** What an answer says of the queue it leaves. *)
Lemma worker_answer_op sh st {X} (e : WE X) x st' :
  worker_answer sh st e x st' ->
  exists clock, match worker_op e clock with
    | Some op => st' = (step op st).1 /\ match e in WorkerE _ _ X return X -> Prop with
        | ClaimNextReady now => fun x => (step op st).2 = event_of (EvClaimed now) x
        | _ => fun _ => True
        end x
    | None => st' = st
    end.
Proof.
  destruct e; cbn;
    first [ intros ->; exists 0; done | intros [clock H]; exists clock; cbn; by rewrite H
          | intros H; exists 0; cbn; by rewrite H | intros [_ ->]; by exists 0 ].
Qed.

Lemma step_event_delivered op st id : (step op st).2 = EvDelivered id -> op = OpMarkDelivered id.
Proof.
  destruct op; cbn; match goal with |- context [prod_map _ _ ?x] => destruct x as [? r] end; cbn;
    intros [a Ha]%event_of_delivered; congruence.
Qed.

Lemma step_event_enqueued op st c m id : (step op st).2 = EvEnqueued c m id -> op = OpEnqueue c m.
Proof.
  destruct op; cbn; match goal with |- context [prod_map _ _ ?x] => destruct x as [? r] end; cbn;
    intros (a & _ & Ha)%event_of_enqueued; congruence.
Qed.

Lemma worker_op_ok ph {X} (e : WE X) x clock op ph' :
  worker_step ph X e x = Some ph' -> worker_op e clock = Some op -> op_args_ok op.
Proof.
  destruct e; cbn; intros H [= <-]; cbn; try done.
  destruct ph; try done. case_bool_decide; naive_solver.
Qed.
(** *** The worker *)

Lemma held_moved ev s s' st :
  store_moved ev s s' -> held s st ->
  (forall id, ev = EvDelivered id -> False) -> (forall c id e, ev = EvDeadLettered c id e -> False) -> held s' st.
Proof.
  intros Hmv Hh H1 H2. eapply (held_kept ev); [|done|done]. destruct ev; cbn; eauto.
Qed.

(** A claim hands out an entry of the queue. *)
Lemma claimed_held s s' now st :
  store_moved (EvClaimed now (Some st)) s s' -> held s' st.
Proof.
  intros [Hstep _ _]. apply claimed_inv in Hstep as [Hq (i & e & -> & Hi & _)].
  exists e. cbn [sm_id sm_message stored_of fst snd]. by rewrite Hq.
Qed.

Lemma wphase_after ph {X} (e : WE X) x ph' s s' clock ev :
  worker_step ph X e x = Some ph' -> wphase_ok s ph -> store_moved ev s s' ->
  match worker_op e clock with
  | Some op => match e in WorkerE _ _ X return X -> Prop with
               | ClaimNextReady now => fun x => ev = event_of (EvClaimed now) x
               | _ => fun _ => True
               end x
  | None => keeps_entries ev
  end ->
  sy_sunk s' = sy_sunk s ++ log_sunk e x -> wphase_ok s' ph'.
Proof.
  intros Hstep Hph Hmv Hev Hsunk.
  destruct e as [|now|id|id err|id a n|now|X e| | | |]; cbn in *;
    try (destruct ph as [|st|st|st]; try done; by injection Hstep as <-).
  - destruct ph as [|st|st|st]; try done. destruct x as [[st|]|err]; injection Hstep as <-; [|done..].
    cbn in Hev. rewrite Hev in Hmv. by eapply claimed_held.
  - destruct ph as [|st|st|st]; try done. case_bool_decide; [|done]. by injection Hstep as <-.
  - destruct ph as [|st|st|st]; try done. case_bool_decide; [|done]. by injection Hstep as <-.
  - destruct ph as [|st|st|st]; try done. case_bool_decide; [|done]. by injection Hstep as <-.
  - destruct e as [m key]. destruct ph as [|st|st|st]; try done.
    destruct (bool_decide_reflect (m = sm_message st)) as [->|]; [|done].
    destruct (bool_decide_reflect (key = idempotency_key (sm_id st))) as [->|]; [|done].
    assert (held s' st) as Hh by by eapply held_kept.
    destruct x as [u|err]; injection Hstep as <-; [|done]. split; [done|].
    rewrite Hsunk. apply elem_of_app. right. left.
Qed.

Lemma worker_effect_ok s ph {X A} (e : WE X) (k : X -> prog WE A) x st' w' :
  is_u64 (q_max_len (cfg_queue config)) -> invariant s -> wphase_ok s ph ->
  worker_conforms ph (Vis e k) -> worker_answer (sy_shutdown s) (sy_store s) e x st' ->
  (forall s', sy_worker s' = w' -> forall ph', wphase_ok s' ph' -> worker_conforms ph' (k x) -> worker_ok s') ->
  invariant (set_worker s st' w' (log_sunk e x)).
Proof.
  intros Hq Hok Hph Hc Hans Hw. set (s' := set_worker s st' w' (log_sunk e x)).
  specialize (Hc x I). destruct (worker_step ph X e x) as [ph'|] eqn:Hstep; [|done].
  assert (sy_sunk s `prefix_of` sy_sunk s') as Hpre by by apply prefix_app_r.
  destruct (worker_answer_op _ _ _ _ _ Hans) as (clock & Hop).
  (* what the sink was given is what the worker holds *)
  assert (forall key m, (key, m) ∈ sy_sunk s' -> (key, m) ∈ sy_sunk s \/
     exists id, key = idempotency_key id /\ (id, m) ∈ sy_enqueued s) as Hsunk'.
  { cbn. intros key m [H|H]%elem_of_app; [by left|right].
    destruct e as [|now|id|id err|id a n|now|X e| | | |]; cbn in H; try by apply not_elem_of_nil in H.
    destruct e as [m0 key0]. cbn in Hstep. destruct ph as [|st|st|st]; try done.
    destruct (bool_decide_reflect (m0 = sm_message st)) as [->|]; [|done].
    destruct (bool_decide_reflect (key0 = idempotency_key (sm_id st))) as [->|]; [|done].
    destruct x as [u|err]; [|by apply not_elem_of_nil in H].
    apply list_elem_of_singleton in H as [= -> ->]. exists (sm_id st). split; [done|].
    destruct Hph as (en & Hen & <-). by apply (ok_entries _ Hok). }
  destruct (worker_op e clock) as [op|] eqn:Hwop.
  - destruct Hop as [Hst Hev]. pose proof (worker_op_ok _ _ _ _ _ _ Hstep Hwop) as Hargs.
    destruct (op_moved op _ s s' Hargs Hq Hok (with_notified_eq _ _ Hst) Hpre) as (Hmv & Hwf' & Hmax').
    eapply (sys_ok_frame _ s s'); try done.
    + intros i en Hd Hen. apply step_event_delivered in Hd as ->.
      destruct e as [|now|id0|id0 err|id0 a n|now|X e| | | |]; cbn in Hwop; try done.
      assert (id0 = i) as -> by congruence. cbn in Hstep.
      destruct ph as [|st|st|st]; try done. case_bool_decide as Hi; [|done].
      destruct Hph as [(e0 & He0 & Hm) Hin]. rewrite <- Hi in He0, Hin. rewrite Hen in He0.
      injection He0 as <-. rewrite Hm. by eapply elem_of_prefix.
    + intros c m id H. apply step_event_enqueued in H as ->. by destruct e.
    + eapply (Hw s' eq_refl ph'); [|exact Hc]. eapply (wphase_after ph e x ph' s s' clock); try done.
      by rewrite Hwop.
  - assert (store_moved (EvFailed ChimneyError.QueueFull) s s') as Hmv.
    { apply no_move; [apply Hok|cbn; by rewrite Hop|done]. }
    eapply (sys_ok_frame _ s s'); try done; try (cbn; rewrite Hop; apply Hok).
    eapply (Hw s' eq_refl ph'); [|exact Hc]. eapply (wphase_after ph e x ph' s s' clock); try done.
    by rewrite Hwop.
Qed.

(** A move of the worker that touches nothing: the next round of its loop. *)
Lemma worker_round_ok s w' :
  invariant s -> (forall s', sy_worker s' = w' -> worker_ok s') -> invariant (set_worker s (sy_store s) w' []).
Proof.
  intros Hok Hw. eapply (sys_ok_frame (EvFailed ChimneyError.QueueFull) s); try done.
  - apply no_move; [apply Hok|done|]. cbn. by rewrite app_nil_r.
  - apply Hok.
  - apply Hok.
  - cbn. intros key m. rewrite app_nil_r. by left.
  - by apply Hw.
Qed.
(** *** The monitor *)

Lemma monitor_answer_spec st {X} (e : MonitorE X) x st' :
  monitor_answer st e x st' -> ms_db st' = ms_db st /\ ms_notified st' = ms_notified st /\ ms_max_len st' = ms_max_len st.
Proof.
  destruct e; cbn; try (by intros ->).
  - by intros (? & ? & ? & _)%len_spec.
  - by intros (? & ? & ? & _)%dead_letter_len_spec.
Qed.

Lemma monitor_effect_ok s {X} (e : MonitorE X) x st' :
  invariant s -> monitor_answer (sy_store s) e x st' -> invariant (set_worker s st' (sy_worker s) []).
Proof.
  intros Hok (Hdb & _ & Hml)%monitor_answer_spec.
  set (s' := set_worker s st' (sy_worker s) []).
  assert (store_moved (EvFailed ChimneyError.QueueFull) s s') as Hmv.
  { apply no_move; [apply Hok|done|]. cbn. by rewrite app_nil_r. }
  eapply (sys_ok_frame (EvFailed ChimneyError.QueueFull) s); try done.
  - cbn. rewrite Hdb. apply Hok.
  - cbn. unfold within_max_len. rewrite Hdb, Hml. apply Hok.
  - cbn. intros key m. rewrite app_nil_r. by left.
  - destruct (ok_worker _ Hok) as (ph & Hph & Hc). exists ph. split; [by eapply (wphase_kept (EvFailed ChimneyError.QueueFull))|done].
Qed.

(** *** The sessions *)

Lemma worker_ok_kept ev s s' :
  keeps_entries ev -> store_moved ev s s' -> sy_worker s' = sy_worker s -> worker_ok s -> worker_ok s'.
Proof. intros Hk Hmv Hw (ph & Hph & Hc). exists ph. split; [by eapply wphase_kept|]. by rewrite Hw. Qed.

Lemma session_frame ev s s' :
  invariant s -> store_moved ev s s' -> keeps_entries ev -> db_wf (ms_db (sy_store s')) ->
  ms_max_len (sy_store s') = q_max_len (cfg_queue config) /\ within_max_len (sy_store s') ->
  Z.of_nat (size (sy_sessions s')) <= permits config ->
  (forall i t, sy_sessions s' !! i = Some t -> sy_sessions s !! i = Some t \/ task_ok validate_email parse_mail s' t) ->
  sy_worker s' = sy_worker s -> sy_sunk s' = sy_sunk s -> sy_enqueued s `prefix_of` sy_enqueued s' ->
  (forall id e, q_entries (queue_of (ms_db (sy_store s'))) !! id = Some e -> (id, entry_message e) ∈ sy_enqueued s') ->
  (forall id m, (id, m) ∈ sy_acked s' -> (id, m) ∈ sy_acked s \/ (settled s m id /\ (id, m) ∈ sy_enqueued s)) ->
  Forall storable (sy_orphans s') -> invariant s'.
Proof.
  intros [Hwf Hmax Hperm Hsess Hwork Hent Hack Hsunk _] Hmv Hk Hwf' Hmax' Hperm' Ht Hw Hs Hpre Hent' Hack' Horph.
  assert (forall m id, settled s m id -> settled s' m id) as Hset by (intros; by eapply settled_kept).
  split; try done.
  - intros i t Hi. destruct (Ht i t Hi) as [Hold|]; [|done]. eapply task_ok_moved; [done|done|by eapply Hsess].
  - by eapply worker_ok_kept.
  - intros id m Hin. assert (settled s m id /\ (id, m) ∈ sy_enqueued s) as [H1 H2].
    { destruct (Hack' id m Hin) as [H|H]; [by apply Hack|done]. }
    split; [by apply Hset|by eapply elem_of_prefix].
  - intros key m. rewrite Hs. intros (id & -> & Hin)%Hsunk. exists id. split; [done|by eapply elem_of_prefix].
Qed.

Lemma same_store_frame s s' :
  invariant s -> sy_store s' = sy_store s ->
  Z.of_nat (size (sy_sessions s')) <= permits config ->
  (forall i t, sy_sessions s' !! i = Some t -> sy_sessions s !! i = Some t \/ task_ok validate_email parse_mail s' t) ->
  sy_worker s' = sy_worker s -> sy_sunk s' = sy_sunk s -> sy_enqueued s' = sy_enqueued s ->
  (forall id m, (id, m) ∈ sy_acked s' -> (id, m) ∈ sy_acked s \/ (settled s m id /\ (id, m) ∈ sy_enqueued s)) ->
  Forall storable (sy_orphans s') -> invariant s'.
Proof.
  intros Hok Hst Hperm Ht Hw Hs He Hack Horph. eapply (session_frame (EvFailed ChimneyError.QueueFull) s); try done.
  - apply no_move; [apply Hok|by rewrite Hst|by rewrite Hs].
  - rewrite Hst. apply Hok.
  - rewrite Hst. apply Hok.
  - by rewrite He.
  - intros id e. rewrite Hst, He. apply Hok.
Qed.

(** Only an enqueue leads into the phase that acknowledges. *)
Lemma smtp_step_write ph response x m id : step_of ph _ (WriteAll response) x <> Some (Stored m id).
Proof.
  destruct ph; cbn; try done; try (destruct (starts_with _ _); [|done]; destruct x; done).
  unfold after_response. intros H.
  repeat match type of H with
  | context [if ?b then _ else _] => destruct b
  | context [accept ?v ?e ?l] => destruct (accept v e l)
  end; cbn in H; try done; destruct x; done.
Qed.

Lemma smtp_step_line ph d n x m id : step_of ph _ (ReadLine d n) x <> Some (Stored m id).
Proof.
  destruct ph; cbn; try done. destruct x as [[[k|[]]|] text]; try done.
  destruct (k =? 0); [done|]. by destruct (bool_decide _).
Qed.

Lemma smtp_step_data ph n d x m id : step_of ph _ (ReadData n d) x <> Some (Stored m id).
Proof. destruct ph; cbn; try done. by destruct x as [|[]]. Qed.

Lemma smtp_step_enqueue ph message x ph' :
  step_of ph _ (Enqueue message) x = Some ph' ->
  storable message /\ ph' = match x with Ok id => Stored message id | Err _ => NotStored end.
Proof.
  destruct ph; cbn; try done. destruct (bool_decide_reflect (message = m)); [|done].
  destruct (bool_decide_reflect (storable message)); [|done]. destruct (bool_decide _); [|done].
  by intros [= <-].
Qed.

(** What an effect of a session does to the store: nothing, or an enqueue. *)
Lemma session_effect_cases s t X (e : SmtpE X) clock w' x ph' :
  smtp_handler X e (session_world t (sy_store s) clock) = (w', x) -> step_of (t_phase t) X e x = Some ph' ->
  (sw_store w' = sy_store s /\ log_enqueued e x = [] /\ forall m id, ph' <> Stored m id) \/
   exists message, sw_store w' = (step (OpEnqueue clock message) (sy_store s)).1 /\
     storable message /\ exists r : Result Z, (step (OpEnqueue clock message) (sy_store s)).2 = event_of (EvEnqueued clock message) r /\
     ph' = (match r with Ok id => Stored message id | Err _ => NotStored end) /\
     log_enqueued e x = (match r with Ok id => [(id, message)] | Err _ => [] end) /\
     log_acked (t_phase t) e x = [].
Proof.
  intros Hh Hstep.
  destruct e as [d n|n d|b|message]; cbn in Hh.
  - left. destruct (read_line_limited _ _ _) as [[r rd'] text]. injection Hh as <- <-. split_and!; [done..|].
    intros m id ->. by eapply smtp_step_line.
  - left. destruct (read_data _ _) as [r rd']. injection Hh as <- <-. split_and!; [done..|].
    intros m id ->. by eapply smtp_step_data.
  - left. assert (sw_store w' = sy_store s) by (destruct (t_write_faults t) as [|[|] ?]; injection Hh as <- _; done).
    split_and!; [done..|]. intros m id ->. by eapply smtp_step_write.
  - right. exists message. destruct (smtp_step_enqueue _ _ _ _ Hstep) as [Hsto ->].
    cbn [step]. destruct (enqueue clock message (sy_store s)) as [st r]. injection Hh as <- <-.
    split_and!; [done..|]. by exists r.
Qed.

(** A message is stored: its row is recorded, and an answered id is that row's. *)
Lemma stored_moved s s' clock message n r :
  is_u64 (q_max_len (cfg_queue config)) -> invariant s -> storable message ->
  sy_store s' = with_notified n (step (OpEnqueue clock message) (sy_store s)).1 ->
  (step (OpEnqueue clock message) (sy_store s)).2 = event_of (EvEnqueued clock message) r ->
  sy_sunk s' = sy_sunk s ->
  sy_enqueued s' = sy_enqueued s ++ (match r with Ok id => [(id, message)] | Err _ => [] end) ->
  store_moved (event_of (EvEnqueued clock message) r) s s' /\ keeps_entries (event_of (EvEnqueued clock message) r) /\
  db_wf (ms_db (sy_store s')) /\
  (ms_max_len (sy_store s') = q_max_len (cfg_queue config) /\ within_max_len (sy_store s')) /\
  (forall id e, q_entries (queue_of (ms_db (sy_store s'))) !! id = Some e -> (id, entry_message e) ∈ sy_enqueued s') /\
  (forall id, r = Ok id -> settled s' message id /\ (id, message) ∈ sy_enqueued s').
Proof.
  intros Hq Hok Hsto Hstore Hev Hsunk Hlog.
  destruct (op_moved (OpEnqueue clock message) n s s' I Hq Hok Hstore) as (Hmv & Hwf' & Hmax'); [by rewrite Hsunk|].
  rewrite Hev in Hmv. split; [done|]. split; [by destruct r as [|[]]|]. split; [done|]. split; [done|]. split.
  - intros id en Hen. rewrite Hlog.
    destruct (entries_origin _ _ _ _ _ (mv_step _ _ _ Hmv) Hen) as [(c & m & Hr & Hm)|(e0 & He0 & <-)].
    + apply event_of_enqueued in Hr as (a & -> & [= <- <- <-]). rewrite Hm, stored_form_id by done.
      apply elem_of_app. right. left.
    + apply elem_of_app. left. by apply (ok_entries _ Hok).
  - intros id ->. split; [|rewrite Hlog; apply elem_of_app; right; left].
    left. exists (mkEntry message 0 0). split; [|done].
    pose proof (mv_step _ _ _ Hmv) as Hqs. apply enqueued_inv in Hqs as (_ & _ & ->).
    cbn [q_entries]. rewrite lookup_insert_eq. by rewrite stored_form_id.
Qed.

Lemma session_effect_ok s i t X (e : SmtpE X) k clock w' x :
  is_u64 (q_max_len (cfg_queue config)) -> invariant s ->
  sy_sessions s !! i = Some t -> t_prog t = Vis e k ->
  smtp_handler X e (session_world t (sy_store s) clock) = (w', x) ->
  invariant (mkSys (sw_store w')
         (<[i := mkTask (k x) (sw_reader w') (sw_written w') (sw_write_faults w')
                   (default (t_phase t) (step_of (t_phase t) X e x))]> (sy_sessions s))
         (sy_worker s) (sy_shutdown s)
         (sy_enqueued s ++ log_enqueued e x) (sy_acked s ++ log_acked (t_phase t) e x) (sy_sunk s) (sy_orphans s)).
Proof.
  intros Hq Hok Hi Hprog Hh. destruct (ok_sessions _ Hok i t Hi) as [Hc Hst]. rewrite Hprog in Hc.
  pose proof (smtp_handler_rely X e (session_world t (sy_store s) clock)) as Hrely. rewrite Hh in Hrely.
  specialize (Hc x Hrely). destruct (step_of (t_phase t) X e x) as [ph'|] eqn:Hstep; [|done].
  cbn [default from_option id].
  set (t' := mkTask (k x) (sw_reader w') (sw_written w') (sw_write_faults w') ph').
  match goal with |- invariant ?x => set (s' := x) end.
  assert (Z.of_nat (size (sy_sessions s')) <= permits config) as Hperm.
  { cbn. rewrite map_size_insert_Some by (by exists t). apply Hok. }
  assert (forall j t0, sy_sessions s' !! j = Some t0 -> sy_sessions s !! j = Some t0 \/ t0 = t') as Hsess.
  { cbn. intros j t0 [[_ <-]|[_ H]]%lookup_insert_Some; auto. }
  assert (forall id m, (id, m) ∈ sy_acked s' -> (id, m) ∈ sy_acked s \/ (settled s m id /\ (id, m) ∈ sy_enqueued s)) as Hack.
  { cbn. intros id m [H|H]%elem_of_app; [by left|right]. destruct e; cbn in H; try by apply not_elem_of_nil in H.
    destruct (t_phase t) eqn:Eph; try by apply not_elem_of_nil in H. destruct x; [|by apply not_elem_of_nil in H].
    apply list_elem_of_singleton in H as [= -> ->]. by apply Hst. }
  destruct (session_effect_cases s t X e clock w' x ph' Hh Hstep)
    as [(Hstore & Hlog & Hns)|(message & Hstore & Hsto & r & Hev & Hph' & Hlog & _)].
  - eapply (same_store_frame s s'); try done; [|cbn; by rewrite Hlog, app_nil_r|apply Hok].
    intros j t0 Hj. destruct (Hsess j t0 Hj) as [| ->]; [by left|right]. split; [done|].
    intros m id Heq. by destruct (Hns m id).
  - destruct (stored_moved s s' clock message _ r Hq Hok Hsto (with_notified_eq _ _ Hstore) Hev)
      as (Hmv & Hk & Hwf' & Hmax' & Hent & Hset); [done|cbn; by rewrite Hlog|].
    eapply (session_frame _ s s'); try done.
    + intros j t0 Hj. destruct (Hsess j t0 Hj) as [| ->]; [by left|right]. split; [done|].
      intros m id Heq. cbn in Heq. rewrite Hph' in Heq. destruct r as [id'|]; [|done]. injection Heq as <- <-.
      by apply Hset.
    + by apply prefix_app_r.
    + apply Hok.
Qed.

Lemma sessions_delete_le i (tasks : gmap nat Task) : (size (delete i tasks) <= size tasks)%nat.
Proof. rewrite map_size_delete. destruct (_ !! _); simpl; lia. Qed.

(** A session is dropped while it awaits [enqueue], which goes on .. *)
Lemma orphan_ok s i t m k :
  invariant s -> sy_sessions s !! i = Some t -> t_prog t = Vis (Enqueue m) k -> invariant (orphan s i m).
Proof.
  intros Hok Hi Hprog. destruct (ok_sessions _ Hok i t Hi) as [Hc _]. rewrite Hprog in Hc.
  assert (storable m) as Hsto.
  { specialize (Hc (Ok 1)). destruct (step_of (t_phase t) _ (Enqueue m) (Ok 1)) as [ph'|] eqn:Hstep;
      [by apply smtp_step_enqueue in Hstep as [? _]|]. destruct Hc. cbn. unfold i64_max. lia. }
  eapply (same_store_frame s); try done.
  - cbn. pose proof (ok_permits _ Hok). pose proof (sessions_delete_le i (sy_sessions s)). lia.
  - cbn. intros j t0 [_ Hj]%lookup_delete_Some. by left.
  - cbn. by left.
  - cbn. apply Forall_app. split; [apply Hok|by constructor].
Qed.

(** .. and stores the message. *)
Lemma orphan_done_ok s j m clock st' r :
  is_u64 (q_max_len (cfg_queue config)) -> invariant s -> sy_orphans s !! j = Some m ->
  enqueue_commit clock m (sy_store s) = (st', r) -> invariant (orphan_done s j m st' r).
Proof.
  intros Hq Hok Hj Hcommit. pose proof (ok_orphans _ Hok) as Horph.
  assert (storable m) as Hsto by (by eapply (Forall_lookup_1 storable)).
  rewrite enqueue_commit_enqueue in Hcommit. injection Hcommit as Hst Hr.
  destruct (stored_moved s (orphan_done s j m st' r) clock m (ms_notified (sy_store s)) r Hq Hok Hsto)
    as (Hmv & Hk & Hwf' & Hmax' & Hent & _); [|subst r|done|done|].
  { cbn. subst st'. by destruct (enqueue clock m (sy_store s)). }
  { cbn. by destruct (enqueue clock m (sy_store s)). }
  eapply (session_frame _ s); try done.
  - apply Hok.
  - by left.
  - by apply prefix_app_r.
  - by left.
  - by apply Forall_delete.
Qed.
End Invariant.

(** ** Schedules *)

Lemma worker_exec_answer clock sink sh st {X} (e : WE X) st' x :
  worker_exec clock sink sh st e = (st', x) -> worker_answer sh st e x st'.
Proof. destruct e; cbn; eauto; by intros [= <- <-]. Qed.

Lemma exec_action_step v pm config path a s s' :
  exec_action v pm config path a s = Some s' -> sys_step v pm config path s s'.
Proof.
  destruct a as [i fuel rd faults|i clock|i|i|j clock|clock sink| |faults|dead]; cbn.
  - destruct (sy_sessions s !! i) eqn:Hi; [done|]. intros [= <-].
    destruct (Z.ltb_spec (Z.of_nat (size (sy_sessions s))) (permits config)); cbn; [by apply sys_accept|by apply sys_reject].
  - destruct (sy_sessions s !! i) as [t|] eqn:Hi; [|done]. destruct (t_prog t) as [|X e k] eqn:Hp; [done|].
    destruct (smtp_handler X e _) as [w' x] eqn:Hh. intros [= <-]. by eapply sys_session.
  - intros [= <-]. apply sys_session_end.
  - destruct (sy_sessions s !! i) as [t|] eqn:Hi; [|done]. destruct (t_prog t) as [|X e k] eqn:Hp; [done|].
    destruct e; try done. intros [= <-]. by eapply sys_session_dropped.
  - destruct (sy_orphans s !! j) as [m|] eqn:Hj; [|done]. destruct (enqueue_commit _ _ _) as [st' r] eqn:Hc.
    intros [= <-]. by eapply sys_orphan_done.
  - destruct (sy_worker s) as [p|p|] eqn:Hw; [| |done].
    + destruct p as [[|[sink'|]]|X e k]; [intros [= <-]..|].
      * by apply sys_connect_again.
      * by eapply sys_connected.
      * by apply sys_connect_stop.
      * destruct (worker_exec _ _ _ _ e) as [st' x] eqn:He. intros [= <-].
        eapply sys_connecting; [done|by eapply worker_exec_answer].
    + destruct p as [[|[]]|X e k]; [intros [= <-]..|].
      * by apply sys_again.
      * by apply sys_stop.
      * destruct (worker_exec _ _ _ _ e) as [st' x] eqn:He. intros [= <-].
        eapply sys_running; [done|by eapply worker_exec_answer].
  - intros [= <-]. apply sys_signal.
  - destruct (restart _ _ _ _) eqn:Hr; [|done]. intros [= <-]. by eapply sys_restart.
  - intros [= <-]. destruct dead.
    + eapply (sys_monitor _ _ _ _ _ _ DeadLetterLen). cbn. apply surjective_pairing.
    + eapply (sys_monitor _ _ _ _ _ _ Len). cbn. apply surjective_pairing.
Qed.

Lemma exec_steps v pm config path actions s s' :
  exec v pm config path actions s = Some s' -> rtc (sys_step v pm config path) s s'.
Proof.
  revert s. induction actions as [|a actions IH]; intros s; cbn; [by intros [= <-]|].
  destruct (exec_action v pm config path a s) as [s1|] eqn:Ha; [|done].
  intros H. eapply rtc_l; [by eapply exec_action_step|by apply IH].
Qed.

Lemma exec_reachable v pm config path faults actions s s' :
  reachable v pm config path faults s -> exec v pm config path actions s = Some s' ->
  reachable v pm config path faults s'.
Proof.
  revert s. induction actions as [|a actions IH]; intros s Hs; cbn; [by intros [= <-]|].
  destruct (exec_action v pm config path a s) as [s1|] eqn:Ha; [|done].
  intros H. eapply IH; [|exact H]. eapply reach_step; [done|by eapply exec_action_step].
Qed.
