(* ===== verification/SystemProps.v ===== *)
(** * Properties of the whole service

    What the operator of the service may rely on, for every interleaving of sessions,
    worker, faults, shutdowns and restarts. *)

From S2P Require Import Prelude RustStr Error Effects Store StoreFacts StoreSpec StoreProps Worker Reader Mime.
From S2P Require Import ConfigData Net Config ConfigProps Session Serve SessionFacts SessionProps Main System SystemFacts.

Section Reachable.
Variable validate_email : str -> bool.
Variable parse_mail : bytes -> option ParsedMail.
Variable config : Config.
Variable path : str.
Hypothesis Hmax : is_u64 (q_max_len (cfg_queue config)).
Hypothesis Hpath : path <> lit ":memory:".

Abbreviation invariant := (sys_ok validate_email parse_mail config).
Abbreviation sstep := (sys_step validate_email parse_mail config path).

Lemma new_session_ok s fuel rd faults :
  task_ok validate_email parse_mail s (new_session validate_email parse_mail config fuel rd faults).
Proof. split; [by apply handle_connection_conforms|done]. Qed.

(** A new process on the tables of the last one. *)
Lemma restart_sys_ok s faults st' :
  invariant s -> restart path (q_max_len (cfg_queue config)) (sy_store s) faults = Ok st' ->
  invariant (mkSys st' ∅ (Connecting (reconnect_body RECONNECT_BACKOFF_SECONDS)) false
    (sy_enqueued s) (sy_acked s) (sy_sunk s) []).
Proof.
  intros Hok Hr. destruct (restart_ok _ _ _ _ _ Hpath Hr) as (Hdb & Hml & _).
  match goal with |- invariant ?x => set (s' := x) end.
  assert (store_moved (EvFailed ChimneyError.QueueFull) s s') as Hmv.
  { apply no_move; [apply Hok|done|done]. }
  destruct Hok as [Hwf [Heq Hw] _ _ _ Hent Hack Hsunk _]. split; cbn.
  - by rewrite Hdb.
  - split; [done|]. unfold within_max_len in *. by rewrite Hml, Hdb, <- Heq.
  - rewrite map_size_empty. unfold permits. lia.
  - intros i t. by rewrite lookup_empty.
  - exists WIdle. split; [exact I|]. apply reconnect_body_conforms.
  - intros id e. rewrite Hdb. apply Hent.
  - intros id m [H1 H2]%Hack. split; [|done]. by eapply (settled_kept (EvFailed ChimneyError.QueueFull)).
  - done.
  - constructor.
Qed.

Lemma sys_step_ok s s' : invariant s -> sstep s s' -> invariant s'.
Proof.
  intros Hok Hstep. destruct Hstep as [s i fuel rd faults Hsize Hnone|s Hsize|s i t X e k clock w' x Hi Hp Hh|s i
    |s i t m k Hi Hp|s j m clock st' r Hj Hc|s X e k x st' Hw Ha|s Hw|s Hw|s sink Hw|s X e k x st' Hw Ha|s Hw|s Hw|s|s faults st' Hr|s X e x st' Ha].
  - eapply (same_store_frame _ _ _ s); try done.
    + cbn. rewrite map_size_insert_None by done. lia.
    + cbn. intros j t [[_ <-]|[_ H]]%lookup_insert_Some; [right; apply new_session_ok|by left].
    + by left.
    + apply Hok.
  - done.
  - by eapply session_effect_ok.
  - eapply (same_store_frame _ _ _ s); try done.
    + cbn. pose proof (ok_permits _ _ _ _ Hok). pose proof (sessions_delete_le i (sy_sessions s)). lia.
    + cbn. intros j t [_ H]%lookup_delete_Some. by left.
    + by left.
    + apply Hok.
  - by eapply orphan_ok.
  - by eapply orphan_done_ok.
  - destruct (ok_worker _ _ _ _ Hok) as (ph & Hph & Hc). rewrite Hw in Hc.
    eapply worker_effect_ok; try done. intros s' Hw' ph' Hph' Hc'. exists ph'. split; [done|]. by rewrite Hw'.
  - apply worker_round_ok; [done|]. intros s' Hw'. exists WIdle. split; [done|]. rewrite Hw'. apply reconnect_body_conforms.
  - apply worker_round_ok; [done|]. intros s' Hw'. exists WIdle. split; [done|]. by rewrite Hw'.
  - apply worker_round_ok; [done|]. intros s' Hw'. exists WIdle. split; [done|]. rewrite Hw'. apply run_body_conforms.
  - destruct (ok_worker _ _ _ _ Hok) as (ph & Hph & Hc). rewrite Hw in Hc.
    eapply worker_effect_ok; try done. intros s' Hw' ph' Hph' Hc'. exists ph'. split; [done|]. by rewrite Hw'.
  - apply worker_round_ok; [done|]. intros s' Hw'. exists WIdle. split; [done|]. rewrite Hw'. apply run_body_conforms.
  - apply worker_round_ok; [done|]. intros s' Hw'. exists WIdle. split; [done|]. by rewrite Hw'.
  - eapply (same_store_frame _ _ _ s); try done; [apply Hok|by left|by left|apply Hok].
  - by eapply restart_sys_ok.
  - by eapply monitor_effect_ok.
Qed.

Lemma sys_init_ok faults : invariant (sys_init config faults).
Proof.
  split; cbn; try done.
  - apply SCHEMA_db_wf.
  - split; [done|]. unfold within_max_len. cbn. lia.
  - rewrite map_size_empty. unfold permits. lia.
  - exists WIdle. split; [exact I|]. apply reconnect_body_conforms.
  - by intros id m ?%not_elem_of_nil.
  - by intros id m ?%not_elem_of_nil.
Qed.

Lemma reachable_ok faults s : reachable validate_email parse_mail config path faults s -> invariant s.
Proof. induction 1 as [|s s' _ IH Hstep]; [apply sys_init_ok|by eapply sys_step_ok]. Qed.
End Reachable.

(** C6: no acknowledged mail is lost.  In every state the service can reach, whatever
    the clients, the sink, the storage faults, the interleaving, and however often the
    process was stopped and restarted, each message whose client was answered [250] was
    stored, and is still in the outbox under its id, or was accepted by the sink under
    the key of that id, or stands in the dead-letter table. *)
Theorem no_acknowledged_message_lost (validate_email : str -> bool) (parse_mail : bytes -> option ParsedMail)
    (config : Config) (path : str) (faults : list (option str)) (s : Sys)
    (Hmax : is_u64 (q_max_len (cfg_queue config))) (Hpath : path <> lit ":memory:")
    (Hreach : reachable validate_email parse_mail config path faults s) :
  forall id m, (id, m) ∈ sy_acked s -> settled s m id /\ (id, m) ∈ sy_enqueued s.
Proof.
  intros id m. apply (ok_acked validate_email parse_mail config).
  by apply (reachable_ok validate_email parse_mail config path Hmax Hpath faults).
Qed.

(** the sink is only given mail that was received: each message it accepted was
    stored by a session, and it was accepted under the key of that message's id, so that
    a redelivery repeats the key of the first delivery and no other message's. *)
Theorem sink_gets_only_received_mail (validate_email : str -> bool) (parse_mail : bytes -> option ParsedMail)
    (config : Config) (path : str) (faults : list (option str)) (s : Sys)
    (Hmax : is_u64 (q_max_len (cfg_queue config))) (Hpath : path <> lit ":memory:")
    (Hreach : reachable validate_email parse_mail config path faults s) :
  forall key m, (key, m) ∈ sy_sunk s -> exists id, key = idempotency_key id /\ (id, m) ∈ sy_enqueued s.
Proof.
  apply (ok_sunk validate_email parse_mail config).
  by apply (reachable_ok validate_email parse_mail config path Hmax Hpath faults).
Qed.

(** C31: the service's resources are bounded in every reachable state: never more
    sessions than permits, never more rows in the outbox than [max_len] when it is set,
    and the tables stay well formed across restarts. *)
Theorem service_is_bounded (validate_email : str -> bool) (parse_mail : bytes -> option ParsedMail)
    (config : Config) (path : str) (faults : list (option str)) (s : Sys)
    (Hmax : is_u64 (q_max_len (cfg_queue config))) (Hpath : path <> lit ":memory:")
    (Hreach : reachable validate_email parse_mail config path faults s) :
  Z.of_nat (size (sy_sessions s)) <= Z.max (smtp_max_connections (cfg_smtp config)) 1 /\
  (0 < q_max_len (cfg_queue config) ->
     Z.of_nat (length (db_outbox (ms_db (sy_store s)))) <= q_max_len (cfg_queue config)) /\
  db_wf (ms_db (sy_store s)).
Proof.
  pose proof (reachable_ok validate_email parse_mail config path Hmax Hpath faults s Hreach) as Hok.
  split_and!; [apply (ok_permits _ _ _ _ Hok)| |apply (ok_wf _ _ _ _ Hok)].
  destruct (ok_max _ _ _ _ Hok) as [Heq Hw]. unfold within_max_len in Hw. by rewrite Heq in Hw.
Qed.

(** ** An execution

    A client delivers a message, the process is restarted, and the worker of the second
    process hands it to the sink. *)
Definition day_config : Config :=
  mkConfig (mkSmtpConfig (lit "127.0.0.1:2525") 100 30 1 300) bot_matrix
    (mkLogging (lit "info") (lit "json")) (mkQueueConfig 5 60 (lit "queue.db") 3).
Lemma day_config_validates : validate toy_url toy_user toy_room day_config = Ok tt.
Proof. vm_compute. reflexivity. Qed.
Definition day_reader : list io_event := [Chunk (client_bytes (lit "a@x") [lit "b@x"] note_lines)].
Definition day_message : Message := mkMessage (Some (lit "a@x")) [lit "b@x"] (Some (lit "disk")) (lit ".full").
Definition day_path : str := lit "queue.db".
Definition day : list action :=
  [WorkerStep 1000 (Ok tt); Accept 0 200 day_reader []] ++ replicate 14 (SessionStep 0 1000) ++
  [Restart []] ++ replicate 8 (WorkerStep 1010 (Ok tt)) ++ [Accept 1 5 [] []].

Definition end_of_day : option Sys := exec toy_email no_mime day_config day_path day (sys_init day_config []).

Definition after_day : Sys := default (sys_init day_config []) end_of_day.

Lemma day_reachable : reachable toy_email no_mime day_config day_path [] after_day.
Proof.
  unfold after_day. destruct end_of_day as [s|] eqn:Hs; [|apply reach_init].
  eapply exec_reachable; [apply reach_init|exact Hs].
Qed.

Lemma no_acknowledged_message_lost_witness :
  sy_acked after_day = [(1, day_message)] /\ settled after_day day_message 1 /\ (1, day_message) ∈ sy_enqueued after_day.
Proof.
  assert (sy_acked after_day = [(1, day_message)]) as Hack by (vm_compute; reflexivity).
  split; [exact Hack|].
  apply (no_acknowledged_message_lost toy_email no_mime day_config day_path [] after_day).
  - split; vm_compute; discriminate.
  - discriminate.
  - exact day_reachable.
  - rewrite Hack. left.
Defined.

Lemma sink_gets_only_received_mail_witness :
  exists id, idempotency_key 1 = idempotency_key id /\ (id, day_message) ∈ sy_enqueued after_day.
Proof.
  apply (sink_gets_only_received_mail toy_email no_mime day_config day_path [] after_day).
  - split; vm_compute; discriminate.
  - discriminate.
  - exact day_reachable.
  - assert (sy_sunk after_day = [(idempotency_key 1, day_message)]) as -> by (vm_compute; reflexivity). left.
Defined.

Lemma service_is_bounded_witness :
  size (sy_sessions after_day) = 1%nat /\ Z.of_nat (size (sy_sessions after_day)) <= 1 /\
  (0 < 3 -> Z.of_nat (length (db_outbox (ms_db (sy_store after_day)))) <= 3) /\ db_wf (ms_db (sy_store after_day)).
Proof.
  split; [vm_compute; reflexivity|].
  apply (service_is_bounded toy_email no_mime day_config day_path [] after_day).
  - split; vm_compute; discriminate.
  - discriminate.
  - exact day_reachable.
Defined.
