(* ===== verification/Process.v ===== *)
(** * The whole process

    [main] of [src/src/main.rs] together with the tasks it spawns: the accept loop, the
    sessions with their deadlines, the worker and the monitor, on one clock.  [System]
    lets its tasks run, its shutdown flag rise and its process restart at any time; here
    they do so when [main] makes them, and the process refines the service.  The abort of
    the accept loop takes effect at the loop's next [accept], as [JoinHandle::abort] is
    documented: until then it goes on.  [load_default] answers the configuration only if
    [validate] accepts it.  The timers of the sessions and of the drain are on the clock;
    the waits of the worker and of the monitor may end at any time.  A panic aborts the
    process, so that no task ends by one. *)

From S2P Require Import Prelude RustStr Error Effects Store StoreFacts StoreSpec StoreProps Worker WorkerFacts Reader Mime.
From S2P Require Import ConfigData Formatter Net Config Session Serve SessionFacts SessionProps Main System SystemFacts SystemProps.

(** A connection: a fresh id for its session, with the peer's script, the write faults
    to come and the fuel of the session's loop. *)
Abbreviation conn := (nat * nat * list io_event * list (option str))%type.

Record Proc : Type := mkProc {
  pr_sys : Sys;
  pr_main : prog MainE (Result unit);                   (** what is left of [main] *)
  pr_open : bool;                                       (** this process has opened the outbox *)
  pr_accept : option (prog (ServeE conn) unit);         (** the rest of a round of [serve_smtp] *)
  pr_aborting : bool;                                   (** the cancellation of that task is scheduled *)
  pr_deadlines : gmap nat Z;                            (** when the timer of each session fires *)
  pr_worker : bool;                                     (** the worker is spawned *)
  pr_monitor : option (Z * prog MonitorE (option Z));   (** its interval, the rest of its round *)
  pr_connected : bool;
  pr_time : Z;
  pr_draining : option Z;                               (** since when [main] waits for the worker *)
  pr_told : list NotifyState;                           (** what systemd was told *)
}.

Definition with_sys (p : Proc) (s : Sys) : Proc :=
  mkProc s (pr_main p) (pr_open p) (pr_accept p) (pr_aborting p) (pr_deadlines p) (pr_worker p) (pr_monitor p) (pr_connected p)
    (pr_time p) (pr_draining p) (pr_told p).
Definition with_main (p : Proc) (m : prog MainE (Result unit)) : Proc :=
  mkProc (pr_sys p) m (pr_open p) (pr_accept p) (pr_aborting p) (pr_deadlines p) (pr_worker p) (pr_monitor p) (pr_connected p)
    (pr_time p) (pr_draining p) (pr_told p).
Definition with_accept (p : Proc) (a : option (prog (ServeE conn) unit)) : Proc :=
  mkProc (pr_sys p) (pr_main p) (pr_open p) a (pr_aborting p) (pr_deadlines p) (pr_worker p) (pr_monitor p) (pr_connected p)
    (pr_time p) (pr_draining p) (pr_told p).
(** [JoinHandle::abort] of the accept task only schedules its cancellation. *)
Definition with_aborting (p : Proc) : Proc :=
  mkProc (pr_sys p) (pr_main p) (pr_open p) (pr_accept p) true (pr_deadlines p) (pr_worker p) (pr_monitor p) (pr_connected p)
    (pr_time p) (pr_draining p) (pr_told p).
Definition with_deadlines (p : Proc) (d : gmap nat Z) : Proc :=
  mkProc (pr_sys p) (pr_main p) (pr_open p) (pr_accept p) (pr_aborting p) d (pr_worker p) (pr_monitor p) (pr_connected p)
    (pr_time p) (pr_draining p) (pr_told p).
Definition with_monitor (p : Proc) (m : option (Z * prog MonitorE (option Z))) : Proc :=
  mkProc (pr_sys p) (pr_main p) (pr_open p) (pr_accept p) (pr_aborting p) (pr_deadlines p) (pr_worker p) m (pr_connected p)
    (pr_time p) (pr_draining p) (pr_told p).
Definition with_connected (p : Proc) (c : bool) : Proc :=
  mkProc (pr_sys p) (pr_main p) (pr_open p) (pr_accept p) (pr_aborting p) (pr_deadlines p) (pr_worker p) (pr_monitor p) c
    (pr_time p) (pr_draining p) (pr_told p).
Definition with_time (p : Proc) (t : Z) : Proc :=
  mkProc (pr_sys p) (pr_main p) (pr_open p) (pr_accept p) (pr_aborting p) (pr_deadlines p) (pr_worker p) (pr_monitor p) (pr_connected p)
    t (pr_draining p) (pr_told p).
Definition tell (p : Proc) (states : list NotifyState) : Proc :=
  mkProc (pr_sys p) (pr_main p) (pr_open p) (pr_accept p) (pr_aborting p) (pr_deadlines p) (pr_worker p) (pr_monitor p) (pr_connected p)
    (pr_time p) (pr_draining p) (pr_told p ++ states).

(** A process that was just started; the tables are what the last one left. *)
Definition boot (time : Z) (s : Sys) : Proc := mkProc s main false None false ∅ false None false time None [].

Definition is_stopped (w : WTask) : bool := match w with Stopped => true | _ => false end.

(** What happens next, with the answers of the outside. *)
Inductive proc_action : Type :=
| Starts                                  (** the process is started, after a stop or a crash *)
| MainStep (failure : option ChimneyError.t) (event : main_event) (faults : list (option str))
| AcceptStep (next : result str conn)
| AcceptCancelled                         (** the runtime drops the accept task *)
| SessionMoves (i : nat)
| SessionFinishes (i : nat)
| SessionDrops (i : nat) (enqueuing : bool)   (** [enqueuing]: in the middle of an enqueue *)
| ClosureRuns (j : nat)
| WorkerMoves (connect sink : Result unit)
| MonitorMoves (timer : bool)
| Passes (seconds : nat).

Section Process.
Context {Url UserId RoomId Env Template : Type} `{Hjinja : Minijinja Env Template}.
Variable parse_url : str -> result str Url.
Variable parse_user_id : str -> result str UserId.
Variable parse_owned_room_id : str -> result str RoomId.
Variable validate_email : str -> bool.
Variable parse_mail : bytes -> option ParsedMail.
Variable config : Config.

Abbreviation queue := (cfg_queue config).
Abbreviation path := (q_db_path queue).
Abbreviation sys_exec := (exec_action validate_email parse_mail config path).

(** ** [main] *)

(** Which arms of the [select!] of [main] can be taken: a task's when it has ended, a
    signal's at any time. *)
Definition event_ready (p : Proc) (event : main_event) : bool :=
  match event with
  | SmtpEnded _ => match pr_accept p with None => true | Some _ => false end
  | WorkerEnded (Ok _) => is_stopped (sy_worker (pr_sys p))
  | WorkerEnded (Err _) => false        (* a panic aborts the process *)
  | CtrlC | Sigterm => true
  end.

Definition or_fail {E A} (failure : option E) (a : A) : result E A :=
  match failure with None => Ok a | Some e => Err e end.

(** What [load_default] answers of the [config] that was read: it ends with [validate]. *)
Definition loaded (failure : option ChimneyError.t) : Result Config :=
  match failure with
  | Some e => Err e
  | None => _ ← validate parse_url parse_user_id parse_owned_room_id config; Ok config
  end.

(** One call of [main], when it returns: the process after it, and its answer. *)
Definition main_exec (failure : option ChimneyError.t) (event : main_event) (faults : list (option str)) (p : Proc)
    {X} (e : MainE X) : option (Proc * X) :=
  match e in MainE X return option (Proc * X) with
  | LoadDefault => Some (p, loaded failure)
  | TryFilter _ => Some (p, or_fail (ChimneyError.to_string <$> failure) tt)
  | InitSubscriber _ => Some (p, tt)
  | OpenStore file max_len =>
      match restart file max_len (sy_store (pr_sys p)) faults with
      | Ok st =>
          let s := pr_sys p in
          let s' := mkSys st ∅ (Connecting (reconnect_body RECONNECT_BACKOFF_SECONDS)) false
                      (sy_enqueued s) (sy_acked s) (sy_sunk s) [] in
          Some (mkProc s' (pr_main p) true (pr_accept p) (pr_aborting p) (pr_deadlines p) (pr_worker p) (pr_monitor p) (pr_connected p)
                  (pr_time p) (pr_draining p) (pr_told p), Ok tt)
      | Err error => Some (p, Err error)
      end
  | BindSmtp _ => Some (p, or_fail failure tt)
  | Notify states => Some (tell p states, tt)
  | SpawnSmtp config => Some (with_accept p (Some (serve_round config)), tt)
  | SpawnWorker max_retries retry_backoff reconnect_backoff =>
      (* the worker task of [System] is built from these *)
      if bool_decide (max_retries = q_max_retries queue /\ retry_backoff = q_retry_backoff queue /\
                      reconnect_backoff = RECONNECT_BACKOFF_SECONDS)
      then Some (mkProc (pr_sys p) (pr_main p) (pr_open p) (pr_accept p) (pr_aborting p) (pr_deadlines p) true (pr_monitor p) (pr_connected p)
                   (pr_time p) (pr_draining p) (pr_told p), tt)
      else None
  | SpawnMonitor interval => Some (with_monitor p (Some (interval, monitor_round interval 0)), tt)
  | UnixSignal => Some (p, or_fail (ChimneyError.to_string <$> failure) tt)
  | Select => if event_ready p event then Some (p, event) else None
  | AbortSmtp => Some (with_aborting p, tt)
  | SendShutdown =>
      (* the timer of the [timeout(..)] that follows starts at once *)
      let s := pr_sys p in
      let s' := mkSys (sy_store s) (sy_sessions s) (sy_worker s) true (sy_enqueued s) (sy_acked s) (sy_sunk s) (sy_orphans s) in
      Some (mkProc s' (pr_main p) (pr_open p) (pr_accept p) (pr_aborting p) (pr_deadlines p) (pr_worker p) (pr_monitor p) (pr_connected p)
              (pr_time p) (Some (pr_time p)) (pr_told p), tt)
  | AwaitWorker seconds =>
      match pr_draining p with
      | None => None
      | Some since =>
          if is_stopped (sy_worker (pr_sys p)) then Some (p, Drained (Ok tt))
          else if since + seconds <=? pr_time p then Some (p, DrainTimedOut)
          else None
      end
  | AbortMonitor => Some (with_monitor p None, tt)
  end.

(** ** The tasks *)

(** They run from the opening of the outbox until [main] returns. *)
Definition tasks_run (p : Proc) : bool :=
  pr_open p && match pr_main p with Vis _ _ => true | Ret _ => false end.

(** [main] has returned: the runtime drops the tasks that are left and waits for the
    closures that run. *)
Definition exits (p : Proc) : bool :=
  pr_open p && match pr_main p with Vis _ _ => false | Ret _ => true end.

Definition accept_exec (next : result str conn) (p : Proc) {X} (e : ServeE conn X) : option (Proc * X) :=
  match e in ServeE _ X return option (Proc * X) with
  | AcceptConn =>
      match next with
      | Ok (i, _, _, _) => match sy_sessions (pr_sys p) !! i with None => Some (p, next) | Some _ => None end
      | Err _ => Some (p, next)
      end
  | TryAcquire => Some (p, Z.of_nat (size (sy_sessions (pr_sys p))) <? permits config)
  | SpawnReject _ _ => Some (p, tt)
  | SpawnSession (i, fuel, rd, faults) deadline =>
      let t := new_session validate_email parse_mail config fuel rd faults in
      Some (with_deadlines (with_sys p (set_sessions (pr_sys p) (<[i := t]> (sy_sessions (pr_sys p)))))
              (<[i := pr_time p + deadline]> (pr_deadlines p)), tt)
  end.

(** The task is dropped at an await, and the only await of [serve_smtp] is [accept]:
    until then the loop may take more connections, that were waiting. *)
Definition accept_cancelled (p : Proc) : option Proc :=
  match pr_accept p with
  | Some (Vis AcceptConn _) => if pr_aborting p then Some (with_accept p None) else None
  | _ => None
  end.

Definition session_over (t : Task) : bool := match t_prog t with Ret _ => true | Vis _ _ => false end.

(** [connected.store(true)] follows a [connect] that succeeds. *)
Definition connects {X} (e : WE X) : X -> bool :=
  match e in WorkerE _ _ X return X -> bool with
  | Connect => fun x => match x with Ok _ => true | Err _ => false end
  | _ => fun _ => false
  end.

Definition worker_answers (clock : Z) (connect sink : Result unit) (shutdown : bool) (s : MessageStore) {X} (e : WE X)
  : MessageStore * X :=
  match e in WorkerE _ _ X return MessageStore * X with
  | Connect => (s, connect)
  | e => worker_exec clock sink shutdown s e
  end.

(** One effect of [run_with_reconnect]; the waits of its selects may end at any time. *)
Definition worker_moves (connect sink : Result unit) (p : Proc) : option Proc :=
  let s := pr_sys p in
  match sy_worker s with
  | Connecting (Vis e k) =>
      let '(st, x) := worker_answers (pr_time p) connect sink (sy_shutdown s) (sy_store s) e in
      Some (with_connected (with_sys p (set_worker s st (Connecting (k x)) (log_sunk e x)))
              (pr_connected p || connects e x))
  | _ => with_sys p <$> sys_exec (WorkerStep (pr_time p) sink) s
  end.

Definition monitor_exec (timer : bool) (p : Proc) {X} (e : MonitorE X) : option (Proc * X) :=
  let s := pr_sys p in
  let reads (r : MessageStore * Result Z) := Some (with_sys p (set_worker s r.1 (sy_worker s) []), r.2) in
  match e in MonitorE X return option (Proc * X) with
  | MonNotify state => Some (tell p [state], tt)
  | Len => reads (len (sy_store s))
  | DeadLetterLen => reads (dead_letter_len (sy_store s))
  | LoadConnected => Some (p, pr_connected p)
  | WarnDeadLetter _ => Some (p, tt)
  | WarnQueuing _ => Some (p, tt)
  | SleepOrShutdown _ => if timer then Some (p, false) else if sy_shutdown s then Some (p, true) else None
  end.

Definition monitor_moves (timer : bool) (p : Proc) : option Proc :=
  match pr_monitor p with
  | Some (interval, Vis e k) =>
      '(p', x) ← monitor_exec timer p e; Some (with_monitor p' (Some (interval, k x)))
  | Some (interval, Ret (Some last)) => Some (with_monitor p (Some (interval, monitor_round interval last)))
  | Some (_, Ret None) => Some (with_monitor p None)
  | None => None
  end.

(** One action of the process; [None] when it is not possible. *)
Definition proc_exec (a : proc_action) (p : Proc) : option Proc :=
  match a with
  | Starts => Some (boot (pr_time p) (pr_sys p))
  | Passes seconds => Some (with_time p (pr_time p + Z.of_nat seconds))
  | MainStep failure event faults =>
      match pr_main p with
      | Vis e k => '(p', x) ← main_exec failure event faults p e; Some (with_main p' (k x))
      | Ret _ => None
      end
  | SessionDrops i enqueuing =>
      deadline ← pr_deadlines p !! i;
      if (tasks_run p && (deadline <=? pr_time p)) || exits p
      then with_sys p <$> sys_exec (if enqueuing : bool then SessionDropped i else SessionEnd i) (pr_sys p) else None
  | ClosureRuns j =>
      if pr_open p then with_sys p <$> sys_exec (OrphanDone j (pr_time p)) (pr_sys p) else None
  | _ =>
      if negb (tasks_run p) then None else
      match a with
      | AcceptStep next =>
          match pr_accept p with
          | Some (Vis e k) => '(p', x) ← accept_exec next p e; Some (with_accept p' (Some (k x)))
          | Some (Ret _) => Some (with_accept p (Some (serve_round config)))
          | None => None
          end
      | AcceptCancelled => accept_cancelled p
      | SessionMoves i => with_sys p <$> sys_exec (SessionStep i (pr_time p)) (pr_sys p)
      | SessionFinishes i =>
          t ← sy_sessions (pr_sys p) !! i;
          if session_over t then with_sys p <$> sys_exec (SessionEnd i) (pr_sys p) else None
      | WorkerMoves connect sink => if pr_worker p then worker_moves connect sink p else None
      | MonitorMoves timer => monitor_moves timer p
      | _ => None
      end
  end.

Fixpoint proc_run (actions : list proc_action) (p : Proc) : option Proc :=
  match actions with
  | [] => Some p
  | a :: actions' => p' ← proc_exec a p; proc_run actions' p'
  end.

(** The first process, before the outbox exists. *)
Definition proc_init (faults : list (option str)) (time : Z) : Proc := boot time (sys_init config faults).
End Process.
