(* ===== verification/ProcessFacts.v ===== *)
(** * The invariant of the process

    Where [main] is in its program and what that says of the process; what the accept
    loop holds between its calls; that the worker does not stop on its own. *)

From S2P Require Import Prelude RustStr Error Effects Store StoreFacts StoreSpec StoreProps Worker WorkerFacts Reader Mime.
From S2P Require Import ConfigData Formatter Net Config Session Serve SessionFacts SessionProps Main System SystemFacts SystemProps Process.

(** ** The worker, while the flag is down *)

Definition flag_down (X : Type) (e : WE X) : X -> Prop :=
  match e in WorkerE _ _ X return X -> Prop with ShutdownBorrow => fun x => x = false | _ => fun _ => True end.
Definition any_step (ph : unit) (X : Type) (e : WE X) (x : X) : option unit := Some tt.

Abbreviation goes_on := (conforms flag_down any_step).

Definition worker_goes_on (s : Sys) : Prop :=
  sy_shutdown s = false ->
  match sy_worker s with
  | Connecting q => goes_on (fun _ r => r <> Break None) tt q
  | Running q => goes_on (fun _ r => r = Continue) tt q
  | Stopped => False
  end.

Lemma reconnect_body_goes_on b : goes_on (fun _ r => r <> Break None) tt (reconnect_body (S := unit) (E := SinkE) b).
Proof. intros stop ->. cbn. intros [sink|e] _; cbn; [done|]. by intros y _. Qed.

Lemma run_body_goes_on w : goes_on (fun _ r => r = Continue) tt (run_body w).
Proof.
  intros now _. cbn. intros [[st|]|e] _; cbn.
  - intros [u|err] _; cbn; [by intros y _|]. unfold handle_failure. by destruct (_ <? _); intros y _.
  - intros stop ->. cbn. intros nw _. cbn. by intros y _.
  - intros y _. cbn. by intros stop ->.
Qed.

Section ProcessFacts.
Context {Url UserId RoomId Env Template : Type} `{Hjinja : Minijinja Env Template}.
Variable parse_url : str -> result str Url.
Variable parse_user_id : str -> result str UserId.
Variable parse_owned_room_id : str -> result str RoomId.
Variable validate_email : str -> bool.
Variable parse_mail : bytes -> option ParsedMail.
Variable config : Config.

Abbreviation queue := (cfg_queue config).
Abbreviation path := (q_db_path queue).
Abbreviation pexec := (proc_exec parse_url parse_user_id parse_owned_room_id validate_email parse_mail config).
Abbreviation prun := (proc_run parse_url parse_user_id parse_owned_room_id validate_email parse_mail config).
Abbreviation sstep := (sys_step validate_email parse_mail config path).
Abbreviation sys_exec := (exec_action validate_email parse_mail config path).

(** ** The accept loop between its calls *)

Inductive accept_phase : Type :=
| AcIdle
| AcConn (i : nat)
| AcPermit (i : nat).

Definition accept_step (ph : accept_phase) (X : Type) (e : ServeE conn X) : X -> option accept_phase :=
  match e in ServeE _ X return X -> option accept_phase with
  | AcceptConn => fun x => match x with Ok (i, _, _, _) => Some (AcConn i) | Err _ => Some AcIdle end
  | TryAcquire => fun b =>
      match ph with AcConn i => Some (if b : bool then AcPermit i else AcIdle) | _ => None end
  | SpawnReject _ _ => fun _ => Some AcIdle
  | SpawnSession (i, _, _, _) _ => fun _ =>
      match ph with AcPermit j => if bool_decide (i = j) then Some AcIdle else None | _ => None end
  end.

Lemma serve_round_conforms : conforms any_answer accept_step (fun _ _ => True) AcIdle (serve_round (Conn := conn) config).
Proof.
  intros [[[[i fuel] rd] faults]|e] _; cbn; [|done]. intros [] _; cbn; intros [] _; [|done].
  by rewrite bool_decide_eq_true_2.
Qed.

Definition accept_phase_ok (s : Sys) (ph : accept_phase) : Prop :=
  match ph with
  | AcIdle => True
  | AcConn i => sy_sessions s !! i = None
  | AcPermit i => sy_sessions s !! i = None /\ Z.of_nat (size (sy_sessions s)) < permits config
  end.

Definition accept_ok (p : Proc) : Prop :=
  match pr_accept p with
  | Some q => exists ph, accept_phase_ok (pr_sys p) ph /\ conforms any_answer accept_step (fun _ _ => True) ph q
  | None => True
  end.

(** ** The monitor *)

(** What it tells systemd: neither READY nor STOPPING. *)
Definition says_status (X : Type) (e : MonitorE X) : Prop :=
  match e with MonNotify st => st <> NotifyReady /\ st <> NotifyStopping | _ => True end.

Lemma monitor_round_says interval last : allowed says_status (monitor_round interval last).
Proof.
  unfold monitor_round. cbn. split; [done|]. intros _. split; [done|]. intros q. split; [done|]. intros d.
  split; [done|]. intros c. split; [done|]. intros _.
  destruct (last <? _), (negb c && _); cbn; repeat split; done.
Qed.
Definition monitor_ok (p : Proc) : Prop :=
  match pr_monitor p with Some (_, q) => allowed says_status q | None => True end.

(** ** Where [main] is

    [main_at n] is what is left of [main] after [n] calls that went well. *)
Definition goes_well (X : Type) (e : MainE X) : X :=
  match e in MainE X return X with
  | LoadDefault => Ok config
  | TryFilter _ => Ok tt
  | InitSubscriber _ => tt
  | OpenStore _ _ => Ok tt
  | BindSmtp _ => Ok tt
  | Notify _ => tt
  | SpawnSmtp _ => tt
  | SpawnWorker _ _ _ => tt
  | SpawnMonitor _ => tt
  | UnixSignal => Ok tt
  | Select => Sigterm
  | AbortSmtp => tt
  | SendShutdown => tt
  | AwaitWorker _ => Drained (Ok tt)
  | AbortMonitor => tt
  end.

Definition main_at (n : nat) : prog MainE (Result unit) := Nat.iter n (resume goes_well) main.

Record main_facts (n : nat) (p : Proc) : Prop := {
  mf_open : pr_open p = (4 <=? n)%nat;
  mf_ready : NotifyReady ∈ pr_told p <-> (6 <= n)%nat;
  mf_accept : is_Some (pr_accept p) -> (7 <= n)%nat;
  mf_serving : (7 <= n)%nat -> pr_aborting p = false -> is_Some (pr_accept p);
  mf_aborting : pr_aborting p = (13 <=? n)%nat;
  mf_worker : pr_worker p = (8 <=? n)%nat;
  mf_stopping : NotifyStopping ∈ pr_told p <-> (12 <= n)%nat;
  mf_draining : is_Some (pr_draining p) <-> (14 <= n)%nat;
  mf_flag : (4 <= n)%nat -> sy_shutdown (pr_sys p) = (14 <=? n)%nat;
  mf_sessions : (4 <= n <= 6)%nat -> sy_sessions (pr_sys p) = ∅;
  mf_drained : (15 <= n)%nat -> sy_worker (pr_sys p) = Stopped \/
    exists since, pr_draining p = Some since /\ since + SHUTDOWN_DRAIN_SECONDS <= pr_time p;
}.

(** [main] is somewhere in its program, or it failed: before it was ready, or because it
    could not listen for signals. *)
Definition main_ok (p : Proc) : Prop :=
  (exists n, (n <= 16)%nat /\ pr_main p = main_at n /\ main_facts n p) \/
  (exists e, pr_main p = Ret (Err e) /\ (NotifyReady ∈ pr_told p -> exists io, e = ChimneyError.Io io)).

(** A step of a task, of the clock: [main] stays where it is. *)
Record others_move (p p' : Proc) : Prop := {
  om_main : pr_main p' = pr_main p;
  om_open : pr_open p' = pr_open p;
  om_accept : is_Some (pr_accept p') -> is_Some (pr_accept p);
  om_serving : pr_aborting p = false -> is_Some (pr_accept p) -> is_Some (pr_accept p');
  om_aborting : pr_aborting p' = pr_aborting p;
  om_spawned : pr_worker p' = pr_worker p;
  om_draining : pr_draining p' = pr_draining p;
  om_time : pr_time p <= pr_time p';
  om_told : forall st, st = NotifyReady \/ st = NotifyStopping -> st ∈ pr_told p' <-> st ∈ pr_told p;
  om_flag : sy_shutdown (pr_sys p') = sy_shutdown (pr_sys p);
  om_stopped : sy_worker (pr_sys p) = Stopped -> sy_worker (pr_sys p') = Stopped;
  om_sessions : pr_accept p = None -> forall i, sy_sessions (pr_sys p) !! i = None -> sy_sessions (pr_sys p') !! i = None;
}.

Lemma main_facts_kept n p p' : others_move p p' -> main_facts n p -> main_facts n p'.
Proof.
  intros [Hm Ho Ha Hsv Hab Hw Hd Ht Htold Hf Hst Hse] [Fo Fr Fa Fv Fb Fw Fs Fd Ff Fe Fn]. split.
  - by rewrite Ho.
  - rewrite Htold by (by left). done.
  - by intros ?%Ha%Fa.
  - rewrite Hab. intros Hn Hb. by apply Hsv, Fv.
  - by rewrite Hab.
  - by rewrite Hw.
  - rewrite Htold by (by right). done.
  - by rewrite Hd.
  - by rewrite Hf.
  - intros Hn. apply map_empty. intros i. apply Hse; [|by rewrite Fe, lookup_empty].
    destruct (pr_accept p); [|done]. exfalso. assert (7 <= n)%nat by (by apply Fa). lia.
  - intros Hn. destruct (Fn Hn) as [H|(since & H1 & H2)]; [left; by apply Hst|right].
    exists since. rewrite Hd. split; [done|lia].
Qed.

Lemma main_ok_kept p p' : others_move p p' -> main_ok p -> main_ok p'.
Proof.
  intros Hmv [(n & Hn & Hm & Hf)|(e & Hm & Hr)]; [left|right].
  - exists n. rewrite (om_main _ _ Hmv). split_and!; [done..|]. by eapply main_facts_kept.
  - exists e. rewrite (om_main _ _ Hmv), (om_told _ _ Hmv) by (by left). done.
Qed.

(** ** The invariant *)

Record proc_ok (p : Proc) : Prop := {
  po_main : main_ok p;
  po_accept : accept_ok p;
  po_worker : worker_goes_on (pr_sys p);
  po_monitor : monitor_ok p;
}.

(** What a step of the process is for the service. *)
Definition moves (s s' : Sys) : Prop := s' = s \/ sstep s s'.

(** A step of a task: [main] stays, the others keep their invariants, and the service
    takes the step. *)
Record task_step_ok (p p' : Proc) : Prop := {
  ts_others : others_move p p';
  ts_accept : accept_ok p -> accept_ok p';
  ts_worker : worker_goes_on (pr_sys p) -> worker_goes_on (pr_sys p');
  ts_monitor : monitor_ok p -> monitor_ok p';
  ts_moves : accept_ok p -> moves (pr_sys p) (pr_sys p');
}.

Lemma task_step_proc_ok p p' : proc_ok p -> task_step_ok p p' -> proc_ok p' /\ moves (pr_sys p) (pr_sys p').
Proof.
  intros [Hm Ha Hw Hmon] [Ho Ha' Hw' Hmon' Hmv]. split; [split|]; [by eapply main_ok_kept|auto..].
Qed.

(** *** The sessions *)

Record sessions_kept (s s' : Sys) : Prop := {
  sk_free i : sy_sessions s !! i = None -> sy_sessions s' !! i = None;
  sk_size : (size (sy_sessions s') <= size (sy_sessions s))%nat;
  sk_worker : sy_worker s' = sy_worker s;
  sk_flag : sy_shutdown s' = sy_shutdown s;
}.

Lemma sessions_deleted s s' i :
  sy_sessions s' = delete i (sy_sessions s) -> sy_worker s' = sy_worker s -> sy_shutdown s' = sy_shutdown s ->
  sessions_kept s s'.
Proof.
  intros Hs Hw Hf. split; [|rewrite Hs; apply sessions_delete_le|done..].
  intros j Hj. rewrite Hs. apply lookup_delete_None. by right.
Qed.

Lemma sessions_same s s' :
  sy_sessions s' = sy_sessions s -> sy_worker s' = sy_worker s -> sy_shutdown s' = sy_shutdown s -> sessions_kept s s'.
Proof. intros Hs Hw Hf. split; [by rewrite Hs|by rewrite Hs|done..]. Qed.

Definition is_session_action (a : action) : bool :=
  match a with SessionStep _ _ | SessionEnd _ | SessionDropped _ | OrphanDone _ _ => true | _ => false end.

Lemma session_action_keeps a s s' : is_session_action a = true -> sys_exec a s = Some s' -> sessions_kept s s'.
Proof.
  destruct a as [|i clock|i|i|j clock| | | |]; try done; intros _; cbn.
  - destruct (sy_sessions s !! i) as [t|] eqn:Hi; [|done]. destruct (t_prog t) as [|X e k]; [done|].
    destruct (smtp_handler X e _) as [w' x]. intros [= <-]. split; cbn; [|by rewrite map_size_insert_Some|done..].
    intros j Hj. apply lookup_insert_None. split; [done|]. intros ->. congruence.
  - intros [= <-]. by eapply sessions_deleted.
  - destruct (sy_sessions s !! i) as [t|]; [|done]. destruct (t_prog t) as [|X e k]; [done|].
    destruct e; try done. intros [= <-]. by eapply sessions_deleted.
  - destruct (sy_orphans s !! j) as [m|]; [|done]. destruct (enqueue_commit _ _ _) as [st' r].
    intros [= <-]. by apply sessions_same.
Qed.

Lemma accept_ok_kept p s' :
  sessions_kept (pr_sys p) s' -> accept_ok p -> accept_ok (with_sys p s').
Proof.
  intros Hk. unfold accept_ok. cbn. destruct (pr_accept p) as [q|]; [|done]. intros (ph & Hph & Hc). exists ph.
  split; [|done]. pose proof (sk_size _ _ Hk). destruct ph as [|i|i]; cbn in *; [done|by apply Hk|].
  destruct Hph. split; [by apply Hk|lia].
Qed.

Lemma session_task a p s' :
  is_session_action a = true -> sys_exec a (pr_sys p) = Some s' -> task_step_ok p (with_sys p s').
Proof.
  intros Ha Hs. pose proof (session_action_keeps a _ _ Ha Hs) as Hk. split.
  - split; cbn; try done; [by apply Hk| |].
    + by rewrite (sk_worker _ _ Hk).
    + intros _. apply (sk_free _ _ Hk).
  - by apply accept_ok_kept.
  - unfold worker_goes_on. cbn. by rewrite (sk_worker _ _ Hk), (sk_flag _ _ Hk).
  - done.
  - intros _. right. by eapply exec_action_step.
Qed.
(** *** The worker *)

(** The worker's step leaves the sessions and the flag; unless it was told to stop, it
    goes on. *)
Lemma worker_task p s' c :
  sy_sessions s' = sy_sessions (pr_sys p) -> sy_shutdown s' = sy_shutdown (pr_sys p) ->
  sy_worker (pr_sys p) <> Stopped ->
  (worker_goes_on (pr_sys p) -> worker_goes_on s') -> sstep (pr_sys p) s' ->
  task_step_ok p (with_connected (with_sys p s') c).
Proof.
  intros Hs Hf Hns Hw Hstep. split.
  - split; cbn; try done. by rewrite Hs.
  - unfold accept_ok. cbn. destruct (pr_accept p) as [q|]; [|done]. intros (ph & Hph & Hc). exists ph. split; [|done].
    destruct ph; cbn in *; [done|by rewrite Hs..].
  - done.
  - done.
  - intros _. by right.
Qed.

Lemma flag_down_answer sh st {X} (e : WE X) x st' :
  worker_answer sh st e x st' -> sh = false -> flag_down X e x.
Proof. destruct e; try done. by intros [-> _] ->. Qed.

Lemma goes_on_answered {A} (final : unit -> A -> Prop) sh st {X} (e : WE X) k x st' :
  goes_on final tt (Vis e k) -> worker_answer sh st e x st' -> sh = false -> goes_on final tt (k x).
Proof. intros Hc Ha Hf. apply (Hc x). by eapply flag_down_answer. Qed.

Lemma worker_answers_answer clock connect sink sh st {X} (e : WE X) st' x :
  worker_answers clock connect sink sh st e = (st', x) -> worker_answer sh st e x st'.
Proof. destruct e; try apply worker_exec_answer. cbn. by intros [= <- <-]. Qed.

Lemma worker_step_goes_on s s' clock sink :
  sys_exec (WorkerStep clock sink) s = Some s' -> sy_worker s <> Stopped ->
  sy_sessions s' = sy_sessions s /\ sy_shutdown s' = sy_shutdown s /\ (worker_goes_on s -> worker_goes_on s').
Proof.
  cbn. intros Hs Hns. unfold worker_goes_on. destruct (sy_worker s) as [q|q|] eqn:Hw; [| |done].
  - destruct q as [[|[u|]]|X e k]; [injection Hs as <-; cbn; split_and!; try done..|].
    + intros _ _. apply reconnect_body_goes_on.
    + intros _ _. apply run_body_goes_on.
    + intros H Hf. by specialize (H Hf).
    + destruct (worker_exec _ _ _ _ e) as [st' x] eqn:He. injection Hs as <-. cbn. split_and!; [done..|].
      intros H Hf. eapply goes_on_answered; [exact (H Hf)|by eapply worker_exec_answer|done].
  - destruct q as [[|u]|X e k]; [injection Hs as <-; cbn; split_and!; try done..|].
    + intros _ _. apply run_body_goes_on.
    + intros H Hf. by specialize (H Hf).
    + destruct (worker_exec _ _ _ _ e) as [st' x] eqn:He. injection Hs as <-. cbn. split_and!; [done..|].
      intros H Hf. eapply goes_on_answered; [exact (H Hf)|by eapply worker_exec_answer|done].
Qed.

Lemma worker_moves_ok p p' connect sink :
  worker_moves validate_email parse_mail config connect sink p = Some p' -> task_step_ok p p'.
Proof.
  unfold worker_moves. intros H.
  assert (sy_worker (pr_sys p) <> Stopped) as Hns by (intros Hst; by rewrite Hst in H; cbn in H; rewrite Hst in H).
  destruct (sy_worker (pr_sys p)) as [q|q|] eqn:Hw; [|clear Hns|done].
  - destruct q as [r|X e k].
    + destruct (sys_exec _ (pr_sys p)) as [s'|] eqn:Hs; [|done]. injection H as <-.
      destruct (worker_step_goes_on _ _ _ _ Hs) as (H1 & H2 & H3); [by rewrite Hw|].
      apply (worker_task p s' (pr_connected p)); try done; [by rewrite Hw|by eapply exec_action_step].
    + destruct (worker_answers _ _ _ _ _ e) as [st' x] eqn:He. injection H as <-.
      apply worker_answers_answer in He.
      apply worker_task; try done; [by rewrite Hw| |by eapply sys_connecting].
      unfold worker_goes_on. rewrite Hw. cbn. intros Hg Hf. eapply goes_on_answered; [exact (Hg Hf)|exact He|done].
  - destruct (sys_exec _ (pr_sys p)) as [s'|] eqn:Hs; [|done]. injection H as <-.
    destruct (worker_step_goes_on _ _ _ _ Hs) as (H1 & H2 & H3); [by rewrite Hw|].
    apply (worker_task p s' (pr_connected p)); try done; [by rewrite Hw|by eapply exec_action_step].
Qed.

(** *** The monitor *)

Lemma quiet_task p p' :
  others_move p p' -> (monitor_ok p -> monitor_ok p') -> pr_accept p' = pr_accept p -> moves (pr_sys p) (pr_sys p') ->
  sy_sessions (pr_sys p') = sy_sessions (pr_sys p) -> sy_worker (pr_sys p') = sy_worker (pr_sys p) -> task_step_ok p p'.
Proof.
  intros Ho Hmon Ha Hmv Hs Hw. split; [done| | |done..].
  - unfold accept_ok. rewrite Ha. destruct (pr_accept p) as [q|]; [|done]. intros (ph & Hph & Hc). exists ph.
    split; [|done]. destruct ph; cbn in *; [done|by rewrite Hs..].
  - unfold worker_goes_on. by rewrite Hw, (om_flag _ _ Ho).
Qed.

Lemma told_status p st : st <> NotifyReady /\ st <> NotifyStopping ->
  forall st', st' = NotifyReady \/ st' = NotifyStopping -> st' ∈ pr_told p ++ [st] <-> st' ∈ pr_told p.
Proof.
  intros [H1 H2] st' Hst. rewrite elem_of_app, list_elem_of_singleton. split; [|by left].
  intros [Hin| ->]; [done|]. by destruct Hst.
Qed.

Lemma monitor_exec_ok timer p {X} (e : MonitorE X) p1 x m :
  monitor_exec timer p e = Some (p1, x) -> says_status X e -> (monitor_ok (with_monitor p m)) ->
  task_step_ok p (with_monitor p1 m).
Proof.
  intros He Hsay Hm.
  assert (forall st', monitor_answer (sy_store (pr_sys p)) e x st' -> 
    sstep (pr_sys p) (set_worker (pr_sys p) st' (sy_worker (pr_sys p)) [])) as Hstep by (intros; by eapply sys_monitor).
  apply quiet_task; [split| | | | |]; destruct e; cbn in He; simplify_eq/=; try done;
    try (by repeat case_match; simplify_eq/=); try (by left);
    try (right; apply Hstep; cbn; apply surjective_pairing).
  2: by repeat case_match; simplify_eq/=; left.
  by apply told_status.
Qed.

Lemma monitor_moves_ok timer p p' :
  monitor_ok p -> monitor_moves timer p = Some p' -> task_step_ok p p'.
Proof.
  unfold monitor_ok, monitor_moves. intros Hok H. destruct (pr_monitor p) as [[interval [[last|]|X e k]]|]; [..|done].
  - injection H as <-. apply quiet_task; try done; [|by left]. intros _. apply monitor_round_says.
  - injection H as <-. apply quiet_task; try done. by left.
  - destruct Hok as [Hsay Hk]. destruct (monitor_exec timer p e) as [[p1 x]|] eqn:He; [|done]. injection H as <-.
    eapply monitor_exec_ok; [done..|]. apply Hk.
Qed.

(** *** The accept loop *)

Lemma accept_task p p' q :
  others_move p p' -> pr_accept p' = Some q -> (accept_ok p -> accept_ok p') -> pr_monitor p' = pr_monitor p ->
  sy_worker (pr_sys p') = sy_worker (pr_sys p) -> (accept_ok p -> moves (pr_sys p) (pr_sys p')) -> task_step_ok p p'.
Proof.
  intros Ho Ha Hok Hmon Hw Hmv. split; try done.
  - unfold worker_goes_on. by rewrite Hw, (om_flag _ _ Ho).
  - unfold monitor_ok. by rewrite Hmon.
Qed.

Lemma accept_call_ok next p p1 {X} (e : ServeE conn X) k x :
  pr_accept p = Some (Vis e k) -> accept_exec validate_email parse_mail config next p e = Some (p1, x) ->
  task_step_ok p (with_accept p1 (Some (k x))).
Proof.
  intros Hq He.
  assert ((forall ph ph', accept_phase_ok (pr_sys p) ph -> accept_step ph X e x = Some ph' -> accept_phase_ok (pr_sys p1) ph') ->
    accept_ok p -> accept_ok (with_accept p1 (Some (k x)))) as Hok.
  { intros Hph. unfold accept_ok. rewrite Hq. cbn. intros (ph & Hp & Hc). specialize (Hc x I).
    destruct (accept_step ph X e x) as [ph'|] eqn:Hst; [|done]. exists ph'. split; [by eapply Hph|done]. }
  destruct e as [| |stream response|[[[i fuel] rd] faults] deadline]; cbn in He.
  - assert (p1 = p /\ x = next /\ forall i fuel rd f, next = Ok (i, fuel, rd, f) -> sy_sessions (pr_sys p) !! i = None) as (-> & -> & Hfree).
    { destruct next as [[[[i fuel] rd] f]|err]; [destruct (_ !! i) eqn:Hi; [done|]|]; simplify_eq/=.
      - split_and!; try done. by intros ? ? ? ? [= <- <- <- <-].
      - done. }
    eapply accept_task; [|done| |done|done|by left]; [split; try done; cbn; by rewrite Hq|]. apply Hok.
    cbn. destruct next as [[[[i fuel] rd] f]|err]; intros ph ph' _ [= <-]; [by eapply Hfree|done].
  - injection He as <- <-.
    eapply accept_task; [|done| |done|done|by left]; [split; try done; cbn; by rewrite Hq|]. apply Hok.
    cbn. intros [|i|i] ph' Hp Hst; try done. destruct (Z.ltb_spec (Z.of_nat (size (sy_sessions (pr_sys p)))) (permits config));
      injection Hst as <-; [by split|done].
  - injection He as <- <-.
    eapply accept_task; [|done| |done|done|by left]; [split; try done; cbn; by rewrite Hq|]. apply Hok.
    cbn. by intros ph ph' _ [= <-].
  - injection He as <- <-.
    eapply accept_task; [|done| |done|done|]; [split; try done; cbn; by rewrite Hq| |].
    + apply Hok. cbn. intros [|j|j] ph' Hp Hst; try done. destruct (bool_decide _); [|done]. by injection Hst as <-.
    + unfold accept_ok. rewrite Hq. intros (ph & Hp & Hc). specialize (Hc tt I). cbn in Hc.
      destruct ph as [|j|j]; try done. destruct (bool_decide_reflect (i = j)) as [->|]; [|done].
      destruct Hp. right. by apply sys_accept.
Qed.

Lemma accept_again_ok p q : pr_accept p = Some (Ret q) -> task_step_ok p (with_accept p (Some (serve_round config))).
Proof.
  intros Hq. eapply accept_task; [|done| |done|done|by left]; [split; try done; cbn; by rewrite Hq|].
  intros _. exists AcIdle. split; [done|]. apply serve_round_conforms.
Qed.

Lemma accept_cancelled_ok p p' : accept_cancelled p = Some p' -> task_step_ok p p'.
Proof.
  unfold accept_cancelled. destruct (pr_accept p) as [[u|X e k]|] eqn:Hq; [done| |done].
  destruct e; try done. destruct (pr_aborting p) eqn:Hab; [|done]. intros [= <-].
  split; [split; cbn; (done || by intros [? ?] || congruence)|done..|by left].
Qed.

(** *** All tasks, and the clock *)

Lemma others_step_ok a p p' :
  monitor_ok p -> match a with Starts | MainStep _ _ _ => False | _ => True end -> pexec a p = Some p' -> task_step_ok p p'.
Proof.
  intros Hmon Ha H. unfold proc_exec in H.
  destruct a as [|failure event faults|next| |i|i|i enqueuing|j|connect sink|timer|seconds]; try done;
    try (destruct (tasks_run p); cbn [negb] in H; [|done]).
  - destruct (pr_accept p) as [[u|X e k]|] eqn:Hq; [|..|done].
    + injection H as <-. by eapply accept_again_ok.
    + destruct (accept_exec _ _ _ next p e) as [[p1 x]|] eqn:He; [|done]. injection H as <-. by eapply accept_call_ok.
  - by apply accept_cancelled_ok.
  - destruct (sys_exec _ (pr_sys p)) as [s'|] eqn:Hs; [|done]. injection H as <-. by eapply session_task; [|exact Hs].
  - destruct (_ !! i) as [t|]; [|done]. cbn [mbind option_bind] in H. destruct (session_over t); [|done].
    destruct (sys_exec _ (pr_sys p)) as [s'|] eqn:Hs; [|done]. injection H as <-. by eapply session_task; [|exact Hs].
  - destruct (_ !! i) as [t|]; [|done]. cbn [mbind option_bind] in H. destruct (_ || _); [|done].
    destruct (sys_exec _ (pr_sys p)) as [s'|] eqn:Hs; [|done]. injection H as <-.
    eapply session_task; [|exact Hs]. by destruct enqueuing.
  - destruct (pr_open p); [|done]. destruct (sys_exec _ (pr_sys p)) as [s'|] eqn:Hs; [|done]. injection H as <-. by eapply session_task; [|exact Hs].
  - destruct (pr_worker p); [|done]. by eapply worker_moves_ok.
  - by eapply monitor_moves_ok.
  - injection H as <-. apply quiet_task; try done; [|by left]. split; cbn; try done. lia.
Qed.
(** *** [main] *)

(** A step of [main] that goes on to the next point of its program. *)
Lemma main_advances n p' :
  (n < 16)%nat -> pr_main p' = main_at (S n) -> main_facts (S n) p' -> main_ok p'.
Proof. intros Hn Hm Hf. left. exists (S n). split_and!; [lia|done..]. Qed.

Lemma facts_not_ready n p : main_facts n p -> (n < 6)%nat -> ~ NotifyReady ∈ pr_told p.
Proof. intros Hf Hn H. apply (mf_ready _ _ Hf) in H. lia. Qed.

Lemma facts_no_accept n p : main_facts n p -> (n < 7)%nat -> pr_accept p = None.
Proof.
  intros Hf Hn. destruct (pr_accept p) as [q|] eqn:Hq; [|done]. exfalso.
  assert (7 <= n)%nat by (apply (mf_accept _ _ Hf); by rewrite Hq). lia.
Qed.

(** The facts after a call that changed none of what they are about .. *)
Lemma facts_quiet n p p' :
  (n <= 2 \/ n = 4 \/ 8 <= n <= 10 \/ n = 15)%nat ->
  pr_sys p' = pr_sys p -> pr_open p' = pr_open p -> pr_accept p' = pr_accept p -> pr_aborting p' = pr_aborting p ->
  pr_worker p' = pr_worker p -> pr_draining p' = pr_draining p -> pr_time p' = pr_time p -> pr_told p' = pr_told p ->
  main_facts n p -> main_facts (S n) p'.
Proof.
  intros Hn Hs Ho Ha Hb Hw Hd Ht Htold [Fo Fr Fa Fv Fb Fw Fs Fd Ff Fe Fn]. split; rewrite ?Hs, ?Ho, ?Ha, ?Hb, ?Hw, ?Hd, ?Ht, ?Htold.
  - rewrite Fo. destruct (Nat.leb_spec 4 n), (Nat.leb_spec 4 (S n)); (done || lia).
  - rewrite Fr. lia.
  - intros Hs1%Fa. lia.
  - intros Hle. apply Fv. lia.
  - rewrite Fb. destruct (Nat.leb_spec 13 n), (Nat.leb_spec 13 (S n)); (done || lia).
  - rewrite Fw. destruct (Nat.leb_spec 8 n), (Nat.leb_spec 8 (S n)); (done || lia).
  - rewrite Fs. lia.
  - rewrite Fd. lia.
  - intros Hle. rewrite Ff by lia. destruct (Nat.leb_spec 14 n), (Nat.leb_spec 14 (S n)); (done || lia).
  - intros Hle. apply Fe. lia.
  - intros Hle. apply Fn. lia.
Qed.

(** .. and after the others, each at its point. *)
Ltac accept_facts Fa Fv Fb :=
  try first [ done | lia | by rewrite Fb | (intros ?%Fa; lia) | (intros _ ?; apply Fv; (lia || done)) | by intros ].

Lemma facts_opened p st s m :
  main_facts 3 p ->
  main_facts 4 (mkProc (mkSys st ∅ s false (sy_enqueued (pr_sys p)) (sy_acked (pr_sys p)) (sy_sunk (pr_sys p)) []) m true
    (pr_accept p) (pr_aborting p) (pr_deadlines p) (pr_worker p) (pr_monitor p) (pr_connected p) (pr_time p) (pr_draining p) (pr_told p)).
Proof. intros [Fo Fr Fa Fv Fb Fw Fs Fd Ff Fe Fn]. split; cbn; rewrite ?Fr, ?Fs, ?Fd; accept_facts Fa Fv Fb. Qed.

Lemma facts_ready p status m :
  main_facts 5 p -> main_facts 6 (with_main (tell p [NotifyReady; NotifyStatus status]) m).
Proof.
  intros [Fo Fr Fa Fv Fb Fw Fs Fd Ff Fe Fn]. split; cbn; rewrite ?elem_of_app, ?elem_of_cons, ?Fr, ?Fs, ?Fd; accept_facts Fa Fv Fb.
  - split; [|by auto]. lia.
  - split; [|lia]. intros [?|[?|[?|?%not_elem_of_nil]]]; (done || lia).
  - intros _. apply Ff. lia.
  - intros _. apply Fe. lia.
Qed.

Lemma facts_stopping p m : main_facts 11 p -> main_facts 12 (with_main (tell p [NotifyStopping]) m).
Proof.
  intros [Fo Fr Fa Fv Fb Fw Fs Fd Ff Fe Fn]. split; cbn; rewrite ?elem_of_app, ?elem_of_cons, ?Fr, ?Fs, ?Fd; accept_facts Fa Fv Fb.
  - split; [lia|]. intros _. right. by left.
  - intros _. apply Ff. lia.
Qed.

Lemma facts_serving p q m : main_facts 6 p -> main_facts 7 (with_main (with_accept p (Some q)) m).
Proof.
  intros [Fo Fr Fa Fv Fb Fw Fs Fd Ff Fe Fn]. split; cbn; rewrite ?Fr, ?Fs, ?Fd; accept_facts Fa Fv Fb.
  intros _. apply Ff. lia.
Qed.

Lemma facts_aborted p m : main_facts 12 p -> main_facts 13 (with_main (with_aborting p) m).
Proof.
  intros [Fo Fr Fa Fv Fb Fw Fs Fd Ff Fe Fn]. split; cbn; rewrite ?Fr, ?Fs, ?Fd; accept_facts Fa Fv Fb.
  intros _. apply Ff. lia.
Qed.

Lemma facts_spawned p m :
  main_facts 7 p ->
  main_facts 8 (mkProc (pr_sys p) m (pr_open p) (pr_accept p) (pr_aborting p) (pr_deadlines p) true (pr_monitor p) (pr_connected p)
    (pr_time p) (pr_draining p) (pr_told p)).
Proof.
  intros [Fo Fr Fa Fv Fb Fw Fs Fd Ff Fe Fn]. split; cbn; rewrite ?Fr, ?Fs, ?Fd; accept_facts Fa Fv Fb.
  intros _. apply Ff. lia.
Qed.

Lemma facts_draining p s m :
  sy_shutdown s = true ->
  main_facts 13 p ->
  main_facts 14 (mkProc s m (pr_open p) (pr_accept p) (pr_aborting p) (pr_deadlines p) (pr_worker p) (pr_monitor p) (pr_connected p)
    (pr_time p) (Some (pr_time p)) (pr_told p)).
Proof.
  intros Hs [Fo Fr Fa Fv Fb Fw Fs Fd Ff Fe Fn]. split; cbn; rewrite ?Fr, ?Fs; accept_facts Fa Fv Fb.
Qed.

Lemma facts_drained p m :
  main_facts 14 p ->
  sy_worker (pr_sys p) = Stopped \/ (exists since, pr_draining p = Some since /\ since + SHUTDOWN_DRAIN_SECONDS <= pr_time p) ->
  main_facts 15 (with_main p m).
Proof.
  intros [Fo Fr Fa Fv Fb Fw Fs Fd Ff Fe Fn] Hend. split; cbn; rewrite ?Fr, ?Fs, ?Fd; accept_facts Fa Fv Fb.
  intros _. apply Ff. lia.
Qed.
Lemma main_fails p e :
  (NotifyReady ∈ pr_told p -> exists io, e = ChimneyError.Io io) -> main_ok (with_main p (Ret (Err e))).
Proof. intros H. right. by exists e. Qed.

(** [main] moved and nothing else that the invariant is about. *)
Lemma main_only p p' :
  proc_ok p -> main_ok p' -> pr_sys p' = pr_sys p -> pr_accept p' = pr_accept p -> pr_monitor p' = pr_monitor p ->
  proc_ok p' /\ moves (pr_sys p) (pr_sys p').
Proof.
  intros [_ Ha Hw Hmon] Hm Hs Hac Hmo. split; [|left; done]. split; [done| |by rewrite Hs|by unfold monitor_ok; rewrite Hmo].
  unfold accept_ok. rewrite Hac, Hs. exact Ha.
Qed.

Ltac main_point H Hm := unfold proc_exec in H; rewrite Hm in H; cbn -[lit restart loaded] in H.
Ltac quiet_facts n := apply (main_advances n); [lia|reflexivity|eapply facts_quiet; [| | | | | | | | |eassumption]; (done || lia)].

Abbreviation loads := (loaded parse_url parse_user_id parse_owned_room_id config).

Lemma loads_answer failure : loads failure = Ok config \/ exists e, loads failure = Err e.
Proof. destruct failure as [e|]; cbn -[validate]; [right; by exists e|]. destruct (validate _ _ _ _) as [u|e]; [by left|right; by exists e]. Qed.

(** Up to the listener: a failure ends [main] before it is ready. *)
Lemma main_boots n failure event faults p p' :
  (n < 5)%nat -> pr_main p = main_at n -> main_facts n p -> proc_ok p ->
  pexec (MainStep failure event faults) p = Some p' -> proc_ok p' /\ moves (pr_sys p) (pr_sys p').
Proof.
  intros Hn Hm Hf Hok H.
  assert (forall e, main_ok (with_main p (Ret (Err e)))) as Hfail.
  { intros e. apply main_fails. intros Hr. by apply (facts_not_ready _ _ Hf) in Hr; [|lia]. }
  destruct n as [|[|[|[|[|]]]]]; [..|lia]; main_point H Hm.
  - destruct (loads_answer failure) as [Hl|[e Hl]]; rewrite Hl in H; injection H as <-; [|by apply main_only]. apply main_only; try done. quiet_facts 0%nat.
  - destruct failure as [e|]; injection H as <-; [by apply main_only|]. apply main_only; try done. quiet_facts 1%nat.
  - injection H as <-. apply main_only; try done. quiet_facts 2%nat.
  - destruct (restart _ _ _ faults) as [st|e] eqn:Hr; injection H as <-; [|by apply main_only].
    split; [|right; by eapply sys_restart]. split; cbn.
    + apply (main_advances 3); [lia|reflexivity|]. exact (facts_opened p st _ _ Hf).
    + unfold accept_ok. cbn. rewrite (facts_no_accept _ _ Hf) by lia. done.
    + intros _. apply reconnect_body_goes_on.
    + apply Hok.
  - destruct failure as [e|]; injection H as <-; [by apply main_only|]. apply main_only; try done. quiet_facts 4%nat.
Qed.

(** From READY to the signals. *)
Lemma main_spawns n failure event faults p p' :
  (5 <= n < 10)%nat -> pr_main p = main_at n -> main_facts n p -> proc_ok p ->
  pexec (MainStep failure event faults) p = Some p' -> proc_ok p' /\ moves (pr_sys p) (pr_sys p').
Proof.
  intros Hn Hm Hf Hok H.
  do 5 (destruct n as [|n]; [lia|]). destruct n as [|[|[|[|[|]]]]]; [..|lia]; main_point H Hm.
  - injection H as <-. apply main_only; try done. apply (main_advances 5); [lia|reflexivity|]. exact (facts_ready p _ _ Hf).
  - injection H as <-. split; [|by left]. split; cbn; try apply Hok.
    + apply (main_advances 6); [lia|reflexivity|]. exact (facts_serving p _ _ Hf).
    + exists AcIdle. split; [done|]. apply serve_round_conforms.
  - rewrite bool_decide_eq_true_2 in H by done. cbn in H. injection H as <-. apply main_only; try done.
    apply (main_advances 7); [lia|reflexivity|]. exact (facts_spawned p _ Hf).
  - injection H as <-. split; [|by left]. split; cbn; try apply Hok.
    + quiet_facts 8%nat.
    + apply monitor_round_says.
  - destruct failure as [e|]; injection H as <-; apply main_only; try done; [|quiet_facts 9%nat].
    apply main_fails. intros _. by eexists.
Qed.

Lemma event_ready_facts p event :
  worker_goes_on (pr_sys p) -> main_facts 10 p -> event_ready p event = true -> unexpected_end event = None.
Proof.
  intros Hw Hf. destruct event as [r|[r|r]| |]; cbn; try done.
  - destruct (pr_accept p) eqn:Ha; [done|]. exfalso. assert (is_Some (pr_accept p)) as [q Hq]; [|congruence].
    apply (mf_serving _ _ Hf); [lia|by rewrite (mf_aborting _ _ Hf)].
  - destruct (sy_worker (pr_sys p)) eqn:Hst; try done. exfalso. unfold worker_goes_on in Hw. rewrite Hst in Hw.
    apply Hw. by rewrite (mf_flag _ _ Hf) by lia.
Qed.

(** From a signal to the end. *)
Lemma main_stops n failure event faults p p' :
  (10 <= n <= 16)%nat -> pr_main p = main_at n -> main_facts n p -> proc_ok p ->
  pexec (MainStep failure event faults) p = Some p' -> proc_ok p' /\ moves (pr_sys p) (pr_sys p').
Proof.
  intros Hn Hm Hf Hok H.
  do 10 (destruct n as [|n]; [lia|]). destruct n as [|[|[|[|[|[|[|]]]]]]]; [..|lia]; main_point H Hm.
  - destruct (event_ready p event) eqn:He; [|done]. cbn in H.
    rewrite (event_ready_facts p event) in H by (apply Hok || done). injection H as <-. apply main_only; try done. quiet_facts 10%nat.
  - injection H as <-. apply main_only; try done. apply (main_advances 11); [lia|reflexivity|]. exact (facts_stopping p _ Hf).
  - injection H as <-. split; [|by left]. split; cbn; try apply Hok.
    apply (main_advances 12); [lia|reflexivity|]. exact (facts_aborted p _ Hf).
  - injection H as <-. split; [|right; apply sys_signal]. split; [| |done|apply Hok].
    + apply (main_advances 13); [lia|reflexivity|]. by apply (facts_draining p).
    + apply (po_accept _ Hok).
  - assert (is_Some (pr_draining p)) as [since Hd] by (apply (mf_draining _ _ Hf); lia). rewrite Hd in H.
    destruct (sy_worker (pr_sys p)) as [q|q|] eqn:Hst; cbn in H.
    3: { injection H as <-. apply main_only; try done. apply (main_advances 14); [lia|reflexivity|].
         apply facts_drained; [done|by left]. }
    all: destruct (Z.leb_spec (since + SHUTDOWN_DRAIN_SECONDS) (pr_time p)) as [Hle|]; [|done]; injection H as <-;
      apply main_only; try done; apply (main_advances 14); [lia|reflexivity|]; apply facts_drained; [done|right; by exists since].
  - injection H as <-. split; [|by left]. split; cbn; try apply Hok; [|done]. quiet_facts 15%nat.
  - done.
Qed.
(** *** Every step *)

Lemma main_step_ok failure event faults p p' :
  proc_ok p -> pexec (MainStep failure event faults) p = Some p' -> proc_ok p' /\ moves (pr_sys p) (pr_sys p').
Proof.
  intros Hok H. destruct (po_main _ Hok) as [(n & Hn & Hm & Hf)|(e & Hm & _)].
  - destruct (decide (n < 5)%nat); [by eapply main_boots|].
    destruct (decide (n < 10)%nat); [eapply (main_spawns n); [lia|done..]|eapply (main_stops n); [lia|done..]].
  - unfold proc_exec in H. by rewrite Hm in H.
Qed.

Lemma boot_ok time s : worker_goes_on s -> proc_ok (boot time s).
Proof.
  intros Hw. split; try done. left. exists 0%nat. split_and!; [lia|done|].
  split; cbn; rewrite ?is_Some_alt; try (done || lia); split; try lia; by intros ?%not_elem_of_nil.
Qed.

Lemma proc_step_ok a p p' : proc_ok p -> pexec a p = Some p' -> proc_ok p' /\ moves (pr_sys p) (pr_sys p').
Proof.
  intros Hok H. pose proof (fun Ha => others_step_ok a p p' (po_monitor _ Hok) Ha H) as Htask.
  destruct a as [|failure event faults| | | | | | | | |]; try exact (task_step_proc_ok p p' Hok (Htask I)).
  - injection H as <-. split; [apply boot_ok, Hok|by left].
  - by eapply main_step_ok.
Qed.

Lemma proc_init_ok faults time : proc_ok (proc_init config faults time).
Proof. apply boot_ok. intros _. apply reconnect_body_goes_on. Qed.

Lemma proc_run_ok actions p p' :
  proc_ok p -> prun actions p = Some p' ->
  proc_ok p' /\ rtc sstep (pr_sys p) (pr_sys p').
Proof.
  revert p. induction actions as [|a actions IH]; intros p Hok H; [injection H as <-; by split|].
  cbn in H. destruct (pexec a p) as [p1|] eqn:Ha; [|done]. destruct (proc_step_ok a p p1 Hok Ha) as [Hok1 Hmv].
  destruct (IH p1 Hok1 H) as [Hok' Hsteps]. split; [done|]. destruct Hmv as [<-|Hst]; [done|by eapply rtc_l].
Qed.

(** *** After the accept loop is gone *)

Definition is_start (a : proc_action) : bool := match a with Starts => true | _ => false end.

(** The accept task was aborted and has been dropped; [s] is the service then. *)
Definition closed_since (s : Sys) (p : Proc) : Prop :=
  pr_aborting p = true /\ pr_accept p = None /\
  forall i, sy_sessions s !! i = None -> sy_sessions (pr_sys p) !! i = None.

Lemma main_step_closed failure event faults p p' :
  main_ok p -> pr_aborting p = true -> pexec (MainStep failure event faults) p = Some p' ->
  pr_aborting p' = true /\ pr_accept p' = pr_accept p /\ sy_sessions (pr_sys p') = sy_sessions (pr_sys p).
Proof.
  intros [(n & Hn & Hm & Hf)|(e & Hm & _)] Hab H; [|unfold proc_exec in H; by rewrite Hm in H].
  assert (13 <= n)%nat as Hle by (rewrite (mf_aborting _ _ Hf) in Hab; by apply Nat.leb_le).
  do 13 (destruct n as [|n]; [lia|]). destruct n as [|[|[|[|]]]]; [..|lia]; main_point H Hm.
  - by injection H as <-.
  - by repeat case_match; simplify_eq/=.
  - by injection H as <-.
  - done.
Qed.

Lemma closed_step s a p p' :
  proc_ok p -> is_start a = false -> pexec a p = Some p' -> closed_since s p -> closed_since s p'.
Proof.
  intros Hok Ha H (Hab & Hno & Hs). pose proof (fun Ha' => others_step_ok a p p' (po_monitor _ Hok) Ha' H) as Hother.
  destruct a as [|failure event faults| | | | | | | | |]; try done.
  2-10: destruct (Hother I) as [Ho _ _ _ _]; split_and!; [by rewrite (om_aborting _ _ Ho)| |
    intros l Hl; apply (om_sessions _ _ Ho Hno); by apply Hs];
    destruct (pr_accept p') eqn:Hq; [|done]; pose proof (om_accept _ _ Ho (mk_is_Some _ _ Hq)) as [? ?]; congruence.
  destruct (main_step_closed _ _ _ _ _ (po_main _ Hok) Hab H) as (Hab' & Hno' & Hs').
  split_and!; [done|by rewrite Hno'|]. by rewrite Hs'.
Qed.

Lemma closed_run s actions p p' :
  proc_ok p -> forallb (fun a => negb (is_start a)) actions = true -> prun actions p = Some p' -> closed_since s p -> closed_since s p'.
Proof.
  revert p. induction actions as [|a actions IH]; intros p Hok Hns H Hc; [by injection H as <-|].
  cbn in Hns, H. apply andb_true_iff in Hns as [Ha Hns]. destruct (pexec a p) as [p1|] eqn:Hp1; [|done].
  destruct (proc_step_ok a p p1 Hok Hp1) as [Hok1 _]. apply (IH p1); [done..|].
  exact (closed_step s a p p1 Hok (proj1 (negb_true_iff _) Ha) Hp1 Hc).
Qed.

Lemma proc_run_app before after p :
  prun (before ++ after) p =
  prun before p ≫= prun after.
Proof.
  revert p. induction before as [|a before IH]; intros p; [done|]. cbn. destruct (pexec a p) as [p1|]; [apply IH|done].
Qed.

(** *** A session while others move *)

Definition spares_sessions (a : proc_action) : bool :=
  match a with MainStep _ _ _ | AcceptCancelled | WorkerMoves _ _ | MonitorMoves _ | Passes _ => true | _ => false end.

Lemma main_step_spares failure event faults p p' :
  proc_ok p -> pr_open p = true -> pexec (MainStep failure event faults) p = Some p' ->
  pr_open p' = true /\ sy_sessions (pr_sys p') = sy_sessions (pr_sys p).
Proof.
  intros Hok Hopen H. destruct (po_main _ Hok) as [(n & Hn & Hm & Hf)|(e & Hm & _)]; [|unfold proc_exec in H; by rewrite Hm in H].
  assert (4 <= n)%nat as Hle by (rewrite (mf_open _ _ Hf) in Hopen; by apply Nat.leb_le).
  do 4 (destruct n as [|n]; [lia|]). do 13 (destruct n as [|n]; [main_point H Hm; repeat case_match; by simplify_eq/=|]). lia.
Qed.

Lemma task_step_spares a p p' :
  proc_ok p -> pr_open p = true -> spares_sessions a = true -> pexec a p = Some p' ->
  pr_open p' = true /\ sy_sessions (pr_sys p') = sy_sessions (pr_sys p).
Proof.
  intros Hok Hopen Ha H. destruct a; try done; [by eapply main_step_spares|..];
    unfold proc_exec in H; try (destruct (tasks_run p); cbn [negb] in H; [|done]).
  - unfold accept_cancelled in H. by repeat case_match; simplify_eq/=.
  - destruct (pr_worker p); [|done]. unfold worker_moves in H.
    destruct (sy_worker (pr_sys p)) as [[r|X e k]|q|] eqn:Hw.
    1,3,4: destruct (sys_exec _ (pr_sys p)) as [s'|] eqn:Hs; [|done]; injection H as <-;
      (destruct (worker_step_goes_on _ _ _ _ Hs) as (Hse & _); [by rewrite Hw|]) || (cbn in Hs; by rewrite Hw in Hs); by split.
    by repeat case_match; simplify_eq/=.
  - unfold monitor_moves in H. destruct (pr_monitor p) as [[interval [[last|]|X e k]]|]; [by simplify_eq..| |done].
    destruct (monitor_exec timer p e) as [[p1 x]|] eqn:He; [|done]. injection H as <-. cbn.
    destruct e; cbn in He; simplify_eq/=; by repeat case_match; simplify_eq/=.
  - by injection H as <-.
Qed.

Lemma run_spares actions p p' :
  proc_ok p -> pr_open p = true -> forallb spares_sessions actions = true -> prun actions p = Some p' ->
  sy_sessions (pr_sys p') = sy_sessions (pr_sys p).
Proof.
  revert p. induction actions as [|a actions IH]; intros p Hok Hopen Hall H; [by injection H as <-|].
  cbn in Hall, H. apply andb_true_iff in Hall as [Ha Hall]. destruct (pexec a p) as [p1|] eqn:Hp1; [|done].
  destruct (task_step_spares a p p1 Hok Hopen Ha Hp1) as [Hopen1 <-].
  by apply (IH p1); [eapply proc_step_ok|..].
Qed.

(** The accept loop spawns a session and goes round. *)
Lemma spawn_runs p i fuel rd faults deadline next :
  tasks_run p = true -> pr_accept p = Some (trigger (SpawnSession (i, fuel, rd, faults) deadline)) ->
  exists p', prun (replicate 2 (AcceptStep next)) p = Some p' /\ pr_open p' = pr_open p /\
    sy_sessions (pr_sys p') !! i = Some (new_session validate_email parse_mail config fuel rd faults).
Proof.
  intros Htasks Hq.
  assert (exists p1, pexec (AcceptStep next) p = Some p1 /\ tasks_run p1 = true /\ pr_open p1 = pr_open p /\
    pr_accept p1 = Some (Ret tt) /\
    sy_sessions (pr_sys p1) !! i = Some (new_session validate_email parse_mail config fuel rd faults))
    as (p1 & H1 & Htasks1 & Ho1 & Hq1 & Hs1).
  { eexists. split; [unfold proc_exec; rewrite Htasks, Hq; reflexivity|]. split_and!; [exact Htasks|done..|apply lookup_insert_eq]. }
  exists (with_accept p1 (Some (serve_round config))). split; [|by split]. cbn [replicate proc_run]. rewrite H1.
  cbn [mbind option_bind]. unfold proc_exec. by rewrite Htasks1, Hq1.
Qed.

(** *** A session that runs to its end while the rest of the process rests *)

(** The world of a program of a session, on a clock that stands still. *)
Definition still_world (t : Task) (st : MessageStore) (clock : Z) (ticks : nat) : SmtpWorld :=
  mkSmtpWorld (t_reader t) (t_written t) (t_write_faults t) st (fun _ => clock) ticks.

Lemma handler_ticks X (e : SmtpE X) t st clock ticks w x :
  smtp_handler X e (still_world t st clock ticks) = (w, x) ->
  exists w1 ticks', smtp_handler X e (session_world t st clock) = (w1, x) /\ forall p phase,
    w = still_world (mkTask p (sw_reader w1) (sw_written w1) (sw_write_faults w1) phase) (sw_store w1) clock ticks'.
Proof.
  unfold still_world, session_world. destruct e; cbn.
  - destruct (read_line_limited _ _ _) as [[r rd'] text]. intros [= <- <-]. by do 2 eexists.
  - destruct (read_data _ _) as [r rd']. intros [= <- <-]. by do 2 eexists.
  - destruct (t_write_faults t) as [|[err|] fs]; intros [= <- <-]; by do 2 eexists.
  - destruct (enqueue _ _ _) as [st' r]. intros [= <- <-]. by do 2 eexists.
Qed.

(** What of the service a session leaves alone. *)
Record rests (s s' : Sys) : Prop := {
  rest_worker : sy_worker s' = sy_worker s;
  rest_shutdown : sy_shutdown s' = sy_shutdown s;
  rest_sunk : sy_sunk s' = sy_sunk s;
}.

Lemma session_runs q p i t ticks w r :
  t_prog t = q -> tasks_run p = true -> sy_sessions (pr_sys p) !! i = Some t ->
  run smtp_handler q (still_world t (sy_store (pr_sys p)) (pr_time p) ticks) = (w, r) ->
  exists n s' t', prun (replicate n (SessionMoves i)) p = Some (with_sys p s') /\ rests (pr_sys p) s' /\
    sy_sessions s' !! i = Some t' /\ t_prog t' = Ret r /\ t_written t' = sw_written w /\ sy_store s' = sw_store w.
Proof.
  revert p t ticks. induction q as [a|X e k IH]; intros p t ticks Hq Htasks Ht Hrun.
  - injection Hrun as <- <-. exists 0%nat, (pr_sys p), t. destruct p. by split_and!.
  - cbn [run] in Hrun. destruct (smtp_handler X e _) as [w1 x] eqn:Hh.
    destruct (handler_ticks _ _ _ _ _ _ _ _ Hh) as (w2 & ticks' & Hh2 & Hw1).
    set (t1 := mkTask (k x) (sw_reader w2) (sw_written w2) (sw_write_faults w2)
      (default (t_phase t) (smtp_step validate_email parse_mail (t_phase t) X e x))).
    destruct (sys_exec (SessionStep i (pr_time p)) (pr_sys p)) as [s1|] eqn:Hs1;
      cbn [exec_action] in Hs1; rewrite Ht, Hq, Hh2 in Hs1; [|done]. injection Hs1 as Hs1.
    destruct (IH x (with_sys p s1) t1 ticks') as (n & s' & t' & Hmoves & [Rw Rf Rs] & Hend).
    + done.
    + exact Htasks.
    + subst s1. apply lookup_insert_eq.
    + subst s1 t1. cbn [with_sys pr_sys sy_store pr_time]. by rewrite <- Hw1.
    + exists (S n), s', t'. split; [|split; [|exact Hend]].
      * cbn [replicate proc_run]. unfold proc_exec. rewrite Htasks. cbn [negb exec_action]. rewrite Ht, Hq, Hh2.
        cbn [fmap option_fmap option_map mbind option_bind]. rewrite Hs1. exact Hmoves.
      * subst s1. by split; [rewrite Rw|rewrite Rf|rewrite Rs].
Qed.

Lemma proc_run_rest before after p p1 p' :
  prun (before ++ after) p = Some p' -> prun before p = Some p1 -> prun after p1 = Some p'.
Proof. rewrite proc_run_app. intros H Hb. by rewrite Hb in H. Qed.
End ProcessFacts.
