(* ===== verification/ProcessProps.v ===== *)
(** * Properties of the process

    The process refines the service of [System], so that what is proved of the service
    holds of it; and [main] governs its tasks the way the comments of
    [src/src/main.rs] say, with one exception. *)

From S2P Require Import Prelude RustStr Utf8 Error Effects Store StoreFacts StoreSpec StoreProps Worker WorkerFacts Reader Mime.
From S2P Require Import ConfigData Formatter Net Config ConfigProps Session Serve SessionFacts SessionProps Main System SystemFacts SystemProps.
From S2P Require Import Process ProcessFacts.

Definition is_main_step (a : proc_action) : bool := match a with MainStep _ _ _ => true | _ => false end.

Definition ok_step : proc_action := MainStep None Sigterm [].

(** At most [n] calls are left. *)
Fixpoint at_most {E : Type -> Type} {A} (n : nat) (p : prog E A) : Prop :=
  match p, n with
  | Ret _, _ => True
  | Vis _ _, O => False
  | Vis _ k, S n' => forall x, at_most n' (k x)
  end.

Lemma at_most_main : at_most 16 main.
Proof.
  intros [config|e]; [|done]. intros [u|e]; [|done]. intros []. cbn. intros [u1|e]; [|done].
  intros [u2|e]; [|done]. intros [] [] [] []. intros [u3|e]; [|done]. cbn. intros event.
  by destruct (unexpected_end event).
Qed.

Section ProcessProps.
Context {Url UserId RoomId Env Template : Type} `{Hjinja : Minijinja Env Template}.
Variable parse_url : str -> result str Url.
Variable parse_user_id : str -> result str UserId.
Variable parse_owned_room_id : str -> result str RoomId.
Variable validate_email : str -> bool.
Variable parse_mail : bytes -> option ParsedMail.
Variable config : Config.

Abbreviation path := (q_db_path (cfg_queue config)).
Abbreviation pexec := (proc_exec parse_url parse_user_id parse_owned_room_id validate_email parse_mail config).
Abbreviation prun := (proc_run parse_url parse_user_id parse_owned_room_id validate_email parse_mail config).

Lemma main_at_over n r : (n <= 16)%nat -> main_at config n = Ret r -> n = 16%nat /\ r = Ok tt.
Proof.
  intros Hn H. do 17 (destruct n as [|n]; [cbn in H; first [discriminate H|by injection H as <-]|]). lia.
Qed.

Lemma main_exec_keeps failure event faults p {X} (e : MainE X) p' x :
  main_exec parse_url parse_user_id parse_owned_room_id config failure event faults p e = Some (p', x) -> pr_main p' = pr_main p.
Proof.
  destruct e; cbn -[restart]; repeat case_match; intros; simplify_eq/=; done.
Qed.

(** Each step of [main] takes one of its calls; the others leave it alone. *)
Lemma step_at_most n a p p' :
  proc_ok config p -> is_start a = false -> pexec a p = Some p' -> at_most n (pr_main p) ->
  if is_main_step a then exists n', n = S n' /\ at_most n' (pr_main p') else at_most n (pr_main p').
Proof.
  intros Hok Hns H Hn. pose proof (fun Ha => others_step_ok parse_url parse_user_id parse_owned_room_id validate_email parse_mail config a p p' (po_monitor _ _ Hok) Ha H) as Hother.
  destruct a as [|failure event faults| | | | | | | | |]; cbn [is_main_step]; try done;
    try (by rewrite (om_main _ _ (ts_others _ _ _ _ _ (Hother I)))).
  unfold proc_exec in H. destruct (pr_main p) as [r|X e k]; [done|].
  destruct (main_exec _ _ _ _ _ _ _ p e) as [[p1 x]|]; [|done]. injection H as <-. cbn.
  destruct n as [|n]; [done|]. exists n. split; [done|]. apply (Hn x).
Qed.

Lemma run_at_most n actions p p' :
  proc_ok config p -> forallb (fun a => negb (is_start a)) actions = true -> prun actions p = Some p' ->
  at_most n (pr_main p) -> (length (filter (fun a => is_main_step a = true) actions) <= n)%nat.
Proof.
  revert n p. induction actions as [|a actions IH]; intros n p Hok Hns H Hn; [cbn; lia|].
  cbn in Hns, H. apply andb_true_iff in Hns as [Ha Hns]. destruct (pexec a p) as [p1|] eqn:Hp1; [|done].
  destruct (proc_step_ok _ _ _ _ _ _ a p p1 Hok Hp1) as [Hok1 _].
  pose proof (step_at_most n a p p1 Hok (proj1 (negb_true_iff _) Ha) Hp1 Hn) as Hstep.
  rewrite filter_cons. destruct (is_main_step a); case_decide; try done.
  - destruct Hstep as (n' & -> & Hn'). cbn [length]. specialize (IH n' p1 Hok1 Hns H Hn'). lia.
  - by apply (IH n p1).
Qed.

Lemma main_bounded actions p p' :
  proc_ok config p -> at_most 16 (pr_main p) -> prun actions p = Some p' -> at_most 16 (pr_main p').
Proof.
  revert p. induction actions as [|a actions IH]; intros p Hok Hn H; [by injection H as <-|].
  cbn in H. destruct (pexec a p) as [p1|] eqn:Hp1; [|done].
  destruct (proc_step_ok _ _ _ _ _ _ a p p1 Hok Hp1) as [Hok1 _]. apply (IH p1); [done| |done].
  destruct (is_start a) eqn:Ha.
  - destruct a; try done. injection Hp1 as <-. apply at_most_main.
  - pose proof (step_at_most 16 a p p1 Hok Ha Hp1 Hn) as Hstep. destruct (is_main_step a); [|done].
    destruct Hstep as (n' & Heq & Hn'). injection Heq as <-. clear -Hn'.
    assert (forall n (q : prog MainE (Result unit)), at_most n q -> at_most (S n) q) as Hmono.
    { induction n as [|n IH]; intros [r|X e k]; cbn; try done. intros H x. by apply IH. }
    by apply Hmono.
Qed.

(** Where [main] can be stuck. *)
Lemma main_enabled p :
  proc_ok config p ->
  (exists r, pr_main p = Ret r) \/
  (forall failure faults, exists event p', pexec (MainStep failure event faults) p = Some p') \/
  (exists since, pr_draining p = Some since /\ pr_time p < since + SHUTDOWN_DRAIN_SECONDS /\ sy_worker (pr_sys p) <> Stopped).
Proof.
  intros Hok. destruct (po_main _ _ Hok) as [(n & Hn & Hm & Hf)|(e & Hm & _)]; [|left; by eexists].
  destruct (decide (n = 16)%nat) as [->|]; [left; by exists (Ok tt)|right].
  destruct (decide (n = 14)%nat) as [->|].
  - assert (is_Some (pr_draining p)) as [since Hd] by (apply (mf_draining _ _ Hf); lia).
    destruct (is_stopped (sy_worker (pr_sys p))) eqn:Hst.
    + left. intros failure faults. exists Sigterm. eexists. unfold proc_exec. rewrite Hm. cbn. by rewrite Hd, Hst.
    + destruct (Z.leb_spec (since + SHUTDOWN_DRAIN_SECONDS) (pr_time p)) as [Hle|Hlt].
      * left. intros failure faults. exists Sigterm. eexists. unfold proc_exec. rewrite Hm. cbn. rewrite Hd, Hst.
        by rewrite (proj2 (Z.leb_le _ _) Hle).
      * right. exists since. split_and!; [done|done|]. intros Hs. by rewrite Hs in Hst.
  - left. intros failure faults. exists Sigterm. unfold proc_exec. rewrite Hm.
    do 14 (destruct n as [|n]; [cbn -[restart lit loaded]; try case_bool_decide; repeat case_match; try (by eexists); naive_solver|]).
    do 2 (destruct n as [|n]; [done || by eexists|]). lia.
Qed.

(** *** What [main] has done to its tasks *)

Lemma running_governed p :
  proc_ok config p -> tasks_run p = true ->
  (sy_sessions (pr_sys p) <> ∅ -> NotifyReady ∈ pr_told p) /\
  (sy_shutdown (pr_sys p) = true <-> is_Some (pr_draining p)) /\
  (sy_shutdown (pr_sys p) = true -> pr_aborting p = true) /\
  (pr_aborting p = true -> NotifyStopping ∈ pr_told p) /\
  (pr_worker p = true -> pr_accept p = None -> pr_aborting p = true) /\
  (sy_worker (pr_sys p) = Stopped -> sy_shutdown (pr_sys p) = true).
Proof.
  intros Hok Htasks. destruct (po_main _ _ Hok) as [(n & Hn & Hm & Hf)|(e & Hm & He)].
  2: { unfold tasks_run in Htasks. rewrite Hm in Htasks. by rewrite andb_false_r in Htasks. }
  unfold tasks_run in Htasks. rewrite (mf_open _ _ Hf) in Htasks. apply andb_true_iff in Htasks as [Hopen _].
  apply Nat.leb_le in Hopen.
  pose proof (mf_aborting _ _ Hf) as Hab. pose proof (mf_serving _ _ Hf) as Hserving.
  rewrite (mf_flag _ _ Hf Hopen), (mf_draining _ _ Hf), (mf_stopping _ _ Hf), (mf_ready _ _ Hf), (mf_worker _ _ Hf), !Nat.leb_le.
  split_and!; [|done| | | |].
  - intros Hse. destruct (decide (6 <= n)%nat); [done|]. destruct Hse. apply (mf_sessions _ _ Hf). lia.
  - intros Hle. rewrite Hab. apply Nat.leb_le. lia.
  - rewrite Hab, Nat.leb_le. lia.
  - intros Hle Hno. destruct (pr_aborting p); [done|]. destruct Hserving as [q Hq]; [lia|done|congruence].
  - intros Hst. destruct (decide (14 <= n)%nat) as [|Hlt]; [done|exfalso].
    pose proof (po_worker _ _ Hok) as Hw. unfold worker_goes_on in Hw. rewrite Hst in Hw. apply Hw.
    rewrite (mf_flag _ _ Hf Hopen). apply Nat.leb_gt. lia.
Qed.

Lemma returned_governed p r :
  proc_ok config p -> pr_main p = Ret r -> NotifyReady ∈ pr_told p ->
  (exists io, r = Err (ChimneyError.Io io)) \/
  (r = Ok tt /\ NotifyStopping ∈ pr_told p /\ pr_aborting p = true /\ sy_shutdown (pr_sys p) = true /\
   (sy_worker (pr_sys p) = Stopped \/
    exists since, pr_draining p = Some since /\ since + SHUTDOWN_DRAIN_SECONDS <= pr_time p)).
Proof.
  intros Hok Hr Hready. destruct (po_main _ _ Hok) as [(n & Hn & Hm & Hf)|(e & Hm & He)].
  - right. rewrite Hm in Hr. destruct (main_at_over n r Hn Hr) as [-> ->].
    split_and!; [done|by apply (mf_stopping _ _ Hf); lia|by rewrite (mf_aborting _ _ Hf)| |apply (mf_drained _ _ Hf); lia].
    by rewrite (mf_flag _ _ Hf) by lia.
  - left. rewrite Hm in Hr. injection Hr as <-. destruct (He Hready) as [io ->]. by exists io.
Qed.

(** *** Mail that comes while [main] waits for the worker *)

Lemma drained_main_returns p :
  proc_ok config p -> tasks_run p = true -> is_Some (pr_draining p) -> sy_worker (pr_sys p) = Stopped ->
  exists n p', (n <= 2)%nat /\ prun (replicate n ok_step) p = Some p' /\ pr_main p' = Ret (Ok tt) /\ pr_sys p' = pr_sys p.
Proof.
  intros Hok Htasks Hdr Hst. destruct (po_main _ _ Hok) as [(n & Hn & Hm & Hf)|(e & Hm & _)].
  2: { unfold tasks_run in Htasks. rewrite Hm in Htasks. by rewrite andb_false_r in Htasks. }
  assert (14 <= n)%nat as Hle by (by apply (mf_draining _ _ Hf)). destruct Hdr as [since Hd].
  do 14 (destruct n as [|n]; [lia|]). destruct n as [|[|[|]]]; [..|lia].
  - exists 2%nat. eexists. split; [lia|]. split; [|split].
    + cbn [replicate proc_run]. unfold proc_exec, ok_step. rewrite Hm. cbn -[SHUTDOWN_DRAIN_SECONDS]. rewrite Hd, Hst.
      cbn. reflexivity.
    + done.
    + done.
  - exists 1%nat. eexists. split; [lia|]. split; [|split].
    + cbn [replicate proc_run]. unfold proc_exec, ok_step. rewrite Hm. cbn. reflexivity.
    + done.
    + done.
  - unfold tasks_run in Htasks. rewrite Hm in Htasks. by rewrite andb_false_r in Htasks.
Qed.

Lemma enqueued_row clock m s s' id :
  storable m -> enqueue clock m s = (s', Ok id) ->
  exists row, row ∈ db_outbox (ms_db s') /\ row_id row = id /\ row_message row = m.
Proof.
  intros Hm (_ & _ & _ & Hins)%enqueue_spec. unfold insert_outbox in Hins.
  destruct (next_rowid _ _) as [id'|e]; [|done]. cbn in Hins. injection Hins as Hdb <-. rewrite <- Hdb.
  eexists. split; [apply elem_of_app; right; left|]. split; [done|]. by apply stored_form_id.
Qed.
End ProcessProps.

(** C2: the process implements the service.  Whatever the outside does, each step of the
    process, of [main] or of a task, is a step of the service or leaves it as it is, and
    every state of its outbox is one the service can reach: the accept loop, whose calls
    come one at a time, never starts a session beyond the permits, the shutdown flag rises
    where [main] raises it, and a crash with a new start is a restart.  So what is proved of
    every execution of the service holds of every execution of the process. *)
Theorem process_refines_service {Url UserId RoomId Env Template : Type} `{Hjinja : Minijinja Env Template}
    (parse_url : str -> result str Url) (parse_user_id : str -> result str UserId)
    (parse_owned_room_id : str -> result str RoomId)
    (validate_email : str -> bool) (parse_mail : bytes -> option ParsedMail) (config : Config)
    (faults : list (option str)) (time : Z) (actions : list proc_action) (p : Proc)
    (Hrun : proc_run parse_url parse_user_id parse_owned_room_id validate_email parse_mail config actions (proc_init config faults time) = Some p) :
  let path := q_db_path (cfg_queue config) in
  reachable validate_email parse_mail config path faults (pr_sys p) /\
  forall a p', proc_exec parse_url parse_user_id parse_owned_room_id validate_email parse_mail config a p = Some p' ->
    pr_sys p' = pr_sys p \/ sys_step validate_email parse_mail config path (pr_sys p) (pr_sys p').
Proof.
  intros path. destruct (proc_run_ok parse_url parse_user_id parse_owned_room_id validate_email parse_mail config actions (proc_init config faults time) p
    (proc_init_ok config faults time) Hrun) as [Hok Hsteps]. split.
  - cbn [proc_init boot pr_sys] in Hsteps. subst path. clear Hrun Hok.
    apply rtc_ind_r with (P := reachable validate_email parse_mail config (q_db_path (cfg_queue config)) faults)
      (z := pr_sys p) in Hsteps; [done|apply reach_init|]. intros s s' _ Hstep Hs. by eapply reach_step.
  - intros a p' Ha. by destruct (proc_step_ok _ _ _ _ _ _ a p p' Hok Ha).
Qed.

(** C3: [main] governs its tasks.  In every state the process can reach: while its tasks
    run, there are sessions only after READY was told; the shutdown flag is up exactly
    when [main] is draining, and then the accept loop has been aborted, which happens only
    after STOPPING was told; a loop that was spawned ends in no other way, and the worker
    stops only if the flag is up.  The abort takes effect at the loop's next [accept], and
    the loop may take connections until then; once it has ended no process state to come has a
    session that was not there, until the process is started anew.  And when [main]
    returns after READY, then either the signal handler could not be installed, or it
    answers [Ok]: never because a task ended by itself, and only after the worker stopped
    or had thirty seconds to do so. *)
Theorem main_governs_its_tasks {Url UserId RoomId Env Template : Type} `{Hjinja : Minijinja Env Template}
    (parse_url : str -> result str Url) (parse_user_id : str -> result str UserId)
    (parse_owned_room_id : str -> result str RoomId)
    (validate_email : str -> bool) (parse_mail : bytes -> option ParsedMail) (config : Config)
    (faults : list (option str)) (time : Z) (actions : list proc_action) (p : Proc)
    (Hrun : proc_run parse_url parse_user_id parse_owned_room_id validate_email parse_mail config actions
              (proc_init config faults time) = Some p) :
  (tasks_run p = true ->
    (sy_sessions (pr_sys p) <> ∅ -> NotifyReady ∈ pr_told p) /\
    (sy_shutdown (pr_sys p) = true <-> is_Some (pr_draining p)) /\
    (sy_shutdown (pr_sys p) = true -> pr_aborting p = true) /\
    (pr_aborting p = true -> NotifyStopping ∈ pr_told p) /\
    (pr_worker p = true -> pr_accept p = None -> pr_aborting p = true) /\
    (sy_worker (pr_sys p) = Stopped -> sy_shutdown (pr_sys p) = true)) /\
  (pr_aborting p = true -> pr_accept p = None -> forall after p',
    forallb (fun a => negb (is_start a)) after = true ->
    proc_run parse_url parse_user_id parse_owned_room_id validate_email parse_mail config after p = Some p' ->
    pr_accept p' = None /\ dom (sy_sessions (pr_sys p')) ⊆ dom (sy_sessions (pr_sys p))) /\
  (forall r, pr_main p = Ret r -> NotifyReady ∈ pr_told p ->
    (exists io, r = Err (ChimneyError.Io io)) \/
    (r = Ok tt /\ NotifyStopping ∈ pr_told p /\ pr_aborting p = true /\ sy_shutdown (pr_sys p) = true /\
     (sy_worker (pr_sys p) = Stopped \/
      exists since, pr_draining p = Some since /\ since + SHUTDOWN_DRAIN_SECONDS <= pr_time p))).
Proof.
  destruct (proc_run_ok parse_url parse_user_id parse_owned_room_id validate_email parse_mail config actions _ p
    (proc_init_ok config faults time) Hrun) as [Hok _].
  split; [intros Htasks; by eapply running_governed|split; [|intros r Hr Hready; by eapply returned_governed]].
  intros Hab Hno after p' Hns Hafter.
  destruct (closed_run _ _ _ _ _ config (pr_sys p) after p p' Hok Hns Hafter) as (_ & Hno' & Hfree); [by split_and!|].
  split; [done|]. intros i Hi. apply elem_of_dom. apply elem_of_dom in Hi as [t Ht].
  destruct (sy_sessions (pr_sys p) !! i) eqn:Hp; [done|]. specialize (Hfree i Hp). congruence.
Qed.

(** C16: [main] returns when it is told to.  It makes at most sixteen calls in the
    life of a process, whatever the tasks do and however they are interleaved; and at
    any time it has returned, or it can go on (in its [select!], as soon as a signal
    arrives), or it waits for a worker that still runs, less than thirty seconds after it
    raised the flag.  So a wedged task, a hanging homeserver or a failing disk cannot keep
    [main] from returning. *)
Theorem main_comes_to_its_end {Url UserId RoomId Env Template : Type} `{Hjinja : Minijinja Env Template}
    (parse_url : str -> result str Url) (parse_user_id : str -> result str UserId)
    (parse_owned_room_id : str -> result str RoomId)
    (validate_email : str -> bool) (parse_mail : bytes -> option ParsedMail) (config : Config)
    (faults : list (option str)) (time : Z) (before after : list proc_action) (p p' : Proc)
    (Hbefore : proc_run parse_url parse_user_id parse_owned_room_id validate_email parse_mail config before (proc_init config faults time) = Some p)
    (Hafter : proc_run parse_url parse_user_id parse_owned_room_id validate_email parse_mail config after p = Some p')
    (Hlife : forallb (fun a => negb (is_start a)) after = true) :
  (length (filter (fun a => is_main_step a = true) after) <= 16)%nat /\
  ((exists r, pr_main p' = Ret r) \/
   (forall failure faults', exists event p'', proc_exec parse_url parse_user_id parse_owned_room_id validate_email parse_mail config (MainStep failure event faults') p' = Some p'') \/
   (exists since, pr_draining p' = Some since /\ pr_time p' < since + SHUTDOWN_DRAIN_SECONDS /\
      sy_worker (pr_sys p') <> Stopped)).
Proof.
  destruct (proc_run_ok parse_url parse_user_id parse_owned_room_id validate_email parse_mail config before _ p (proc_init_ok config faults time) Hbefore) as [Hok _].
  destruct (proc_run_ok parse_url parse_user_id parse_owned_room_id validate_email parse_mail config after p p' Hok Hafter) as [Hok' _]. split.
  - refine (run_at_most parse_url parse_user_id parse_owned_room_id validate_email parse_mail config 16 after p p' Hok Hlife Hafter _).
    exact (main_bounded _ _ _ _ _ config before _ p (proc_init_ok config faults time) at_most_main Hbefore).
  - by apply main_enabled.
Qed.

(** ** An execution

    The process starts, a client connects, a signal arrives, [main] stops accepting and
    the worker, which finds nothing to do, stops.  The session goes on. *)
Definition day_client : proc_action := AcceptStep (Ok (0%nat, 200%nat, day_reader, [])).
Definition up : list proc_action := [Starts] ++ replicate 10 ok_step ++ replicate 2 day_client.
Definition told_to_stop : list proc_action :=
  [WorkerMoves (Ok tt) (Ok tt); MonitorMoves true; Passes 5] ++ replicate 4 ok_step ++ [AcceptCancelled] ++
  replicate 6 (WorkerMoves (Ok tt) (Ok tt)).
Definition signalled : list proc_action := up ++ replicate 2 day_client ++ told_to_stop.
Definition while_draining : list proc_action := replicate 14 (SessionMoves 0) ++ replicate 2 ok_step.

Definition before_day : Proc := proc_init day_config [] 1000.
Abbreviation day_run := (proc_run toy_url toy_user toy_room toy_email no_mime day_config).
Definition drained : Proc := default before_day (day_run signalled before_day).
Definition exited : Proc := default before_day (day_run while_draining drained).

Lemma run_default actions p q :
  match day_run actions p with Some _ => true | None => false end = true ->
  day_run actions p = Some (default q (day_run actions p)).
Proof. by destruct (day_run actions p). Qed.

Lemma signalled_runs : day_run signalled before_day = Some drained.
Proof. apply run_default. vm_compute. reflexivity. Qed.

Definition about_to_spawn : Proc := default before_day (day_run up before_day).

Lemma drained_session :
  sy_sessions (pr_sys drained) !! 0%nat = Some (new_session toy_email no_mime day_config 200 day_reader []).
Proof.
  assert (day_run up before_day = Some about_to_spawn) as Hup by (apply run_default; vm_compute; reflexivity).
  destruct (proc_run_ok _ _ _ _ _ _ _ _ _ (proc_init_ok day_config [] 1000) Hup) as [Hok _].
  destruct (spawn_runs toy_url toy_user toy_room toy_email no_mime day_config about_to_spawn 0 200 day_reader [] 300
    (Ok (0%nat, 200%nat, day_reader, []))) as (p & Hp & Hopen & <-); [vm_compute; reflexivity..|].
  destruct (proc_run_ok _ _ _ _ _ _ _ _ _ Hok Hp) as [Hok' _].
  pose proof (proc_run_rest _ _ _ _ _ _ _ _ _ _ _ signalled_runs Hup) as Hs.
  pose proof (proc_run_rest _ _ _ _ _ _ _ _ _ _ _ Hs Hp) as Hrest.
  assert (pr_open p = true) as Hopen' by (rewrite Hopen; vm_compute; reflexivity).
  by rewrite (run_spares _ _ _ _ _ _ told_to_stop p drained Hok' Hopen' eq_refl Hrest).
Qed.

Lemma while_draining_runs : day_run while_draining drained = Some exited.
Proof. apply run_default. vm_compute. reflexivity. Qed.

Lemma exit_runs : day_run (signalled ++ while_draining) before_day = Some exited.
Proof. rewrite proc_run_app, signalled_runs. exact while_draining_runs. Qed.


Lemma process_refines_service_witness :
  sy_acked (pr_sys exited) = [(1, day_message)] /\
  reachable toy_email no_mime day_config day_path [] (pr_sys exited) /\
  forall a p', proc_exec toy_url toy_user toy_room toy_email no_mime day_config a exited = Some p' ->
    pr_sys p' = pr_sys exited \/ sys_step toy_email no_mime day_config day_path (pr_sys exited) (pr_sys p').
Proof.
  split; [vm_compute; reflexivity|].
  apply (process_refines_service toy_url toy_user toy_room toy_email no_mime day_config [] 1000 (signalled ++ while_draining) exited).
  exact exit_runs.
Defined.

Lemma main_governs_its_tasks_witness :
  tasks_run drained = true /\ pr_aborting drained = true /\ pr_accept drained = None /\ NotifyReady ∈ pr_told exited /\
  ((sy_shutdown (pr_sys drained) = true -> pr_aborting drained = true) /\
   (pr_aborting drained = true -> NotifyStopping ∈ pr_told drained)) /\
  (pr_accept exited = None /\ dom (sy_sessions (pr_sys exited)) ⊆ dom (sy_sessions (pr_sys drained))) /\
  (forall r, pr_main exited = Ret r -> NotifyReady ∈ pr_told exited ->
    (exists io, r = Err (ChimneyError.Io io)) \/
    (r = Ok tt /\ NotifyStopping ∈ pr_told exited /\ pr_aborting exited = true /\ sy_shutdown (pr_sys exited) = true /\
     (sy_worker (pr_sys exited) = Stopped \/
      exists since, pr_draining exited = Some since /\ since + SHUTDOWN_DRAIN_SECONDS <= pr_time exited))).
Proof.
  assert (tasks_run drained = true) as Htasks by (vm_compute; reflexivity).
  assert (pr_aborting drained = true) as Hab by (vm_compute; reflexivity).
  assert (pr_accept drained = None) as Hno by (vm_compute; reflexivity).
  destruct (main_governs_its_tasks toy_url toy_user toy_room toy_email no_mime day_config [] 1000 signalled drained signalled_runs)
    as (H1 & H2 & _).
  destruct (main_governs_its_tasks toy_url toy_user toy_room toy_email no_mime day_config [] 1000 (signalled ++ while_draining)
    exited exit_runs) as (_ & _ & H3).
  destruct (H1 Htasks) as (_ & _ & H4 & H5 & _).
  split_and!; [done..|apply (bool_decide_eq_true_1 _); vm_compute; reflexivity|exact H4|exact H5| | |exact H3];
    by apply (H2 Hab Hno while_draining exited eq_refl while_draining_runs).
Defined.


Lemma main_comes_to_its_end_witness :
  pr_main exited = Ret (Ok tt) /\
  (length (filter (fun a => is_main_step a = true) while_draining) <= 16)%nat /\
  ((exists r, pr_main exited = Ret r) \/
   (forall failure faults', exists event p'', proc_exec toy_url toy_user toy_room toy_email no_mime day_config (MainStep failure event faults') exited = Some p'') \/
   (exists since, pr_draining exited = Some since /\ pr_time exited < since + SHUTDOWN_DRAIN_SECONDS /\
      sy_worker (pr_sys exited) <> Stopped)).
Proof.
  split; [vm_compute; reflexivity|].
  exact (main_comes_to_its_end toy_url toy_user toy_room toy_email no_mime day_config [] 1000 signalled while_draining drained exited
    signalled_runs while_draining_runs eq_refl).
Defined.
