(* ===== verification/Relay.v ===== *)
(** * The service as a mail relay

    What the service promises as a whole, without tables, tasks or effects: it receives
    messages under fresh ids, acknowledges some, gives them to the sink, and each one
    leaves by being finished after a delivery or by being buried.  The simulation maps
    every step of [System] to at most one step of this relay; what is proved of the
    relay holds for the service. *)

From S2P Require Import Prelude RustStr Error Effects Store StoreFacts StoreSpec StoreProps Worker WorkerFacts WorkerProps.
From S2P Require Import Reader Mime ConfigData Net Session Serve SessionFacts SessionProps Main System SystemFacts SystemProps.

Record Relay : Type := mkRelay {
  rl_last : Z;                        (** the last id given out *)
  rl_pending : gmap Z Message;        (** received and still to be delivered *)
  rl_received : list (Z * Message);
  rl_acked : list (Z * Message);
  rl_given : list (Z * Message);      (** accepted by the sink, repetitions included *)
  rl_finished : list (Z * Message);   (** removed after a delivery *)
  rl_buried : list (Z * Message);     (** given up *)
}.

Definition relay_init : Relay := mkRelay 0 ∅ [] [] [] [] [].

Inductive relay_step : Relay -> Relay -> Prop :=
| relay_receive l p rc ak gv fn bu m :
    relay_step (mkRelay l p rc ak gv fn bu)
      (mkRelay (l + 1) (<[l + 1 := m]> p) (rc ++ [(l + 1, m)]) ak gv fn bu)
| relay_acknowledge l p rc ak gv fn bu id m :
    (id, m) ∈ rc ->
    relay_step (mkRelay l p rc ak gv fn bu) (mkRelay l p rc (ak ++ [(id, m)]) gv fn bu)
| relay_give l p rc ak gv fn bu id m :
    p !! id = Some m ->
    relay_step (mkRelay l p rc ak gv fn bu) (mkRelay l p rc ak (gv ++ [(id, m)]) fn bu)
| relay_finish l p rc ak gv fn bu id m :
    p !! id = Some m -> (id, m) ∈ gv ->
    relay_step (mkRelay l p rc ak gv fn bu) (mkRelay l (delete id p) rc ak gv (fn ++ [(id, m)]) bu)
| relay_bury l p rc ak gv fn bu id m :
    p !! id = Some m ->
    relay_step (mkRelay l p rc ak gv fn bu) (mkRelay l (delete id p) rc ak gv fn (bu ++ [(id, m)])).

(** ** What holds of every relay *)

Record relay_ok (a : Relay) : Prop := {
  rok_places : rl_received a ≡ₚ map_to_list (rl_pending a) ++ rl_finished a ++ rl_buried a;
  rok_ids : NoDup (rl_received a).*1;
  rok_last : Forall (fun x => x.1 <= rl_last a) (rl_received a);
  rok_acked : rl_acked a ⊆ rl_received a;
  rok_given : rl_given a ⊆ rl_received a;
  rok_finished : rl_finished a ⊆ rl_given a;
}.

Lemma relay_init_ok : relay_ok relay_init.
Proof. split; cbn; try done; constructor. Qed.

Lemma pending_received a id m : relay_ok a -> rl_pending a !! id = Some m -> (id, m) ∈ rl_received a.
Proof.
  intros Hok Hi. rewrite (rok_places _ Hok). apply elem_of_app. left. by apply elem_of_map_to_list.
Qed.

(** Moving a pending message to one of the two lists of those gone. *)
Lemma places_delete (p : gmap Z Message) (rc fn bu : list (Z * Message)) id m :
  p !! id = Some m -> rc ≡ₚ map_to_list p ++ fn ++ bu -> rc ≡ₚ map_to_list (delete id p) ++ (id, m) :: fn ++ bu.
Proof.
  intros Hi ->. rewrite <- (map_to_list_delete p id m Hi) at 1. apply Permutation_middle.
Qed.

Lemma relay_step_ok a a' : relay_ok a -> relay_step a a' -> relay_ok a'.
Proof.
  intros Hok Hstep. pose proof (pending_received a) as Hpend.
  destruct Hstep as [l p rc ak gv fn bu m|l p rc ak gv fn bu id m Hin|l p rc ak gv fn bu id m Hi
    |l p rc ak gv fn bu id m Hi Hg|l p rc ak gv fn bu id m Hi];
    destruct Hok as [Hpl Hids Hlast Hack Hgv Hfin]; cbn in *.
  - assert (p !! (l + 1) = None) as Hnone.
    { destruct (p !! (l + 1)) as [m'|] eqn:Hp; [|done]. rewrite Forall_forall in Hlast.
      assert ((l + 1, m') ∈ rc) as Hr; [|apply Hlast in Hr; cbn in Hr; lia].
      rewrite Hpl. apply elem_of_app. left. by apply elem_of_map_to_list. }
    assert (rc ⊆ rc ++ [(l + 1, m)]) as Hsub by (intros x Hx; apply elem_of_app; by left).
    split; cbn; [| | |by etransitivity..|done].
    + rewrite map_to_list_insert, Hpl by done. by rewrite (Permutation_app_comm _ [_]).
    + rewrite fmap_app. apply NoDup_app. split_and!; [done| |apply NoDup_singleton].
      intros i (x & -> & Hx)%list_elem_of_fmap Hl. rewrite Forall_forall in Hlast. apply Hlast in Hx.
      apply list_elem_of_singleton in Hl. cbn in *. lia.
    + apply Forall_app. split; [|constructor; [cbn; lia|constructor]].
      eapply Forall_impl; [exact Hlast|]. intros x ?. cbn in *. lia.
  - split; cbn; try done. intros x [Hx|Hx]%elem_of_app; [by apply Hack|].
    apply list_elem_of_singleton in Hx as ->. done.
  - split; cbn; try done.
    + intros x [Hx|Hx]%elem_of_app; [by apply Hgv|]. apply list_elem_of_singleton in Hx as ->. by apply Hpend.
    + intros x Hx. apply elem_of_app. left. by apply Hfin.
  - split; cbn; try done.
    + rewrite (places_delete p rc fn bu id m Hi Hpl). by rewrite <- app_assoc, (Permutation_middle _ bu).
    + intros x [Hx|Hx]%elem_of_app; [by apply Hfin|]. apply list_elem_of_singleton in Hx as ->. done.
  - split; cbn; try done.
    rewrite (places_delete p rc fn bu id m Hi Hpl), (app_assoc fn). by rewrite <- (Permutation_cons_append (fn ++ bu)).
Qed.

Lemma relay_steps_ok a a' : rtc relay_step a a' -> relay_ok a -> relay_ok a'.
Proof. induction 1; eauto using relay_step_ok. Qed.

Lemma map_to_list_entries rows :
  StronglySorted Z.lt (row_id <$> rows) ->
  map_to_list (entry_message <$> entries rows) ≡ₚ (fun r => (row_id r, row_message r)) <$> rows.
Proof.
  intros Hs. unfold entries. rewrite <- list_to_map_fmap, map_to_list_to_map.
  - rewrite <- !list_fmap_compose. done.
  - rewrite <- !list_fmap_compose. by apply sorted_NoDup.
Qed.

(** ** The service as a relay *)

Definition sunk_of (x : Z * Message) : str * Message := (idempotency_key x.1, x.2).

Record abstracts (s : Sys) (a : Relay) : Prop := {
  abs_last : rl_last a = q_last_id (queue_of (ms_db (sy_store s)));
  abs_pending : rl_pending a = entry_message <$> q_entries (queue_of (ms_db (sy_store s)));
  abs_received : rl_received a = sy_enqueued s;
  abs_acked : rl_acked a = sy_acked s;
  abs_sunk : sunk_of <$> rl_given a = sy_sunk s;
  abs_buried : (rl_buried a).*2 = letter_message <$> q_letters (queue_of (ms_db (sy_store s)));
}.

(** One step of the service is at most one step of the relay. *)
Definition simulates (s s' : Sys) : Prop :=
  forall a, abstracts s a -> exists a', bsteps relay_step 1 a a' /\ abstracts s' a'.

(** A step that changes no log and keeps ids, messages and letters is none at all. *)
Lemma simulates_same s s' :
  (forall q, q = queue_of (ms_db (sy_store s)) -> let q' := queue_of (ms_db (sy_store s')) in
     q_last_id q' = q_last_id q /\ entry_message <$> q_entries q' = entry_message <$> q_entries q /\
     q_letters q' = q_letters q) ->
  sy_enqueued s' = sy_enqueued s -> sy_acked s' = sy_acked s -> sy_sunk s' = sy_sunk s -> simulates s s'.
Proof.
  intros Hq He Ha Hs a []. destruct (Hq _ eq_refl) as (H1 & H2 & H3). exists a. split; [constructor|].
  split; rewrite ?H1, ?H2, ?H3, ?He, ?Ha, ?Hs; done.
Qed.

Lemma simulates_same_store s s' :
  sy_store s' = sy_store s ->
  sy_enqueued s' = sy_enqueued s -> sy_acked s' = sy_acked s -> sy_sunk s' = sy_sunk s -> simulates s s'.
Proof. intros Hst. apply simulates_same. intros q ->. by rewrite Hst. Qed.

Lemma given_of s a id m : abstracts s a -> (idempotency_key id, m) ∈ sy_sunk s -> (id, m) ∈ rl_given a.
Proof.
  intros Habs. rewrite <- (abs_sunk _ _ Habs).
  intros ((i & m') & Hx & Hin)%list_elem_of_fmap. injection Hx as Hk ->.
  by apply show_int_inj in Hk as ->.
Qed.

Lemma held_pending s a st : abstracts s a -> held s st -> rl_pending a !! sm_id st = Some (sm_message st).
Proof. intros Habs (e & He & Hm). rewrite (abs_pending _ _ Habs), lookup_fmap, He. cbn. by rewrite Hm. Qed.

Lemma messages_alter (m : gmap Z entry) i a n :
  entry_message <$> alter (fun e => mkEntry (entry_message e) a n) i m = entry_message <$> m.
Proof.
  apply map_eq. intros j. rewrite !lookup_fmap, lookup_alter. case_decide; [subst|done]. by destruct (m !! j).
Qed.

Lemma step_event_dead_lettered op st clock id err :
  (step op st).2 = EvDeadLettered clock id err -> op = OpDeadLetter clock id err.
Proof.
  destruct op; cbn; match goal with |- context [prod_map _ _ ?x] => destruct x as [? r] end; cbn;
    destruct r as [|[]]; cbn; congruence.
Qed.

(** *** The worker *)

Section Worker.
Variable config : Config.
Variable s : Sys.
Variable ph : wphase.
Hypothesis Hwf : db_wf (ms_db (sy_store s)).
Hypothesis Hph : wphase_ok s ph.

(** One operation of the store by the worker: what it means for the relay. *)
Lemma simulates_op op st w' :
  op_args_ok op -> st = (step op (sy_store s)).1 ->
  match op with
  | OpEnqueue _ _ => False
  | OpMarkDelivered id => exists st', ph = WSunk st' /\ id = sm_id st'
  | OpDeadLetter _ id _ => exists st', ph = WFailed st' /\ id = sm_id st'
  | _ => True
  end ->
  simulates s (set_worker s st w' []).
Proof.
  intros Hargs -> Hcase.
  pose proof (refine_step op (sy_store s) _ _ Hwf (surjective_pairing _)) as Hq.
  set (s' := set_worker s _ w' []).
  assert (sy_sunk s' = sy_sunk s) as Hsunk by (cbn; by rewrite app_nil_r).
  remember (step op (sy_store s)).2 as ev eqn:Hev.
  change (ms_db (step op (sy_store s)).1) with (ms_db (sy_store s')) in Hq.
  remember (queue_of (ms_db (sy_store s))) as q eqn:Eq. remember (queue_of (ms_db (sy_store s'))) as q' eqn:Eq'.
  destruct Hq as [q clock m Hlt|q|q now H|q now i0 e0 H H1 H2|q i0|q clock i0 err e0 H|q clock i0 err H
    |q i0 a n|q now H|q now t i0 e0 H H1 H2 H3|q n H|q n H|q err];
    try (apply simulates_same; [intros ? ->; rewrite <- Eq, <- Eq'|..]; done).
  - symmetry in Hev. apply step_event_enqueued in Hev as ->. done.
  - symmetry in Hev. apply step_event_delivered in Hev as ->.
    destruct Hcase as (st & -> & ->). destruct Hph as [Hh Hgiven].
    intros [l p rc ak gv fn bu] Habs. pose proof (held_pending _ _ _ Habs Hh) as Hp.
    pose proof (given_of _ _ _ _ Habs Hgiven) as Hg. destruct Habs as [Hl Hpd Hrc Hak Hgv Hbu]. cbn in Hp, Hg.
    rewrite <- Eq in Hl, Hpd, Hbu. cbn in Hl, Hpd, Hbu.
    eexists. split; [apply bsteps_once, (relay_finish _ _ _ _ _ _ _ _ _ Hp Hg)|].
    split; rewrite <- ?Eq'; cbn; rewrite ?app_nil_r; try done. by rewrite Hpd, fmap_delete.
  - symmetry in Hev. apply step_event_dead_lettered in Hev as ->.
    destruct Hcase as (st & -> & ->).
    intros [l p rc ak gv fn bu] Habs. pose proof (held_pending _ _ _ Habs Hph) as Hp.
    destruct Habs as [Hl Hpd Hrc Hak Hgv Hbu]. cbn in Hp.
    rewrite <- Eq in Hl, Hpd, Hbu. cbn in Hl, Hpd, Hbu.
    eexists. split; [apply bsteps_once, (relay_bury _ _ _ _ _ _ _ _ _ Hp)|].
    split; rewrite <- ?Eq'; cbn; rewrite ?app_nil_r; try done; [by rewrite Hpd, fmap_delete|].
    rewrite !fmap_app, Hbu. rewrite Hpd, lookup_fmap, H in Hp. injection Hp as <-. done.
  - apply simulates_same; [intros ? ->; rewrite <- Eq, <- Eq'|done..].
    split_and!; [done| |done]. apply messages_alter.
Qed.

Lemma worker_simulates {X} (e : WE X) x st' w' ph' :
  worker_step ph X e x = Some ph' -> worker_answer (sy_shutdown s) (sy_store s) e x st' ->
  simulates s (set_worker s st' w' (log_sunk e x)).
Proof.
  intros Hstep Hans. destruct (worker_answer_op _ _ _ _ _ Hans) as (clock & Hop).
  destruct (worker_op e clock) as [op|] eqn:Hwop.
  - assert (log_sunk e x = []) as -> by (by destruct e).
    destruct Hop as [-> _].
    apply (simulates_op op); [by eapply worker_op_ok|done|].
    destruct e; cbn in Hwop; try done; injection Hwop as <-; try done; cbn in Hstep;
      destruct ph as [|st|st|st]; try done; case_bool_decide as Hid; try done; by exists st.
  - subst st'. destruct e as [|now|id|id err|id a n|now|X e| | | |]; try done;
      try (apply simulates_same_store; cbn; rewrite ?app_nil_r; done).
    destruct e as [m key]. cbn in Hstep. destruct ph as [|st|st|st] eqn:Eph; try done.
    destruct (bool_decide_reflect (m = sm_message st)) as [->|]; [|done].
    destruct (bool_decide_reflect (key = idempotency_key (sm_id st))) as [->|]; [|done].
    destruct x as [u|err]; [|apply simulates_same_store; cbn; rewrite ?app_nil_r; done].
    intros [l p rc ak gv fn bu] Habs. pose proof (held_pending _ _ _ Habs Hph) as Hp.
    destruct Habs as [Hl Hpd Hrc Hak Hgv Hbu]. cbn in Hp.
    eexists. split; [apply bsteps_once, (relay_give _ _ _ _ _ _ _ _ _ Hp)|].
    split; cbn; try done. rewrite fmap_app. cbn in Hgv. by rewrite Hgv.
Qed.
End Worker.

(** *** The service *)

Section Service.
Variable validate_email : str -> bool.
Variable parse_mail : bytes -> option ParsedMail.
Variable config : Config.
Variable path : str.
Hypothesis Hmax : is_u64 (q_max_len (cfg_queue config)).
Hypothesis Hpath : path <> lit ":memory:".

Abbreviation invariant := (sys_ok validate_email parse_mail config).
Abbreviation sstep := (sys_step validate_email parse_mail config path).

(** A message is stored, by a session or after its end. *)
Lemma stored_simulates s s' clock message r :
  db_wf (ms_db (sy_store s)) -> storable message ->
  ms_db (sy_store s') = ms_db (step (OpEnqueue clock message) (sy_store s)).1 ->
  (step (OpEnqueue clock message) (sy_store s)).2 = event_of (EvEnqueued clock message) r ->
  sy_enqueued s' = sy_enqueued s ++ match r with Ok id => [(id, message)] | Err _ => [] end ->
  sy_acked s' = sy_acked s -> sy_sunk s' = sy_sunk s -> simulates s s'.
Proof.
  intros Hwf Hsto Hdb Hev Ee Ea Ek.
  pose proof (refine_step (OpEnqueue clock message) (sy_store s) _ _ Hwf (surjective_pairing _)) as Hq.
  rewrite Hev, <- Hdb in Hq. destruct r as [id|err].
  - apply enqueued_inv in Hq as (-> & Hlt & Hq).
    intros [l p rc ak gv fn bu] []; cbn [rl_last rl_pending rl_received rl_acked rl_given rl_buried] in *. subst.
    eexists. split; [apply bsteps_once, (relay_receive _ _ _ _ _ _ _ message)|].
    split; rewrite ?Hq; cbn [rl_last rl_pending rl_received rl_acked rl_given rl_buried q_entries q_last_id q_letters];
      rewrite ?Ee, ?Ea, ?Ek; try done.
    by rewrite fmap_insert, stored_form_id.
  - assert (queue_of (ms_db (sy_store s')) = queue_of (ms_db (sy_store s))) as Hsame.
    { by apply failed_inv in Hq. }
    apply simulates_same; try done; [|by rewrite Ee, app_nil_r].
    intros ? ->. by rewrite Hsame.
Qed.

Lemma session_simulates s s' t {X} (e : SmtpE X) clock w' x ph' :
  invariant s -> task_ok validate_email parse_mail s t ->
  smtp_handler X e (session_world t (sy_store s) clock) = (w', x) ->
  smtp_step validate_email parse_mail (t_phase t) X e x = Some ph' ->
  sy_store s' = sw_store w' -> sy_enqueued s' = sy_enqueued s ++ log_enqueued e x ->
  sy_acked s' = sy_acked s ++ log_acked (t_phase t) e x -> sy_sunk s' = sy_sunk s ->
  simulates s s'.
Proof.
  intros Hok [_ Hst] Hh Hstep Es Ee Ea Ek.
  destruct (session_effect_cases _ _ s t X e clock w' x ph' Hh Hstep)
    as [(Hstore & Hlog & _)|(message & Hstore & Hsto & r & Hev & Hph' & Hlog & Hna)].
  - rewrite Hlog, app_nil_r in Ee. rewrite Hstore in Es.
    destruct (log_acked (t_phase t) e x) as [|[id m] rest] eqn:Hack.
    { apply simulates_same_store; try done. by rewrite Ea, app_nil_r. }
    assert (rest = [] /\ (id, m) ∈ sy_enqueued s) as [-> Hin].
    { destruct e; cbn in Hack; try done. destruct (t_phase t); try done. destruct x; try done.
      injection Hack as <- <- <-. split; [done|]. by apply Hst. }
    intros [l p rc ak gv fn bu] []; cbn in *. subst rc.
    eexists. split; [apply bsteps_once, relay_acknowledge, Hin|].
    split; cbn; rewrite ?Es, ?Ee, ?Ek; try done. rewrite Ea. by f_equal.
  - rewrite Hna, app_nil_r in Ea. rewrite Hlog in Ee. apply (stored_simulates s s' clock message r); try done.
    + apply Hok.
    + by rewrite Es, Hstore.
Qed.

Lemma sys_step_simulates s s' : invariant s -> sstep s s' -> simulates s s'.
Proof.
  intros Hok Hstep. destruct Hstep as [s i fuel rd faults Hsize Hnone|s Hsize|s i t X e k clock w' x Hi Hp Hh|s i
    |s i t m k Hi Hp|s j m clock st' r Hj Hc|s X e k x st' Hw Ha|s Hw|s Hw|s sink Hw|s X e k x st' Hw Ha|s Hw|s Hw|s|s faults st' Hr
    |s X e x st' Ha];
    try (apply simulates_same_store; cbn; rewrite ?app_nil_r; done).
  - pose proof (ok_sessions _ _ _ _ Hok i t Hi) as Htask. destruct Htask as [Hc Hst].
    pose proof Hc as Hc'. rewrite Hp in Hc'. specialize (Hc' x).
    pose proof (smtp_handler_rely X e (session_world t (sy_store s) clock)) as Hrely. rewrite Hh in Hrely.
    specialize (Hc' Hrely). destruct (smtp_step _ _ (t_phase t) X e x) as [ph'|] eqn:Hph; [|done].
    by eapply (session_simulates s _ t e clock w' x ph').
  - rewrite enqueue_commit_enqueue in Hc. injection Hc as Hst Hr.
    assert (storable m) as Hsto by (eapply (Forall_lookup_1 storable); [apply Hok|done]).
    apply (stored_simulates _ _ clock m r); try done; [apply Hok| |]; cbn; subst; by destruct (enqueue clock m (sy_store s)).
  - destruct (ok_worker _ _ _ _ Hok) as (ph & Hph & Hc). rewrite Hw in Hc. specialize (Hc x I).
    destruct (worker_step ph X e x) as [ph'|] eqn:Hstep; [|done].
    by eapply (worker_simulates s ph); [apply Hok|..].
  - destruct (ok_worker _ _ _ _ Hok) as (ph & Hph & Hc). rewrite Hw in Hc. specialize (Hc x I).
    destruct (worker_step ph X e x) as [ph'|] eqn:Hstep; [|done].
    by eapply (worker_simulates s ph); [apply Hok|..].
  - destruct (restart_ok _ _ _ _ _ Hpath Hr) as (Hdb & _).
    apply simulates_same; try done. intros ? ->. cbn [sy_store]. by rewrite Hdb.
  - apply monitor_answer_spec in Ha as (Hdb & _).
    apply simulates_same; cbn; rewrite ?app_nil_r; try done. intros ? ->. by rewrite Hdb.
Qed.

Lemma sys_init_abstracts faults : abstracts (sys_init config faults) relay_init.
Proof. by split. Qed.

Lemma reachable_abstracts faults s :
  reachable validate_email parse_mail config path faults s ->
  exists a, rtc relay_step relay_init a /\ abstracts s a.
Proof.
  induction 1 as [|s s' Hr (a & Hsteps & Habs) Hstep]; [exists relay_init; split; [done|apply sys_init_abstracts]|].
  pose proof (reachable_ok _ _ _ _ Hmax Hpath faults s Hr) as Hok.
  destruct (sys_step_simulates s s' Hok Hstep a Habs) as (a' & Ha & Habs').
  exists a'. split; [|done]. etransitivity; [exact Hsteps|]. apply rtc_bsteps. by eexists.
Qed.
Lemma reachable_one_place faults s :
  reachable validate_email parse_mail config path faults s ->
  exists finished buried,
    sy_enqueued s ≡ₚ ((fun r => (row_id r, row_message r)) <$> db_outbox (ms_db (sy_store s))) ++ finished ++ buried /\
    NoDup (sy_enqueued s).*1 /\
    (forall id m, (id, m) ∈ finished -> (idempotency_key id, m) ∈ sy_sunk s) /\
    buried.*2 = letter_message ∘ dead_to_letter <$> db_dead (ms_db (sy_store s)) /\
    forall id m, (id, m) ∈ sy_acked s -> (id, m) ∈ sy_enqueued s.
Proof.
  intros Hreach. destruct (reachable_abstracts _ _ Hreach) as (a & Hsteps & [_ Hp Hrc Hak Hgv Hbu]).
  pose proof (relay_steps_ok _ _ Hsteps relay_init_ok) as [Hpl Hids _ Hack _ Hfin].
  pose proof (reachable_ok _ _ _ _ Hmax Hpath _ _ Hreach) as Hok.
  exists (rl_finished a), (rl_buried a). rewrite <- Hrc. split_and!; [|done| | |].
  - rewrite Hpl. apply Permutation_app_tail. rewrite Hp. apply map_to_list_entries, Hok.
  - intros id m Hin. rewrite <- Hgv. apply list_elem_of_fmap. exists (id, m). split; [done|by apply Hfin].
  - by rewrite Hbu, list_fmap_compose.
  - intros id m. rewrite <- Hak. apply Hack.
Qed.

(** Dead letters stay. *)
Lemma relay_step_buried a a' : relay_step a a' -> rl_buried a `prefix_of` rl_buried a'.
Proof. destruct 1; cbn; try done. by apply prefix_app_r. Qed.

Lemma reachable_step_dead faults s s' :
  reachable validate_email parse_mail config path faults s -> sstep s s' ->
  letter_message <$> q_letters (queue_of (ms_db (sy_store s))) `prefix_of`
  letter_message <$> q_letters (queue_of (ms_db (sy_store s'))).
Proof.
  intros Hr Hstep. destruct (reachable_abstracts _ _ Hr) as (a & _ & Habs).
  pose proof (reachable_ok _ _ _ _ Hmax Hpath faults s Hr) as Hok.
  destruct (sys_step_simulates s s' Hok Hstep a Habs) as (a' & Ha & Habs').
  rewrite <- (abs_buried _ _ Habs), <- (abs_buried _ _ Habs').
  assert (rl_buried a `prefix_of` rl_buried a') as [k ->]; [|rewrite fmap_app; by apply prefix_app_r].
  clear Habs Habs'. assert (rtc relay_step a a') as Hsteps by (apply rtc_bsteps; by eexists). clear Ha.
  induction Hsteps as [|? ? ? Ha _ IH]; [done|]. etransitivity; [by apply relay_step_buried|done].
Qed.
End Service.


(** C1: the service is a mail relay.  Every state the service can reach is the image of a
    state the relay can reach, and every step from it, whoever takes it and whatever
    the storage does, is one step of the relay or none: a receipt under a fresh id, an
    acknowledgement of a received message, a delivery of a pending message under the key of
    its id, the removal of a message that was delivered, or the burial of a pending one. *)
Theorem service_refines_relay (validate_email : str -> bool) (parse_mail : bytes -> option ParsedMail)
    (config : Config) (path : str) (faults : list (option str)) (s : Sys)
    (Hmax : is_u64 (q_max_len (cfg_queue config))) (Hpath : path <> lit ":memory:")
    (Hreach : reachable validate_email parse_mail config path faults s) :
  (exists a, rtc relay_step relay_init a /\ abstracts s a) /\
  forall s' a, sys_step validate_email parse_mail config path s s' -> abstracts s a ->
    exists a', bsteps relay_step 1 a a' /\ abstracts s' a'.
Proof.
  split; [by eapply reachable_abstracts|]. intros s' a Hstep Habs.
  eapply (sys_step_simulates validate_email parse_mail config path Hpath s s'); [|done..].
  by apply (reachable_ok validate_email parse_mail config path Hmax Hpath faults).
Qed.

(** C4: every received message is in exactly one place.  In every reachable state the
    messages the service ever stored, with their ids, are as a multiset those in the outbox,
    those removed after the sink accepted them, and those in the dead-letter table: none is
    lost, none is in two places, and no id was ever used twice.  Only stored messages were
    acknowledged. *)
Theorem every_message_in_one_place (validate_email : str -> bool) (parse_mail : bytes -> option ParsedMail)
    (config : Config) (path : str) (faults : list (option str)) (s : Sys)
    (Hmax : is_u64 (q_max_len (cfg_queue config))) (Hpath : path <> lit ":memory:")
    (Hreach : reachable validate_email parse_mail config path faults s) :
  exists finished buried,
    sy_enqueued s ≡ₚ ((fun r => (row_id r, row_message r)) <$> db_outbox (ms_db (sy_store s))) ++ finished ++ buried /\
    NoDup (sy_enqueued s).*1 /\
    (forall id m, (id, m) ∈ finished -> (idempotency_key id, m) ∈ sy_sunk s) /\
    buried.*2 = letter_message ∘ dead_to_letter <$> db_dead (ms_db (sy_store s)) /\
    forall id m, (id, m) ∈ sy_acked s -> (id, m) ∈ sy_enqueued s.
Proof. by eapply reachable_one_place. Qed.

Lemma service_refines_relay_witness :
  sy_acked after_day = [(1, day_message)] /\
  (exists a, rtc relay_step relay_init a /\ abstracts after_day a) /\
  forall s' a, sys_step toy_email no_mime day_config day_path after_day s' -> abstracts after_day a ->
    exists a', bsteps relay_step 1 a a' /\ abstracts s' a'.
Proof.
  split; [vm_compute; reflexivity|].
  apply (service_refines_relay toy_email no_mime day_config day_path [] after_day).
  - split; vm_compute; discriminate.
  - discriminate.
  - exact day_reachable.
Defined.

Lemma every_message_in_one_place_witness :
  sy_enqueued after_day = [(1, day_message)] /\
  exists finished buried,
    sy_enqueued after_day ≡ₚ
      ((fun r => (row_id r, row_message r)) <$> db_outbox (ms_db (sy_store after_day))) ++ finished ++ buried /\
    NoDup (sy_enqueued after_day).*1 /\
    (forall id m, (id, m) ∈ finished -> (idempotency_key id, m) ∈ sy_sunk after_day) /\
    buried.*2 = letter_message ∘ dead_to_letter <$> db_dead (ms_db (sy_store after_day)) /\
    forall id m, (id, m) ∈ sy_acked after_day -> (id, m) ∈ sy_enqueued after_day.
Proof.
  split; [vm_compute; reflexivity|].
  apply (every_message_in_one_place toy_email no_mime day_config day_path [] after_day).
  - split; vm_compute; discriminate.
  - discriminate.
  - exact day_reachable.
Defined.
