(* ===== verification/Fair.v ===== *)
(** * Every fair schedule delivers

    From any reachable state the process is restarted, and then anything may happen, in
    any order: connections, sessions and their ends, and turns of the worker, with a
    homeserver that accepts and storage that works.  The measure [work_left] drops at
    every turn of the worker while an old message waits, and only a new message raises it. *)

From S2P Require Import Prelude RustStr Error Effects Store StoreFacts StoreSpec StoreProps Worker WorkerFacts.
From S2P Require Import Reader Mime ConfigData Net Session Serve SessionFacts SessionProps Main System SystemFacts SystemProps Relay.

(** ** Schedules *)

(** What may happen: no signal, no second restart, and the worker's clock reads at least
    [lo] and its sink accepts. *)
Definition fair_action (lo : Z) (a : action) : Prop :=
  match a with
  | WorkerStep clock sink => lo <= clock <= i64_max /\ sink = Ok tt
  | Signal | Restart _ => False
  | _ => True
  end.

Definition is_worker_step (a : action) : bool := match a with WorkerStep _ _ => true | _ => false end.

(** How often it is the worker's turn. *)
Definition turns (actions : list action) : nat := length (filter (fun a => is_worker_step a = true) actions).

Lemma turns_cons a actions : turns (a :: actions) = ((if is_worker_step a then 1 else 0) + turns actions)%nat.
Proof. unfold turns. rewrite filter_cons. by destruct (is_worker_step a). Qed.

Lemma turns_app before after : turns (before ++ after) = (turns before + turns after)%nat.
Proof. unfold turns. by rewrite filter_app, length_app. Qed.

Lemma turns_worker n clock sink : turns (replicate n (WorkerStep clock sink)) = n.
Proof. induction n as [|n IH]; [done|]. cbn [replicate]. by rewrite turns_cons, IH. Qed.

(** ** The store *)

Lemma statement_keeps_no_faults {A} (f : Db -> result str (Db * A)) db :
  conn_faults (statement f (mkConn db [])).1 = [].
Proof. rewrite statement_no_faults. by destruct (f db) as [[]|]. Qed.

Lemma enqueue_keeps_no_faults clock m s : no_faults s -> no_faults (enqueue clock m s).1.
Proof.
  intros Hnf. rewrite enqueue_eq. unfold enqueue_commit. rewrite with_conn_no_faults by done.
  assert (conn_faults (enqueue_sql (ms_max_len s) m (unix_now clock) (mkConn (ms_db s) [])).1 = []) as H.
  { unfold enqueue_sql. unfold mbind, sql_bind. destruct (0 <? ms_max_len s); cbn; [|apply statement_keeps_no_faults].
    destruct (_ <=? _); cbn; [done|]. apply statement_keeps_no_faults. }
  destruct (enqueue_sql _ _ _ _) as [c [id|e]]; done.
Qed.

Lemma monitor_keeps_no_faults dead s :
  no_faults s -> no_faults (if dead : bool then (dead_letter_len s).1 else (len s).1).
Proof. intros Hnf. destruct dead; unfold len, dead_letter_len; by rewrite with_conn_no_faults. Qed.

(** What an enqueue does to the rows: nothing, or one more, due at once and not tried yet. *)
Lemma enqueue_rows clock m s :
  db_wf (ms_db s) -> let '(s', r) := enqueue clock m s in
  db_dead_seq (ms_db s') = db_dead_seq (ms_db s) /\
  match r with
  | Ok id => exists row, (row_next_attempt_at row = 0 /\ row_attempts row = 0) /\ db_outbox (ms_db s') = db_outbox (ms_db s) ++ [row]
  | Err _ => db_outbox (ms_db s') = db_outbox (ms_db s)
  end.
Proof.
  intros Hwf. destruct (enqueue clock m s) as [s' r] eqn:H. apply enqueue_spec in H as [_ H]. destruct r as [id|e].
  - destruct H as (_ & _ & Hins). apply insert_outbox_ok in Hins as (_ & _ & ->); [|done].
    split; [done|]. eexists. split; [|done]. done.
  - by destruct H as [-> _].
Qed.

(** ** The worker's turns *)

(** The answers of a round that delivers [st] at time [now]. *)
Definition delivers (now : Z) (st : StoredMessage) (X : Type) (e : WE X) : X :=
  match e in WorkerE _ _ X return X with
  | UnixNow => now
  | ClaimNextReady _ => Ok (Some st)
  | MarkDelivered _ => Ok tt
  | DeadLetter _ _ => Ok tt
  | Reschedule _ _ _ => Ok tt
  | NextWakeup _ => Ok None
  | SinkCall e' => match e' in SinkE X return X with Deliver _ _ => Ok tt end
  | Connect => Ok tt
  | ShutdownBorrow => false
  | SelectIdle _ => tt
  | SelectSleep _ => tt
  end.

Section Fair.
Variable validate_email : str -> bool.
Variable parse_mail : bytes -> option ParsedMail.
Variable config : Config.
Variable path : str.
Variable lo : Z.
Hypothesis Hlo : 0 <= lo.

Abbreviation act := (exec_action validate_email parse_mail config path).

Definition round_at (j : nat) (now : Z) (st : StoredMessage) : WTask :=
  Running (Nat.iter j (resume (delivers now st)) (run_body (worker config))).
Definition connect_at (j : nat) (now : Z) (st : StoredMessage) : WTask :=
  Connecting (Nat.iter j (resume (delivers now st)) (reconnect_body RECONNECT_BACKOFF_SECONDS)).

Abbreviation outbox s := (db_outbox (ms_db (sy_store s))).

(** How many turns the worker needs at most to empty the outbox. *)
Inductive work_left (s : Sys) : nat -> Prop :=
| wl_connect j now st : (j <= 2)%nat -> sy_worker s = connect_at j now st -> work_left s (3 - j + 5 * length (outbox s))
| wl_start now st : sy_worker s = round_at 0 now st -> work_left s (5 * length (outbox s))
| wl_claim now st : lo <= now -> sy_worker s = round_at 1 now st -> work_left s (5 * length (outbox s) - 1)
| wl_deliver now r :
    r ∈ outbox s -> sy_worker s = round_at 2 now (row_to_stored r) -> work_left s (5 * length (outbox s) - 2)
| wl_mark now r :
    r ∈ outbox s -> (idempotency_key (row_id r), row_message r) ∈ sy_sunk s ->
    sy_worker s = round_at 3 now (row_to_stored r) -> work_left s (5 * length (outbox s) - 3)
| wl_again now st : sy_worker s = round_at 4 now st -> work_left s (5 * length (outbox s) + 1).

Definition sunk_row (s : Sys) (r : outbox_row) : Prop := (idempotency_key (row_id r), row_message r) ∈ sy_sunk s.

(** The rows the process started with wait in the outbox or were accepted. *)
Record fair_ok (rows : list outbox_row) (s : Sys) : Prop := {
  fo_faults : no_faults (sy_store s);
  fo_wf : db_wf (ms_db (sy_store s));
  fo_running : sy_shutdown s = false;
  fo_due : Forall (fun r => row_next_attempt_at r <= lo) (outbox s);
  fo_rows : forall r, r ∈ rows -> sunk_row s r \/ r ∈ outbox s;
}.

Lemma work_left_pos s n r : work_left s n -> r ∈ outbox s -> (0 < n)%nat.
Proof. intros Hw Hr%elem_length. destruct Hw; lia. Qed.

(** Either all of the old rows are gone, or one waits. *)
Lemma some_row_waits (rows : list outbox_row) s :
  (forall r, r ∈ rows -> sunk_row s r \/ r ∈ outbox s) ->
  (forall r, r ∈ rows -> sunk_row s r) \/ exists r, r ∈ outbox s.
Proof.
  induction rows as [|r rows IH]; intros Hall; [left; by intros r ?%not_elem_of_nil|].
  destruct (Hall r (list_elem_of_here _ _)) as [Hs|Hr]; [|right; by exists r].
  destruct IH as [H|H]; [|left|by right].
  - intros r' Hr'. apply Hall. by right.
  - intros r' [->|Hr']%elem_of_cons; [done|by apply H].
Qed.

(** A turn of another task: the worker and what it waits for stay, and each message it
    stores is one more row, due at once and not tried yet. *)
Record others_moved (s s' : Sys) : Prop := {
  om_worker : sy_worker s' = sy_worker s;
  om_sunk : sy_sunk s' = sy_sunk s;
  om_shutdown : sy_shutdown s' = sy_shutdown s;
  om_faults : no_faults (sy_store s) -> no_faults (sy_store s');
  om_dead : db_dead_seq (ms_db (sy_store s')) = db_dead_seq (ms_db (sy_store s));
  om_rows : exists new, outbox s' = outbox s ++ new /\ Forall (fun r => row_next_attempt_at r = 0 /\ row_attempts r = 0) new /\
              length (sy_enqueued s') = (length (sy_enqueued s) + length new)%nat;
}.

Lemma others_unmoved s m : others_moved s (set_sessions s m).
Proof. split; try done. exists []. cbn. split_and!; [by rewrite app_nil_r|constructor|lia]. Qed.

Lemma enqueued_rows (rows rows' : list outbox_row) (before : list (Z * Message)) m (r : Result Z) :
  match r with
  | Ok _ => exists row, (row_next_attempt_at row = 0 /\ row_attempts row = 0) /\ rows' = rows ++ [row]
  | Err _ => rows' = rows
  end ->
  exists new, rows' = rows ++ new /\ Forall (fun r => row_next_attempt_at r = 0 /\ row_attempts r = 0) new /\
    length (before ++ match r with Ok id => [(id, m)] | Err _ => [] end) = (length before + length new)%nat.
Proof.
  destruct r as [id|e]; cbn.
  - intros (row & Hdue & ->). exists [row]. rewrite length_app. split_and!; [done| |done]. by constructor.
  - intros ->. exists []. rewrite !app_nil_r. split_and!; [done|constructor|cbn; lia].
Qed.

Lemma session_step_moved s s' i clock :
  db_wf (ms_db (sy_store s)) -> act (SessionStep i clock) s = Some s' -> others_moved s s'.
Proof.
  intros Hwf. cbn. destruct (sy_sessions s !! i) as [t|]; [|done]. destruct (t_prog t) as [|X e k]; [done|].
  destruct e as [d n|n d|b|m]; cbn.
  - destruct (read_line_limited _ _ _) as [[r rd] text]. intros [= <-]. split; try done.
    exists []. cbn. rewrite !app_nil_r. split_and!; [done|constructor|lia].
  - destruct (read_data _ _) as [r rd]. intros [= <-]. split; try done.
    exists []. cbn. rewrite !app_nil_r. split_and!; [done|constructor|lia].
  - destruct (t_write_faults t) as [|[|] ?]; intros [= <-]; split; try done;
      exists []; cbn; rewrite !app_nil_r; split_and!; solve [done|constructor|lia].
  - pose proof (enqueue_rows clock m (sy_store s) Hwf) as Hrows.
    pose proof (enqueue_keeps_no_faults clock m (sy_store s)) as Hnf.
    destruct (enqueue clock m (sy_store s)) as [st r]. destruct Hrows as [Hseq Hrows].
    intros [= <-]. split; try done. cbn. by apply enqueued_rows.
Qed.

Lemma other_action_moved a s s' :
  db_wf (ms_db (sy_store s)) -> fair_action lo a -> is_worker_step a = false -> act a s = Some s' -> others_moved s s'.
Proof.
  destruct a as [i fuel rd faults|i clock|i|i|j clock|clock sink| |faults|dead]; try done; intros Hwf _ _ Ha.
  - cbn in Ha. destruct (sy_sessions s !! i); [done|]. injection Ha as <-. destruct (_ <? _); cbn.
    + apply others_unmoved.
    + split; try done. exists []. cbn. split_and!; [by rewrite app_nil_r|constructor|lia].
  - by eapply session_step_moved.
  - injection Ha as <-. apply others_unmoved.
  - cbn in Ha. destruct (sy_sessions s !! i) as [t|]; [|done]. destruct (t_prog t) as [|X e k]; [done|].
    destruct e; try done. injection Ha as <-. split; try done.
    exists []. cbn. split_and!; [by rewrite app_nil_r|constructor|lia].
  - cbn in Ha. destruct (sy_orphans s !! j) as [m|]; [|done]. rewrite enqueue_commit_enqueue in Ha.
    pose proof (enqueue_rows clock m (sy_store s) Hwf) as Hrows.
    pose proof (enqueue_keeps_no_faults clock m (sy_store s)) as Hnf.
    destruct (enqueue clock m (sy_store s)) as [st r]. destruct Hrows as [Hseq Hrows].
    injection Ha as <-. split; try done. cbn. by apply enqueued_rows.
  - cbn in Ha. injection Ha as <-.
    assert (ms_db (if dead then (dead_letter_len (sy_store s)).1 else (len (sy_store s)).1) = ms_db (sy_store s)) as Hdb.
    { destruct dead; [by eapply dead_letter_len_spec, surjective_pairing|by eapply len_spec, surjective_pairing]. }
    split; cbn; rewrite ?app_nil_r; try done.
    + apply monitor_keeps_no_faults.
    + by rewrite Hdb.
    + exists []. rewrite Hdb, app_nil_r. split_and!; [done|constructor|cbn; lia].
Qed.

Lemma others_work_left s s' n :
  others_moved s s' -> work_left s n -> exists n', work_left s' n' /\
    (n' + 5 * length (sy_enqueued s) <= n + 5 * length (sy_enqueued s'))%nat.
Proof.
  intros [Hw Hs _ _ _ (new & Hrows & _ & He)] Hn. rewrite He.
  assert (length (outbox s') = (length (outbox s) + length new)%nat) as Hlen by by rewrite Hrows, length_app.
  assert (forall r, r ∈ outbox s -> r ∈ outbox s') as Hkeep by (intros r Hr; rewrite Hrows; apply elem_of_app; by left).
  destruct Hn as [j now st Hj Hst|now st Hst|now st Hnow Hst|now r Hr Hst|now r Hr Hsunk Hst|now st Hst];
    rewrite <- Hw in Hst; eexists; (split; [|shelve]).
  - by eapply wl_connect.
  - by eapply wl_start.
  - by eapply wl_claim.
  - eapply wl_deliver; [by apply Hkeep|done].
  - eapply wl_mark; [by apply Hkeep|by rewrite Hs|done].
  - by eapply wl_again.
  Unshelve. all: lia.
Qed.

Lemma others_fair_ok rows s s' :
  db_wf (ms_db (sy_store s')) -> others_moved s s' -> fair_ok rows s -> fair_ok rows s'.
Proof.
  intros Hwf [Hw Hs Hsh Hnf _ (new & Hrows & Hnew & _)] [Hfaults _ Hrun Hdue Hold]. split.
  - by apply Hnf.
  - done.
  - by rewrite Hsh.
  - rewrite Hrows. apply Forall_app. split; [done|]. eapply Forall_impl; [exact Hnew|]. cbn. intros r [-> _]. lia.
  - intros r Hr. unfold sunk_row. rewrite Hs. destruct (Hold r Hr); [by left|right].
    rewrite Hrows. apply elem_of_app. by left.
Qed.

(** A turn of the worker that leaves the tables alone. *)
Lemma fair_ok_set_worker rows s w sunk : fair_ok rows s -> fair_ok rows (set_worker s (sy_store s) w sunk).
Proof.
  intros [Hf Hwf Hrun Hdue Hold]. split; try done. intros r Hr.
  destruct (Hold r Hr) as [H|H]; [left|by right]. apply elem_of_app. by left.
Qed.

Lemma connect_turn rows s s' clock j now st :
  fair_ok rows s -> (j <= 2)%nat -> sy_worker s = connect_at j now st ->
  act (WorkerStep clock (Ok tt)) s = Some s' ->
  fair_ok rows s' /\ sy_enqueued s' = sy_enqueued s /\ 
  exists n', work_left s' n' /\ (S n' <= 3 - j + 5 * length (outbox s))%nat.
Proof.
  intros Hok Hj Hst. cbn [exec_action]. rewrite Hst. unfold connect_at.
  destruct j as [|[|[|]]]; [..|lia]; cbn; rewrite ?(fo_running _ _ Hok); intros [= <-];
    (split; [by apply fair_ok_set_worker|split; [done|]]).
  - eexists. split; [by eapply (wl_connect _ 1 now st); [lia|]|cbn; lia].
  - eexists. split; [by eapply (wl_connect _ 2 now st); [lia|]|cbn; lia].
  - eexists. split; [by eapply (wl_start _ now st)|cbn; lia].
Qed.

(** The claim takes a row, since one is due. *)
Lemma claim_turn rows s s' clock now st :
  fair_ok rows s -> (exists r, r ∈ outbox s) -> lo <= now -> sy_worker s = round_at 1 now st ->
  act (WorkerStep clock (Ok tt)) s = Some s' ->
  fair_ok rows s' /\ sy_enqueued s' = sy_enqueued s /\
  exists r, r ∈ outbox s' /\ sy_worker s' = round_at 2 now (row_to_stored r) /\ outbox s' = outbox s.
Proof.
  intros Hok [r0 Hr0] Hnow Hst. cbn [exec_action]. rewrite Hst. unfold round_at.
  cbn -[claim_next_ready]. rewrite claim_no_faults by apply Hok.
  destruct (next_row now (ms_db (sy_store s))) as [r|] eqn:Hnext.
  - apply next_row_Some in Hnext as [Hr _]. cbn. intros [= <-].
    split; [by apply fair_ok_set_worker|]. split; [done|]. by exists r.
  - apply next_row_None in Hnext. rewrite Forall_forall in Hnext. apply Hnext in Hr0 as Hlt.
    pose proof (fo_due _ _ Hok) as Hdue. rewrite Forall_forall in Hdue. apply Hdue in Hr0. lia.
Qed.

(** The removal takes the row that was delivered, and no other. *)
Lemma mark_turn rows s s' clock now r :
  fair_ok rows s -> r ∈ outbox s -> sunk_row s r -> sy_worker s = round_at 3 now (row_to_stored r) ->
  act (WorkerStep clock (Ok tt)) s = Some s' ->
  fair_ok rows s' /\ sy_enqueued s' = sy_enqueued s /\
  sy_worker s' = round_at 4 now (row_to_stored r) /\ (S (length (outbox s')) <= length (outbox s))%nat.
Proof.
  intros Hok Hr Hsunk Hst. cbn [exec_action]. rewrite Hst. unfold round_at.
  cbn -[mark_delivered]. rewrite mark_delivered_no_faults by apply Hok. intros [= <-].
  destruct Hok as [Hf Hwf Hrun Hdue Hold]. split; [|split; [done|split; [done|]]].
  - split; cbn; try done.
    + by eapply (delete_outbox_wf (row_id r) (ms_db (sy_store s))).
    + by apply Forall_filter.
    + intros r' Hr'. unfold sunk_row. cbn. rewrite app_nil_r. destruct (Hold r' Hr') as [H|H]; [by left|].
      destruct (decide (row_id r' = row_id r)) as [Heq|Hne].
      * left. by rewrite (sorted_unique row_id _ r' r (wf_outbox_sorted _ Hwf) H Hr Heq).
      * right. by apply list_elem_of_filter.
  - pose proof (length_filter_ne row_id r _ Hr). cbn. lia.
Qed.

(** While a message waits, every turn of the worker is progress. *)
Lemma worker_turn rows s s' clock n :
  fair_ok rows s -> work_left s n -> (exists r, r ∈ outbox s) -> lo <= clock <= i64_max ->
  act (WorkerStep clock (Ok tt)) s = Some s' ->
  fair_ok rows s' /\ sy_enqueued s' = sy_enqueued s /\ exists n', work_left s' n' /\ (S n' <= n)%nat.
Proof.
  intros Hok Hn Hex Hclock Ha. destruct Hex as [r0 Hr0]. pose proof (elem_length _ _ Hr0) as Hpos.
  destruct Hn as [j now st Hj Hst|now st Hst|now st Hnow Hst|now r Hr Hst|now r Hr Hsunk Hst|now st Hst].
  - by eapply connect_turn.
  - cbn [exec_action] in Ha. rewrite Hst in Ha. cbn in Ha. injection Ha as <-.
    split; [by apply fair_ok_set_worker|split; [done|]]. eexists. split.
    + apply (wl_claim _ (unix_now clock) st); [rewrite unix_now_ok; lia|done].
    + cbn. lia.
  - destruct (claim_turn rows s s' clock now st Hok) as (Hok' & He & r & Hr & Hw & Hout); [by eexists|done..|].
    split; [done|split; [done|]]. eexists. split; [by eapply wl_deliver|]. rewrite Hout. lia.
  - cbn [exec_action] in Ha. rewrite Hst in Ha. cbn in Ha. injection Ha as <-.
    split; [by apply fair_ok_set_worker|split; [done|]]. eexists. split.
    + eapply (wl_mark _ now r); [done| |done]. cbn. apply elem_of_app. right. left.
    + cbn. lia.
  - destruct (mark_turn rows s s' clock now r Hok Hr Hsunk Hst Ha) as (Hok' & He & Hw & Hlen).
    split; [done|split; [done|]]. eexists. split; [by eapply wl_again|]. lia.
  - cbn [exec_action] in Ha. rewrite Hst in Ha. cbn in Ha. injection Ha as <-.
    split; [by apply fair_ok_set_worker|split; [done|]]. eexists. split; [by eapply (wl_start _ now st)|].
    cbn. lia.
Qed.

Lemma act_sunk a s s' : act a s = Some s' -> sy_sunk s `prefix_of` sy_sunk s'.
Proof.
  intros H%exec_action_step. destruct H; cbn; try done; by apply prefix_app_r.
Qed.

Lemma exec_sunk actions s s' :
  exec validate_email parse_mail config path actions s = Some s' -> sy_sunk s `prefix_of` sy_sunk s'.
Proof.
  revert s. induction actions as [|a actions IH]; intros s; cbn; [by intros [= ->]|].
  destruct (act a s) as [s1|] eqn:Ha; [|done]. intros H. etransitivity; [by eapply act_sunk|by apply IH].
Qed.

Hypothesis Hmax : is_u64 (q_max_len (cfg_queue config)).
Hypothesis Hpath : path <> lit ":memory:".

(** A fair schedule with enough turns for the worker delivers every old message. *)
Lemma fair_run rows actions s s' n :
  sys_ok validate_email parse_mail config s -> fair_ok rows s -> work_left s n -> Forall (fair_action lo) actions ->
  exec validate_email parse_mail config path actions s = Some s' ->
  (n + 5 * length (sy_enqueued s') <= turns actions + 5 * length (sy_enqueued s))%nat ->
  forall r, r ∈ rows -> sunk_row s' r.
Proof.
  revert s n. induction actions as [|a actions IH]; intros s n Hinv Hok Hn Hfair Hexec Hturns r Hr.
  - injection Hexec as <-. unfold turns in Hturns. cbn in Hturns.
    destruct (fo_rows _ _ Hok r Hr) as [|Hw]; [done|]. pose proof (work_left_pos _ _ _ Hn Hw). lia.
  - destruct (some_row_waits rows s (fo_rows _ _ Hok)) as [Hall|Hex].
    { eapply elem_of_prefix; [by apply Hall|]. by eapply exec_sunk. }
    cbn in Hexec. destruct (act a s) as [s1|] eqn:Ha; [|done]. cbn in Hexec.
    pose proof (sys_step_ok _ _ _ _ Hmax Hpath s s1 Hinv (exec_action_step _ _ _ _ _ _ _ Ha)) as Hinv1.
    apply Forall_cons in Hfair as [Hfa Hfair]. rewrite turns_cons in Hturns.
    destruct (is_worker_step a) eqn:Hw.
    + destruct a as [| | | | |clock sink| | |dead]; try done. destruct Hfa as [Hclock ->].
      destruct (worker_turn rows s s1 clock n Hok Hn Hex Hclock Ha) as (Hok1 & He & n1 & Hn1 & Hle).
      eapply (IH s1 n1); try done. rewrite He. lia.
    + pose proof (other_action_moved a s s1 (fo_wf _ _ Hok) Hfa Hw Ha) as Hmv.
      destruct (others_work_left _ _ _ Hmv Hn) as (n1 & Hn1 & Hle).
      eapply (IH s1 n1); try done; [|lia].
      eapply others_fair_ok; [apply Hinv1|done..].
Qed.

Lemma exec_dead faults actions s s' :
  reachable validate_email parse_mail config path faults s ->
  exec validate_email parse_mail config path actions s = Some s' ->
  letter_message <$> q_letters (queue_of (ms_db (sy_store s))) `prefix_of`
  letter_message <$> q_letters (queue_of (ms_db (sy_store s'))).
Proof.
  revert s. induction actions as [|a actions IH]; intros s Hr; cbn; [by intros [= ->]|].
  destruct (act a s) as [s1|] eqn:Ha; [|done]. apply exec_action_step in Ha. intros H.
  etransitivity; [by eapply reachable_step_dead|]. eapply IH; [by eapply reach_step|done].
Qed.
End Fair.

(** C13: mail is delivered under every fair schedule.  From any reachable state, whatever
    happened before, restart the process with storage that works; let the parked messages
    be due by [lo], and from then on let anything happen in any order: connections, SMTP
    sessions that store more mail, sessions that break off, and turns of the worker, whose
    sink accepts.  Once the worker has had three turns and five more for each message
    that was queued or came in meanwhile, every message the service had stored before
    the restart has been accepted by the sink under its key, or is a dead letter. *)
Theorem fair_schedule_delivers (validate_email : str -> bool) (parse_mail : bytes -> option ParsedMail)
    (config : Config) (path : str) (faults : list (option str)) (lo : Z) (actions : list action) (s s' : Sys)
    (Hmax : is_u64 (q_max_len (cfg_queue config))) (Hpath : path <> lit ":memory:") (Hlo : 0 <= lo)
    (Hreach : reachable validate_email parse_mail config path faults s)
    (Hdue : Forall (fun r => row_next_attempt_at r <= lo) (db_outbox (ms_db (sy_store s))))
    (Hfair : Forall (fair_action lo) actions)
    (Hexec : exec validate_email parse_mail config path (Restart [] :: actions) s = Some s')
    (Hturns : (3 + 5 * length (db_outbox (ms_db (sy_store s))) + 5 * (length (sy_enqueued s') - length (sy_enqueued s))
               <= turns actions)%nat) :
  forall id m, (id, m) ∈ sy_enqueued s ->
    (idempotency_key id, m) ∈ sy_sunk s' \/
    m ∈ letter_message ∘ dead_to_letter <$> db_dead (ms_db (sy_store s')).
Proof.
  intros id m Hin.
  destruct (reachable_one_place _ _ _ _ Hmax Hpath _ _ Hreach) as (finished & buried & Hpl & _ & Hfin & Hbu & _).
  pose proof (exec_sunk _ _ _ _ _ _ _ Hexec) as Hsunk.
  pose proof (exec_dead _ _ _ _ Hmax Hpath _ _ _ _ Hreach Hexec) as Hdead.
  rewrite Hpl in Hin. apply elem_of_app in Hin as [Hin|[Hin|Hin]%elem_of_app].
  - left. apply list_elem_of_fmap in Hin as (r & [= -> ->] & Hr).
    pose proof (reachable_ok validate_email parse_mail config path Hmax Hpath faults s Hreach) as Hok.
    cbn [exec exec_action] in Hexec. rewrite restart_no_faults in Hexec by done. cbn [mbind option_bind] in Hexec.
    match type of Hexec with exec _ _ _ _ _ ?x = _ => set (s1 := x) in Hexec end.
    assert (sys_ok validate_email parse_mail config s1) as Hok1.
    { eapply sys_step_ok; [done..|exact Hok|]. eapply sys_restart. by apply restart_no_faults. }
    eapply (fair_run validate_email parse_mail config path lo Hlo Hmax Hpath
      (db_outbox (ms_db (sy_store s))) actions s1 s'); [done| |by apply (wl_connect _ _ s1 0 0 (row_to_stored r)); [lia|]|done..| |done].
    + split; try done; [apply Hok|by right].
    + cbn. lia.
  - left. eapply elem_of_prefix; [by apply Hfin|done].
  - right. destruct Hdead as [k Hk]. cbn in Hk. rewrite !list_fmap_compose, Hk. apply elem_of_app. left.
    rewrite <- list_fmap_compose, <- Hbu. apply list_elem_of_fmap. by exists (id, m).
Qed.

(** The first process of [day] acknowledges a message and is stopped; in the second one
    another client delivers while the worker works. *)
Definition first_process : Sys :=
  default (sys_init day_config [])
    (exec toy_email no_mime day_config day_path
       ([WorkerStep 1000 (Ok tt); Accept 0 200 day_reader []] ++ replicate 14 (SessionStep 0 1000))
       (sys_init day_config [])).

Lemma first_process_reachable : reachable toy_email no_mime day_config day_path [] first_process.
Proof.
  unfold first_process. destruct (exec _ _ _ _ _ _) as [s|] eqn:Hs; [|apply reach_init].
  eapply exec_reachable; [apply reach_init|exact Hs].
Qed.

Definition busy_schedule : list action :=
  Accept 0 200 day_reader [] ::
  (mjoin (replicate 14 [WorkerStep 1010 (Ok tt); SessionStep 0 1010])) ++ [SessionEnd 0].

Definition second_process : Sys :=
  default (sys_init day_config []) (exec toy_email no_mime day_config day_path (Restart [] :: busy_schedule) first_process).

Lemma second_process_runs :
  exec toy_email no_mime day_config day_path (Restart [] :: busy_schedule) first_process = Some second_process.
Proof.
  assert (match exec toy_email no_mime day_config day_path (Restart [] :: busy_schedule) first_process with
          | Some _ => true | None => false end = true) as H by (vm_compute; reflexivity).
  unfold second_process. by destruct (exec _ _ _ _ _ _).
Qed.

Lemma fair_schedule_delivers_witness :
  sy_sunk first_process = [] /\ sy_enqueued first_process = [(1, day_message)] /\
  length (sy_enqueued second_process) = 2%nat /\
  ((idempotency_key 1, day_message) ∈ sy_sunk second_process \/
   day_message ∈ letter_message ∘ dead_to_letter <$> db_dead (ms_db (sy_store second_process))).
Proof.
  split_and!; [vm_compute; reflexivity..|].
  apply (fair_schedule_delivers toy_email no_mime day_config day_path [] 1010 busy_schedule first_process second_process).
  - split; vm_compute; discriminate.
  - discriminate.
  - discriminate.
  - exact first_process_reachable.
  - vm_compute. repeat constructor; discriminate.
  - apply Forall_cons. split; [exact I|]. apply Forall_app. split; [|by repeat constructor].
    cbn [replicate mjoin list_join app]. by repeat constructor.
  - exact second_process_runs.
  - assert (length (sy_enqueued second_process) = 2%nat) as -> by (vm_compute; reflexivity).
    apply Nat.leb_le. vm_compute. reflexivity.
  - assert (sy_enqueued first_process = [(1, day_message)]) as -> by (vm_compute; reflexivity). left.
Defined.
