(* ===== verification/Timed.v ===== *)
(** * The worker in real time

    One worker, one sink that answers as it likes, and a clock that moves while the
    worker sleeps, while a delivery is under way and while the storage works: the world in
    which the retries of [src/src/queue/worker.rs] run their course.  The worker awaits
    [deliver] and the storage without a timeout, so that their times are parameters.
    Every message leaves the outbox, and when is computed from them. *)

From S2P Require Import Prelude RustStr Error Effects Store StoreFacts StoreSpec StoreProps Worker WorkerFacts.
From S2P Require Import WorkerProps Reader Mime ConfigData Net Session Serve SessionFacts Main System.

Record TimedWorld (T : Type) : Type := mkTimed {
  tw_store : MessageStore;
  tw_now : Z;
  tw_sink : T;
}.
Arguments mkTimed {T} _ _ _.
Arguments tw_store {T} _.
Arguments tw_now {T} _.
Arguments tw_sink {T} _.

Section TimedHandler.
Context {T : Type}.
Variable hsink : handler SinkE T.
(** How long a delivery takes, and each access to the storage. *)
Variable takes : T -> Z.
Variable lag : Z.
(** The shutdown flag, as a function of the outbox. *)
Variable stop : MessageStore -> bool.

Definition on_store {A} (w : TimedWorld T) (f : MessageStore -> MessageStore * A) : TimedWorld T * A :=
  let '(s', a) := f (tw_store w) in (mkTimed s' (tw_now w + lag) (tw_sink w), a).

Definition sleep (wait : Z) (w : TimedWorld T) : TimedWorld T := mkTimed (tw_store w) (tw_now w + wait) (tw_sink w).

Definition slow_handler : handler WE (TimedWorld T) := fun X e w =>
  match e in WorkerE _ _ X return TimedWorld T * X with
  | UnixNow => (w, unix_now (tw_now w))
  | ClaimNextReady now => on_store w (claim_next_ready now)
  | MarkDelivered id => on_store w (mark_delivered id)
  | DeadLetter id e => on_store w (dead_letter (tw_now w) id e)
  | Reschedule id a n => on_store w (reschedule id a n)
  | NextWakeup now => on_store w (next_wakeup now)
  | SinkCall e =>
      let '(t', x) := hsink _ e (tw_sink w) in (mkTimed (tw_store w) (tw_now w + takes (tw_sink w)) t', x)
  | Connect => (w, Ok tt)
  | ShutdownBorrow => (w, stop (tw_store w))
  | SelectIdle wait => (sleep wait w, tt)
  | SelectSleep wait => (sleep wait w, tt)
  end.

Abbreviation trun := (run slow_handler).

(** A message is due: it is claimed, given to the sink and settled. *)
Lemma slow_claimed dw w r :
  no_faults (tw_store w) -> 0 <= tw_now w <= i64_max -> next_row (tw_now w) (ms_db (tw_store w)) = Some r ->
  let '(t, res) := hsink _ (Deliver (row_message r) (idempotency_key (row_id r))) (tw_sink w) in
  let answered := tw_now w + lag + takes (tw_sink w) in
  trun (run_body dw) w =
  (mkTimed (settle dw (row_to_stored r) (tw_now w) answered res (tw_store w)) (answered + lag) t, Continue).
Proof.
  intros Hnf Hnow Hr. cbn -[claim_next_ready mark_delivered handle_failure]. rewrite unix_now_ok by done.
  unfold on_store at 1. rewrite claim_no_faults, Hr by done.
  cbn -[claim_next_ready mark_delivered handle_failure row_to_stored].
  change (hsink _ (Deliver (sm_message (row_to_stored r)) (idempotency_key (sm_id (row_to_stored r)))) (tw_sink w))
    with (hsink _ (Deliver (row_message r) (idempotency_key (row_id r))) (tw_sink w)).
  destruct (hsink _ (Deliver (row_message r) (idempotency_key (row_id r))) (tw_sink w)) as [t res].
  destruct res as [u|err]; cbn -[mark_delivered handle_failure row_to_stored].
  - unfold on_store. cbn -[mark_delivered row_to_stored]. by destruct (mark_delivered _ _).
  - rewrite run_mbind. unfold handle_failure. cbv zeta. unfold settle. cbv zeta.
    destruct (_ <? _); cbn -[dead_letter reschedule row_to_stored]; unfold on_store; cbn -[dead_letter reschedule row_to_stored];
      [by destruct (dead_letter _ _ _ _)|by destruct (reschedule _ _ _ _)].
Qed.

Definition earliest_parked (now : Z) (db : Db) : option Z :=
  first_by Z.ltb (row_next_attempt_at <$> filter (fun r => now < row_next_attempt_at r) (db_outbox db)).

(** Nothing is due: the worker sleeps for the time to the earliest parked message. *)
Lemma slow_idle dw w t :
  no_faults (tw_store w) -> 0 <= tw_now w <= i64_max -> stop (tw_store w) = false ->
  next_row (tw_now w) (ms_db (tw_store w)) = None ->
  earliest_parked (tw_now w) (ms_db (tw_store w)) = Some t -> tw_now w < t <= i64_max ->
  trun (run_body dw) w = (mkTimed (tw_store w) (t + 2 * lag) (tw_sink w), Continue).
Proof.
  intros Hnf Hnow Hstop Hr Ht Hlt. cbn -[claim_next_ready next_wakeup]. rewrite unix_now_ok by done.
  unfold on_store at 1. rewrite claim_no_faults, Hr by done. cbn -[claim_next_ready next_wakeup]. rewrite Hstop.
  cbn -[claim_next_ready next_wakeup]. unfold on_store. cbn -[next_wakeup].
  unfold next_wakeup. rewrite with_conn_no_faults by done. unfold statement. cbn -[earliest_parked Z.mul].
  change (first_by _ _) with (earliest_parked (tw_now w) (ms_db (tw_store w))). rewrite Ht.
  unfold sleep. cbn -[Z.mul]. do 2 f_equal.
  - change (with_db (tw_store w) (ms_db (tw_store w)) = tw_store w). by rewrite with_db_id.
  - rewrite as_i64_id, as_u64_id; unfold is_u64, is_i64, i64_min, i64_max, u64_max in *; lia.
Qed.
End TimedHandler.

(** With a sink and a storage that answer at once, the clock moves only while the worker
    sleeps. *)
Definition timed_handler {T} (hsink : handler SinkE T) (stop : MessageStore -> bool) : handler WE (TimedWorld T) :=
  slow_handler hsink (fun _ => 0) 0 stop.

Section AtOnce.
Context {T : Type}.
Variable hsink : handler SinkE T.
Variable stop : MessageStore -> bool.

Lemma timed_claimed dw w r :
  no_faults (tw_store w) -> 0 <= tw_now w <= i64_max -> next_row (tw_now w) (ms_db (tw_store w)) = Some r ->
  let '(t, res) := hsink _ (Deliver (row_message r) (idempotency_key (row_id r))) (tw_sink w) in
  run (timed_handler hsink stop) (run_body dw) w =
  (mkTimed (settle dw (row_to_stored r) (tw_now w) (tw_now w) res (tw_store w)) (tw_now w) t, Continue).
Proof.
  intros Hnf Hnow Hr. pose proof (slow_claimed hsink (fun _ => 0) 0 stop dw w r Hnf Hnow Hr) as H.
  destruct (hsink _ _ _) as [t res]. cbv zeta in H. by rewrite !Z.add_0_r in H.
Qed.

Lemma timed_idle dw w t :
  no_faults (tw_store w) -> 0 <= tw_now w <= i64_max -> stop (tw_store w) = false ->
  next_row (tw_now w) (ms_db (tw_store w)) = None ->
  earliest_parked (tw_now w) (ms_db (tw_store w)) = Some t -> tw_now w < t <= i64_max ->
  run (timed_handler hsink stop) (run_body dw) w = (mkTimed (tw_store w) t (tw_sink w), Continue).
Proof.
  intros Hnf Hnow Hstop Hr Ht Hlt. pose proof (slow_idle hsink (fun _ => 0) 0 stop dw w t Hnf Hnow Hstop Hr Ht Hlt) as H.
  cbn [Z.mul] in H. by rewrite Z.add_0_r in H.
Qed.
End AtOnce.

(** ** Settling a message, row by row *)

Section Settle.
Context {S : Type}.
Variable dw : DeliveryWorker S.
Hypothesis Hset : settings_ok dw.

Lemma settle_accepted s r now clock u :
  no_faults s ->
  settle dw (row_to_stored r) now clock (Ok u) s =
  with_db s (mkDb (filter (fun r' => row_id r' <> row_id r) (db_outbox (ms_db s))) (db_outbox_seq (ms_db s))
               (db_dead (ms_db s)) (db_dead_seq (ms_db s))).
Proof. intros Hnf. unfold settle. rewrite mark_delivered_no_faults by done. done. Qed.

Lemma settle_refused_rows s r now clock e :
  drain_store_ok (dw_max_retries dw) s -> 0 <= now <= i64_max - MAX_BACKOFF_SECONDS -> r ∈ db_outbox (ms_db s) ->
  settle dw (row_to_stored r) now clock (Err e) s =
  with_db s
    (if row_attempts r <? dw_max_retries dw then
       mkDb ((fun r' => if decide (row_id r' = row_id r)
                        then set_attempt (row_attempts r + 1)
                               (now + backoff_seconds (dw_retry_backoff dw) (row_attempts r + 1) MAX_BACKOFF_SECONDS) r'
                        else r') <$> db_outbox (ms_db s))
         (db_outbox_seq (ms_db s)) (db_dead (ms_db s)) (db_dead_seq (ms_db s))
     else
       mkDb (filter (fun r' => row_id r' <> row_id r) (db_outbox (ms_db s))) (db_outbox_seq (ms_db s))
         (db_dead (ms_db s) ++ [to_dead r (db_dead_seq (ms_db s) + 1) (unix_now clock) (ChimneyError.to_string e)])
         (db_dead_seq (ms_db s) + 1)).
Proof.
  intros Hs Hnow Hr. destruct Hset as [Hmax Hbase]. destruct (add_u32_attempts r _ _ Hs Hr) as (Has & Hadd & Hatt).
  unfold settle. change (sm_id (row_to_stored r)) with (row_id r).
  change (sm_attempts (row_to_stored r)) with (as_u32 (row_attempts r)). rewrite Has, Hadd.
  destruct (Z.ltb_spec (dw_max_retries dw) (row_attempts r + 1)) as [Hgt|Hle].
  - rewrite (proj2 (Z.ltb_ge _ _)) by lia. pose proof (ds_dead _ _ Hs). pose proof (elem_length _ _ Hr).
    rewrite dead_letter_no_faults; [done|apply Hs|apply Hs|done|lia].
  - rewrite (proj2 (Z.ltb_lt _ _)) by lia.
    pose proof (backoff_bounds (dw_retry_backoff dw) (row_attempts r + 1) MAX_BACKOFF_SECONDS Hbase) as Hb.
    rewrite due_time_ok by (unfold MAX_BACKOFF_SECONDS in *; lia). by rewrite reschedule_no_faults by apply Hs.
Qed.

(** No row becomes due later than the longest backoff from now. *)
Lemma settle_due s r now clock res h :
  drain_store_ok (dw_max_retries dw) s -> 0 <= now <= i64_max - MAX_BACKOFF_SECONDS -> r ∈ db_outbox (ms_db s) ->
  now <= h -> Forall (fun r => row_next_attempt_at r <= h + MAX_BACKOFF_SECONDS) (db_outbox (ms_db s)) ->
  Forall (fun r => row_next_attempt_at r <= h + MAX_BACKOFF_SECONDS)
    (db_outbox (ms_db (settle dw (row_to_stored r) now clock res s))).
Proof.
  intros Hs Hnow Hr Hle Hdue'. destruct (add_u32_attempts r _ _ Hs Hr) as (_ & _ & Hatt).
  destruct res as [u|e].
  - rewrite settle_accepted by apply Hs. by apply Forall_filter.
  - rewrite settle_refused_rows by done. destruct (_ <? _); [|by apply Forall_filter].
    apply Forall_fmap. eapply Forall_impl; [exact Hdue'|]. cbn. intros r' Hr'. case_decide; [|done]. cbn.
    destruct Hset as [_ Hbase].
    pose proof (backoff_bounds (dw_retry_backoff dw) (row_attempts r + 1) MAX_BACKOFF_SECONDS Hbase).
    unfold MAX_BACKOFF_SECONDS in *. lia.
Qed.

(** Where a message is: accepted by the sink, a dead letter, or in the outbox. *)
Definition located (s : MessageStore) (log : list (str * Message)) (id : Z) (m : Message) : Prop :=
  (idempotency_key id, m) ∈ log \/
  m ∈ letter_message ∘ dead_to_letter <$> db_dead (ms_db s) \/
  exists r, r ∈ db_outbox (ms_db s) /\ row_id r = id /\ row_message r = m.

Lemma settle_located s r now clock res log id m :
  drain_store_ok (dw_max_retries dw) s -> 0 <= now <= i64_max - MAX_BACKOFF_SECONDS -> r ∈ db_outbox (ms_db s) ->
  located s log id m ->
  located (settle dw (row_to_stored r) now clock res s)
    (log ++ match res with Ok _ => [(idempotency_key (row_id r), row_message r)] | Err _ => [] end) id m.
Proof.
  intros Hs Hnow Hr [Hlog|[Hdead|(r' & Hr' & <- & <-)]].
  - left. apply elem_of_app. by left.
  - right. left. destruct res as [u|e]; [by rewrite settle_accepted by apply Hs|].
    rewrite settle_refused_rows by done. destruct (_ <? _); [done|]. cbn. rewrite fmap_app. apply elem_of_app. by left.
  - assert (row_id r' = row_id r -> r' = r) as Huniq.
    { intros Heq. by apply (sorted_unique row_id _ r' r (wf_outbox_sorted _ (ds_wf _ _ Hs)) Hr' Hr). }
    destruct (decide (row_id r' = row_id r)) as [Heq|Hne].
    + apply Huniq in Heq as ->. destruct res as [u|e]; [left; apply elem_of_app; right; left|right].
      rewrite settle_refused_rows by done. destruct (_ <? _); [right|left].
      * cbn. eexists. split; [apply list_elem_of_fmap; by exists r|]. by rewrite decide_True.
      * cbn. rewrite fmap_app. apply elem_of_app. right. left.
    + right. right. destruct res as [u|e].
      * rewrite settle_accepted by apply Hs. exists r'. split; [|done]. by apply list_elem_of_filter.
      * rewrite settle_refused_rows by done. destruct (_ <? _); cbn; exists r'; (split; [|done]).
        -- apply list_elem_of_fmap. exists r'. by rewrite decide_False.
        -- by apply list_elem_of_filter.
Qed.
End Settle.

(** ** Every message leaves the outbox *)

(** What a sink accepted, whatever it is. *)
Definition logged {T} (h : handler SinkE T) : handler SinkE (T * list (str * Message)) := fun X e s =>
  match e in SinkE X return (T * list (str * Message)) * X with
  | Deliver m key =>
      let '(t, r) := h _ (Deliver m key) s.1 in ((t, s.2 ++ match r with Ok _ => [(key, m)] | Err _ => [] end), r)
  end.

Section Leaves.
Context {T : Type}.
Variable hsink : handler SinkE T.
Variable takes : T -> Z.
Variables longest lag : Z.
Variable dw : DeliveryWorker unit.
Hypothesis Hset : settings_ok dw.
Hypothesis Htakes : forall t, 0 <= takes t <= longest.
Hypothesis Hlag : 0 <= lag.

Abbreviation world := (TimedWorld (T * list (str * Message))).
Abbreviation handle := (slow_handler (logged hsink) (fun s => takes s.1) lag (fun _ => false)).
Abbreviation work w := (budget (dw_max_retries dw) (ms_db (tw_store w))).
(** What a delivery attempt may cost: its backoff, the delivery, two accesses to the storage. *)
Abbreviation attempt := (MAX_BACKOFF_SECONDS + longest + 2 * lag).

(** [h]: when the last row is due, and room for all the attempts that may come. *)
Record timed_ok (h : Z) (w : world) : Prop := {
  to_store : drain_store_ok (dw_max_retries dw) (tw_store w);
  to_now : 0 <= tw_now w <= h + 2 * lag;
  to_due : Forall (fun r => row_next_attempt_at r <= h) (db_outbox (ms_db (tw_store w)));
  to_room : h + 2 * lag + attempt * Z.of_nat (work w) <= i64_max - MAX_BACKOFF_SECONDS;
}.

Lemma to_clock h w : timed_ok h w -> 0 <= tw_now w <= i64_max - MAX_BACKOFF_SECONDS.
Proof.
  intros [_ Hnow _ Hroom]. pose proof (Htakes (tw_sink w).1).
  assert (0 <= attempt * Z.of_nat (work w)) by (apply Z.mul_nonneg_nonneg; unfold MAX_BACKOFF_SECONDS; lia). lia.
Qed.

Lemma claimed_round h w r :
  timed_ok h w -> next_row (tw_now w) (ms_db (tw_store w)) = Some r ->
  exists w', run handle (run_body dw) w = (w', Continue) /\ (work w' < work w)%nat /\
    timed_ok (h + attempt * Z.of_nat (work w - work w')) w' /\
    forall id m, located (tw_store w) (tw_sink w).2 id m -> located (tw_store w') (tw_sink w').2 id m.
Proof.
  intros Hok Hr. pose proof (to_clock _ _ Hok) as Hclock. destruct Hok as [Hs Hnow Hdue Hroom].
  pose proof (slow_claimed (logged hsink) (fun s => takes s.1) lag (fun _ => false) dw w r (ds_faults _ _ Hs)) as Hround.
  assert (0 <= tw_now w <= i64_max) as Hi by (unfold MAX_BACKOFF_SECONDS in *; lia).
  specialize (Hround Hi Hr). cbn [logged] in Hround. pose proof (Htakes (tw_sink w).1) as Hd.
  destruct (hsink _ _ (tw_sink w).1) as [t res]. cbv zeta in Hround. rewrite Hround.
  apply next_row_Some in Hr as [Hr _].
  set (answered := tw_now w + lag + takes (tw_sink w).1) in *.
  set (s' := settle dw (row_to_stored r) (tw_now w) answered res (tw_store w)) in *.
  destruct (settle_drains dw (tw_now w) answered res (tw_store w) r Hset Hs Hclock Hr) as [Hs' Hlt].
  fold s' in Hs', Hlt. set (k := (work w - budget (dw_max_retries dw) (ms_db s'))%nat).
  assert (attempt <= attempt * Z.of_nat k) as Hk.
  { rewrite <- (Z.mul_1_r attempt) at 1. apply Z.mul_le_mono_nonneg_l; [unfold MAX_BACKOFF_SECONDS; lia|].
    subst k. lia. }
  assert (attempt * Z.of_nat k + attempt * Z.of_nat (budget (dw_max_retries dw) (ms_db s')) = attempt * Z.of_nat (work w)) as Hsum.
  { rewrite <- Z.mul_add_distr_l. f_equal. subst k. lia. }
  eexists. split; [done|]. cbn [tw_store tw_now tw_sink snd]. split; [done|]. fold k.
  split; [split; cbn [tw_store tw_now]|].
  - done.
  - subst answered. unfold MAX_BACKOFF_SECONDS in *. lia.
  - eapply Forall_impl; [eapply (settle_due dw Hset _ _ _ _ res (h + 2 * lag)); try done; [lia|]|].
    { eapply Forall_impl; [exact Hdue|]. cbn. unfold MAX_BACKOFF_SECONDS. lia. }
    cbn. intros r' Hr'. unfold MAX_BACKOFF_SECONDS in *. lia.
  - unfold MAX_BACKOFF_SECONDS in *. lia.
  - intros id m. by apply settle_located.
Qed.

Lemma earliest_parked_least now db :
  db_outbox db <> [] -> next_row now db = None ->
  exists r, r ∈ db_outbox db /\ earliest_parked now db = Some (row_next_attempt_at r) /\
    now < row_next_attempt_at r /\ Forall (fun r' => row_next_attempt_at r <= row_next_attempt_at r') (db_outbox db).
Proof.
  intros Hne Hnone%next_row_None. unfold earliest_parked.
  destruct (first_by _ _) as [t|] eqn:Ht.
  - pose proof (first_by_Z_least _ _ Ht) as Hmin. pose proof (first_by_elem _ _ _ Ht) as Hin.
    apply list_elem_of_fmap in Hin as (r & -> & [Hlt Hr]%list_elem_of_filter).
    exists r. split_and!; try done. rewrite Forall_forall in Hnone |- *. intros r' Hr'.
    apply Hmin, list_elem_of_fmap. exists r'. split; [done|]. apply list_elem_of_filter. split; [by apply Hnone|done].
  - apply first_by_None, fmap_nil_inv in Ht. destruct (db_outbox db) as [|r rows]; [done|].
    apply Forall_cons in Hnone as [Hlt _]. rewrite filter_cons, decide_True in Ht by done. done.
Qed.

(** With nothing due, a round of sleep makes a row due. *)
Lemma idle_round h w :
  timed_ok h w -> db_outbox (ms_db (tw_store w)) <> [] -> next_row (tw_now w) (ms_db (tw_store w)) = None ->
  exists w', run handle (run_body dw) w = (w', Continue) /\ timed_ok h w' /\
    tw_store w' = tw_store w /\ tw_sink w' = tw_sink w /\ exists r, next_row (tw_now w') (ms_db (tw_store w')) = Some r.
Proof.
  intros Hok Hne Hnone. destruct (earliest_parked_least _ _ Hne Hnone) as (r & Hr & Ht & Hlt & Hmin).
  pose proof (to_clock _ _ Hok) as Hclock. destruct Hok as [Hs Hnow Hdue Hroom].
  pose proof Hdue as Hdue'. rewrite Forall_forall in Hdue'. specialize (Hdue' r Hr).
  assert (0 <= attempt * Z.of_nat (work w)) as Hpos.
  { pose proof (Htakes (tw_sink w).1). apply Z.mul_nonneg_nonneg; unfold MAX_BACKOFF_SECONDS; lia. }
  eexists. split; [eapply slow_idle; try done; [apply Hs|..]; unfold MAX_BACKOFF_SECONDS in *; lia|].
  split; [split; try done; cbn [tw_now]; lia|]. split; [done|split; [done|]]. cbn [tw_now tw_store].
  destruct (next_row (row_next_attempt_at r + 2 * lag) (ms_db (tw_store w))) as [r'|] eqn:Hn; [by exists r'|].
  apply next_row_None in Hn. rewrite Forall_forall in Hn. specialize (Hn r Hr). lia.
Qed.

Lemma all_leave h w :
  timed_ok h w ->
  exists n w', (n <= 2 * work w)%nat /\ run_loop handle (run_body dw) n w = (w', None) /\
    db_outbox (ms_db (tw_store w')) = [] /\
    tw_now w' <= h + 2 * lag + attempt * Z.of_nat (work w) /\
    forall id m, located (tw_store w) (tw_sink w).2 id m -> located (tw_store w') (tw_sink w').2 id m.
Proof.
  remember (work w) as k eqn:Hk. revert h w Hk. induction k as [k IH] using lt_wf_ind. intros h w -> Hok.
  destruct (db_outbox (ms_db (tw_store w))) as [|r0 rows] eqn:Hout.
  { exists 0%nat, w. split_and!; [lia|done|done| |done]. pose proof (to_now _ _ Hok).
    pose proof (Htakes (tw_sink w).1).
    assert (0 <= attempt * Z.of_nat (work w)) by (apply Z.mul_nonneg_nonneg; unfold MAX_BACKOFF_SECONDS; lia). lia. }
  assert (forall w1, timed_ok h w1 -> tw_store w1 = tw_store w -> tw_sink w1 = tw_sink w ->
    (exists r, next_row (tw_now w1) (ms_db (tw_store w1)) = Some r) ->
    exists n w', (n < 2 * work w)%nat /\ run_loop handle (run_body dw) n w1 = (w', None) /\
      db_outbox (ms_db (tw_store w')) = [] /\
      tw_now w' <= h + 2 * lag + attempt * Z.of_nat (work w) /\
      forall id m, located (tw_store w) (tw_sink w).2 id m -> located (tw_store w') (tw_sink w').2 id m) as Hdue.
  { intros w1 Hok1 Est Esk [r Hr].
    destruct (claimed_round h w1 r Hok1 Hr) as (w2 & Hrun & Hlt & Hok2 & Hloc). rewrite Est in Hlt, Hok2, Hloc.
    destruct (IH (work w2) ltac:(done) _ w2 eq_refl Hok2) as (n & w' & Hn & Hloop & Hempty & Hnow & Hloc').
    exists (S n), w'. cbn [run_loop]. rewrite Hrun. split_and!; [lia|done|done| |].
    - assert (Z.of_nat (work w) = Z.of_nat (work w - work w2) + Z.of_nat (work w2)) as -> by lia.
      rewrite Z.mul_add_distr_l. lia.
    - intros id m Hm. apply Hloc', Hloc. by rewrite Esk. }
  destruct (next_row (tw_now w) (ms_db (tw_store w))) as [r|] eqn:Hr.
  - destruct (Hdue w Hok eq_refl eq_refl) as (n & w' & Hn & Hrest); [by exists r|]. exists n, w'. split; [lia|done].
  - destruct (idle_round h w Hok) as (w1 & Hrun & Hok1 & Est & Esk & Hex); [by rewrite Hout|done|].
    destruct (Hdue w1 Hok1 Est Esk Hex) as (n & w' & Hn & Hloop & Hrest).
    exists (S n), w'. cbn [run_loop]. rewrite Hrun. split; [lia|done].
Qed.
End Leaves.

(** C15: every message is delivered or given up in bounded time.  A worker with storage
    that works, whatever the sink answers and remembers, empties the outbox within two
    rounds for each delivery attempt still allowed, no later than 900 seconds per attempt
    after the last message was due, if deliveries and storage take no time; and if a delivery
    takes up to [longest] seconds and an access to the storage [lag], no later than what these
    add to each attempt.  Each message was accepted by the sink under its key, or stands in
    the dead-letter table. *)
Theorem outbox_empties_in_time {T : Type} (hsink : handler SinkE T) (takes : T -> Z) (longest lag : Z)
    (dw : DeliveryWorker unit) (h : Z) (w : TimedWorld (T * list (str * Message)))
    (Hset : settings_ok dw) (Htakes : forall t, 0 <= takes t <= longest) (Hlag : 0 <= lag)
    (Hok : timed_ok longest lag dw h w) :
  exists n w',
    (n <= 2 * budget (dw_max_retries dw) (ms_db (tw_store w)))%nat /\
    run_loop (slow_handler (logged hsink) (fun s => takes s.1) lag (fun _ => false)) (run_body dw) n w = (w', None) /\
    db_outbox (ms_db (tw_store w')) = [] /\
    tw_now w' <= h + 2 * lag +
      (900 + longest + 2 * lag) * Z.of_nat (budget (dw_max_retries dw) (ms_db (tw_store w))) /\
    forall r, r ∈ db_outbox (ms_db (tw_store w)) ->
      (idempotency_key (row_id r), row_message r) ∈ (tw_sink w').2 \/
      row_message r ∈ letter_message ∘ dead_to_letter <$> db_dead (ms_db (tw_store w')).
Proof.
  destruct (all_leave hsink takes longest lag dw Hset Htakes Hlag h w Hok) as (n & w' & Hn & Hloop & Hempty & Hnow & Hloc).
  exists n, w'. split_and!; try done. intros r Hr.
  destruct (Hloc (row_id r) (row_message r)) as [H|[H|(r' & Hr' & _)]]; [|by left|by right|].
  - right. right. by exists r.
  - rewrite Hempty in Hr'. by apply not_elem_of_nil in Hr'.
Qed.

(** A sink that refuses everything: both messages become dead letters in time. *)
Definition refusing : handler SinkE nat := fun X e s =>
  match e in SinkE X return nat * X with Deliver _ _ => (S s, Err (ChimneyError.Matrix (lit "down"))) end.

Definition two_messages : TimedWorld (nat * list (str * Message)) := mkTimed two_message_store 1000 (0%nat, []).

(** Each delivery takes longer than the one before, up to a minute; the storage a second. *)
Definition slower (calls : nat) : Z := Z.min 60 (Z.of_nat calls * 10).

Lemma outbox_empties_in_time_witness :
  length (db_outbox (ms_db two_message_store)) = 2%nat /\
  exists n w', (n <= 2 * budget 2 (ms_db two_message_store))%nat /\
    run_loop (slow_handler (logged refusing) (fun s => slower s.1) 1 (fun _ => false)) (run_body sample_worker) n two_messages
      = (w', None) /\
    db_outbox (ms_db (tw_store w')) = [] /\
    tw_now w' <= 1000 + 2 * 1 + (900 + 60 + 2 * 1) * Z.of_nat (budget 2 (ms_db two_message_store)) /\
    forall r, r ∈ db_outbox (ms_db two_message_store) ->
      (idempotency_key (row_id r), row_message r) ∈ (tw_sink w').2 \/
      row_message r ∈ letter_message ∘ dead_to_letter <$> db_dead (ms_db (tw_store w')).
Proof.
  split; [vm_compute; reflexivity|].
  apply (outbox_empties_in_time refusing slower 60 1 sample_worker 1000 two_messages).
  - exact sample_settings.
  - intros t. unfold slower. lia.
  - lia.
  - split.
    + exact two_message_drain_ok.
    + split; vm_compute; discriminate.
    + vm_compute. repeat constructor; discriminate.
    + vm_compute. discriminate.
Defined.
