(* ===== verification/Eras.v ===== *)
(** * Every message comes to an end, whatever the homeserver does

    The whole service with a sink that answers as it likes.  Time is cut into eras, each
    long enough after the last one for the parked messages to be due again; within an
    era anything happens in any order, and the worker has a few turns.  Every era that
    finds a message in the outbox uses up a delivery attempt. *)

From S2P Require Import Prelude RustStr Error Effects Store StoreFacts StoreSpec StoreProps Worker WorkerFacts WorkerProps.
From S2P Require Import Reader Mime ConfigData Net Session Serve SessionFacts SessionProps Main System SystemFacts SystemProps.
From S2P Require Import Relay Fair Timed.

(** ** Schedules *)

(** What may happen in an era: no signal, no restart, and the worker's clock reads between
    [lo] and [hi]; the sink accepts or refuses. *)
Definition era_action (lo hi : Z) (a : action) : Prop :=
  match a with
  | WorkerStep clock _ => lo <= clock <= hi
  | Signal | Restart _ => False
  | _ => True
  end.

(** A schedule cut into eras, the first of them from [h] on: nine turns of the worker in
    each, and the longest backoff between one and the next. *)
Inductive eras : Z -> list (list action) -> Prop :=
| eras_nil h : eras h []
| eras_cons h lo hi era rest :
    h <= lo -> lo <= hi <= i64_max - MAX_BACKOFF_SECONDS ->
    Forall (era_action lo hi) era -> (9 <= turns era)%nat ->
    eras (hi + MAX_BACKOFF_SECONDS) rest -> eras h (era :: rest).

(** ** Where the worker is *)

(** The answers a round gets. *)
Definition replies (now : Z) (claimed : option StoredMessage) (sink : Result unit) (wake : Result (option Z))
    (X : Type) (e : WE X) : X :=
  match e in WorkerE _ _ X return X with
  | UnixNow => now
  | ClaimNextReady _ => Ok claimed
  | MarkDelivered _ => Ok tt
  | DeadLetter _ _ => Ok tt
  | Reschedule _ _ _ => Ok tt
  | NextWakeup _ => wake
  | SinkCall e' => match e' in SinkE X return X with Deliver _ _ => sink end
  | Connect => Ok tt
  | ShutdownBorrow => false
  | SelectIdle _ => tt
  | SelectSleep _ => tt
  end.

Section Eras.
Variable validate_email : str -> bool.
Variable parse_mail : bytes -> option ParsedMail.
Variable config : Config.
Variable path : str.

Abbreviation act := (exec_action validate_email parse_mail config path).
Abbreviation exec := (System.exec validate_email parse_mail config path).
Abbreviation dw := (worker config).
Abbreviation outbox s := (db_outbox (ms_db (sy_store s))).

Hypothesis Hset : settings_ok dw.
(** How many messages are stored by the end. *)
Variable total : nat.

Definition at_round (j : nat) (now : Z) (claimed : option StoredMessage) (sink : Result unit)
    (wake : Result (option Z)) : WTask :=
  Running (Nat.iter j (resume (replies now claimed sink wake)) (run_body dw)).
Definition at_connect (j : nat) : WTask :=
  Connecting (Nat.iter j (resume (replies 0 None (Ok tt) (Ok None))) (reconnect_body RECONNECT_BACKOFF_SECONDS)).

(** The worker's place in its loop, and how many turns it needs at most to settle a
    message when one is due at [lo]. *)
Inductive position (lo hi : Z) (s : Sys) : nat -> Prop :=
| pos_connect j : (j <= 2)%nat -> sy_worker s = at_connect j -> position lo hi s (7 - j)
| pos_start : sy_worker s = Running (run_body dw) -> position lo hi s 4
| pos_claim now : lo <= now <= hi -> sy_worker s = at_round 1 now None (Ok tt) (Ok None) -> position lo hi s 3
| pos_old_claim now : 0 <= now <= hi -> sy_worker s = at_round 1 now None (Ok tt) (Ok None) -> position lo hi s 9
| pos_deliver now r :
    0 <= now <= hi -> r ∈ outbox s -> sy_worker s = at_round 2 now (Some (row_to_stored r)) (Ok tt) (Ok None) ->
    position lo hi s 2
| pos_settle now r sink :
    0 <= now <= hi -> r ∈ outbox s -> sy_worker s = at_round 3 now (Some (row_to_stored r)) sink (Ok None) ->
    position lo hi s 1
| pos_idle j now wake : (j <= 2)%nat -> sy_worker s = at_round (2 + j) now None (Ok tt) wake -> position lo hi s (8 - j)
| pos_again : sy_worker s = Running (Ret Continue) -> position lo hi s 5.

(** The next era begins: a claim made before it is an old one. *)
Lemma position_later lo hi lo' hi' s n :
  0 <= lo -> hi <= hi' -> position lo hi s n -> exists n', position lo' hi' s n' /\ (n' <= 9)%nat.
Proof.
  intros Hlo Hle [j Hj Hw|Hw|now Hnow Hw|now Hnow Hw|now r Hnow Hr Hw|now r sink Hnow Hr Hw|j now wake Hj Hw|Hw];
    eexists; (split; [|shelve]).
  - by eapply pos_connect.
  - by eapply pos_start.
  - eapply (pos_old_claim _ _ _ now); [lia|done].
  - eapply (pos_old_claim _ _ _ now); [lia|done].
  - eapply (pos_deliver _ _ _ now); [lia|done..].
  - eapply (pos_settle _ _ _ now); [lia|done..].
  - by eapply pos_idle.
  - by eapply pos_again.
  Unshelve. all: lia.
Qed.

Lemma position_pos lo hi s n : position lo hi s n -> (0 < n)%nat.
Proof. destruct 1; lia. Qed.

(** ** The work left

    Each row has its settlements to come, each message still to arrive has all of them. *)
Definition work (s : Sys) : nat :=
  budget (dw_max_retries dw) (ms_db (sy_store s)) +
  S (Z.to_nat (dw_max_retries dw)) * (total - length (sy_enqueued s)).

Record era_ok (hi : Z) (s : Sys) : Prop := {
  eo_store : drain_store_ok (dw_max_retries dw) (sy_store s);
  eo_room : db_dead_seq (ms_db (sy_store s)) + Z.of_nat (length (outbox s) + (total - length (sy_enqueued s))) <= i64_max;
  eo_running : sy_shutdown s = false;
  eo_due : Forall (fun r => row_next_attempt_at r <= hi + MAX_BACKOFF_SECONDS) (outbox s);
}.

Lemma budget_app db rows new :
  db_outbox db = rows ++ new -> Forall (fun r => row_attempts r = 0) new ->
  budget (dw_max_retries dw) db =
  (sum_list_with (row_budget (dw_max_retries dw)) rows + S (Z.to_nat (dw_max_retries dw)) * length new)%nat.
Proof.
  intros Hrows Hnew. unfold budget. rewrite Hrows, sum_list_with_app. f_equal. clear Hrows.
  induction Hnew as [|r new Hr _ IH]; [cbn; lia|]. cbn [sum_list_with length]. rewrite IH. unfold row_budget. rewrite Hr.
  rewrite Z.sub_0_r. lia.
Qed.

(** Other tasks leave the worker its place and the work the same. *)
Lemma others_era lo hi s s' n :
  0 <= hi -> db_wf (ms_db (sy_store s')) -> others_moved s s' -> (length (sy_enqueued s') <= total)%nat ->
  era_ok hi s -> position lo hi s n ->
  era_ok hi s' /\ position lo hi s' n /\ work s' = work s /\ outbox s `prefix_of` outbox s' /\
  (Forall (fun r => row_next_attempt_at r <= lo) (outbox s) -> 0 <= lo ->
   Forall (fun r => row_next_attempt_at r <= lo) (outbox s')).
Proof.
  intros Hhi Hwf [Hw Hs Hsh Hnf Hseq (new & Hrows & Hnew & He)] Htot [[Hf Hwf0 Hatt Hdead] Hroom Hrun Hdue] Hn.
  apply Forall_and in Hnew as [Hnext Hzero].
  assert (length (outbox s') = (length (outbox s) + length new)%nat) as Hlen by by rewrite Hrows, length_app.
  assert (forall r, r ∈ outbox s -> r ∈ outbox s') as Hkeep by (intros r Hr; rewrite Hrows; apply elem_of_app; by left).
  split; [split|split; [|split; [|split]]].
  - split; [by apply Hnf|done| |].
    + rewrite Hrows. apply Forall_app. split; [done|]. eapply Forall_impl; [exact Hzero|]. cbn. intros r ->. done.
    + rewrite Hseq. lia.
  - rewrite Hseq. lia.
  - by rewrite Hsh.
  - rewrite Hrows. apply Forall_app. split; [done|]. eapply Forall_impl; [exact Hnext|].
    cbn. intros r ->. unfold MAX_BACKOFF_SECONDS. lia.
  - destruct Hn as [j Hj Hw'|Hw'|now Hnow Hw'|now Hnow Hw'|now r Hnow Hr Hw'|now r sink Hnow Hr Hw'|j now wake Hj Hw'|Hw'];
      rewrite <- Hw in Hw'; eauto using position.
  - unfold work. rewrite (budget_app _ _ _ Hrows Hzero). unfold budget. nia.
  - rewrite Hrows. by apply prefix_app_r.
  - intros Hlo Hlo0. rewrite Hrows. apply Forall_app. split; [done|]. eapply Forall_impl; [exact Hnext|]. cbn. lia.
Qed.
(** ** A turn of the worker *)

(** A turn that leaves the tables alone. *)
Lemma era_ok_set_worker hi s w sunk : era_ok hi s -> era_ok hi (set_worker s (sy_store s) w sunk).
Proof. by intros [Hs Hroom Hrun Hdue]. Qed.

Lemma settle_room s r now clock res :
  drain_store_ok (dw_max_retries dw) s -> 0 <= now <= i64_max - MAX_BACKOFF_SECONDS -> r ∈ db_outbox (ms_db s) ->
  let s' := settle dw (row_to_stored r) now clock res s in
  db_dead_seq (ms_db s') + Z.of_nat (length (db_outbox (ms_db s'))) <=
  db_dead_seq (ms_db s) + Z.of_nat (length (db_outbox (ms_db s))).
Proof.
  intros Hs Hnow Hr. pose proof (length_filter_ne row_id r _ Hr) as Hlt. destruct res as [u|e]; cbv zeta.
  - rewrite settle_accepted by apply Hs. cbn in *. lia.
  - rewrite settle_refused_rows by done. destruct (_ <? _); cbn in *; [rewrite length_fmap|]; lia.
Qed.

(** What the worker does to the store when it settles a message. *)
Lemma settle_turn hi s s' clock sink now r res :
  0 <= hi <= i64_max - MAX_BACKOFF_SECONDS ->
  era_ok hi s -> 0 <= now <= hi -> r ∈ outbox s ->
  sy_worker s = at_round 3 now (Some (row_to_stored r)) res (Ok None) ->
  act (WorkerStep clock sink) s = Some s' ->
  sy_store s' = settle dw (row_to_stored r) now clock res (sy_store s) /\
  sy_worker s' = Running (Ret Continue) /\ sy_enqueued s' = sy_enqueued s /\ sy_shutdown s' = sy_shutdown s.
Proof.
  intros Hhi Hok Hnow Hr Hw. cbn [exec_action]. rewrite Hw. unfold at_round. destruct res as [u|e].
  - cbn -[mark_delivered settle row_to_stored]. unfold settle.
    rewrite mark_delivered_no_faults by apply Hok. by intros [= <-].
  - cbn -[dead_letter reschedule handle_failure settle row_to_stored].
    unfold handle_failure, settle. cbv zeta.
    destruct (_ <? _); cbn -[dead_letter reschedule row_to_stored].
    + destruct (dead_letter _ _ _ _) as [st x]. by intros [= <-].
    + destruct (reschedule _ _ _ _) as [st x]. by intros [= <-].
Qed.
(** A turn either settles a message, or brings the worker nearer to one that is due. *)
Definition turn_done (lo hi : Z) (n : nat) (s s' : Sys) : Prop :=
  era_ok hi s' /\ sy_enqueued s' = sy_enqueued s /\
  exists n', position lo hi s' n' /\
    ((work s' < work s)%nat \/
     outbox s' = outbox s /\ work s' = work s /\
     ((exists r, r ∈ outbox s) -> Forall (fun r => row_next_attempt_at r <= lo) (outbox s) -> (S n' <= n)%nat)).

Lemma turn_unsettled lo hi n n' s w sunk :
  era_ok hi s -> position lo hi (set_worker s (sy_store s) w sunk) n' ->
  ((exists r, r ∈ outbox s) -> Forall (fun r => row_next_attempt_at r <= lo) (outbox s) -> (S n' <= n)%nat) ->
  turn_done lo hi n s (set_worker s (sy_store s) w sunk).
Proof.
  intros Hok Hn Hle. split; [by apply era_ok_set_worker|]. split; [done|]. exists n'. split; [done|]. by right.
Qed.

Lemma connect_turn_done lo hi s s' clock sink j :
  era_ok hi s -> (j <= 2)%nat -> sy_worker s = at_connect j ->
  act (WorkerStep clock sink) s = Some s' -> turn_done lo hi (7 - j) s s'.
Proof.
  intros Hok Hj Hw. cbn [exec_action]. rewrite Hw. unfold at_connect.
  destruct j as [|[|[|]]]; [..|lia]; cbn; rewrite ?(eo_running _ _ Hok); intros [= <-]; (eapply turn_unsettled; [done| |]).
  - by eapply (pos_connect _ _ _ 1); [lia|].
  - lia.
  - by eapply (pos_connect _ _ _ 2); [lia|].
  - lia.
  - by eapply pos_start.
  - lia.
Qed.

Lemma next_row_due lo now db :
  lo <= now -> (exists r, r ∈ db_outbox db) -> Forall (fun r => row_next_attempt_at r <= lo) (db_outbox db) ->
  next_row now db <> None.
Proof.
  intros Hle [r Hr] Hdue Hnone%next_row_None. rewrite Forall_forall in Hnone, Hdue.
  specialize (Hnone r Hr). specialize (Hdue r Hr). lia.
Qed.

(** The claim: nine turns are enough after an old one, three after one of this era. *)
Lemma claim_turn_done lo hi s s' clock sink now n :
  era_ok hi s -> 0 <= now <= hi -> (n = 3%nat /\ lo <= now \/ n = 9%nat) ->
  sy_worker s = at_round 1 now None (Ok tt) (Ok None) ->
  act (WorkerStep clock sink) s = Some s' -> turn_done lo hi n s s'.
Proof.
  intros Hok Hnow Hn Hw. cbn [exec_action]. rewrite Hw. unfold at_round. cbn -[claim_next_ready].
  rewrite claim_no_faults by apply Hok. destruct (next_row now (ms_db (sy_store s))) as [r|] eqn:Hr.
  - apply next_row_Some in Hr as [Hr _]. cbn. intros [= <-]. eapply turn_unsettled; [done| |].
    + by eapply (pos_deliver _ _ _ now r).
    + lia.
  - cbn. intros [= <-]. eapply turn_unsettled; [done| |].
    + eapply (pos_idle _ _ _ 0 now (Ok None)); [lia|done].
    + intros Hex Hdue. destruct Hn as [[-> Hlo]| ->]; [|lia]. by destruct (next_row_due lo now _ Hlo Hex Hdue).
Qed.

Lemma next_wakeup_answers now st : no_faults st -> exists w, next_wakeup now st = (st, Ok w).
Proof.
  intros Hnf. unfold next_wakeup. rewrite with_conn_no_faults by done. unfold statement. cbn.
  eexists. f_equal. apply (with_db_id st). done.
Qed.

Lemma idle_turn_done lo hi s s' clock sink j now wake :
  era_ok hi s -> (j <= 2)%nat -> sy_worker s = at_round (2 + j) now None (Ok tt) wake ->
  act (WorkerStep clock sink) s = Some s' -> turn_done lo hi (8 - j) s s'.
Proof.
  intros Hok Hj Hw. cbn [exec_action]. rewrite Hw. unfold at_round.
  destruct j as [|[|[|]]]; [..|lia]; cbn -[next_wakeup]; rewrite ?(eo_running _ _ Hok).
  - intros [= <-]. eapply turn_unsettled; [done| |].
    + by eapply (pos_idle _ _ _ 1 now (Ok None)); [lia|].
    + lia.
  - destruct (next_wakeup_answers now (sy_store s)) as [wk ->]; [apply Hok|].
    intros [= <-]. eapply turn_unsettled; [done| |].
    + by eapply (pos_idle _ _ _ 2 now (Ok wk)); [lia|].
    + lia.
  - intros [= <-]. eapply turn_unsettled; [done| |].
    + by eapply pos_again.
    + lia.
Qed.
Lemma settle_turn_done lo hi s s' clock sink now r res :
  0 <= hi <= i64_max - MAX_BACKOFF_SECONDS -> era_ok hi s -> 0 <= now <= hi -> r ∈ outbox s ->
  sy_worker s = at_round 3 now (Some (row_to_stored r)) res (Ok None) ->
  act (WorkerStep clock sink) s = Some s' -> turn_done lo hi 1 s s'.
Proof.
  intros Hhi Hok Hnow Hr Hw Ha.
  destruct (settle_turn hi s s' clock sink now r res Hhi Hok Hnow Hr Hw Ha) as (Hst & Hw' & He & Hrun).
  destruct Hok as [Hs Hroom Hrun0 Hdue].
  assert (0 <= now <= i64_max - MAX_BACKOFF_SECONDS) as Hclock by lia.
  destruct (settle_drains dw now clock res (sy_store s) r Hset Hs Hclock Hr) as [Hs' Hlt].
  pose proof (settle_room (sy_store s) r now clock res Hs Hclock Hr) as Hrm. cbv zeta in Hrm.
  split; [split|split; [done|]].
  - by rewrite Hst.
  - rewrite Hst, He. lia.
  - by rewrite Hrun.
  - rewrite Hst. by apply (settle_due dw Hset); [..|lia|].
  - exists 5%nat. split; [by apply pos_again|]. left. unfold work. rewrite Hst, He. lia.
Qed.
Lemma worker_turn_done lo hi s s' clock sink n :
  0 <= lo -> hi <= i64_max - MAX_BACKOFF_SECONDS -> lo <= clock <= hi ->
  era_ok hi s -> position lo hi s n -> act (WorkerStep clock sink) s = Some s' -> turn_done lo hi n s s'.
Proof.
  intros Hlo Hhi Hclock Hok Hn Ha.
  destruct Hn as [j Hj Hw|Hw|now Hnow Hw|now Hnow Hw|now r Hnow Hr Hw|now r res Hnow Hr Hw|j now wake Hj Hw|Hw].
  - by eapply connect_turn_done.
  - cbn [exec_action] in Ha. rewrite Hw in Ha. cbn in Ha. injection Ha as <-.
    eapply turn_unsettled; [done| |].
    + apply (pos_claim _ _ _ clock); [done|]. unfold at_round. cbn. rewrite unix_now_ok; [done|].
      unfold MAX_BACKOFF_SECONDS in *. lia.
    + lia.
  - eapply claim_turn_done; [done| | |done..]; [lia|]. left. split; [done|lia].
  - eapply claim_turn_done; [done| | |done..]; [lia|]. by right.
  - cbn [exec_action] in Ha. rewrite Hw in Ha. cbn in Ha. injection Ha as <-.
    eapply turn_unsettled; [done| |].
    + by eapply (pos_settle _ _ _ now r sink).
    + lia.
  - eapply (settle_turn_done lo hi s s' clock sink now r res); try done. lia.
  - by eapply idle_turn_done.
  - cbn [exec_action] in Ha. rewrite Hw in Ha. cbn in Ha. injection Ha as <-.
    eapply turn_unsettled; [done| |].
    + by apply pos_start.
    + lia.
Qed.

(** ** An era *)

Lemma act_enqueued a s s' : act a s = Some s' -> sy_enqueued s `prefix_of` sy_enqueued s'.
Proof. intros H%exec_action_step. destruct H; cbn; try done; by apply prefix_app_r. Qed.

Lemma exec_enqueued actions s s' : exec actions s = Some s' -> sy_enqueued s `prefix_of` sy_enqueued s'.
Proof.
  revert s. induction actions as [|a actions IH]; intros s; cbn; [by intros [= ->]|].
  destruct (act a s) as [s1|] eqn:Ha; [|done]. intros H. etransitivity; [by eapply act_enqueued|by apply IH].
Qed.

Hypothesis Hmax : is_u64 (q_max_len (cfg_queue config)).
Hypothesis Hpath : path <> lit ":memory:".

Abbreviation sys_good := (sys_ok validate_email parse_mail config).

(** What an era keeps; and if at its start a message is due, it settles one. *)
Lemma era_run lo hi actions s s' n :
  0 <= lo -> lo <= hi <= i64_max - MAX_BACKOFF_SECONDS -> Forall (era_action lo hi) actions ->
  exec actions s = Some s' -> (length (sy_enqueued s') <= total)%nat ->
  sys_good s -> era_ok hi s -> position lo hi s n ->
  sys_good s' /\ era_ok hi s' /\ (exists n', position lo hi s' n') /\ (work s' <= work s)%nat /\
  ((exists r, r ∈ outbox s) -> Forall (fun r => row_next_attempt_at r <= lo) (outbox s) -> (n <= turns actions)%nat ->
   (work s' < work s)%nat).
Proof.
  intros Hlo Hhi. revert s n. induction actions as [|a actions IH]; intros s n Hera Hexec Htot Hgood Hok Hn.
  - injection Hexec as <-. split_and!; [done..|by exists n|lia|].
    intros _ _ Hle. pose proof (position_pos _ _ _ _ Hn). unfold turns in Hle. cbn in Hle. lia.
  - cbn in Hexec. destruct (act a s) as [s1|] eqn:Ha; [|done]. cbn in Hexec.
    pose proof (sys_step_ok _ _ _ _ Hmax Hpath s s1 Hgood (exec_action_step _ _ _ _ _ _ _ Ha)) as Hgood1.
    pose proof (prefix_length _ _ (exec_enqueued _ _ _ Hexec)) as Hpre.
    apply Forall_cons in Hera as [Hfa Hera]. rewrite turns_cons. destruct (is_worker_step a) eqn:Hw.
    + destruct a as [| | | | |clock sink| | |dead]; try done. cbn in Hfa.
      destruct (worker_turn_done lo hi s s1 clock sink n) as (Hok1 & He & n1 & Hn1 & Hprog); [done|lia|done..|].
      destruct (IH s1 n1) as (Hg & Ho & Hp & Hle & Hlt); [done..|].
      split_and!; [done..|by destruct Hprog as [|(_ & ? & _)]; lia|].
      intros Hex Hdue Hturns. destruct Hprog as [|(Hout & Hwk & Hnear)]; [lia|].
      rewrite Hout, Hwk in Hlt. apply Hlt; [done..|]. specialize (Hnear Hex Hdue). lia.
    + assert (fair_action lo a) as Hfair by (by destruct a).
      pose proof (other_action_moved _ _ _ _ _ a s s1 (ok_wf _ _ _ _ Hgood) Hfair Hw Ha) as Hmv.
      destruct (others_era lo hi s s1 n) as (Hok1 & Hn1 & Hwk & Hkeep & Hdue1); [lia|apply Hgood1|done|lia|done..|].
      destruct (IH s1 n) as (Hg & Ho & Hp & Hle & Hlt); [done..|].
      split_and!; [done..|lia|]. intros [r Hr] Hdue Hturns. rewrite Hwk in Hlt. apply Hlt; [|by apply Hdue1|lia].
      exists r. by eapply elem_of_prefix.
Qed.
Lemma work_outbox s : work s = 0%nat -> outbox s = [].
Proof.
  unfold work, budget. destruct (outbox s) as [|r rows]; [done|]. cbn [sum_list_with]. by cbn [row_budget].
Qed.

Lemma exec_app before after s : exec (before ++ after) s = exec before s ≫= exec after.
Proof.
  revert s. induction before as [|a before IH]; intros s; [done|]. cbn. destruct (act a s); [apply IH|done].
Qed.

Lemma era_ok_later hi hi' s : hi <= hi' -> era_ok hi s -> era_ok hi' s.
Proof.
  intros Hle [Hs Hroom Hrun Hdue]. split; try done. eapply Forall_impl; [exact Hdue|]. cbn. lia.
Qed.

(** Enough eras: at some moment the outbox is empty. *)
Lemma eras_run h segments s s' n :
  0 <= h -> eras h segments -> exec (mjoin segments) s = Some s' -> (length (sy_enqueued s') <= total)%nat ->
  sys_good s -> era_ok (h - MAX_BACKOFF_SECONDS) s -> position 0 h s n -> (work s <= length segments)%nat ->
  exists before after s1,
    mjoin segments = before ++ after /\ exec before s = Some s1 /\ exec after s1 = Some s' /\ outbox s1 = [].
Proof.
  intros Hh Heras. revert s n Hh. induction Heras as [h|h lo hi era rest Hlo Hhi Hera Hturns Heras IH];
    intros s n Hh Hexec Htot Hgood Hok Hn Hwork.
  - exists [], [], s. split_and!; [done..|]. apply work_outbox. cbn in Hwork. lia.
  - destruct (outbox s) as [|r0 rows] eqn:Hout; [by exists [], (mjoin (era :: rest)), s|].
    cbn in Hexec. rewrite exec_app in Hexec. destruct (exec era s) as [s1|] eqn:Hs1; [|done]. cbn in Hexec.
    destruct (position_later 0 h lo hi s n) as (n0 & Hn0 & Hle); [lia..|done|].
    pose proof (prefix_length _ _ (exec_enqueued _ _ _ Hexec)) as Hpre.
    pose proof (eo_due _ _ Hok) as Hdue. unfold MAX_BACKOFF_SECONDS in *.
    destruct (era_run lo hi era s s1 n0) as (Hg1 & Ho1 & (n1 & Hn1) & _ & Hlt);
      [lia|unfold MAX_BACKOFF_SECONDS; lia|done..|lia|done|eapply era_ok_later; [|done]; unfold MAX_BACKOFF_SECONDS; lia|done|].
    assert (work s1 < work s)%nat as Hless.
    { apply Hlt; [exists r0; rewrite Hout; left| |lia]. eapply Forall_impl; [exact Hdue|]. cbn. lia. }
    destruct (position_later lo hi 0 (hi + 900) s1 n1) as (n2 & Hn2 & _); [lia..|done|].
    destruct (IH s1 n2) as (before & after & s2 & Heq & Hb & Ha & Hempty);
      [lia|done..|eapply era_ok_later; [|done]; unfold MAX_BACKOFF_SECONDS; lia|done|cbn in Hwork; lia|].
    exists (era ++ before), after, s2. cbn. rewrite exec_app, Hs1. cbn.
    split; [rewrite <- app_assoc; f_equal; exact Heq|done].
Qed.
End Eras.

(** C14: no message waits for ever, whatever the homeserver does.  From any reachable state,
    restart the process with storage that works; then let anything happen in any order, in
    eras that lie the longest backoff apart and give the worker nine turns each:
    connections, sessions that store more mail or break off, deliveries that the sink
    accepts or refuses as it likes.  Once there were as many eras as the stored messages
    have delivery attempts left, those that came in meanwhile included, every message
    the service had stored before the restart has been accepted by the sink under its
    key, or is a dead letter. *)
Theorem every_message_comes_to_an_end (validate_email : str -> bool) (parse_mail : bytes -> option ParsedMail)
    (config : Config) (path : str) (faults : list (option str)) (h : Z) (segments : list (list action)) (s s' : Sys)
    (Hmax : is_u64 (q_max_len (cfg_queue config))) (Hpath : path <> lit ":memory:") (Hset : settings_ok (worker config))
    (Hreach : reachable validate_email parse_mail config path faults s) (Hh : 0 <= h)
    (Hdue : Forall (fun r => row_next_attempt_at r <= h /\ row_attempts r < u32_max) (db_outbox (ms_db (sy_store s))))
    (Hroom : db_dead_seq (ms_db (sy_store s)) + Z.of_nat (length (db_outbox (ms_db (sy_store s)))
               + (length (sy_enqueued s') - length (sy_enqueued s))) <= i64_max)
    (Heras : eras h segments)
    (Hexec : exec validate_email parse_mail config path (Restart [] :: mjoin segments) s = Some s')
    (Henough : (budget (q_max_retries (cfg_queue config)) (ms_db (sy_store s)) +
                S (Z.to_nat (q_max_retries (cfg_queue config))) * (length (sy_enqueued s') - length (sy_enqueued s))
                <= length segments)%nat) :
  forall id m, (id, m) ∈ sy_enqueued s ->
    (idempotency_key id, m) ∈ sy_sunk s' \/
    m ∈ letter_message ∘ dead_to_letter <$> db_dead (ms_db (sy_store s')).
Proof.
  intros id m Hin. pose proof Hexec as Hexec0. cbn [exec] in Hexec.
  destruct (exec_action _ _ _ _ (Restart []) s) as [s0|] eqn:Hs0; [|done]. cbn [mbind option_bind] in Hexec.
  pose proof (reach_step _ _ _ _ _ _ _ Hreach (exec_action_step _ _ _ _ _ _ _ Hs0)) as Hreach0.
  pose proof (act_enqueued _ _ _ _ _ _ _ Hs0) as Hpre0.
  cbn [exec_action] in Hs0. rewrite restart_no_faults in Hs0 by done. injection Hs0 as Hs0.
  destruct (eras_run validate_email parse_mail config path Hset (length (sy_enqueued s')) Hmax Hpath h segments s0 s' 7)
    as (before & after & s1 & _ & Hb & Ha & Hempty); try done.
  - by apply (reachable_ok _ _ _ _ Hmax Hpath faults).
  - apply Forall_and in Hdue as [Hdue Hatt].
    pose proof (reachable_ok _ _ _ _ Hmax Hpath _ _ Hreach0) as Hok0. subst s0. cbn in Hroom.
    split; [split|..]; cbn; [done|apply Hok0|done|lia|lia|done|].
    eapply Forall_impl; [exact Hdue|]. cbn. lia.
  - subst s0. by apply (pos_connect _ _ _ _ 0); [lia|].
  - subst s0. exact Henough.
  - pose proof (exec_reachable _ _ _ _ _ _ _ _ Hreach0 Hb) as Hreach1.
    pose proof (exec_enqueued _ _ _ _ _ _ _ Hb) as Hpre1.
    destruct (reachable_one_place _ _ _ _ Hmax Hpath _ _ Hreach1) as (finished & buried & Hpl & _ & Hfin & Hbu & _).
    rewrite Hempty in Hpl. cbn in Hpl.
    assert ((id, m) ∈ finished ++ buried) as Hplace.
    { rewrite <- Hpl. eapply elem_of_prefix; [|exact Hpre1]. by eapply elem_of_prefix. }
    apply elem_of_app in Hplace as [Hf|Hbur].
    + left. eapply elem_of_prefix; [by apply Hfin|]. by eapply exec_sunk.
    + right. destruct (exec_dead _ _ _ _ Hmax Hpath _ _ _ _ Hreach1 Ha) as [k Hk]. cbn in Hk.
      rewrite !list_fmap_compose, Hk. apply elem_of_app. left. rewrite <- list_fmap_compose, <- Hbu.
      apply list_elem_of_fmap. by exists (id, m).
Qed.

(** The second process of [first_process], with a homeserver that refuses everything for
    twelve eras; in the first of them another client stores a message. *)
Definition bad_era (k : nat) : list action :=
  (if (k =? 0)%nat then Accept 0 200 day_reader [] :: replicate 14 (SessionStep 0 2000) else []) ++
  replicate 9 (WorkerStep (2000 + 1000 * Z.of_nat k) (Err (ChimneyError.Matrix (lit "down")))).
Definition bad_eras : list (list action) := bad_era <$> seq 0 12.

Lemma bad_eras_eras n k h :
  h <= 2000 + 1000 * Z.of_nat k -> (k + n <= 1000)%nat -> eras h (bad_era <$> seq k n).
Proof.
  revert k h. induction n as [|n IH]; intros k h Hh Hk; cbn; [constructor|].
  apply (eras_cons h (2000 + 1000 * Z.of_nat k) (2000 + 1000 * Z.of_nat k)).
  - done.
  - unfold MAX_BACKOFF_SECONDS, i64_max. lia.
  - unfold bad_era. apply Forall_app. split; [destruct (k =? 0)%nat; by repeat constructor|].
    apply Forall_replicate. cbn. lia.
  - unfold bad_era. rewrite turns_app, turns_worker. lia.
  - apply IH; [unfold MAX_BACKOFF_SECONDS|]; lia.
Qed.

Definition bad_end : Sys :=
  default (sys_init day_config []) (exec toy_email no_mime day_config day_path (Restart [] :: mjoin bad_eras) first_process).

Lemma bad_eras_run :
  exec toy_email no_mime day_config day_path (Restart [] :: mjoin bad_eras) first_process = Some bad_end.
Proof.
  assert (match exec toy_email no_mime day_config day_path (Restart [] :: mjoin bad_eras) first_process with
          | Some _ => true | None => false end = true) as H by (vm_compute; reflexivity).
  unfold bad_end. by destruct (exec _ _ _ _ _ _).
Qed.

Lemma every_message_comes_to_an_end_witness :
  sy_enqueued first_process = [(1, day_message)] /\ length (sy_enqueued bad_end) = 2%nat /\ sy_sunk bad_end = [] /\
  ((idempotency_key 1, day_message) ∈ sy_sunk bad_end \/
   day_message ∈ letter_message ∘ dead_to_letter <$> db_dead (ms_db (sy_store bad_end))).
Proof.
  assert (sy_enqueued first_process = [(1, day_message)]) as Hfirst by (vm_compute; reflexivity).
  assert (length (sy_enqueued bad_end) = 2%nat) as Hlast by (vm_compute; reflexivity).
  split_and!; [done|done|vm_compute; reflexivity|].
  apply (every_message_comes_to_an_end toy_email no_mime day_config day_path [] 1000 bad_eras first_process bad_end).
  - split; vm_compute; discriminate.
  - discriminate.
  - split; vm_compute; split; congruence.
  - exact first_process_reachable.
  - discriminate.
  - apply (bool_decide_eq_true_1 _). vm_compute. reflexivity.
  - rewrite Hfirst, Hlast. vm_compute. discriminate.
  - apply (bad_eras_eras 12 0 1000); [discriminate|lia].
  - exact bad_eras_run.
  - rewrite Hfirst, Hlast. apply Nat.leb_le. vm_compute. reflexivity.
  - rewrite Hfirst. left.
Defined.
