(* ===== verification/Room.v ===== *)
(** * What the rooms show

    The worker may hand a message to the homeserver more than once, each time under the
    same transaction id, and a homeserver that has seen an id in the same session answers
    without sending again.  [Homeserver] states that behaviour, documented in the
    client-server API of Matrix, for the requests of one session; the theorem says what
    the members of the room see of them.  The README takes a restart for a new session,
    so the stretches of an execution to apply the theorem to are those between two
    restarts; nothing is said here of what a homeserver remembers from one session to
    the next.  The theorem does not rely on the stretch being without restarts, so where a
    session outlives them it covers them too. *)

From S2P Require Import Prelude RustStr Error Effects Store StoreFacts StoreSpec StoreProps Worker WorkerFacts WorkerProps.
From S2P Require Import Reader Mime ConfigData Net Session Serve SessionFacts SessionProps Main System SystemFacts SystemProps.
From S2P Require Import Relay Fair.

(** What one session shows of the requests it accepted, in their order.  The [log] is that
    of one session: the laws are not about requests of different sessions. *)
Class Homeserver : Type := {
  shown : list (str * Message) -> list Message;
  shown_nothing : shown [] = [];
  shown_again log key m : key ∈ log.*1 -> shown (log ++ [(key, m)]) = shown log;
  shown_new log key m : key ∉ log.*1 -> shown (log ++ [(key, m)]) = shown log ++ [m];
}.

(** A homeserver that keeps the list of the ids it has seen. *)
Fixpoint dedup (seen : list str) (log : list (str * Message)) : list Message :=
  match log with
  | [] => []
  | (key, m) :: log' => if bool_decide (key ∈ seen) then dedup seen log' else m :: dedup (key :: seen) log'
  end.

Lemma dedup_app seen log key m :
  dedup seen (log ++ [(key, m)]) =
  dedup seen log ++ (if bool_decide (key ∈ seen \/ key ∈ log.*1) then [] else [m]).
Proof.
  revert seen. induction log as [|[k x] log IH]; intros seen.
  - cbn. repeat case_bool_decide; try done; set_solver.
  - cbn. case_bool_decide as Hk; rewrite IH; cbn; repeat case_bool_decide; try done; set_solver.
Qed.

Definition dedup_server : Homeserver.
Proof.
  refine {| shown := dedup [] |}; [done| |]; intros log key m H; rewrite dedup_app.
  - rewrite bool_decide_eq_true_2 by (by right). apply app_nil_r.
  - rewrite bool_decide_eq_false_2; [done|]. by intros [?%not_elem_of_nil|?].
Defined.

(** ** Deliveries in a stretch of a relay's execution *)

Record stretch (a0 a : Relay) (given : list (Z * Message)) : Prop := {
  st_given : rl_given a = rl_given a0 ++ given;
  st_last : rl_last a0 <= rl_last a;
  st_pending id m : rl_pending a !! id = Some m -> rl_pending a0 !! id = Some m \/ rl_last a0 < id;
  st_sent id m : (id, m) ∈ given -> rl_pending a0 !! id = Some m \/ rl_last a0 < id;
}.

Lemma stretch_start a : stretch a a [].
Proof. split; [by rewrite app_nil_r|lia|by left|by intros id m ?%not_elem_of_nil]. Qed.

(** Only a pending message is given, and only a new one becomes pending. *)
Lemma stretch_step a0 a a' given :
  stretch a0 a given -> relay_step a a' -> exists given', stretch a0 a' given'.
Proof.
  intros [Hg Hl Hp Hs] Hstep. destruct Hstep as [l p rc ak gv fn bu m|l p rc ak gv fn bu id m Hin|l p rc ak gv fn bu id m Hi
    |l p rc ak gv fn bu id m Hi _|l p rc ak gv fn bu id m Hi]; cbn in *.
  - exists given. split; cbn; [done|lia| |done].
    intros i x [[<- _]|[_ Hx]]%lookup_insert_Some; [right; lia|by apply Hp].
  - by exists given.
  - exists (given ++ [(id, m)]). split; cbn; [by rewrite Hg, app_assoc|done|done|].
    intros i x [Hx|Hx]%elem_of_app; [by apply Hs|]. apply list_elem_of_singleton in Hx as [= -> ->]. by apply Hp.
  - exists given. split; cbn; try done. intros i x [_ Hx]%lookup_delete_Some. by apply Hp.
  - exists given. split; cbn; try done. intros i x [_ Hx]%lookup_delete_Some. by apply Hp.
Qed.

Lemma stretch_steps a0 a : rtc relay_step a0 a -> exists given, stretch a0 a given.
Proof.
  intros Hsteps. apply rtc_ind_r with (P := fun a => exists given, stretch a0 a given) (z := a) in Hsteps; [done| |].
  - exists []. apply stretch_start.
  - intros b c _ Hstep [given Hst]. by eapply stretch_step.
Qed.

(** ** What is shown of a list of deliveries *)

Section Shown.
Context `{Homeserver}.

(** With one message for each id, every id is shown once. *)
Lemma shown_once (given : list (Z * Message)) :
  (forall id m m', (id, m) ∈ given -> (id, m') ∈ given -> m = m') ->
  exists firsts, shown (sunk_of <$> given) = firsts.*2 /\ NoDup firsts.*1 /\
    forall id m, (id, m) ∈ firsts <-> (id, m) ∈ given.
Proof.
  induction given as [|[id m] given IH] using rev_ind; intros Hfun.
  - exists []. split; [apply shown_nothing|]. split; [constructor|done].
  - destruct IH as (firsts & Hshown & Hnd & Hiff).
    { intros i x x' H1 H2. apply (Hfun i); apply elem_of_app; by left. }
    rewrite fmap_app. cbn [fmap list_fmap]. unfold sunk_of at 2. cbn [fst snd].
    destruct (decide (idempotency_key id ∈ (sunk_of <$> given).*1)) as [Hin|Hout].
    + rewrite shown_again by done. exists firsts. split; [done|]. split; [done|]. intros i x. rewrite Hiff, elem_of_app.
      split; [by left|]. intros [?|Hx]; [done|]. apply list_elem_of_singleton in Hx as [= -> ->].
      rewrite <- list_fmap_compose in Hin. apply list_elem_of_fmap in Hin as ([i x] & Hk & Hx). cbn in Hk.
      apply app_inv_head, show_int_inj in Hk as ->. assert (m = x) as ->; [|done].
      apply (Hfun i); apply elem_of_app; [by right; left|by left].
    + rewrite shown_new by done. exists (firsts ++ [(id, m)]). rewrite Hshown, !fmap_app. split; [done|]. split.
      * apply NoDup_app. split_and!; [done| |apply NoDup_singleton].
        intros i ((j & x) & -> & Hx)%list_elem_of_fmap Hi. apply list_elem_of_singleton in Hi. cbn in Hi. subst j.
        apply Hout. rewrite <- list_fmap_compose. apply list_elem_of_fmap. exists (id, x). split; [done|]. by apply Hiff.
      * intros i x. rewrite !elem_of_app, Hiff. done.
Qed.
End Shown.

(** ** The service *)

Lemma NoDup_fst_unique {A B} (l : list (A * B)) x y y' : NoDup l.*1 -> (x, y) ∈ l -> (x, y') ∈ l -> y = y'.
Proof.
  intros Hnd H1 H2. apply list_elem_of_lookup in H1 as [i Hi]. apply list_elem_of_lookup in H2 as [j Hj].
  assert (i = j) as ->; [|congruence].
  eapply (NoDup_lookup l.*1); [done|by rewrite list_lookup_fmap, Hi|by rewrite list_lookup_fmap, Hj].
Qed.

Lemma run_abstracts v pm config path faults s0 s a0 :
  is_u64 (q_max_len (cfg_queue config)) -> path <> lit ":memory:" ->
  reachable v pm config path faults s0 -> rtc (sys_step v pm config path) s0 s -> abstracts s0 a0 ->
  reachable v pm config path faults s /\ exists a, rtc relay_step a0 a /\ abstracts s a.
Proof.
  intros Hmax Hpath Hreach Hrun Habs0.
  apply rtc_ind_r with (P := fun s => reachable v pm config path faults s /\ exists a, rtc relay_step a0 a /\ abstracts s a)
    (z := s) in Hrun; [done| |].
  - split; [done|]. by exists a0.
  - intros s1 s2 _ Hstep (Hr & a & Hsteps & Habs). split; [by eapply reach_step|].
    destruct (sys_step_simulates v pm config path Hpath s1 s2 (reachable_ok v pm config path Hmax Hpath faults s1 Hr) Hstep a Habs)
      as (a' & Ha & Habs').
    exists a'. split; [|done]. etransitivity; [exact Hsteps|]. apply rtc_bsteps. by eexists.
Qed.


(** The removal of the delivered message fails once: it is delivered twice, and shown once. *)
Definition bad_removal : list action :=
  [WorkerStep 1000 (Ok tt); Accept 0 200 day_reader []] ++ replicate 14 (SessionStep 0 1000) ++
  [Restart (replicate 5 None ++ [Some (lit "disk I/O error")])] ++ replicate 16 (WorkerStep 1010 (Ok tt)).

Definition after_bad_removal : Sys :=
  default (sys_init day_config []) (exec toy_email no_mime day_config day_path bad_removal (sys_init day_config [])).

Lemma bad_removal_runs :
  rtc (sys_step toy_email no_mime day_config day_path) (sys_init day_config []) after_bad_removal.
Proof.
  unfold after_bad_removal. destruct (exec _ _ _ _ _ _) as [s|] eqn:Hs; [|done]. by eapply exec_steps.
Qed.

