(* ===== verification/PowerLoss.v ===== *)
(** * Power loss

    The database runs with [journal_mode=WAL] and [synchronous=NORMAL] ([SCHEMA] of
    [src/src/queue/store.rs]).  SQLite documents what that means: a transaction survives
    the process, but the log is only synced when it is moved into the database, and a
    power loss may take back the transactions since then, the last ones first.  So a
    machine is the service with the states its tables went through since the last sync;
    a power loss leaves one of them on the disk. *)

From S2P Require Import Prelude RustStr Error Effects Store StoreFacts StoreSpec StoreProps Worker WorkerFacts WorkerProps.
From S2P Require Import Reader Mime ConfigData Net Session Serve SessionFacts SessionProps Main System SystemFacts SystemProps.
From S2P Require Import Relay.

(** The tables after a commit, with the messages acknowledged until then (for the
    statements only). *)
Definition commit : Type := Db * list (Z * Message).

Record Machine : Type := mkMachine {
  mc_sys : Sys;
  mc_commits : list commit;     (** since the last sync, the oldest first *)
}.

Definition commit_of (s : Sys) : commit := (ms_db (sy_store s), sy_acked s).

(** The process that starts on the tables a power loss left: [st] is the store it opened.
    The acknowledgements that were taken back are those not in [acked]. *)
Definition rebooted (s : Sys) (st : MessageStore) (acked : list (Z * Message)) : Sys :=
  mkSys st ∅ (Connecting (reconnect_body RECONNECT_BACKOFF_SECONDS)) false (sy_enqueued s) acked (sy_sunk s) [].

(** A store with given tables. *)
Definition store_of (max_len : Z) (db : Db) : MessageStore := mkStore (mkConn db []) 0 max_len.

Section PowerLoss.
Variable validate_email : str -> bool.
Variable parse_mail : bytes -> option ParsedMail.
Variable config : Config.
Variable path : str.

Abbreviation sstep := (sys_step validate_email parse_mail config path).
Abbreviation invariant := (sys_ok validate_email parse_mail config).
Abbreviation max_len := (q_max_len (cfg_queue config)).

Inductive machine_step : Machine -> Machine -> Prop :=
(** The service takes a step; what it commits is in the log. *)
| mc_runs s s' commits :
    sstep s s' -> machine_step (mkMachine s commits) (mkMachine s' (commits ++ [commit_of s']))
(** The log is synced, to its end or to some commit in it. *)
| mc_syncs s synced c commits :
    machine_step (mkMachine s (synced ++ c :: commits)) (mkMachine s (c :: commits))
(** The power fails; the process starts again on what is on the disk. *)
| mc_power_loss s commits db acked faults st :
    (db, acked) ∈ commits -> restart path max_len (store_of max_len db) faults = Ok st ->
    machine_step (mkMachine s commits) (mkMachine (rebooted s st acked) [(db, acked)]).

Definition machine_init (faults : list (option str)) : Machine :=
  mkMachine (sys_init config faults) [commit_of (sys_init config faults)].

(** What the disk is sure to keep: the messages acknowledged before the oldest commit
    that may be left. *)
Definition synced (m : Machine) : list (Z * Message) :=
  match mc_commits m with [] => [] | (_, acked) :: _ => acked end.

(** ** The invariant: each commit would be a good state to start from *)

(** Every id that was given out belongs to a message the service stored. *)
Definition ids_known (s : Sys) (db : Db) : Prop :=
  forall id, 1 <= id <= db_outbox_seq db -> exists msg, (id, msg) ∈ sy_enqueued s.

Record machine_ok (m : Machine) : Prop := {
  mo_sys : invariant (mc_sys m);
  mo_commits : Forall (fun c => invariant (rebooted (mc_sys m) (store_of max_len c.1) c.2)) (mc_commits m);
  mo_order : StronglySorted (fun c c' => c.2 `prefix_of` c'.2) (mc_commits m);
  mo_acked : Forall (fun c => c.2 `prefix_of` sy_acked (mc_sys m)) (mc_commits m);
  mo_ids : ids_known (mc_sys m) (ms_db (sy_store (mc_sys m)));
  mo_commit_ids : Forall (fun c => ids_known (mc_sys m) c.1) (mc_commits m);
}.

(** The tables of another store, and logs that grew. *)
Lemma rebooted_grows s s' st acked :
  sy_enqueued s `prefix_of` sy_enqueued s' -> sy_sunk s `prefix_of` sy_sunk s' -> invariant s' ->
  invariant (rebooted s st acked) -> invariant (rebooted s' st acked).
Proof.
  intros He Hk Hok' [Hwf Hmax Hperm Hsess Hwork Hent Hack _ _]. cbn in *. split; cbn; try done.
  - exists WIdle. split; [exact I|]. apply reconnect_body_conforms.
  - intros id e Hi. eapply elem_of_prefix; [by apply Hent|done].
  - intros id m Hin. destruct (Hack id m Hin) as [Hset Hin']. split; [|by eapply elem_of_prefix].
    destruct Hset as [Hq|[Hs|Hd]]; [by left|right; left|by right; right]. by eapply elem_of_prefix.
  - apply (ok_sunk _ _ _ _ Hok').
Qed.

(** The tables the service has now are a good place to start. *)
Lemma rebooted_now s : invariant s -> invariant (rebooted s (store_of max_len (ms_db (sy_store s))) (sy_acked s)).
Proof.
  intros [Hwf [Heq Hw] Hperm Hsess Hwork Hent Hack Hsunk _]. split; cbn; try done.
  - split; [done|]. unfold within_max_len in *. by rewrite Heq in Hw.
  - rewrite map_size_empty. unfold permits. lia.
  - exists WIdle. split; [exact I|]. apply reconnect_body_conforms.
Qed.

Lemma sys_step_logs s s' :
  sstep s s' -> sy_enqueued s `prefix_of` sy_enqueued s' /\ sy_sunk s `prefix_of` sy_sunk s' /\
    sy_acked s `prefix_of` sy_acked s'.
Proof. destruct 1; cbn; split_and!; try done; by apply prefix_app_r. Qed.

Hypothesis Hmax : is_u64 max_len.
Hypothesis Hpath : path <> lit ":memory:".

Lemma ids_known_grows s s' db : sy_enqueued s `prefix_of` sy_enqueued s' -> ids_known s db -> ids_known s' db.
Proof. intros He Hk id Hid. destruct (Hk id Hid) as [msg Hin]. exists msg. by eapply elem_of_prefix. Qed.

(** Some relay abstracts the service, whatever was delivered before. *)
Lemma given_exists s (log : list (str * Message)) :
  (forall key m, (key, m) ∈ log -> exists id, key = idempotency_key id /\ (id, m) ∈ sy_enqueued s) ->
  exists given, sunk_of <$> given = log.
Proof.
  induction log as [|[key m] log IH]; intros H; [by exists []|].
  destruct IH as [given <-]; [intros k x Hin; apply H; by right|]. destruct (H key m) as (id & -> & _); [by left|].
  by exists ((id, m) :: given).
Qed.

Lemma invariant_abstracts s : invariant s -> exists a, abstracts s a.
Proof.
  intros Hok. destruct (given_exists s (sy_sunk s) (ok_sunk _ _ _ _ Hok)) as [given Hgiven].
  set (q := queue_of (ms_db (sy_store s))).
  exists (mkRelay (q_last_id q) (entry_message <$> q_entries q) (sy_enqueued s) (sy_acked s) given []
    ((fun l => (0, letter_message l)) <$> q_letters q)).
  split; try done. cbn. by rewrite <- list_fmap_compose.
Qed.

(** An id is given out with its message, the next one each time. *)
Lemma relay_step_ids a a' :
  bsteps relay_step 1 a a' ->
  (forall id, 1 <= id <= rl_last a -> exists msg, (id, msg) ∈ rl_received a) ->
  forall id, 1 <= id <= rl_last a' -> exists msg, (id, msg) ∈ rl_received a'.
Proof.
  intros Hsteps Hk. inversion Hsteps as [|? ? b ? Hstep Hrest]; subst; [done|].
  inversion Hrest; subst. destruct Hstep as [l p rc ak gv fn bu m| | | |]; cbn in *; try exact Hk.
  intros id Hid. destruct (decide (id = l + 1)) as [->|].
  - exists m. apply elem_of_app. right. by left.
  - destruct (Hk id) as [msg Hin]; [lia|]. exists msg. apply elem_of_app. by left.
Qed.

Lemma sys_step_ids s s' :
  invariant s -> sstep s s' -> ids_known s (ms_db (sy_store s)) -> ids_known s' (ms_db (sy_store s')).
Proof.
  intros Hok Hstep Hk. destruct (invariant_abstracts s Hok) as [a Ha].
  destruct (sys_step_simulates _ _ _ _ Hpath s s' Hok Hstep a Ha) as (a' & Hsteps & Ha').
  pose proof (relay_step_ids a a' Hsteps) as H. unfold ids_known in *.
  rewrite (abs_last _ _ Ha), (abs_received _ _ Ha), (abs_last _ _ Ha'), (abs_received _ _ Ha') in H. by apply H.
Qed.

Lemma rebooted_store s st db acked faults :
  restart path max_len (store_of max_len db) faults = Ok st ->
  invariant (rebooted s (store_of max_len db) acked) -> invariant (rebooted s st acked).
Proof.
  intros Hr [Hwf [_ Hw] Hperm Hsess Hwork Hent Hack Hsunk _]. cbn in *.
  destruct (restart_ok _ _ _ _ _ Hpath Hr) as (Hdb & Hml & _). cbn in Hdb.
  split; cbn; rewrite ?Hdb; try done.
  - split; [done|]. unfold within_max_len in *. by rewrite Hdb, Hml.
  - exists WIdle. split; [exact I|]. apply reconnect_body_conforms.
  - intros id m Hin. destruct (Hack id m Hin) as [Hset Hin']. split; [|done].
    unfold settled in *. cbn in *. by rewrite Hdb.
Qed.

Lemma machine_step_ok m m' : machine_ok m -> machine_step m m' -> machine_ok m'.
Proof.
  intros [Hsys Hcom Hord Hack Hids Hcids] Hstep.
  destruct Hstep as [s s' commits Hstep|s syn c commits|s commits db acked faults st Hin Hr]; cbn in *.
  - pose proof (sys_step_ok _ _ _ _ Hmax Hpath s s' Hsys Hstep) as Hsys'.
    destruct (sys_step_logs _ _ Hstep) as (He & Hk & Ha).
    assert (Forall (fun c => c.2 `prefix_of` sy_acked s') commits) as Hack'.
    { eapply Forall_impl; [exact Hack|]. intros c Hc. etransitivity; [exact Hc|done]. }
    pose proof (sys_step_ids s s' Hsys Hstep Hids) as Hids'.
    split; cbn [mc_sys mc_commits]; [done| | | |done|].
    + apply Forall_app. split; [|constructor; [by apply rebooted_now|constructor]].
      eapply Forall_impl; [exact Hcom|]. intros [db ak] Hc. cbn in *. by eapply rebooted_grows.
    + apply StronglySorted_app_2; [|done|by repeat constructor].
      intros c c' Hc Hc'%list_elem_of_singleton. subst c'. rewrite Forall_forall in Hack'. by apply Hack'.
    + apply Forall_app. split; [done|by constructor].
    + apply Forall_app. split; [|by constructor].
      eapply Forall_impl; [exact Hcids|]. intros c. by apply ids_known_grows.
  - apply Forall_app in Hcom as [_ Hcom]. apply Forall_app in Hack as [_ Hack]. apply Forall_app in Hcids as [_ Hcids].
    apply StronglySorted_app_1_r in Hord. by split.
  - rewrite Forall_forall in Hcom, Hcids. specialize (Hcom _ Hin). specialize (Hcids _ Hin). cbn in Hcom, Hcids.
    destruct (restart_ok _ _ _ _ _ Hpath Hr) as (Hdb & _). cbn in Hdb.
    split; cbn [mc_sys mc_commits]; [by eapply rebooted_store| |by repeat constructor|by constructor| |by repeat constructor].
    + constructor; [|constructor]. cbn. exact Hcom.
    + cbn. rewrite Hdb. exact Hcids.
Qed.

Lemma machine_init_ok faults : machine_ok (machine_init faults).
Proof.
  pose proof (sys_init_ok validate_email parse_mail config faults) as Hok.
  assert (ids_known (sys_init config faults) SCHEMA_db) as Hids by (intros id; cbn; lia).
  split; cbn; [done|constructor; [by apply rebooted_now|constructor]|by repeat constructor|by constructor|done|by constructor].
Qed.

Lemma machine_run_ok faults m : rtc machine_step (machine_init faults) m -> machine_ok m.
Proof.
  intros Hrun. apply rtc_ind_r with (P := machine_ok) (z := m) in Hrun; [done|apply machine_init_ok|].
  intros m1 m2 _ Hstep Hok. by eapply machine_step_ok.
Qed.

(** A step keeps what the disk is sure to keep. *)
Lemma synced_kept m m' : machine_ok m -> machine_step m m' -> synced m `prefix_of` sy_acked (mc_sys m').
Proof.
  intros [_ _ Hord Hack _ _] Hstep. unfold synced. destruct (mc_commits m) as [|[db0 ak0] rest] eqn:Hc; [by apply prefix_nil|].
  destruct Hstep as [s s' commits Hstep|s syn c commits|s commits db acked faults st Hin Hr]; cbn in *; subst.
  - apply Forall_cons in Hack as [Hack _]. destruct (sys_step_logs _ _ Hstep) as (_ & _ & Ha). by etransitivity.
  - by apply Forall_cons in Hack as [Hack _].
  - apply StronglySorted_cons in Hord as [Hall _]. rewrite Forall_forall in Hall.
    apply elem_of_cons in Hin as [[= -> ->]|Hin]; [done|]. by apply (Hall _ Hin).
Qed.

(** A run of the service, as the machine sees it. *)
Lemma machine_runs s s' commits :
  rtc sstep s s' -> exists more, rtc machine_step (mkMachine s commits) (mkMachine s' (commits ++ more)).
Proof.
  intros Hrun. revert commits. induction Hrun as [s|s s1 s' Hstep _ IH]; intros commits.
  - exists []. by rewrite app_nil_r.
  - destruct (IH (commits ++ [commit_of s1])) as [more Hmore]. exists ([commit_of s1] ++ more). rewrite app_assoc.
    eapply rtc_l; [by apply mc_runs|done].
Qed.
End PowerLoss.

(** C7: what a power loss can take is bounded.  Let the service run, the log be synced
    now and then, and the power fail any number of times, each time leaving any of the
    states the tables had since the last sync.  In every state that can be reached, the
    messages whose acknowledgement is on the disk are in the outbox under their id, were
    accepted by the sink under the key of it, or are dead letters; and the next step, a
    power loss as well, keeps every acknowledgement made before the last sync. *)
Theorem synced_mail_survives_power_loss (validate_email : str -> bool) (parse_mail : bytes -> option ParsedMail)
    (config : Config) (path : str) (faults : list (option str)) (m : Machine)
    (Hmax : is_u64 (q_max_len (cfg_queue config))) (Hpath : path <> lit ":memory:")
    (Hrun : rtc (machine_step validate_email parse_mail config path) (machine_init config faults) m) :
  (forall id msg, (id, msg) ∈ sy_acked (mc_sys m) -> settled (mc_sys m) msg id /\ (id, msg) ∈ sy_enqueued (mc_sys m)) /\
  forall m', machine_step validate_email parse_mail config path m m' ->
    forall id msg, (id, msg) ∈ synced m -> (id, msg) ∈ sy_acked (mc_sys m') /\ settled (mc_sys m') msg id.
Proof.
  pose proof (machine_run_ok _ _ _ _ Hmax Hpath faults m Hrun) as Hok. split; [apply (ok_acked _ _ _ _ (mo_sys _ _ _ _ Hok))|].
  intros m' Hstep id msg Hin.
  pose proof (machine_step_ok _ _ _ _ Hmax Hpath m m' Hok Hstep) as Hok'.
  assert ((id, msg) ∈ sy_acked (mc_sys m')) as Ha.
  { eapply elem_of_prefix; [exact Hin|by eapply synced_kept]. }
  split; [done|]. by apply (ok_acked _ _ _ _ (mo_sys _ _ _ _ Hok')).
Qed.

(** ** An execution: a power loss gives a key out again *)

Definition night_reader : list io_event := [Chunk (client_bytes (lit "a@x") [lit "b@x"] [lit "Subject: fire" ++ crlf; crlf; lit ".now" ++ crlf])].
Definition night_message : Message := mkMessage (Some (lit "a@x")) [lit "b@x"] (Some (lit "fire")) (lit ".now").

(** The first evening: a message is acknowledged, delivered and removed; nothing is synced. *)
Definition evening : Sys :=
  default (sys_init day_config []) (exec toy_email no_mime day_config day_path
    ([Accept 0 200 day_reader []] ++ replicate 14 (SessionStep 0 1000) ++ replicate 12 (WorkerStep 1010 (Ok tt)))
    (sys_init day_config [])).
(** The power fails; the tables are as they were at the first start. *)
Definition dark : Sys := rebooted evening (store_of 3 SCHEMA_db) [].
(** Another message is acknowledged and accepted by the homeserver. *)
Definition night : Sys :=
  default dark (exec toy_email no_mime day_config day_path
    ([Accept 0 200 night_reader []] ++ replicate 14 (SessionStep 0 2000) ++ replicate 12 (WorkerStep 2010 (Ok tt)))
    dark).

Lemma exec_default_run actions s0 :
  rtc (sys_step toy_email no_mime day_config day_path) s0 (default s0 (exec toy_email no_mime day_config day_path actions s0)).
Proof. destruct (exec _ _ _ _ _ _) as [s|] eqn:Hs; [|done]. by eapply exec_steps. Qed.

Lemma night_run :
  exists commits, rtc (machine_step toy_email no_mime day_config day_path) (machine_init day_config []) (mkMachine night commits).
Proof.
  destruct (machine_runs toy_email no_mime day_config day_path (sys_init day_config []) evening
    [commit_of (sys_init day_config [])] (exec_default_run _ _)) as [more1 H1].
  destruct (machine_runs toy_email no_mime day_config day_path dark night [(SCHEMA_db, [])] (exec_default_run _ _)) as [more2 H2].
  eexists. etransitivity; [exact H1|]. eapply rtc_l; [|exact H2].
  apply (mc_power_loss _ _ _ _ evening _ SCHEMA_db [] []); [apply elem_of_app; left; left|].
  by apply restart_no_faults.
Qed.

(** C8: after a power loss a transaction id is given out again.  In every state of a machine
    that can be reached, and for every commit that the disk may be left with: the machine can
    start again from it; a message that was acknowledged under an id beyond the sequence of
    that commit is not in the outbox any more; and the first message the new process stores
    gets the id after the sequence of the commit.  If the sequence had gone on, that id, and
    with it the Matrix transaction id of the delivery, is the one of a message the service
    stored before, so that distinct messages no longer have distinct ids.  If the last id was
    synced, and no power loss was before, the id is a new one. *)
Theorem power_loss_reuses_transaction_ids (validate_email : str -> bool) (parse_mail : bytes -> option ParsedMail)
    (config : Config) (path : str) (faults faults' : list (option str)) (s : Sys) (commits : list commit)
    (db : Db) (acked : list (Z * Message)) (st st' : MessageStore) (clock : Z) (message : Message) (id : Z)
    (Hmax : is_u64 (q_max_len (cfg_queue config))) (Hpath : path <> lit ":memory:")
    (Hrun : rtc (machine_step validate_email parse_mail config path) (machine_init config faults) (mkMachine s commits))
    (Hcommit : (db, acked) ∈ commits)
    (Hopen : restart path (q_max_len (cfg_queue config)) (store_of (q_max_len (cfg_queue config)) db) faults' = Ok st)
    (Henq : enqueue clock message st = (st', Ok id)) :
  rtc (machine_step validate_email parse_mail config path) (machine_init config faults)
    (mkMachine (rebooted s st acked) [(db, acked)]) /\
  (forall i m, (i, m) ∈ sy_acked s -> db_outbox_seq db < i -> i ∉ row_id <$> db_outbox (ms_db st)) /\
  id = db_outbox_seq db + 1 /\
  (db_outbox_seq db < db_outbox_seq (ms_db (sy_store s)) -> exists old, (id, old) ∈ sy_enqueued s) /\
  (reachable validate_email parse_mail config path faults s -> db_outbox_seq db = db_outbox_seq (ms_db (sy_store s)) ->
     id ∉ (sy_enqueued s).*1).
Proof.
  pose proof (mc_power_loss validate_email parse_mail config path s commits db acked faults' st Hcommit Hopen) as Hloss.
  pose proof (machine_run_ok _ _ _ _ Hmax Hpath faults _ Hrun) as Hok.
  pose proof (machine_step_ok _ _ _ _ Hmax Hpath _ _ Hok Hloss) as Hok'.
  pose proof (ok_wf _ _ _ _ (mo_sys _ _ _ _ Hok')) as Hwf. cbn in Hwf.
  destruct (restart_ok _ _ _ _ _ Hpath Hopen) as (Hdb & _). cbn in Hdb.
  assert (id = db_outbox_seq db + 1) as ->.
  { pose proof (refine_step (OpEnqueue clock message) st st' (EvEnqueued clock message id) Hwf) as Hq.
    cbn [step] in Hq. rewrite Henq in Hq. apply enqueued_inv in Hq as (-> & _); [|done]. cbn. by rewrite Hdb. }
  split; [by eapply rtc_r|]. split; [|split; [done|split]].
  - intros i m _ Hlt (r & -> & Hr)%list_elem_of_fmap. rewrite <- Hdb in Hlt.
    assert (q_entries (queue_of (ms_db st)) !! row_id r = Some (row_entry r)) as Hi.
    { apply entries_lookup; [apply Hwf|]. by exists r. }
    pose proof (entries_le _ _ _ Hwf Hi) as Hle. cbn [queue_of q_last_id] in Hle. lia.
  - intros Hlt. apply (mo_ids _ _ _ _ Hok). cbn. pose proof (wf_outbox_seq _ Hwf) as Hseq. rewrite Hdb in Hseq. lia.
  - intros Hreach Heq (x & Hx & Hin)%list_elem_of_fmap.
    destruct (reachable_abstracts _ _ _ _ Hmax Hpath _ _ Hreach) as (a & Hsteps & Ha).
    pose proof (rok_last _ (relay_steps_ok _ _ Hsteps relay_init_ok)) as Hlast. rewrite Forall_forall in Hlast.
    rewrite (abs_received _ _ Ha), (abs_last _ _ Ha) in Hlast. specialize (Hlast x Hin). cbn in Hlast. lia.
Qed.

Lemma evening_run :
  exists more, rtc (machine_step toy_email no_mime day_config day_path) (machine_init day_config [])
    (mkMachine evening (commit_of (sys_init day_config []) :: more)).
Proof.
  exact (machine_runs toy_email no_mime day_config day_path (sys_init day_config []) evening
    [commit_of (sys_init day_config [])] (exec_default_run _ _)).
Qed.

(** The message of the night has the id of the evening's, and the sink is given both under one
    key. *)
Lemma power_loss_reuses_transaction_ids_witness :
  day_message <> night_message /\ sy_acked evening = [(1, day_message)] /\ 
  (exists commits, rtc (machine_step toy_email no_mime day_config day_path) (machine_init day_config []) (mkMachine night commits)) /\
  sy_sunk night = [(idempotency_key 1, day_message); (idempotency_key 1, night_message)] /\
  exists more,
    rtc (machine_step toy_email no_mime day_config day_path) (machine_init day_config [])
      (mkMachine evening (commit_of (sys_init day_config []) :: more)) /\
    rtc (machine_step toy_email no_mime day_config day_path) (machine_init day_config []) (mkMachine dark [(SCHEMA_db, [])]) /\
    exists old, (1, old) ∈ sy_enqueued evening.
Proof.
  split; [intros [=]|]. split; [vm_compute; reflexivity|]. split; [exact night_run|]. split; [vm_compute; reflexivity|].
  destruct evening_run as [more Hrun]. exists more. split; [exact Hrun|].
  destruct (power_loss_reuses_transaction_ids toy_email no_mime day_config day_path [] [] evening
    (commit_of (sys_init day_config []) :: more) SCHEMA_db [] (store_of 3 SCHEMA_db)
    (enqueue 2000 night_message (store_of 3 SCHEMA_db)).1 2000 night_message 1) as (H1 & _ & _ & H2 & _).
  - split; vm_compute; discriminate.
  - discriminate.
  - exact Hrun.
  - left.
  - by apply restart_no_faults.
  - vm_compute. reflexivity.
  - split; [exact H1|]. apply H2. vm_compute. reflexivity.
Defined.

Lemma synced_mail_survives_power_loss_witness :
  exists commits, let m := mkMachine night commits in
    sy_acked night = [(1, night_message)] /\ settled night night_message 1 /\
    forall m', machine_step toy_email no_mime day_config day_path m m' ->
      forall id msg, (id, msg) ∈ synced m -> (id, msg) ∈ sy_acked (mc_sys m') /\ settled (mc_sys m') msg id.
Proof.
  destruct night_run as [commits Hrun]. exists commits.
  assert (sy_acked night = [(1, night_message)]) as Hack by (vm_compute; reflexivity).
  destruct (synced_mail_survives_power_loss toy_email no_mime day_config day_path [] (mkMachine night commits)) as [H1 H2].
  - split; vm_compute; discriminate.
  - discriminate.
  - exact Hrun.
  - assert ((1, night_message) ∈ sy_acked night) as Hin by (rewrite Hack; left).
    exact (conj Hack (conj (proj1 (H1 _ _ Hin)) H2)).
Defined.
