(* ===== verification/FakeSink.v ===== *)
(** * The sink of the worker's tests ([src/src/queue/worker.rs], 215-329)

    [FakeSink] records what it is given and fails as it is told to: always, for the
    messages whose body contains a pattern, or the first times it is called. *)

From S2P Require Import Prelude RustStr Error Effects Store Worker.
From S2P Require Import Reader Mime ConfigData Net Session Serve SessionFacts Main System.

Record FakeInner : Type := mkFake {
  fk_delivered : list Message;
  fk_keys : list str;
  fk_calls : Z;
  fk_fail_first : Z;
  fk_always_fail : bool;
  fk_fail_if_body_contains : option str;
}.

Definition fake_default : FakeInner := mkFake [] [] 0 0 false None.
Definition failing_first (n : Z) : FakeInner := mkFake [] [] 0 n false None.
Definition always_failing : FakeInner := mkFake [] [] 0 0 true None.
Definition failing_bodies_containing (pattern : str) : FakeInner := mkFake [] [] 0 0 false (Some pattern).

Definition delivered_bodies (fk : FakeInner) : list str := msg_body <$> fk_delivered fk.

Definition forced_failure : ChimneyError.t := ChimneyError.Matrix (lit "forced failure").

(** [impl MessageSink for FakeSink]. *)
Definition fake_deliver (message : Message) (key : str) (fk : FakeInner) : FakeInner * Result unit :=
  let fk := mkFake (fk_delivered fk) (fk_keys fk ++ [key]) (as_u64 (fk_calls fk + 1)) (fk_fail_first fk)
              (fk_always_fail fk) (fk_fail_if_body_contains fk) in
  if fk_always_fail fk then (fk, Err forced_failure)
  else if match fk_fail_if_body_contains fk with
          | Some pattern => contains pattern (msg_body message)
          | None => false
          end then (fk, Err forced_failure)
  else if 0 <? fk_fail_first fk then
    (mkFake (fk_delivered fk) (fk_keys fk) (fk_calls fk) (fk_fail_first fk - 1) (fk_always_fail fk)
       (fk_fail_if_body_contains fk), Err forced_failure)
  else
    (mkFake (fk_delivered fk ++ [message]) (fk_keys fk) (fk_calls fk) (fk_fail_first fk) (fk_always_fail fk)
       (fk_fail_if_body_contains fk), Ok tt).

Definition fake_handler : handler SinkE FakeInner := fun X e fk =>
  match e in SinkE X return FakeInner * X with Deliver m key => fake_deliver m key fk end.
