(* ===== verification/Retry.v ===== *)
(** * The schedule of the retries

    One message, a sink that fails its first [n] calls: how often the sink is called, with
    which keys, when the message is delivered, and when it is given up. *)

From S2P Require Import Prelude RustStr Error Effects Store StoreFacts StoreSpec StoreProps Worker WorkerFacts.
From S2P Require Import WorkerProps Reader Mime ConfigData Net Session Serve SessionFacts Main System Timed FakeSink.

(** The seconds the first [n] failures after [k] cost. *)
Fixpoint retry_delay (base k : Z) (n : nat) : Z :=
  match n with
  | O => 0
  | S n' => backoff_seconds base (k + 1) MAX_BACKOFF_SECONDS + retry_delay base (k + 1) n'
  end.

Lemma retry_delay_bounds base k n :
  is_u64 base -> 0 <= k -> 0 <= retry_delay base k n <= MAX_BACKOFF_SECONDS * Z.of_nat n.
Proof.
  intros Hb. revert k. induction n as [|n IH]; intros k Hk; cbn [retry_delay]; [unfold MAX_BACKOFF_SECONDS; lia|].
  pose proof (backoff_bounds base (k + 1) MAX_BACKOFF_SECONDS Hb) as Hb'.
  specialize (IH (k + 1)). unfold MAX_BACKOFF_SECONDS in *. lia.
Qed.

(** [FakeSink] after a call that failed, and after one that was accepted. *)
Definition fake_failed (key : str) (fk : FakeInner) : FakeInner :=
  mkFake (fk_delivered fk) (fk_keys fk ++ [key]) (as_u64 (fk_calls fk + 1)) (fk_fail_first fk - 1) false None.
Definition fake_accepted (m : Message) (key : str) (fk : FakeInner) : FakeInner :=
  mkFake (fk_delivered fk ++ [m]) (fk_keys fk ++ [key]) (as_u64 (fk_calls fk + 1)) (fk_fail_first fk) false None.

Definition counting (fk : FakeInner) : Prop := fk_always_fail fk = false /\ fk_fail_if_body_contains fk = None.

Lemma fake_deliver_failed m key fk :
  counting fk -> 0 < fk_fail_first fk -> fake_deliver m key fk = (fake_failed key fk, Err forced_failure).
Proof.
  destruct fk as [dl ks c f af fb]. unfold counting, fake_deliver. cbn. intros [-> ->] Hf.
  by rewrite (proj2 (Z.ltb_lt 0 f)).
Qed.

Lemma fake_deliver_accepted m key fk :
  counting fk -> fk_fail_first fk = 0 -> fake_deliver m key fk = (fake_accepted m key fk, Ok tt).
Proof. destruct fk as [dl ks c f af fb]. unfold counting, fake_deliver. cbn. by intros [-> ->] ->. Qed.

Section Retry.
Variable dw : DeliveryWorker unit.
Hypothesis Hset : settings_ok dw.

Abbreviation handle := (timed_handler fake_handler (fun _ => false)).
Abbreviation rounds n w w' := (run_loop handle (run_body dw) n w = (w', None)).

(** The outbox holds [r] alone, and it is due. *)
Record alone (w : TimedWorld FakeInner) (r : outbox_row) : Prop := {
  al_store : drain_store_ok (dw_max_retries dw) (tw_store w);
  al_rows : db_outbox (ms_db (tw_store w)) = [r];
  al_due : row_next_attempt_at r <= tw_now w;
  al_clock : 0 <= tw_now w <= i64_max - MAX_BACKOFF_SECONDS;
  al_sink : counting (tw_sink w);
}.

Lemma alone_next w r : alone w r -> next_row (tw_now w) (ms_db (tw_store w)) = Some r.
Proof.
  intros []. unfold next_row. rewrite al_rows0. rewrite filter_cons, decide_True; [done|].
  unfold row_ready. by apply Z.leb_le.
Qed.

Lemma alone_round w r t res :
  alone w r -> fake_deliver (row_message r) (idempotency_key (row_id r)) (tw_sink w) = (t, res) ->
  run handle (run_body dw) w =
  (mkTimed (settle dw (row_to_stored r) (tw_now w) (tw_now w) res (tw_store w)) (tw_now w) t, Continue).
Proof.
  intros Hal Hf. pose proof (alone_next w r Hal) as Hr. destruct Hal as [Hs _ _ Hclock _].
  pose proof (timed_claimed fake_handler (fun _ => false) dw w r (ds_faults _ _ Hs)) as Hround.
  cbn [fake_handler] in Hround. rewrite Hf in Hround. apply Hround; [unfold MAX_BACKOFF_SECONDS in *; lia|done].
Qed.

(** The sink accepts: the outbox is empty at once. *)
Lemma alone_accepted w r :
  alone w r -> fk_fail_first (tw_sink w) = 0 ->
  exists w', rounds 1 w w' /\ db_outbox (ms_db (tw_store w')) = [] /\ tw_now w' = tw_now w /\
    db_dead (ms_db (tw_store w')) = db_dead (ms_db (tw_store w)) /\
    tw_sink w' = fake_accepted (row_message r) (idempotency_key (row_id r)) (tw_sink w).
Proof.
  intros Hal Hf. pose proof (al_store _ _ Hal) as Hs.
  eexists. cbn [run_loop].
  rewrite (alone_round w r _ _ Hal (fake_deliver_accepted _ _ _ (al_sink _ _ Hal) Hf)).
  split; [done|]. cbn [tw_store tw_now tw_sink]. rewrite settle_accepted by apply Hs.
  split_and!; try done. cbn. rewrite (al_rows _ _ Hal), filter_cons, decide_False by naive_solver. done.
Qed.

(** The sink fails for the last time: the message is a dead letter. *)
Lemma alone_buried w r :
  alone w r -> 0 < fk_fail_first (tw_sink w) -> dw_max_retries dw <= row_attempts r ->
  exists w', rounds 1 w w' /\ db_outbox (ms_db (tw_store w')) = [] /\ tw_now w' = tw_now w /\
    db_dead (ms_db (tw_store w')) = db_dead (ms_db (tw_store w)) ++
      [to_dead r (db_dead_seq (ms_db (tw_store w)) + 1) (tw_now w) (ChimneyError.to_string forced_failure)] /\
    tw_sink w' = fake_failed (idempotency_key (row_id r)) (tw_sink w).
Proof.
  intros Hal Hf Hmax. pose proof (al_store _ _ Hal) as Hs. pose proof (al_clock _ _ Hal) as Hclock.
  assert (r ∈ db_outbox (ms_db (tw_store w))) as Hr by (rewrite (al_rows _ _ Hal); left).
  eexists. cbn [run_loop].
  rewrite (alone_round w r _ _ Hal (fake_deliver_failed _ _ _ (al_sink _ _ Hal) Hf)).
  split; [done|]. cbn [tw_store tw_now tw_sink]. rewrite settle_refused_rows by done.
  rewrite (proj2 (Z.ltb_ge _ _)) by lia. rewrite unix_now_ok by (unfold MAX_BACKOFF_SECONDS in *; lia).
  split_and!; try done. cbn. rewrite (al_rows _ _ Hal), filter_cons, decide_False by naive_solver. done.
Qed.

(** The sink fails, retries are left: the worker waits the backoff out. *)
Lemma alone_parked w r :
  alone w r -> 0 < fk_fail_first (tw_sink w) -> row_attempts r < dw_max_retries dw ->
  let delay := backoff_seconds (dw_retry_backoff dw) (row_attempts r + 1) MAX_BACKOFF_SECONDS in
  let r' := set_attempt (row_attempts r + 1) (tw_now w + delay) r in
  tw_now w + delay <= i64_max - MAX_BACKOFF_SECONDS ->
  exists n w', (n <= 2)%nat /\ rounds n w w' /\ alone w' r' /\ tw_now w' = tw_now w + delay /\
    db_dead (ms_db (tw_store w')) = db_dead (ms_db (tw_store w)) /\
    db_dead_seq (ms_db (tw_store w')) = db_dead_seq (ms_db (tw_store w)) /\
    tw_sink w' = fake_failed (idempotency_key (row_id r)) (tw_sink w).
Proof.
  intros Hal Hf Hmax delay r' Hroom. pose proof (al_store _ _ Hal) as Hs. pose proof (al_clock _ _ Hal) as Hclock.
  assert (r ∈ db_outbox (ms_db (tw_store w))) as Hr by (rewrite (al_rows _ _ Hal); left).
  destruct (add_u32_attempts r _ _ Hs Hr) as (_ & _ & Hatt).
  pose proof (alone_round w r _ _ Hal (fake_deliver_failed _ _ _ (al_sink _ _ Hal) Hf)) as Hround.
  destruct (settle_drains dw (tw_now w) (tw_now w) (Err forced_failure) (tw_store w) r Hset Hs Hclock Hr) as [Hs1 _].
  destruct Hset as [Hmr Hbase].
  pose proof (backoff_bounds (dw_retry_backoff dw) (row_attempts r + 1) MAX_BACKOFF_SECONDS Hbase) as Hb.
  specialize (Hb ltac:(lia) ltac:(done)). fold delay in Hb.
  rewrite settle_refused_rows in Hround, Hs1 by done. rewrite (proj2 (Z.ltb_lt _ _)) in Hround, Hs1 by lia.
  fold delay in Hround, Hs1. rewrite (al_rows _ _ Hal) in Hround, Hs1. cbn [fmap list_fmap] in Hround, Hs1.
  rewrite decide_True in Hround, Hs1 by done. fold r' in Hround, Hs1.
  match type of Hround with _ = (?x, _) => set (w1 := x) in Hround end.
  assert (counting (tw_sink w1)) as Hcount by done.
  destruct (Z.eq_dec delay 0) as [H0|Hne].
  - exists 1%nat, w1. split_and!; try done; [lia|cbn [run_loop]; by rewrite Hround| |cbn; lia].
    split; try done; cbn in *; lia.
  - exists 2%nat, (mkTimed (tw_store w1) (tw_now w + delay) (tw_sink w1)). cbn [run_loop]. rewrite Hround.
    rewrite (timed_idle fake_handler (fun _ => false) dw w1 (tw_now w + delay)); try done.
    + split_and!; try done; try lia. split; try done; cbn in *; lia.
    + cbn in *. unfold MAX_BACKOFF_SECONDS in *. lia.
    + apply next_row_None. cbn. constructor; [cbn; lia|constructor].
    + unfold earliest_parked. cbn. rewrite decide_True by lia. done.
    + cbn in *. unfold MAX_BACKOFF_SECONDS in *. lia.
Qed.

(** How the story of [r] ends when the sink still fails [f] times. *)
Definition outcome (f : Z) (r : outbox_row) (w w' : TimedWorld FakeInner) : Prop :=
  let retries := Z.to_nat (Z.min f (dw_max_retries dw - row_attempts r)) in
  db_outbox (ms_db (tw_store w')) = [] /\
  tw_now w' = tw_now w + retry_delay (dw_retry_backoff dw) (row_attempts r) retries /\
  fk_calls (tw_sink w') = fk_calls (tw_sink w) + Z.of_nat (S retries) /\
  fk_keys (tw_sink w') = fk_keys (tw_sink w) ++ replicate (S retries) (idempotency_key (row_id r)) /\
  if f <=? dw_max_retries dw - row_attempts r then
    fk_delivered (tw_sink w') = fk_delivered (tw_sink w) ++ [row_message r] /\
    db_dead (ms_db (tw_store w')) = db_dead (ms_db (tw_store w))
  else
    fk_delivered (tw_sink w') = fk_delivered (tw_sink w) /\
    db_dead (ms_db (tw_store w')) = db_dead (ms_db (tw_store w)) ++
      [mkDead (db_dead_seq (ms_db (tw_store w)) + 1) (row_from_addr r) (row_to_addrs r) (row_subject r) (row_body r)
         (dw_max_retries dw) (row_created_at r) (tw_now w') (ChimneyError.to_string forced_failure)].

Lemma retry_outcome k w r :
  alone w r -> row_attempts r <= dw_max_retries dw -> 0 <= fk_fail_first (tw_sink w) ->
  k = Z.to_nat (Z.min (fk_fail_first (tw_sink w)) (dw_max_retries dw - row_attempts r)) ->
  0 <= fk_calls (tw_sink w) /\ fk_calls (tw_sink w) + Z.of_nat (S k) <= u64_max ->
  tw_now w + MAX_BACKOFF_SECONDS * Z.of_nat k <= i64_max - MAX_BACKOFF_SECONDS ->
  exists n w', (n <= 2 * k + 1)%nat /\ rounds n w w' /\ outcome (fk_fail_first (tw_sink w)) r w w'.
Proof.
  unfold outcome. revert w r.
  induction k as [|k IH]; intros w r Hal Hatt Hf Hk Hcalls Hroom; rewrite <- Hk.
  - destruct (Z.eq_dec (fk_fail_first (tw_sink w)) 0) as [H0|Hne].
    + destruct (alone_accepted w r Hal H0) as (w' & Hrun & Hout & Hnow & Hdead & Hsink).
      exists 1%nat, w'. split; [lia|]. split; [done|]. rewrite Hsink, Hnow, Hdead, (proj2 (Z.leb_le _ _)) by lia.
      cbn [retry_delay fake_accepted fk_calls fk_keys fk_delivered replicate].
      rewrite as_u64_id by (unfold is_u64; lia). split_and!; (done || lia).
    + destruct (alone_buried w r Hal) as (w' & Hrun & Hout & Hnow & Hdead & Hsink); [lia..|].
      exists 1%nat, w'. split; [lia|]. split; [done|]. rewrite Hsink, Hnow, Hdead, (proj2 (Z.leb_gt _ _)) by lia.
      cbn [retry_delay fake_failed fk_calls fk_keys fk_delivered replicate].
      rewrite as_u64_id by (unfold is_u64; lia). split_and!; try (done || lia).
      unfold to_dead. do 3 f_equal. lia.
  - destruct (add_u32_attempts r _ _ (al_store _ _ Hal)) as (_ & _ & Hatt0); [rewrite (al_rows _ _ Hal); left|].
    pose proof (backoff_bounds (dw_retry_backoff dw) (row_attempts r + 1) MAX_BACKOFF_SECONDS (proj2 Hset)
      ltac:(lia) ltac:(done)) as Hb.
    assert (MAX_BACKOFF_SECONDS * Z.of_nat (S k) = MAX_BACKOFF_SECONDS + MAX_BACKOFF_SECONDS * Z.of_nat k) as Hmul by lia.
    assert (0 <= MAX_BACKOFF_SECONDS * Z.of_nat k) by (unfold MAX_BACKOFF_SECONDS; lia).
    destruct (alone_parked w r Hal) as (n1 & w1 & Hn1 & Hrun1 & Hal1 & Hnow1 & Hdead1 & Hseq1 & Hsink1); [lia..|].
    set (r1 := set_attempt _ _ r) in Hal1.
    assert (row_attempts r1 = row_attempts r + 1) as Ha1 by done.
    assert (fk_fail_first (tw_sink w1) = fk_fail_first (tw_sink w) - 1) as Hf1 by by rewrite Hsink1.
    assert (fk_calls (tw_sink w1) = fk_calls (tw_sink w) + 1) as Hc1.
    { rewrite Hsink1. cbn. apply as_u64_id. unfold is_u64. lia. }
    destruct (IH w1 r1 Hal1) as (n2 & w2 & Hn2 & Hrun2 & Hout); [lia..|].
    exists (n1 + n2)%nat, w2. split; [lia|]. split; [by rewrite (run_loop_add _ _ _ _ _ _ Hrun1)|].
    rewrite Ha1, Hf1 in Hout.
    replace (Z.to_nat (Z.min (fk_fail_first (tw_sink w) - 1) (dw_max_retries dw - (row_attempts r + 1)))) with k in Hout by lia.
    replace (fk_fail_first (tw_sink w) - 1 <=? dw_max_retries dw - (row_attempts r + 1))
      with (fk_fail_first (tw_sink w) <=? dw_max_retries dw - row_attempts r) in Hout
      by (apply eq_true_iff_eq; rewrite !Z.leb_le; lia).
    rewrite Hc1, Hdead1, Hseq1, Hnow1 in Hout. rewrite Hsink1 in Hout. cbn [fake_failed fk_keys fk_delivered] in Hout.
    destruct Hout as (Ho & Ht & Hcl & Hks & Hrest). split_and!; [done| | | |exact Hrest].
    + rewrite Ht. cbn [retry_delay]. lia.
    + rewrite Hcl. lia.
    + rewrite Hks, <- app_assoc. done.
Qed.
End Retry.

(** C17: the retries of a message follow the schedule.  A message alone in the outbox and
    due, and a sink that fails its first [n] calls.  The sink is called once and once more
    for each of the failures the settings allow, always under the same key; the
    time that passes is the sum of the backoffs; if the failures are no more than
    [max_retries] the message is delivered then and nothing is a dead letter, and if they
    are more it is a dead letter then, stamped with that time, and was never delivered. *)
Theorem retry_schedule_exact (dw : DeliveryWorker unit) (s : MessageStore) (r : outbox_row) (now n : Z)
    (Hset : settings_ok dw) (Hs : drain_store_ok (dw_max_retries dw) s)
    (Halone : db_outbox (ms_db s) = [r]) (Hfresh : row_attempts r = 0)
    (Hdue : row_next_attempt_at r <= now) (Hn : 0 <= n)
    (Hclock : 0 <= now /\ now + 900 * dw_max_retries dw <= i64_max - 900) :
  exists rounds w',
    (rounds <= 2 * Z.to_nat (Z.min n (dw_max_retries dw)) + 1)%nat /\
    run_loop (timed_handler fake_handler (fun _ => false)) (run_body dw) rounds (mkTimed s now (failing_first n)) = (w', None) /\
    outcome dw n r (mkTimed s now (failing_first n)) w'.
Proof.
  destruct Hset as [Hmr Hb]. set (w := mkTimed s now (failing_first n)).
  assert (alone dw w r) as Hal.
  { split; try done. cbn. unfold MAX_BACKOFF_SECONDS. lia. }
  destruct (retry_outcome dw (conj Hmr Hb) (Z.to_nat (Z.min n (dw_max_retries dw))) w r Hal) as (k & w' & Hk & Hrun & Hout).
  - lia.
  - done.
  - cbn. by rewrite Hfresh, Z.sub_0_r.
  - cbn. unfold u64_max, u32_max in *. lia.
  - cbn. unfold MAX_BACKOFF_SECONDS. lia.
  - by exists k, w'.
Qed.

(** Two failures at a base of 60 seconds: delivered after 60 + 120 seconds; with a third
    the message is a dead letter at the same time. *)
Lemma retry_schedule_exact_witness :
  retry_delay 60 0 2 = 180 /\
  exists rounds w', (rounds <= 5)%nat /\
    run_loop (timed_handler fake_handler (fun _ => false)) (run_body sample_worker) rounds
      (mkTimed sample_store 1000 (failing_first 2)) = (w', None) /\
    outcome sample_worker 2 sample_row (mkTimed sample_store 1000 (failing_first 2)) w'.
Proof.
  split; [vm_compute; reflexivity|].
  apply (retry_schedule_exact sample_worker sample_store sample_row 1000 2).
  - exact sample_settings.
  - exact sample_drain_ok.
  - reflexivity.
  - reflexivity.
  - vm_compute. discriminate.
  - discriminate.
  - split; vm_compute; discriminate.
Defined.
