(* ===== verification/Testing.v ===== *)
(** * The repository's own tests

    The modules [tests] of the source files, run against the definitions of this
    library: each test function is a definition of the same name, a program over
    [option] that is [Some tt] when the test passes.  [unwrap] and the assertions are
    those of the test code. *)

From S2P Require Import Prelude RustStr Error.

Definition assert_ (b : bool) : option unit := if b then Some tt else None.
Definition assert_eq {A} `{EqDecision A} (a b : A) : option unit := assert_ (bool_decide (a = b)).

(** [.unwrap()] on an operation that threads a state, and on a plain result. *)
Definition unwrap {S A} (r : S * Result A) : option (S * A) :=
  match r.2 with Ok a => Some (r.1, a) | Err _ => None end.
Definition unwrap_err {S A} (r : S * Result A) : option (S * ChimneyError.t) :=
  match r.2 with Ok _ => None | Err e => Some (r.1, e) end.
Definition ok {A} (r : Result A) : option A := match r with Ok a => Some a | Err _ => None end.
Definition err {A} (r : Result A) : option ChimneyError.t := match r with Ok _ => None | Err e => Some e end.

(** [err.to_string().contains(text)]. *)
Definition says (text : str) (e : ChimneyError.t) : bool := contains text (ChimneyError.to_string e).

Definition is_some {A} (o : option A) : bool := match o with Some _ => true | None => false end.
Definition is_none {A} (o : option A) : bool := negb (is_some o).

(** [for x in xs { .. }]. *)
Fixpoint for_each {A S} (xs : list A) (f : A -> S -> option S) (s : S) : option S :=
  match xs with
  | [] => Some s
  | x :: xs' => s' ← f x s; for_each xs' f s'
  end.
