(* ===== verification/TestStore.v ===== *)
(** * The tests of the outbox ([src/src/queue/store.rs], 313-529)

    The test of a poisoned mutex is left out: with [panic = abort] no lock is ever
    poisoned, and the model has none. *)

From S2P Require Import Prelude RustStr Error Store StoreFacts StoreProps Testing.

(** The clock of the tests: [unix_now] at one moment. *)
Definition test_clock : Z := 1700000000.
Definition test_now : Z := unix_now test_clock.

Definition msg (body : str) (to : list str) : Message :=
  mkMessage (Some (lit "sender@example.com")) to (Some (lit "subj")) body.

Definition open_in_memory : option MessageStore := ok (open (lit ":memory:") ∅ []).2.

Definition enqueue_then_claim_roundtrips_all_fields : option unit :=
  store ← open_in_memory;
  '(store, id) ← unwrap (enqueue test_clock (msg (lit "hello") [lit "a@x.com"; lit "b@y.com"]) store);
  '(store, claimed) ← unwrap (claim_next_ready test_now store);
  claimed ← claimed;
  _ ← assert_eq (sm_id claimed) id;
  _ ← assert_eq (sm_attempts claimed) 0;
  assert_eq (sm_message claimed) (msg (lit "hello") [lit "a@x.com"; lit "b@y.com"]).

Definition claim_returns_messages_in_fifo_order : option unit :=
  store ← open_in_memory;
  '(store, _) ← unwrap (enqueue test_clock (msg (lit "first") [lit "a@x.com"]) store);
  '(store, _) ← unwrap (enqueue test_clock (msg (lit "second") [lit "a@x.com"]) store);
  '(store, first) ← unwrap (claim_next_ready test_now store);
  first ← first;
  assert_eq (msg_body (sm_message first)) (lit "first").

Definition mark_delivered_removes_the_message : option unit :=
  store ← open_in_memory;
  '(store, id) ← unwrap (enqueue test_clock (msg (lit "bye") [lit "a@x.com"]) store);
  '(store, n) ← unwrap (len store);
  _ ← assert_eq n 1;
  '(store, _) ← unwrap (mark_delivered id store);
  '(store, n) ← unwrap (len store);
  _ ← assert_eq n 0;
  '(store, claimed) ← unwrap (claim_next_ready test_now store);
  assert_ (is_none claimed).

Definition rescheduled_message_is_not_claimed_until_due : option unit :=
  store ← open_in_memory;
  '(store, id) ← unwrap (enqueue test_clock (msg (lit "retry") [lit "a@x.com"]) store);
  let now := test_now in
  '(store, _) ← unwrap (reschedule id 1 (now + 100) store);
  '(store, claimed) ← unwrap (claim_next_ready now store);
  _ ← assert_ (is_none claimed);
  '(store, at_) ← unwrap (next_wakeup now store);
  _ ← assert_eq at_ (Some (now + 100));
  '(store, claimed) ← unwrap (claim_next_ready (now + 100) store);
  claimed ← claimed;
  assert_eq (sm_attempts claimed) 1.

Definition ready_message_is_preferred_over_a_parked_one : option unit :=
  store ← open_in_memory;
  let now := test_now in
  '(store, parked) ← unwrap (enqueue test_clock (msg (lit "parked") [lit "a@x.com"]) store);
  '(store, _) ← unwrap (reschedule parked 1 (now + 1000) store);
  '(store, _) ← unwrap (enqueue test_clock (msg (lit "ready") [lit "a@x.com"]) store);
  '(store, claimed) ← unwrap (claim_next_ready now store);
  claimed ← claimed;
  assert_eq (msg_body (sm_message claimed)) (lit "ready").

Definition next_wakeup_is_none_when_empty_or_all_due : option unit :=
  store ← open_in_memory;
  let now := test_now in
  '(store, at_) ← unwrap (next_wakeup now store);
  _ ← assert_eq at_ None;
  '(store, _) ← unwrap (enqueue test_clock (msg (lit "due") [lit "a@x.com"]) store);
  '(store, at_) ← unwrap (next_wakeup now store);
  assert_eq at_ None.

(** Dropping the store closes the file with its rows in it. *)
Definition messages_survive_reopening_the_database : option unit :=
  let path := lit "/tmp/dir/queue.db" in
  let '(disk, opened) := open path ∅ [] in
  store ← ok opened;
  '(store, _) ← unwrap (enqueue test_clock (msg (lit "durable") [lit "a@x.com"; lit "b@y.com"]) store);
  let disk := <[path := ms_db store]> disk in
  store ← ok (open path disk []).2;
  '(store, n) ← unwrap (len store);
  _ ← assert_eq n 1;
  '(store, claimed) ← unwrap (claim_next_ready test_now store);
  claimed ← claimed;
  assert_eq (sm_message claimed) (msg (lit "durable") [lit "a@x.com"; lit "b@y.com"]).

Definition open_creates_missing_parent_directories : option unit :=
  let path := lit "/tmp/dir/nested/sub/queue.db" in
  _ ← assert_ (parent_nonempty path);
  let '(disk, opened) := open path ∅ [] in
  store ← ok opened;
  '(store, _) ← unwrap (enqueue test_clock (msg (lit "x") [lit "a@x.com"]) store);
  assert_ (is_some (disk !! path)).

Definition is_queue_full (e : ChimneyError.t) : bool := match e with ChimneyError.QueueFull => true | _ => false end.

Definition enqueue_rejects_when_at_max_len : option unit :=
  store ← ok (open_with_max_len (lit ":memory:") 2 ∅ []).2;
  '(store, _) ← unwrap (enqueue test_clock (msg (lit "a") [lit "x@x.com"]) store);
  '(store, _) ← unwrap (enqueue test_clock (msg (lit "b") [lit "x@x.com"]) store);
  '(store, err) ← unwrap_err (enqueue test_clock (msg (lit "c") [lit "x@x.com"]) store);
  _ ← assert_ (is_queue_full err);
  '(store, n) ← unwrap (len store);
  assert_eq n 2.

Definition removing_a_message_frees_a_slot : option unit :=
  store ← ok (open_with_max_len (lit ":memory:") 1 ∅ []).2;
  '(store, id) ← unwrap (enqueue test_clock (msg (lit "a") [lit "x@x.com"]) store);
  '(store, err) ← unwrap_err (enqueue test_clock (msg (lit "b") [lit "x@x.com"]) store);
  _ ← assert_ (is_queue_full err);
  '(store, _) ← unwrap (mark_delivered id store);
  '(store, _) ← unwrap (enqueue test_clock (msg (lit "b") [lit "x@x.com"]) store);
  '(store, n) ← unwrap (len store);
  assert_eq n 1.

Definition max_len_zero_means_unlimited : option unit :=
  store ← ok (open_with_max_len (lit ":memory:") 0 ∅ []).2;
  store ← for_each (seq 0 50) (fun i store =>
    fst <$> unwrap (enqueue test_clock (msg (lit "m" ++ show_int (Z.of_nat i)) [lit "x@x.com"]) store)) store;
  '(store, n) ← unwrap (len store);
  assert_eq n 50.

Definition dead_letter_moves_message_out_of_the_outbox : option unit :=
  store ← open_in_memory;
  '(store, id) ← unwrap (enqueue test_clock (msg (lit "doomed") [lit "x@x.com"]) store);
  '(store, n) ← unwrap (len store);
  _ ← assert_eq n 1;
  '(store, n) ← unwrap (dead_letter_len store);
  _ ← assert_eq n 0;
  '(store, _) ← unwrap (dead_letter test_clock id (lit "permanent failure") store);
  '(store, n) ← unwrap (len store);
  _ ← assert_eq n 0;
  '(store, n) ← unwrap (dead_letter_len store);
  _ ← assert_eq n 1;
  '(store, claimed) ← unwrap (claim_next_ready test_now store);
  assert_ (is_none claimed).

Definition dead_letter_on_unknown_id_is_a_noop : option unit :=
  store ← open_in_memory;
  '(store, _) ← unwrap (enqueue test_clock (msg (lit "keep") [lit "x@x.com"]) store);
  '(store, _) ← unwrap (dead_letter test_clock 999 (lit "no such row") store);
  '(store, n) ← unwrap (len store);
  _ ← assert_eq n 1;
  '(store, n) ← unwrap (dead_letter_len store);
  assert_eq n 0.

Definition recipient_encoding_roundtrips : option unit :=
  for_each [[]; [lit "only@x.com"]; [lit "a@x.com"; lit "b@y.com"]] (fun case _ =>
    assert_eq (decode_recipients (encode_recipients case)) case) tt.

Definition store_tests : list (option unit) :=
  [enqueue_then_claim_roundtrips_all_fields; claim_returns_messages_in_fifo_order; mark_delivered_removes_the_message;
   rescheduled_message_is_not_claimed_until_due; ready_message_is_preferred_over_a_parked_one;
   next_wakeup_is_none_when_empty_or_all_due; messages_survive_reopening_the_database;
   open_creates_missing_parent_directories; enqueue_rejects_when_at_max_len; removing_a_message_frees_a_slot;
   max_len_zero_means_unlimited; dead_letter_moves_message_out_of_the_outbox; dead_letter_on_unknown_id_is_a_noop;
   recipient_encoding_roundtrips].

Lemma store_tests_pass : store_tests = replicate 14 (Some tt).
Proof. vm_compute. reflexivity. Qed.
