(* ===== verification/TestWorker.v ===== *)
(** * The tests of the delivery worker ([src/src/queue/worker.rs], 215-610)

    A spawned worker and the test wait for each other: the test sends the shutdown signal
    once the queue has the awaited length ([wait_for_len]).  Here the flag is a function of
    the queue ([timed_handler]) or of how often it was read ([world_handler]). *)

From S2P Require Import Prelude RustStr Error Effects Store StoreFacts StoreProps Worker WorkerFacts WorkerProps.
From S2P Require Import Reader Mime ConfigData Net Session Serve SessionFacts Main System Timed FakeSink Testing TestStore.

Definition msg (body : str) : Message :=
  mkMessage (Some (lit "s@x.com")) [lit "r@y.com"] (Some (lit "s")) body.

(** [wait_for_len(&store, target)], then [tx.send(true)]: the flag is up from the moment the
    queue has that length. *)
Definition wait_for_len (target : Z) (store : MessageStore) : bool :=
  match unwrap (len store) with Some (_, n) => n =? target | None => false end.

(** [spawn_worker(..)] and [handle.await]: the store and the sink when the worker ended. *)
Definition spawn_worker (store : MessageStore) (sink : FakeInner) (max_retries retry_backoff : Z)
    (shutdown : MessageStore -> bool) : option (MessageStore * FakeInner) :=
  match run_loop (timed_handler fake_handler shutdown) (run_body (mkWorker tt max_retries retry_backoff)) 50
          (mkTimed store test_clock sink) with
  | (w, Some tt) => Some (tw_store w, tw_sink w)
  | (_, None) => None
  end.

Definition backoff_grows_exponentially_and_caps : option unit :=
  _ ← assert_eq (backoff_seconds 60 0 900) 0;
  _ ← assert_eq (backoff_seconds 60 1 900) 60;
  _ ← assert_eq (backoff_seconds 60 2 900) 120;
  _ ← assert_eq (backoff_seconds 60 3 900) 240;
  _ ← assert_eq (backoff_seconds 60 10 900) 900;
  assert_eq (backoff_seconds 0 5 900) 0.

Definition delivers_and_removes_a_message : option unit :=
  store ← open_in_memory;
  '(store, _) ← unwrap (enqueue test_clock (msg (lit "hello")) store);
  '(store, sink) ← spawn_worker store fake_default 5 60 (wait_for_len 0);
  assert_eq (delivered_bodies sink) [lit "hello"].

Definition retries_until_delivery_succeeds : option unit :=
  store ← open_in_memory;
  '(store, _) ← unwrap (enqueue test_clock (msg (lit "flaky")) store);
  '(store, sink) ← spawn_worker store (failing_first 2) 5 0 (wait_for_len 0);
  _ ← assert_eq (fk_calls sink) 3;
  assert_eq (delivered_bodies sink) [lit "flaky"].

Definition dead_letters_message_after_exhausting_retries : option unit :=
  store ← open_in_memory;
  '(store, _) ← unwrap (enqueue test_clock (msg (lit "doomed")) store);
  '(store, sink) ← spawn_worker store always_failing 2 0 (wait_for_len 0);
  _ ← assert_eq (fk_calls sink) 3;
  '(store, n) ← unwrap (dead_letter_len store);
  assert_eq n 1.

Definition a_failing_message_does_not_block_others : option unit :=
  store ← open_in_memory;
  '(store, _) ← unwrap (enqueue test_clock (msg (lit "bad")) store);
  '(store, _) ← unwrap (enqueue test_clock (msg (lit "good")) store);
  '(store, sink) ← spawn_worker store (failing_bodies_containing (lit "bad")) 5 1000 (wait_for_len 1);
  _ ← assert_eq (delivered_bodies sink) [lit "good"];
  '(store, n) ← unwrap (len store);
  _ ← assert_eq n 1;
  '(store, remaining) ← unwrap (claim_next_ready (test_now + 2000) store);
  remaining ← remaining;
  assert_eq (msg_body (sm_message remaining)) (lit "bad").

Definition graceful_drain_flushes_all_ready_messages : option unit :=
  store ← open_in_memory;
  store ← for_each (seq 0 5) (fun i store =>
    fst <$> unwrap (enqueue test_clock (msg (lit "m" ++ show_int (Z.of_nat i))) store)) store;
  '(store, sink) ← spawn_worker store fake_default 5 60 (fun _ => true);
  '(store, n) ← unwrap (len store);
  _ ← assert_eq n 0;
  assert_eq (length (delivered_bodies sink)) 5%nat.

Definition shutdown_leaves_parked_messages_persisted : option unit :=
  store ← open_in_memory;
  '(store, _) ← unwrap (enqueue test_clock (msg (lit "retry-me")) store);
  '(store, sink) ← spawn_worker store always_failing 5 1000 (fun _ => true);
  _ ← assert_eq (fk_calls sink) 1;
  '(store, n) ← unwrap (len store);
  assert_eq n 1.

Definition reuses_a_stable_idempotency_key_across_retries : option unit :=
  store ← open_in_memory;
  '(store, id) ← unwrap (enqueue test_clock (msg (lit "k")) store);
  '(store, sink) ← spawn_worker store (failing_first 1) 5 0 (wait_for_len 0);
  let keys := fk_keys sink in
  _ ← assert_eq (length keys) 2%nat;
  _ ← assert_eq (keys !! 0%nat) (keys !! 1%nat);
  assert_eq (keys !! 0%nat) (Some (lit "chimney-post-" ++ show_int id)).

(** The test sorts the keys, so that the order of the deliveries does not matter. *)
Definition distinct_messages_get_distinct_idempotency_keys : option unit :=
  store ← open_in_memory;
  '(store, id1) ← unwrap (enqueue test_clock (msg (lit "a")) store);
  '(store, id2) ← unwrap (enqueue test_clock (msg (lit "b")) store);
  '(store, sink) ← spawn_worker store fake_default 5 60 (wait_for_len 0);
  assert_ (bool_decide (fk_keys sink ≡ₚ
    [lit "chimney-post-" ++ show_int id1; lit "chimney-post-" ++ show_int id2])).

(** ** Connecting

    [attempts] counts the calls of the test's [connect]. *)
Definition connecting : Type := FakeInner * Z.

Definition connecting_sink : handler SinkE connecting := fun X e s =>
  let '(fk, x) := fake_handler X e s.1 in ((fk, s.2), x).

Definition connect_after_two (s : connecting) : connecting * Result unit :=
  ((s.1, s.2 + 1), if s.2 <? 2 then Err (ChimneyError.Matrix (lit "connect not ready")) else Ok tt).
Definition connect_never (s : connecting) : connecting * Result unit :=
  (s, Err (ChimneyError.Matrix (lit "never"))).

(** The third reading of the flag follows the successful connection, the fourth comes
    when the queue is empty; the backoff of 10 ms is none at the resolution of the model. *)
Definition run_with_reconnect_delivers_after_failed_connects : option unit :=
  store ← open_in_memory;
  '(store, _) ← unwrap (enqueue test_clock (msg (lit "q")) store);
  match run_with_reconnect (world_handler connecting_sink connect_after_two) 5 60 0 50
          (mkWorld store (fun _ => test_clock) 0 (fun n => (3 <=? n)%nat) 0 (fake_default, 0)) with
  | (w, Some tt) =>
      '(store, n) ← unwrap (len (ww_store w));
      _ ← assert_eq n 0;
      _ ← assert_ (3 <=? (ww_sink w).2);
      assert_eq (delivered_bodies (ww_sink w).1) [lit "q"]
  | (_, None) => None
  end.

Definition run_with_reconnect_stops_on_shutdown_while_disconnected : option unit :=
  store ← open_in_memory;
  '(store, _) ← unwrap (enqueue test_clock (msg (lit "stuck")) store);
  match run_with_reconnect (world_handler connecting_sink connect_never) 5 60 60 50
          (mkWorld store (fun _ => test_clock) 0 (fun n => (1 <=? n)%nat) 0 (fake_default, 0)) with
  | (w, Some tt) => '(store, n) ← unwrap (len (ww_store w)); assert_eq n 1
  | (_, None) => None
  end.

(** The first reading of the flag is that of the worker going idle. *)
Definition idle_worker_stops_on_shutdown : option unit :=
  store ← open_in_memory;
  match run_loop (world_handler connecting_sink connect_never) (run_body (mkWorker tt 5 60)) 50
          (mkWorld store (fun _ => test_clock) 0 (fun n => (1 <=? n)%nat) 0 (fake_default, 0)) with
  | (_, Some tt) => Some tt
  | (_, None) => None
  end.

Definition worker_tests : list (option unit) :=
  [backoff_grows_exponentially_and_caps; delivers_and_removes_a_message; retries_until_delivery_succeeds;
   dead_letters_message_after_exhausting_retries; a_failing_message_does_not_block_others;
   graceful_drain_flushes_all_ready_messages; shutdown_leaves_parked_messages_persisted;
   reuses_a_stable_idempotency_key_across_retries; distinct_messages_get_distinct_idempotency_keys;
   run_with_reconnect_delivers_after_failed_connects; run_with_reconnect_stops_on_shutdown_while_disconnected;
   idle_worker_stops_on_shutdown].

Lemma worker_tests_pass : worker_tests = replicate 12 (Some tt).
Proof. vm_compute. reflexivity. Qed.
