(* ===== verification/TestSmtp.v ===== *)
(** * The tests of the SMTP server and of the message parser
    ([src/src/smtp/server.rs], 391-592, and [src/src/smtp/parser.rs], 76-130)

    [toy_email] stands for [validator]'s e-mail check on the addresses of the tests, and
    [no_mime] for a [mailparse] that rejects the text. *)

From S2P Require Import Prelude RustStr Utf8 Error Effects Store StoreFacts StoreProps Reader Address Mime ConfigData Net Session.
From S2P Require Import SessionFacts SessionProps Testing.

(** [BufReader::with_capacity(cap, data)]: chunks of at most [cap] bytes, then the end. *)
Definition with_capacity (cap : nat) (data : bytes) : list io_event :=
  Chunk <$> filter (fun c => c <> []) (reshape (replicate (length data) cap) data).

(** Lines of ASCII text, each ended by CRLF. *)
Definition text (ls : list str) : str := mjoin ((fun l => l ++ crlf) <$> ls).

Definition read_data_str (data : bytes) (max_size : Z) : Result str := (read_data (with_capacity 8 data) max_size).1.

Definition read_data_returns_the_block_up_to_the_terminator : option unit :=
  data ← ok (read_data_str (text [lit "Subject: hi"; []; lit "body"; lit "."]) 1024);
  assert_eq data (text [lit "Subject: hi"; []; lit "body"]).

Definition read_data_accepts_an_empty_body : option unit :=
  data ← ok (read_data_str (text [lit "."]) 1024);
  assert_eq data [].

Definition read_data_unstuffs_leading_dots : option unit :=
  data ← ok (read_data_str (text [lit "..dotted line"; lit "."]) 1024);
  assert_eq data (text [lit ".dotted line"]).

Definition is_data_incomplete (e : ChimneyError.t) : bool :=
  match e with ChimneyError.SmtpDataIncomplete => true | _ => false end.
Definition is_size_exceeded (e : ChimneyError.t) : bool :=
  match e with ChimneyError.SmtpSizeExceeded => true | _ => false end.
Definition is_line_too_long (e : ChimneyError.t) : bool :=
  match e with ChimneyError.SmtpLineTooLong => true | _ => false end.
Definition is_smtp (e : ChimneyError.t) : bool := match e with ChimneyError.Smtp _ => true | _ => false end.

Definition read_data_errors_on_premature_eof_without_terminator : option unit :=
  e ← err (read_data_str (text [lit "Subject: x"; []] ++ lit "half a mess") 1024);
  assert_ (is_data_incomplete e).

Definition read_data_errors_on_immediate_eof : option unit :=
  e ← err (read_data_str [] 1024);
  assert_ (is_data_incomplete e).

Definition read_data_enforces_the_size_limit : option unit :=
  e ← err (read_data_str (text [lit "123456789"; lit "."]) 8);
  assert_ (is_size_exceeded e).

Definition read_data_preserves_8bit_body_lossily : option unit :=
  data ← ok (read_data_str (lit "caf" ++ [233] ++ text [lit " time"; lit "."]) 1024);
  _ ← assert_ (contains (lit "caf") data);
  _ ← assert_ (contains (lit "time") data);
  assert_ (contains [65533] data).

(** [read_one]: the line with the answer, or the error. *)
Definition read_one (data : bytes) (cap : nat) (max : Z) : Result (str * Z) :=
  match read_line_limited (with_capacity cap data) [] max with
  | (InTime (Ok n), _, buf) => Ok (buf, n)
  | (InTime (Err e), _, _) => Err e
  | (Elapsed, _, _) => Err (ChimneyError.Smtp [])
  end.

Definition reads_a_simple_line_including_newline : option unit :=
  '(line, n) ← ok (read_one (text [lit "EHLO test"]) 64 4096);
  _ ← assert_eq line (text [lit "EHLO test"]);
  assert_eq n 11.

Definition line_exactly_at_limit_is_accepted : option unit :=
  '(line, n) ← ok (read_one (lit "abcd" ++ [nl]) 64 5);
  _ ← assert_eq line (lit "abcd" ++ [nl]);
  assert_eq n 5.

Definition line_one_over_limit_is_rejected : option unit :=
  e ← err (read_one (lit "abcde" ++ [nl]) 64 5);
  assert_ (is_line_too_long e).

Definition cap_is_enforced_across_chunks_for_a_line_without_newline : option unit :=
  e ← err (read_one (replicate 100 65) 4 16);
  assert_ (is_line_too_long e).

Definition handles_a_line_split_across_many_chunks : option unit :=
  '(line, n) ← ok (read_one (lit "hello world" ++ [nl]) 4 4096);
  _ ← assert_eq line (lit "hello world" ++ [nl]);
  assert_eq n 12.

Definition eof_without_newline_returns_remaining_then_zero : option unit :=
  match read_line_limited (with_capacity 8 (lit "partial")) [] 4096 with
  | (InTime (Ok n), reader, buf) =>
      _ ← assert_eq buf (lit "partial");
      _ ← assert_eq n 7;
      match read_line_limited reader [] 4096 with
      | (InTime (Ok n2), _, buf2) => _ ← assert_eq n2 0; assert_eq buf2 []
      | _ => None
      end
  | _ => None
  end.

Definition reads_multiple_sequential_lines : option unit :=
  match read_line_limited (with_capacity 4 (text [lit "one"; lit "two"])) [] 4096 with
  | (InTime (Ok _), reader, a) =>
      _ ← assert_eq a (text [lit "one"]);
      match read_line_limited reader [] 4096 with
      | (InTime (Ok _), _, b) => assert_eq b (text [lit "two"])
      | _ => None
      end
  | _ => None
  end.

Definition invalid_utf8_is_rejected : option unit :=
  e ← err (read_one [255; 254; nl] 64 4096);
  assert_ (is_smtp e).

Definition parse_mail_from_ignores_esmtp_parameters : option unit :=
  assert_eq (parse_mail_from toy_email (lit "MAIL FROM:<sender@example.com> SIZE=1234")) (Some (lit "sender@example.com")).

Definition parse_rcpt_to_ignores_esmtp_parameters : option unit :=
  assert_eq (parse_rcpt_to toy_email (lit "RCPT TO:<alerts@chimney> NOTIFY=SUCCESS")) (Some (lit "alerts@chimney")).

Definition parse_mail_from_rejects_unterminated_path : option unit :=
  assert_eq (parse_mail_from toy_email (lit "MAIL FROM:<sender@example.com")) None.

Definition parse_mail_from_accepts_null_sender : option unit :=
  assert_eq (parse_mail_from toy_email (lit "MAIL FROM:<>")) (Some []).

Definition parse_rcpt_to_accepts_single_label_domain : option unit :=
  assert_eq (parse_rcpt_to toy_email (lit "RCPT TO:<alerts@chimney>")) (Some (lit "alerts@chimney")).

Definition parse_mail_from_rejects_addresses_with_no_at_sign : option unit :=
  assert_eq (parse_mail_from toy_email (lit "MAIL FROM:<not-an-email>")) None.

Definition parse_rcpt_to_rejects_addresses_with_no_at_sign : option unit :=
  assert_eq (parse_rcpt_to toy_email (lit "RCPT TO:<not-an-email>")) None.

Definition quote : Z := 34.

Definition parse_mail_from_rejects_quoted_local_part_containing_a_bracket : option unit :=
  assert_eq (parse_mail_from toy_email (lit "MAIL FROM:<" ++ [quote] ++ lit "a>b" ++ [quote] ++ lit "@example.com>")) None.

Definition server_tests : list (option unit) :=
  [read_data_returns_the_block_up_to_the_terminator; read_data_accepts_an_empty_body; read_data_unstuffs_leading_dots;
   read_data_errors_on_premature_eof_without_terminator; read_data_errors_on_immediate_eof;
   read_data_enforces_the_size_limit; read_data_preserves_8bit_body_lossily; reads_a_simple_line_including_newline;
   line_exactly_at_limit_is_accepted; line_one_over_limit_is_rejected;
   cap_is_enforced_across_chunks_for_a_line_without_newline; handles_a_line_split_across_many_chunks;
   eof_without_newline_returns_remaining_then_zero; reads_multiple_sequential_lines; invalid_utf8_is_rejected;
   parse_mail_from_ignores_esmtp_parameters; parse_rcpt_to_ignores_esmtp_parameters;
   parse_mail_from_rejects_unterminated_path; parse_mail_from_accepts_null_sender;
   parse_rcpt_to_accepts_single_label_domain; parse_mail_from_rejects_addresses_with_no_at_sign;
   parse_rcpt_to_rejects_addresses_with_no_at_sign; parse_mail_from_rejects_quoted_local_part_containing_a_bracket].

Lemma server_tests_pass : server_tests = replicate 23 (Some tt).
Proof. vm_compute. reflexivity. Qed.

(** ** [parser.rs] *)

Definition parses_subject_case_insensitive : option unit :=
  let '(subject, body) := extract_subject_and_body (text [lit "subject: hello"; []] ++ lit "Body") in
  _ ← assert_eq subject (Some (lit "hello"));
  assert_eq body (lit "Body").

Definition parses_folded_subject : option unit :=
  let '(subject, body) := extract_subject_and_body (text [lit "Subject: Hello"; [9] ++ lit "World"; []] ++ lit "Body") in
  _ ← assert_eq subject (Some (lit "Hello World"));
  assert_eq body (lit "Body").

Definition parse_data_normalises_null_sender_to_none : option unit :=
  let message := parse_data no_mime (Some []) [lit "to@example.com"] [] in
  assert_eq (msg_from message) None.

Definition parse_data_preserves_a_real_sender : option unit :=
  let message := parse_data no_mime (Some (lit "sender@example.com")) [lit "to@example.com"] [] in
  assert_eq (msg_from message) (Some (lit "sender@example.com")).

(** [mailparse] answers the multipart tree with no part in it. *)
Definition broken_data : str :=
  text [lit "Subject: broken"; lit "Content-Type: multipart/mixed; boundary=nothing-matches-this"; [];
        lit "the only text there is"].
Definition broken_mail : ParsedMail := mkMail (lit "multipart/mixed") ∅ Inline ∅ None (Some (lit "broken")) [].

Definition falls_back_to_the_raw_split_when_mime_yields_nothing : option unit :=
  let message := parse_data (fun _ => Some broken_mail) None [lit "to@example.com"] broken_data in
  _ ← assert_eq (msg_subject message) (Some (lit "broken"));
  assert_eq (msg_body message) (lit "the only text there is").

Definition parser_tests : list (option unit) :=
  [parses_subject_case_insensitive; parses_folded_subject; falls_back_to_the_raw_split_when_mime_yields_nothing;
   parse_data_normalises_null_sender_to_none; parse_data_preserves_a_real_sender].

Lemma parser_tests_pass : parser_tests = replicate 5 (Some tt).
Proof. vm_compute. reflexivity. Qed.
