(* ===== verification/TestMime.v ===== *)
(** * The tests of MIME and of the HTML rendering ([src/src/smtp/mime.rs], 308-574)

    What these tests ask of this program: which part is shown, what becomes of the
    attachments, how HTML is rendered.  The tree that [mailparse] answers for the text of a
    test is given with it ([mailparse_says]); the two tests of nothing but its decoding
    (base64, encoded words) are left out. *)

From S2P Require Import Prelude RustStr Utf8 Html Store Reader Mime Testing TestSmtp.

(** The parser on the text of one test. *)
Definition mailparse_says (data : str) (mail : ParsedMail) (b : bytes) : option ParsedMail :=
  if bool_decide (b = encode_utf8 data) then Some mail else None.

Definition plain_part (body : str) : ParsedMail := mkMail (lit "text/plain") ∅ Inline ∅ (Some body) None [].
Definition html_part (body : str) : ParsedMail := mkMail (lit "text/html") ∅ Inline ∅ (Some body) None [].
Definition attached (mimetype filename body : str) : ParsedMail :=
  mkMail mimetype ∅ Attachment {[lit "filename" := filename]} (Some body) None [].
Definition multipart (mimetype : str) (subject : option str) (parts : list ParsedMail) : ParsedMail :=
  mkMail mimetype ∅ Inline ∅ None subject parts.

Definition quoted (s : str) : str := [quote] ++ s ++ [quote].

Definition a_plain_non_mime_message_is_unchanged : option unit :=
  let data := text [lit "Subject: Cron <root@omv> /usr/bin/backup"; []; lit "/usr/bin/backup: line 4: warning"] in
  let mail := mkMail (lit "text/plain") ∅ Inline ∅ (Some (text [lit "/usr/bin/backup: line 4: warning"]))
                (Some (lit "Cron <root@omv> /usr/bin/backup")) [] in
  parsed ← parse (mailparse_says data mail) data;
  _ ← assert_eq (mime_subject parsed) (Some (lit "Cron <root@omv> /usr/bin/backup"));
  assert_eq (mime_body parsed) (lit "/usr/bin/backup: line 4: warning").

Definition html_only_mail_falls_back_to_stripped_text : option unit :=
  let html := lit "<html><body><p>Disk <b>sda</b> is failing.</p><p>Replace it.</p></body></html>" ++ crlf in
  let data := text [lit "Subject: html only"; lit "Content-Type: text/html; charset=utf-8"; []] ++ html in
  let mail := mkMail (lit "text/html") ∅ Inline ∅ (Some html) (Some (lit "html only")) [] in
  parsed ← parse (mailparse_says data mail) data;
  assert_eq (mime_body parsed) (lit "Disk sda is failing." ++ [nl; nl] ++ lit "Replace it.").

Definition nested_multipart_still_finds_the_plain_part : option unit :=
  let data := text
    [lit "Subject: nested"; lit "Content-Type: multipart/mixed; boundary=outer"; [];
     lit "--outer"; lit "Content-Type: multipart/alternative; boundary=inner"; [];
     lit "--inner"; lit "Content-Type: text/plain"; []; lit "the readable part";
     lit "--inner"; lit "Content-Type: text/html"; []; lit "<p>the markup</p>";
     lit "--inner--"; lit "--outer--"] in
  let mail := multipart (lit "multipart/mixed") (Some (lit "nested"))
    [multipart (lit "multipart/alternative") None
       [plain_part (text [lit "the readable part"]); html_part (text [lit "<p>the markup</p>"])]] in
  parsed ← parse (mailparse_says data mail) data;
  assert_eq (mime_body parsed) (lit "the readable part").

Definition attachments_are_named_but_not_included : option unit :=
  let data := text
    [lit "Subject: backup report"; lit "Content-Type: multipart/mixed; boundary=sep"; [];
     lit "--sep"; lit "Content-Type: text/plain"; []; lit "Backup finished.";
     lit "--sep"; lit "Content-Type: application/pdf";
     lit "Content-Disposition: attachment; filename=" ++ quoted (lit "report.pdf");
     lit "Content-Transfer-Encoding: base64"; []; lit "SGVsbG8sIHdvcmxkIQ=="; lit "--sep--"] in
  let mail := multipart (lit "multipart/mixed") (Some (lit "backup report"))
    [plain_part (text [lit "Backup finished."]); attached (lit "application/pdf") (lit "report.pdf") (lit "Hello, world!")] in
  parsed ← parse (mailparse_says data mail) data;
  _ ← assert_eq (mime_body parsed) (lit "Backup finished." ++ [nl; nl] ++ lit "[1 attachment: report.pdf]");
  assert_ (negb (contains (lit "Hello, world!") (mime_body parsed))).

Definition several_attachments_are_listed_together : option unit :=
  let data := text
    [lit "Content-Type: multipart/mixed; boundary=sep"; [];
     lit "--sep"; lit "Content-Type: text/plain"; []; lit "see attached";
     lit "--sep"; lit "Content-Type: application/pdf";
     lit "Content-Disposition: attachment; filename=" ++ quoted (lit "a.pdf"); []; lit "x";
     lit "--sep"; lit "Content-Type: image/png";
     lit "Content-Disposition: attachment; filename=" ++ quoted (lit "b.png"); []; lit "y"; lit "--sep--"] in
  let mail := multipart (lit "multipart/mixed") None
    [plain_part (text [lit "see attached"]); attached (lit "application/pdf") (lit "a.pdf") (text [lit "x"]);
     attached (lit "image/png") (lit "b.png") (text [lit "y"])] in
  parsed ← parse (mailparse_says data mail) data;
  assert_eq (mime_body parsed) (lit "see attached" ++ [nl; nl] ++ lit "[2 attachments: a.pdf, b.png]").

Definition an_attachment_without_a_disposition_is_still_named : option unit :=
  let data := text
    [lit "Content-Type: multipart/mixed; boundary=sep"; [];
     lit "--sep"; lit "Content-Type: text/plain"; []; lit "body";
     lit "--sep"; lit "Content-Type: application/octet-stream; name=" ++ quoted (lit "core.dump"); []; lit "z";
     lit "--sep--"] in
  let mail := multipart (lit "multipart/mixed") None
    [plain_part (text [lit "body"]);
     mkMail (lit "application/octet-stream") {[lit "name" := lit "core.dump"]} Inline ∅ (Some (text [lit "z"])) None []] in
  parsed ← parse (mailparse_says data mail) data;
  assert_eq (mime_body parsed) (lit "body" ++ [nl; nl] ++ lit "[1 attachment: core.dump]").

Definition an_attachment_only_message_still_says_what_arrived : option unit :=
  let data := text
    [lit "Subject: scan"; lit "Content-Type: application/pdf; name=" ++ quoted (lit "scan.pdf");
     lit "Content-Disposition: attachment; filename=" ++ quoted (lit "scan.pdf"); []; lit "data"] in
  let mail := mkMail (lit "application/pdf") {[lit "name" := lit "scan.pdf"]} Attachment
                {[lit "filename" := lit "scan.pdf"]} (Some (text [lit "data"])) (Some (lit "scan")) [] in
  parsed ← parse (mailparse_says data mail) data;
  assert_eq (mime_body parsed) (lit "[1 attachment: scan.pdf]").

(** The mail Nextcloud sends; [mailparse] rejoins the soft line breaks and decodes [=20],
    [=3D] and [=09]. *)
Definition NEXTCLOUD_TEST_EMAIL : str := text
  [lit "Subject: Email setting test"; lit "From: nextcloud@mail.home.heimbs.me"; lit "To: lenny@example.org";
   lit "MIME-Version: 1.0"; lit "Content-Type: multipart/alternative; boundary=ZkhUrnZN"; [];
   lit "--ZkhUrnZN"; lit "Content-Type: text/plain; charset=utf-8"; lit "Content-Transfer-Encoding: quoted-printable"; [];
   lit "Well done, lenny!"; []; lit "If you received this email, the email configuration ="; lit "seems to be correct."; [];
   lit "--=20"; lit "Nextcloud - a safe home for all your dat="; lit "a";
   lit "--ZkhUrnZN"; lit "Content-Type: text/html; charset=utf-8"; lit "Content-Transfer-Encoding: quoted-printable"; [];
   lit "<html><body><h1 class=3D" ++ quoted (lit "text-center") ++ lit ">Well done, lenny!</h1>";
   lit "=09<p>If you received this email, the email configuration seems to be ="; lit "correct.</p></body></html>";
   lit "--ZkhUrnZN--"].
Definition nextcloud_mail : ParsedMail :=
  multipart (lit "multipart/alternative") (Some (lit "Email setting test"))
    [plain_part (text [lit "Well done, lenny!"; [];
       lit "If you received this email, the email configuration seems to be correct."; []; lit "-- ";
       lit "Nextcloud - a safe home for all your data"]);
     html_part (text [lit "<html><body><h1 class=" ++ quoted (lit "text-center") ++ lit ">Well done, lenny!</h1>";
       [9] ++ lit "<p>If you received this email, the email configuration seems to be correct.</p></body></html>"])].
Definition parsed_nextcloud : option MimeMessage :=
  parse (mailparse_says NEXTCLOUD_TEST_EMAIL nextcloud_mail) NEXTCLOUD_TEST_EMAIL.

Definition multipart_alternative_takes_the_plain_part_and_decodes_it : option unit :=
  parsed ← parsed_nextcloud;
  _ ← assert_eq (mime_subject parsed) (Some (lit "Email setting test"));
  assert_eq (mime_body parsed)
    (lit "Well done, lenny!" ++ [nl; nl] ++
     lit "If you received this email, the email configuration seems to be correct." ++ [nl; nl] ++
     lit "-- " ++ [nl] ++ lit "Nextcloud - a safe home for all your data").

Definition multipart_alternative_leaves_no_trace_of_the_html_part : option unit :=
  parsed ← parsed_nextcloud;
  _ ← assert_ (negb (contains (lit "ZkhUrnZN") (mime_body parsed)));
  _ ← assert_ (negb (contains (lit "<h1") (mime_body parsed)));
  _ ← assert_ (negb (contains (lit "=3D") (mime_body parsed)));
  assert_ (negb (contains (lit "=09") (mime_body parsed))).

Definition quoted_printable_soft_breaks_rejoin_the_word_they_split : option unit :=
  parsed ← parsed_nextcloud;
  assert_ (contains (lit "all your data") (mime_body parsed)).

Definition html_entities_are_decoded : option unit :=
  let html := lit "<p>a &amp; b &lt;c&gt; &quot;d&quot; &#39;e&#39; &#x2713;</p>" in
  assert_eq (html_to_text html) (lit "a & b <c> " ++ quoted (lit "d") ++ lit " 'e' " ++ [10003]).

Definition html_scripts_and_styles_are_dropped_entirely : option unit :=
  let html := lit "<html><head><style>body{color:#fff}</style></head><body><script>alert('x')</script><p>real text</p></body></html>" in
  assert_eq (html_to_text html) (lit "real text").

Definition mime_tests : list (option unit) :=
  [multipart_alternative_takes_the_plain_part_and_decodes_it; multipart_alternative_leaves_no_trace_of_the_html_part;
   quoted_printable_soft_breaks_rejoin_the_word_they_split;
   a_plain_non_mime_message_is_unchanged; html_only_mail_falls_back_to_stripped_text;
   nested_multipart_still_finds_the_plain_part; attachments_are_named_but_not_included;
   several_attachments_are_listed_together; an_attachment_without_a_disposition_is_still_named;
   an_attachment_only_message_still_says_what_arrived; html_entities_are_decoded;
   html_scripts_and_styles_are_dropped_entirely].

Lemma mime_tests_pass : mime_tests = replicate 12 (Some tt).
Proof. vm_compute. reflexivity. Qed.
