(* ===== verification/TestSessions.v ===== *)
(** * The integration tests ([src/tests/integration_test.rs])

    A connection of the tests is a script of what the client sends and the list of the
    answers it gets, in order; the clients wait for each answer before they go on, and
    the script does not depend on that.  [mailparse] rejects the text of the plain messages
    here ([no_mime]), so that the parser's own split applies; the multipart one comes with
    the tree [mailparse] answers for it. *)

From S2P Require Import Prelude RustStr Utf8 Error Effects Store StoreFacts StoreProps Worker WorkerFacts WorkerProps Reader Address Mime.
From S2P Require Import ConfigData Routing Formatter Net Config ConfigProps Session SessionFacts SessionProps Serve Deadline Main System.
From S2P Require Import Timed FakeSink Testing TestStore TestWorker TestSmtp TestMime.

Definition test_config (bind : str) (max_message_size : Z) : Config :=
  mkConfig
    (mkSmtpConfig bind max_message_size 5 100 300)
    (mkMatrixConfig (lit "https://example.org") (lit "@bot:example.org") (lit "chimney-post") (lit "!room:example.org")
       (lit "/tmp/matrix") true DEFAULT_MESSAGE_TEMPLATE [] (mkCredentials (Some (lit "test")) None None))
    (mkLogging (lit "info") (lit "pretty"))
    (mkQueueConfig 5 60 (lit ":memory:") 0).

(** [start_test_server] up to the store it opens. *)
Definition test_store (config : Config) : option MessageStore :=
  ok (open_with_max_len (lit ":memory:") (q_max_len (cfg_queue config)) ∅ []).2.

(** One connection: the answers after the greeting, and the store at its end. *)
Definition connection_with (parse_mail : bytes -> option ParsedMail) (config : Config) (store : MessageStore) (sent : list bytes)
  : option (list bytes * MessageStore) :=
  match run smtp_handler (handle_connection toy_email parse_mail 100 config)
          (mkSmtpWorld (Chunk <$> sent) [] [] store (fun _ => test_clock) 0) with
  | (w, Some _) =>
      match reverse (sw_written w) with
      | greeting :: answers => _ ← assert_ (starts_with (lit "220") greeting); Some (answers, sw_store w)
      | [] => None
      end
  | (_, None) => None
  end.

Definition connection : Config -> MessageStore -> list bytes -> option (list bytes * MessageStore) := connection_with no_mime.

(** [assert!(resp.starts_with(code))] for the answers in turn. *)
Fixpoint answered (codes : list str) (answers : list bytes) : option unit :=
  match codes, answers with
  | [], [] => Some tt
  | c :: codes', a :: answers' => _ ← assert_ (starts_with c a); answered codes' answers'
  | _, _ => None
  end.

Definition line (s : str) : bytes := s ++ crlf.

Definition config_rejects_both_credentials : option unit :=
  let config := with_credentials (test_config (lit "127.0.0.1:2525") 1024)
                  (mkCredentials (Some (lit "pass")) (Some (lit "token")) (Some (lit "dev"))) in
  e ← err (validate toy_url toy_user toy_room config);
  assert_ (says (lit "not both") e).

Definition smtp_full_session_delivers_message : option unit :=
  let config := test_config (lit "127.0.0.1:0") 10240 in
  store ← test_store config;
  '(answers, store) ← connection config store
    [line (lit "EHLO test"); line (lit "MAIL FROM:<sender@example.com>"); line (lit "RCPT TO:<recipient@example.com>");
     line (lit "DATA"); text [lit "Subject: Test"; []; lit "Hello world"; lit "."]; line (lit "QUIT")];
  _ ← answered [lit "250"; lit "250"; lit "250"; lit "354"; lit "250"; lit "221"] answers;
  ehlo ← head answers;
  _ ← assert_ (contains (lit "SIZE") ehlo);
  '(store, stored) ← unwrap (claim_next_ready test_now store);
  stored ← stored;
  let message := sm_message stored in
  _ ← assert_eq (msg_from message) (Some (lit "sender@example.com"));
  _ ← assert_eq (msg_to message) [lit "recipient@example.com"];
  _ ← assert_eq (msg_subject message) (Some (lit "Test"));
  assert_ (contains (lit "Hello world") (msg_body message)).

Definition smtp_returns_552_on_oversized_message : option unit :=
  let config := test_config (lit "127.0.0.1:0") 32 in
  store ← test_store config;
  '(answers, _) ← connection config store
    [line (lit "EHLO test"); line (lit "MAIL FROM:<a@b.com>"); line (lit "RCPT TO:<c@d.com>"); line (lit "DATA");
     text [lit "Subject: This is a very long subject line that exceeds the tiny limit"; lit "."]];
  answer ← answers !! 4%nat;
  assert_ (starts_with (lit "552") answer).

(** [submit_message]. *)
Definition submit_message (body : str) : list bytes :=
  [line (lit "MAIL FROM:<a@b.com>"); line (lit "RCPT TO:<c@d.com>"); line (lit "DATA");
   text [lit "Subject: " ++ body; []; body; lit "."]].

Definition smtp_returns_451_when_queue_is_full : option unit :=
  let config := test_config (lit "127.0.0.1:0") 10240 in
  store ← ok (open_with_max_len (lit ":memory:") 1 ∅ []).2;
  '(answers, _) ← connection config store (submit_message (lit "one") ++ submit_message (lit "two"));
  answered [lit "250"; lit "250"; lit "354"; lit "250"; lit "250"; lit "250"; lit "354"; lit "451"] answers.

(** Three connections with one permit, on the accept loop of the whole service. *)
Definition smtp_rejects_connections_over_the_limit : option unit :=
  let c := test_config (lit "127.0.0.1:0") 10240 in
  let config := mkConfig (mkSmtpConfig (lit "127.0.0.1:0") 10240 5 1 300) (cfg_matrix c) (cfg_logging c) (cfg_queue c) in
  let act := exec_action toy_email no_mime config (lit "queue.db") in
  s ← act (Accept 0 5 [] []) (sys_init config []);
  _ ← assert_eq (size (sy_sessions s)) 1%nat;
  s ← act (Accept 1 5 [] []) s;
  _ ← assert_ (bool_decide (sy_sessions s !! 1%nat = None));
  s ← act (SessionEnd 0) s;
  s ← act (Accept 2 5 [] []) s;
  assert_ (bool_decide (is_Some (sy_sessions s !! 2%nat))).

(** The idle connection against the clock of the accept loop: the timer of the session,
    one second, has ended it before the five of the test are over. *)
Definition smtp_closes_session_exceeding_max_duration : option unit :=
  let c := test_config (lit "127.0.0.1:0") 10240 in
  let cfg := mkConfig (mkSmtpConfig (lit "127.0.0.1:0") 10240 30 100 1) (cfg_matrix c) (cfg_logging c) (cfg_queue c) in
  let w := deadline_step cfg (deadline_start cfg test_clock) (Connects tt) in
  _ ← assert_eq (length (sv_live (dl_serve w))) 1%nat;
  let w := deadline_step cfg w (Passes 5) in
  assert_eq (length (sv_live (dl_serve w))) 0%nat.

Definition bind_smtp_rejects_an_invalid_address : option unit :=
  e ← err (bind_smtp (fun _ => Ok tt) (test_config (lit "not-a-socket-address") 1024));
  Some tt.

(** The operating system gives the listener a port of its own. *)
Definition bind_smtp_succeeds_on_a_valid_address : option unit :=
  listener ← ok (bind_smtp (fun _ => Ok 40000) (test_config (lit "127.0.0.1:0") 1024));
  assert_ (0 <? listener).

Definition smtp_discards_truncated_data_on_premature_disconnect : option unit :=
  let config := test_config (lit "127.0.0.1:0") 10240 in
  store ← test_store config;
  '(answers, store) ← connection config store
    [line (lit "MAIL FROM:<a@b.com>"); line (lit "RCPT TO:<c@d.com>"); line (lit "DATA");
     text [lit "Subject: partial"; []] ++ lit "half a mess"];
  '(store, n) ← unwrap (len store);
  assert_eq n 0.

Definition smtp_returns_500_on_oversized_command_line : option unit :=
  let config := test_config (lit "127.0.0.1:0") 10240 in
  store ← test_store config;
  '(answers, _) ← connection config store [replicate 5000 65];
  answered [lit "500"] answers.

Definition smtp_returns_552_on_oversized_data_line_without_newline : option unit :=
  let config := test_config (lit "127.0.0.1:0") 64 in
  store ← test_store config;
  '(answers, _) ← connection config store
    [line (lit "MAIL FROM:<a@b.com>"); line (lit "RCPT TO:<c@d.com>"); line (lit "DATA"); replicate 4000 88];
  answer ← answers !! 3%nat;
  assert_ (starts_with (lit "552") answer).

Definition smtp_returns_502_on_unknown_command : option unit :=
  let config := test_config (lit "127.0.0.1:0") 10240 in
  store ← test_store config;
  '(answers, _) ← connection config store [line (lit "BOGUSCOMMAND arg"); line (lit "QUIT")];
  answered [lit "502"; lit "221"] answers.

Definition smtp_rejects_malformed_mail_from : option unit :=
  let config := test_config (lit "127.0.0.1:0") 10240 in
  store ← test_store config;
  '(answers, _) ← connection config store
    [line (lit "MAIL FROMAGE:<a@b.com>"); line (lit "MAIL FROM <a@b.com>"); line (lit "QUIT")];
  answered [lit "501"; lit "501"; lit "221"] answers.

Definition smtp_rejects_empty_rcpt_to : option unit :=
  let config := test_config (lit "127.0.0.1:0") 10240 in
  store ← test_store config;
  '(answers, _) ← connection config store [line (lit "MAIL FROM:<a@b.com>"); line (lit "RCPT TO:<>"); line (lit "QUIT")];
  answered [lit "250"; lit "501"; lit "221"] answers.

Definition smtp_accepts_null_sender : option unit :=
  let config := test_config (lit "127.0.0.1:0") 10240 in
  store ← test_store config;
  '(answers, _) ← connection config store [line (lit "MAIL FROM:<>"); line (lit "QUIT")];
  answered [lit "250"; lit "221"] answers.

Definition smtp_returns_503_on_data_before_mail_from : option unit :=
  let config := test_config (lit "127.0.0.1:0") 10240 in
  store ← test_store config;
  '(answers, _) ← connection config store [line (lit "DATA"); line (lit "QUIT")];
  answered [lit "503"; lit "221"] answers.

(** A message accepted over SMTP, the process gone without a drain, the file opened
    again, the worker of the second process with a sink that records. *)
Definition message_survives_crash_and_is_redelivered_on_restart : option unit :=
  let db_path := lit "/tmp/dir/queue.db" in
  let config := test_config (lit "127.0.0.1:0") 10240 in
  let '(disk, opened) := open_with_max_len db_path (q_max_len (cfg_queue config)) ∅ [] in
  store ← ok opened;
  '(answers, store) ← connection config store (submit_message (lit "survive me"));
  answer ← last answers;
  _ ← assert_ (starts_with (lit "250") answer);
  '(store, n) ← unwrap (len store);
  _ ← assert_eq n 1;
  let disk := <[db_path := ms_db store]> disk in
  store2 ← ok (open_with_max_len db_path (q_max_len (cfg_queue config)) disk []).2;
  '(store2, n) ← unwrap (len store2);
  _ ← assert_eq n 1;
  '(store2, sink) ← spawn_worker store2 fake_default 5 0 (wait_for_len 0);
  let delivered := delivered_bodies sink in
  _ ← assert_eq (length delivered) 1%nat;
  body ← head delivered;
  assert_ (contains (lit "survive me") body).

(** [mailparse] rejoins the soft line break and decodes [=3D]. *)
Definition smtp_queues_a_multipart_message_as_readable_text : option unit :=
  let config := test_config (lit "127.0.0.1:0") 10240 in
  let message := text
    [lit "Subject: Email setting test"; lit "MIME-Version: 1.0"; lit "Content-Type: multipart/alternative; boundary=ZkhUrnZN"; [];
     lit "--ZkhUrnZN"; lit "Content-Type: text/plain; charset=utf-8"; lit "Content-Transfer-Encoding: quoted-printable"; [];
     lit "If you received this email, the email configuration ="; lit "seems to be correct.";
     lit "--ZkhUrnZN"; lit "Content-Type: text/html; charset=utf-8"; lit "Content-Transfer-Encoding: quoted-printable"; [];
     lit "<html><body><p style=3D" ++ quoted (lit "color:#fff") ++ lit ">markup</p></body></html>"; lit "--ZkhUrnZN--"] in
  let mail := multipart (lit "multipart/alternative") (Some (lit "Email setting test"))
    [plain_part (text [lit "If you received this email, the email configuration seems to be correct."]);
     html_part (text [lit "<html><body><p style=" ++ quoted (lit "color:#fff") ++ lit ">markup</p></body></html>"])] in
  store ← test_store config;
  '(answers, store) ← connection_with (mailparse_says message mail) config store
    [line (lit "EHLO test"); line (lit "MAIL FROM:<nextcloud@mail.example.org>"); line (lit "RCPT TO:<alerts@chimney>");
     line (lit "DATA"); message ++ text [lit "."]; line (lit "QUIT")];
  _ ← answered [lit "250"; lit "250"; lit "250"; lit "354"; lit "250"; lit "221"] answers;
  '(store, stored) ← unwrap (claim_next_ready test_now store);
  stored ← stored;
  _ ← assert_eq (msg_subject (sm_message stored)) (Some (lit "Email setting test"));
  assert_eq (msg_body (sm_message stored)) (lit "If you received this email, the email configuration seems to be correct.").

Definition integration_tests : list (option unit) :=
  [config_rejects_both_credentials; smtp_full_session_delivers_message; smtp_returns_552_on_oversized_message;
   smtp_returns_451_when_queue_is_full; smtp_rejects_connections_over_the_limit; smtp_closes_session_exceeding_max_duration;
   bind_smtp_rejects_an_invalid_address;
   bind_smtp_succeeds_on_a_valid_address; smtp_discards_truncated_data_on_premature_disconnect;
   smtp_returns_500_on_oversized_command_line; smtp_returns_552_on_oversized_data_line_without_newline;
   smtp_returns_502_on_unknown_command; smtp_rejects_malformed_mail_from; smtp_rejects_empty_rcpt_to;
   smtp_accepts_null_sender; smtp_returns_503_on_data_before_mail_from;
   message_survives_crash_and_is_redelivered_on_restart; smtp_queues_a_multipart_message_as_readable_text].

Lemma integration_tests_pass : integration_tests = replicate 18 (Some tt).
Proof. vm_compute. reflexivity. Qed.
