(* ===== verification/TestConfig.v ===== *)
(** * The tests of the configuration, of the routing and of the Matrix client
    ([src/src/config.rs], 348-536, [src/src/matrix/routing.rs], 114-313,
    [src/src/matrix/client.rs], 359-408, [src/src/matrix/formatter.rs], 28-106)

    The parsers of [ruma] and [url] and the template engine are the concrete functions of
    [ConfigProps], which accept and reject the values of these tests as the tests say the
    crates do.  [toml] is not modelled: [valid_config] is the record that
    [config.example.toml] spells out.  The tests that look at rendered templates test
    [minijinja] and are left out. *)

From S2P Require Import Prelude RustStr Error Store ConfigData Routing Formatter Net Config ConfigProps Client Testing.

Abbreviation validated := (validate toy_url toy_user toy_room).

(** ** [config.rs] *)

Definition invalid_template_config : Config :=
  mkConfig
    (mkSmtpConfig (lit "127.0.0.1:2525") 1024 30 100 300)
    (mkMatrixConfig (lit "https://example.org") (lit "@bot:example.org") (lit "chimney-post") (lit "!room:example.org")
       (lit "/tmp/matrix") true (lit "{{ unclosed") []
       (mkCredentials (Some (lit "test")) None None))
    (mkLogging (lit "info") (lit "json"))
    (mkQueueConfig 5 60 (lit "/tmp/queue.db") 0).

Definition validate_rejects_invalid_template : option unit :=
  e ← err (validated invalid_template_config);
  assert_ (says (lit "template") e).

(** [config.example.toml]: a field that is not set there has its default. *)
Definition valid_config : Config :=
  mkConfig
    (mkSmtpConfig (lit "127.0.0.1:2525") 10485760 30 100 300)
    (mkMatrixConfig (lit "https://matrix.org") (lit "@bot:example.com") (lit "chimney-post") (lit "!roomid:example.com")
       (lit "/var/lib/chimney-post/matrix-store") default_require_e2ee default_message_template []
       (mkCredentials (Some (lit "${MATRIX_PASSWORD}")) None (Some (lit "chimney-post"))))
    (mkLogging (lit "info") (lit "json"))
    (mkQueueConfig 5 60 (lit "/var/lib/chimney-post/queue.db") 10000).

(** [config.matrix.routes = routes], and the other assignments of the tests. *)
Definition set_matrix (f : MatrixConfig -> MatrixConfig) (c : Config) : Config :=
  mkConfig (cfg_smtp c) (f (cfg_matrix c)) (cfg_logging c) (cfg_queue c).
Definition set_routes (routes : list RouteConfig) : Config -> Config := set_matrix (fun m =>
  mkMatrixConfig (mx_homeserver m) (mx_user_id m) (mx_device_name m) (mx_room_id m) (mx_store_path m)
    (mx_require_e2ee m) (mx_message_template m) routes (mx_credentials m)).
Definition set_room_id (room_id : str) : Config -> Config := set_matrix (fun m =>
  mkMatrixConfig (mx_homeserver m) (mx_user_id m) (mx_device_name m) room_id (mx_store_path m)
    (mx_require_e2ee m) (mx_message_template m) (mx_routes m) (mx_credentials m)).
Definition set_homeserver (homeserver : str) : Config -> Config := set_matrix (fun m =>
  mkMatrixConfig homeserver (mx_user_id m) (mx_device_name m) (mx_room_id m) (mx_store_path m)
    (mx_require_e2ee m) (mx_message_template m) (mx_routes m) (mx_credentials m)).
Definition set_user_id (user_id : str) : Config -> Config := set_matrix (fun m =>
  mkMatrixConfig (mx_homeserver m) user_id (mx_device_name m) (mx_room_id m) (mx_store_path m)
    (mx_require_e2ee m) (mx_message_template m) (mx_routes m) (mx_credentials m)).
Definition set_retry_backoff (backoff : Z) (c : Config) : Config :=
  mkConfig (cfg_smtp c) (cfg_matrix c) (cfg_logging c)
    (mkQueueConfig (q_max_retries (cfg_queue c)) backoff (q_db_path (cfg_queue c)) (q_max_len (cfg_queue c))).

Definition validate_rejects_zero_retry_backoff : option unit :=
  e ← err (validated (set_retry_backoff 0 valid_config));
  assert_ (says (lit "retry_backoff") e).

Definition validate_rejects_route_without_to_or_from : option unit :=
  e ← err (validated (set_routes [mkRouteConfig None None (lit "!room:example.org")] valid_config));
  assert_ (says (lit "at least one of") e).

Definition validate_treats_blank_to_or_from_as_unset : option unit :=
  e ← err (validated (set_routes [mkRouteConfig (Some (lit "   ")) (Some []) (lit "!room:example.org")] valid_config));
  assert_ (says (lit "at least one of") e).

Definition validate_rejects_route_with_blank_room_id : option unit :=
  e ← err (validated (set_routes [mkRouteConfig (Some (lit "alerts@chimney")) None (lit "  ")] valid_config));
  assert_ (says (lit "room_id") e).

Definition validate_accepts_well_formed_routes : option unit :=
  ok (validated (set_routes
    [mkRouteConfig (Some (lit "alerts@chimney")) None (lit "!alerts:example.org");
     mkRouteConfig None (Some (lit "nextcloud@server")) (lit "!nextcloud:example.org")] valid_config)).

Definition validate_rejects_invalid_default_room_id : option unit :=
  e ← err (validated (set_room_id (lit "not-a-room-id") valid_config));
  assert_ (says (lit "matrix.room_id") e).

Definition validate_rejects_invalid_route_room_id : option unit :=
  e ← err (validated (set_routes [mkRouteConfig (Some (lit "alerts@chimney")) None (lit "not-a-room-id")] valid_config));
  assert_ (says (lit "matrix.routes[0].room_id") e).

Definition validate_rejects_invalid_homeserver_url : option unit :=
  e ← err (validated (set_homeserver (lit "not a url") valid_config));
  assert_ (says (lit "matrix.homeserver") e).

Definition validate_rejects_invalid_user_id : option unit :=
  e ← err (validated (set_user_id (lit "not-a-user-id") valid_config));
  assert_ (says (lit "matrix.user_id") e).

Definition example_config_parses_and_validates : option unit := ok (validated valid_config).

Definition config_tests : list (option unit) :=
  [validate_rejects_invalid_template; validate_rejects_zero_retry_backoff; validate_rejects_route_without_to_or_from;
   validate_treats_blank_to_or_from_as_unset; validate_rejects_route_with_blank_room_id;
   validate_accepts_well_formed_routes; validate_rejects_invalid_default_room_id;
   validate_rejects_invalid_route_room_id; validate_rejects_invalid_homeserver_url; validate_rejects_invalid_user_id;
   example_config_parses_and_validates].

Lemma config_tests_pass : config_tests = replicate 11 (Some tt).
Proof. vm_compute. reflexivity. Qed.

(** ** [routing.rs] *)

Definition route (to from : option str) (room_id : str) : RouteConfig := mkRouteConfig to from room_id.
Definition msg (from : option str) (to : list str) : Message := mkMessage from to None [].
Definition DEFAULT : str := lit "!default:example.org".
Definition router (routes : list RouteConfig) : option (Router str) := ok (build toy_room DEFAULT routes).
Definition resolved (router : Router str) (message : Message) : str := resolve router message.

Definition empty_routes_always_resolve_to_default : option unit :=
  r ← router [];
  assert_eq (resolved r (msg (Some (lit "anyone@x")) [lit "anything@y"])) DEFAULT.

Definition to_rule_matches_recipient : option unit :=
  r ← router [route (Some (lit "alerts@chimney")) None (lit "!alerts:example.org")];
  assert_eq (resolved r (msg (Some (lit "app@server")) [lit "alerts@chimney"])) (lit "!alerts:example.org").

Definition to_rule_matches_any_of_multiple_recipients : option unit :=
  r ← router [route (Some (lit "ops@chimney")) None (lit "!ops:example.org")];
  let m := msg (Some (lit "app@server")) [lit "other@chimney"; lit "ops@chimney"] in
  assert_eq (resolved r m) (lit "!ops:example.org").

Definition to_rule_falls_through_when_no_recipient_matches : option unit :=
  r ← router [route (Some (lit "ops@chimney")) None (lit "!ops:example.org")];
  let m := msg (Some (lit "app@server")) [lit "someone@chimney"; lit "else@chimney"] in
  assert_eq (resolved r m) DEFAULT.

Definition from_rule_matches_sender : option unit :=
  r ← router [route None (Some (lit "nextcloud@server")) (lit "!nextcloud:example.org")];
  let m := msg (Some (lit "nextcloud@server")) [lit "whatever@chimney"] in
  assert_eq (resolved r m) (lit "!nextcloud:example.org").

Definition from_rule_does_not_match_a_null_sender : option unit :=
  r ← router [route None (Some (lit "root@server")) (lit "!ops:example.org")];
  let m := msg None [lit "alerts@chimney"] in
  assert_eq (resolved r m) DEFAULT.

Definition matching_is_case_insensitive_for_both_fields : option unit :=
  r ← router [route (Some (lit "Alerts@Chimney")) (Some (lit "Root@Server")) (lit "!ops:example.org")];
  let m := msg (Some (lit "root@SERVER")) [lit "ALERTS@chimney"] in
  assert_eq (resolved r m) (lit "!ops:example.org").

Definition combined_rule_requires_both_to_and_from : option unit :=
  r ← router [route (Some (lit "ops@chimney")) (Some (lit "root@server")) (lit "!ops:example.org")];
  _ ← assert_eq (resolved r (msg (Some (lit "root@server")) [lit "ops@chimney"])) (lit "!ops:example.org");
  _ ← assert_eq (resolved r (msg (Some (lit "other@server")) [lit "ops@chimney"])) DEFAULT;
  assert_eq (resolved r (msg (Some (lit "root@server")) [lit "other@chimney"])) DEFAULT.

Definition first_matching_rule_wins : option unit :=
  r ← router [route (Some (lit "ops@chimney")) None (lit "!first:example.org");
              route (Some (lit "ops@chimney")) None (lit "!second:example.org")];
  assert_eq (resolved r (msg (Some (lit "app@server")) [lit "ops@chimney"])) (lit "!first:example.org").

Definition earlier_specific_rule_beats_later_broad_rule : option unit :=
  r ← router [route (Some (lit "ops@chimney")) (Some (lit "root@server")) (lit "!urgent:example.org");
              route (Some (lit "ops@chimney")) None (lit "!ops:example.org")];
  _ ← assert_eq (resolved r (msg (Some (lit "root@server")) [lit "ops@chimney"])) (lit "!urgent:example.org");
  assert_eq (resolved r (msg (Some (lit "cron@server")) [lit "ops@chimney"])) (lit "!ops:example.org").

Definition build_rejects_route_without_selectors : option unit :=
  e ← err (build toy_room DEFAULT [route None None (lit "!x:example.org")]);
  assert_ (says (lit "at least one of") e).

Definition build_treats_blank_selectors_as_unset : option unit :=
  e ← err (build toy_room DEFAULT [route (Some (lit "   ")) (Some []) (lit "!x:example.org")]);
  assert_ (says (lit "at least one of") e).

Definition build_rejects_malformed_route_room_id : option unit :=
  e ← err (build toy_room DEFAULT [route (Some (lit "ops@chimney")) None (lit "not-a-room")]);
  _ ← assert_ (says (lit "matrix.routes[0].room_id") e);
  assert_ (says (lit "not-a-room") e).

Definition build_rejects_malformed_default_room_id : option unit :=
  e ← err (build toy_room (lit "not-a-room") []);
  assert_ (says (lit "matrix.room_id") e).

Definition blank_selectors_never_match_but_keep_a_set_selector : option unit :=
  r ← router [route (Some (lit "  ")) (Some (lit "root@server")) (lit "!ops:example.org")];
  assert_eq (resolved r (msg (Some (lit "root@server")) [])) (lit "!ops:example.org").

Definition routing_tests : list (option unit) :=
  [empty_routes_always_resolve_to_default; to_rule_matches_recipient; to_rule_matches_any_of_multiple_recipients;
   to_rule_falls_through_when_no_recipient_matches; from_rule_matches_sender; from_rule_does_not_match_a_null_sender;
   matching_is_case_insensitive_for_both_fields; combined_rule_requires_both_to_and_from; first_matching_rule_wins;
   earlier_specific_rule_beats_later_broad_rule; build_rejects_route_without_selectors;
   build_treats_blank_selectors_as_unset; build_rejects_malformed_route_room_id;
   build_rejects_malformed_default_room_id; blank_selectors_never_match_but_keep_a_set_selector].

Lemma routing_tests_pass : routing_tests = replicate 15 (Some tt).
Proof. vm_compute. reflexivity. Qed.

(** ** [client.rs] and [formatter.rs] *)

Definition device_id_ok_when_matching : option unit := ok (verify_device_id (Some (lit "ABCD")) (Some (lit "ABCD"))).

Definition device_id_errors_when_mismatched : option unit :=
  e ← err (verify_device_id (Some (lit "ABCD")) (Some (lit "WXYZ")));
  assert_ (says (lit "does not match") e).

Definition device_id_ok_when_not_configured : option unit :=
  _ ← ok (verify_device_id None (Some (lit "WXYZ")));
  ok (verify_device_id None None).

Definition device_id_ok_when_server_reports_none : option unit := ok (verify_device_id (Some (lit "ABCD")) None).

Definition detects_wrapped_account_mismatch : option unit :=
  let message :=
    lit "failed to read or write to the crypto store the account in the store doesn't match the account in the constructor: expected @user:matrix.org:CQIY3fUCQw, got @user:matrix.org:N44C4nQOfa" in
  assert_ (message_indicates_mismatch message).

Definition ignores_unrelated_doesnt_match_errors : option unit :=
  _ ← assert_ (negb (message_indicates_mismatch
        (lit "the public key that was part of the message doesn't match the key we have")));
  assert_ (negb (message_indicates_mismatch
        (lit "the room id of the room key doesn't match the room id of the decrypted event"))).

Definition invalid_template_returns_error : option unit :=
  e ← err (format_message (mkMessage None [] None (lit "test")) (lit "{{ unclosed"));
  assert_ (says (lit "Template error") e).

Definition client_tests : list (option unit) :=
  [device_id_ok_when_matching; device_id_errors_when_mismatched; device_id_ok_when_not_configured;
   device_id_ok_when_server_reports_none; detects_wrapped_account_mismatch; ignores_unrelated_doesnt_match_errors;
   invalid_template_returns_error].

Lemma client_tests_pass : client_tests = replicate 7 (Some tt).
Proof. vm_compute. reflexivity. Qed.
