(* ===== verification/Tests.v ===== *)
(** * The translated tests of the repository

    The unit tests of [src/src] and the integration tests of [src/tests], as [Test*]
    translates them.  Eight unit tests, which look into another crate or poison the lock, are
    left out, and where a test parses a mail the part tree that [mailparse] gives is
    written out by hand. *)

From S2P Require Import Prelude RustStr Testing TestStore TestWorker TestSmtp TestMime TestSessions TestConfig.

Definition translated_tests : list (option unit) :=
  store_tests ++ worker_tests ++ server_tests ++ parser_tests ++ mime_tests ++
  config_tests ++ routing_tests ++ client_tests ++ integration_tests.

(** The definitions of this library pass the tests that are translated here, 99 unit tests
    and 18 integration tests, with the assertions of their source. *)
Lemma translated_tests_pass :
  length translated_tests = 117%nat /\ Forall (fun test => test = Some tt) translated_tests.
Proof.
  split; [reflexivity|]. unfold translated_tests.
  rewrite store_tests_pass, worker_tests_pass, server_tests_pass, parser_tests_pass, mime_tests_pass,
    config_tests_pass, routing_tests_pass, client_tests_pass, integration_tests_pass.
  by repeat constructor.
Qed.
