(* ===== verification/Wakeup.v ===== *)
(** * Waking the idle worker

    The worker of [src/src/queue/worker.rs] sleeps in a [tokio::select!] on the
    [Notify] of the store, a timer and the shutdown flag, while sessions enqueue from
    other tasks (lines 68-110 there, and lines 112-142 and 250-252 of
    [src/src/queue/store.rs]).  A [Notify] keeps one permit: a notification that finds
    nobody waiting is not lost but wakes the next wait.  [enqueue] first awaits the
    closure that stores the row and then notifies, and its caller may be dropped in
    between or before.  [wake_step] interleaves the program of the worker, the programs
    of the callers of [enqueue] and the closures of dropped callers, each call by call;
    whether a call notifies is read off what it does to the store. *)

From S2P Require Import Prelude RustStr Error Effects Store StoreFacts StoreSpec StoreProps Worker WorkerFacts.
From S2P Require Import System SystemFacts.

(** What is left of a call of [enqueue]. *)
Abbreviation caller := (prog EnqueueE (Result Z)).

Record Wake : Type := mkWake {
  wk_store : MessageStore;
  wk_permit : bool;                       (** the permit of the [Notify] *)
  wk_time : Z;                            (** seconds since the epoch *)
  wk_prog : prog WE (loop_ctl unit);      (** what is left of the worker's round *)
  wk_asleep : option Z;                   (** since when the worker waits in its select *)
  wk_shutdown : bool;
  wk_callers : list caller;               (** the calls of [enqueue] under way *)
  wk_orphans : list (Z * Message);        (** the closures whose caller was dropped *)
  wk_silent : list Z;                     (** (for the statements) ids whose caller was dropped, since the last claim *)
}.

Definition with_worker (w : Wake) (s : MessageStore) (permit : bool) (q : prog WE (loop_ctl unit)) (asleep : option Z)
    (silent : list Z) : Wake :=
  mkWake s permit (wk_time w) q asleep (wk_shutdown w) (wk_callers w) (wk_orphans w) silent.
Definition with_clock (w : Wake) (t : Z) : Wake :=
  mkWake (wk_store w) (wk_permit w) t (wk_prog w) (wk_asleep w) (wk_shutdown w) (wk_callers w) (wk_orphans w) (wk_silent w).
Definition with_flag (w : Wake) : Wake :=
  mkWake (wk_store w) (wk_permit w) (wk_time w) (wk_prog w) (wk_asleep w) true (wk_callers w) (wk_orphans w) (wk_silent w).
Definition with_callers (w : Wake) (cs : list caller) (os : list (Z * Message)) (silent : list Z) : Wake :=
  mkWake (wk_store w) (wk_permit w) (wk_time w) (wk_prog w) (wk_asleep w) (wk_shutdown w) cs os silent.
(** A call on the store by another task than the worker: the permit is there if it was, or if
    the call notified. *)
Definition with_call (w : Wake) (s : MessageStore) : Wake :=
  mkWake s (wk_permit w || (ms_notified (wk_store w) <? ms_notified s)%nat) (wk_time w) (wk_prog w) (wk_asleep w)
    (wk_shutdown w) (wk_callers w) (wk_orphans w) (wk_silent w).

Definition is_claim {X} (e : WE X) : bool := match e with ClaimNextReady _ => true | _ => false end.
Definition is_select {X} (e : WE X) : bool := match e with SelectIdle _ => true | _ => false end.

(** The answers of an effect at a time: the store's, and the clock's for [UnixNow]. *)
Definition wake_answer (time : Z) (shutdown : bool) (s : MessageStore) {X} (e : WE X) : X -> MessageStore -> Prop :=
  match e in WorkerE _ _ X return X -> MessageStore -> Prop with
  | UnixNow => fun x s' => x = unix_now time /\ s' = s
  | e => worker_answer shutdown s e
  end.

(** A caller that awaits its closure, with what the closure will store. *)
Definition awaits (c : caller) : option (Z * Message) :=
  match c with
  | Vis e _ => match e with WithConn clock m => Some (clock, m) | NotifyOne => None end
  | Ret _ => None
  end.

(** A caller whose row is stored and whose next call notifies: the id of the row. *)
Definition about_to_notify (c : caller) : option Z :=
  match c with
  | Vis e k =>
      match e in EnqueueE X return (X -> caller) -> option Z with
      | NotifyOne => fun k => match k tt with Ret (Ok id) => Some id | _ => None end
      | WithConn _ _ => fun _ => None
      end k
  | Ret _ => None
  end.

(** Who takes a step. *)
Inductive actor : Type :=
| Clock
| Caller (notifies : bool)   (** [notifies]: its call of [notify_one] *)
| Drop                       (** a caller is dropped *)
| Closure                    (** the closure of a dropped caller *)
| Operator
| Worker.

Definition caller_actor {X} (e : EnqueueE X) : actor := Caller (match e with NotifyOne => true | WithConn _ _ => false end).

Section Wakeup.
Variable dw : DeliveryWorker unit.

Inductive wake_step : actor -> Wake -> Wake -> Prop :=
(** Time passes. *)
| wk_passes w t : wk_time w <= t <= i64_max -> wake_step Clock w (with_clock w t)
(** A session calls [enqueue] .. *)
| wk_calls w m :
    wake_step (Caller false) w (with_callers w (wk_callers w ++ [enqueue_prog (wk_time w) m]) (wk_orphans w) (wk_silent w))
(** .. one of the two calls inside it returns .. *)
| wk_caller w j X (e : EnqueueE X) k s x :
    wk_callers w !! j = Some (Vis e k) -> enqueue_handler X e (wk_store w) = (s, x) ->
    wake_step (caller_actor e) w
      (with_call (with_callers w (<[j := k x]> (wk_callers w)) (wk_orphans w) (wk_silent w)) s)
(** .. and it returns. *)
| wk_returns w j r :
    wk_callers w !! j = Some (Ret r) ->
    wake_step (Caller false) w (with_callers w (delete j (wk_callers w)) (wk_orphans w) (wk_silent w))
(** The session's deadline drops the call, before its closure has run or after. *)
| wk_dropped w j c :
    wk_callers w !! j = Some c ->
    wake_step Drop w
      (with_callers w (delete j (wk_callers w)) (wk_orphans w ++ option_list (awaits c))
         (wk_silent w ++ option_list (about_to_notify c)))
(** The closure of a dropped call runs all the same. *)
| wk_closure w j clock m s r :
    wk_orphans w !! j = Some (clock, m) -> enqueue_commit clock m (wk_store w) = (s, r) ->
    wake_step Closure w
      (with_call (with_callers w (wk_callers w) (delete j (wk_orphans w))
         (wk_silent w ++ match r with Ok id => [id] | Err _ => [] end)) s)
(** The shutdown flag is set. *)
| wk_signal w : wake_step Operator w (with_flag w)
(** The worker performs an effect other than its idle select .. *)
| wk_effect w X (e : WE X) k x s :
    wk_asleep w = None -> wk_prog w = Vis e k -> is_select e = false ->
    wake_answer (wk_time w) (wk_shutdown w) (wk_store w) e x s ->
    wake_step Worker w (with_worker w s (wk_permit w) (k x) None (if is_claim e then [] else wk_silent w))
(** .. begins to wait .. *)
| wk_sleeps w wait k :
    wk_asleep w = None -> wk_prog w = Vis (SelectIdle wait) k ->
    wake_step Worker w (with_worker w (wk_store w) (wk_permit w) (wk_prog w) (Some (wk_time w)) (wk_silent w))
(** .. and wakes by the permit, which is used up, by the timer or by the flag. *)
| wk_notified w t0 wait k :
    wk_asleep w = Some t0 -> wk_prog w = Vis (SelectIdle wait) k -> wk_permit w = true ->
    wake_step Worker w (with_worker w (wk_store w) false (k tt) None (wk_silent w))
| wk_timer w t0 wait k :
    wk_asleep w = Some t0 -> wk_prog w = Vis (SelectIdle wait) k -> t0 + wait <= wk_time w ->
    wake_step Worker w (with_worker w (wk_store w) (wk_permit w) (k tt) None (wk_silent w))
| wk_flag w t0 wait k :
    wk_asleep w = Some t0 -> wk_prog w = Vis (SelectIdle wait) k -> wk_shutdown w = true ->
    wake_step Worker w (with_worker w (wk_store w) (wk_permit w) (k tt) None (wk_silent w))
(** The next round. *)
| wk_again w :
    wk_asleep w = None -> wk_prog w = Ret Continue ->
    wake_step Worker w (with_worker w (wk_store w) (wk_permit w) (run_body dw) None (wk_silent w)).

(** From a worker that starts on any well-formed outbox. *)
Inductive wake_reachable : Wake -> Prop :=
| wake_init s p t sh :
    db_wf (ms_db s) -> 0 <= t <= i64_max -> wake_reachable (mkWake s p t (run_body dw) None sh [] [] [])
| wake_next a w w' : wake_reachable w -> wake_step a w w' -> wake_reachable w'.

(** Nobody who lives notifies, and nobody signals. *)
Definition unnoticed_step (w w' : Wake) : Prop := exists a, a <> Caller true /\ a <> Operator /\ wake_step a w w'.
End Wakeup.

(** ** What the worker knows when it goes to sleep *)

Inductive wake_phase : Type :=
| WkBusy
| WkNow (now : Z)               (** it read the clock *)
| WkNone (now : Z)              (** nothing was due *)
| WkWait (now wait : Z).        (** it computed how long to wait *)

Definition wait_of (now : Z) (r : Result (option Z)) : Z :=
  match r with
  | Ok (Some at_) => as_u64 (Z.max (as_i64 (at_ - now)) 0)
  | Ok None => IDLE_SLEEP
  | Err _ => STORAGE_ERROR_BACKOFF
  end.

Definition wake_phase_step (ph : wake_phase) (X : Type) (e : WE X) : X -> option wake_phase :=
  match e in WorkerE _ _ X return X -> option wake_phase with
  | UnixNow => fun x => Some (WkNow x)
  | ClaimNextReady n => fun x =>
      match ph with
      | WkNow now =>
          if bool_decide (n = now)
          then Some (match x with Ok None => WkNone now | _ => WkBusy end) else None
      | _ => None
      end
  | ShutdownBorrow => fun _ => Some ph
  | NextWakeup n => fun x =>
      match ph with
      | WkNone now => if bool_decide (n = now) then Some (WkWait now (wait_of now x)) else None
      | _ => None
      end
  | SelectIdle d => fun _ =>
      match ph with
      | WkWait now wait => if bool_decide (d = wait) then Some WkBusy else None
      | _ => None
      end
  | _ => fun _ => match ph with WkBusy => Some WkBusy | _ => None end
  end.

Abbreviation wake_conforms := (conforms any_answer wake_phase_step (fun _ _ => True)).

Lemma run_body_wake (dw : DeliveryWorker unit) ph : wake_conforms ph (run_body dw).
Proof.
  intros now _. cbn [wake_phase_step]. intros claimed _. cbn [wake_phase_step].
  rewrite bool_decide_eq_true_2 by done. destruct claimed as [[st|]|e].
  - intros r _. cbn [wake_phase_step]. destruct r as [u|err]; [by intros y _|].
    unfold handle_failure. cbn. by destruct (_ <? _); intros y _.
  - intros stop _. cbn [wake_phase_step]. destruct stop; [done|]. intros r _. cbn [wake_phase_step].
    rewrite bool_decide_eq_true_2 by done. intros y _. cbn [wake_phase_step].
    by rewrite bool_decide_eq_true_2.
  - intros y _. cbn [wake_phase_step]. intros stop _. cbn [wake_phase_step]. done.
Qed.

(** ** The invariant *)

Definition wk_queue (w : Wake) : Queue := queue_of (ms_db (wk_store w)).

(** Every queued message was due after the claim, or its enqueue left a permit or is about
    to, or its caller was dropped. *)
Definition noticed (w : Wake) (bound : Z) : Prop :=
  forall i e, q_entries (wk_queue w) !! i = Some e ->
    i ∈ wk_silent w \/ wk_permit w = true \/
    (exists c, c ∈ wk_callers w /\ about_to_notify c = Some i) \/ bound <= entry_due e.

(** The wait is an hour at most, or ends when some queued message is due. *)
Definition wait_ends (q : Queue) (now wait : Z) : Prop :=
  wait <= IDLE_SLEEP \/ exists i e, q_entries q !! i = Some e /\ entry_due e = now + wait.

Definition wake_phase_ok (w : Wake) (ph : wake_phase) : Prop :=
  match ph with
  | WkBusy => True
  | WkNow now => 0 <= now <= wk_time w
  | WkNone now => 0 <= now <= wk_time w /\ noticed w (now + 1)
  | WkWait now wait =>
      0 <= now <= wk_time w /\ (wait = STORAGE_ERROR_BACKOFF \/ noticed w (now + wait)) /\ wait_ends (wk_queue w) now wait
  end.

(** A call of [enqueue] goes on to notify when its row is stored, and returns then. *)
Definition caller_ok (c : caller) : Prop :=
  match c with
  | Vis e k =>
      match e in EnqueueE X return (X -> caller) -> Prop with
      | WithConn _ _ => fun k =>
          (forall id, about_to_notify (k (Ok id)) = Some id /\ exists k', k (Ok id) = Vis NotifyOne k' /\ k' tt = Ret (Ok id)) /\
          forall err, k (Err err) = Ret (Err err)
      | NotifyOne => fun k => exists r, k tt = Ret r
      end k
  | Ret _ => True
  end.

Lemma enqueue_prog_ok clock m : caller_ok (enqueue_prog clock m).
Proof. split; [|done]. intros id. split; [done|]. by eexists. Qed.

Record wake_ok (w : Wake) : Prop := {
  wo_wf : db_wf (ms_db (wk_store w));
  wo_time : 0 <= wk_time w <= i64_max;
  wo_callers : Forall caller_ok (wk_callers w);
  wo_prog : exists ph wph, wake_phase_ok w ph /\ wake_conforms ph (wk_prog w) /\ worker_conforms wph (wk_prog w) /\
    match wk_asleep w with
    | None => True
    | Some t0 => exists now wait k, ph = WkWait now wait /\ now <= t0 <= wk_time w /\ wk_prog w = Vis (SelectIdle wait) k
    end;
}.

(** What a step that is not the worker's does: it loses no message, and whoever was
    noticed still is. *)
Record wake_others (w w' : Wake) : Prop := {
  wt_prog : wk_prog w' = wk_prog w;
  wt_asleep : wk_asleep w' = wk_asleep w;
  wt_time : wk_time w <= wk_time w' <= i64_max;
  wt_wf : db_wf (ms_db (wk_store w'));
  wt_callers : Forall caller_ok (wk_callers w');
  wt_kept i e : q_entries (wk_queue w) !! i = Some e -> q_entries (wk_queue w') !! i = Some e;
  wt_noticed bound : noticed w bound -> noticed w' bound;
}.

Lemma wake_others_ok w w' : wake_ok w -> wake_others w w' -> wake_ok w'.
Proof.
  intros [Hwf Ht Hcs (ph & wph & Hph & Hc & Hw & Hs)] [Op Oa Ot Owf Ocs Ok On]. split; [done|lia|done|].
  exists ph, wph. rewrite Op, Oa. split_and!; [|done..|].
  - destruct ph; cbn in *; [done|lia|..].
    + destruct Hph as [? H]. split; [lia|by apply On].
    + destruct Hph as (? & H & Hend). split; [lia|]. split; [destruct H; [by left|right; by apply On]|].
      destruct Hend as [?|(i & e & Hi & He)]; [by left|right]. exists i, e. split; [by apply Ok|done].
  - destruct (wk_asleep w); [|done]. destruct Hs as (now & wait & k & -> & ? & ->). exists now, wait, k. split_and!; [done|lia..|done].
Qed.

(** What the answer of a query says of the queue. *)
Lemma claim_none s s' now :
  db_wf (ms_db s) -> claim_next_ready now s = (s', Ok None) ->
  ms_db s' = ms_db s /\ forall i e, q_entries (queue_of (ms_db s)) !! i = Some e -> now < entry_due e.
Proof.
  intros Hwf Hc. pose proof (refine_step (OpClaimNextReady now) s s' (EvClaimed now None) Hwf) as Hq.
  cbn [step] in Hq. rewrite Hc in Hq. specialize (Hq eq_refl). apply claimed_inv in Hq as [_ Hq].
  split; [|exact Hq]. by apply claim_next_ready_spec in Hc as [? _].
Qed.

Lemma wakeup_noticed w s' now r :
  db_wf (ms_db (wk_store w)) -> 0 <= now <= i64_max -> next_wakeup now (wk_store w) = (s', r) ->
  noticed w (now + 1) ->
  ms_db s' = ms_db (wk_store w) /\
  (wait_of now r = STORAGE_ERROR_BACKOFF \/ noticed w (now + wait_of now r)) /\
  wait_ends (wk_queue w) now (wait_of now r).
Proof.
  intros Hwf Hnow Hw Hn. pose proof (refine_step (OpNextWakeup now) _ s' (event_of (EvNextWakeup now) r) Hwf) as Hq.
  cbn [step] in Hq. rewrite Hw in Hq. specialize (Hq eq_refl).
  assert (ms_db s' = ms_db (wk_store w)) as Hdb by by apply next_wakeup_spec in Hw as [? _].
  split; [done|]. unfold wk_queue. destruct r as [[t|]|e].
  - inversion Hq as [| | | | | | | | |? ? ? i0 e0 Hlt Hi0 Ht Hmin| | |]; subst.
    assert (is_i64 (entry_due e0)) as Hi64.
    { simpl in Hi0. apply entries_lookup in Hi0 as (r & Hr & _ & <-); [|apply Hwf].
      pose proof (wf_outbox_rows _ Hwf) as Hrows. rewrite Forall_forall in Hrows. by apply Hrows. }
    assert (wait_of now (Ok (Some (entry_due e0))) = entry_due e0 - now) as Hwait.
    { unfold is_i64, i64_min, i64_max in *. cbn [wait_of].
      rewrite as_i64_id by (unfold is_i64, i64_min, i64_max; lia).
      rewrite as_u64_id by (unfold is_u64, u64_max; lia). lia. }
    rewrite Hwait. split; [right|right; exists i0, e0; split; [done|lia]].
    intros i e Hi. destruct (Hn i e Hi) as [?|[?|[?|?]]]; [by left|by right; left|by right; right; left|right; right; right].
    specialize (Hmin i e Hi). lia.
  - inversion Hq as [| | | | | | | |? ? Hall| | | |]; subst. split; [right|left; cbn; lia].
    intros i e Hi. destruct (Hn i e Hi) as [?|[?|[?|?]]]; [by left|by right; left|by right; right; left|]. specialize (Hall i e Hi). lia.
  - split; [by left|left]. cbn. unfold STORAGE_ERROR_BACKOFF, IDLE_SLEEP. lia.
Qed.

(** *** The steps *)

Lemma wake_answer_answer time sh s {X} (e : WE X) x s' : wake_answer time sh s e x s' -> worker_answer sh s e x s'.
Proof. destruct e; cbn; [by intros [_ ?]|done..]. Qed.

(** The closure of an enqueue keeps the entries and adds at most the one it answers. *)
Lemma commit_entries clock m s s' r :
  db_wf (ms_db s) -> enqueue_commit clock m s = (s', r) ->
  db_wf (ms_db s') /\ ms_notified s' = ms_notified s /\
  (forall i e, q_entries (queue_of (ms_db s)) !! i = Some e -> q_entries (queue_of (ms_db s')) !! i = Some e) /\
  (forall i e, q_entries (queue_of (ms_db s')) !! i = Some e ->
     r = Ok i \/ q_entries (queue_of (ms_db s)) !! i = Some e) /\
  (forall id, r = Ok id -> q_entries (queue_of (ms_db s')) !! id = Some (mkEntry (stored_form m) 0 0)).
Proof.
  intros Hwf Hcom. rewrite enqueue_commit_enqueue in Hcom. destruct (enqueue clock m s) as [s1 r1] eqn:Henq.
  injection Hcom as <- <-. cbn [ms_notified with_notified].
  pose proof (step_wf (OpEnqueue clock m) s I Hwf) as Hwf'. cbn [step] in Hwf'. rewrite Henq in Hwf'.
  pose proof (refine_step (OpEnqueue clock m) s s1 (event_of (EvEnqueued clock m) r1) Hwf) as Hq.
  cbn [step] in Hq. rewrite Henq in Hq. specialize (Hq eq_refl).
  cbn [fst snd]. change (ms_db (with_notified (ms_notified s) s1)) with (ms_db s1). destruct r1 as [id|e].
  - apply enqueued_inv in Hq as (-> & _ & ->). cbn [q_entries]. split_and!; [done..| | |].
    + intros i e Hi. pose proof (entries_le _ _ _ Hwf Hi) as Hle. rewrite lookup_insert_ne by lia. done.
    + intros i e [[<- _]|[_ Hi]]%lookup_insert_Some; [by left|by right].
    + intros id [= <-]. apply lookup_insert_eq.
  - assert (queue_of (ms_db s1) = queue_of (ms_db s)) as -> by (by apply failed_inv in Hq).
    split_and!; [done..|by right|done].
Qed.

(** The row of a caller whose closure answers: the caller is about to notify. *)
Lemma caller_commits w j clock m k s x :
  wake_ok w -> wk_callers w !! j = Some (Vis (WithConn clock m) k) -> enqueue_commit clock m (wk_store w) = (s, x) ->
  wake_others w (with_call (with_callers w (<[j := k x]> (wk_callers w)) (wk_orphans w) (wk_silent w)) s).
Proof.
  intros [Hwf Ht Hcs _] Hj Hcom. destruct (commit_entries _ _ _ _ _ Hwf Hcom) as (Hwf' & Hn & Hkept & Hnew & _).
  pose proof (Forall_lookup_1 _ _ _ _ Hcs Hj) as [Hk Herr].
  split; cbn; [done|done|lia|done| |exact Hkept|].
  - apply Forall_insert; [done|]. destruct x as [id|err]; [|by rewrite Herr].
    destruct (Hk id) as (_ & k' & -> & Hk'). by exists (Ok id).
  - intros bound Hnot i e Hi. cbn in Hi. destruct (Hnew i e Hi) as [->|Hold].
    + right. right. left. exists (k (Ok i)). split; [|apply Hk].
      eapply list_elem_of_lookup_2, list_lookup_insert_eq. by eapply lookup_lt_Some.
    + destruct (Hnot i e Hold) as [?|[Hp|[(c & Hc & Habout)|?]]]; [by left|right; left; cbn; by rewrite Hp| |by right; right; right].
      right. right. left. exists c. split; [|done].
      destruct (elem_of_insert_or _ _ _ (k x) _ Hj Hc) as [->|?]; [done|done].
Qed.

Lemma caller_notifies w j k :
  wake_ok w -> wk_callers w !! j = Some (Vis NotifyOne k) ->
  wake_others w (with_call (with_callers w (<[j := k tt]> (wk_callers w)) (wk_orphans w) (wk_silent w)) (notify_one (wk_store w))).
Proof.
  intros [Hwf Ht Hcs _] Hj. pose proof (Forall_lookup_1 _ _ _ _ Hcs Hj) as [r Hr].
  split; cbn; [done|done|lia|done| |done|].
  - apply Forall_insert; [done|]. by rewrite Hr.
  - intros bound _ i e _. right. left. cbn. rewrite Nat.leb_refl. apply orb_true_r.
Qed.

Lemma caller_dropped w j c :
  wake_ok w -> wk_callers w !! j = Some c ->
  wake_others w (with_callers w (delete j (wk_callers w)) (wk_orphans w ++ option_list (awaits c))
    (wk_silent w ++ option_list (about_to_notify c))).
Proof.
  intros [Hwf Ht Hcs _] Hj. split; cbn; [done|done|lia|done|by apply Forall_delete|done|].
  intros bound Hnot i e Hi. cbn. rewrite elem_of_app.
  destruct (Hnot i e Hi) as [?|[?|[(c' & Hc & Habout)|?]]]; [by left; left|by right; left| |by right; right; right].
  destruct (elem_of_delete_or _ _ _ _ Hj Hc) as [->|?]; [|right; right; left; by exists c'].
  left. right. rewrite Habout. by left.
Qed.

Lemma closure_runs w j clock m s r :
  wake_ok w -> enqueue_commit clock m (wk_store w) = (s, r) ->
  wake_others w (with_call (with_callers w (wk_callers w) (delete j (wk_orphans w))
    (wk_silent w ++ match r with Ok id => [id] | Err _ => [] end)) s).
Proof.
  intros [Hwf Ht Hcs _] Hcom. destruct (commit_entries _ _ _ _ _ Hwf Hcom) as (Hwf' & Hn & Hkept & Hnew & _).
  split; cbn; [done|done|lia|done|done|exact Hkept|].
  intros bound Hnot i e Hi. cbn in *. rewrite elem_of_app. destruct (Hnew i e Hi) as [->|Hold]; [left; right; by left|].
  destruct (Hnot i e Hold) as [?|[Hp|[?|?]]]; [by left; left|right; left; by rewrite Hp|by right; right; left|by right; right; right].
Qed.

Lemma wake_others_step dw a w w' : wake_ok w -> a <> Worker -> wake_step dw a w w' -> wake_others w w'.
Proof.
  intros Hok Ha Hstep. pose proof Hok as [Hwf Ht Hcs _].
  destruct Hstep as [w t Htt|w m|w j X e k s x Hj He|w j r Hj|w j c Hj|w j clock m s r Hj Hcom|w| | | | | |]; try done.
  - split; cbn; [done|done|lia|done| |done|].
    + apply Forall_app. split; [done|]. constructor; [apply enqueue_prog_ok|constructor].
    + intros bound Hnot i e Hi. destruct (Hnot i e Hi) as [?|[?|[(c & Hc & Habout)|?]]]; [by left|by right; left| |by right; right; right].
      right. right. left. exists c. split; [|done]. cbn. apply elem_of_app. by left.
  - destruct e as [clock m|]; cbn in He; [by eapply caller_commits|]. injection He as <- <-. by apply caller_notifies.
  - pose proof (caller_dropped w j _ Hok Hj) as H. cbn [awaits about_to_notify option_list] in H. by rewrite !app_nil_r in H.
  - by apply caller_dropped.
  - by eapply closure_runs.
  - split; cbn; try done. lia.
Qed.

Lemma wake_effect_ok w {X} (e : WE X) k x s :
  wake_ok w -> wk_asleep w = None -> wk_prog w = Vis e k -> is_select e = false ->
  wake_answer (wk_time w) (wk_shutdown w) (wk_store w) e x s ->
  wake_ok (with_worker w s (wk_permit w) (k x) None (if is_claim e then [] else wk_silent w)).
Proof.
  intros [Hwf Ht Hcs (ph & wph & Hph & Hc & Hw & _)] _ Hq Hsel Ha. rewrite Hq in Hc, Hw.
  specialize (Hc x I). destruct (wake_phase_step ph X e x) as [ph'|] eqn:Hph'; [|done].
  specialize (Hw x I). destruct (worker_step wph X e x) as [wph'|] eqn:Hwph'; [|done].
  split; cbn; [|done|done|].
  - pose proof (worker_answer_op _ _ _ _ _ (wake_answer_answer _ _ _ _ _ _ Ha)) as (clock & Hop).
    destruct (worker_op e clock) as [op|] eqn:Eop; [|by subst]. destruct Hop as [-> _].
    apply step_wf; [|done]. by eapply worker_op_ok.
  - exists ph', wph'. split_and!; [|done..].
    destruct e as [|now|id|id err|id a n|now|X e| | | |]; cbn in Ha, Hph'; try done;
      try (destruct ph; [|done..]; by injection Hph' as <-).
    + destruct Ha as [-> ->]. injection Hph' as <-. cbn. rewrite unix_now_ok by done. lia.
    + destruct ph as [|now'| |]; [done| |done..]. case_bool_decide; [subst now'|done].
      destruct x as [[st|]|err]; injection Hph' as <-; [done| |done].
      destruct (claim_none _ s now Hwf Ha) as [Hdb Hall]. split; [exact Hph|].
      intros i e Hi. right. right. right. unfold wk_queue in Hi. cbn in Hi. rewrite Hdb in Hi. specialize (Hall i e Hi). lia.
    + destruct ph as [| |now'|]; [done..| |done]. case_bool_decide; [subst now'|done]. injection Hph' as <-.
      destruct Hph as [Hnow Hn]. destruct (wakeup_noticed w s now x Hwf ltac:(lia) Ha Hn) as (Hdb & Hwait & Hend).
      split; [exact Hnow|]. unfold noticed, wk_queue in *. cbn. by rewrite Hdb.
    + destruct Ha as [_ ->]. injection Hph' as <-. by destruct ph.
Qed.

(** The worker wakes: nothing is known until it reads the clock. *)
Lemma wake_wakes w p t0 wait k :
  wake_ok w -> wk_asleep w = Some t0 -> wk_prog w = Vis (SelectIdle wait) k ->
  wake_ok (with_worker w (wk_store w) p (k tt) None (wk_silent w)).
Proof.
  intros [Hwf Ht Hcs (ph & wph & Hph & Hc & Hw & Hs)] Ha Hq. rewrite Ha in Hs. rewrite Hq in Hc, Hw.
  destruct Hs as (now & w' & k' & -> & _).
  specialize (Hc tt I). specialize (Hw tt I). cbn in Hc, Hw. case_bool_decide; [|done].
  destruct wph; try done. split; cbn; [done..|]. by exists WkBusy, WIdle.
Qed.

Lemma wake_step_ok dw a w w' : wake_ok w -> wake_step dw a w w' -> wake_ok w'.
Proof.
  intros Hok Hstep. assert (a = Worker \/ a <> Worker) as [Hwk|Hne] by (destruct a; (by left) || by right).
  2: { eapply wake_others_ok; [done|by eapply wake_others_step]. }
  destruct Hstep as [| |w j X e|  | | | |w X e k x s Hs Hq Hsel Ha|w wait k Hs Hq|w t0 wait k Hs Hq Hp|w t0 wait k Hs Hq Hdl
    |w t0 wait k Hs Hq Hf|w Hs Hq]; try done; try by destruct e.
  - by eapply wake_effect_ok.
  - destruct Hok as [Hwf Ht Hcs (ph & wph & Hph & Hc & Hw & _)]. split; cbn; [done..|].
    exists ph, wph. split_and!; [by destruct ph|done..|].
    rewrite Hq in Hc. pose proof (Hc tt I) as H. cbn in H.
    destruct ph as [| | |now w0]; [done..|]. case_bool_decide; [subst w0|done].
    destruct Hph as [Hnow _]. exists now, wait, k. split_and!; [done|lia..|done].
  - by eapply wake_wakes.
  - by eapply wake_wakes.
  - by eapply wake_wakes.
  - destruct Hok as [Hwf Ht Hcs _]. split; cbn; [done..|]. exists WkBusy, WIdle.
    split_and!; [done|apply (run_body_wake dw WkBusy)|apply run_body_conforms|done].
Qed.

Lemma wake_reachable_ok dw w : wake_reachable dw w -> wake_ok w.
Proof.
  induction 1 as [s p t sh Hwf Ht|a w w' _ IH Hstep]; [|by eapply wake_step_ok].
  split; cbn; [done|done|constructor|]. exists WkBusy, WIdle.
  split_and!; [done|apply (run_body_wake dw WkBusy)|apply run_body_conforms|done].
Qed.

(** *** What a caller that is about to notify, and a worker that is not noticed, do *)

Lemma about_to_notify_inv c i : about_to_notify c = Some i -> exists k, c = Vis NotifyOne k /\ k tt = Ret (Ok i).
Proof.
  destruct c as [r|X e k]; [done|]. destruct e as [clock m|]; [done|]. cbn. intros H. exists k. split; [done|].
  destruct (k tt) as [[id|err]|]; simplify_eq. done.
Qed.

Lemma wake_step_time dw a w w' : wake_step dw a w w' -> wk_time w <= wk_time w'.
Proof. destruct 1; cbn; lia. Qed.

(** The worker sleeps since [t0], and nothing is there to wake it but its timer. *)
Record sleeping (t0 wait : Z) (w : Wake) : Prop := {
  sl_ok : wake_ok w;
  sl_asleep : wk_asleep w = Some t0;
  sl_prog : exists k, wk_prog w = Vis (SelectIdle wait) k;
  sl_permit : wk_permit w = false;
  sl_flag : wk_shutdown w = false;
}.

Lemma commit_keeps_permit w s : ms_notified s = ms_notified (wk_store w) ->
  wk_permit w || (ms_notified (wk_store w) <? ms_notified s)%nat = wk_permit w.
Proof. intros ->. by rewrite Nat.ltb_irrefl, orb_false_r. Qed.

Lemma unnoticed_permit dw a w w' :
  wake_ok w -> a <> Caller true -> a <> Worker -> wake_step dw a w w' -> wk_permit w' = wk_permit w.
Proof.
  intros [Hwf _ _ _] Ha Hwk Hstep.
  destruct Hstep as [| |w j X e k s x Hj He| | |w j clock m s r Hj Hcom| | | | | | |]; try done; cbn.
  - destruct e as [clock m|]; [|done]. cbn in He.
    destruct (commit_entries _ _ _ _ _ Hwf He) as (_ & Hn & _). by apply commit_keeps_permit.
  - destruct (commit_entries _ _ _ _ _ Hwf Hcom) as (_ & Hn & _). by apply commit_keeps_permit.
Qed.

Lemma unnoticed_flag dw a w w' : a <> Operator -> wake_step dw a w w' -> wk_shutdown w' = wk_shutdown w.
Proof. intros Ha Hstep. by destruct Hstep. Qed.

Lemma sleeping_worker_step dw t0 wait w w' :
  sleeping t0 wait w -> wake_step dw Worker w w' -> t0 + wait <= wk_time w.
Proof.
  intros [_ Ha [k Hq] Hp Hf] Hstep. remember Worker as a eqn:Hwk.
  destruct Hstep as [| |w j X e|  | | | |w X e k1 x s Hs|w wait1 k1 Hs|w t1 wait1 k1 Hs Hq1 Hp1|w t1 wait1 k1 Hs Hq1 Hdl|w t1 wait1 k1 Hs Hq1 Hf1|w Hs];
    try done; try (by destruct e); try congruence.
  rewrite Hs in Ha. injection Ha as ->. rewrite Hq1 in Hq.
  apply (f_equal (fun q => match q with Vis (SelectIdle d) _ => d | _ => 0 end)) in Hq. cbn in Hq. lia.
Qed.

Lemma sleeping_goes_on dw t0 wait w w' :
  sleeping t0 wait w -> unnoticed_step dw w w' -> wk_time w' < t0 + wait ->
  sleeping t0 wait w' /\ forall i e, q_entries (wk_queue w) !! i = Some e -> q_entries (wk_queue w') !! i = Some e.
Proof.
  intros Hsl (a & Ha & Hop & Hstep) Ht. pose proof (wake_step_time _ _ _ _ Hstep) as Hle.
  assert (a = Worker \/ a <> Worker) as [->|Hwk] by (destruct a; (by left) || by right).
  { pose proof (sleeping_worker_step _ _ _ _ _ Hsl Hstep). lia. }
  destruct Hsl as [Hok Has [k Hq] Hp Hf]. destruct (wake_others_step _ _ _ _ Hok Hwk Hstep) as [Op Oa _ _ _ Hkept _].
  split; [|done]. split; [by eapply wake_step_ok|congruence|exists k; congruence| |].
  - by rewrite (unnoticed_permit _ _ _ _ Hok Ha Hwk Hstep).
  - by rewrite (unnoticed_flag _ _ _ _ Hop Hstep).
Qed.

(** Through any steps in which nobody notifies and nobody signals, until its timer fires,
    the worker sleeps on and the message [i] is left where it is. *)
Definition sleeps_beside (dw : DeliveryWorker unit) (t0 wait i : Z) (e : entry) (w1 : Wake) : Prop :=
  forall w2, rtc (unnoticed_step dw) w1 w2 -> wk_time w2 < t0 + wait ->
    wk_asleep w2 = Some t0 /\ wk_permit w2 = false /\ q_entries (wk_queue w2) !! i = Some e.

Lemma sleeping_sleeps_beside dw t0 wait i e w1 :
  sleeping t0 wait w1 -> q_entries (wk_queue w1) !! i = Some e -> sleeps_beside dw t0 wait i e w1.
Proof.
  intros Hsl Hi w2 Hrun Ht. enough (sleeping t0 wait w2 /\ q_entries (wk_queue w2) !! i = Some e) as [[_ ? _ ? _] ?] by done.
  revert Ht. pattern w2. eapply rtc_ind_r; [|clear w2 Hrun|exact Hrun]; [done|].
  intros w2 w3 _ Hstep IH Ht. pose proof Hstep as (a & _ & _ & Hst). pose proof (wake_step_time _ _ _ _ Hst).
  destruct IH as [Hsl2 Hi2]; [lia|]. destruct (sleeping_goes_on _ _ _ _ _ Hsl2 Hstep Ht) as [? Hkept]. auto.
Qed.

(** C19: no wake-up is lost while its caller lives.  Whatever the sessions enqueue and
    whenever, between the worker's claim, its computation of the wait and its going to
    sleep included, and whether a row was stored and its notification is still to come, a
    sleeping worker never misses a message whose caller was not dropped: for every such
    message in the outbox, either the permit is there and wakes the worker at once, or the
    caller that stored it is about to notify, and its next step leaves a permit, or the
    worker's timer fires when the message is due, late at most by the time [t0 - now]
    the two queries took, or it is the short pause after a storage error.  A message whose
    caller was dropped waits for the timer, which fires within the idle hour or when the
    next parked message is due. *)
Theorem no_lost_wakeup (dw : DeliveryWorker unit) (w : Wake) (t0 wait : Z) (k : unit -> prog WE (loop_ctl unit))
    (Hreach : wake_reachable dw w) (Hasleep : wk_asleep w = Some t0) (Hprog : wk_prog w = Vis (SelectIdle wait) k) :
  (exists now, 0 <= now <= t0 /\
    (forall i e, q_entries (wk_queue w) !! i = Some e -> i ∉ wk_silent w ->
       wk_permit w = true \/ (exists j c, wk_callers w !! j = Some c /\ about_to_notify c = Some i) \/
       t0 + wait <= entry_due e + (t0 - now) \/ wait = STORAGE_ERROR_BACKOFF) /\
    wait_ends (wk_queue w) now wait) /\
  (forall j c i, wk_callers w !! j = Some c -> about_to_notify c = Some i ->
     exists w', wake_step dw (Caller true) w w' /\ wk_permit w' = true /\ wk_callers w' = <[j := Ret (Ok i)]> (wk_callers w)) /\
  (wk_permit w = true -> exists w', wake_step dw Worker w w' /\ wk_asleep w' = None).
Proof.
  pose proof (wake_reachable_ok dw w Hreach) as [_ _ _ (ph & wph & Hph & _ & _ & Hs)].
  rewrite Hasleep in Hs. destruct Hs as (now & wait' & k' & -> & Hle & Hp). rewrite Hp in Hprog.
  assert (wait' = wait) as -> by (apply (f_equal (fun q => match q with Vis (SelectIdle d) _ => d | _ => 0 end)) in Hprog; done).
  destruct Hph as (Hnow & Hn & Hend). split; [|split].
  - exists now. split; [lia|]. split; [|exact Hend]. intros i e Hi Hsil.
    destruct Hn as [?|Hn]; [by right; right; right|].
    destruct (Hn i e Hi) as [?|[?|[(c & [j Hj]%list_elem_of_lookup & Hc)|?]]];
      [done|by left|right; left; by exists j, c|right; right; left; lia].
  - intros j c i Hj (k1 & -> & Hk)%about_to_notify_inv. eexists.
    split; [exact (wk_caller dw w j unit NotifyOne k1 (notify_one (wk_store w)) tt Hj eq_refl)|].
    cbn. rewrite Nat.leb_refl, Hk. split; [apply orb_true_r|done].
  - intros Hpm. eexists. split; [by eapply wk_notified|done].
Qed.

(** C20: a message can be stored with nobody told.  When the deadline drops a session that
    awaits [enqueue], the closure on the blocking task stores the message all the same, due
    at once, and nobody calls [notify_one] for it; neither does anybody when the session is
    dropped after the row was stored and before it is polled again.  Let the worker be
    asleep with no permit: whatever the clock, the closures, the worker itself and the
    other sessions do, short of a notification by one of these or a signal, the worker
    sleeps on beside the message until its timer fires. *)
Theorem dropped_session_is_not_noticed (dw : DeliveryWorker unit) (w : Wake) (t0 wait : Z)
    (k : unit -> prog WE (loop_ctl unit))
    (Hreach : wake_reachable dw w) (Hasleep : wk_asleep w = Some t0) (Hprog : wk_prog w = Vis (SelectIdle wait) k)
    (Hpermit : wk_permit w = false) (Hflag : wk_shutdown w = false) :
  (forall j clock m s id,
     wk_orphans w !! j = Some (clock, m) -> enqueue_commit clock m (wk_store w) = (s, Ok id) ->
     exists w1, wake_step dw Closure w w1 /\ wk_store w1 = s /\
       q_entries (wk_queue w1) !! id = Some (mkEntry (stored_form m) 0 0) /\
       sleeps_beside dw t0 wait id (mkEntry (stored_form m) 0 0) w1) /\
  (forall j c id e,
     wk_callers w !! j = Some c -> about_to_notify c = Some id -> q_entries (wk_queue w) !! id = Some e ->
     exists w1, wake_step dw Drop w w1 /\ wk_store w1 = wk_store w /\ sleeps_beside dw t0 wait id e w1).
Proof.
  pose proof (wake_reachable_ok dw w Hreach) as Hok. split.
  - intros j clock m s id Hj Hcom. eexists. pose proof (wk_closure dw w j clock m s (Ok id) Hj Hcom) as Hstep.
    split; [exact Hstep|]. split; [done|].
    destruct (commit_entries _ _ _ _ _ (wo_wf _ Hok) Hcom) as (_ & _ & _ & _ & Hrow). split; [by apply Hrow|].
    apply sleeping_sleeps_beside; [|by apply Hrow].
    split; [by eapply wake_step_ok|done|by exists k| |done].
    pose proof (unnoticed_permit dw Closure w _ Hok ltac:(discriminate) ltac:(discriminate) Hstep) as Hpm.
    rewrite Hpermit in Hpm. exact Hpm.
  - intros j c id e Hj Hc Hi. eexists. pose proof (wk_dropped dw w j c Hj) as Hstep. split; [exact Hstep|]. split; [done|].
    apply sleeping_sleeps_beside; [|done]. split; [by eapply wake_step_ok|done|by exists k|done|done].
Qed.

Lemma closure_time dw w w' : wake_step dw Closure w w' -> wk_time w' = wk_time w.
Proof. intros H. remember Closure as a. by destruct H. Qed.

(** ** Executions: an enqueue between the claim and the sleep

    The worker finds the outbox empty and decides to sleep for the idle hour; before it
    does, a session calls [enqueue] and its row is stored.  The worker falls asleep with
    the notification to come; or the session is dropped first, and its closure runs later. *)
Definition idle_worker : DeliveryWorker unit := mkWorker tt 2 60.
Definition empty_store : MessageStore := fresh_store [] 10.
Definition late_store : MessageStore := (enqueue_commit 1000 sample_message empty_store).1.

Abbreviation idle_reachable := (wake_reachable idle_worker).

Lemma effect_next dw s p t X (e : WE X) k sh x s' :
  wake_reachable dw (mkWake s p t (Vis e k) None sh [] [] []) -> is_select e = false -> wake_answer t sh s e x s' ->
  wake_reachable dw (mkWake s' p t (k x) None sh [] [] []).
Proof.
  intros H Hsel Ha. pose proof (wk_effect dw (mkWake s p t (Vis e k) None sh [] [] []) X e k x s' eq_refl eq_refl Hsel Ha) as Hstep.
  apply (wake_next _ _ _ _ H) in Hstep. cbn in Hstep. by destruct (is_claim e).
Qed.

Lemma about_to_sleep :
  exists k, idle_reachable (mkWake empty_store false 1000 (Vis (SelectIdle IDLE_SLEEP) k) None false [] [] []).
Proof.
  assert (idle_reachable (mkWake empty_store false 1000 (run_body idle_worker) None false [] [] [])) as H0.
  { apply wake_init; [apply SCHEMA_db_wf|unfold i64_max; lia]. }
  pose proof (effect_next _ _ _ _ _ UnixNow _ _ 1000 empty_store H0 eq_refl (conj eq_refl eq_refl)) as H1.
  pose proof (effect_next _ _ _ _ _ (ClaimNextReady 1000) _ _ (Ok None) empty_store H1 eq_refl eq_refl) as H2.
  pose proof (effect_next _ _ _ _ _ ShutdownBorrow _ _ false empty_store H2 eq_refl (conj eq_refl eq_refl)) as H3.
  pose proof (effect_next _ _ _ _ _ (NextWakeup 1000) _ _ (Ok None) empty_store H3 eq_refl eq_refl) as H4.
  eexists. exact H4.
Qed.

(** The row is stored, the notification is to come and the worker sleeps. *)
Definition stored_caller : caller := _ ← trigger NotifyOne; Ret (Ok 1).
Definition late_sleeper (k : unit -> prog WE (loop_ctl unit)) : Wake :=
  mkWake late_store false 1000 (Vis (SelectIdle IDLE_SLEEP) k) (Some 1000) false [stored_caller] [] [].

Lemma late_reachable : exists k, idle_reachable (late_sleeper k).
Proof.
  destruct about_to_sleep as [k H4]. exists k.
  pose proof (wake_next _ _ _ _ H4 (wk_calls _ _ sample_message)) as H5.
  pose proof (wake_next _ _ _ _ H5 (wk_caller _ (mkWake empty_store false 1000 (Vis (SelectIdle IDLE_SLEEP) k) None false
    [enqueue_prog 1000 sample_message] [] []) 0 _ (WithConn 1000 sample_message) _ late_store (Ok 1) eq_refl eq_refl)) as H6.
  exact (wake_next _ _ _ _ H6 (wk_sleeps _ (mkWake late_store false 1000 (Vis (SelectIdle IDLE_SLEEP) k) None false
    [stored_caller] [] []) IDLE_SLEEP k eq_refl eq_refl)).
Qed.

Lemma no_lost_wakeup_witness :
  exists k, idle_reachable (late_sleeper k) /\ wk_permit (late_sleeper k) = false /\
    q_entries (wk_queue (late_sleeper k)) !! 1 = Some (mkEntry sample_message 0 0) /\
    exists w', wake_step idle_worker (Caller true) (late_sleeper k) w' /\ wk_permit w' = true /\
      wk_callers w' = [Ret (Ok 1)].
Proof.
  destruct late_reachable as [k Hk]. exists k. split; [exact Hk|]. split; [reflexivity|]. split; [reflexivity|].
  destruct (no_lost_wakeup idle_worker (late_sleeper k) 1000 IDLE_SLEEP k Hk eq_refl eq_refl) as (_ & H & _).
  exact (H 0%nat stored_caller 1 eq_refl eq_refl).
Defined.

(** The session was dropped, the worker sleeps, and the closure is still to run. *)
Definition dropped_sleeper (k : unit -> prog WE (loop_ctl unit)) : Wake :=
  mkWake empty_store false 1000 (Vis (SelectIdle IDLE_SLEEP) k) (Some 1000) false [] [(1000, sample_message)] [].

Lemma dropped_reachable : exists k, idle_reachable (dropped_sleeper k).
Proof.
  destruct about_to_sleep as [k H4]. exists k.
  pose proof (wake_next _ _ _ _ H4 (wk_calls _ _ sample_message)) as H5.
  pose proof (wake_next _ _ _ _ H5 (wk_dropped _ (mkWake empty_store false 1000 (Vis (SelectIdle IDLE_SLEEP) k) None false
    [enqueue_prog 1000 sample_message] [] []) 0 _ eq_refl)) as H6.
  exact (wake_next _ _ _ _ H6 (wk_sleeps _ (mkWake empty_store false 1000 (Vis (SelectIdle IDLE_SLEEP) k) None false
    [] [(1000, sample_message)] []) IDLE_SLEEP k eq_refl eq_refl)).
Qed.

(** An hour less a second later the worker still sleeps beside a message that was due all
    the time. *)
Lemma dropped_session_is_not_noticed_witness :
  exists k w1, idle_reachable (dropped_sleeper k) /\ wake_step idle_worker Closure (dropped_sleeper k) w1 /\
    let w2 := with_clock w1 (1000 + IDLE_SLEEP - 1) in
    rtc (unnoticed_step idle_worker) w1 w2 /\ wk_asleep w2 = Some 1000 /\ wk_permit w2 = false /\
    q_entries (wk_queue w2) !! 1 = Some (mkEntry sample_message 0 0).
Proof.
  destruct dropped_reachable as [k Hk]. exists k.
  destruct (dropped_session_is_not_noticed idle_worker (dropped_sleeper k) 1000 IDLE_SLEEP k Hk eq_refl eq_refl eq_refl eq_refl)
    as [H _].
  destruct (H 0%nat 1000 sample_message late_store 1 eq_refl eq_refl) as (w1 & Hstep & _ & _ & Hsleeps).
  exists w1. split; [exact Hk|]. split; [exact Hstep|]. cbv zeta.
  assert (rtc (unnoticed_step idle_worker) w1 (with_clock w1 (1000 + IDLE_SLEEP - 1))) as Hrun.
  { apply rtc_once. exists Clock. split; [done|]. split; [done|]. constructor.
    assert (wk_time w1 = 1000) as -> by (apply closure_time in Hstep; exact Hstep). unfold IDLE_SLEEP, i64_max. lia. }
  split; [exact Hrun|]. apply (Hsleeps _ Hrun). cbn. lia.
Defined.
