(* ===== verification/Delivery.v ===== *)
(** * The worker with the Matrix client

    [DeliveryWorker<MatrixClient>]: the worker of [Worker] with the sink of [Client],
    through the interface [MessageSink] ([impl MessageSink for MatrixClient],
    [src/src/matrix/client.rs], lines 353-357). *)

From S2P Require Import Prelude RustStr Error Effects Store StoreFacts StoreSpec StoreProps Worker WorkerFacts.
From S2P Require Import ConfigData Routing Formatter Config ConfigProps Client ClientProps.

(** What a settlement does to an entry when the sink refused the message: it stays, or
    it is a dead letter. *)
Lemma settle_refused {S} (dw : DeliveryWorker S) stored now clock err s e :
  db_wf (ms_db s) -> q_entries (queue_of (ms_db s)) !! sm_id stored = Some e ->
  let q := queue_of (ms_db s) in
  let q' := queue_of (ms_db (settle dw stored now clock (Err err) s)) in
  is_Some (q_entries q' !! sm_id stored) \/ length (q_letters q') = Datatypes.S (length (q_letters q)).
Proof.
  intros Hwf Hi q q'. subst q q'. unfold settle. cbv zeta. destruct (_ <? _).
  - destruct (dead_letter clock (sm_id stored) (ChimneyError.to_string err) s) as [s' r] eqn:Hd.
    pose proof (refine_step (OpDeadLetter clock (sm_id stored) (ChimneyError.to_string err)) s s'
      (event_of (fun _ => EvDeadLettered clock (sm_id stored) (ChimneyError.to_string err)) r) Hwf) as Hq.
    cbn [step] in Hq. rewrite Hd in Hq. specialize (Hq eq_refl). apply dead_letter_spec in Hd as (_ & _ & Hd).
    destruct r as [u|err']; [right|left; cbn [fst]; rewrite Hd, Hi; by eexists].
    apply dead_lettered_inv in Hq. rewrite Hi in Hq. cbn [fst]. rewrite Hq. cbn [q_letters].
    rewrite length_app. cbn [length]. lia.
  - left. set (a := add_u32 (sm_attempts stored) 1). set (n := add_i64 now _).
    destruct (reschedule (sm_id stored) a n s) as [s' r] eqn:Hr.
    pose proof (refine_step (OpReschedule (sm_id stored) a n) s s'
      (event_of (fun _ => EvRescheduled (sm_id stored) a n) r) Hwf) as Hq.
    cbn [step] in Hq. rewrite Hr in Hq. specialize (Hq eq_refl). apply reschedule_spec in Hr as (_ & _ & Hr).
    cbn [fst]. destruct r as [u|err']; [|rewrite Hr, Hi; by eexists].
    apply rescheduled_inv in Hq. rewrite Hq. cbn [q_entries]. rewrite lookup_alter_eq.
    change (entries (db_outbox (ms_db s))) with (q_entries (queue_of (ms_db s))). rewrite Hi. by eexists.
Qed.

Section Delivery.
Context {Url UserId RoomId Client Room : Type} `{EqDecision RoomId, EqDecision Room}.
Context {Env Template : Type} `{Minijinja Env Template} {T : Type}.

(** C12: a message leaves the queue only when Matrix has it.  In a delivery by the
    Matrix client, whatever the SDK and the storage layer answer: if afterwards the
    message is neither in the outbox nor a new dead letter, then its template rendered
    and the SDK accepted exactly that text, in the room its routing names, under its
    idempotency key, and with [require_e2ee] in a room it had just reported encrypted. *)
Theorem gone_only_when_sent (sdk : handler (ClientE Url UserId RoomId Client Room) T)
    (connect : T -> T * Result (MatrixClient UserId RoomId Client))
    (dw : DeliveryWorker (MatrixClient UserId RoomId Client)) (stored : StoredMessage) (now : Z) (e : entry)
    (ww : WorkerWorld T)
    (Hwf : db_wf (ms_db (ww_store ww)))
    (Hqueued : q_entries (queue_of (ms_db (ww_store ww))) !! sm_id stored = Some e) :
  let client := dw_sink dw in
  let key := idempotency_key (sm_id stored) in
  let q := queue_of (ms_db (ww_store ww)) in
  let q' := queue_of (ms_db (ww_store (run (world_handler sdk connect) (deliver_one dw stored now) ww).1)) in
  is_Some (q_entries q' !! sm_id stored) \/
  length (q_letters q') = Datatypes.S (length (q_letters q)) \/
  exists text mon, format_message (sm_message stored) (mc_message_template client) = Ok text /\
    accepts (send_monitor_step (Url := Url) (UserId := UserId) (Client := Client) (mc_require_e2ee client)
               (resolve (mc_router client) (sm_message stored)) text key)
      (mkSendMonitor None None false false)
      (trace sdk observe (send_message client (sm_message stored) key) (ww_sink ww)) = Some mon /\
    sm_sent mon = true.
Proof.
  intros client key q q'. subst q q'. pose proof (run_deliver_one sdk connect dw stored now ww) as Hrun.
  change (deliver (dw_sink dw) (sm_message stored) (idempotency_key (sm_id stored)))
    with (send_message (Url := Url) (Room := Room) client (sm_message stored) key) in Hrun.
  destruct (run sdk (send_message client (sm_message stored) key) (ww_sink ww)) as [t res] eqn:Hres.
  rewrite Hrun. cbn [fst ww_store].
  destruct res as [[]|err];
    [|destruct (settle_refused dw stored now (read_clock ww) err (ww_store ww) e Hwf Hqueued); by eauto].
  right. right. destruct (format_message (sm_message stored) (mc_message_template client)) as [text|err] eqn:Htext.
  - destruct (conforms_trace any_answer _ sdk sent_iff_ok _ _ (ww_sink ww) (fun _ _ _ => I)
      (send_message_conforms client (sm_message stored) key text Htext)) as (mon & Hmon & Hsent).
    exists text, mon. split_and!; [done|exact Hmon|]. apply Hsent. by rewrite Hres.
  - exfalso. unfold send_message in Hres. rewrite Htext in Hres. done.
Qed.
End Delivery.

(** An encrypted room: the alert is sent, and the outbox is empty. *)
Definition alert_store : MessageStore := steps [OpEnqueue 100 alert_message] (fresh_store [] 10).
Definition alert_worker : DeliveryWorker (MatrixClient str str unit) := mkWorker toy_client 2 60.
Definition alert_stored : StoredMessage := mkStored 1 alert_message 0.
Definition alert_world : WorkerWorld (list str) :=
  mkWorld alert_store (fun _ => 1000) 0 (fun _ => false) 0 [].
Definition toy_connect (s : list str) : list str * Result (MatrixClient str str unit) := (s, Ok toy_client).

Lemma gone_only_when_sent_witness :
  let ww' := (run (world_handler (toy_sdk true) toy_connect) (deliver_one alert_worker alert_stored 1000) alert_world).1 in
  ww_sink ww' = [lit ": "] /\ db_outbox (ms_db (ww_store ww')) = [] /\ db_dead (ms_db (ww_store ww')) = [] /\
  exists text mon, format_message alert_message (lit "t") = Ok text /\
    accepts (send_monitor_step (Url := str) (UserId := str) (Client := unit) true (lit "!alerts:x") text (lit "chimney-post-1"))
      (mkSendMonitor None None false false)
      (trace (toy_sdk true) observe (send_message toy_client alert_message (lit "chimney-post-1")) []) = Some mon /\
    sm_sent mon = true.
Proof.
  intros ww'. split; [vm_compute; reflexivity|]. split; [vm_compute; reflexivity|]. split; [vm_compute; reflexivity|].
  assert (db_wf (ms_db alert_store)) as Hwf by (apply steps_wf; [repeat constructor|apply SCHEMA_db_wf]).
  destruct (gone_only_when_sent (toy_sdk true) toy_connect alert_worker alert_stored 1000 (mkEntry alert_message 0 0)
    alert_world Hwf eq_refl) as [H|[H|H]].
  - exfalso. destruct H as [x H]. vm_compute in H. discriminate H.
  - exfalso. vm_compute in H. discriminate H.
  - exact H.
Defined.
