(* ===== verification/EndToEnd.v ===== *)
(** * End to end: from the client's bytes to the Matrix room

    The components one after the other on a day when everything works: the configuration
    is loaded, the client connects to the homeserver, an SMTP client delivers a mail, and
    the worker hands it over.  What a working homeserver is, is an interface
    ([WorkingSdk]) to the SDK's calls. *)

From S2P Require Import Prelude RustStr Utf8 Error Effects Store StoreFacts StoreSpec StoreProps Worker WorkerFacts Reader Address Mime.
From S2P Require Import ConfigData Routing Formatter Net Config ConfigProps Session SessionFacts SessionProps Client ClientProps.

Section EndToEnd.
Context {Url UserId RoomId Client Room : Type} {T : Type}.

Abbreviation CE := (ClientE Url UserId RoomId Client Room).

(** The answers of the SDK and the file system when nothing is wrong: the bot can log in
    as the configured device, is in its rooms, and these are encrypted. *)
Definition works (room_of : RoomId -> Room) (device : option str) {X} (e : CE X) : X -> Prop :=
  match e in ClientE _ _ _ _ _ X return X -> Prop with
  | CreateDirAll _ => fun x => x = Ok tt
  | BuildClient _ _ => fun x => exists client, x = Ok client
  | RestoreSession _ _ => fun x => x = Ok tt
  | LoginUsername _ _ _ _ _ => fun x => x = Ok tt
  | RemoveFile _ => fun _ => True
  | Whoami _ => fun x => x = Ok None \/ x = Ok device
  | SyncOnce _ => fun x => x = Ok tt
  | CrossSigningStatus _ => fun _ => True
  | BootstrapCrossSigning _ => fun _ => True
  | GetRoom _ room_id => fun x => x = Some (room_of room_id)
  | JoinRoomById _ _ => fun x => x = Ok tt
  | GetEncryptionState _ => fun x => x = Encrypted
  | RequestEncryptionState _ => fun x => x = Ok tt
  | SendText _ _ _ => fun x => x = Ok tt
  end.

(** What a call adds to the messages the homeserver was sent. *)
Definition sends {X} (e : CE X) : list (Room * str * str) :=
  match e with SendText room text transaction_id => [(room, text, transaction_id)] | _ => [] end.

Class WorkingSdk (sdk : handler CE T) (device : option str) : Type := {
  sdk_room : RoomId -> Room;
  sdk_sent : T -> list (Room * str * str);
  sdk_works X (e : CE X) t : works sdk_room device e (sdk X e t).2;
  sdk_sends X (e : CE X) t : sdk_sent (sdk X e t).1 = sdk_sent t ++ sends e;
}.

Context {Env Template : Type} `{Minijinja Env Template}.
Variable parse_url : str -> result str Url.
Variable parse_user_id : str -> result str UserId.
Variable parse_owned_room_id : str -> result str RoomId.
Variable config : Config.
Variable sdk : handler CE T.
Abbreviation device := (cred_device_id (mx_credentials (cfg_matrix config))).
Context `{!WorkingSdk sdk device}.

(** One call: its answer and what it sent. *)
Lemma sdk_call {A} X (e : CE X) (k : X -> prog CE A) t :
  exists t' x, works sdk_room device e x /\ sdk_sent t' = sdk_sent t ++ sends e /\ run sdk (Vis e k) t = run sdk (k x) t'.
Proof.
  pose proof (sdk_works X e t) as Hw. pose proof (sdk_sends X e t) as Hs. cbn [run].
  destruct (sdk X e t) as [t' x]. by exists t', x.
Qed.

Ltac sdk_step := 
  match goal with |- context [run sdk (Vis ?e ?k) ?t] =>
    let t' := fresh "t" in let x := fresh "x" in let Hx := fresh "Hx" in let Hs := fresh "Hs" in let Hr := fresh "Hr" in
    destruct (sdk_call _ e k t) as (t' & x & Hx & Hs & Hr); rewrite Hr; clear Hr; cbn [works sends] in Hx, Hs;
    rewrite ?app_nil_r in Hs; first [subst x|destruct Hx as [? ->]|idtac]; cbn [mbind prog_mbind prog_bind trigger call pure_ok]
  end.

(** ** Connecting *)

Lemma finish_connect_works user_id router client t :
  exists t' mc, run sdk (finish_connect config user_id router client) t = (t', Ok mc) /\ sdk_sent t' = sdk_sent t /\
    mc_router mc = router /\ mc_require_e2ee mc = mx_require_e2ee (cfg_matrix config) /\
    mc_message_template mc = mx_message_template (cfg_matrix config).
Proof.
  unfold finish_connect, call. cbn [mbind prog_mbind prog_bind trigger].
  sdk_step. assert (exists d, x = Ok d /\ verify_device_id device d = Ok tt) as (d & -> & Hd).
  { destruct Hx as [-> | ->]; eexists; (split; [done|]); unfold verify_device_id; destruct device; try done.
    rewrite bool_decide_eq_false_2; [done|]. by intros Hne. }
  rewrite Hd. cbn [pure_ok mbind prog_mbind prog_bind trigger]. sdk_step. sdk_step.
  assert (sdk_sent t2 = sdk_sent t) as Hsent by congruence.
  destruct (match x with Some is_complete => negb is_complete | None => true end).
  - cbn [mbind prog_mbind prog_bind trigger]. sdk_step. eexists _, _. split; [reflexivity|]. split_and!; [congruence|done..].
  - eexists _, _. split; [reflexivity|]. by split_and!.
Qed.
Lemma authenticate_works url store_path (auth : Client -> CE (result SdkError unit)) failed failed_after_reset client k t :
  (forall c x, works sdk_room device (auth c) x -> x = Ok tt) -> (forall c, sends (auth c) = []) ->
  exists t', sdk_sent t' = sdk_sent t /\
    run sdk (authenticate url store_path auth failed failed_after_reset client k) t = run sdk (k client) t'.
Proof.
  intros Hauth Hsends. unfold authenticate. cbn [mbind prog_mbind prog_bind trigger].
  match goal with |- context [run sdk (Vis (auth client) ?k0) t] =>
    destruct (sdk_call _ (auth client) k0 t) as (t' & x & Hx & Hs & ->) end.
  apply Hauth in Hx. subst x. rewrite Hsends, app_nil_r in Hs. by exists t'.
Qed.

(** With a valid configuration the client connects, and is the configuration's. *)
Lemma connect_works t :
  valid_config parse_url parse_user_id parse_owned_room_id config ->
  exists t' mc router, run sdk (connect parse_url parse_user_id parse_owned_room_id config) t = (t', Ok mc) /\
    sdk_sent t' = sdk_sent t /\ from_config parse_owned_room_id (cfg_matrix config) = Ok router /\
    mc_router mc = router /\ mc_message_template mc = mx_message_template (cfg_matrix config).
Proof.
  intros (_ & _ & _ & [_ [url Hurl]] & [_ [user Huser]] & _ & Hroutes & Hcred & _).
  apply build_is_Ok in Hroutes as [router Hrouter].
  unfold connect. rewrite Hurl. cbn [map_err pure_ok]. unfold call at 1. cbn [mbind prog_mbind prog_bind trigger].
  sdk_step. unfold build_client at 1, call at 1. cbn [mbind prog_mbind prog_bind trigger]. sdk_step.
  rewrite Huser. cbn [map_err pure_ok]. unfold from_config in *. rewrite Hrouter. cbn [pure_ok].
  assert (forall c t0, sdk_sent t0 = sdk_sent t -> exists t' mc router0,
    run sdk (finish_connect config user router c) t0 = (t', Ok mc) /\ sdk_sent t' = sdk_sent t /\
    (Ok router : Result (Router RoomId)) = Ok router0 /\ mc_router mc = router0 /\ mc_message_template mc = mx_message_template (cfg_matrix config)) as Hfin.
  { intros c t2 Ht2. destruct (finish_connect_works user router c t2) as (t' & mc & Hr & Hs' & Hrt & _ & Htm).
    exists t', mc, router. split_and!; [done|congruence|done..]. }
  destruct Hcred as [[[password Hp] Htok]|(Hp & token & dev & Htok & _ & Hdev & _)]; rewrite ?Hp, ?Htok.
  2: assert (forall e : ChimneyError.t, ok_or device e = Ok dev) as Hok by (intros e; by rewrite Hdev); rewrite Hok.
  all: cbn [pure_ok].
  all: match goal with |- context [run sdk (authenticate ?u ?sp ?auth ?f1 ?f2 ?c ?k) ?t0] =>
    destruct (authenticate_works u sp auth f1 f2 c k t0) as (t' & Hs' & Hrun);
      [by intros ? ? Hx|done|rewrite Hrun; apply Hfin; congruence] end.
Qed.

(** ** Sending *)

Lemma send_works mc message key text t :
  format_message message (mc_message_template mc) = Ok text ->
  exists t', run sdk (send_message mc message key) t = (t', Ok tt) /\
    sdk_sent t' = sdk_sent t ++ [(sdk_room (resolve (mc_router mc) message), text, key)].
Proof.
  intros Htext. unfold send_message. rewrite Htext. cbn [pure_ok mbind prog_mbind prog_bind trigger].
  sdk_step. unfold send_to_room, call. cbn [mbind prog_mbind prog_bind trigger]. sdk_step.
  cbn [is_unknown is_encrypted negb andb mbind prog_mbind prog_bind trigger]. sdk_step.
  eexists. split; [reflexivity|]. congruence.
Qed.
(** ** The worker's first two rounds *)

Abbreviation connects_to := (run sdk (connect parse_url parse_user_id parse_owned_room_id config)).

Lemma reconnect_works b (ww : WorkerWorld T) :
  valid_config parse_url parse_user_id parse_owned_room_id config -> ww_shutdown ww (ww_polls ww) = false ->
  exists t' mc router, run (world_handler sdk connects_to) (reconnect_body b) ww = (set_sink (polled ww) t', Break (Some mc)) /\
    sdk_sent t' = sdk_sent (ww_sink ww) /\ from_config parse_owned_room_id (cfg_matrix config) = Ok router /\
    mc_router mc = router /\ mc_message_template mc = mx_message_template (cfg_matrix config).
Proof.
  intros Hv Hsh. destruct (connect_works (ww_sink ww) Hv) as (t' & mc & router & Hrun & Hs & Hrt & H1 & H2).
  exists t', mc, router. split; [|by split_and!]. unfold reconnect_body. cbn -[connect]. rewrite Hsh. cbn -[connect].
  rewrite Hrun. reflexivity.
Qed.

(** A round that finds one fresh message delivers it and leaves the outbox empty. *)
Lemma round_works (dw : DeliveryWorker (MatrixClient UserId RoomId Client)) (ww : WorkerWorld T) row text :
  no_faults (ww_store ww) -> db_outbox (ms_db (ww_store ww)) = [row] -> row_next_attempt_at row = 0 ->
  read_clock ww <= i64_max ->
  format_message (sm_message (row_to_stored row)) (mc_message_template (dw_sink dw)) = Ok text ->
  exists ww', run (world_handler sdk connects_to) (run_body dw) ww = (ww', Continue) /\
    sdk_sent (ww_sink ww') = sdk_sent (ww_sink ww) ++
      [(sdk_room (resolve (mc_router (dw_sink dw)) (sm_message (row_to_stored row))), text, idempotency_key (row_id row))] /\
    db_outbox (ms_db (ww_store ww')) = [] /\ db_dead (ms_db (ww_store ww')) = db_dead (ms_db (ww_store ww)).
Proof.
  intros Hnf Hrow Hdue Hclock Htext.
  assert (claim_next_ready (unix_now (read_clock ww)) (ww_store ww) = (ww_store ww, Ok (Some (row_to_stored row)))) as Hclaim.
  { rewrite claim_no_faults by done. unfold next_row. rewrite Hrow, filter_cons_True; [done|].
    unfold row_ready. rewrite Hdue. apply Z.leb_le. unfold unix_now. destruct (Z.ltb_spec (read_clock ww) 0); [lia|].
    rewrite as_i64_id by (unfold is_i64, i64_min; lia). lia. }
  pose proof (round_claimed sdk connects_to dw ww (ww_store ww) (row_to_stored row) Hclaim) as Hround.
  change (deliver (dw_sink dw) ?m ?key) with (send_message (Url := Url) (Room := Room) (dw_sink dw) m key) in Hround.
  destruct (send_works (dw_sink dw) (sm_message (row_to_stored row)) (idempotency_key (sm_id (row_to_stored row))) text (ww_sink ww) Htext)
    as (t' & Hsend & Hsent).
  rewrite Hsend in Hround. eexists. split; [exact Hround|]. cbn [ww_sink ww_store settle]. split; [exact Hsent|].
  rewrite mark_delivered_no_faults by done. cbn. rewrite Hrow. split; [|done]. rewrite filter_cons_False; [done|]. intros Hne. by apply Hne.
Qed.
End EndToEnd.

(** C10: mail reaches its room.  The configuration was loaded, the homeserver works, the
    outbox is empty and the disk does what it should.  Then a client that sends a mail
    within the limits, however TCP cuts its bytes, is answered [250]; the worker, starting
    with any clock, connects, and its first round sends the homeserver exactly one
    message: the configured template filled with the mail, in the room of the first rule
    that matches the mail, with the key of the row; and it takes the mail out of the outbox
    without a dead letter. *)
Theorem mail_reaches_its_room {Url UserId RoomId Client Room T Env Template : Type} `{Minijinja Env Template}
    (parse_url : str -> result str Url) (parse_user_id : str -> result str UserId)
    (parse_owned_room_id : str -> result str RoomId) (toml_from_str : str -> result str Config)
    (read_to_string : str -> result str str) (env_var : str -> option str) (path : str) (config : Config)
    (sdk : handler (ClientE Url UserId RoomId Client Room) T)
    `{!WorkingSdk sdk (cred_device_id (mx_credentials (cfg_matrix config)))}
    (validate_email : str -> bool) (parse_mail : bytes -> option ParsedMail)
    (from : str) (to : list str) (ls : list bytes) (w : SmtpWorld) (text : str)
    (Hload : load_from_path parse_url parse_user_id parse_owned_room_id toml_from_str read_to_string env_var path = Ok config)
    (Hfrom : path_address from /\ (from = [] \/ validate_email from = true))
    (Hto : to <> [] /\ Forall (fun a => path_address a /\ a <> [] /\ validate_email a = true) to)
    (Hls : Forall is_line ls)
    (Hmax : zlen (concat ls) <= smtp_max_message_size (cfg_smtp config) <= u64_max - 4)
    (Hclean : clean (sw_reader w)) (Hbytes : reader_bytes (sw_reader w) = client_bytes from to ls)
    (Hwrites : sw_write_faults w = [])
    (Hdisk : no_faults (sw_store w)) (Hwf : db_wf (ms_db (sw_store w)))
    (Hempty : db_outbox (ms_db (sw_store w)) = []) (Hids : db_outbox_seq (ms_db (sw_store w)) < i64_max)
    (Htext : format_message (parse_data parse_mail (Some from) to (from_utf8_lossy (concat ls)))
               (mx_message_template (cfg_matrix config)) = Ok text) :
  let message := parse_data parse_mail (Some from) to (from_utf8_lossy (concat ls)) in
  let id := db_outbox_seq (ms_db (sw_store w)) + 1 in
  let world := world_handler sdk (run sdk (connect parse_url parse_user_id parse_owned_room_id config)) in
  exists w' router, from_config parse_owned_room_id (cfg_matrix config) = Ok router /\
    (forall fuel, (unread w < fuel)%nat ->
       run smtp_handler (handle_connection validate_email parse_mail fuel config) w = (w', Some (Ok tt))) /\
    sw_written w' = reverse (server_answers config to (Ok id)) ++ sw_written w /\
    forall ww b retries backoff, ww_store ww = sw_store w' -> ww_shutdown ww (ww_polls ww) = false ->
      read_clock ww <= i64_max -> exists ww1 mc ww2,
        run world (reconnect_body b) ww = (ww1, Break (Some mc)) /\
        run world (run_body (mkWorker mc retries backoff)) ww1 = (ww2, Continue) /\
        sdk_sent (ww_sink ww2) = sdk_sent (ww_sink ww) ++ [(sdk_room (resolve router message), text, idempotency_key id)] /\
        db_outbox (ms_db (ww_store ww2)) = [] /\
        db_dead (ms_db (ww_store ww2)) = db_dead (ms_db (sw_store w)).
Proof.
  intros message id world.
  assert (valid_config parse_url parse_user_id parse_owned_room_id config) as Hv.
  { apply load_from_path_spec in Hload. naive_solver. }
  pose proof (conversation_served validate_email parse_mail config from to ls w Hfrom Hto Hls Hmax Hclean Hbytes Hwrites) as Hconv.
  cbv zeta in Hconv. fold message in Hconv. rewrite enqueue_exact in Hconv by (done || by rewrite Hempty).
  rewrite Hempty in Hconv. cbn [length app] in Hconv.
  assert ((0 <? ms_max_len (sw_store w)) && (ms_max_len (sw_store w) <=? Z.of_nat 0) = false) as Hroom.
  { destruct (Z.ltb_spec 0 (ms_max_len (sw_store w))); [|done]. apply Z.leb_gt. lia. }
  rewrite Hroom, (proj2 (Z.eqb_neq _ _)) in Hconv by lia. cbv zeta in Hconv. fold id in Hconv.
  destruct Hconv as (w' & Hrun & Hstore & Hwritten).
  assert (is_Ok (from_config parse_owned_room_id (cfg_matrix config))) as [router Hrouter] by (apply build_is_Ok, Hv).
  exists w', router. split_and!; [done|exact Hrun|exact Hwritten|]. intros ww b retries backoff Hww Hsh Hclock.
  destruct (reconnect_works parse_url parse_user_id parse_owned_room_id config sdk b ww Hv Hsh)
    as (t' & mc & router' & Hconn & Hs & Hr' & Hmr & Hmt).
  assert (mc_router mc = router) as Hmr' by congruence.
  exists (set_sink (polled ww) t'), mc.
  set (row := mkRow id (msg_from message) (encode_recipients (msg_to message)) (msg_subject message)
    (msg_body message) 0 0 (unix_now (sw_clock w (sw_ticks w)))).
  assert (sm_message (row_to_stored row) = message) as Hmsg.
  { apply stored_form_id. by eapply served_storable. }
  destruct (round_works parse_url parse_user_id parse_owned_room_id config sdk (mkWorker mc retries backoff)
    (set_sink (polled ww) t') row text) as (ww2 & Hround & Hsent & Hout & Hdead).
  - cbn. by rewrite Hww, Hstore.
  - cbn. by rewrite Hww, Hstore.
  - done.
  - done.
  - rewrite Hmsg. cbn [dw_sink]. by rewrite Hmt.
  - exists ww2. split; [exact Hconn|]. split; [exact Hround|]. cbn [dw_sink ww_sink set_sink ww_store polled] in *.
    rewrite Hsent, Hs, Hmsg, Hmr', Hdead, Hww, Hstore. by split_and!.
Qed.

(** ** An execution: an alert, from the socket to its room *)

(** A homeserver on which everything works; it keeps what it was sent. *)
Definition room_sdk : handler (ClientE str str str unit str) (list (str * str * str)) := fun X e s =>
  match e in ClientE _ _ _ _ _ X return list (str * str * str) * X with
  | CreateDirAll _ => (s, Ok tt)
  | BuildClient _ _ => (s, Ok tt)
  | RestoreSession _ _ => (s, Ok tt)
  | LoginUsername _ _ _ _ _ => (s, Ok tt)
  | RemoveFile _ => (s, Ok tt)
  | Whoami _ => (s, Ok None)
  | SyncOnce _ => (s, Ok tt)
  | CrossSigningStatus _ => (s, Some true)
  | BootstrapCrossSigning _ => (s, Ok tt)
  | GetRoom _ room_id => (s, Some room_id)
  | JoinRoomById _ _ => (s, Ok tt)
  | GetEncryptionState _ => (s, Encrypted)
  | RequestEncryptionState _ => (s, Ok tt)
  | SendText room text transaction_id => (s ++ [(room, text, transaction_id)], Ok tt)
  end.

#[export] Instance room_sdk_works device : WorkingSdk room_sdk device.
Proof.
  refine {| sdk_room := fun room_id => room_id; sdk_sent := fun s => s |}; intros X e t; destruct e; cbn;
    rewrite ?app_nil_r; eauto.
Defined.

Definition alert_config : Config := example_config None (Some (lit "syt_1")) (Some (lit "DEV")).
Definition alert_client : bytes := client_bytes (lit "cron@x") [lit "alerts@chimney"] note_lines.
Definition alert_smtp : SmtpWorld := client_world [take 30 alert_client; drop 30 alert_client].
Definition alert_mail : Message := mkMessage (Some (lit "cron@x")) [lit "alerts@chimney"] (Some (lit "disk")) (lit ".full").

Lemma alert_config_loads :
  load_from_path toy_url toy_user toy_room toy_toml (fun _ => Ok (lit "file")) toy_env (lit "config.toml") = Ok alert_config.
Proof. vm_compute. reflexivity. Qed.

Definition alert_sdk := run room_sdk (connect toy_url toy_user toy_room alert_config).

Lemma mail_reaches_its_room_witness :
  from_config toy_room (cfg_matrix alert_config) = Ok toy_router /\ resolve toy_router alert_mail = lit "!alerts:x" /\
  exists w' router, from_config toy_room (cfg_matrix alert_config) = Ok router /\
    (forall fuel, (unread alert_smtp < fuel)%nat ->
       run smtp_handler (handle_connection toy_email no_mime fuel alert_config) alert_smtp = (w', Some (Ok tt))) /\
    sw_written w' = reverse (server_answers alert_config [lit "alerts@chimney"] (Ok 1)) ++ [] /\
    forall ww b retries backoff, ww_store ww = sw_store w' -> ww_shutdown ww (ww_polls ww) = false ->
      read_clock ww <= i64_max -> exists ww1 mc ww2,
        run (world_handler room_sdk alert_sdk) (reconnect_body b) ww = (ww1, Break (Some mc)) /\
        run (world_handler room_sdk alert_sdk) (run_body (mkWorker mc retries backoff)) ww1 = (ww2, Continue) /\
        ww_sink ww2 = ww_sink ww ++ [(resolve router alert_mail, lit "disk: .full", idempotency_key 1)] /\
        db_outbox (ms_db (ww_store ww2)) = [] /\ db_dead (ms_db (ww_store ww2)) = [].
Proof.
  assert (parse_data no_mime (Some (lit "cron@x")) [lit "alerts@chimney"] (from_utf8_lossy (concat note_lines)) = alert_mail) as Hmsg
    by (vm_compute; reflexivity).
  split; [vm_compute; reflexivity|]. split; [vm_compute; reflexivity|].
  pose proof (mail_reaches_its_room toy_url toy_user toy_room toy_toml (fun _ => Ok (lit "file")) toy_env (lit "config.toml")
    alert_config room_sdk toy_email no_mime (lit "cron@x") [lit "alerts@chimney"] note_lines alert_smtp (lit "disk: .full")
    alert_config_loads) as H.
  cbv zeta in H. rewrite Hmsg in H. apply H.
  - split; [split; by_decide|by right].
  - split; [discriminate|]. by_decide.
  - apply note_lines_ok.
  - split; vm_compute; discriminate.
  - repeat constructor.
  - vm_compute. reflexivity.
  - reflexivity.
  - reflexivity.
  - apply SCHEMA_db_wf.
  - reflexivity.
  - reflexivity.
  - reflexivity.
Defined.
